(* ===== verification/_CoqProject ===== *)
-Q . S2P
Prelude.v
Event.v
EventFactory.v
FrameParser.v
IngestSink.v
TcpServer.v
EpollServer.v
EpollWorkers.v
UdpServer.v
TopicTable.v
Spsc.v
Mpsc.v
Dedup.v
DedupReclaim.v
Dlq.v
Metrics.v
Histogram.v
Profiler.v
EventBus.v
Dispatcher.v
Fanout.v
Pipeline.v
Storage.v
Handlers.v
Output.v
Processor.v
Transactional.v
Batch.v
Manager.v
Drain.v
Safety.v
Ledger.v
Delivery.v
Engine.v
Access.v
Interleaving.v
Typing.v
Shutdown.v
Private.v
Teardown.v
Config.v
Pools.v
Numa.v
Descriptors.v
TcpLifecycle.v
UdpLifecycle.v
EpollLifecycle.v
Joining.v
Startup.v
Bridge.v
Embedding.v
ThreadPool.v
