(* ===== verification/Prelude.v ===== *)
(** * EventStreamCore: a verification development of the C++ event engine

    EventStreamCore receives events over TCP and UDP, routes them by topic and priority to
    three queues, and has one processor thread per queue handle, store and announce them.
    This library translates the engine's classes to executable definitions, or to step
    relations where several threads touch the same memory, and proves that they do what
    the engine promises.  File names below are relative to [src/]; [core/] abbreviates
    [src/core/] for sources and [include/eventstream/core/] for headers.

    ** The program and the files that model it

    An event travels through these parts, in this order.

    - Ingest.  [FrameParser.v] ([core/ingest/frame_parser.cpp]) is the wire format.
      [TcpServer.v] ([tcp.cpp]), [EpollServer.v] ([epoll.cpp]) and [UdpServer.v]
      ([udp.cpp]) cut the received bytes into frames: [handleClient], [processBuffer] with
      [handleRead], [acceptConnections_step] and [worker_event], and [receiveLoop].  They
      are written against the class [IngestSink.FrameSink], what a server does with a
      parsed frame.  [EpollWorkers.v] has the accept thread and the workers of the epoll
      server side by side.
    - Making the event.  [EventFactory.v] ([core/events/event_factory.cpp]) is the
      checksum and [createEvent]; [Event.v] ([core/events/event.hpp],
      [core/memory/hp_event.hpp]) the data and the shared heap of events; [Pools.v] the
      recycling of events: the per-thread [EventPool] ([core/memory/event_pool.hpp]) and
      the global [IngestEventPool] ([core/ingest/pool.hpp]).  [Pipeline.v] is the instance
      of [FrameSink] made of the pool, the factory and [Dispatcher::tryPush].
    - Routing.  [Dispatcher.v] ([core/events/dispatcher.cpp]): the inbound queue, [route]
      with the table of [TopicTable.v] ([core/events/topic_table.cpp]) and the pressure
      level, and a turn of the loop with its retries.
    - Queues.  [EventBus.v] ([core/events/event_bus.cpp]): three queues with their
      overflow policies.  The ring of the realtime queue is [Spsc.v]
      ([core/queues/spsc.hpp]), the inbound queue [Mpsc.v] ([core/queues/mpsc.hpp]), the
      place of what is thrown away [Dlq.v] ([core/events/dead_letter_queue.cpp]).
      [Fanout.v] runs the dispatcher on a whole burst.
    - Processing.  [Processor.v] holds the world of the processors, their monad and the
      realtime processor ([core/processor/realtime.cpp]); [Transactional.v]
      ([transactional.cpp]) and [Batch.v] ([batch.cpp]) the two others; [Manager.v]
      ([manager.cpp]) the loop that feeds them.  They use [Dedup.v]
      ([core/queues/dedup.cpp]; in [DedupReclaim.v] with its nodes in a heap, while
      [cleanup] runs), [Handlers.v] ([core/processor/handler.hpp], [alert.hpp]),
      [Output.v] ([output.hpp], the observers of processed events) and [Storage.v]
      ([core/storage/storage.cpp], the binary log).  [Drain.v] composes loop, processor and
      storage for the realtime and the batch queue, as [Manager.v] does for the
      transactional one, and [Delivery.v] puts the ends together: socket to file.
      [Safety.v] says which calls of a processor leave the rest of the engine as it was and
      [Ledger.v] what each adds to the books: the log, the buckets, the counters.
    - The whole.  [Engine.v] is the running engine with its threads interleaved: a server
      that delivers frames, the dispatcher, the three loops and the manager's switches.
      [Access.v] has the calls of the processors as programs of single accesses and
      [Interleaving.v] the engine with these calls side by side; [Typing.v] is the type
      of the events in it.  The ends of the threads are in [Shutdown.v], by whole calls, and
      in [Teardown.v], where the [stop] of a processor is a program of accesses too;
      [Private.v] has what that rests on, the state only one thread writes.
    - The program.  [Startup.v] ([main.cpp]; [start] and [stop] of the dispatcher and of the
      manager) builds the components, starts them and takes them down.  [TcpLifecycle.v],
      [UdpLifecycle.v] and [EpollLifecycle.v] are [start] and [stop] of the servers on the
      table of descriptors of [Descriptors.v]; [Joining.v] which of the joins return;
      [Numa.v] ([core/memory/numa.hpp]) the binding of threads and memory.
    - Around it.  [Metrics.v] ([core/metrics/registry.cpp]) and [Histogram.v]
      ([core/metrics/histogram.hpp]) measure, [Profiler.v] ([core/metrics/profiler.hpp],
      [core/utils/clock.hpp]) is used by no other part; [Config.v] ([core/config/loader.cpp]) reads
      the configuration, [Bridge.v] ([bridge/esccore.cpp]) is the C interface with its
      globals, [Embedding.v] its [init] and [shutdown] on the whole process, and
      [ThreadPool.v] ([core/utils/thread_pool.cpp]) a pool no other component uses.

    A file has one Module per class, named after it; a class's members are the fields of a
    Record and its functions are Definitions, by the names of the source.  This file holds
    what all share: machine words, bytes, [outcome], list lemmas and the tactics.

    ** How the code is translated

    - An unsigned integer is a [Z] and arithmetic that can leave its width goes through
      [wrap], [add64], [sub64].  A [double] is a binary64 number of [SpecFloat].
    - [outcome] is the result of a piece of code: [Ret], [Throw] with the message, or [UB]
      where C++ leaves the behaviour undefined (a read past a buffer, [front] of an empty
      queue, a freed object).  That [UB] is not reached is proved, or shown reachable.
    - Code one thread runs, or that holds a mutex, is a function from state to state.  A
      [shared_ptr] to an event is an address in a heap, because the dispatcher and the bus
      write through it.  The processors use the monad [M] of [Processor.v], in which what
      was done before an exception is kept.
    - Code that several threads run without a common mutex is a step relation, one step per
      access to shared memory, and the theorems speak of every interleaving: [SpscConc],
      [Mpsc], [DedupRace], [DedupReclaim], [IngestEventPool], [ThreadPool].  In the engine as a whole
      ([Engine.exec]) a step is a call of a part, what a thread carries between two calls is
      in the state, and a schedule is a list of calls in any order; [Interleaving.exec] takes
      the calls of the processors apart into their accesses - a counter, the dead-letter
      queue, the log, the observers, a flag, each under its own lock or atomic - and runs
      them in any order too, and [Teardown.exec] the loops' ends with them.  Memory is sequentially
      consistent; the orderings the source asks for are noted where they matter.
    - Clock readings, results of system calls, whether the file system accepts a write, the
      order a hash map is walked in, and what other threads do while a lock is released are
      arguments of the definitions; theorems hold for all of them unless they say so.
      Handlers, callbacks, observers and yaml-cpp are foreign code: parameters.
    - Log lines are left out, except where the log is the purpose (alerts, the dead-letter
      file).  [assert] is compiled out.  Integers on disk are little-endian, as on the hosts
      the build targets; the reason of a dropped batch is a C string, without NUL.

    ** What is proved

    - End to end.  [interleaved_conserves_events]: on every schedule of the whole engine,
      the calls of the processors interleaved access by access, each
      event that was admitted is in exactly one place - a queue, a thread's hand, the
      processors' books or the dead letters - and each queue hands its events on in order;
      [engine_conserves_events] is the same with whole calls, and [coarse_is_interleaved]
      says that those are schedules of the other kind.  [interleaved_calls_dispose_once]: each call that ends
      has logged, buried or put into a bucket its event once, and the log is a shuffle of what
      the three loops stored, nothing torn.  [interleaved_journal_exact] and
      [interleaved_shutdown_on_disk]: what becomes of every event, in every such schedule
      with the ends of the threads in it, and what the file holds once all have left, which
      from every state they can ([journal_exact] and [shutdown_on_disk] are the same by whole
      calls).  [engine_events_well_typed]: what an event
      looks like, always.  [engine_comes_to_rest]: without new frames the threads run out of work after a number
      of calls known beforehand, whatever their order, and then nothing is in flight.
      [socket_to_disk]: a burst that arrives over TCP at an idle engine is read
      back from the file, every frame once.  Its stages, for arbitrary input:
      [tcp_to_inbound], [udp_to_inbound], [epoll_to_inbound] (frames become the events of the
      inbound queue, in order, however the stream is cut), [dispatch_one_keeps_event] (the
      dispatcher loses none), [realtime_queue_to_disk], [transactional_queue_to_disk] and
      [batch_queue_to_disk] (what the file and the dead-letter queue hold after a loop).
    - The program.  [startup_wires_engine] (what [main] builds is the idle engine the
      delivery theorem asks for), [main_exit_code], [main_restores_descriptors] (a thread
      refused on the way unwinds what runs), [library_restarts] (the C interface gives back
      all it took and starts again as it did first), [stop_returns_when_woken], and as lemmas
      [tcp_gives_descriptors_back], [epoll_gives_descriptors_back], [bind_to_node_first_cpu].
    - Ingest.  [parseFullFrame_encode] and [parseFullFrame_total] (round trip, and exactly
      which error on which bytes), [tcp_reassembly], [tcp_buffer_bounded],
      [epoll_matches_tcp], [epoll_connections_isolated] (the pointer into the connection table
      used without the lock stays valid), [handleRead_verdict], [active_connections_accurate],
      [udp_datagram_handled].
    - Queues.  [bus_refines_queues] (a simulation by three bounded queues with policies),
      [spsc_interleaved_fifo], [mpsc_fifo_memory_safe], [dedup_refines_map],
      [dedup_insert_race], [dedup_cleanup_safe], [dlq_keeps_latest],
      [ingest_pool_safe], [pool_never_aliases], [thread_pool_runs_every_task].
    - Processing.  [realtime_disposition], [transactional_once_per_window],
      [batch_stores_each_once], [runLoop_in_order], [storage_log_roundtrip],
      [getHandler_longest_prefix], [builtin_handlers_guarded], [notify_keeps_subscribers],
      [subscriber_contract].
    - Data.  [calculateCRC32_reference], [crc32_detects_burst], [loadFromFile_print],
      [loadConfig_checked], [histogram_brackets], [observability_after_lifecycle].
    - What the code does not do.  Some theorems state a behaviour its authors did not
      intend, on every input of a class or on a run that is given: [second_consumer_duplicates],
      [storage_failure_loses_event], [full_disk_unnoticed], [pressure_is_sticky], [udp_length_overflow],
      [handler_exception_repeats], [mpsc_size_underflow_refuses],
      [dedup_contended_insert_lost], [dedup_reader_reads_freed],
      [dedup_recycled_head_accepts_twice], [alert_throw_loses_event], [batch_stop_throw_escapes], [batch_drop_counted_thrice], [shutdown_lost_wakeup],
      [observability_race], [worker_event_hangup_discards], [refused_epoll_closes_stdin],
      [tcp_stop_held_up], [unbound_server_reported], [refused_thread_leaks].

    ** Interfaces

    [IngestSink.FrameSink] separates the servers from the pipeline behind them;
    [Manager.LeavesQueues] is what a processor owes the loop that feeds it (it may throw,
    it leaves the queues alone), proved of the realtime and the transactional processor;
    the batch processor, told to drop, empties its own queue and is no instance.
    [Config.Yaml] is the part of yaml-cpp the loader calls.

    ** Fuel and bounds

    [TcpServer.drain] and [EpollServer.process_loop] get one unit more than the buffer has
    bytes and use at least four bytes a turn; that they never stop for lack of fuel is part
    of [tcp_buffer_bounded] and [handleRead_verdict].  [Storage.read_log], the reader of the
    specification, gets the number of events.  [Transactional.retry] and
    [Dispatcher.push_retry] recurse on the attempts left.  [Manager.turns] and
    [UdpServer.receiveLoop] recurse on the list of turns: how long a loop runs is decided by
    the other threads; [runLoop_in_order] says how many passes empty the queue.  A step
    relation has no fuel; for the thread pool [potential] bounds the number of its steps, for
    the joins of a [stop] [Joining.measure], for the engine [Engine.work_left].  [socket_to_disk] is about at most 12000 frames,
    what the realtime ring takes below the first pressure level, and one pass of each loop
    for each event.

    ** What is not modelled

    The kernel, libnuma, yaml-cpp and spdlog: their answers are parameters.  The socket
    options, the Windows branches and the signal handler of [main.cpp] have no state the
    engine reads.  [benchmark/] and [unittest/] are not part of the engine.  Nor are a
    processor with a storage of its own ([setStorage] on one that shares it, which [main] and
    the C interface do not call) and memory that runs out.  A thread that cannot be created is in
    the starts of all components; a client of the TCP server that is refused one ends the
    process ([TcpLifecycle.accept_client]), and the runs of the theorems meet none.  The
    dispatcher and the bus push a retry at a time: each push is one section under the queue's
    mutex or one operation of the ring, whose accesses are in [SpscConc]. *)

From Stdlib Require Export List ZArith Lia.
From stdpp Require Export base tactics gmap strings relations functions list.
From Stdlib Require Import Strings.Byte.

#[global] Open Scope Z_scope.
#[global] Set Default Proof Using "Type".

(** ** Machine words

    An unsigned integer of [w] bits is a [Z]; every operation of the code that
    can leave the range goes through [wrap w]. *)

Definition wrap (w x : Z) : Z := x mod 2 ^ w.

(** [std::atomic<uint64_t>::fetch_add], [size_t] addition and subtraction. *)
Definition add64 (x y : Z) : Z := wrap 64 (x + y).
Definition sub64 (x y : Z) : Z := wrap 64 (x - y).
Definition mul64 (x y : Z) : Z := wrap 64 (x * y).

Definition UINT64_MAX : Z := 18446744073709551615.

Definition in_word (w x : Z) : Prop := 0 <= x < 2 ^ w.

Create HintDb word.

Lemma wrap_range w x : 0 <= w -> in_word w (wrap w x).
Proof. intros. apply Z.mod_pos_bound. lia. Qed.

Lemma wrap_small w x : in_word w x -> wrap w x = x.
Proof. apply Z.mod_small. Qed.

Lemma wrap_add_l w x y : wrap w (wrap w x + y) = wrap w (x + y).
Proof. apply Zplus_mod_idemp_l. Qed.

Lemma add64_range x y : in_word 64 (add64 x y).
Proof. by apply wrap_range. Qed.

Lemma sub64_range x y : in_word 64 (sub64 x y).
Proof. by apply wrap_range. Qed.

Lemma add64_small x y : 0 <= x + y <= UINT64_MAX -> add64 x y = x + y.
Proof. unfold UINT64_MAX. intros. apply wrap_small. unfold in_word. lia. Qed.

Lemma sub64_small x y : 0 <= x - y <= UINT64_MAX -> sub64 x y = x - y.
Proof. unfold UINT64_MAX. intros. apply wrap_small. unfold in_word. lia. Qed.

Lemma sub64_under x y :
  0 <= x -> x < y -> y <= UINT64_MAX -> sub64 x y = x - y + 2 ^ 64.
Proof.
  unfold UINT64_MAX. intros. unfold sub64, wrap.
  symmetry; apply Z.mod_unique with (q := -1); lia.
Qed.

Lemma sub64_add64 x y : in_word 64 x -> sub64 (add64 x y) y = x.
Proof.
  intros Hx. unfold sub64, add64, wrap.
  rewrite Zminus_mod_idemp_l. replace (x + y - y) with x by lia. by apply Z.mod_small.
Qed.

Lemma wrap_narrow w x : 0 <= w <= 64 -> wrap w (wrap 64 x) = wrap w x.
Proof.
  intros Hw. unfold wrap. apply Z.mod_mod_divide.
  exists (2 ^ (64 - w)). rewrite <- Z.pow_add_r by lia. f_equal. lia.
Qed.

Lemma wrap_add64 w x y z : 0 <= w <= 64 -> wrap w (add64 x y + z) = wrap w (x + y + z).
Proof.
  intros Hw. unfold add64. rewrite <- (wrap_narrow w (wrap 64 (x + y) + z)) by done.
  by rewrite wrap_add_l, wrap_narrow.
Qed.

#[export] Hint Resolve add64_range sub64_range wrap_range : word.

(** ** Bytes *)

Abbreviation byte := Byte.byte.

#[global] Instance byte_eq_decision : EqDecision byte := Byte.byte_eq_dec.

(** The value of a [uint8_t], and the conversion to [uint8_t]. *)
Definition b2z (b : byte) : Z := Z.of_N (Byte.to_N b).
Definition z2b (z : Z) : byte :=
  match Byte.of_N (Z.to_N (z mod 256)) with Some b => b | None => Byte.x00 end.

Lemma b2z_range b : 0 <= b2z b < 256.
Proof. unfold b2z. pose proof (Byte.to_N_bounded b). lia. Qed.

Lemma z2b_b2z b : z2b (b2z b) = b.
Proof.
  unfold z2b. rewrite Z.mod_small by apply b2z_range.
  unfold b2z. by rewrite N2Z.id, Byte.of_to_N.
Qed.

Lemma b2z_z2b z : b2z (z2b z) = z mod 256.
Proof.
  unfold z2b, b2z. pose proof (Z.mod_pos_bound z 256 ltac:(lia)) as Hz.
  destruct (Byte.of_N (Z.to_N (z mod 256))) as [b|] eqn:E.
  - apply Byte.to_of_N in E. rewrite E. lia.
  - apply Byte.of_N_None_iff in E. lia.
Qed.

Lemma b2z_inj b b' : b2z b = b2z b' -> b = b'.
Proof. intros H. by rewrite <- (z2b_b2z b), <- (z2b_b2z b'), H. Qed.

#[global] Instance b2z_injective : Inj (=) (=) b2z := b2z_inj.

(** A little-endian integer of [n] bytes, as [memcpy] lays it out on the
    x86-64 hosts the build targets. *)
Fixpoint le_bytes (n : nat) (z : Z) : list byte :=
  match n with
  | O => []
  | S n' => z2b z :: le_bytes n' (z / 256)
  end.

Fixpoint le_val (bs : list byte) : Z :=
  match bs with
  | [] => 0
  | b :: bs' => b2z b + 256 * le_val bs'
  end.

(** Big-endian (network order), as [ntohl]/[ntohs] and the shifts of the ingest
    servers read it. *)
Definition be_val (bs : list byte) : Z := le_val (rev bs).
Definition be_bytes (n : nat) (z : Z) : list byte := rev (le_bytes n z).

Lemma length_le_bytes n z : length (le_bytes n z) = n.
Proof. revert z; induction n; intros; simpl; auto. Qed.

Lemma length_be_bytes n z : length (be_bytes n z) = n.
Proof. unfold be_bytes. by rewrite length_rev, length_le_bytes. Qed.

Lemma le_val_range bs : 0 <= le_val bs < 256 ^ Z.of_nat (length bs).
Proof.
  induction bs as [|b bs IH]; simpl length; [simpl; lia|].
  rewrite Nat2Z.inj_succ, Z.pow_succ_r by lia. simpl le_val.
  pose proof (b2z_range b). nia.
Qed.

Lemma be_val_range bs : 0 <= be_val bs < 256 ^ Z.of_nat (length bs).
Proof. unfold be_val. rewrite <- (length_rev bs). apply le_val_range. Qed.

Lemma le_val_bytes n z : 0 <= z < 256 ^ Z.of_nat n -> le_val (le_bytes n z) = z.
Proof.
  revert z; induction n as [|n IH]; intros z Hz; [simpl in *; lia|].
  rewrite Nat2Z.inj_succ, Z.pow_succ_r in Hz by lia. simpl.
  rewrite IH, b2z_z2b; [pose proof (Z.div_mod z 256); lia|].
  split; [apply Z.div_pos; lia|apply Z.div_lt_upper_bound; lia].
Qed.

Lemma be_val_bytes n z : 0 <= z < 256 ^ Z.of_nat n -> be_val (be_bytes n z) = z.
Proof. intros. unfold be_val, be_bytes. rewrite rev_involutive. by apply le_val_bytes. Qed.

Lemma le_bytes_val bs : le_bytes (length bs) (le_val bs) = bs.
Proof.
  induction bs as [|b bs IH]; [done|]. simpl.
  pose proof (b2z_range b) as Hb. f_equal.
  - apply b2z_inj. rewrite b2z_z2b, Z.mul_comm, Z_mod_plus_full. by apply Z.mod_small.
  - rewrite Z.mul_comm, Z.div_add, Z.div_small by lia. apply IH.
Qed.

Lemma be_bytes_val bs : be_bytes (length bs) (be_val bs) = bs.
Proof.
  unfold be_bytes, be_val. rewrite <- (length_rev bs), le_bytes_val. apply rev_involutive.
Qed.

(** Bits that do not overlap: an or is a sum. *)
Lemma testbit_above x n m : 0 <= x < 2 ^ n -> n <= m -> Z.testbit x m = false.
Proof.
  intros Hx Hm. destruct (Z.eq_dec x 0) as [->|]; [apply Z.bits_0|].
  apply Z.bits_above_log2; [lia|]. eapply Z.lt_le_trans; [|exact Hm].
  apply Z.log2_lt_pow2; lia.
Qed.

Lemma lor_shiftl_low x y n : 0 <= n -> 0 <= y < 2 ^ n -> Z.lor (Z.shiftl x n) y = x * 2 ^ n + y.
Proof.
  intros Hn Hy.
  assert (Hl : Z.land (Z.shiftl x n) y = 0).
  { apply Z.bits_inj'. intros m Hm. rewrite Z.land_spec, Z.bits_0.
    destruct (Z.ltb_spec m n).
    - by rewrite Z.shiftl_spec_low.
    - rewrite (testbit_above y n m) by lia. apply andb_false_r. }
  by rewrite <- Z.lxor_lor, <- Z.add_nocarry_lxor, Z.shiftl_mul_pow2 by done.
Qed.

(** ** The result of a C++ call

    [Ret]: it returns; [Throw]: it leaves by a [std::exception] with that
    message; [UB]: it reads or writes outside an object, which C++ leaves
    undefined. *)
Inductive outcome (A : Type) : Type :=
| Ret (a : A)
| Throw (what : string)
| UB.
Arguments Ret {A} _.
Arguments Throw {A} _.
Arguments UB {A}.

#[global] Instance outcome_ret : MRet outcome := fun A a => Ret a.
#[global] Instance outcome_bind : MBind outcome := fun A B k m =>
  match m with Ret a => k a | Throw e => Throw e | UB => UB end.

#[global] Instance outcome_eq_dec `{EqDecision A} : EqDecision (outcome A).
Proof. solve_decision. Defined.

Lemma outcome_bind_ret {A B} (m : outcome A) (k : A -> outcome B) b :
  (m ≫= k) = Ret b <-> exists a, m = Ret a /\ k a = Ret b.
Proof. destruct m; cbn; naive_solver. Qed.

Lemma outcome_bind_ub {A B} (m : outcome A) (k : A -> outcome B) :
  (m ≫= k) = UB <-> m = UB \/ exists a, m = Ret a /\ k a = UB.
Proof. destruct m; cbn; naive_solver. Qed.

(** ** Byte regions: the memory a pointer argument points into *)

Definition zlen {A} (l : list A) : Z := Z.of_nat (length l).

(** [n] bytes from offset [i] of the region; outside it the read is undefined. *)
Definition rd_range (mem : list byte) (i n : Z) : outcome (list byte) :=
  if (i <? 0) || (n <? 0) || (zlen mem <? i + n) then UB
  else Ret (take (Z.to_nat n) (drop (Z.to_nat i) mem)).

Lemma zlen_nil {A} : zlen (@nil A) = 0.
Proof. done. Qed.
Lemma zlen_cons {A} (x : A) l : zlen (x :: l) = 1 + zlen l.
Proof. unfold zlen. simpl. lia. Qed.
Lemma zlen_app {A} (l k : list A) : zlen (l ++ k) = zlen l + zlen k.
Proof. unfold zlen. rewrite length_app. lia. Qed.
Lemma zlen_insert {A} (l : list A) i x : zlen (<[i := x]> l) = zlen l.
Proof. unfold zlen. by rewrite length_insert. Qed.
Lemma zlen_nonneg {A} (l : list A) : 0 <= zlen l.
Proof. unfold zlen. lia. Qed.
Lemma zlen_0 {A} (l : list A) : zlen l = 0 -> l = [].
Proof. unfold zlen. intros. apply length_zero_iff_nil. lia. Qed.
Lemma zlen_drop {A} (l : list A) n :
  0 <= n <= zlen l -> zlen (drop (Z.to_nat n) l) = zlen l - n.
Proof. unfold zlen. intros. rewrite length_drop. lia. Qed.
Lemma zlen_take {A} (l : list A) n :
  0 <= n <= zlen l -> zlen (take (Z.to_nat n) l) = n.
Proof. unfold zlen. intros. rewrite length_take. lia. Qed.

Create Rewrite HintDb zlen.
#[export] Hint Rewrite @zlen_nil @zlen_cons @zlen_app @zlen_insert : zlen.

Lemma rd_range_ok mem i n :
  0 <= i -> 0 <= n -> i + n <= zlen mem ->
  rd_range mem i n = Ret (take (Z.to_nat n) (drop (Z.to_nat i) mem)).
Proof.
  intros. unfold rd_range.
  by rewrite (proj2 (Z.ltb_ge i 0)), (proj2 (Z.ltb_ge n 0)), (proj2 (Z.ltb_ge (zlen mem) (i + n)))
    by lia.
Qed.

Lemma rd_range_ub mem i n :
  0 <= i -> 0 <= n -> zlen mem < i + n -> rd_range mem i n = UB.
Proof.
  intros. unfold rd_range. rewrite (proj2 (Z.ltb_lt (zlen mem) (i + n))) by lia.
  by rewrite orb_true_r.
Qed.

Lemma rd_range_no_throw mem i n e : rd_range mem i n <> Throw e.
Proof. unfold rd_range. by case_match. Qed.

(** Reading the middle part of a region laid out as three parts. *)
Lemma rd_range_app (l m r : list byte) i n :
  i = zlen l -> n = zlen m -> rd_range (l ++ m ++ r) i n = Ret m.
Proof.
  intros -> ->. pose proof (zlen_nonneg l). pose proof (zlen_nonneg m).
  pose proof (zlen_nonneg r). rewrite rd_range_ok by (autorewrite with zlen; lia).
  unfold zlen. rewrite !Nat2Z.id, drop_app_length, take_app_length. done.
Qed.

(** The sum of a measure over a list. *)
Definition zsum {A} (f : A -> Z) (l : list A) : Z := fold_right (fun x n => f x + n) 0 l.

Lemma zsum_insert {A} (f : A -> Z) l i x y :
  l !! i = Some x -> zsum f (<[i := y]> l) = zsum f l - f x + f y.
Proof.
  revert i; induction l as [|z l IH]; intros [|i] Hi; simplify_eq/=; [lia|].
  rewrite (IH i Hi). lia.
Qed.

Lemma zsum_le {A} (f g : A -> Z) l : (forall x, f x <= g x) -> zsum f l <= zsum g l.
Proof. intros Hfg. induction l as [|z l IH]; simpl; [lia|]. specialize (Hfg z). lia. Qed.

Lemma zsum_const {A} c (l : list A) : zsum (fun _ => c) l = c * zlen l.
Proof. induction l as [|z l IH]; simpl; autorewrite with zlen; simpl; lia. Qed.

Lemma zsum_app {A} (f : A -> Z) l k : zsum f (l ++ k) = zsum f l + zsum f k.
Proof. induction l as [|z l IH]; simpl; lia. Qed.

(** ** Transition systems: reachability is stdpp's [rtc] *)

Lemma rtc_invariant {A} (R : relation A) (I : A -> Prop) :
  (forall x y, I x -> R x y -> I y) ->
  forall x y, rtc R x y -> I x -> I y.
Proof. intros Hstep x y Hr. induction Hr; eauto. Qed.

(** ** Tactics of the development *)

(** Case analysis on the boolean tests of a translated body, each test turned
    into the proposition it decides. *)
Ltac bool_to_prop :=
  repeat match goal with
  | H : (_ <? _) = true |- _ => apply Z.ltb_lt in H
  | H : (_ <? _) = false |- _ => apply Z.ltb_ge in H
  | H : (_ <=? _) = true |- _ => apply Z.leb_le in H
  | H : (_ <=? _) = false |- _ => apply Z.leb_gt in H
  | H : (_ =? _) = true |- _ => apply Z.eqb_eq in H
  | H : (_ =? _) = false |- _ => apply Z.eqb_neq in H
  | H : (_ && _)%bool = true |- _ => apply andb_prop in H as [? ?]
  | H : (_ || _)%bool = false |- _ => apply orb_false_elim in H as [? ?]
  | H : negb _ = true |- _ => apply negb_true_iff in H
  | H : negb _ = false |- _ => apply negb_false_iff in H
  end.

Ltac split_tests := repeat (case_match; simplify_eq/=); bool_to_prop.

(** Reduce the boolean tests of the goal that [lia] decides. *)
Ltac decide_tests :=
  repeat match goal with
  | |- context [?a <? ?b] =>
      first [ rewrite (proj2 (Z.ltb_lt a b)) by lia
            | rewrite (proj2 (Z.ltb_ge a b)) by lia ]
  | |- context [?a <=? ?b] =>
      first [ rewrite (proj2 (Z.leb_le a b)) by lia
            | rewrite (proj2 (Z.leb_gt a b)) by lia ]
  | |- context [?a =? ?b] =>
      first [ rewrite (proj2 (Z.eqb_eq a b)) by lia
            | rewrite (proj2 (Z.eqb_neq a b)) by lia ]
  end; cbn [andb orb negb].
