(* ===== verification/Event.v ===== *)
(** * Events: [include/eventstream/core/events/event.hpp] and
    [include/eventstream/core/memory/hp_event.hpp]

    The data every component exchanges.  Events live on the heap and are shared
    through [EventPtr]; a component that writes through the pointer (the
    dispatcher changes the priority, the bus stamps the dequeue time) is seen by
    every other holder, so the store is explicit. *)

From S2P Require Import Prelude.

(** ** Data *)

Inductive EventSourceType := TCP | UDP | FILE | INTERNAL | PLUGIN | PYTHON.

(** The declaration order gives the enumerators 0..5. *)
Definition source_code (s : EventSourceType) : Z :=
  match s with TCP => 0 | UDP => 1 | FILE => 2 | INTERNAL => 3 | PLUGIN => 4 | PYTHON => 5 end.

Inductive EventPriority := BATCH | LOW | MEDIUM | HIGH | CRITICAL.

Definition priority_code (p : EventPriority) : Z :=
  match p with BATCH => 0 | LOW => 1 | MEDIUM => 2 | HIGH => 3 | CRITICAL => 4 end.

(** [static_cast<EventPriority>(v)] for the values the callers let through. *)
Definition priority_of_code (v : Z) : EventPriority :=
  if v =? 0 then BATCH else if v =? 1 then LOW else if v =? 2 then MEDIUM
  else if v =? 3 then HIGH else CRITICAL.

(** The built-in comparison of the enumeration. *)
Definition priority_lt (p q : EventPriority) : bool := priority_code p <? priority_code q.

#[global] Instance EventSourceType_eq_dec : EqDecision EventSourceType.
Proof. solve_decision. Defined.
#[global] Instance EventPriority_eq_dec : EqDecision EventPriority.
Proof. solve_decision. Defined.

Record EventHeader := mkEventHeader {
  sourceType : EventSourceType;
  priority : EventPriority;
  id : Z;          (* uint32_t *)
  timestamp : Z;   (* uint64_t *)
  body_len : Z;    (* uint32_t *)
  topic_len : Z;   (* uint16_t *)
  crc32 : Z        (* uint32_t *)
}.

Record Event := mkEvent {
  header : EventHeader;
  topic : string;
  body : list byte;
  metadata : gmap string string;
  dequeue_time_ns : Z   (* uint64_t *)
}.

#[global] Instance EventHeader_eq_dec : EqDecision EventHeader.
Proof. solve_decision. Defined.
#[global] Instance Event_eq_dec : EqDecision Event.
Proof. solve_decision. Defined.

(** The constructor of the struct: the dequeue time starts at 0. *)
Definition new_event (h : EventHeader) (t : string) (b : list byte)
    (m : gmap string string) : Event := mkEvent h t b m 0.

Definition set_priority (p : EventPriority) (e : Event) : Event :=
  mkEvent (mkEventHeader (sourceType (header e)) p (id (header e)) (timestamp (header e))
             (body_len (header e)) (topic_len (header e)) (crc32 (header e)))
          (topic e) (body e) (metadata e) (dequeue_time_ns e).

Definition set_dequeue_time (t : Z) (e : Event) : Event :=
  mkEvent (header e) (topic e) (body e) (metadata e) t.

(** ** Shared events

    An [EventPtr] is a [shared_ptr<Event>]: null, or the address of an event of
    the heap.  Addresses are [positive]. *)

Abbreviation loc := positive.
Abbreviation Heap := (gmap loc Event).
Abbreviation EventPtr := (option loc).

(** [*p]: undefined for a null pointer and for an address that is not live. *)
Definition deref (h : Heap) (p : EventPtr) : outcome Event :=
  match p with
  | Some l => match h !! l with Some e => Ret e | None => UB end
  | None => UB
  end.

(** [p->field = ...]. *)
Definition modify (f : Event -> Event) (h : Heap) (p : EventPtr) : outcome Heap :=
  match p with
  | Some l => match h !! l with Some e => Ret (<[l := f e]> h) | None => UB end
  | None => UB
  end.

Definition live (h : Heap) (p : EventPtr) : Prop := exists l e, p = Some l /\ h !! l = Some e.

(** ** Facts *)

Lemma priority_code_range p : 0 <= priority_code p <= 4.
Proof. destruct p; simpl; lia. Qed.

Lemma priority_of_code_code p : priority_of_code (priority_code p) = p.
Proof. by destruct p. Qed.

Lemma priority_code_of_code v : 0 <= v <= 4 -> priority_code (priority_of_code v) = v.
Proof. intros. unfold priority_of_code. split_tests; lia. Qed.

#[global] Instance priority_code_inj : Inj (=) (=) priority_code.
Proof. intros p q H. by rewrite <- (priority_of_code_code p), H, priority_of_code_code. Qed.

Lemma priority_lt_spec p q : priority_lt p q = true <-> priority_code p < priority_code q.
Proof. apply Z.ltb_lt. Qed.

Lemma deref_live h p : live h p <-> exists e, deref h p = Ret e.
Proof.
  split.
  - intros (l & e & -> & He). exists e. cbn. by rewrite He.
  - intros (e & He). destruct p as [l|]; cbn in He; [|done]. case_match; [|done].
    unfold live. naive_solver.
Qed.

Lemma modify_live f h p : live h p -> exists l e,
  p = Some l /\ h !! l = Some e /\ modify f h p = Ret (<[l := f e]> h).
Proof. intros (l & e & -> & He). exists l, e. cbn. by rewrite He. Qed.

Lemma live_modify f h h' p q : modify f h p = Ret h' -> live h q -> live h' q.
Proof.
  intros Hm (l & e & -> & He). destruct p as [k|]; cbn in Hm; [|done].
  case_match; simplify_eq. destruct (decide (k = l)) as [->|Hne].
  - exists l, (f e0). by rewrite lookup_insert_eq.
  - exists l, e. by rewrite lookup_insert_ne.
Qed.

(** ** [HighPerformanceEvent] *)

Module HighPerformanceEvent.

Definition PAYLOAD_SIZE : nat := 512.

Record t := mk {
  pool_index_ : Z;                  (* size_t *)
  event_id : Z;                     (* uint64_t *)
  topic_id : Z;                     (* uint32_t *)
  ingest_timestamp_ns : Z;          (* uint64_t *)
  dequeue_timestamp_ns : Z;         (* uint64_t *)
  process_done_timestamp_ns : Z;    (* uint64_t *)
  payload_size : Z;                 (* uint32_t *)
  source_type : Z;                  (* uint32_t *)
  payload : list byte
}.

Definition reset (e : t) : t :=
  mk (pool_index_ e) 0 0 0 0 0 0 0 (replicate PAYLOAD_SIZE Byte.x00).

Definition ingest_to_dequeue_ns (e : t) : Z :=
  sub64 (dequeue_timestamp_ns e) (ingest_timestamp_ns e).
Definition dequeue_to_done_ns (e : t) : Z :=
  sub64 (process_done_timestamp_ns e) (dequeue_timestamp_ns e).
Definition total_latency_ns (e : t) : Z :=
  sub64 (process_done_timestamp_ns e) (ingest_timestamp_ns e).

(** The two stages add up to the total in 64-bit arithmetic, whatever the
    clock did between the readings. *)
Lemma latency_decomposes e :
  add64 (ingest_to_dequeue_ns e) (dequeue_to_done_ns e) = total_latency_ns e.
Proof.
  unfold ingest_to_dequeue_ns, dequeue_to_done_ns, total_latency_ns, add64, sub64, wrap.
  rewrite <- Z.add_mod by lia. f_equal. lia.
Qed.

End HighPerformanceEvent.
