(* ===== verification/EventFactory.v ===== *)
(** * The event factory: [src/core/events/event_factory.cpp]

  Module [EventFactory]: the table-driven CRC-32 and [createEvent].  The CRC is
  proved equal to the bit-serial definition of the polynomial 0xEDB88320, and
  to detect every corruption confined to one byte. *)

From S2P Require Import Prelude Event.

Module EventFactory.

Definition POLY : Z := 3988292384.       (* 0xEDB88320 *)
Definition MASK32 : Z := 4294967295.     (* 0xFFFFFFFF *)

(** One turn of the inner loop of the table's initialiser. *)
Definition crc_bit (crc : Z) : Z :=
  if Z.testbit crc 0 then Z.lxor (Z.shiftr crc 1) POLY else Z.shiftr crc 1.

Definition crc_table_entry (i : Z) : Z := Nat.iter 8 crc_bit i.

(** [CRC32_TABLE], filled once by [std::call_once]. *)
Definition CRC32_TABLE : list Z :=
  Eval vm_compute in map (fun i => crc_table_entry (Z.of_nat i)) (seq 0 256).

Definition crc_step (crc : Z) (b : byte) : Z :=
  Z.lxor (Z.shiftr crc 8)
         (nth (Z.to_nat (Z.land (Z.lxor crc (b2z b)) 255)) CRC32_TABLE 0).

Definition calculateCRC32 (data : list byte) : Z :=
  Z.lxor (fold_left crc_step data MASK32) MASK32.

(** [global_event_id] is a 64-bit counter; an event takes its low 32 bits. *)
Definition createEvent (global_event_id now_ns : Z)
    (sourceType : EventSourceType) (priority : EventPriority)
    (payload : list byte) (topic : string) (metadata : gmap string string)
    : Event * Z :=
  let h := mkEventHeader sourceType priority
             (wrap 32 (Z.land global_event_id 4294967295))
             (wrap 64 now_ns)
             (wrap 32 (zlen payload))
             (wrap 16 (Z.of_nat (String.length topic)))
             (calculateCRC32 payload) in
  (new_event h topic payload metadata, add64 global_event_id 1).

(** A run of calls, as the ingest threads make them one after the other on the
    shared counter: the request is the arguments and the clock reading. *)
Record request := mkRequest {
  r_now : Z; r_source : EventSourceType; r_priority : EventPriority;
  r_payload : list byte; r_topic : string; r_metadata : gmap string string
}.

Fixpoint create_run (counter : Z) (rs : list request) : list Event * Z :=
  match rs with
  | [] => ([], counter)
  | r :: rs' =>
      let '(e, counter1) := createEvent counter (r_now r) (r_source r) (r_priority r)
                              (r_payload r) (r_topic r) (r_metadata r) in
      let '(es, counter2) := create_run counter1 rs' in (e :: es, counter2)
  end.

(** ** The reference: one bit of the message at a time *)

Definition crc_byte_ref (crc : Z) (b : byte) : Z :=
  Nat.iter 8 crc_bit (Z.lxor crc (b2z b)).

Definition crc32_reference (data : list byte) : Z :=
  Z.lxor (fold_left crc_byte_ref data MASK32) MASK32.

Example crc_check_value :
  calculateCRC32 [Byte.x31; Byte.x32; Byte.x33; Byte.x34; Byte.x35; Byte.x36;
                  Byte.x37; Byte.x38; Byte.x39] = 3421780262.
Proof. vm_compute. reflexivity. Qed.

(** ** The table *)

Lemma CRC32_TABLE_entry i :
  0 <= i < 256 -> nth (Z.to_nat i) CRC32_TABLE 0 = crc_table_entry i.
Proof.
  intros Hi.
  assert (Hall : forallb (fun n => nth n CRC32_TABLE 0 =? crc_table_entry (Z.of_nat n))
                   (seq 0 256) = true) by (vm_compute; reflexivity).
  rewrite forallb_forall in Hall. specialize (Hall (Z.to_nat i)).
  rewrite Z2Nat.id in Hall by lia.
  apply Z.eqb_eq, Hall, in_seq. lia.
Qed.

(** ** [crc_bit] is linear over exclusive or, and injective on 32 bits *)

Lemma crc_bit_lxor x y : crc_bit (Z.lxor x y) = Z.lxor (crc_bit x) (crc_bit y).
Proof.
  unfold crc_bit. rewrite Z.lxor_spec, Z.shiftr_lxor.
  destruct (Z.testbit x 0), (Z.testbit y 0); simpl;
    apply Z.bits_inj'; intros n _; rewrite ?Z.lxor_spec;
    repeat match goal with |- context [Z.testbit ?a ?b] => destruct (Z.testbit a b) end;
    reflexivity.
Qed.

Lemma crc_bits_lxor n x y :
  Nat.iter n crc_bit (Z.lxor x y) = Z.lxor (Nat.iter n crc_bit x) (Nat.iter n crc_bit y).
Proof. induction n as [|n IH]; [done|]. simpl. by rewrite IH, crc_bit_lxor. Qed.

Lemma crc_bit_double z : crc_bit (Z.shiftl z 1) = z.
Proof.
  unfold crc_bit. rewrite Z.shiftl_mul_pow2 by lia.
  rewrite Z.mul_comm, Z.testbit_even_0, <- Z.div2_spec.
  by rewrite Z.div2_div, Z.mul_comm, Z.div_mul.
Qed.

Lemma crc_bits_shiftl n z : Nat.iter n crc_bit (Z.shiftl z (Z.of_nat n)) = z.
Proof.
  revert z; induction n as [|n IH]; intros z; [by rewrite Z.shiftl_0_r|].
  rewrite Nat.iter_succ_r.
  replace (Z.of_nat (S n)) with (Z.of_nat n + 1) by lia.
  rewrite <- Z.shiftl_shiftl by lia. by rewrite crc_bit_double.
Qed.

Lemma crc_byte_shiftl z : Nat.iter 8 crc_bit (Z.shiftl z 8) = z.
Proof. apply (crc_bits_shiftl 8). Qed.

Lemma lxor_word w x y : 0 <= w -> in_word w x -> in_word w y -> in_word w (Z.lxor x y).
Proof.
  unfold in_word. intros Hw Hx Hy.
  assert (Hn : 0 <= Z.lxor x y) by (apply Z.lxor_nonneg; lia).
  split; [done|]. destruct (Z.eq_dec (Z.lxor x y) 0) as [->|Hne]; [lia|].
  apply Z.log2_lt_pow2; [lia|].
  eapply Z.le_lt_trans; [apply Z.log2_lxor; lia|].
  assert (Hlog : forall z, 0 <= z < 2 ^ w -> 0 < z -> Z.log2 z < w)
    by (intros z Hz Hp; apply Z.log2_lt_pow2; lia).
  destruct (Z.eq_dec x 0) as [->|], (Z.eq_dec y 0) as [->|].
  - by rewrite Z.lxor_0_l in Hne.
  - rewrite Z.lxor_0_l in *. rewrite Z.max_r by apply Z.log2_nonneg. apply Hlog; lia.
  - rewrite Z.lxor_0_r in *. rewrite Z.max_l by apply Z.log2_nonneg. apply Hlog; lia.
  - pose proof (Hlog x ltac:(lia) ltac:(lia)). pose proof (Hlog y ltac:(lia) ltac:(lia)). lia.
Qed.

Lemma crc_bit_word x : in_word 32 x -> in_word 32 (crc_bit x).
Proof.
  intros Hx.
  assert (Hs : in_word 32 (Z.shiftr x 1)).
  { unfold in_word in *. rewrite Z.shiftr_div_pow2 by lia.
    split; [apply Z.div_pos; lia|apply Z.div_lt_upper_bound; lia]. }
  unfold crc_bit. case_match; [|done].
  apply lxor_word; [lia|done|]. unfold in_word, POLY. lia.
Qed.

Lemma crc_bits_word n x : in_word 32 x -> in_word 32 (Nat.iter n crc_bit x).
Proof. intros Hx. induction n; simpl; auto using crc_bit_word. Qed.

Lemma crc_bit_kernel x : in_word 32 x -> crc_bit x = 0 -> x = 0.
Proof.
  unfold in_word, crc_bit. intros Hx.
  rewrite Z.shiftr_div_pow2 by lia. change (2 ^ 1) with 2.
  pose proof (Z.div_mod x 2 ltac:(lia)) as Hd.
  rewrite Z.bit0_odd. rewrite Zmod_odd in Hd. destruct (Z.odd x); intros H0.
  - apply Z.lxor_eq in H0. unfold POLY in H0. lia.
  - lia.
Qed.

Lemma crc_bits_inj n x y :
  in_word 32 x -> in_word 32 y ->
  Nat.iter n crc_bit x = Nat.iter n crc_bit y -> x = y.
Proof.
  intros Hx Hy Heq. apply Z.lxor_eq.
  assert (Hk : Nat.iter n crc_bit (Z.lxor x y) = 0)
    by (rewrite crc_bits_lxor, Heq; apply Z.lxor_nilpotent).
  pose proof (lxor_word 32 x y ltac:(lia) Hx Hy) as Hw.
  revert Hk. induction n as [|n IH]; [done|]. intros Hk. simpl in Hk.
  apply crc_bit_kernel in Hk; [|by apply crc_bits_word].
  apply IH; [|done]. apply Z.lxor_eq. by rewrite <- crc_bits_lxor.
Qed.

(** ** The table step is the bit-serial step *)

Lemma b2z_testbit_high b n : 8 <= n -> Z.testbit (b2z b) n = false.
Proof. apply testbit_above. apply b2z_range. Qed.

Lemma byte_split x b :
  Z.lxor x (b2z b) =
  Z.lxor (Z.shiftl (Z.shiftr x 8) 8) (Z.land (Z.lxor x (b2z b)) 255).
Proof.
  change 255 with (Z.ones 8). apply Z.bits_inj'. intros n Hn.
  rewrite !Z.lxor_spec, Z.land_spec, Z.lxor_spec, Z.testbit_ones_nonneg by lia.
  destruct (Z.ltb_spec n 8).
  - rewrite Z.shiftl_spec_low by lia. by rewrite xorb_false_l, andb_true_r.
  - rewrite Z.shiftl_spec, Z.shiftr_spec by lia.
    rewrite (b2z_testbit_high b n) by lia. replace (n - 8 + 8) with n by lia.
    by rewrite xorb_false_r, andb_false_r, xorb_false_r.
Qed.

Lemma crc_step_ref crc b : crc_step crc b = crc_byte_ref crc b.
Proof.
  unfold crc_step. rewrite CRC32_TABLE_entry.
  { unfold crc_byte_ref. symmetry. rewrite byte_split at 1.
    by rewrite crc_bits_lxor, crc_byte_shiftl. }
  change 255 with (Z.ones 8). rewrite Z.land_ones by lia.
  apply Z.mod_pos_bound. lia.
Qed.

(** A run of bytes enters the register as one little-endian number. *)
Lemma crc_run bs s :
  fold_left crc_byte_ref bs s = Nat.iter (8 * length bs) crc_bit (Z.lxor s (le_val bs)).
Proof.
  revert s; induction bs as [|b bs IH]; intros s.
  - cbn -[Nat.mul]. by rewrite Z.lxor_0_r.
  - cbn [fold_left length le_val]. rewrite IH. unfold crc_byte_ref.
    replace (8 * S (length bs))%nat with (8 * length bs + 8)%nat by lia.
    rewrite Nat.iter_add. f_equal.
    assert (Hv : b2z b + 256 * le_val bs = Z.lxor (b2z b) (Z.shiftl (le_val bs) 8)).
    { rewrite <- Z.add_nocarry_lxor; [rewrite Z.shiftl_mul_pow2 by lia; lia|].
      apply Z.bits_inj'. intros n Hn. rewrite Z.land_spec, Z.bits_0.
      destruct (Z.ltb_spec n 8).
      - rewrite Z.shiftl_spec_low by lia. apply andb_false_r.
      - by rewrite b2z_testbit_high by lia. }
    rewrite Hv, <- Z.lxor_assoc, (crc_bits_lxor 8 (Z.lxor s (b2z b))).
    by rewrite crc_byte_shiftl.
Qed.

Lemma crc_step_fold bs s : fold_left crc_step bs s = fold_left crc_byte_ref bs s.
Proof. revert s; induction bs; intros; simpl; [done|]. by rewrite crc_step_ref. Qed.

Lemma crc_fold_word bs s : in_word 32 s -> in_word 32 (fold_left crc_step bs s).
Proof.
  intros Hs. rewrite crc_step_fold. revert s Hs; induction bs as [|b bs IH]; intros s Hs; [done|].
  simpl. apply IH, crc_bits_word, lxor_word; [lia|done|].
  pose proof (b2z_range b). unfold in_word. lia.
Qed.

Lemma crc_fold_inj bs s s' :
  in_word 32 s -> in_word 32 s' ->
  fold_left crc_step bs s = fold_left crc_step bs s' -> s = s'.
Proof.
  revert s s'; induction bs as [|b bs IH]; intros s s' Hs Hs'; [done|]. simpl. intros Heq.
  assert (Hw : forall z, in_word 32 z -> in_word 32 (crc_step z b))
    by (intros z Hz; apply (crc_fold_word [b] z Hz)).
  assert (Hb : in_word 32 (b2z b)) by (pose proof (b2z_range b); unfold in_word; lia).
  apply IH in Heq; [|by apply Hw..]. rewrite !crc_step_ref in Heq.
  apply crc_bits_inj in Heq; [|by apply lxor_word..].
  apply (f_equal (fun z => Z.lxor z (b2z b))) in Heq.
  by rewrite !Z.lxor_assoc, Z.lxor_nilpotent, !Z.lxor_0_r in Heq.
Qed.

Lemma calculateCRC32_word data : in_word 32 (calculateCRC32 data).
Proof. apply lxor_word; [lia|apply crc_fold_word|]; unfold in_word, MASK32; lia. Qed.

(** ** Properties *)

(** C29: the table-driven checksum of the factory equals the bit-serial CRC-32. *)
Theorem calculateCRC32_reference data : calculateCRC32 data = crc32_reference data.
Proof. unfold calculateCRC32, crc32_reference. by rewrite crc_step_fold. Qed.

(** Any corruption confined to four consecutive bytes of a payload changes its checksum. *)
Theorem crc32_detects_burst pre m m' post :
  length m = length m' -> (length m <= 4)%nat -> m <> m' ->
  calculateCRC32 (pre ++ m ++ post) <> calculateCRC32 (pre ++ m' ++ post).
Proof.
  intros Hlen H4 Hne Heq. apply Hne. unfold calculateCRC32 in Heq.
  apply (f_equal (fun z => Z.lxor z MASK32)) in Heq.
  rewrite !Z.lxor_assoc, Z.lxor_nilpotent, !Z.lxor_0_r in Heq.
  rewrite !fold_left_app in Heq.
  set (s := fold_left crc_step pre MASK32) in Heq.
  assert (Hs : in_word 32 s) by (apply crc_fold_word; unfold in_word, MASK32; lia).
  apply crc_fold_inj in Heq; [|by apply crc_fold_word..].
  rewrite !crc_step_fold, !crc_run, Hlen in Heq.
  assert (Hle : forall l, (length l <= 4)%nat -> in_word 32 (le_val l)).
  { intros l Hl. pose proof (le_val_range l). unfold in_word.
    pose proof (Z.pow_le_mono_r 256 (Z.of_nat (length l)) 4 ltac:(lia) ltac:(lia)). lia. }
  apply crc_bits_inj in Heq; [|apply lxor_word; [lia|done|apply Hle; lia]..].
  apply (f_equal (Z.lxor s)) in Heq.
  rewrite <- !Z.lxor_assoc, Z.lxor_nilpotent, !Z.lxor_0_l in Heq.
  by rewrite <- (le_bytes_val m), <- (le_bytes_val m'), Hlen, Heq.
Qed.

Lemma crc32_detects_burst_witness :
  calculateCRC32 ([Byte.x01] ++ [Byte.x02; Byte.x03] ++ [Byte.x04])
  <> calculateCRC32 ([Byte.x01] ++ [Byte.xff; Byte.x03] ++ [Byte.x04]).
Proof. apply crc32_detects_burst; [reflexivity|simpl; lia|discriminate]. Defined.

Lemma createEvent_id counter now s p b t m :
  id (header (createEvent counter now s p b t m).1) = wrap 32 counter.
Proof.
  cbn. change 4294967295 with (Z.ones 32). rewrite Z.land_ones by lia.
  unfold wrap. by rewrite Z.mod_mod.
Qed.

Lemma create_run_ids rs counter i e :
  (create_run counter rs).1 !! i = Some e ->
  id (header e) = wrap 32 (counter + Z.of_nat i) /\
  exists r, rs !! i = Some r /\ topic e = r_topic r /\ body e = r_payload r.
Proof.
  revert counter i; induction rs as [|r rs IH]; intros counter i; [done|].
  cbn [create_run]. destruct (createEvent _ _ _ _ _ _ _) as [e0 c1] eqn:E.
  destruct (create_run c1 rs) as [es c2] eqn:E'. simpl.
  assert (Hc1 : c1 = add64 counter 1) by (unfold createEvent in E; by simplify_eq).
  destruct i as [|i]; simpl; intros Hi.
  - simplify_eq. split; [|exists r; unfold createEvent in E; by simplify_eq].
    rewrite Z.add_0_r.
    by rewrite <- (createEvent_id counter (r_now r) (r_source r) (r_priority r)
                     (r_payload r) (r_topic r) (r_metadata r)), E.
  - destruct (IH c1 i) as [Hid Hr]; [by rewrite E'|]. split; [|done].
    rewrite Hid, Hc1, wrap_add64 by lia. f_equal. lia.
Qed.

Lemma ids_injective counter rs i j ei ej :
  Z.of_nat (length rs) <= 2 ^ 32 ->
  (create_run counter rs).1 !! i = Some ei -> (create_run counter rs).1 !! j = Some ej ->
  id (header ei) = id (header ej) -> i = j.
Proof.
  intros Hlen Hi Hj Heq.
  destruct (create_run_ids _ _ _ _ Hi) as (Hidi & r & Hr & _).
  destruct (create_run_ids _ _ _ _ Hj) as (Hidj & r' & Hr' & _).
  rewrite Hidi, Hidj in Heq. unfold wrap in Heq.
  apply lookup_lt_Some in Hr, Hr'.
  pose proof (Z.div_mod (counter + Z.of_nat i) (2 ^ 32) ltac:(lia)).
  pose proof (Z.div_mod (counter + Z.of_nat j) (2 ^ 32) ltac:(lia)).
  rewrite Heq in *. nia.
Qed.

(** Over a run of at most 2^32 calls no two events get the same id, although the id is
    the low half of a 64-bit counter, and every event carries its request's topic and payload. *)
Theorem create_run_ids_distinct counter rs :
  (Z.of_nat (length rs) <= 2 ^ 32) ->
  forall i j ei ej,
    (create_run counter rs).1 !! i = Some ei -> (create_run counter rs).1 !! j = Some ej ->
    id (header ei) = id (header ej) -> i = j /\
    exists r, rs !! i = Some r /\ topic ei = r_topic r /\ body ei = r_payload r.
Proof.
  intros Hlen i j ei ej Hi Hj Heq.
  split; [by eapply ids_injective|].
  destruct (create_run_ids _ _ _ _ Hi) as (_ & r & Hr). by exists r.
Qed.

Definition sample_request : request := mkRequest 7 TCP HIGH [Byte.x01] "a" ∅.

Lemma create_run_ids_distinct_witness :
  (Z.of_nat (length [sample_request; sample_request]) <= 2 ^ 32) /\
  exists e0 e1,
    (create_run 4294967295 [sample_request; sample_request]).1 = [e0; e1] /\
    id (header e0) = 4294967295 /\ id (header e1) = 0 /\
    (id (header e0) = id (header e1) -> (0 = 1)%nat).
Proof.
  split; [simpl; lia|]. eexists _, _. split; [reflexivity|].
  split; [reflexivity|]. split; [reflexivity|]. intros Heq.
  eapply (create_run_ids_distinct 4294967295 [sample_request; sample_request] ltac:(simpl; lia) 0 1);
    [reflexivity|reflexivity|exact Heq].
Defined.

End EventFactory.
