(* ===== verification/FrameParser.v ===== *)
(** * The wire format: [src/core/ingest/frame_parser.cpp]

    Module [FrameParser]: a frame is a 4-byte big-endian length, a priority byte,
    a 2-byte big-endian topic length, the topic and the payload.  A pointer
    argument is a region of bytes with an offset, so a read past the region is
    the outcome [UB].  [encode_body] and [encode_frame] are the format a client
    writes; they are the specification the parser is proved against. *)

From S2P Require Import Prelude Event.
From Stdlib Require Import Strings.Byte.

Module FrameParser.

Definition readUint32BE (mem : list byte) (data : Z) : outcome Z :=
  bs ← rd_range mem data 4; mret (be_val bs).

Definition readUint16BE (mem : list byte) (data : Z) : outcome Z :=
  bs ← rd_range mem data 2; mret (be_val bs).

Definition readUint8 (mem : list byte) (data : Z) : outcome Z :=
  bs ← rd_range mem data 1; mret (be_val bs).

Record ParsedFrame := mkParsedFrame {
  pf_priority : EventPriority;
  pf_topic : string;
  pf_payload : list byte
}.

Definition parseFrameBody (mem : list byte) (data len : Z) : outcome ParsedFrame :=
  if len <? 3 then Throw "Frame too small: missing priority or topic_len" else
  priorityVal ← readUint8 mem data;
  if priority_code CRITICAL <? priorityVal then Throw "Invalid priority value" else
  topicLen ← readUint16BE mem (data + 1);
  if len <? 3 + topicLen then Throw "Frame too small for declared topic length" else
  if topicLen =? 0 then Throw "Topic length cannot be zero" else
  topicBytes ← rd_range mem (data + 3) topicLen;
  let payloadOffset := 3 + topicLen in
  payload ← (if payloadOffset <? len
             then rd_range mem (data + payloadOffset) (len - payloadOffset)
             else Ret []);
  mret (mkParsedFrame (priority_of_code priorityVal)
          (String.string_of_list_byte topicBytes) payload).

Definition parseFullFrame (fullFrame : list byte) : outcome ParsedFrame :=
  if zlen fullFrame <? 4 then Throw "Frame too small: missing length prefix" else
  frameLen ← readUint32BE fullFrame 0;
  if negb (frameLen =? zlen fullFrame - 4) then Throw "Frame length mismatch" else
  parseFrameBody fullFrame 4 frameLen.

(** ** The format, as a client writes it *)

Definition encode_body (p : EventPriority) (topic : string) (payload : list byte) : list byte :=
  z2b (priority_code p) ::
  be_bytes 2 (Z.of_nat (String.length topic)) ++
  String.list_byte_of_string topic ++ payload.

Definition encode_frame (p : EventPriority) (topic : string) (payload : list byte) : list byte :=
  be_bytes 4 (zlen (encode_body p topic payload)) ++ encode_body p topic payload.

(** A topic the 16-bit length can carry, and a body the 32-bit length can carry. *)
Definition encodable (topic : string) (payload : list byte) : Prop :=
  0 < Z.of_nat (String.length topic) < 2 ^ 16 /\
  zlen payload + Z.of_nat (String.length topic) + 3 < 2 ^ 32.

(** The reason a body is refused, read off the bytes alone. *)
Definition body_error (body : list byte) : option string :=
  match body with
  | p :: t1 :: t0 :: rest =>
      if 4 <? b2z p then Some "Invalid priority value"%string
      else if zlen rest <? be_val [t1; t0] then Some "Frame too small for declared topic length"%string
      else if be_val [t1; t0] =? 0 then Some "Topic length cannot be zero"%string
      else None
  | _ => Some "Frame too small: missing priority or topic_len"%string
  end.

(** ** Lemmas *)

Lemma length_list_byte_of_string s :
  zlen (String.list_byte_of_string s) = Z.of_nat (String.length s).
Proof.
  unfold String.list_byte_of_string, zlen. rewrite length_map.
  induction s; simpl; lia.
Qed.

Lemma encode_body_length p topic payload :
  zlen (encode_body p topic payload) = 3 + Z.of_nat (String.length topic) + zlen payload.
Proof.
  unfold encode_body. rewrite zlen_cons, !zlen_app, length_list_byte_of_string.
  unfold zlen at 1. rewrite length_be_bytes. lia.
Qed.

(** The reader functions on a region split at the offset. *)
Lemma readUint8_at mem l b r data :
  mem = l ++ b :: r -> data = zlen l -> readUint8 mem data = Ret (b2z b).
Proof.
  intros -> ->. unfold readUint8. change (b :: r) with ([b] ++ r).
  rewrite rd_range_app by done. cbn. f_equal. unfold be_val. cbn. lia.
Qed.

Lemma readUint16BE_at mem l bs r data :
  mem = l ++ bs ++ r -> data = zlen l -> zlen bs = 2 -> readUint16BE mem data = Ret (be_val bs).
Proof. intros -> -> Hb. unfold readUint16BE. by rewrite rd_range_app. Qed.

Lemma readUint32BE_at mem l bs r data :
  mem = l ++ bs ++ r -> data = zlen l -> zlen bs = 4 -> readUint32BE mem data = Ret (be_val bs).
Proof. intros -> -> Hb. unfold readUint32BE. by rewrite rd_range_app. Qed.

Lemma zlen_2 {A} (x y : A) : zlen [x; y] = 2.
Proof. done. Qed.

(** The body parser on a region that holds the whole body: it depends on the body
    alone, and its result is the one [body_error] announces. *)
Lemma parseFrameBody_region pre p t1 t0 rest suf :
  let mem := pre ++ (p :: t1 :: t0 :: rest) ++ suf in
  let n := be_val [t1; t0] in
  parseFrameBody mem (zlen pre) (3 + zlen rest) =
  match body_error (p :: t1 :: t0 :: rest) with
  | Some e => Throw e
  | None => Ret (mkParsedFrame (priority_of_code (b2z p))
                   (String.string_of_list_byte (take (Z.to_nat n) rest))
                   (drop (Z.to_nat n) rest))
  end.
Proof.
  intros mem n. unfold parseFrameBody, body_error. fold n.
  pose proof (zlen_nonneg rest) as Hr. pose proof (be_val_range [t1; t0]) as Hn.
  rewrite (proj2 (Z.ltb_ge _ _)) by lia.
  rewrite (readUint8_at mem pre p ((t1 :: t0 :: rest) ++ suf)) by done.
  cbn [mbind outcome_bind priority_code]. destruct (4 <? b2z p); [done|].
  rewrite (readUint16BE_at mem (pre ++ [p]) [t1; t0] (rest ++ suf));
    [|unfold mem; by rewrite <- app_assoc|by rewrite zlen_app|done].
  cbn [mbind outcome_bind]. fold n.
  replace (3 + zlen rest <? 3 + n) with (zlen rest <? n)
    by (destruct (Z.ltb_spec (zlen rest) n), (Z.ltb_spec (3 + zlen rest) (3 + n)); lia).
  destruct (Z.ltb_spec (zlen rest) n) as [|Hge]; [done|].
  destruct (Z.eqb_spec n 0) as [|Hn0]; [done|].
  fold n in Hn.
  assert (Ht : zlen (take (Z.to_nat n) rest) = n) by (apply zlen_take; lia).
  set (tp := take (Z.to_nat n) rest) in *. set (pl := drop (Z.to_nat n) rest).
  assert (Hrest : rest = tp ++ pl) by (symmetry; apply take_drop).
  replace mem with ((pre ++ [p; t1; t0]) ++ tp ++ pl ++ suf)
    by (unfold mem; rewrite Hrest; by simplify_list_eq).
  rewrite (rd_range_app (pre ++ [p; t1; t0]) tp (pl ++ suf) (zlen pre + 3) n)
    by (rewrite ?zlen_app, ?zlen_cons, ?zlen_nil; lia).
  cbn [mbind outcome_bind].
  assert (Hpl : zlen pl = zlen rest - n) by (apply zlen_drop; lia).
  destruct (Z.ltb_spec (3 + n) (3 + zlen rest)).
  - rewrite (app_assoc (pre ++ [p; t1; t0])).
    rewrite (rd_range_app ((pre ++ [p; t1; t0]) ++ tp) pl suf).
    + done.
    + rewrite !zlen_app, Ht, !zlen_cons, zlen_nil. lia.
    + lia.
  - cbn. replace pl with (@nil byte); [done|]. symmetry. apply zlen_0. lia.
Qed.

(** The same for a body too short to hold the fixed fields. *)
Lemma parseFrameBody_short mem data len :
  len < 3 -> parseFrameBody mem data len =
             Throw "Frame too small: missing priority or topic_len".
Proof. intros. unfold parseFrameBody. by rewrite (proj2 (Z.ltb_lt _ _)). Qed.

Lemma parseFrameBody_body pre body suf :
  parseFrameBody (pre ++ body ++ suf) (zlen pre) (zlen body) =
  match body_error body, body with
  | Some e, _ => Throw e
  | None, p :: t1 :: t0 :: rest =>
      Ret (mkParsedFrame (priority_of_code (b2z p))
             (String.string_of_list_byte (take (Z.to_nat (be_val [t1; t0])) rest))
             (drop (Z.to_nat (be_val [t1; t0])) rest))
  | None, _ => UB
  end.
Proof.
  destruct body as [|p [|t1 [|t0 rest]]]; [by apply parseFrameBody_short..|].
  replace (zlen (p :: t1 :: t0 :: rest)) with (3 + zlen rest)
    by (rewrite !zlen_cons; lia).
  rewrite parseFrameBody_region. cbn [body_error]. by repeat case_match.
Qed.

Lemma body_error_encode p topic payload :
  encodable topic payload -> body_error (encode_body p topic payload) = None.
Proof.
  intros [Ht Hp]. unfold encode_body.
  pose proof (priority_code_range p) as Hpr.
  set (n := Z.of_nat (String.length topic)) in *.
  assert (Hl : exists t1 t0, be_bytes 2 n = [t1; t0]).
  { pose proof (length_be_bytes 2 n) as Hl.
    destruct (be_bytes 2 n) as [|t1 [|t0 [|]]]; try done. eauto. }
  destruct Hl as (t1 & t0 & Hl).
  assert (Hv : be_val [t1; t0] = n) by (rewrite <- Hl; apply be_val_bytes; lia).
  rewrite Hl. cbn [body_error app]. rewrite Hv, b2z_z2b, Z.mod_small by lia.
  rewrite zlen_app, length_list_byte_of_string. fold n.
  pose proof (zlen_nonneg payload). decide_tests. done.
Qed.

Lemma parseFrameBody_encode pre suf p topic payload :
  encodable topic payload ->
  parseFrameBody (pre ++ encode_body p topic payload ++ suf) (zlen pre)
    (zlen (encode_body p topic payload)) = Ret (mkParsedFrame p topic payload).
Proof.
  intros He. rewrite parseFrameBody_body, body_error_encode by done.
  destruct He as [Ht Hp]. unfold encode_body. cbn [app].
  set (n := Z.of_nat (String.length topic)) in *.
  pose proof (length_be_bytes 2 n) as Hl.
  destruct (be_bytes 2 n) as [|t1 [|t0 [|]]] eqn:Hb; try done. cbn [app].
  assert (Hv : be_val [t1; t0] = n) by (rewrite <- Hb; apply be_val_bytes; lia).
  rewrite Hv. f_equal.
  pose proof (length_list_byte_of_string topic) as Hlen. fold n in Hlen.
  assert (Hn : Z.to_nat n = length (String.list_byte_of_string topic))
    by (unfold zlen in Hlen; lia).
  rewrite Hn, take_app_length, drop_app_length, String.string_of_list_byte_of_string.
  pose proof (priority_code_range p).
  by rewrite b2z_z2b, Z.mod_small, priority_of_code_code by lia.
Qed.

(** The full-frame parser: it is the body parser on everything after the prefix,
    when the prefix announces exactly that much. *)
Lemma parseFullFrame_split l body :
  zlen l = 4 ->
  parseFullFrame (l ++ body) =
  if be_val l =? zlen body then parseFrameBody (l ++ body ++ []) (zlen l) (zlen body)
  else Throw "Frame length mismatch".
Proof.
  intros Hl. rewrite app_nil_r. unfold parseFullFrame. pose proof (zlen_nonneg body).
  rewrite zlen_app, Hl, (proj2 (Z.ltb_ge _ _)) by lia.
  rewrite (readUint32BE_at (l ++ body) [] l body) by done.
  cbn [mbind outcome_bind]. replace (4 + zlen body - 4) with (zlen body) by lia.
  destruct (Z.eqb_spec (be_val l) (zlen body)) as [->|]; done.
Qed.

Lemma split_prefix (f : list byte) : 4 <= zlen f -> exists l body, f = l ++ body /\ zlen l = 4.
Proof.
  intros. exists (take 4 f), (drop 4 f). split; [by rewrite take_drop|].
  apply (zlen_take f 4). lia.
Qed.

(** What the full-frame parser computes from the bytes alone. *)
Lemma parseFullFrame_spec f :
  parseFullFrame f =
  if zlen f <? 4 then Throw "Frame too small: missing length prefix" else
  if negb (be_val (take 4 f) =? zlen f - 4) then Throw "Frame length mismatch" else
  match body_error (drop 4 f), drop 4 f with
  | None, p :: t1 :: t0 :: rest =>
      Ret (mkParsedFrame (priority_of_code (b2z p))
             (String.string_of_list_byte (take (Z.to_nat (be_val [t1; t0])) rest))
             (drop (Z.to_nat (be_val [t1; t0])) rest))
  | None, _ => Throw ""
  | Some e, _ => Throw e
  end.
Proof.
  destruct (Z.ltb_spec (zlen f) 4).
  { unfold parseFullFrame. by rewrite (proj2 (Z.ltb_lt _ _)). }
  destruct (split_prefix f) as (l & body & -> & Hl); [done|].
  rewrite parseFullFrame_split by done.
  assert (Hn : 4%nat = length l) by (unfold zlen in Hl; lia).
  assert (Hz : zlen (l ++ body) = 4 + zlen body) by (by rewrite zlen_app, Hl).
  rewrite Hn, take_app_length, drop_app_length, Hz.
  replace (4 + zlen body - 4) with (zlen body) by lia.
  destruct (be_val l =? zlen body); simpl; [|done].
  rewrite parseFrameBody_body.
  by destruct body as [|p [|t1 [|t0 rest]]].
Qed.

Lemma parseFullFrame_no_ub f : parseFullFrame f <> UB.
Proof. rewrite parseFullFrame_spec. by repeat case_match. Qed.

Lemma parseFullFrame_encoded p topic payload :
  encodable topic payload ->
  parseFullFrame (encode_frame p topic payload) = Ret (mkParsedFrame p topic payload).
Proof.
  intros He. unfold encode_frame.
  pose proof (encode_body_length p topic payload) as Hlen. destruct He as [Ht Hp].
  assert (H4 : zlen (be_bytes 4 (zlen (encode_body p topic payload))) = 4)
    by (unfold zlen at 1; by rewrite length_be_bytes).
  rewrite parseFullFrame_split by done.
  rewrite be_val_bytes, Z.eqb_refl by (pose proof (zlen_nonneg payload); simpl; lia).
  by apply parseFrameBody_encode.
Qed.

(** ** Properties *)

(** C25: a frame written by [encode_frame] is parsed back to its priority, topic and payload. *)
Theorem parseFullFrame_encode p topic payload :
  encodable topic payload ->
  parseFullFrame (encode_frame p topic payload) = Ret (mkParsedFrame p topic payload).
Proof. apply parseFullFrame_encoded. Qed.

Lemma parseFullFrame_encode_witness :
  encodable "sensor/1" [Byte.xde; Byte.xad] /\
  parseFullFrame (encode_frame HIGH "sensor/1" [Byte.xde; Byte.xad])
  = Ret (mkParsedFrame HIGH "sensor/1" [Byte.xde; Byte.xad]).
Proof.
  split; [vm_compute; repeat split|].
  apply parseFullFrame_encode. vm_compute; repeat split.
Defined.

(** C34: on every byte string the full-frame parser either refuses with exactly the error the
    bytes call for or returns the fields of the body; it never reads outside the frame. *)
Theorem parseFullFrame_total f :
  parseFullFrame f =
  if zlen f <? 4 then Throw "Frame too small: missing length prefix" else
  if negb (be_val (take 4 f) =? zlen f - 4) then Throw "Frame length mismatch" else
  match body_error (drop 4 f), drop 4 f with
  | None, p :: t1 :: t0 :: rest =>
      Ret (mkParsedFrame (priority_of_code (b2z p))
             (String.string_of_list_byte (take (Z.to_nat (be_val [t1; t0])) rest))
             (drop (Z.to_nat (be_val [t1; t0])) rest))
  | None, _ => Throw ""
  | Some e, _ => Throw e
  end.
Proof. apply parseFullFrame_spec. Qed.

End FrameParser.
