(* ===== verification/IngestSink.v ===== *)
(** * What an ingest server needs from the pipeline behind it

    [src/core/ingest/{tcp,udp,epoll}.cpp] all do the same with a parsed frame:
    take an event from [IngestEventPool], fill it with [EventFactory::createEvent]
    and hand it to [Dispatcher::tryPush].  The servers are modelled against the
    class [FrameSink]; [Pipeline.v] gives the instance built from the pool, the
    factory and the dispatcher's inbound queue. *)

From S2P Require Import Prelude Event FrameParser.

(** [accept_frame src addr f w]: the event made of frame [f] was offered to the
    dispatcher; the boolean is [tryPush]'s answer. *)
Class FrameSink (W : Type) := {
  accept_frame : EventSourceType -> string -> FrameParser.ParsedFrame -> W -> bool * W
}.

(** The counters every server keeps ([totalEventsProcessed_],
    [totalBackpressureDrops_]) together with the world behind it. *)
Record Ingest (W : Type) := mkIngest {
  totalEventsProcessed_ : Z;
  totalBackpressureDrops_ : Z;
  world : W
}.
Arguments mkIngest {W} _ _ _.
Arguments totalEventsProcessed_ {W} _.
Arguments totalBackpressureDrops_ {W} _.
Arguments world {W} _.

Section Deliver.
Context {W : Type} `{FrameSink W}.

(** The body of the servers' [try] block after a successful parse. *)
Definition deliver (src : EventSourceType) (addr : string)
    (f : FrameParser.ParsedFrame) (s : Ingest W) : Ingest W :=
  let '(pushed, w) := accept_frame src addr f (world s) in
  if pushed
  then mkIngest (add64 (totalEventsProcessed_ s) 1) (totalBackpressureDrops_ s) w
  else mkIngest (totalEventsProcessed_ s) (add64 (totalBackpressureDrops_ s) 1) w.

Definition deliver_all (src : EventSourceType) (addr : string)
    (fs : list FrameParser.ParsedFrame) (s : Ingest W) : Ingest W :=
  fold_left (fun s f => deliver src addr f s) fs s.

(** Every delivered frame is counted once, as an event or as a drop. *)
Lemma deliver_counts src addr f s :
  add64 (totalEventsProcessed_ (deliver src addr f s)) (totalBackpressureDrops_ (deliver src addr f s))
  = add64 (add64 (totalEventsProcessed_ s) (totalBackpressureDrops_ s)) 1.
Proof.
  unfold deliver. destruct (accept_frame src addr f (world s)) as [[|] w]; simpl;
    unfold add64, wrap;
    rewrite ?Zplus_mod_idemp_l, ?Zplus_mod_idemp_r; f_equal; lia.
Qed.

Lemma deliver_all_app src addr fs gs s :
  deliver_all src addr (fs ++ gs) s = deliver_all src addr gs (deliver_all src addr fs s).
Proof. apply fold_left_app. Qed.

End Deliver.

(** A sink that records what it is given and accepts everything but the frames a
    predicate refuses; it serves the concrete runs of the witnesses. *)
Definition recording_sink (refuse : FrameParser.ParsedFrame -> bool) :
    FrameSink (list (EventSourceType * string * FrameParser.ParsedFrame)) :=
  {| accept_frame src addr f w := (negb (refuse f), w ++ [(src, addr, f)]) |}.
