(* ===== verification/TcpServer.v ===== *)
(** * The thread-per-client TCP server: [src/core/ingest/tcp.cpp]

    Module [TcpServer]: the framing loop of [handleClient].  A connection is a
    run over the results of [recv]; whatever the chunks a stream arrives in, the
    frames delivered are the same, and the buffer a connection keeps is bounded. *)

From S2P Require Import Prelude Event FrameParser IngestSink.

Module TcpServer.
Section Server.
Context {W : Type} `{FrameSink W}.
Variable clientAddress : string.

Definition kMaxBufferSize : Z := 10 * 1024 * 1024.
Definition MAX_EMPTY_FRAMES : Z := 10.

(** The big-endian length as the shifts of the loop compute it. *)
Definition frame_len (b0 b1 b2 b3 : byte) : Z :=
  Z.lor (Z.lor (Z.lor (Z.shiftl (b2z b0) 24) (Z.shiftl (b2z b1) 16)) (Z.shiftl (b2z b2) 8)) (b2z b3).

Definition frame_len_at (buf : list byte) (off : Z) : Z :=
  match drop (Z.to_nat off) buf with
  | b0 :: b1 :: b2 :: b3 :: _ => frame_len b0 b1 b2 b3
  | _ => 0
  end.

(** How the inner loop is left: the bytes before [offset] are consumed, or the
    connection is closed; [Undefined] is an out-of-bounds read of the parser. *)
Inductive drain_exit :=
| Drained (offset : Z)
| TooManyEmptyFrames
| FrameTooBig
| Undefined
| OutOfFuel.

(** [while (bufferOffset < clientBuffer.size())]: each turn consumes at least four
    bytes, so [length buf + 1] turns are enough. *)
Fixpoint drain (fuel : nat) (buf : list byte) (bufferOffset : Z)
    (empty_frame_count : Z) (s : Ingest W) : drain_exit * Z * Ingest W :=
  match fuel with
  | O => (OutOfFuel, empty_frame_count, s)
  | S fuel' =>
    if bufferOffset <? zlen buf then
      let remaining := zlen buf - bufferOffset in
      if remaining <? 4 then (Drained bufferOffset, empty_frame_count, s) else
      let frameLen := frame_len_at buf bufferOffset in
      if frameLen =? 0 then
        let empty_frame_count := empty_frame_count + 1 in
        if MAX_EMPTY_FRAMES <? empty_frame_count
        then (TooManyEmptyFrames, empty_frame_count, s)
        else drain fuel' buf (bufferOffset + 4) empty_frame_count s
      else
      let empty_frame_count := 0 in
      if kMaxBufferSize <? frameLen then (FrameTooBig, empty_frame_count, s) else
      if remaining <? wrap 32 (4 + frameLen) then (Drained bufferOffset, empty_frame_count, s) else
      let fullFrame := take (Z.to_nat (4 + frameLen)) (drop (Z.to_nat bufferOffset) buf) in
      let bufferOffset := bufferOffset + wrap 32 (4 + frameLen) in
      match FrameParser.parseFullFrame fullFrame with
      | Ret parsed => drain fuel' buf bufferOffset empty_frame_count (deliver TCP clientAddress parsed s)
      | Throw _ => drain fuel' buf bufferOffset empty_frame_count s
      | UB => (Undefined, empty_frame_count, s)
      end
    else (Drained bufferOffset, empty_frame_count, s)
  end.

(** The compaction after the loop. *)
Definition compact (buf : list byte) (bufferOffset : Z) : list byte :=
  if (0 <? bufferOffset) && (bufferOffset <? zlen buf) then drop (Z.to_nat bufferOffset) buf
  else if zlen buf <=? bufferOffset then []
  else buf.

(** One turn of the receive loop. *)
Inductive recv_event :=
| Received (temp : list byte)   (* bytesReceived > 0 *)
| Disconnected                  (* bytesReceived <= 0 *)
| Stopped.                      (* isRunning is false at the loop head *)

Inductive connection :=
| Open (clientBuffer : list byte) (empty_frame_count : Z) (s : Ingest W)
| Closed (s : Ingest W)
| Crashed.

Definition on_chunk (clientBuffer temp : list byte) (empty_frame_count : Z) (s : Ingest W)
    : connection :=
  let buf := clientBuffer ++ temp in
  match drain (S (length buf)) buf 0 empty_frame_count s with
  | (Drained off, cnt, s') => Open (compact buf off) cnt s'
  | (TooManyEmptyFrames, _, s') => Closed s'
  | (FrameTooBig, _, s') => Closed s'
  | (Undefined, _, _) => Crashed
  | (OutOfFuel, _, _) => Crashed
  end.

Definition recv_step (c : connection) (e : recv_event) : connection :=
  match c, e with
  | Open buf cnt s, Received temp => on_chunk buf temp cnt s
  | Open _ _ s, Disconnected => Closed s
  | Open _ _ s, Stopped => Closed s
  | c, _ => c
  end.

Definition handleClient (events : list recv_event) (s : Ingest W) : connection :=
  fold_left recv_step events (Open [] 0 s).

(** ** The stream view: the loop on the unread suffix *)

Inductive scan_result :=
| Rest (unread : list byte) (cnt : Z) (s : Ingest W)
| Shut (s : Ingest W).

Fixpoint scan (fuel : nat) (rest : list byte) (cnt : Z) (s : Ingest W) : scan_result :=
  match fuel with
  | O => Rest rest cnt s
  | S fuel' =>
    match rest with
    | b0 :: b1 :: b2 :: b3 :: tl =>
      let n := be_val [b0; b1; b2; b3] in
      if n =? 0 then
        if MAX_EMPTY_FRAMES <? cnt + 1 then Shut s else scan fuel' tl (cnt + 1) s
      else if kMaxBufferSize <? n then Shut s
      else if zlen tl <? n then Rest rest 0 s
      else
        scan fuel' (drop (Z.to_nat n) tl) 0
          match FrameParser.parseFullFrame (b0 :: b1 :: b2 :: b3 :: take (Z.to_nat n) tl) with
          | Ret parsed => deliver TCP clientAddress parsed s
          | _ => s
          end
    | _ => Rest rest cnt s
    end
  end.

Definition scan_all (rest : list byte) (cnt : Z) (s : Ingest W) : scan_result :=
  scan (S (length rest)) rest cnt s.

(** ** Lemmas *)

Lemma frame_len_be b0 b1 b2 b3 : frame_len b0 b1 b2 b3 = be_val [b0; b1; b2; b3].
Proof.
  unfold frame_len, be_val. cbn [rev app le_val].
  pose proof (b2z_range b0). pose proof (b2z_range b1).
  pose proof (b2z_range b2). pose proof (b2z_range b3).
  change 24 with (8 + 8 + 8). change 16 with (8 + 8).
  rewrite <- !Z.shiftl_shiftl, <- !Z.shiftl_lor by lia.
  rewrite !lor_shiftl_low by lia. lia.
Qed.

Lemma compact_drop buf off : 0 <= off <= zlen buf -> compact buf off = drop (Z.to_nat off) buf.
Proof.
  intros Hoff. unfold compact. destruct (Z.ltb_spec 0 off); simpl.
  - destruct (Z.ltb_spec off (zlen buf)); [done|].
    rewrite (proj2 (Z.leb_le _ _)) by lia.
    rewrite drop_ge; [done|]. unfold zlen in *. lia.
  - replace off with 0 by lia. rewrite drop_0.
    case_match eqn:E; [|done]. symmetry. apply zlen_0. bool_to_prop. pose proof (zlen_nonneg buf). lia.
Qed.

Lemma scan_fuel fuel fuel' rest cnt s :
  (length rest < fuel)%nat -> (length rest < fuel')%nat ->
  scan fuel rest cnt s = scan fuel' rest cnt s.
Proof.
  revert fuel' rest cnt s; induction fuel as [|fuel IH]; intros fuel' rest cnt s Hf Hf'; [lia|].
  destruct fuel' as [|fuel']; [lia|].
  destruct rest as [|b0 [|b1 [|b2 [|b3 tl]]]]; try done.
  cbn [scan length] in *.
  pose proof (length_drop tl (Z.to_nat (be_val [b0; b1; b2; b3]))).
  repeat case_match; try done; apply IH; lia.
Qed.

Lemma wrap_frame n : 0 <= n <= kMaxBufferSize -> wrap 32 (4 + n) = 4 + n.
Proof. unfold kMaxBufferSize. intros. apply wrap_small. unfold in_word. lia. Qed.

Lemma drain_scan fuel buf off cnt s :
  0 <= off <= zlen buf -> zlen buf - off < Z.of_nat fuel ->
  match scan fuel (drop (Z.to_nat off) buf) cnt s with
  | Rest r cnt' s' => exists off', off <= off' <= zlen buf /\
      drain fuel buf off cnt s = (Drained off', cnt', s') /\ r = drop (Z.to_nat off') buf
  | Shut s' => exists e cnt', (e = TooManyEmptyFrames \/ e = FrameTooBig) /\
      drain fuel buf off cnt s = (e, cnt', s')
  end.
Proof.
  revert off cnt s; induction fuel as [|fuel IH]; intros off cnt s Hoff Hfuel; [lia|].
  cbn [scan drain]. unfold frame_len_at.
  pose proof (zlen_drop buf off Hoff) as Hlen.
  destruct (drop (Z.to_nat off) buf) as [|b0 [|b1 [|b2 [|b3 tl]]]] eqn:Hd;
    [exists off; rewrite Hd; autorewrite with zlen in Hlen;
     decide_tests; split; [lia|done] ..|].
  assert (Htl : tl = drop (Z.to_nat (off + 4)) buf).
  { replace (Z.to_nat (off + 4)) with (Z.to_nat off + 4)%nat by lia.
    by rewrite <- drop_drop, Hd. }
  rewrite !zlen_cons in Hlen. pose proof (zlen_nonneg tl).
  rewrite (proj2 (Z.ltb_lt off _)), (proj2 (Z.ltb_ge _ 4)) by lia.
  rewrite frame_len_be. set (n := be_val [b0; b1; b2; b3]).
  assert (Hn : 0 <= n) by (pose proof (be_val_range [b0; b1; b2; b3]); lia).
  destruct (Z.eqb_spec n 0) as [Hz|Hnz].
  - destruct (MAX_EMPTY_FRAMES <? cnt + 1); [by eauto|].
    specialize (IH (off + 4) (cnt + 1) s ltac:(lia) ltac:(lia)). rewrite <- Htl in IH.
    case_match; [|done]. destruct IH as (off' & ? & ? & ?). exists off'. split; [lia|done].
  - destruct (Z.ltb_spec kMaxBufferSize n) as [|Hmax]; [by eauto|].
    rewrite wrap_frame by lia.
    replace (zlen buf - off <? 4 + n) with (zlen tl <? n)
      by (destruct (Z.ltb_spec (zlen tl) n), (Z.ltb_spec (zlen buf - off) (4 + n)); lia).
    destruct (Z.ltb_spec (zlen tl) n) as [|Hfull]; [exists off; split; [lia|by rewrite Hd]|].
    assert (Htl' : drop (Z.to_nat n) tl = drop (Z.to_nat (off + (4 + n))) buf).
    { rewrite Htl, drop_drop. f_equal. lia. }
    replace (take (Z.to_nat (4 + n)) (b0 :: b1 :: b2 :: b3 :: tl))
      with (b0 :: b1 :: b2 :: b3 :: take (Z.to_nat n) tl)
      by (by replace (Z.to_nat (4 + n)) with (S (S (S (S (Z.to_nat n))))) by lia).
    pose proof (FrameParser.parseFullFrame_no_ub (b0 :: b1 :: b2 :: b3 :: take (Z.to_nat n) tl)).
    rewrite Htl'. destruct (FrameParser.parseFullFrame _) as [pf|err|]; [| |done].
    + specialize (IH (off + (4 + n)) 0 (deliver TCP clientAddress pf s) ltac:(lia) ltac:(lia)).
      case_match; [|done]. destruct IH as (off' & ? & ? & ?). exists off'. split; [lia|done].
    + specialize (IH (off + (4 + n)) 0 s ltac:(lia) ltac:(lia)).
      case_match; [|done]. destruct IH as (off' & ? & ? & ?). exists off'. split; [lia|done].
Qed.

(** One [recv]: the loop and the compaction, in the stream view. *)
Lemma on_chunk_scan buf temp cnt s :
  on_chunk buf temp cnt s =
  match scan_all (buf ++ temp) cnt s with
  | Rest r cnt' s' => Open r cnt' s'
  | Shut s' => Closed s'
  end.
Proof.
  unfold on_chunk, scan_all. set (b := buf ++ temp).
  pose proof (drain_scan (S (length b)) b 0 cnt s) as Hds.
  rewrite drop_0 in Hds. pose proof (zlen_nonneg b).
  destruct (scan (S (length b)) b cnt s) as [r cnt' s'|s'].
  - destruct Hds as (off' & Hoff & -> & ->); [lia|unfold zlen; lia|].
    by rewrite compact_drop by lia.
  - destruct Hds as (e & cnt' & [->| ->] & ->); [lia|unfold zlen; lia|done..].
Qed.

(** The stream view consumes one frame at a time. *)
Lemma scan_cons fuel b0 b1 b2 b3 tl cnt s :
  let n := be_val [b0; b1; b2; b3] in
  scan (S fuel) (b0 :: b1 :: b2 :: b3 :: tl) cnt s =
  if n =? 0 then if MAX_EMPTY_FRAMES <? cnt + 1 then Shut s else scan fuel tl (cnt + 1) s
  else if kMaxBufferSize <? n then Shut s
  else if zlen tl <? n then Rest (b0 :: b1 :: b2 :: b3 :: tl) 0 s
  else scan fuel (drop (Z.to_nat n) tl) 0
         match FrameParser.parseFullFrame (b0 :: b1 :: b2 :: b3 :: take (Z.to_nat n) tl) with
         | Ret parsed => deliver TCP clientAddress parsed s
         | _ => s
         end.
Proof. reflexivity. Qed.

Lemma scan_all_cons b0 b1 b2 b3 tl cnt s :
  let n := be_val [b0; b1; b2; b3] in
  scan_all (b0 :: b1 :: b2 :: b3 :: tl) cnt s =
  if n =? 0 then if MAX_EMPTY_FRAMES <? cnt + 1 then Shut s else scan_all tl (cnt + 1) s
  else if kMaxBufferSize <? n then Shut s
  else if zlen tl <? n then Rest (b0 :: b1 :: b2 :: b3 :: tl) 0 s
  else scan_all (drop (Z.to_nat n) tl) 0
         match FrameParser.parseFullFrame (b0 :: b1 :: b2 :: b3 :: take (Z.to_nat n) tl) with
         | Ret parsed => deliver TCP clientAddress parsed s
         | _ => s
         end.
Proof.
  intros n. unfold scan_all. cbn [length]. rewrite scan_cons. fold n.
  pose proof (length_drop tl (Z.to_nat n)).
  destruct (n =? 0); [destruct (MAX_EMPTY_FRAMES <? cnt + 1); [done|]; apply scan_fuel; lia|].
  destruct (kMaxBufferSize <? n), (zlen tl <? n); try done; apply scan_fuel; lia.
Qed.

Lemma scan_all_short l cnt s : zlen l < 4 -> scan_all l cnt s = Rest l cnt s.
Proof.
  intros Hl. destruct l as [|b0 [|b1 [|b2 [|b3 tl]]]]; try done.
  rewrite !zlen_cons in Hl. pose proof (zlen_nonneg tl). lia.
Qed.

(** Scanning a stream in two parts is scanning it at once. *)
Lemma scan_all_app a b cnt s :
  scan_all (a ++ b) cnt s =
  match scan_all a cnt s with
  | Rest r cnt' s' => scan_all (r ++ b) cnt' s'
  | Shut s' => Shut s'
  end.
Proof.
  remember (length a) as m eqn:Hm. revert a cnt s Hm.
  induction m as [m IH] using lt_wf_ind. intros a cnt s ->.
  destruct a as [|b0 [|b1 [|b2 [|b3 tl]]]]; try done. cbn [app].
  rewrite !scan_all_cons. set (n := be_val [b0; b1; b2; b3]).
  assert (Hn : 0 <= n) by (pose proof (be_val_range [b0; b1; b2; b3]); lia).
  destruct (Z.eqb_spec n 0) as [Hz|Hnz].
  { destruct (MAX_EMPTY_FRAMES <? cnt + 1); [done|]. eapply IH; [|done]. simpl. lia. }
  destruct (Z.ltb_spec kMaxBufferSize n) as [|Hmax]; [done|].
  destruct (Z.ltb_spec (zlen tl) n) as [Hw|Hf].
  - cbn [app]. rewrite (scan_all_cons b0 b1 b2 b3 (tl ++ b) 0). fold n.
    by rewrite (proj2 (Z.eqb_neq n 0)), (proj2 (Z.ltb_ge kMaxBufferSize n)) by lia.
  - pose proof (zlen_nonneg b). rewrite zlen_app, (proj2 (Z.ltb_ge _ n)) by lia.
    assert (Hnat : (Z.to_nat n <= length tl)%nat) by (unfold zlen in Hf; lia).
    rewrite drop_app_le, take_app_le by done.
    eapply IH; [|done]. rewrite length_drop. simpl. lia.
Qed.

(** What is left unread is shorter than one maximal frame, and the count of
    consecutive empty frames stays within the limit. *)
Lemma scan_all_bound a cnt s r cnt' s' :
  0 <= cnt <= MAX_EMPTY_FRAMES ->
  scan_all a cnt s = Rest r cnt' s' ->
  zlen r < 4 + kMaxBufferSize /\ 0 <= cnt' <= MAX_EMPTY_FRAMES.
Proof.
  remember (length a) as m eqn:Hm. revert a cnt s Hm.
  induction m as [m IH] using lt_wf_ind. intros a cnt s -> Hcnt.
  destruct a as [|b0 [|b1 [|b2 [|b3 tl]]]];
    [intros [= <- <- _]; unfold kMaxBufferSize; autorewrite with zlen; lia ..|].
  rewrite scan_all_cons. set (n := be_val [b0; b1; b2; b3]).
  destruct (n =? 0).
  { destruct (Z.ltb_spec MAX_EMPTY_FRAMES (cnt + 1)); [done|].
    intros Hs. eapply IH; [|done| |exact Hs]; [simpl; lia|lia]. }
  assert (0 <= 0 <= MAX_EMPTY_FRAMES) by (unfold MAX_EMPTY_FRAMES; lia).
  destruct (Z.ltb_spec kMaxBufferSize n), (Z.ltb_spec (zlen tl) n); try done.
  - intros [= <- <- _]. rewrite !zlen_cons. lia.
  - intros Hs. eapply IH; [|done|done|exact Hs]. rewrite length_drop. simpl. lia.
Qed.

Lemma scan_all_idle a cnt s r cnt' s' :
  scan_all a cnt s = Rest r cnt' s' -> scan_all r cnt' s' = Rest r cnt' s'.
Proof.
  intros Hs. pose proof (scan_all_app a [] cnt s) as Happ.
  by rewrite app_nil_r, Hs, app_nil_r in Happ.
Qed.

(** The receive loop over a list of chunks is one scan of their concatenation. *)
Lemma handleClient_scan chunks buf cnt s :
  scan_all buf cnt s = Rest buf cnt s ->
  fold_left recv_step (map Received chunks) (Open buf cnt s) =
  match scan_all (buf ++ concat chunks) cnt s with
  | Rest r cnt' s' => Open r cnt' s'
  | Shut s' => Closed s'
  end.
Proof.
  revert buf cnt s; induction chunks as [|c chunks IH]; intros buf cnt s Hidle; cbn [map concat fold_left].
  { by rewrite app_nil_r, Hidle. }
  cbn [recv_step]. rewrite on_chunk_scan, app_assoc.
  rewrite (scan_all_app (buf ++ c) (concat chunks)).
  destruct (scan_all (buf ++ c) cnt s) as [r cnt' s'|s'] eqn:E.
  - rewrite IH; [done|]. by eapply scan_all_idle.
  - clear IH. induction chunks; [done|]. exact IHchunks.
Qed.

Lemma scan_all_frame p topic payload tl cnt s :
  FrameParser.encodable topic payload ->
  zlen (FrameParser.encode_body p topic payload) <= kMaxBufferSize ->
  scan_all (FrameParser.encode_frame p topic payload ++ tl) cnt s =
  scan_all tl 0 (deliver TCP clientAddress (FrameParser.mkParsedFrame p topic payload) s).
Proof.
  intros He Hmax. pose proof (FrameParser.parseFullFrame_encoded p topic payload He) as Hp.
  unfold FrameParser.encode_frame in *.
  set (body := FrameParser.encode_body p topic payload) in *.
  assert (Hlen : zlen body = 3 + Z.of_nat (String.length topic) + zlen payload)
    by apply FrameParser.encode_body_length.
  pose proof (zlen_nonneg payload) as Hpl. destruct He as [Ht Hb].
  assert (Hv : be_val (be_bytes 4 (zlen body)) = zlen body)
    by (apply be_val_bytes; cbn; unfold kMaxBufferSize in *; lia).
  pose proof (length_be_bytes 4 (zlen body)) as Hl4.
  destruct (be_bytes 4 (zlen body)) as [|b0 [|b1 [|b2 [|b3 [|]]]]]; try done.
  cbn [app] in *. rewrite scan_all_cons, Hv. decide_tests.
  rewrite zlen_app. pose proof (zlen_nonneg tl).
  rewrite (proj2 (Z.ltb_ge _ (zlen body))) by lia.
  assert (Hnat : Z.to_nat (zlen body) = length body) by (unfold zlen; lia).
  by rewrite Hnat, take_app_length, drop_app_length, Hp.
Qed.

(** The frames of a list, as a client writes them one after the other. *)
Definition stream (fs : list FrameParser.ParsedFrame) : list byte :=
  concat (map (fun f => FrameParser.encode_frame (FrameParser.pf_priority f)
                          (FrameParser.pf_topic f) (FrameParser.pf_payload f)) fs).

Definition sendable (f : FrameParser.ParsedFrame) : Prop :=
  FrameParser.encodable (FrameParser.pf_topic f) (FrameParser.pf_payload f) /\
  zlen (FrameParser.encode_body (FrameParser.pf_priority f) (FrameParser.pf_topic f)
          (FrameParser.pf_payload f)) <= kMaxBufferSize.

Lemma scan_all_stream fs tl s :
  Forall sendable fs ->
  scan_all (stream fs ++ tl) 0 s = scan_all tl 0 (deliver_all TCP clientAddress fs s).
Proof.
  intros Hfs. revert s. induction Hfs as [|f fs [He Hb] Hfs IH]; intros s; [done|].
  unfold stream. cbn [map concat]. rewrite <- app_assoc, scan_all_frame by done.
  fold (stream fs). rewrite IH. by destruct f.
Qed.

(** ** Properties *)

(** C11: a client that sends frames over TCP has exactly those frames delivered, in order,
    however the network cuts the stream into [recv] chunks, and no byte is left over. *)
Theorem tcp_reassembly fs chunks s :
  Forall sendable fs -> concat chunks = stream fs ->
  handleClient (map Received chunks) s = Open [] 0 (deliver_all TCP clientAddress fs s).
Proof.
  intros Hfs Hc. unfold handleClient. rewrite handleClient_scan by done.
  cbn [app]. rewrite Hc, <- (app_nil_r (stream fs)). by rewrite scan_all_stream.
Qed.

(** For arbitrary bytes, malformed or hostile, the outcome of a connection depends on the
    stream and not on how it is cut into chunks. *)
Theorem tcp_chunking_irrelevant chunks chunks' s :
  concat chunks = concat chunks' ->
  handleClient (map Received chunks) s = handleClient (map Received chunks') s.
Proof. intros Hc. unfold handleClient. by rewrite !handleClient_scan, Hc by done. Qed.

(** C35: on every sequence of [recv] results the connection neither reads out of bounds nor
    runs its loop out of turns, the buffer it keeps stays below one maximal frame (10 MiB and
    its prefix), and at most ten consecutive empty frames are tolerated. *)
Theorem tcp_buffer_bounded events s :
  match handleClient events s with
  | Open buf cnt _ => zlen buf < 4 + kMaxBufferSize /\ 0 <= cnt <= MAX_EMPTY_FRAMES
  | Closed _ => True
  | Crashed => False
  end.
Proof.
  unfold handleClient.
  assert (Hinv : match Open [] 0 s with
    | Open buf cnt _ => zlen buf < 4 + kMaxBufferSize /\ 0 <= cnt <= MAX_EMPTY_FRAMES
    | Closed _ => True | Crashed => False end)
    by (split; [reflexivity|unfold MAX_EMPTY_FRAMES; lia]).
  revert Hinv. generalize (Open [] 0 s). induction events as [|e events IH]; intros c Hc; [done|].
  cbn [fold_left]. apply IH. destruct c as [buf cnt w|w|], e as [temp| |]; try done.
  cbn [recv_step]. rewrite on_chunk_scan.
  destruct (scan_all (buf ++ temp) cnt w) eqn:E; [|done].
  eapply scan_all_bound; [|exact E]. apply Hc.
Qed.

End Server.

(** ** The accept loop's table of client threads *)

Record ClientThread := mkClientThread { ct_fd : Z; finished : bool }.

Record AcceptState := mkAcceptState {
  clientThreads_ : list ClientThread;
  totalConnectionsAccepted_ : Z;
  connectionsSinceCleanup : Z
}.

Definition kCleanupInterval : Z := 10.

(** Finished threads are joined and erased, the others stay. *)
Fixpoint cleanupFinishedThreads (ts : list ClientThread) : list ClientThread :=
  match ts with
  | [] => []
  | t :: ts' => if finished t then cleanupFinishedThreads ts'
                else t :: cleanupFinishedThreads ts'
  end.

Inductive accept_event :=
| AcceptFailed                 (* accept() < 0 *)
| Accepted (fd : Z)
| ThreadDone (fd : Z).         (* the handler of [fd] sets its [finished] flag *)

Definition acceptConnections_step (st : AcceptState) (e : accept_event) : AcceptState :=
  match e with
  | AcceptFailed => st
  | ThreadDone fd =>
      mkAcceptState
        (map (fun t => if ct_fd t =? fd then mkClientThread fd true else t) (clientThreads_ st))
        (totalConnectionsAccepted_ st) (connectionsSinceCleanup st)
  | Accepted fd =>
      let ts := clientThreads_ st ++ [mkClientThread fd false] in
      let total := add64 (totalConnectionsAccepted_ st) 1 in
      let since := connectionsSinceCleanup st + 1 in
      if kCleanupInterval <=? since
      then mkAcceptState (cleanupFinishedThreads ts) total 0
      else mkAcceptState ts total since
  end.

Definition acceptConnections (events : list accept_event) : AcceptState :=
  fold_left acceptConnections_step events (mkAcceptState [] 0 0).

Lemma cleanup_spec ts :
  cleanupFinishedThreads ts = List.filter (fun t => negb (finished t)) ts.
Proof. induction ts as [|t ts IH]; simpl; [done|]. rewrite IH. by destruct (finished t). Qed.

(** The abstract table: the clients that are connected, in the order of arrival. *)
Definition connected_step (fds : list Z) (e : accept_event) : list Z :=
  match e with
  | AcceptFailed => fds
  | Accepted fd => fds ++ [fd]
  | ThreadDone fd => List.filter (fun x => negb (x =? fd)) fds
  end.

Definition running_fds (ts : list ClientThread) : list Z :=
  map ct_fd (List.filter (fun t => negb (finished t)) ts).

Lemma running_fds_cleanup ts : running_fds (cleanupFinishedThreads ts) = running_fds ts.
Proof.
  rewrite cleanup_spec. unfold running_fds. f_equal.
  induction ts as [|t ts IH]; simpl; [done|].
  destruct (finished t) eqn:E; simpl; [done|]. by rewrite E, IH.
Qed.

Lemma running_fds_done fd ts :
  running_fds (map (fun t => if ct_fd t =? fd then mkClientThread fd true else t) ts)
  = List.filter (fun x => negb (x =? fd)) (running_fds ts).
Proof.
  induction ts as [|t ts IH]; [done|]. unfold running_fds in *. simpl.
  destruct (ct_fd t =? fd) eqn:E, (finished t) eqn:F; simpl; rewrite ?F; simpl;
    rewrite ?E; simpl; by rewrite IH.
Qed.

(** Joining and erasing finished client threads never drops a running one: the table's
    running threads are the clients connected and not yet done, in order of arrival, and a
    clean-up is never overdue. *)
Theorem accept_loop_keeps_running events :
  running_fds (clientThreads_ (acceptConnections events)) = fold_left connected_step events [] /\
  0 <= connectionsSinceCleanup (acceptConnections events) < kCleanupInterval.
Proof.
  unfold acceptConnections.
  assert (Hgen : forall st fds, running_fds (clientThreads_ st) = fds ->
    0 <= connectionsSinceCleanup st < kCleanupInterval ->
    running_fds (clientThreads_ (fold_left acceptConnections_step events st))
      = fold_left connected_step events fds /\
    0 <= connectionsSinceCleanup (fold_left acceptConnections_step events st) < kCleanupInterval);
    [|apply Hgen; [done|unfold kCleanupInterval; simpl; lia]].
  induction events as [|e events IH]; intros st fds <- Hs; [done|].
  cbn [fold_left]. apply IH; clear IH.
  - destruct e as [|fd|fd]; simpl; [done| |by apply running_fds_done].
    assert (Happ : running_fds (clientThreads_ st ++ [mkClientThread fd false])
                   = running_fds (clientThreads_ st) ++ [fd])
      by (unfold running_fds; by rewrite List.filter_app, map_app).
    case_match; simpl; by rewrite ?running_fds_cleanup.
  - destruct e as [|fd|fd]; simpl; [done| |done].
    case_match; bool_to_prop; simpl; unfold kCleanupInterval in *; lia.
Qed.

End TcpServer.

(** ** Concrete runs *)

Module TcpRun.

Definition frame : FrameParser.ParsedFrame :=
  FrameParser.mkParsedFrame HIGH "a" [Byte.x07].

Definition sink := recording_sink (fun _ => false).
Definition start : Ingest (list (EventSourceType * string * FrameParser.ParsedFrame)) :=
  mkIngest 0 0 [].

End TcpRun.

Lemma tcp_reassembly_witness :
  let fs := [TcpRun.frame; TcpRun.frame] in
  let chunks := [take 3 (TcpServer.stream fs); drop 3 (TcpServer.stream fs)] in
  Forall TcpServer.sendable fs /\ concat chunks = TcpServer.stream fs /\
  @TcpServer.handleClient _ TcpRun.sink "10.0.0.1" (map TcpServer.Received chunks) TcpRun.start
  = TcpServer.Open [] 0 (@deliver_all _ TcpRun.sink TCP "10.0.0.1" fs TcpRun.start).
Proof.
  set (fs := [TcpRun.frame; TcpRun.frame]). cbv zeta.
  assert (Hs : Forall TcpServer.sendable fs)
    by (repeat constructor; vm_compute; try done; discriminate).
  split; [exact Hs|]. split; [reflexivity|].
  apply TcpServer.tcp_reassembly; [exact Hs|reflexivity].
Defined.

Lemma tcp_chunking_irrelevant_witness :
  let bytes := [Byte.x00; Byte.x00; Byte.x00; Byte.x01; Byte.xff] in
  @TcpServer.handleClient _ TcpRun.sink "10.0.0.1" (map TcpServer.Received [bytes]) TcpRun.start
  = @TcpServer.handleClient _ TcpRun.sink "10.0.0.1"
      (map TcpServer.Received [take 2 bytes; drop 2 bytes]) TcpRun.start.
Proof. apply TcpServer.tcp_chunking_irrelevant. reflexivity. Defined.
