(* ===== verification/EpollServer.v ===== *)
(** * The epoll server: [src/core/ingest/epoll.cpp]

    Module [EpollServer]: the connection table, the framing loop of
    [processBuffer], the edge-triggered [handleRead], [closeConnection], one turn
    of the accept loop and the dispatch of one ready event in [workerLoop].  The
    results of the system calls are inputs; the calls a step makes are recorded
    in [trace]. *)

From S2P Require Import Prelude Event FrameParser IngestSink TcpServer.

Module EpollServer.
Section Server.
Context {W : Type} `{FrameSink W}.

Definition kReadChunk : Z := 4086.
Definition kMaxFrameSize : Z := 10 * 1024 * 1024.
Definition kMaxEmptyFrames : Z := 10.

Record ConnectionState := mkConnectionState {
  buffer : list byte;
  clientAddress : string;
  emptyFrameCount : Z
}.

Definition new_connection : ConnectionState := mkConnectionState [] "" 0.

Inductive syscall :=
| SysEpollAdd (epoll_fd fd : Z)
| SysEpollDel (epoll_fd fd : Z)
| SysShutdown (fd : Z)
| SysClose (fd : Z).

Record Server := mkServer {
  connections_ : gmap Z ConnectionState;
  nextWorker : Z;
  totalConnectionsAccepted_ : Z;
  activeConnections_ : Z;
  ingest : Ingest W;
  trace : list syscall
}.

Definition sys (c : syscall) (st : Server) : Server :=
  mkServer (connections_ st) (nextWorker st) (totalConnectionsAccepted_ st)
           (activeConnections_ st) (ingest st) (trace st ++ [c]).

(** The constructor's choice of the number of workers. *)
Definition numWorkers (num_workers hardware_concurrency : Z) : Z :=
  let n := if 0 <? num_workers then num_workers else hardware_concurrency in
  let n := if n <? 1 then 1 else n in
  if 16 <? n then 16 else n.

(** ** [processBuffer] *)

Inductive loop_exit :=
| Consumed (offset : Z)      (* left by [break] or by the loop condition *)
| Cleared                    (* [buf.clear(); return;] *)
| LoopUndefined
| LoopFuel.

Fixpoint process_loop (fuel : nat) (addr : string) (buf : list byte) (offset emptyCount : Z)
    (s : Ingest W) : loop_exit * Z * Ingest W :=
  match fuel with
  | O => (LoopFuel, emptyCount, s)
  | S fuel' =>
    if offset <? zlen buf then
      let remaining := zlen buf - offset in
      if remaining <? 4 then (Consumed offset, emptyCount, s) else
      let frameLen := TcpServer.frame_len_at buf offset in
      if frameLen =? 0 then
        let emptyCount := emptyCount + 1 in
        if kMaxEmptyFrames <? emptyCount then (Cleared, emptyCount, s)
        else process_loop fuel' addr buf (offset + 4) emptyCount s
      else
      let emptyCount := 0 in
      if kMaxFrameSize <? frameLen then (Cleared, emptyCount, s) else
      if remaining <? wrap 32 (4 + frameLen) then (Consumed offset, emptyCount, s) else
      let fullFrame := take (Z.to_nat (4 + frameLen)) (drop (Z.to_nat offset) buf) in
      let offset := offset + wrap 32 (4 + frameLen) in
      match FrameParser.parseFullFrame fullFrame with
      | Ret parsed => process_loop fuel' addr buf offset emptyCount (deliver TCP addr parsed s)
      | Throw _ => process_loop fuel' addr buf offset emptyCount s
      | UB => (LoopUndefined, emptyCount, s)
      end
    else (Consumed offset, emptyCount, s)
  end.

Definition processBuffer (state : ConnectionState) (s : Ingest W)
    : outcome (ConnectionState * Ingest W) :=
  let buf := buffer state in
  match process_loop (S (length buf)) (clientAddress state) buf 0 (emptyFrameCount state) s with
  | (Consumed offset, cnt, s') =>
      let buf' := if zlen buf <=? offset then []
                  else if 0 <? offset then drop (Z.to_nat offset) buf else buf in
      Ret (mkConnectionState buf' (clientAddress state) cnt, s')
  | (Cleared, cnt, s') => Ret (mkConnectionState [] (clientAddress state) cnt, s')
  | _ => UB
  end.

(** ** [handleRead]: [recv] until it reports something else than data *)

Inductive recv_end :=
| PeerClosed       (* n == 0 *)
| WouldBlock       (* EAGAIN / EWOULDBLOCK *)
| RecvError.

#[export] Instance recv_end_eq_dec : EqDecision recv_end.
Proof. solve_decision. Defined.

Fixpoint read_loop (chunks : list (list byte)) (state : ConnectionState) (s : Ingest W)
    : outcome (ConnectionState * Ingest W) :=
  match chunks with
  | [] => Ret (state, s)
  | temp :: chunks' =>
      '(state', s') ← processBuffer
          (mkConnectionState (buffer state ++ temp) (clientAddress state) (emptyFrameCount state)) s;
      read_loop chunks' state' s'
  end.

Definition handleRead (client_fd : Z) (chunks : list (list byte)) (fin : recv_end)
    (st : Server) : outcome (bool * Server) :=
  match connections_ st !! client_fd with
  | None => Ret (false, st)
  | Some state =>
      '(state', s') ← read_loop chunks state (ingest st);
      let st' := mkServer (<[client_fd := state']> (connections_ st)) (nextWorker st)
                   (totalConnectionsAccepted_ st) (activeConnections_ st) s' (trace st) in
      Ret (match fin with WouldBlock => true | PeerClosed | RecvError => false end, st')
  end.

(** ** Connection table *)

Definition closeConnection (client_fd epoll_fd : Z) (st : Server) : Server :=
  let st := sys (SysEpollDel epoll_fd client_fd) st in
  let st := mkServer (delete client_fd (connections_ st)) (nextWorker st)
              (totalConnectionsAccepted_ st) (activeConnections_ st) (ingest st) (trace st) in
  let st := sys (SysClose client_fd) (sys (SysShutdown client_fd) st) in
  mkServer (connections_ st) (nextWorker st) (totalConnectionsAccepted_ st)
           (sub64 (activeConnections_ st) 1) (ingest st) (trace st).

(** One successful [accept] of the loop: [nonblocking_ok] and [epoll_add_ok] are the
    answers of [setNonBlocking] and [epollAdd]. *)
Definition acceptConnections_step (epollFds : list Z) (clientFd : Z) (address : string)
    (nonblocking_ok epoll_add_ok : bool) (st : Server) : Server :=
  if negb nonblocking_ok then sys (SysClose clientFd) st else
  let old := default new_connection (connections_ st !! clientFd) in
  let conns := <[clientFd := mkConnectionState (buffer old) address (emptyFrameCount old)]>
                 (connections_ st) in
  let workers := zlen epollFds in
  let epoll_fd := nth (Z.to_nat (nextWorker st mod workers)) epollFds (-1) in
  let st := sys (SysEpollAdd epoll_fd clientFd)
              (mkServer conns (nextWorker st) (totalConnectionsAccepted_ st)
                 (activeConnections_ st) (ingest st) (trace st)) in
  if negb epoll_add_ok
  then sys (SysClose clientFd)
         (mkServer (delete clientFd (connections_ st)) (nextWorker st)
            (totalConnectionsAccepted_ st) (activeConnections_ st) (ingest st) (trace st))
  else mkServer (connections_ st) ((nextWorker st + 1) mod workers)
         (add64 (totalConnectionsAccepted_ st) 1) (add64 (activeConnections_ st) 1)
         (ingest st) (trace st).

(** ** One ready event of [workerLoop] *)

Definition EPOLLIN : Z := 1.
Definition EPOLLERR : Z := 8.
Definition EPOLLHUP : Z := 16.
Definition EPOLLRDHUP : Z := 8192.

Definition worker_event (epoll_fd fd evtFlags : Z) (chunks : list (list byte)) (fin : recv_end)
    (st : Server) : outcome Server :=
  if negb (Z.land evtFlags (Z.lor (Z.lor EPOLLERR EPOLLHUP) EPOLLRDHUP) =? 0)
  then Ret (closeConnection fd epoll_fd st)
  else if negb (Z.land evtFlags EPOLLIN =? 0) then
    '(keep, st') ← handleRead fd chunks fin st;
    Ret (if keep : bool then st' else closeConnection fd epoll_fd st')
  else Ret st.

(** ** Lemmas *)

(** The loop is the TCP server's loop; only the way out on a hostile frame differs. *)
Lemma process_loop_drain fuel addr buf off cnt s :
  process_loop fuel addr buf off cnt s =
  let '(e, cnt', s') := TcpServer.drain addr fuel buf off cnt s in
  (match e with
   | TcpServer.Drained o => Consumed o
   | TcpServer.TooManyEmptyFrames | TcpServer.FrameTooBig => Cleared
   | TcpServer.Undefined => LoopUndefined
   | TcpServer.OutOfFuel => LoopFuel
   end, cnt', s').
Proof.
  revert off cnt s; induction fuel as [|fuel IH]; intros off cnt s; [done|].
  cbn [process_loop TcpServer.drain].
  change kMaxEmptyFrames with TcpServer.MAX_EMPTY_FRAMES.
  change kMaxFrameSize with TcpServer.kMaxBufferSize.
  repeat (case_match; try done).
Qed.

(** One chunk in the stream view of the TCP server. *)
Lemma processBuffer_scan buf addr cnt s :
  match TcpServer.scan_all addr buf cnt s with
  | TcpServer.Rest r cnt' s' =>
      processBuffer (mkConnectionState buf addr cnt) s = Ret (mkConnectionState r addr cnt', s')
  | TcpServer.Shut s' => exists cnt',
      processBuffer (mkConnectionState buf addr cnt) s = Ret (mkConnectionState [] addr cnt', s')
  end.
Proof.
  unfold processBuffer, TcpServer.scan_all. cbn [buffer clientAddress emptyFrameCount].
  rewrite process_loop_drain.
  pose proof (TcpServer.drain_scan addr (S (length buf)) buf 0 cnt s) as Hds.
  rewrite drop_0 in Hds. pose proof (zlen_nonneg buf).
  destruct (TcpServer.scan addr (S (length buf)) buf cnt s) as [r cnt' s'|s'].
  - destruct Hds as (off' & Hoff & -> & ->); [lia|unfold zlen; lia|]. cbn.
    destruct (Z.leb_spec (zlen buf) off').
    + rewrite drop_ge; [done|]. unfold zlen in *. lia.
    + destruct (Z.ltb_spec 0 off'); [done|]. by replace off' with 0 by lia.
  - destruct Hds as (e & cnt' & [->| ->] & ->); [lia|unfold zlen; lia|by exists cnt'..].
Qed.

Lemma processBuffer_total state s : exists state' s',
  processBuffer state s = Ret (state', s') /\ clientAddress state' = clientAddress state.
Proof.
  destruct state as [buf addr cnt]. pose proof (processBuffer_scan buf addr cnt s) as Hp.
  destruct (TcpServer.scan_all addr buf cnt s); [|destruct Hp as [c Hp]]; eauto.
Qed.

Lemma read_loop_total chunks state s : exists state' s',
  read_loop chunks state s = Ret (state', s') /\ clientAddress state' = clientAddress state.
Proof.
  revert state s; induction chunks as [|c chunks IH]; intros state s; [by eauto|]. cbn [read_loop].
  destruct (processBuffer_total (mkConnectionState (buffer state ++ c) (clientAddress state)
    (emptyFrameCount state)) s) as (st1 & s1 & -> & Ha). cbn [mbind outcome_bind].
  destruct (IH st1 s1) as (st2 & s2 & -> & Ha2). exists st2, s2. split; [done|]. by rewrite Ha2.
Qed.

Lemma closeConnection_connections fd efd st :
  connections_ (closeConnection fd efd st) = delete fd (connections_ st).
Proof. done. Qed.

(** The counter of active connections agrees with the table. *)
Definition table_ok (st : Server) : Prop :=
  activeConnections_ st = Z.of_nat (size (connections_ st)) /\
  Z.of_nat (size (connections_ st)) <= UINT64_MAX.

(** What the server does to its table: accept a descriptor that is not in it, or
    handle an event of one that is. *)
Inductive server_step (efds : list Z) : Server -> Server -> Prop :=
| step_accept fd addr nb ok st :
    connections_ st !! fd = None ->
    Z.of_nat (size (connections_ st)) < UINT64_MAX ->
    server_step efds st (acceptConnections_step efds fd addr nb ok st)
| step_event efd fd flags chunks fin st st' :
    is_Some (connections_ st !! fd) ->
    worker_event efd fd flags chunks fin st = Ret st' ->
    server_step efds st st'.

Lemma handleRead_spec fd chunks fin st state :
  connections_ st !! fd = Some state ->
  exists state' s',
    read_loop chunks state (ingest st) = Ret (state', s') /\
    handleRead fd chunks fin st =
      Ret (match fin with WouldBlock => true | _ => false end,
           mkServer (<[fd := state']> (connections_ st)) (nextWorker st)
             (totalConnectionsAccepted_ st) (activeConnections_ st) s' (trace st)).
Proof.
  intros Hs. unfold handleRead. rewrite Hs.
  destruct (read_loop_total chunks state (ingest st)) as (st1 & s1 & Hr & _).
  exists st1, s1. rewrite Hr. split; [done|]. by destruct fin.
Qed.

Lemma table_ok_close fd efd st :
  is_Some (connections_ st !! fd) -> table_ok st -> table_ok (closeConnection fd efd st).
Proof.
  intros [c Hc] [Ha Hm]. unfold table_ok. rewrite closeConnection_connections.
  assert (Hsz : size (connections_ st) = S (size (delete fd (connections_ st)))).
  { rewrite map_size_delete_Some by done.
    assert (size (connections_ st) <> 0%nat)
      by (intros H0%map_size_empty_inv; rewrite H0 in Hc; by rewrite lookup_empty in Hc). lia. }
  cbn [closeConnection activeConnections_ sys]. rewrite Ha, Hsz in *.
  rewrite sub64_small; unfold UINT64_MAX in *; lia.
Qed.

Lemma table_ok_step efds st st' : table_ok st -> server_step efds st st' -> table_ok st'.
Proof.
  intros Hok Hstep. destruct Hstep as [fd addr nb ok st Hnone Hlt|efd fd flags chunks fin st st' Hsome He].
  - destruct Hok as [Ha Hm]. unfold acceptConnections_step.
    destruct nb; [|done]. simpl. destruct ok; simpl; unfold table_ok; simpl.
    + rewrite map_size_insert_None by done.
      rewrite add64_small by (unfold UINT64_MAX in *; lia). lia.
    + rewrite delete_insert_id by done. done.
  - unfold worker_event in He. case_match; [simplify_eq; by apply table_ok_close|].
    case_match; [|by simplify_eq].
    destruct Hsome as [c Hc].
    destruct (handleRead_spec fd chunks fin st c Hc) as (c' & s' & _ & Hr).
    rewrite Hr in He. cbn in He.
    assert (Hok' : table_ok (mkServer (<[fd := c']> (connections_ st)) (nextWorker st)
      (totalConnectionsAccepted_ st) (activeConnections_ st) s' (trace st))).
    { destruct Hok as [Ha Hm]. unfold table_ok. simpl.
      rewrite map_size_insert_Some by (by exists c). by split. }
    destruct fin; simplify_eq/=; [|done|];
      (apply table_ok_close; [|done]; simpl; rewrite lookup_insert_eq; by eexists).
Qed.

(** ** Properties *)

Lemma read_loop_tcp addr chunks buf cnt s buf' cnt' s' :
  fold_left (TcpServer.recv_step addr) (map TcpServer.Received chunks) (TcpServer.Open buf cnt s)
    = TcpServer.Open buf' cnt' s' ->
  read_loop chunks (mkConnectionState buf addr cnt) s = Ret (mkConnectionState buf' addr cnt', s').
Proof.
  revert buf cnt s; induction chunks as [|c chunks IH]; intros buf cnt s; cbn [map fold_left read_loop].
  { by intros [= -> -> ->]. }
  cbn [TcpServer.recv_step]. rewrite TcpServer.on_chunk_scan.
  cbn [buffer clientAddress emptyFrameCount].
  pose proof (processBuffer_scan (buf ++ c) addr cnt s) as Hp.
  destruct (TcpServer.scan_all addr (buf ++ c) cnt s) as [r c1 s1|s1].
  - rewrite Hp. cbn [mbind outcome_bind]. apply IH.
  - intros Hbad. exfalso. clear -Hbad.
    assert (Hc : forall l, fold_left (TcpServer.recv_step addr) (map TcpServer.Received l)
        (TcpServer.Closed s1) = TcpServer.Closed s1) by (induction l; simpl; done).
    by rewrite Hc in Hbad.
Qed.

(** C21: while the TCP server would keep a connection open, the epoll server processes the same
    chunks to the same deliveries, the same leftover buffer and the same empty-frame count. *)
Theorem epoll_matches_tcp addr chunks buf cnt s buf' cnt' s' :
  fold_left (TcpServer.recv_step addr) (map TcpServer.Received chunks) (TcpServer.Open buf cnt s)
    = TcpServer.Open buf' cnt' s' ->
  read_loop chunks (mkConnectionState buf addr cnt) s = Ret (mkConnectionState buf' addr cnt', s').
Proof. apply read_loop_tcp. Qed.

(** [handleRead] on a known descriptor always returns, never touches another connection,
    and keeps the connection exactly when [recv] ended with EAGAIN: no content of the stream,
    oversized or a flood of empty frames included, makes it ask for the close that
    [processBuffer] announces. *)
Theorem handleRead_verdict fd chunks fin st state :
  connections_ st !! fd = Some state ->
  exists st',
    handleRead fd chunks fin st = Ret (bool_decide (fin = WouldBlock), st') /\
    is_Some (connections_ st' !! fd) /\
    (forall fd', fd' <> fd -> connections_ st' !! fd' = connections_ st !! fd') /\
    activeConnections_ st' = activeConnections_ st /\ trace st' = trace st.
Proof.
  intros Hs. destruct (handleRead_spec fd chunks fin st state Hs) as (c' & s' & _ & ->).
  eexists. split; [by destruct fin|]. simpl. rewrite lookup_insert_eq.
  split; [by eexists|]. split; [|done]. intros fd' Hne. by rewrite lookup_insert_ne.
Qed.

(** An event that reports a peer hang-up or error together with readable data closes the
    connection without reading: whatever bytes are pending, nothing is delivered. *)
Theorem worker_event_hangup_discards efd fd flags chunks fin st :
  Z.land flags (Z.lor (Z.lor EPOLLERR EPOLLHUP) EPOLLRDHUP) <> 0 ->
  exists st', worker_event efd fd flags chunks fin st = Ret st' /\
    ingest st' = ingest st /\ connections_ st' = delete fd (connections_ st) /\
    trace st' = trace st ++ [SysEpollDel efd fd; SysShutdown fd; SysClose fd].
Proof.
  intros Hf. unfold worker_event. rewrite (proj2 (Z.eqb_neq _ _) Hf). cbn [negb].
  eexists. split; [done|]. split; [done|]. split; [done|]. simpl. by rewrite <- !app_assoc.
Qed.

(** In every reachable state the active-connection counter is the size of the connection
    table. *)
Theorem active_connections_accurate efds st st' :
  table_ok st -> rtc (server_step efds) st st' ->
  activeConnections_ st' = Z.of_nat (size (connections_ st')).
Proof.
  intros Hok Hr.
  destruct (rtc_invariant (server_step efds) table_ok (table_ok_step efds) st st' Hr Hok). done.
Qed.

End Server.
End EpollServer.

(** ** Concrete runs *)

Module EpollRun.

Definition frame_bytes : list byte := FrameParser.encode_frame HIGH "a" [Byte.x07].

Definition init : @EpollServer.Server (list (EventSourceType * string * FrameParser.ParsedFrame)) :=
  EpollServer.mkServer ∅ 0 0 0 TcpRun.start [].

Definition one : @EpollServer.Server (list (EventSourceType * string * FrameParser.ParsedFrame)) :=
  EpollServer.acceptConnections_step [100] 5 "10.0.0.1:40000" true true init.

(** A 20 MiB length prefix: the guard that announces the close. *)
Definition oversized : list byte := be_bytes 4 20971520.

End EpollRun.

Lemma epoll_matches_tcp_witness :
  @EpollServer.read_loop _ TcpRun.sink [EpollRun.frame_bytes]
    (EpollServer.mkConnectionState [] "10.0.0.1" 0) TcpRun.start
  = Ret (EpollServer.mkConnectionState [] "10.0.0.1" 0,
         @deliver_all _ TcpRun.sink TCP "10.0.0.1" [TcpRun.frame] TcpRun.start).
Proof. apply EpollServer.epoll_matches_tcp. reflexivity. Defined.

Lemma handleRead_verdict_witness :
  exists st',
    @EpollServer.handleRead _ TcpRun.sink 5 [EpollRun.oversized] EpollServer.WouldBlock EpollRun.one
      = Ret (true, st') /\
    is_Some (EpollServer.connections_ st' !! 5).
Proof.
  destruct (@EpollServer.handleRead_verdict _ TcpRun.sink 5 [EpollRun.oversized]
    EpollServer.WouldBlock EpollRun.one (EpollServer.mkConnectionState [] "10.0.0.1:40000" 0))
    as (st' & Hr & Hc & _); [reflexivity|].
  exists st'. split; [exact Hr|exact Hc].
Defined.

Lemma worker_event_hangup_discards_witness :
  exists st',
    @EpollServer.worker_event _ TcpRun.sink 100 5 8193 [EpollRun.frame_bytes]
      EpollServer.WouldBlock EpollRun.one = Ret st' /\
    EpollServer.ingest st' = TcpRun.start.
Proof.
  destruct (@EpollServer.worker_event_hangup_discards _ TcpRun.sink 100 5 8193
    [EpollRun.frame_bytes] EpollServer.WouldBlock EpollRun.one) as (st' & Hr & Hi & _);
    [discriminate|].
  exists st'. split; [exact Hr|exact Hi].
Defined.

Lemma active_connections_accurate_witness :
  EpollServer.activeConnections_ EpollRun.one = 1 /\
  rtc (@EpollServer.server_step _ TcpRun.sink [100]) EpollRun.init EpollRun.one /\
  EpollServer.activeConnections_ EpollRun.one
    = Z.of_nat (size (EpollServer.connections_ EpollRun.one)).
Proof.
  assert (Hr : rtc (@EpollServer.server_step _ TcpRun.sink [100]) EpollRun.init EpollRun.one)
    by (apply rtc_once, EpollServer.step_accept; reflexivity).
  split; [reflexivity|]. split; [exact Hr|].
  eapply (@EpollServer.active_connections_accurate _ TcpRun.sink [100] EpollRun.init); [|exact Hr].
  split; [reflexivity|discriminate].
Defined.
