(* ===== verification/EpollWorkers.v ===== *)
(** * The epoll server's threads: [acceptConnections] and [workerLoop] of [src/core/ingest/epoll.cpp]

    Module [EpollWorkers]: the accept thread and the workers as steps between the points where
    another thread can act - a system call, a section under [connectionsMutex_], a frame
    pushed to the dispatcher.  [handleRead] takes a pointer into the table under the lock and
    uses it after the lock is released; [closeConnection] erases the entry: what keeps the
    pointer valid is that a descriptor is registered with one worker, which is a theorem here.
    The kernel's part of the state is which descriptors are open and with which epoll
    instance each is registered.  [Annotation] records what has happened; no step depends
    on it. *)

From S2P Require Import Prelude Event FrameParser IngestSink TcpServer EpollServer.

Module EpollWorkers.
Import EpollServer.

(** ** [processBuffer] in two parts: the frames, and their delivery *)

(** A sink that accepts every frame and lists them. *)
#[local] Instance collector : FrameSink (list FrameParser.ParsedFrame) :=
  {| accept_frame _ _ f w := (true, w ++ [f]) |}.

(** What [processBuffer] makes of the state, and the frames it pushes. *)
Definition parse_buffer (st : ConnectionState) : outcome (ConnectionState * list FrameParser.ParsedFrame) :=
  '(st', s) ← processBuffer st (mkIngest 0 0 []); Ret (st', world s).

Section Split.
Context {W : Type} `{FrameSink W}.

Lemma process_loop_collect fuel addr buf off cnt n l (s : Ingest W) :
  exists m fs, process_loop (W := list FrameParser.ParsedFrame) fuel addr buf off cnt (mkIngest n 0 l) =
    ((process_loop fuel addr buf off cnt s).1, mkIngest m 0 (l ++ fs)) /\
    (process_loop fuel addr buf off cnt s).2 = deliver_all TCP addr fs s.
Proof.
  revert off cnt n l s; induction fuel as [|fuel IH]; intros off cnt n l s; cbn [process_loop].
  { exists n, []. by rewrite app_nil_r. }
  assert (Hend : forall e : loop_exit * Z, exists m fs, (e, mkIngest n 0 l) = (e, mkIngest m 0 (l ++ fs)) /\ s = deliver_all TCP addr fs s)
    by (intros e; exists n, []; by rewrite app_nil_r).
  destruct (off <? zlen buf); [|apply Hend]. destruct (_ <? 4); [apply Hend|].
  destruct (_ =? 0); [destruct (kMaxEmptyFrames <? _); [apply Hend|apply IH]|].
  destruct (kMaxFrameSize <? _); [apply Hend|]. destruct (_ <? wrap 32 _); [apply Hend|].
  destruct (FrameParser.parseFullFrame _) as [f| |]; [|apply IH|apply Hend].
  destruct (IH (off + wrap 32 (4 + TcpServer.frame_len_at buf off)) 0 (add64 n 1) (l ++ [f]) (deliver TCP addr f s))
    as (m & fs & H1 & H2). exists m, (f :: fs). split; [|exact H2].
  rewrite <- app_assoc in H1. exact H1.
Qed.

(** The split is the code's loop. *)
Lemma processBuffer_split st (s : Ingest W) : exists st' fs,
  parse_buffer st = Ret (st', fs) /\ processBuffer st s = Ret (st', deliver_all TCP (clientAddress st) fs s) /\
  clientAddress st' = clientAddress st.
Proof.
  destruct (processBuffer_total st s) as (st' & s' & Hp & Ha). unfold parse_buffer, processBuffer in *.
  destruct (process_loop_collect (S (length (buffer st))) (clientAddress st) (buffer st) 0 (emptyFrameCount st) 0 [] s)
    as (m & fs & H1 & H2).
  rewrite H1. destruct (process_loop _ _ _ _ _ s) as [[e cnt] s1]. cbn [fst snd] in *.
  destruct e; try done; injection Hp as <- <-; eexists _, fs; (split; [done|]); by rewrite H2.
Qed.

End Split.


(** ** A connection by itself *)

(** One [recv] appended and parsed; the second component is what has been pushed so far. *)
Definition absorb (x : ConnectionState * list FrameParser.ParsedFrame) (temp : list byte)
    : ConnectionState * list FrameParser.ParsedFrame :=
  match parse_buffer (mkConnectionState (buffer x.1 ++ temp) (clientAddress x.1) (emptyFrameCount x.1)) with
  | Ret (st', fs) => (st', x.2 ++ fs)
  | _ => x
  end.

Definition alone (addr : string) (chunks : list (list byte)) : ConnectionState * list FrameParser.ParsedFrame :=
  fold_left absorb chunks (mkConnectionState [] addr 0, []).

Lemma alone_snoc addr chunks temp : alone addr (chunks ++ [temp]) = absorb (alone addr chunks) temp.
Proof. apply fold_left_app. Qed.

(** [read_loop], and so [handleRead], is the same computation. *)
Lemma read_loop_absorb {W} `{FrameSink W} chunks st fs (s0 : Ingest W) :
  let x := fold_left absorb chunks (st, fs) in
  read_loop chunks st (deliver_all TCP (clientAddress st) fs s0) = Ret (x.1, deliver_all TCP (clientAddress st) x.2 s0).
Proof.
  revert st fs; induction chunks as [|c chunks IH]; intros st fs; [done|]. cbn [read_loop fold_left].
  destruct (processBuffer_split (mkConnectionState (buffer st ++ c) (clientAddress st) (emptyFrameCount st))
    (deliver_all TCP (clientAddress st) fs s0)) as (st' & gs & Hp & Hb & Ha). cbn [clientAddress] in *.
  assert (Hab : absorb (st, fs) c = (st', fs ++ gs)) by (unfold absorb; cbn [fst snd]; by rewrite Hp).
  rewrite Hb, Hab. cbn [mbind outcome_bind]. rewrite <- deliver_all_app, <- Ha. apply IH.
Qed.

(** The frames of a stream that is well formed, however it is cut. *)
Lemma alone_stream addr chunks fs :
  Forall TcpServer.sendable fs -> concat chunks = TcpServer.stream fs -> (alone addr chunks).2 = fs.
Proof.
  intros Hfs Hc. pose proof (read_loop_absorb chunks (mkConnectionState [] addr 0) [] (mkIngest 0 0 [])) as Hr. cbn [deliver_all fold_left clientAddress] in Hr.
  assert (Hcol : forall l n k w, world (deliver_all TCP addr l (mkIngest n k w)) = w ++ l).
  { induction l as [|f l IH]; intros n k w; [by rewrite app_nil_r|]. cbn [deliver_all fold_left]. unfold deliver_all in IH.
    unfold deliver at 2. cbn [accept_frame collector world]. rewrite IH. by rewrite <- app_assoc. }
  rewrite (read_loop_tcp addr chunks [] 0 _ [] 0 (deliver_all TCP addr fs (mkIngest 0 0 []))) in Hr.
  - injection Hr as _ Hr. apply (f_equal world) in Hr. rewrite !Hcol in Hr. symmetry. exact Hr.
  - fold (TcpServer.handleClient addr (map TcpServer.Received chunks) (mkIngest 0 0 [])). unfold TcpServer.handleClient.
    rewrite TcpServer.handleClient_scan by done. cbn [app]. rewrite Hc, <- (app_nil_r (TcpServer.stream fs)).
    by rewrite TcpServer.scan_all_stream.
Qed.

(** ** The threads *)

Section Threads.
Context {W : Type} `{FrameSink W}.
(** The epoll descriptors, one for each worker. *)
Context (efds : list Z).

(** Where the accept thread is. *)
Inductive acc_pc :=
| AccIdle                               (* about to call accept() *)
| AccNew (fd : Z) (addr : string)       (* accepted *)
| AccTable (fd : Z) (addr : string)     (* non-blocking; about to enter it in the table *)
| AccAdd (fd : Z)                       (* about to register it *)
| AccDrop (fd : Z)                      (* refused: about to erase it *)
| AccClose (fd : Z)
| AccCount                              (* registered; about to count it *)
| AccGone.                              (* has left its loop *)

(** Where a worker is; [evs] are the events of its batch still to be handled. *)
Inductive worker_pc :=
| WIdle                                                        (* about to call epoll_wait() *)
| WBatch (evs : list (Z * Z))
| WLook (fd : Z) (evs : list (Z * Z))                          (* handleRead: about to look the connection up *)
| WRead (fd : Z) (evs : list (Z * Z))                          (* holds the pointer; about to call recv() *)
| WDeliver (fd : Z) (fs : list FrameParser.ParsedFrame) (evs : list (Z * Z))
| WDel (fd : Z) (evs : list (Z * Z))                           (* closeConnection: about to deregister *)
| WErase (fd : Z) (evs : list (Z * Z))
| WClose (fd : Z) (evs : list (Z * Z))
| WCount (evs : list (Z * Z))
| WGone.                                                       (* has left its loop *)

(** What has happened, by connection, numbered in the order they entered the table. *)
Record Annotation := mkAnnotation {
  owner : gmap Z (option nat);                 (* the thread an open descriptor belongs to; None: the accept thread *)
  serial : gmap Z nat;                         (* the connection a descriptor stands for *)
  count : nat;
  peer : nat -> string;
  heard : nat -> list (list byte);             (* what recv() returned *)
  log : list (nat * FrameParser.ParsedFrame);  (* what was pushed, in order *)
  owed : nat -> list FrameParser.ParsedFrame   (* what is parsed and not yet pushed *)
}.

Record State := mkState {
  srv : Server (W := W);
  interest : gmap Z nat;                       (* the worker whose epoll instance watches the descriptor *)
  open : gset Z;
  acceptor : acc_pc;
  workers : list worker_pc;
  note : Annotation
}.

Definition with_connections (c : gmap Z ConnectionState) (st : Server (W := W)) : Server (W := W) :=
  mkServer c (nextWorker st) (totalConnectionsAccepted_ st) (activeConnections_ st) (ingest st) (trace st).
Definition with_ingest (i : Ingest W) (st : Server (W := W)) : Server (W := W) :=
  mkServer (connections_ st) (nextWorker st) (totalConnectionsAccepted_ st) (activeConnections_ st) i (trace st).

(** [emplace], then the address. *)
Definition enter (fd : Z) (addr : string) (st : Server (W := W)) : Server (W := W) :=
  let old := default new_connection (connections_ st !! fd) in
  with_connections (<[fd := mkConnectionState (buffer old) addr (emptyFrameCount old)]> (connections_ st)) st.
Definition erase (fd : Z) (st : Server (W := W)) : Server (W := W) := with_connections (delete fd (connections_ st)) st.
Definition count_accepted (st : Server (W := W)) : Server (W := W) :=
  mkServer (connections_ st) ((nextWorker st + 1) mod zlen efds) (add64 (totalConnectionsAccepted_ st) 1)
    (add64 (activeConnections_ st) 1) (ingest st) (trace st).
Definition count_closed (st : Server (W := W)) : Server (W := W) :=
  mkServer (connections_ st) (nextWorker st) (totalConnectionsAccepted_ st) (sub64 (activeConnections_ st) 1) (ingest st) (trace st).
(** [fcntl] twice: the flags, or a negative number; and whether the kernel takes the new ones. *)
Definition setNonBlocking (flags : Z) (set_ok : bool) : bool := if flags <? 0 then false else set_ok.
(** What [epollAdd] asks for, and what [epoll_wait] may then report: errors and hang-ups always. *)
Definition EPOLLET : Z := 2147483648.
Definition watched : Z := Z.lor (Z.lor EPOLLIN EPOLLET) EPOLLRDHUP.
Definition may_report (flags : Z) : bool := Z.land flags (Z.lnot (Z.lor watched (Z.lor EPOLLERR EPOLLHUP))) =? 0.
(** [ok]: the kernel takes the registration. *)
Definition epollAdd (epoll_fd fd : Z) (ok : bool) (st : Server (W := W)) : bool * Server (W := W) :=
  (ok, sys (SysEpollAdd epoll_fd fd) st).
Definition chosen (st : Server (W := W)) : nat := Z.to_nat (nextWorker st mod zlen efds).
Definition epoll_of (i : nat) : Z := nth i efds (-1).

(** The annotations of the steps. *)
Definition own (fd : Z) (o : option nat) (a : Annotation) : Annotation :=
  mkAnnotation (<[fd := o]> (owner a)) (serial a) (count a) (peer a) (heard a) (log a) (owed a).
Definition disown (fd : Z) (a : Annotation) : Annotation :=
  mkAnnotation (delete fd (owner a)) (serial a) (count a) (peer a) (heard a) (log a) (owed a).
Definition number (fd : Z) (addr : string) (a : Annotation) : Annotation :=
  mkAnnotation (owner a) (<[fd := count a]> (serial a)) (Datatypes.S (count a)) (<[count a := addr]> (peer a)) (heard a) (log a) (owed a).
Definition forget (fd : Z) (a : Annotation) : Annotation :=
  mkAnnotation (owner a) (delete fd (serial a)) (count a) (peer a) (heard a) (log a) (owed a).
Definition hear (n : nat) (temp : list byte) (fs : list FrameParser.ParsedFrame) (a : Annotation) : Annotation :=
  mkAnnotation (owner a) (serial a) (count a) (peer a) (<[n := heard a n ++ [temp]]> (heard a)) (log a) (<[n := fs]> (owed a)).
Definition pushed (n : nat) (f : FrameParser.ParsedFrame) (fs : list FrameParser.ParsedFrame) (a : Annotation) : Annotation :=
  mkAnnotation (owner a) (serial a) (count a) (peer a) (heard a) (log a ++ [(n, f)]) (<[n := fs]> (owed a)).
Definition number_of (fd : Z) (a : Annotation) : nat := default 0%nat (serial a !! fd).

Definition hung_up (flags : Z) : bool := negb (Z.land flags (Z.lor (Z.lor EPOLLERR EPOLLHUP) EPOLLRDHUP) =? 0).
Definition readable (flags : Z) : bool := negb (Z.land flags EPOLLIN =? 0).

(** *** The accept thread *)

Inductive acc_step : State -> State -> Prop :=
| acc_accept fd addr sv ie op ws a : fd ∉ op ->
    acc_step (mkState sv ie op AccIdle ws a) (mkState sv ie ({[fd]} ∪ op) (AccNew fd addr) ws (own fd None a))
| acc_blocking fd addr flags set_ok sv ie op ws a : setNonBlocking flags set_ok = false ->
    acc_step (mkState sv ie op (AccNew fd addr) ws a) (mkState sv ie op (AccClose fd) ws a)
| acc_nonblocking fd addr flags set_ok sv ie op ws a : setNonBlocking flags set_ok = true ->
    acc_step (mkState sv ie op (AccNew fd addr) ws a) (mkState sv ie op (AccTable fd addr) ws a)
| acc_enter fd addr sv ie op ws a :
    acc_step (mkState sv ie op (AccTable fd addr) ws a)
      (mkState (enter fd addr sv) ie op (AccAdd fd) ws (number fd addr a))
| acc_add fd ok sv sv' ie op ws a : epollAdd (epoll_of (chosen sv)) fd ok sv = (true, sv') ->
    acc_step (mkState sv ie op (AccAdd fd) ws a)
      (mkState sv' (<[fd := chosen sv]> ie) op AccCount ws (own fd (Some (chosen sv)) a))
| acc_refused fd ok sv sv' ie op ws a : epollAdd (epoll_of (chosen sv)) fd ok sv = (false, sv') ->
    acc_step (mkState sv ie op (AccAdd fd) ws a) (mkState sv' ie op (AccDrop fd) ws a)
| acc_drop fd sv ie op ws a :
    acc_step (mkState sv ie op (AccDrop fd) ws a) (mkState (erase fd sv) ie op (AccClose fd) ws (forget fd a))
| acc_close fd sv ie op ws a :
    acc_step (mkState sv ie op (AccClose fd) ws a)
      (mkState (sys (SysClose fd) sv) ie (op ∖ {[fd]}) AccIdle ws (disown fd a))
| acc_count sv ie op ws a :
    acc_step (mkState sv ie op AccCount ws a) (mkState (count_accepted sv) ie op AccIdle ws a)
| acc_leave sv ie op ws a :                 (* isRunning_ is false: stop() may have cleared it at any time *)
    acc_step (mkState sv ie op AccIdle ws a) (mkState sv ie op AccGone ws a).

(** *** A worker: what it does to the state when it goes from one point to the next *)

Inductive work_step (i : nat) : worker_pc -> State -> worker_pc -> State -> Prop :=
| w_wait evs s :                            (* epoll_wait: descriptors registered with it, each once *)
    NoDup (map fst evs) -> Forall (fun ev => interest s !! ev.1 = Some i /\ may_report ev.2 = true) evs ->
    work_step i WIdle s (WBatch evs) s
| w_done s : work_step i (WBatch []) s WIdle s
| w_hung_up fd flags evs s : hung_up flags = true -> work_step i (WBatch ((fd, flags) :: evs)) s (WDel fd evs) s
| w_readable fd flags evs s : hung_up flags = false -> readable flags = true ->
    work_step i (WBatch ((fd, flags) :: evs)) s (WLook fd evs) s
| w_nothing fd flags evs s : hung_up flags = false -> readable flags = false ->
    work_step i (WBatch ((fd, flags) :: evs)) s (WBatch evs) s
| w_found fd evs s : is_Some (connections_ (srv s) !! fd) -> work_step i (WLook fd evs) s (WRead fd evs) s
| w_unknown fd evs s : connections_ (srv s) !! fd = None -> work_step i (WLook fd evs) s (WDel fd evs) s
| w_recv fd evs temp st st' fs s :
    connections_ (srv s) !! fd = Some st -> temp <> [] ->
    parse_buffer (mkConnectionState (buffer st ++ temp) (clientAddress st) (emptyFrameCount st)) = Ret (st', fs) ->
    work_step i (WRead fd evs) s (WDeliver fd fs evs)
      (mkState (with_connections (<[fd := st']> (connections_ (srv s))) (srv s)) (interest s) (open s) (acceptor s) (workers s)
         (hear (number_of fd (note s)) temp fs (note s)))
| w_would_block fd evs s : work_step i (WRead fd evs) s (WBatch evs) s
| w_ended fd evs s : work_step i (WRead fd evs) s (WDel fd evs) s     (* closed by the peer, or an error *)
| w_push fd f fs evs st s :
    connections_ (srv s) !! fd = Some st ->
    work_step i (WDeliver fd (f :: fs) evs) s (WDeliver fd fs evs)
      (mkState (with_ingest (deliver TCP (clientAddress st) f (ingest (srv s))) (srv s)) (interest s) (open s) (acceptor s)
         (workers s) (pushed (number_of fd (note s)) f fs (note s)))
| w_parsed fd evs s : work_step i (WDeliver fd [] evs) s (WRead fd evs) s
| w_del fd evs s :
    work_step i (WDel fd evs) s (WErase fd evs)
      (mkState (sys (SysEpollDel (epoll_of i) fd) (srv s)) (delete fd (interest s)) (open s) (acceptor s) (workers s) (note s))
| w_erase fd evs s :
    work_step i (WErase fd evs) s (WClose fd evs)
      (mkState (erase fd (srv s)) (interest s) (open s) (acceptor s) (workers s) (forget fd (note s)))
| w_close fd evs s :
    work_step i (WClose fd evs) s (WCount evs)
      (mkState (sys (SysClose fd) (sys (SysShutdown fd) (srv s))) (interest s) (open s ∖ {[fd]}) (acceptor s) (workers s)
         (disown fd (note s)))
| w_count evs s :
    work_step i (WCount evs) s (WBatch evs)
      (mkState (count_closed (srv s)) (interest s) (open s) (acceptor s) (workers s) (note s))
| w_leave s : work_step i WIdle s WGone s.  (* isRunning_ is false, or epoll_wait failed *)

Definition set_worker (i : nat) (p : worker_pc) (s : State) : State :=
  mkState (srv s) (interest s) (open s) (acceptor s) (<[i := p]> (workers s)) (note s).

Inductive step : State -> State -> Prop :=
| step_acc s s' : acc_step s s' -> step s s'
| step_work i p p' s s' : workers s !! i = Some p -> work_step i p s p' s' -> step s (set_worker i p' s').

Definition blank : Annotation := mkAnnotation ∅ ∅ 0 (fun _ => "") (fun _ => []) [] (fun _ => []).

(** A server that has just started its threads. *)
Definition started (ig : Ingest W) : State :=
  mkState (mkServer ∅ 0 0 0 ig []) ∅ ∅ AccIdle (replicate (length efds) WIdle) blank.


(** ** Who may touch what *)

(** The descriptors of a worker that are registered with it. *)
Definition registered (p : worker_pc) : list Z :=
  match p with
  | WIdle | WGone => []
  | WBatch evs | WErase _ evs | WClose _ evs | WCount evs => map fst evs
  | WLook fd evs | WRead fd evs | WDeliver fd _ evs | WDel fd evs => fd :: map fst evs
  end.

(** The descriptor a worker is closing and has deregistered. *)
Definition leaving (p : worker_pc) : option Z :=
  match p with WErase fd _ | WClose fd _ => Some fd | _ => None end.

Definition log_of (n : nat) (l : list (nat * FrameParser.ParsedFrame)) : list FrameParser.ParsedFrame :=
  omap (fun x => if decide (x.1 = n) then Some x.2 else None) l.

Record worker_ok (s : State) (i : nat) (p : worker_pc) : Prop := {
  k_nodup : NoDup (registered p);
  k_registered : forall fd, fd ∈ registered p -> interest s !! fd = Some i;
  k_leaving : forall fd, leaving p = Some fd -> owner (note s) !! fd = Some (Some i) /\ interest s !! fd = None;
  k_table : match p with
            | WErase fd _ => is_Some (connections_ (srv s) !! fd)
            | WClose fd _ => connections_ (srv s) !! fd = None
            | _ => True
            end;
  k_owed : match p with WDeliver fd fs _ => owed (note s) (number_of fd (note s)) = fs | _ => True end
}.

Definition acc_ok (s : State) : Prop :=
  match acceptor s with
  | AccIdle | AccCount | AccGone => True
  | AccNew fd _ | AccTable fd _ | AccClose fd => owner (note s) !! fd = Some None /\ connections_ (srv s) !! fd = None
  | AccAdd fd | AccDrop fd => owner (note s) !! fd = Some None /\ is_Some (connections_ (srv s) !! fd)
  end.

(** What has happened, against the table and what was delivered. *)
Record history (ig : Ingest W) (sv : Server (W := W)) (a : Annotation) : Prop := {
  h_table : dom (serial a) = dom (connections_ sv);
  h_number : forall fd n, serial a !! fd = Some n -> (n < count a)%nat;
  h_inj : forall fd fd' n, serial a !! fd = Some n -> serial a !! fd' = Some n -> fd = fd';
  h_fresh : forall n, (count a <= n)%nat -> heard a n = [];
  h_state : forall fd st n, connections_ sv !! fd = Some st -> serial a !! fd = Some n ->
    (alone (peer a n) (heard a n)).1 = st;
  h_frames : forall n, (alone (peer a n) (heard a n)).2 = log_of n (log a) ++ owed a n;
  h_ingest : ingest sv = fold_left (fun g x => deliver TCP (peer a x.1) x.2 g) (log a) ig;
  h_log : Forall (fun x => x.1 < count a)%nat (log a)
}.

Record inv (ig : Ingest W) (s : State) : Prop := {
  v_owner : dom (owner (note s)) = open s;
  v_open : dom (connections_ (srv s)) ⊆ open s;
  v_interest : forall fd i, interest s !! fd = Some i ->
    owner (note s) !! fd = Some (Some i) /\ is_Some (connections_ (srv s) !! fd);
  v_acc : acc_ok s;
  v_workers : forall i p, workers s !! i = Some p -> worker_ok s i p;
  v_owed : forall n, owed (note s) n <> [] ->
    exists i fd fs evs, workers s !! i = Some (WDeliver fd fs evs) /\ serial (note s) !! fd = Some n;
  v_history : history ig (srv s) (note s)
}.

Lemma started_inv ig : inv ig (started ig).
Proof.
  split; [..|split]; cbn; try done; try set_solver.
  - intros i p Hp. apply lookup_replicate in Hp as [-> _]. split; cbn; try done; [constructor|set_solver].
Qed.

(** A change at one descriptor is none of a worker's business unless the descriptor is its own. *)
Record away (fd0 : Z) (s s' : State) : Prop := {
  y_interest : forall fd, fd <> fd0 -> interest s' !! fd = interest s !! fd;
  y_owner : forall fd, fd <> fd0 -> owner (note s') !! fd = owner (note s) !! fd;
  y_table : forall fd, fd <> fd0 -> connections_ (srv s') !! fd = connections_ (srv s) !! fd;
  y_serial : forall fd, fd <> fd0 -> serial (note s') !! fd = serial (note s) !! fd;
  y_owed : forall n, serial (note s) !! fd0 <> Some n -> owed (note s') n = owed (note s) n
}.

Lemma interest_number ig s fd i : inv ig s -> interest s !! fd = Some i -> exists n st,
  serial (note s) !! fd = Some n /\ connections_ (srv s) !! fd = Some st /\ number_of fd (note s) = n.
Proof.
  intros Hi Hf. destruct (v_interest _ _ Hi _ _ Hf) as [_ [st Hst]].
  assert (Hn : is_Some (serial (note s) !! fd)) by (apply elem_of_dom; rewrite (h_table _ _ _ (v_history _ _ Hi)); apply elem_of_dom; by exists st).
  destruct Hn as [n Hn]. exists n, st. unfold number_of. by rewrite Hn.
Qed.

Lemma others_keep ig s s' fd0 j p : inv ig s -> workers s !! j = Some p -> owner (note s) !! fd0 <> Some (Some j) ->
  away fd0 s s' -> worker_ok s' j p.
Proof.
  intros Hi Hj Ho [Y1 Y2 Y3 Y4 Y5]. pose proof (v_workers _ _ Hi _ _ Hj) as Hk. pose proof Hk as [K1 K2 K3 K4 K5].
  assert (Hreg : forall fd, fd ∈ registered p -> fd <> fd0).
  { intros fd Hfd ->. apply K2 in Hfd. by destruct (v_interest _ _ Hi _ _ Hfd) as [Hf _]. }
  assert (Hlv : forall fd, leaving p = Some fd -> fd <> fd0) by (intros fd Hfd ->; by destruct (K3 _ Hfd)).
  split; [done|..].
  - intros fd Hfd. rewrite Y1 by auto. by apply K2.
  - intros fd Hfd. rewrite Y1, Y2 by auto. by apply K3.
  - destruct p; try done; by rewrite Y3 by auto.
  - destruct p as [| | | |fd fs evs| | | | |]; try done. assert (Hin : fd ∈ registered (WDeliver fd fs evs)) by left.
    destruct (interest_number ig s fd j Hi (K2 _ Hin)) as (n & st & Hn & _ & Hnum).
    assert (Hnum' : number_of fd (note s') = n) by (unfold number_of; by rewrite Y4, Hn by auto).
    rewrite Hnum', Y5; [by rewrite <- Hnum|]. intros H0. by eapply Hreg, (h_inj _ _ _ (v_history _ _ Hi)).
Qed.

(** A worker that only goes on to another point. *)
Lemma inv_pc ig s i p p' : inv ig s -> workers s !! i = Some p -> worker_ok s i p' ->
  (forall fd fs evs, p = WDeliver fd fs evs -> fs = [] ) -> inv ig (set_worker i p' s).
Proof.
  intros Hi Hp Hk Hd. destruct Hi as [? ? ? ? Hw Howed ?]. split; try done.
  - intros j q. cbn. intros Hj. destruct (decide (i = j)) as [<-|Hne].
    + rewrite list_lookup_insert_eq in Hj by (by eapply lookup_lt_Some). injection Hj as <-.
      by destruct Hk.
    + rewrite list_lookup_insert_ne in Hj by done. by destruct (Hw _ _ Hj).
  - intros n Hn. destruct (Howed n Hn) as (j & fd & fs & evs & Hj & Hs). exists j, fd, fs, evs. split; [|done]. cbn.
    rewrite list_lookup_insert_ne; [done|]. intros <-. rewrite Hp in Hj. injection Hj as ->.
    pose proof (Hw _ _ Hp) as [_ _ _ _ K5]. cbn in K5. specialize (Hd _ _ _ eq_refl). subst fs.
    unfold number_of in K5. rewrite Hs in K5. cbn in K5. exact (Hn K5).
Qed.


Lemma set_worker_lookup i p s j : workers (set_worker i p s) !! j =
  if decide (i = j /\ (i < length (workers s))%nat) then Some p else workers s !! j.
Proof.
  cbn. destruct (decide _) as [[<- Hl]|Hn]; [by apply list_lookup_insert_eq|]. destruct (decide (i = j)) as [<-|].
  - rewrite list_insert_ge; [done|]. destruct (decide (i < length (workers s))%nat); [by destruct Hn|lia].
  - by apply list_lookup_insert_ne.
Qed.

(** A step of a worker at a descriptor of its own. *)
Lemma inv_at ig s s' i p p' fd0 : inv ig s -> workers s !! i = Some p -> owner (note s) !! fd0 = Some (Some i) ->
  workers s' = workers s -> acceptor s' = acceptor s -> away fd0 s s' ->
  dom (owner (note s')) = open s' -> dom (connections_ (srv s')) ⊆ open s' ->
  (forall j, interest s' !! fd0 = Some j -> owner (note s') !! fd0 = Some (Some j) /\ is_Some (connections_ (srv s') !! fd0)) ->
  worker_ok s' i p' -> history ig (srv s') (note s') ->
  (forall n, serial (note s) !! fd0 = Some n -> owed (note s') n <> [] ->
     serial (note s') !! fd0 = Some n /\ exists fs evs, p' = WDeliver fd0 fs evs) ->
  (forall fd fs evs, p = WDeliver fd fs evs -> fd = fd0) -> inv ig (set_worker i p' s').
Proof.
  intros Hi Hp Ho Hw Hacc Ha Hdom Hop Hin Hk Hh Hd Hpd. pose proof Ha as [Y1 Y2 Y3 Y4 Y5]. split; try done.
  - intros fd j. cbn. destruct (decide (fd = fd0)) as [->|Hne]; [by auto|]. rewrite Y1, Y2, Y3 by done. by apply (v_interest _ _ Hi).
  - pose proof (v_acc _ _ Hi) as Hac. unfold acc_ok in *. cbn [acceptor set_worker srv note]. rewrite Hacc.
    destruct (acceptor s) as [|fd ?|fd ?|fd|fd|fd| |]; try done; destruct Hac as [Hac1 Hac2];
      (assert (fd <> fd0) by (intros ->; congruence)); by rewrite Y2, Y3.
  - intros j q. rewrite set_worker_lookup, Hw. destruct (decide _) as [[<- _]|Hn]; [intros [= <-]; by destruct Hk|].
    intros Hj. assert (Hne : j <> i). { intros ->. apply Hn. split; [done|]. by eapply lookup_lt_Some. }
    by destruct (others_keep ig s s' fd0 j q Hi Hj) as [? ? ? ? ?]; [congruence|done|].
  - intros n Hn. cbn [note set_worker] in Hn. destruct (decide (serial (note s) !! fd0 = Some n)) as [Hs0|Hs0].
    + destruct (Hd n Hs0 Hn) as [Hs1 (fs & evs & ->)]. exists i, fd0, fs, evs. split; [|done].
      rewrite set_worker_lookup, Hw, decide_True; [done|]. split; [done|]. by eapply lookup_lt_Some.
    + rewrite Y5 in Hn by done. destruct (v_owed _ _ Hi n Hn) as (j & fd & fs & evs & Hj & Hs).
      assert (Hfd : fd <> fd0) by (intros ->; congruence). exists j, fd, fs, evs. cbn [note set_worker]. rewrite Y4 by done.
      split; [|done]. rewrite set_worker_lookup, Hw, decide_False; [done|]. intros [-> _]. rewrite Hp in Hj. injection Hj as ->.
      by apply Hfd, (Hpd fd fs evs).
Qed.

(** ** The history of a step *)

Lemma log_of_app n l k : log_of n (l ++ k) = log_of n l ++ log_of n k.
Proof. apply omap_app. Qed.

Lemma absorb_address x temp : clientAddress (absorb x temp).1 = clientAddress x.1.
Proof.
  unfold absorb. destruct (processBuffer_split (mkConnectionState (buffer x.1 ++ temp) (clientAddress x.1) (emptyFrameCount x.1))
    (mkIngest 0 0 [])) as (st' & fs & -> & _ & Ha). exact Ha.
Qed.

Lemma alone_address addr chunks : clientAddress (alone addr chunks).1 = addr.
Proof.
  induction chunks as [|c chunks IH] using rev_ind; [done|]. by rewrite alone_snoc, absorb_address.
Qed.

Lemma history_same ig sv sv' a : connections_ sv' = connections_ sv -> ingest sv' = ingest sv -> history ig sv a -> history ig sv' a.
Proof. intros H1 H2 [? ? ? ? ? ? ? ?]. split; rewrite ?H1, ?H2; try done. Qed.

Lemma history_own ig sv fd o a : history ig sv a -> history ig sv (own fd o a).
Proof. by intros []. Qed.
Lemma history_disown ig sv fd a : history ig sv a -> history ig sv (disown fd a).
Proof. by intros []. Qed.

Lemma history_forget ig sv fd a : history ig sv a -> history ig (erase fd sv) (forget fd a).
Proof.
  intros [H1 H2 H3 H4 H5 H6 H7 H8]. split; try done; cbn [serial forget connections_ erase with_connections].
  - by rewrite !dom_delete_L, H1.
  - intros k n Hk. apply lookup_delete_Some in Hk as [_ Hk]. by eapply H2.
  - intros k k' n Hk Hk'. apply lookup_delete_Some in Hk as [_ Hk], Hk' as [_ Hk']. by eapply H3.
  - intros k st n Hk Hn. apply lookup_delete_Some in Hk as [_ Hk], Hn as [_ Hn]. by eapply H5.
Qed.

(** The bytes [recv] returned are parsed as they would be on a connection by itself. *)
Lemma history_hear ig sv fd n temp st st' fs a : history ig sv a ->
  connections_ sv !! fd = Some st -> serial a !! fd = Some n -> owed a n = [] ->
  parse_buffer (mkConnectionState (buffer st ++ temp) (clientAddress st) (emptyFrameCount st)) = Ret (st', fs) ->
  history ig (with_connections (<[fd := st']> (connections_ sv)) sv) (hear n temp fs a).
Proof.
  intros [H1 H2 H3 H4 H5 H6 H7 H8] Hst Hn Hw Hp.
  assert (Hab : alone (peer a n) (heard a n ++ [temp]) = (st', log_of n (log a) ++ fs)).
  { rewrite alone_snoc. unfold absorb. rewrite (H5 _ _ _ Hst Hn), Hp, H6, Hw. by rewrite app_nil_r. }
  split; try done; cbn [serial hear heard peer owed log count connections_ with_connections].
  - rewrite H1, dom_insert_lookup_L; [done|by exists st].
  - intros m Hm. rewrite fn_lookup_insert_ne; [by apply H4|]. intros <-. specialize (H2 _ _ Hn). lia.
  - intros k x m Hk Hm. destruct (decide (k = fd)) as [->|Hne].
    + rewrite Hn in Hm. injection Hm as <-. rewrite lookup_insert_eq in Hk. injection Hk as <-. by rewrite fn_lookup_insert, Hab.
    + rewrite lookup_insert_ne in Hk by done. rewrite fn_lookup_insert_ne; [by eapply H5|]. intros <-. by eapply Hne, H3.
  - intros m. destruct (decide (m = n)) as [->|Hne]; [by rewrite !fn_lookup_insert, Hab|]. by rewrite !fn_lookup_insert_ne.
Qed.

Lemma history_push ig sv fd n f fs st a : history ig sv a ->
  connections_ sv !! fd = Some st -> serial a !! fd = Some n -> owed a n = f :: fs ->
  history ig (with_ingest (deliver TCP (clientAddress st) f (ingest sv)) sv) (pushed n f fs a).
Proof.
  intros [H1 H2 H3 H4 H5 H6 H7 H8] Hst Hn Hw. split; try done; cbn [serial pushed heard peer owed log count ingest with_ingest].
  - intros m. rewrite log_of_app. destruct (decide (m = n)) as [->|Hne].
    + rewrite fn_lookup_insert, H6, Hw. unfold log_of at 3. cbn [omap list_omap fst snd]. rewrite decide_True by done.
      by rewrite <- app_assoc.
    + rewrite fn_lookup_insert_ne, H6 by done. unfold log_of at 3. cbn [omap list_omap fst snd]. rewrite decide_False by done.
      by rewrite app_nil_r.
  - rewrite fold_left_app, <- H7. cbn [fold_left fst snd]. by rewrite <- (H5 _ _ _ Hst Hn), alone_address.
  - apply Forall_app. split; [done|]. constructor; [by eapply H2|constructor].
Qed.

(** A new connection has said nothing. *)
Lemma history_number ig sv fd addr a : history ig sv a -> connections_ sv !! fd = None ->
  history ig (enter fd addr sv) (number fd addr a).
Proof.
  intros [H1 H2 H3 H4 H5 H6 H7 H8] Hnone. unfold enter. rewrite Hnone. cbn [default].
  assert (Hs : serial a !! fd = None) by (apply not_elem_of_dom; rewrite H1; by apply not_elem_of_dom).
  split; cbn [serial number heard peer owed log count connections_ with_connections ingest].
  - by rewrite !dom_insert_L, H1.
  - intros k n Hk. apply lookup_insert_Some in Hk as [[<- <-]|[_ Hk]]; [lia|]. specialize (H2 _ _ Hk). lia.
  - intros k k' n Hk Hk'. apply lookup_insert_Some in Hk as [[<- <-]|[Hk1 Hk]], Hk' as [[<- Hk'']|[_ Hk']]; try done.
    + specialize (H2 _ _ Hk'). lia.
    + subst n. specialize (H2 _ _ Hk). lia.
    + by eapply H3.
  - intros n Hn. apply H4. lia.
  - intros k st n Hk Hn. apply lookup_insert_Some in Hk as [[<- <-]|[Hk1 Hk]].
    + rewrite lookup_insert_eq in Hn. injection Hn as <-. by rewrite fn_lookup_insert, H4.
    + rewrite lookup_insert_ne in Hn by done. rewrite fn_lookup_insert_ne; [by eapply H5|]. intros <-. specialize (H2 _ _ Hn). lia.
  - intros n. destruct (decide (n = count a)) as [->|Hne].
    + rewrite fn_lookup_insert, H4 by lia. specialize (H6 (count a)). rewrite H4 in H6 by lia. exact H6.
    + by rewrite fn_lookup_insert_ne.
  - rewrite H7. assert (Hlt : forall l g, Forall (fun x : nat * FrameParser.ParsedFrame => x.1 < count a)%nat l ->
      fold_left (fun g x => deliver TCP (peer a x.1) x.2 g) l g =
      fold_left (fun g x => deliver TCP ((<[count a := addr]> (peer a)) x.1) x.2 g) l g).
    { induction l as [|x l IH]; intros g Hl; [done|]. apply Forall_cons in Hl as [Hx Hl]. cbn [fold_left].
      rewrite fn_lookup_insert_ne by lia. by apply IH. }
    by apply Hlt.
  - eapply Forall_impl; [exact H8|]. intros x Hx. cbn beta in *. lia.
Qed.

(** ** Every step keeps the invariant *)

(** Moving to a point with the same descriptors or fewer. *)
Lemma worker_ok_fewer s i p p' : worker_ok s i p -> sublist (registered p') (registered p) -> leaving p' = None ->
  (forall fd fs evs, p' <> WDeliver fd fs evs) -> worker_ok s i p'.
Proof.
  intros [K1 K2 K3 K4 K5] Hsub Hl Hd. split.
  - by eapply sublist_NoDup.
  - intros fd Hfd. apply K2. by eapply elem_of_sublist.
  - intros fd. by rewrite Hl.
  - by destruct p'.
  - destruct p'; try done. by destruct (Hd fd fs evs).
Qed.

Lemma worker_owner ig s i p fd : inv ig s -> workers s !! i = Some p -> fd ∈ registered p ->
  owner (note s) !! fd = Some (Some i) /\ exists n st, serial (note s) !! fd = Some n /\
    connections_ (srv s) !! fd = Some st /\ number_of fd (note s) = n.
Proof.
  intros Hi Hp Hfd. pose proof (k_registered _ _ _ (v_workers _ _ Hi _ _ Hp) _ Hfd) as Hin.
  split; [by apply (v_interest _ _ Hi _ _ Hin)|]. by eapply interest_number.
Qed.

(** Nothing is owed on a connection whose worker is not delivering. *)
Lemma owed_nothing ig s i p fd n : inv ig s -> workers s !! i = Some p -> owner (note s) !! fd = Some (Some i) ->
  serial (note s) !! fd = Some n -> (forall fs evs, p <> WDeliver fd fs evs) -> owed (note s) n = [].
Proof.
  intros Hi Hp Ho Hn Hd. destruct (owed (note s) n) as [|f fs] eqn:E; [done|]. exfalso.
  destruct (v_owed _ _ Hi n) as (j & fd' & gs & evs & Hj & Hs); [by rewrite E|].
  assert (fd' = fd) as -> by by eapply (h_inj _ _ _ (v_history _ _ Hi)).
  destruct (worker_owner ig s j _ fd Hi Hj) as [Ho' _]; [by left|]. rewrite Ho in Ho'. injection Ho' as <-.
  rewrite Hp in Hj. injection Hj as ->. by eapply Hd.
Qed.

Lemma recv_inv ig s i fd evs temp st st' fs : inv ig s -> workers s !! i = Some (WRead fd evs) ->
  connections_ (srv s) !! fd = Some st ->
  parse_buffer (mkConnectionState (buffer st ++ temp) (clientAddress st) (emptyFrameCount st)) = Ret (st', fs) ->
  inv ig (set_worker i (WDeliver fd fs evs)
      (mkState (with_connections (<[fd := st']> (connections_ (srv s))) (srv s)) (interest s) (open s) (acceptor s) (workers s)
         (hear (number_of fd (note s)) temp fs (note s)))).
Proof.
  intros Hi Hp Hst Hparse. destruct (worker_owner ig s i _ fd Hi Hp) as (Ho & n & st0 & Hn & Hst0 & Hnum); [by left|].
  rewrite Hst in Hst0. injection Hst0 as <-. rewrite Hnum.
  pose proof (owed_nothing ig s i _ fd n Hi Hp Ho Hn ltac:(done)) as Hw.
  pose proof (v_workers _ _ Hi _ _ Hp) as [K1 K2 K3 K4 K5].
  set (s' := mkState _ _ _ _ _ _). apply (inv_at ig s s' i (WRead fd evs) (WDeliver fd fs evs) fd); try done; cbn.
  - split; try done; cbn.
    + intros fd' Hne. by rewrite lookup_insert_ne.
    + intros m Hm. rewrite fn_lookup_insert_ne; [done|]. by intros <-.
  - apply (v_owner _ _ Hi).
  - rewrite dom_insert_lookup_L by (by exists st). apply (v_open _ _ Hi).
  - intros j Hj. rewrite lookup_insert_eq. split; [by apply (v_interest _ _ Hi)|by eexists].
  - split; try done. cbn. unfold number_of. cbn. rewrite Hn. apply fn_lookup_insert.
  - by apply (history_hear ig (srv s) fd n temp st st' fs); [apply (v_history _ _ Hi)|..].
  - intros m Hm Hne. rewrite Hn in Hm. injection Hm as <-. split; [done|]. by exists fs, evs.
Qed.

Lemma push_inv ig s i fd f fs evs st : inv ig s -> workers s !! i = Some (WDeliver fd (f :: fs) evs) ->
  connections_ (srv s) !! fd = Some st ->
  inv ig (set_worker i (WDeliver fd fs evs)
      (mkState (with_ingest (deliver TCP (clientAddress st) f (ingest (srv s))) (srv s)) (interest s) (open s) (acceptor s)
         (workers s) (pushed (number_of fd (note s)) f fs (note s)))).
Proof.
  intros Hi Hp Hst. destruct (worker_owner ig s i _ fd Hi Hp) as (Ho & n & st0 & Hn & Hst0 & Hnum); [by left|].
  rewrite Hst in Hst0. injection Hst0 as <-. pose proof (v_workers _ _ Hi _ _ Hp) as [K1 K2 K3 K4 K5]. cbn in K5. rewrite Hnum in *.
  set (s' := mkState _ _ _ _ _ _). apply (inv_at ig s s' i (WDeliver fd (f :: fs) evs) (WDeliver fd fs evs) fd); try done; cbn.
  - split; try done; cbn. intros m Hm. rewrite fn_lookup_insert_ne; [done|]. by intros <-.
  - apply (v_owner _ _ Hi).
  - apply (v_open _ _ Hi).
  - intros j Hj. by apply (v_interest _ _ Hi).
  - split; try done. cbn. unfold number_of. cbn. rewrite Hn. apply fn_lookup_insert.
  - by apply (history_push ig (srv s) fd n f fs st); [apply (v_history _ _ Hi)|..].
  - intros m Hm Hne. rewrite Hn in Hm. injection Hm as <-. split; [done|]. by exists fs, evs.
  - by intros fd' fs' evs' [= <- _ _].
Qed.

Lemma del_inv ig s i fd evs : inv ig s -> workers s !! i = Some (WDel fd evs) ->
  inv ig (set_worker i (WErase fd evs)
    (mkState (sys (SysEpollDel (epoll_of i) fd) (srv s)) (delete fd (interest s)) (open s) (acceptor s) (workers s) (note s))).
Proof.
  intros Hi Hp. destruct (worker_owner ig s i _ fd Hi Hp) as (Ho & n & st & Hn & Hst & Hnum); [by left|].
  pose proof (owed_nothing ig s i _ fd n Hi Hp Ho Hn ltac:(done)) as Hw.
  pose proof (v_workers _ _ Hi _ _ Hp) as [K1 K2 K3 K4 K5]. cbn in K1. apply NoDup_cons in K1 as [K1 K1'].
  set (s' := mkState _ _ _ _ _ _). apply (inv_at ig s s' i (WDel fd evs) (WErase fd evs) fd); try done; cbn.
  - split; try done; cbn. intros fd' Hne. by rewrite lookup_delete_ne.
  - apply (v_owner _ _ Hi).
  - apply (v_open _ _ Hi).
  - intros j. by rewrite lookup_delete_eq.
  - split; cbn; [done|..|done].
    + intros fd' Hfd. rewrite lookup_delete_ne by (by intros ->). apply K2. by right.
    + intros fd' [= <-]. by rewrite lookup_delete_eq.
    + by exists st.
  - eapply history_same; [..|apply (v_history _ _ Hi)]; done.
  - intros m Hm. rewrite Hn in Hm. injection Hm as <-. by rewrite Hw.
Qed.

Lemma erase_inv ig s i fd evs : inv ig s -> workers s !! i = Some (WErase fd evs) ->
  inv ig (set_worker i (WClose fd evs)
    (mkState (erase fd (srv s)) (interest s) (open s) (acceptor s) (workers s) (forget fd (note s)))).
Proof.
  intros Hi Hp. pose proof (v_workers _ _ Hi _ _ Hp) as [K1 K2 K3 [st Hst] K5]. destruct (K3 fd eq_refl) as [Ho Hint].
  set (s' := mkState _ _ _ _ _ _). apply (inv_at ig s s' i (WErase fd evs) (WClose fd evs) fd); try done; cbn.
  - split; try done; cbn; intros fd' Hne; by rewrite lookup_delete_ne.
  - apply (v_owner _ _ Hi).
  - rewrite dom_delete_L. pose proof (v_open _ _ Hi). set_solver.
  - intros j. by rewrite Hint.
  - split; cbn; try done. by rewrite lookup_delete_eq.
  - apply history_forget, (v_history _ _ Hi).
  - intros m Hm Hne. destruct Hne. by eapply owed_nothing.
Qed.

Lemma close_inv ig s i fd evs : inv ig s -> workers s !! i = Some (WClose fd evs) ->
  inv ig (set_worker i (WCount evs)
    (mkState (sys (SysClose fd) (sys (SysShutdown fd) (srv s))) (interest s) (open s ∖ {[fd]}) (acceptor s) (workers s)
       (disown fd (note s)))).
Proof.
  intros Hi Hp. pose proof (v_workers _ _ Hi _ _ Hp) as [K1 K2 K3 K4 K5]. cbn in K4. destruct (K3 fd eq_refl) as [Ho Hint].
  set (s' := mkState _ _ _ _ _ _). apply (inv_at ig s s' i (WClose fd evs) (WCount evs) fd); try done; cbn.
  - split; try done; cbn. intros fd' Hne. by rewrite lookup_delete_ne.
  - by rewrite dom_delete_L, (v_owner _ _ Hi).
  - pose proof (v_open _ _ Hi). apply not_elem_of_dom in K4. set_solver.
  - intros j. by rewrite Hint.
  - apply history_disown. eapply history_same; [..|apply (v_history _ _ Hi)]; done.
  - intros m Hm. assert (Hin : fd ∈ dom (serial (note s))) by (apply elem_of_dom; by exists m).
    rewrite (h_table _ _ _ (v_history _ _ Hi)) in Hin. by apply not_elem_of_dom in K4.
Qed.

Lemma worker_step_inv ig s i p p' s' : inv ig s -> workers s !! i = Some p -> work_step i p s p' s' -> inv ig (set_worker i p' s').
Proof.
  intros Hi Hp Hst. pose proof (v_workers _ _ Hi _ _ Hp) as Hk.
  destruct Hst as [evs s Hnd Hev|s|fd flags evs s Hf|fd flags evs s Hf1 Hf2|fd flags evs s Hf1 Hf2|fd evs s Hc|fd evs s Hc
    |fd evs temp st st' fs s Hc Ht Hparse|fd evs s|fd evs s|fd f fs evs st s Hc|fd evs s|fd evs s|fd evs s|fd evs s|evs s|s].
  - apply (inv_pc ig s i WIdle); try done. split; try done. cbn. intros fd (ev & -> & Hin)%list_elem_of_fmap.
    rewrite Forall_forall in Hev. by apply Hev.
  - apply (inv_pc ig s i (WBatch [])); try done. by eapply worker_ok_fewer.
  - apply (inv_pc ig s i (WBatch ((fd, flags) :: evs))); try done. by eapply worker_ok_fewer.
  - apply (inv_pc ig s i (WBatch ((fd, flags) :: evs))); try done. by eapply worker_ok_fewer.
  - apply (inv_pc ig s i (WBatch ((fd, flags) :: evs))); try done. eapply worker_ok_fewer; try done. cbn. by apply sublist_cons.
  - apply (inv_pc ig s i (WLook fd evs)); try done. by eapply worker_ok_fewer.
  - apply (inv_pc ig s i (WLook fd evs)); try done. by eapply worker_ok_fewer.
  - by apply (recv_inv ig s i fd evs temp st).
  - apply (inv_pc ig s i (WRead fd evs)); try done. eapply worker_ok_fewer; try done. cbn. by apply sublist_cons.
  - apply (inv_pc ig s i (WRead fd evs)); try done. by eapply worker_ok_fewer.
  - by apply push_inv.
  - apply (inv_pc ig s i (WDeliver fd [] evs)); [done|done|by eapply worker_ok_fewer|]. by intros ? ? ? [= _ <- _].
  - by apply del_inv.
  - by apply erase_inv.
  - by apply close_inv.
  - destruct (inv_pc ig s i (WCount evs) (WBatch evs) Hi Hp) as [H1 H2 H3 H4 H5 H6 H7]; [by eapply worker_ok_fewer|done|].
    split; try done.
    + intros j q Hj. by destruct (H5 j q Hj).
    + by eapply history_same; [..|exact H7].
  - apply (inv_pc ig s i WIdle); try done. by eapply worker_ok_fewer.
Qed.


(** A step of the accept thread at a descriptor no worker owns. *)
Lemma inv_accepting ig s s' fd0 : inv ig s -> (forall j, owner (note s) !! fd0 <> Some (Some j)) ->
  workers s' = workers s -> away fd0 s s' -> dom (owner (note s')) = open s' -> dom (connections_ (srv s')) ⊆ open s' ->
  (forall j, interest s' !! fd0 = Some j -> owner (note s') !! fd0 = Some (Some j) /\ is_Some (connections_ (srv s') !! fd0)) ->
  acc_ok s' -> history ig (srv s') (note s') -> owed (note s') = owed (note s) -> inv ig s'.
Proof.
  intros Hi Ho Hw Ha Hdom Hop Hin Hac Hh Hd. pose proof Ha as [Y1 Y2 Y3 Y4 Y5]. split; try done.
  - intros fd j. destruct (decide (fd = fd0)) as [->|Hne]; [by auto|]. rewrite Y1, Y2, Y3 by done. apply (v_interest _ _ Hi).
  - intros j q. rewrite Hw. intros Hj. by apply (others_keep ig s s' fd0 j q).
  - intros n. rewrite Hd, Hw. intros Hn. destruct (v_owed _ _ Hi n Hn) as (j & fd & fs & evs & Hj & Hs). exists j, fd, fs, evs.
    split; [done|]. rewrite Y4; [done|]. intros ->. destruct (worker_owner ig s j _ fd0 Hi Hj) as [Ho' _]; [by left|]. by destruct (Ho j).
Qed.

(** A descriptor that belongs to the accept thread or to none is watched by no worker. *)
Lemma not_watched ig s fd j : inv ig s -> (forall j, owner (note s) !! fd <> Some (Some j)) -> interest s !! fd <> Some j.
Proof. intros Hi Ho Hj. apply (v_interest _ _ Hi) in Hj as [Hj _]. by destruct (Ho j). Qed.

(** What the accepting thread does between two connections. *)
Lemma acc_pc_inv ig s pc :
  inv ig s -> acc_ok (mkState (srv s) (interest s) (open s) pc (workers s) (note s)) ->
  inv ig (mkState (srv s) (interest s) (open s) pc (workers s) (note s)).
Proof. intros Hi Hpc. destruct Hi as [H1 H2 H3 H4 H5 H6 H7]. split; try done. intros i p Hp. by destruct (H5 i p Hp). Qed.

Lemma acc_count_inv ig sv ie op pc ws a :
  inv ig (mkState sv ie op pc ws a) -> inv ig (mkState (count_accepted sv) ie op AccIdle ws a).
Proof.
  intros Hi. destruct (acc_pc_inv ig _ AccIdle Hi I) as [H1 H2 H3 H4 H5 H6 H7]. split; try done.
  - intros i p Hp. by destruct (H5 i p Hp).
  - by eapply history_same; [..|exact H7].
Qed.

(** What it does to the descriptor [fd], which no worker has: the rest of the state stays as it is. *)
Ltac accepting Hi fd Ho :=
  let Hn := fresh "Hn" in
  lazymatch type of Ho with
  | owner ?a !! _ = _ => assert (Hn : forall j, owner a !! fd <> Some (Some j)) by (intros ?; by rewrite Ho)
  end;
  eapply (inv_accepting _ _ _ fd Hi); cbn; try done;
  try (split; try done; cbn; intros fd' Hne; by rewrite ?lookup_insert_ne, ?lookup_delete_ne by done);
  try (intros j Hj; by destruct (not_watched _ _ fd j Hi Hn)).

Lemma acc_inv ig s s' : inv ig s -> acc_step s s' -> inv ig s'.
Proof.
  intros Hi Hst. pose proof (v_acc _ _ Hi) as Hac. pose proof (v_owner _ _ Hi) as Hdom. pose proof (v_open _ _ Hi) as Hop.
  pose proof (v_history _ _ Hi) as Hh. pose proof (fun pc => acc_pc_inv ig _ pc Hi) as Hpc.
  destruct Hst as [fd addr sv ie op ws a Hf|fd addr flags ok sv ie op ws a _|fd addr flags ok sv ie op ws a _|fd addr sv ie op ws a
    |fd ok sv sv' ie op ws a [= _ <-]|fd ok sv sv' ie op ws a [= _ <-]|fd sv ie op ws a|fd sv ie op ws a|sv ie op ws a|sv ie op ws a]; unfold acc_ok in Hac; cbn in *.
  - assert (Hno : owner a !! fd = None) by (apply not_elem_of_dom; by rewrite Hdom). accepting Hi fd Hno.
    + rewrite dom_insert_L. by rewrite Hdom.
    + set_solver.
    + unfold acc_ok. cbn. rewrite lookup_insert_eq. split; [done|]. apply not_elem_of_dom. set_solver.
    + by apply history_own.
  - by apply Hpc.
  - by apply Hpc.
  - destruct Hac as [Ho Hnone]. assert (Hin : fd ∈ op) by (rewrite <- Hdom; apply elem_of_dom; by eexists). accepting Hi fd Ho.
    + rewrite dom_insert_L. set_solver.
    + unfold acc_ok. cbn. rewrite lookup_insert_eq. split; [done|by eexists].
    + by apply history_number.
  - destruct Hac as [Ho Hc]. accepting Hi fd Ho.
    + by rewrite dom_insert_lookup_L by (by eexists).
    + intros j. rewrite lookup_insert_eq. intros [= <-]. by rewrite lookup_insert_eq.
    + apply history_own. by eapply history_same; [..|exact Hh].
  - destruct Hac as [Ho Hc]. accepting Hi fd Ho. by eapply history_same; [..|exact Hh].
  - destruct Hac as [Ho Hc]. accepting Hi fd Ho.
    + rewrite dom_delete_L. set_solver.
    + unfold acc_ok. cbn. by rewrite lookup_delete_eq.
    + by apply history_forget.
  - destruct Hac as [Ho Hc]. accepting Hi fd Ho.
    + by rewrite dom_delete_L, Hdom.
    + apply not_elem_of_dom in Hc. set_solver.
    + apply history_disown. by eapply history_same; [..|exact Hh].
  - by eapply acc_count_inv.
  - by apply Hpc.
Qed.

Lemma step_inv ig s s' : inv ig s -> step s s' -> inv ig s'.
Proof. intros Hi Hst. destruct Hst as [s1 s1' Hs|i p p' s1 s1' Hp Hs]; [by eapply acc_inv|by eapply worker_step_inv]. Qed.

Lemma reachable_inv ig s : rtc step (started ig) s -> inv ig s.
Proof.
  intros Hr. apply (rtc_invariant step (inv ig) (step_inv ig) _ _ Hr), started_inv.
Qed.

(** ** The steps with nothing in between are the code's functions *)

Lemma acc_once s s' s'' : acc_step s s' -> rtc step s' s'' -> rtc step s s''.
Proof. intros H1 H2. eapply rtc_l; [by apply step_acc|done]. Qed.

(** A turn of the accept loop. *)
Lemma accept_turn fd addr nb ok sv ie op ws a : fd ∉ op -> exists ie' op' a',
  rtc step (mkState sv ie op AccIdle ws a)
    (mkState (acceptConnections_step efds fd addr nb ok sv) ie' op' AccIdle ws a').
Proof.
  intros Hf. unfold acceptConnections_step. destruct nb; cbn [negb]; [destruct ok; cbn [negb]|].
  - do 3 eexists. eapply acc_once; [by apply (acc_accept fd addr)|]. eapply acc_once; [by apply (acc_nonblocking fd addr 0 true)|].
    eapply acc_once; [apply acc_enter|]. eapply acc_once; [by apply (acc_add fd true)|]. eapply acc_once; [apply acc_count|]. apply rtc_refl.
  - do 3 eexists. eapply acc_once; [by apply (acc_accept fd addr)|]. eapply acc_once; [by apply (acc_nonblocking fd addr 0 true)|].
    eapply acc_once; [apply acc_enter|]. eapply acc_once; [by apply (acc_refused fd false)|]. eapply acc_once; [apply acc_drop|].
    eapply acc_once; [apply acc_close|]. apply rtc_refl.
  - do 3 eexists. eapply acc_once; [by apply (acc_accept fd addr)|]. eapply acc_once; [by apply (acc_blocking fd addr 0 false)|].
    eapply acc_once; [apply acc_close|]. apply rtc_refl.
Qed.

(** The worker is at a point, the server is in a state. *)
Definition at_point (i : nat) (p : worker_pc) (sv : Server (W := W)) (s : State) : Prop :=
  workers s !! i = Some p /\ srv s = sv.

Lemma work_once i p p' sv s s' : at_point i p sv s -> work_step i p s p' s' -> workers s' = workers s ->
  exists s1, rtc step s s1 /\ at_point i p' (srv s') s1.
Proof.
  intros [Hp _] Hst Hw. exists (set_worker i p' s'). split; [by eapply rtc_once, step_work|]. split; [|done].
  rewrite set_worker_lookup, Hw, decide_True; [done|]. split; [done|]. by eapply lookup_lt_Some.
Qed.

Lemma then_point i p q sv sv' s s1 : rtc step s s1 -> at_point i p sv s1 ->
  (forall s, at_point i p sv s -> exists s2, rtc step s s2 /\ at_point i q sv' s2) ->
  exists s2, rtc step s s2 /\ at_point i q sv' s2.
Proof. intros Hr Hp Hn. destruct (Hn s1 Hp) as (s2 & H2 & Hq). exists s2. split; [by etransitivity|done]. Qed.

Lemma deliver_turn i fd fs evs sv st s : at_point i (WDeliver fd fs evs) sv s -> connections_ sv !! fd = Some st ->
  exists s', rtc step s s' /\ at_point i (WRead fd evs) (with_ingest (deliver_all TCP (clientAddress st) fs (ingest sv)) sv) s'.
Proof.
  revert sv s; induction fs as [|f fs IH]; intros sv s Hp Hst.
  - destruct (work_once _ _ _ _ _ _ Hp (w_parsed i fd evs s) eq_refl) as (s1 & H1 & Hp1). exists s1. split; [done|].
    destruct Hp as [_ <-]. destruct Hp1 as [Hp1 E1]. split; [done|]. rewrite E1. by destruct (srv s).
  - destruct Hp as [Hp <-]. destruct (work_once i _ _ (srv s) s _ (conj Hp eq_refl) (w_push i fd f fs evs st s Hst) eq_refl) as (s1 & H1 & Hp1).
    destruct (IH _ s1 Hp1 Hst) as (s2 & H2 & Hp2). exists s2. split; [by etransitivity|]. exact Hp2.
Qed.

(** The loop of [handleRead]. *)
Lemma read_turn i fd evs chunks sv st st' ig s : at_point i (WRead fd evs) sv s -> connections_ sv !! fd = Some st ->
  Forall (fun c => c <> []) chunks -> read_loop chunks st (ingest sv) = Ret (st', ig) ->
  exists s', rtc step s s' /\ at_point i (WRead fd evs)
    (mkServer (<[fd := st']> (connections_ sv)) (nextWorker sv) (totalConnectionsAccepted_ sv) (activeConnections_ sv) ig (trace sv)) s'.
Proof.
  intros Hp Hst Hne. revert sv st s Hp Hst. induction Hne as [|c chunks Hc _ IH]; intros sv st s Hp Hst Hr.
  - injection Hr as <- <-. exists s. split; [done|]. rewrite insert_id by done. by destruct sv.
  - cbn [read_loop] in Hr. destruct (processBuffer_split (mkConnectionState (buffer st ++ c) (clientAddress st) (emptyFrameCount st)) (ingest sv))
      as (st1 & fs & Hparse & Hpb & Ha). rewrite Hpb in Hr. cbn [mbind outcome_bind clientAddress] in Hr, Ha. rewrite <- Ha in Hr.
    destruct Hp as [Hp <-].
    destruct (work_once i _ _ (srv s) s _ (conj Hp eq_refl) (w_recv i fd evs c st st1 fs s Hst Hc Hparse) eq_refl) as (s1 & H1 & Hp1).
    cbn [srv] in Hp1. destruct (deliver_turn i fd fs evs _ st1 s1 Hp1) as (s2 & H2 & Hp2); [apply lookup_insert_eq|].
    destruct (IH _ st1 s2 Hp2) as (s3 & H3 & Hp3); [apply lookup_insert_eq|exact Hr|].
    exists s3. split; [by repeat (etransitivity; [eassumption|])|]. cbn in Hp3. by rewrite insert_insert_eq in Hp3.
Qed.

Lemma close_turn i fd evs sv s : at_point i (WDel fd evs) sv s ->
  exists s', rtc step s s' /\ at_point i (WBatch evs) (closeConnection fd (epoll_of i) sv) s'.
Proof.
  intros [Hp <-]. destruct (work_once i _ _ (srv s) s _ (conj Hp eq_refl) (w_del i fd evs s) eq_refl) as (s1 & H1 & Hp1 & E1).
  destruct (work_once i _ _ (srv s1) s1 _ (conj Hp1 eq_refl) (w_erase i fd evs s1) eq_refl) as (s2 & H2 & Hp2 & E2).
  destruct (work_once i _ _ (srv s2) s2 _ (conj Hp2 eq_refl) (w_close i fd evs s2) eq_refl) as (s3 & H3 & Hp3 & E3).
  destruct (work_once i _ _ (srv s3) s3 _ (conj Hp3 eq_refl) (w_count i evs s3) eq_refl) as (s4 & H4 & Hp4 & E4).
  exists s4. split; [by repeat (etransitivity; [eassumption|])|]. split; [done|].
  cbn [srv] in *. rewrite E4, E3, E2, E1. done.
Qed.

(** One ready event of the worker's loop. *)
Lemma event_turn i fd flags evs chunks fin sv sv' s : at_point i (WBatch ((fd, flags) :: evs)) sv s ->
  Forall (fun c => c <> []) chunks -> worker_event (epoll_of i) fd flags chunks fin sv = Ret sv' ->
  exists s', rtc step s s' /\ at_point i (WBatch evs) sv' s'.
Proof.
  intros [Hp <-] Hne He. unfold worker_event in He. fold (hung_up flags) in He. destruct (hung_up flags) eqn:Hf.
  { injection He as <-. destruct (work_once i _ _ (srv s) s _ (conj Hp eq_refl) (w_hung_up i fd flags evs s Hf) eq_refl) as (s1 & H1 & Hp1).
    eapply then_point; [exact H1|exact Hp1|]. intros s2. apply close_turn. }
  fold (readable flags) in He. destruct (readable flags) eqn:Hg; cycle 1.
  { injection He as <-. by apply (work_once i _ _ (srv s) s _ (conj Hp eq_refl) (w_nothing i fd flags evs s Hf Hg)). }
  destruct (work_once i _ _ (srv s) s _ (conj Hp eq_refl) (w_readable i fd flags evs s Hf Hg) eq_refl) as (s1 & H1 & Hp1 & E1).
  rewrite <- E1 in He. unfold handleRead in He. destruct (connections_ (srv s1) !! fd) as [st|] eqn:Hst.
  - apply outcome_bind_ret in He as ([keep st1] & Hr & He). apply outcome_bind_ret in Hr as ([st' ig'] & Hr & [= <- <-]).
    destruct (work_once i _ _ (srv s1) s1 _ (conj Hp1 eq_refl) (w_found i fd evs s1 ltac:(by exists st)) eq_refl) as (s2 & H2 & Hp2 & E2).
    destruct (read_turn i fd evs chunks (srv s2) st st' ig' s2 (conj Hp2 eq_refl)) as (s3 & H3 & Hp3 & E3); [by rewrite E2|done|by rewrite E2|].
    rewrite E2 in E3. destruct fin; injection He as <-; rewrite <- E3.
    + destruct (work_once i _ _ (srv s3) s3 _ (conj Hp3 eq_refl) (w_ended i fd evs s3) eq_refl) as (s4 & H4 & Hp4).
      eapply (then_point _ _ _ _ _ s s4); [by repeat (etransitivity; [eassumption|])|exact Hp4|]. intros s5. apply close_turn.
    + destruct (work_once i _ _ (srv s3) s3 _ (conj Hp3 eq_refl) (w_would_block i fd evs s3) eq_refl) as (s4 & H4 & Hp4).
      exists s4. split; [by repeat (etransitivity; [eassumption|])|done].
    + destruct (work_once i _ _ (srv s3) s3 _ (conj Hp3 eq_refl) (w_ended i fd evs s3) eq_refl) as (s4 & H4 & Hp4).
      eapply (then_point _ _ _ _ _ s s4); [by repeat (etransitivity; [eassumption|])|exact Hp4|]. intros s5. apply close_turn.
  - injection He as <-. destruct (work_once i _ _ (srv s1) s1 _ (conj Hp1 eq_refl) (w_unknown i fd evs s1 Hst) eq_refl) as (s2 & H2 & Hp2).
    eapply (then_point _ _ _ _ _ s s2); [by etransitivity|exact Hp2|]. intros s3. apply close_turn.
Qed.

(** ** The theorem *)

(** C20: whatever the interleaving of the accept thread and the workers, the pointer a worker took into the connection table
    stays valid while it uses it without the lock - the entry is there and no other thread closes, erases or reads
    it - and connections do not disturb each other: for every connection there ever was, the frames pushed
    for it so far are, in order, the first ones a connection by itself would have pushed for what recv()
    returned on it, the others being in the hand of its worker; on a well-formed stream, however cut, they are the frames
    of the stream.  What the dispatcher was offered is exactly those pushes, with the address of each peer. *)
Theorem epoll_connections_isolated ig s : rtc step (started ig) s ->
  (forall i p fd, workers s !! i = Some p -> fd ∈ registered p ->
     is_Some (connections_ (srv s) !! fd) /\ fd ∈ open s /\
     forall j q, workers s !! j = Some q -> j <> i -> (fd ∉ registered q) /\ leaving q <> Some fd) /\
  ingest (srv s) = fold_left (fun g x => deliver TCP (peer (note s) x.1) x.2 g) (log (note s)) ig /\
  (forall n, exists rest, (alone (peer (note s) n) (heard (note s) n)).2 = log_of n (log (note s)) ++ rest /\
     (rest = [] \/ exists i fd evs, workers s !! i = Some (WDeliver fd rest evs) /\ serial (note s) !! fd = Some n)) /\
  (forall fd st, connections_ (srv s) !! fd = Some st -> exists n, serial (note s) !! fd = Some n /\
     (alone (peer (note s) n) (heard (note s) n)).1 = st) /\
  (forall n fs, Forall TcpServer.sendable fs -> concat (heard (note s) n) = TcpServer.stream fs ->
     exists rest, fs = log_of n (log (note s)) ++ rest).
Proof.
  intros Hi%reachable_inv. pose proof (v_history _ _ Hi) as Hh. split_and!.
  - intros i p fd Hp Hfd. destruct (worker_owner ig s i p fd Hi Hp Hfd) as (Ho & n & st & Hn & Hst & _).
    split; [by exists st|]. split; [rewrite <- (v_owner _ _ Hi); apply elem_of_dom; by eexists|].
    intros j q Hq Hne. split.
    + intros Hin. destruct (worker_owner ig s j q fd Hi Hq Hin) as [Ho' _]. congruence.
    + intros Hl. destruct (k_leaving _ _ _ (v_workers _ _ Hi _ _ Hq) _ Hl) as [Ho' _]. congruence.
  - apply (h_ingest _ _ _ Hh).
  - intros n. exists (owed (note s) n). split; [apply (h_frames _ _ _ Hh)|].
    destruct (owed (note s) n) as [|f fs] eqn:E; [by left|right].
    destruct (v_owed _ _ Hi n) as (i & fd & gs & evs & Hp & Hs); [by rewrite E|]. exists i, fd, evs. split; [|done].
    pose proof (k_owed _ _ _ (v_workers _ _ Hi _ _ Hp)) as Hk. cbn in Hk. unfold number_of in Hk. rewrite Hs in Hk. cbn in Hk.
    by rewrite <- E, Hk.
  - intros fd st Hst. assert (Hn : is_Some (serial (note s) !! fd)) by (apply elem_of_dom; rewrite (h_table _ _ _ Hh); apply elem_of_dom; by exists st).
    destruct Hn as [n Hn]. exists n. split; [done|]. by eapply (h_state _ _ _ Hh).
  - intros n fs Hfs Hc. exists (owed (note s) n). rewrite <- (h_frames _ _ _ Hh). symmetry. by apply alone_stream.
Qed.

(** ** Executing a schedule *)

Inductive work :=
| Wait (evs : list (Z * Z)) | Next | Recv (temp : list byte) | WouldBlockNow | Ended.

Inductive choice :=
| Accept (fd : Z) (addr : string)
| Acceptor (ok : bool)          (* the next step of the accept thread; [ok]: what the system call answers *)
| Worker (i : nat) (w : work).

Definition do_acc (ok : bool) (s : State) : option State :=
  let '(mkState sv ie op pc ws a) := s in
  match pc with
  | AccIdle | AccGone => None
  | AccNew fd addr => Some (mkState sv ie op (if ok then AccTable fd addr else AccClose fd) ws a)
  | AccTable fd addr => Some (mkState (enter fd addr sv) ie op (AccAdd fd) ws (number fd addr a))
  | AccAdd fd =>
      let sv' := sys (SysEpollAdd (epoll_of (chosen sv)) fd) sv in
      Some (if ok then mkState sv' (<[fd := chosen sv]> ie) op AccCount ws (own fd (Some (chosen sv)) a)
            else mkState sv' ie op (AccDrop fd) ws a)
  | AccDrop fd => Some (mkState (erase fd sv) ie op (AccClose fd) ws (forget fd a))
  | AccClose fd => Some (mkState (sys (SysClose fd) sv) ie (op ∖ {[fd]}) AccIdle ws (disown fd a))
  | AccCount => Some (mkState (count_accepted sv) ie op AccIdle ws a)
  end.

Definition do_work (i : nat) (p : worker_pc) (w : work) (s : State) : option (worker_pc * State) :=
  match p, w with
  | WIdle, Wait evs =>
      if decide (NoDup (map fst evs) /\ Forall (fun ev => interest s !! ev.1 = Some i /\ may_report ev.2 = true) evs) then Some (WBatch evs, s) else None
  | WBatch [], Next => Some (WIdle, s)
  | WBatch ((fd, flags) :: evs), Next =>
      Some ((if hung_up flags then WDel fd evs else if readable flags then WLook fd evs else WBatch evs), s)
  | WLook fd evs, Next =>
      Some ((match connections_ (srv s) !! fd with Some _ => WRead fd evs | None => WDel fd evs end), s)
  | WRead fd evs, Recv (b :: temp) =>
      match connections_ (srv s) !! fd with
      | Some st =>
          match parse_buffer (mkConnectionState (buffer st ++ b :: temp) (clientAddress st) (emptyFrameCount st)) with
          | Ret (st', fs) => Some (WDeliver fd fs evs,
              mkState (with_connections (<[fd := st']> (connections_ (srv s))) (srv s)) (interest s) (open s) (acceptor s)
                (workers s) (hear (number_of fd (note s)) (b :: temp) fs (note s)))
          | _ => None
          end
      | None => None
      end
  | WRead fd evs, WouldBlockNow => Some (WBatch evs, s)
  | WRead fd evs, Ended => Some (WDel fd evs, s)
  | WDeliver fd [] evs, Next => Some (WRead fd evs, s)
  | WDeliver fd (f :: fs) evs, Next =>
      match connections_ (srv s) !! fd with
      | Some st => Some (WDeliver fd fs evs,
          mkState (with_ingest (deliver TCP (clientAddress st) f (ingest (srv s))) (srv s)) (interest s) (open s) (acceptor s)
            (workers s) (pushed (number_of fd (note s)) f fs (note s)))
      | None => None
      end
  | WDel fd evs, Next => Some (WErase fd evs,
      mkState (sys (SysEpollDel (epoll_of i) fd) (srv s)) (delete fd (interest s)) (open s) (acceptor s) (workers s) (note s))
  | WErase fd evs, Next => Some (WClose fd evs,
      mkState (erase fd (srv s)) (interest s) (open s) (acceptor s) (workers s) (forget fd (note s)))
  | WClose fd evs, Next => Some (WCount evs,
      mkState (sys (SysClose fd) (sys (SysShutdown fd) (srv s))) (interest s) (open s ∖ {[fd]}) (acceptor s) (workers s)
        (disown fd (note s)))
  | WCount evs, Next => Some (WBatch evs,
      mkState (count_closed (srv s)) (interest s) (open s) (acceptor s) (workers s) (note s))
  | _, _ => None
  end.

Definition do (c : choice) (s : State) : option State :=
  match c with
  | Accept fd addr =>
      match acceptor s with
      | AccIdle => if decide (fd ∈ open s) then None else
          Some (mkState (srv s) (interest s) ({[fd]} ∪ open s) (AccNew fd addr) (workers s) (own fd None (note s)))
      | _ => None
      end
  | Acceptor ok => do_acc ok s
  | Worker i w => p ← workers s !! i; '(p', s') ← do_work i p w s; Some (set_worker i p' s')
  end.

Fixpoint schedule (cs : list choice) (s : State) : option State :=
  match cs with [] => Some s | c :: cs' => s' ← do c s; schedule cs' s' end.

Lemma do_acc_step ok s s' : do_acc ok s = Some s' -> acc_step s s'.
Proof. destruct s as [sv ie op pc ws a]. destruct pc, ok; cbn [do_acc]; try done; intros [= <-];
  first [by apply (acc_nonblocking _ _ 0 true)|by apply (acc_blocking _ _ 0 false)|by apply (acc_add fd true)
        |by apply (acc_refused fd false)|by constructor].
Qed.

Lemma do_work_step i p w s p' s' : do_work i p w s = Some (p', s') -> work_step i p s p' s'.
Proof.
  destruct p as [|[|[fd flags] evs]|fd evs|fd evs|fd [|f fs] evs|fd evs|fd evs|fd evs|evs|], w as [evs'| |[|b temp]| |];
    cbn [do_work]; try done; repeat case_match; intros [= <- <-]; try (by constructor).
  - destruct a. by apply w_wait.
  - by eapply w_recv.
Qed.

Lemma do_step c s s' : do c s = Some s' -> step s s'.
Proof.
  destruct c as [fd addr|ok|i w]; cbn [do].
  - destruct s as [sv ie op pc ws a]. cbn. destruct pc; try done. case_decide; [done|]. intros [= <-].
    by apply step_acc, acc_accept.
  - intros Hd%do_acc_step. by apply step_acc.
  - intros (p & Hp & Hd)%bind_Some. apply bind_Some in Hd as ([p' s1] & Hw & [= <-]). eapply step_work; [done|]. by apply (do_work_step _ _ w).
Qed.

Lemma schedule_reaches cs s s' : schedule cs s = Some s' -> rtc step s s'.
Proof.
  revert s; induction cs as [|c cs IH]; intros s; cbn [schedule]; [by intros [= ->]|].
  intros (s1 & H1 & H2)%bind_Some. eapply rtc_l; [by eapply do_step|by apply IH].
Qed.

End Threads.
End EpollWorkers.

(** ** Concrete runs *)

Module WorkersRun.
Import EpollWorkers.
Abbreviation Sink := (list (EventSourceType * string * FrameParser.ParsedFrame)).

Definition two : list Z := [100; 101].
Definition first_frame : list byte := FrameParser.encode_frame HIGH "a" [Byte.x07].
Definition second_frame : list byte := FrameParser.encode_frame LOW "b" [Byte.x08; Byte.x09].

Definition entered (fd : Z) (addr : string) : list choice := [Accept fd addr; Acceptor true; Acceptor true; Acceptor true].

(** Two connections, one on each worker: the first frame of one comes in two parts, around the frame of the other; then the
    first peer hangs up. *)
Definition crossing : list choice :=
  entered 5 "10.0.0.1:1" ++ [Acceptor true] ++ entered 6 "10.0.0.2:2" ++ [Acceptor true] ++
  [Worker 0 (Wait [(5, 1)]); Worker 0 Next; Worker 0 Next; Worker 0 (Recv (take 5 first_frame)); Worker 1 (Wait [(6, 1)]);
   Worker 1 Next; Worker 0 Next; Worker 1 Next; Worker 1 (Recv second_frame); Worker 0 (Recv (drop 5 first_frame));
   Worker 1 Next; Worker 0 Next; Worker 1 Next; Worker 0 Next; Worker 0 WouldBlockNow; Worker 0 Next;
   Worker 0 (Wait [(5, 8193)]); Worker 0 Next; Worker 0 Next; Worker 1 WouldBlockNow; Worker 0 Next; Worker 0 Next; Worker 0 Next].

Definition after (cs : list choice) : option (State (W := Sink)) := schedule (H := TcpRun.sink) two cs (started (W := Sink) two TcpRun.start).

(** A connection whose peer hangs up between its registration and its count. *)
Definition early_hang_up : list choice :=
  entered 5 "10.0.0.1:1" ++
  [Worker 0 (Wait [(5, 8192)]); Worker 0 Next; Worker 0 Next; Worker 0 Next; Worker 0 Next; Worker 0 Next].

(** What the dispatcher was offered, the open descriptors and the counter of connections. *)
Definition outcome_of (o : option (State (W := Sink))) :=
  s ← o; Some (map (fun x => (x.1.2, FrameParser.pf_topic x.2)) (world (EpollServer.ingest (srv s))), elements (open s),
               EpollServer.activeConnections_ (srv s)).

End WorkersRun.

(** The frame of the second connection was pushed between the two halves of the first one's. *)
Lemma epoll_connections_isolated_witness :
  exists s, WorkersRun.after WorkersRun.crossing = Some s /\
    WorkersRun.outcome_of (Some s) = Some ([("10.0.0.2:2", "b"); ("10.0.0.1:1", "a")], [6], 1)%string /\
    exists rest, (EpollWorkers.alone (EpollWorkers.peer (EpollWorkers.note s) 0) (EpollWorkers.heard (EpollWorkers.note s) 0)).2 =
      EpollWorkers.log_of 0 (EpollWorkers.log (EpollWorkers.note s)) ++ rest.
Proof.
  assert (Hr : WorkersRun.outcome_of (WorkersRun.after WorkersRun.crossing) =
    Some ([("10.0.0.2:2", "b"); ("10.0.0.1:1", "a")], [6], 1)%string) by (vm_compute; reflexivity).
  destruct (WorkersRun.after WorkersRun.crossing) as [s|] eqn:E; [|discriminate Hr]. exists s. split; [reflexivity|].
  split; [exact Hr|].
  destruct (@EpollWorkers.epoll_connections_isolated _ TcpRun.sink WorkersRun.two TcpRun.start s
    (@EpollWorkers.schedule_reaches _ TcpRun.sink _ _ _ _ E)) as (_ & _ & H & _).
  destruct (H 0%nat) as (rest & Hrest & _). exists rest. exact Hrest.
Defined.

(** The accept thread counts a connection after it has registered it: a worker whose peer hangs up at once
    takes the counter of active connections from 0 to 2^64 - 1. *)
Lemma active_connections_underflow :
  exists s, rtc (@EpollWorkers.step _ TcpRun.sink WorkersRun.two) (EpollWorkers.started WorkersRun.two TcpRun.start) s /\
    EpollServer.activeConnections_ (EpollWorkers.srv s) = UINT64_MAX /\ EpollServer.connections_ (EpollWorkers.srv s) = ∅.
Proof.
  assert (Hr : match WorkersRun.after WorkersRun.early_hang_up with
    | Some s => EpollServer.activeConnections_ (EpollWorkers.srv s) = UINT64_MAX /\ EpollServer.connections_ (EpollWorkers.srv s) = ∅
    | None => False end) by (vm_compute; split; reflexivity).
  destruct (WorkersRun.after WorkersRun.early_hang_up) as [s|] eqn:E; [|destruct Hr]. exists s.
  split; [exact (@EpollWorkers.schedule_reaches _ TcpRun.sink _ _ _ _ E)|exact Hr].
Qed.
