(* ===== verification/UdpServer.v ===== *)
(** * The UDP server: [src/core/ingest/udp.cpp]

    Module [UdpServer]: one turn of [receiveLoop] on the receive buffer, which is
    reused from datagram to datagram.  The length test of the code is made in
    32-bit arithmetic and is modelled so: for the four largest lengths it wraps,
    and the parser is called on a length the buffer does not have. *)

From S2P Require Import Prelude Event FrameParser IngestSink TcpServer.

Module UdpServer.
Section Server.
Context {W : Type} `{FrameSink W}.

Definition MAX_UDP_DATAGRAM : Z := 65507.

Record Server := mkServer {
  recvBuffer : list byte;
  totalDatagramsReceived_ : Z;
  totalParseErrors_ : Z;
  ingest : Ingest W
}.

(** The constructor: [bufferSize = min(buffer_size, MAX_UDP_DATAGRAM)], zero-filled. *)
Definition new_server (buffer_size : Z) (s : Ingest W) : Server :=
  mkServer (replicate (Z.to_nat (Z.min buffer_size MAX_UDP_DATAGRAM)) Byte.x00) 0 0 s.

(** [recvfrom]: a datagram longer than the buffer is truncated; the rest of the
    buffer keeps what it held. *)
Definition recvfrom (buf datagram : list byte) : list byte * Z :=
  let got := take (length buf) datagram in
  (got ++ drop (length got) buf, zlen got).

Definition parse_error (st : Server) : Server :=
  mkServer (recvBuffer st) (totalDatagramsReceived_ st) (add64 (totalParseErrors_ st) 1) (ingest st).

(** The part of the loop body after the byte counts are known to be positive. *)
Definition handle_datagram (clientAddress : string) (bytesReceived : Z) (st : Server)
    : outcome Server :=
  let st := mkServer (recvBuffer st) (add64 (totalDatagramsReceived_ st) 1)
              (totalParseErrors_ st) (ingest st) in
  if bytesReceived <? 8 then Ret (parse_error st) else
  let frameLen := TcpServer.frame_len_at (recvBuffer st) 0 in
  if (frameLen =? 0) || (bytesReceived <? wrap 32 (4 + frameLen)) then Ret (parse_error st) else
  match FrameParser.parseFrameBody (recvBuffer st) 4 frameLen with
  | Ret parsed =>
      Ret (mkServer (recvBuffer st) (totalDatagramsReceived_ st) (totalParseErrors_ st)
             (deliver UDP clientAddress parsed (ingest st)))
  | Throw _ => Ret (parse_error st)
  | UB => UB
  end.

Inductive recv_event :=
| RecvFailed                                      (* bytesReceived < 0 *)
| Datagram (clientAddress : string) (bytes : list byte).

Definition receive_step (st : Server) (e : recv_event) : outcome Server :=
  match e with
  | RecvFailed => Ret st
  | Datagram addr bytes =>
      let '(buf, n) := recvfrom (recvBuffer st) bytes in
      let st := mkServer buf (totalDatagramsReceived_ st) (totalParseErrors_ st) (ingest st) in
      if n =? 0 then Ret st else handle_datagram addr n st
  end.

Fixpoint receiveLoop (events : list recv_event) (st : Server) : outcome Server :=
  match events with
  | [] => Ret st
  | e :: events' => st' ← receive_step st e; receiveLoop events' st'
  end.

(** The length a datagram announces, as a number. *)
Definition announced (bytes : list byte) : Z := be_val (take 4 bytes).

(** ** Lemmas *)

Lemma recvfrom_fits buf bytes :
  (length bytes <= length buf)%nat ->
  recvfrom buf bytes = (bytes ++ drop (length bytes) buf, zlen bytes).
Proof. intros. unfold recvfrom. by rewrite take_ge by done. Qed.

Lemma recvfrom_length buf bytes : zlen (recvfrom buf bytes).1 = zlen buf.
Proof.
  unfold recvfrom, zlen. cbn [fst]. rewrite length_app, length_drop, length_take. lia.
Qed.

Lemma frame_len_at_announced bytes suf :
  (4 <= length bytes)%nat ->
  TcpServer.frame_len_at (bytes ++ suf) 0 = announced bytes.
Proof.
  intros Hl. destruct bytes as [|b0 [|b1 [|b2 [|b3 bytes]]]]; simpl in Hl; try lia.
  unfold TcpServer.frame_len_at. change (Z.to_nat 0) with 0%nat. rewrite drop_0.
  apply TcpServer.frame_len_be.
Qed.

(** Below the wrap the length test is the comparison it looks like. *)
Lemma length_test_small n k :
  0 <= n < 2 ^ 32 - 4 -> (k <? wrap 32 (4 + n)) = (k <? 4 + n).
Proof. intros Hn. rewrite wrap_small; [done|]. unfold in_word. lia. Qed.

Lemma length_test_wraps n k :
  2 ^ 32 - 4 <= n < 2 ^ 32 -> 8 <= k -> (k <? wrap 32 (4 + n)) = false.
Proof.
  intros Hn Hk. unfold wrap.
  replace ((4 + n) mod 2 ^ 32) with (4 + n - 2 ^ 32); [apply Z.ltb_ge; lia|].
  apply Z.mod_unique with (q := 1); lia.
Qed.

Lemma zlen_drop4 {A} (l : list A) : 4 <= zlen l -> zlen (drop 4 l) = zlen l - 4.
Proof. unfold zlen. rewrite length_drop. lia. Qed.

(** A body cut out of the datagram is parsed from the datagram alone. *)
Lemma parse_in_datagram bytes suf n :
  0 < n -> 4 + n <= zlen bytes -> 4 <= zlen bytes ->
  FrameParser.parseFrameBody (bytes ++ suf) 4 n =
  FrameParser.parseFrameBody (take (Z.to_nat n) (drop 4 bytes)) 0 n.
Proof.
  intros Hn Hle H4.
  set (pre := take 4 bytes). set (body := take (Z.to_nat n) (drop 4 bytes)).
  set (post := drop (Z.to_nat n) (drop 4 bytes) ++ suf).
  assert (Hpre : zlen pre = 4) by (apply (zlen_take bytes 4); lia).
  assert (Hbody : zlen body = n).
  { apply (zlen_take (drop 4 bytes) n). rewrite zlen_drop4; lia. }
  replace (bytes ++ suf) with (pre ++ body ++ post)
    by (unfold pre, body, post; by rewrite (app_assoc (take _ (drop 4 bytes))), take_drop, app_assoc, take_drop).
  rewrite <- Hpre, <- Hbody at 1. rewrite FrameParser.parseFrameBody_body.
  pose proof (FrameParser.parseFrameBody_body [] body []) as Hb.
  rewrite app_nil_r in Hb. cbn [app] in Hb. rewrite <- Hb.
  by rewrite zlen_nil, Hbody.
Qed.

(** A length beyond the region: as soon as the fixed fields are accepted the copy of the
    topic or of the payload leaves the buffer. *)
Lemma parse_beyond mem p t1 t0 rest len :
  zlen mem < 2 ^ 31 -> 2 ^ 32 - 4 <= len ->
  drop 4 mem = p :: t1 :: t0 :: rest ->
  FrameParser.parseFrameBody mem 4 len =
  if 4 <? b2z p then Throw "Invalid priority value"
  else if be_val [t1; t0] =? 0 then Throw "Topic length cannot be zero"
  else UB.
Proof.
  intros Hmem Hlen Hd.
  assert (Hsplit : mem = take 4 mem ++ p :: t1 :: t0 :: rest) by (by rewrite <- Hd, take_drop).
  assert (Hpre : zlen (take 4 mem) = 4).
  { apply (zlen_take mem 4). assert (zlen (drop 4 mem) <> 0) by (rewrite Hd, zlen_cons; pose proof (zlen_nonneg (t1 :: t0 :: rest)); lia).
    unfold zlen in *. rewrite length_drop in *. lia. }
  assert (Hn : 0 <= be_val [t1; t0] < 65536) by apply (be_val_range [t1; t0]).
  set (n := be_val [t1; t0]) in *.
  unfold FrameParser.parseFrameBody.
  rewrite (proj2 (Z.ltb_ge len 3)) by lia.
  rewrite (FrameParser.readUint8_at mem (take 4 mem) p (t1 :: t0 :: rest)) by done.
  cbn [mbind outcome_bind priority_code]. destruct (4 <? b2z p); [done|].
  rewrite (FrameParser.readUint16BE_at mem (take 4 mem ++ [p]) [t1; t0] rest).
  2: { by rewrite <- app_assoc. }
  2: { rewrite zlen_app, Hpre. done. }
  2: done.
  cbn [mbind outcome_bind]. fold n.
  rewrite (proj2 (Z.ltb_ge len (3 + n))) by lia.
  destruct (n =? 0); [done|].
  destruct (Z.ltb_spec (zlen mem) (4 + 3 + n)).
  - by rewrite (rd_range_ub mem (4 + 3) n) by lia.
  - rewrite (rd_range_ok mem (4 + 3) n) by lia. cbn [mbind outcome_bind].
    rewrite (proj2 (Z.ltb_lt (3 + n) len)) by lia. by rewrite rd_range_ub by lia.
Qed.

(** ** A stream of well-formed datagrams *)

Definition datagram_of (f : FrameParser.ParsedFrame) : list byte :=
  FrameParser.encode_frame (FrameParser.pf_priority f) (FrameParser.pf_topic f) (FrameParser.pf_payload f).

(** A frame one datagram carries. *)
Definition fits (st : Server) (f : FrameParser.ParsedFrame) : Prop :=
  FrameParser.encodable (FrameParser.pf_topic f) (FrameParser.pf_payload f) /\
  zlen (datagram_of f) <= zlen (recvBuffer st).

Lemma receive_encoded addr f st :
  fits st f -> zlen (recvBuffer st) <= MAX_UDP_DATAGRAM ->
  exists buf, receive_step st (Datagram addr (datagram_of f)) =
      Ret (mkServer buf (add64 (totalDatagramsReceived_ st) 1) (totalParseErrors_ st)
             (deliver UDP addr f (ingest st))) /\
    zlen buf = zlen (recvBuffer st).
Proof.
  intros [He Hfit] Hbuf. pose proof (recvfrom_length (recvBuffer st) (datagram_of f)) as Hrl.
  unfold receive_step. rewrite recvfrom_fits in Hrl |- * by (unfold zlen in Hfit; lia). cbn [fst] in Hrl.
  unfold MAX_UDP_DATAGRAM in Hbuf. unfold datagram_of in *.
  destruct f as [p topic payload]. cbn [FrameParser.pf_priority FrameParser.pf_topic FrameParser.pf_payload] in *.
  pose proof (FrameParser.encode_body_length p topic payload) as Hlen.
  unfold FrameParser.encode_frame in *. set (body := FrameParser.encode_body p topic payload) in *.
  assert (H4 : zlen (be_bytes 4 (zlen body)) = 4) by (unfold zlen at 1; by rewrite length_be_bytes).
  rewrite zlen_app, H4 in Hfit |- *. pose proof (zlen_nonneg payload).
  assert (Hb8 : 4 <= zlen body) by (rewrite Hlen; destruct He; lia).
  rewrite (proj2 (Z.eqb_neq (4 + zlen body) 0)) by lia.
  eexists. split; [|exact Hrl]. unfold handle_datagram. cbn [recvBuffer].
  rewrite (proj2 (Z.ltb_ge (4 + zlen body) 8)) by lia.
  assert (Hn4 : length (be_bytes 4 (zlen body)) = 4%nat) by apply length_be_bytes.
  rewrite frame_len_at_announced by (rewrite length_app, Hn4; lia).
  assert (Hann : announced (be_bytes 4 (zlen body) ++ body) = zlen body).
  { unfold announced. rewrite take_app_le by lia. rewrite take_ge by lia. apply be_val_bytes. simpl. lia. }
  rewrite Hann, length_test_small, (proj2 (Z.eqb_neq (zlen body) 0)), (proj2 (Z.ltb_ge _ _)) by lia.
  cbn [orb]. rewrite parse_in_datagram by (rewrite ?zlen_app, ?H4; lia).
  rewrite drop_app_length' by lia. unfold zlen at 1. rewrite Nat2Z.id, take_ge by lia.
  pose proof (FrameParser.parseFrameBody_encode [] [] p topic payload He) as Hp.
  rewrite app_nil_r in Hp. cbn [app] in Hp. rewrite zlen_nil in Hp. fold body in Hp. by rewrite Hp.
Qed.

Lemma receiveLoop_encoded addr fs st :
  Forall (fits st) fs -> zlen (recvBuffer st) <= MAX_UDP_DATAGRAM ->
  in_word 64 (totalDatagramsReceived_ st) ->
  exists buf, receiveLoop (map (fun f => Datagram addr (datagram_of f)) fs) st =
    Ret (mkServer buf (wrap 64 (totalDatagramsReceived_ st + zlen fs)) (totalParseErrors_ st)
           (deliver_all UDP addr fs (ingest st))).
Proof.
  revert st. induction fs as [|f fs IH]; intros st Hfs Hbuf Hw.
  { exists (recvBuffer st). cbn. rewrite Z.add_0_r, wrap_small by done. by destruct st. }
  apply Forall_cons in Hfs as [Hf Hfs].
  destruct (receive_encoded addr f st Hf Hbuf) as (buf & Hr & Hlen). cbn [map receiveLoop]. rewrite Hr.
  cbn [mbind outcome_bind]. set (st1 := mkServer _ _ _ _).
  destruct (IH st1) as (buf' & ->).
  - eapply Forall_impl; [exact Hfs|]. intros g [? ?]. split; [done|]. cbn [st1 recvBuffer]. by rewrite Hlen.
  - cbn [st1 recvBuffer]. by rewrite Hlen.
  - apply add64_range.
  - exists buf'. cbn [st1 totalDatagramsReceived_ totalParseErrors_ ingest]. rewrite zlen_cons.
    unfold add64. rewrite wrap_add_l. do 3 f_equal. lia.
Qed.

(** ** Properties *)

(** below the 32-bit wrap, a datagram is handled from its own bytes alone - never from a
    previous datagram left in the buffer, never outside the buffer - and is either delivered as
    the parsed frame or counted as exactly one parse error. *)
Theorem udp_datagram_handled addr bytes st :
  (8 <= length bytes <= length (recvBuffer st))%nat ->
  announced bytes < 2 ^ 32 - 4 ->
  exists st', receive_step st (Datagram addr bytes) = Ret st' /\
    totalDatagramsReceived_ st' = add64 (totalDatagramsReceived_ st) 1 /\
    match (if (announced bytes =? 0) || (zlen bytes <? 4 + announced bytes) then Throw ""
           else FrameParser.parseFrameBody (take (Z.to_nat (announced bytes)) (drop 4 bytes))
                  0 (announced bytes)) with
    | Ret parsed => ingest st' = deliver UDP addr parsed (ingest st) /\
                    totalParseErrors_ st' = totalParseErrors_ st
    | _ => ingest st' = ingest st /\ totalParseErrors_ st' = add64 (totalParseErrors_ st) 1
    end.
Proof.
  intros Hl Hann. unfold receive_step. rewrite recvfrom_fits by lia.
  assert (Hz : 8 <= zlen bytes) by (unfold zlen; lia).
  rewrite (proj2 (Z.eqb_neq (zlen bytes) 0)) by lia.
  unfold handle_datagram. cbn [recvBuffer].
  rewrite (proj2 (Z.ltb_ge (zlen bytes) 8)) by lia.
  rewrite frame_len_at_announced by lia.
  assert (Hr : 0 <= announced bytes) by (pose proof (be_val_range (take 4 bytes)); unfold announced; lia).
  rewrite length_test_small by lia.
  destruct ((announced bytes =? 0) || (zlen bytes <? 4 + announced bytes)) eqn:E;
    [by eexists|]. bool_to_prop.
  rewrite parse_in_datagram by lia.
  destruct (FrameParser.parseFrameBody _ 0 (announced bytes)) as [pf|e|] eqn:Hp;
    [by eexists..|].
  exfalso.
  pose proof (FrameParser.parseFrameBody_body [] (take (Z.to_nat (announced bytes)) (drop 4 bytes)) []) as Hb.
  assert (Hbody : zlen (take (Z.to_nat (announced bytes)) (drop 4 bytes)) = announced bytes).
  { apply (zlen_take (drop 4 bytes)). rewrite zlen_drop4; lia. }
  rewrite app_nil_r, Hbody in Hb. cbn [app] in Hb. rewrite zlen_nil, Hp in Hb.
  destruct (take (Z.to_nat (announced bytes)) (drop 4 bytes)) as [|? [|? [|? ?]]]; try done.
  by destruct (FrameParser.body_error _).
Qed.

(** The length test wraps for the four largest lengths: such a datagram with an acceptable
    priority and a non-zero topic length makes the server read outside its buffer. *)
Theorem udp_length_overflow addr bytes p t1 t0 rest st :
  (length bytes <= length (recvBuffer st))%nat -> zlen (recvBuffer st) <= MAX_UDP_DATAGRAM ->
  8 <= zlen bytes -> 2 ^ 32 - 4 <= announced bytes ->
  drop 4 bytes = p :: t1 :: t0 :: rest -> b2z p <= 4 -> be_val [t1; t0] <> 0 ->
  receive_step st (Datagram addr bytes) = UB.
Proof.
  intros Hl Hbuf H8 Hann Hd Hp Ht. unfold receive_step. rewrite recvfrom_fits by done.
  assert (Hrng : announced bytes < 2 ^ 32).
  { pose proof (be_val_range (take 4 bytes)) as Hr. rewrite length_take in Hr.
    unfold announced. unfold zlen in H8. replace (4 `min` length bytes)%nat with 4%nat in Hr by lia.
    simpl in Hr. lia. }
  rewrite (proj2 (Z.eqb_neq (zlen bytes) 0)) by lia.
  unfold handle_datagram. cbn [recvBuffer].
  rewrite (proj2 (Z.ltb_ge (zlen bytes) 8)) by lia.
  rewrite frame_len_at_announced by (unfold zlen in H8; lia).
  rewrite (proj2 (Z.eqb_neq (announced bytes) 0)) by lia.
  rewrite length_test_wraps by lia. cbn [orb].
  rewrite (parse_beyond _ p t1 t0 (rest ++ drop (length bytes) (recvBuffer st))).
  - by rewrite (proj2 (Z.ltb_ge 4 (b2z p))), (proj2 (Z.eqb_neq _ 0)) by lia.
  - pose proof (recvfrom_length (recvBuffer st) bytes) as Hlen.
    rewrite recvfrom_fits in Hlen by done. cbn [fst] in Hlen. rewrite Hlen.
    unfold MAX_UDP_DATAGRAM in Hbuf. lia.
  - done.
  - rewrite drop_app_le by (unfold zlen in H8; lia). by rewrite Hd.
Qed.

End Server.
End UdpServer.

Module UdpRun.

Definition start := @UdpServer.new_server
  (list (EventSourceType * string * FrameParser.ParsedFrame)) 64 TcpRun.start.

Definition good : list byte := FrameParser.encode_frame HIGH "a" [Byte.x07].

(** ff ff ff fc: 2^32 - 4, then priority 3, topic length 1, topic "a". *)
Definition evil : list byte :=
  [Byte.xff; Byte.xff; Byte.xff; Byte.xfc; Byte.x03; Byte.x00; Byte.x01; Byte.x61].

End UdpRun.

Lemma udp_datagram_handled_witness :
  exists st', @UdpServer.receive_step _ TcpRun.sink UdpRun.start
                (UdpServer.Datagram "10.0.0.2" UdpRun.good) = Ret st' /\
    UdpServer.totalDatagramsReceived_ st' = 1.
Proof.
  destruct (@UdpServer.udp_datagram_handled _ TcpRun.sink "10.0.0.2" UdpRun.good UdpRun.start)
    as (st' & Hr & Hc & _); [split; apply (bool_decide_unpack _); vm_compute; exact I|reflexivity|].
  exists st'. split; [exact Hr|exact Hc].
Defined.

Lemma udp_length_overflow_witness :
  @UdpServer.receive_step _ TcpRun.sink UdpRun.start (UdpServer.Datagram "10.0.0.2" UdpRun.evil) = UB.
Proof.
  apply (@UdpServer.udp_length_overflow _ TcpRun.sink "10.0.0.2" UdpRun.evil
           Byte.x03 Byte.x00 Byte.x01 [Byte.x61]).
  - apply (bool_decide_unpack _). vm_compute. exact I.
  - vm_compute. discriminate.
  - vm_compute. discriminate.
  - vm_compute. discriminate.
  - reflexivity.
  - vm_compute. discriminate.
  - vm_compute. discriminate.
Defined.
