(* ===== verification/TopicTable.v ===== *)
(** * Topic configuration: [src/core/events/topic_table.cpp]

    Module [TopicTable]: the parser of "topic : PRIORITY" lines and the lookup the
    dispatcher uses.  The file system is an argument: the contents of the file, or
    its absence.  A [std::string] being cut up is the list of its characters. *)

From S2P Require Import Prelude Event.
From Stdlib Require Import Ascii.

Module TopicTable.

Abbreviation chars := (list ascii).

Definition is_char (c d : ascii) : bool := bool_decide (c = d).

(** [" \t\r\n"] *)
Definition is_space (c : ascii) : bool :=
  is_char c " " || is_char c "009" || is_char c "013" || is_char c "010".

(** [std::string::find(char)]: [None] is [npos]. *)
Fixpoint find (c : ascii) (s : chars) : option nat :=
  match s with
  | [] => None
  | d :: s' => if is_char d c then Some O else S <$> find c s'
  end.

Fixpoint find_first_not_of (p : ascii -> bool) (s : chars) : option nat :=
  match s with
  | [] => None
  | d :: s' => if p d then S <$> find_first_not_of p s' else Some O
  end.

Fixpoint find_last_not_of (p : ascii -> bool) (s : chars) : option nat :=
  match s with
  | [] => None
  | d :: s' =>
      match find_last_not_of p s' with
      | Some i => Some (S i)
      | None => if p d then None else Some O
      end
  end.

Definition substr (s : chars) (pos len : nat) : chars := take len (drop pos s).

(** The lambda [trim]. *)
Definition trim (s : chars) : chars :=
  match find_first_not_of is_space s, find_last_not_of is_space s with
  | Some a, Some b => substr s a (b - a + 1)
  | _, _ => []
  end.

Definition priority_name (p : EventPriority) : string :=
  match p with
  | BATCH => "BATCH" | LOW => "LOW" | MEDIUM => "MEDIUM" | HIGH => "HIGH" | CRITICAL => "CRITICAL"
  end.

(** The chain of comparisons on the right-hand side of a line. *)
Definition priority_of_name (pr : string) : option EventPriority :=
  if bool_decide (pr = "BATCH"%string) then Some BATCH
  else if bool_decide (pr = "LOW"%string) then Some LOW
  else if bool_decide (pr = "MEDIUM"%string) then Some MEDIUM
  else if bool_decide (pr = "HIGH"%string) then Some HIGH
  else if bool_decide (pr = "CRITICAL"%string) then Some CRITICAL
  else None.

(** One line of the file: the entry it sets, if any. *)
Definition parse_line (line : chars) : option (string * EventPriority) :=
  let line := match find "#" line with Some posc => substr line 0 posc | None => line end in
  match find ":" line with
  | None => None
  | Some pos =>
      let topic := trim (substr line 0 pos) in
      let pr := trim (drop (pos + 1) line) in
      if bool_decide (topic = []) || bool_decide (pr = []) then None else
      match priority_of_name (String.string_of_list_ascii pr) with
      | Some p => Some (String.string_of_list_ascii topic, p)
      | None => None
      end
  end.

(** [std::getline]: a last line without newline counts, an empty rest does not. *)
Fixpoint getlines (line : chars) (s : chars) : list chars :=
  match s with
  | [] => match line with [] => [] | _ => [rev line] end
  | c :: s' => if is_char c "010" then rev line :: getlines [] s' else getlines (c :: line) s'
  end.

Definition load_line (table : gmap string EventPriority) (line : chars)
    : gmap string EventPriority :=
  match parse_line line with
  | Some (topic, p) => <[topic := p]> table
  | None => table
  end.

(** [loadFromFile]: the file's contents, [None] when it cannot be opened. *)
Definition loadFromFile (file : option string) (table : gmap string EventPriority)
    : bool * gmap string EventPriority :=
  match file with
  | None => (false, table)
  | Some contents =>
      (true, fold_left load_line (getlines [] (String.list_ascii_of_string contents)) table)
  end.

(** [findTopic]: the out-parameter keeps its value when the topic is absent. *)
Definition findTopic (table : gmap string EventPriority) (topic : string)
    (priority : EventPriority) : bool * EventPriority :=
  match table !! topic with
  | Some p => (true, p)
  | None => (false, priority)
  end.

(** ** What a configuration file looks like *)

(** A line of the format, with the free spacing and the comment it may carry. *)
Record entry := mkEntry {
  e_sp1 : chars; e_topic : string; e_sp2 : chars;
  e_sp3 : chars; e_prio : EventPriority; e_sp4 : chars;
  e_comment : option chars
}.

Definition print_entry (e : entry) : chars :=
  e_sp1 e ++ String.list_ascii_of_string (e_topic e) ++ e_sp2 e ++ [":"%char] ++
  e_sp3 e ++ String.list_ascii_of_string (priority_name (e_prio e)) ++ e_sp4 e ++
  match e_comment e with Some c => "#"%char :: c | None => [] end.

Definition print_file (es : list entry) : chars :=
  concat (map (fun e => print_entry e ++ ["010"%char]) es).

Definition plain_char (c : ascii) : bool :=
  negb (is_char c "#" || is_char c ":" || is_char c "010").

Definition blank (s : chars) : Prop := Forall (fun c => is_space c = true /\ plain_char c = true) s.

(** A topic a line can carry: no separator inside, no space at either end, not empty. *)
Definition wf_topic (t : chars) : Prop :=
  Forall (fun c => plain_char c = true) t /\
  (exists c t', t = c :: t' /\ is_space c = false) /\
  (exists c t', t = t' ++ [c] /\ is_space c = false).

Definition wf_entry (e : entry) : Prop :=
  blank (e_sp1 e) /\ blank (e_sp2 e) /\ blank (e_sp3 e) /\ blank (e_sp4 e) /\
  wf_topic (String.list_ascii_of_string (e_topic e)) /\
  match e_comment e with
  | Some c => Forall (fun d => is_char d "010" = false) c
  | None => True
  end.

(** ** Lemmas *)

Lemma find_app_none c s r :
  Forall (fun d => is_char d c = false) s -> find c (s ++ r) = (fun i => (length s + i)%nat) <$> find c r.
Proof.
  induction 1 as [|d s Hd Hs IH]; simpl; [by destruct (find c r)|].
  rewrite Hd, IH. by destruct (find c r).
Qed.

Lemma find_none c s : Forall (fun d => is_char d c = false) s -> find c s = None.
Proof. intros Hs. rewrite <- (app_nil_r s), find_app_none; done. Qed.

Lemma first_not_blank p s t c :
  Forall (fun d => p d = true) s -> p c = false ->
  find_first_not_of p (s ++ c :: t) = Some (length s).
Proof. intros Hs Hc. induction Hs as [|d s Hd Hs IH]; simpl; [by rewrite Hc|by rewrite Hd, IH]. Qed.

Lemma last_not_blank p s : Forall (fun d => p d = true) s -> find_last_not_of p s = None.
Proof. induction 1 as [|d s Hd Hs IH]; simpl; [done|by rewrite IH, Hd]. Qed.

Lemma last_not_app p s c t :
  Forall (fun d => p d = true) t -> p c = false ->
  find_last_not_of p (s ++ c :: t) = Some (length s).
Proof.
  intros Ht Hc. induction s as [|d s IH]; simpl; [by rewrite last_not_blank, Hc|by rewrite IH].
Qed.

(** Spaces around a word that starts and ends with a non-space are removed. *)
Lemma trim_pad l t r :
  Forall (fun d => is_space d = true) l -> Forall (fun d => is_space d = true) r ->
  (exists c t', t = c :: t' /\ is_space c = false) ->
  (exists c t', t = t' ++ [c] /\ is_space c = false) ->
  trim (l ++ t ++ r) = t.
Proof.
  intros Hl Hr (c & t1 & Ht1 & Hc) (d & t2 & Ht2 & Hd). unfold trim.
  assert (Hf : find_first_not_of is_space (l ++ t ++ r) = Some (length l))
    by (rewrite Ht1; by apply first_not_blank).
  assert (Hb : find_last_not_of is_space (l ++ t ++ r) = Some (length (l ++ t2))).
  { rewrite Ht2, <- app_assoc, app_assoc. by apply last_not_app. }
  rewrite Hf, Hb. unfold substr. rewrite drop_app_length.
  assert (Hlen : (length (l ++ t2) - length l + 1 = length t)%nat)
    by (rewrite Ht2, !length_app; simpl; lia).
  by rewrite Hlen, take_app_length.
Qed.

Lemma priority_name_wf p : wf_topic (String.list_ascii_of_string (priority_name p)).
Proof.
  unfold wf_topic. destruct p; cbn [priority_name String.list_ascii_of_string];
    (split; [repeat constructor|split; [by eexists _, _|]]);
    match goal with |- exists c t', ?l = _ /\ _ =>
      exists (List.last l " "%char), (removelast l); done end.
Qed.

Lemma priority_of_priority_name p : priority_of_name (priority_name p) = Some p.
Proof. by destruct p. Qed.

Lemma plain_not c d : plain_char c = true -> d = "#"%char \/ d = ":"%char \/ d = "010"%char ->
  is_char c d = false.
Proof.
  unfold plain_char. intros Hp%negb_true_iff. apply orb_false_elim in Hp as [Hp H3].
  apply orb_false_elim in Hp as [H1 H2]. naive_solver.
Qed.

Lemma blank_plain s d : blank s -> d = "#"%char \/ d = ":"%char \/ d = "010"%char ->
  Forall (fun c => is_char c d = false) s.
Proof. intros Hs Hd. eapply Forall_impl; [exact Hs|]. intros c [_ Hc]. by apply plain_not. Qed.

Lemma blank_space s : blank s -> Forall (fun c => is_space c = true) s.
Proof. intros Hs. eapply Forall_impl; [exact Hs|]. naive_solver. Qed.

Lemma topic_plain t d : wf_topic t -> d = "#"%char \/ d = ":"%char \/ d = "010"%char ->
  Forall (fun c => is_char c d = false) t.
Proof. intros [Ht _] Hd. eapply Forall_impl; [exact Ht|]. intros c Hc. by apply plain_not. Qed.

Create HintDb topic.
#[local] Hint Resolve blank_plain blank_space topic_plain priority_name_wf : topic.

Lemma wf_topic_nonempty t : wf_topic t -> bool_decide (t = []) = false.
Proof. intros (_ & (c & t' & -> & _) & _). by apply bool_decide_eq_false. Qed.

Lemma parse_line_print e : wf_entry e -> parse_line (print_entry e) = Some (e_topic e, e_prio e).
Proof.
  intros (H1 & H2 & H3 & H4 & Ht & Hc). unfold parse_line, print_entry.
  set (T := String.list_ascii_of_string (e_topic e)) in *.
  set (P := String.list_ascii_of_string (priority_name (e_prio e))).
  assert (HP : wf_topic P) by apply priority_name_wf.
  set (L := e_sp1 e ++ T ++ e_sp2 e). set (R := e_sp3 e ++ P ++ e_sp4 e).
  set (C := match e_comment e with Some c => "#"%char :: c | None => [] end).
  replace (e_sp1 e ++ T ++ e_sp2 e ++ [":"%char] ++ e_sp3 e ++ P ++ e_sp4 e ++ C)
    with ((L ++ ":"%char :: R) ++ C) by (unfold L, R; by simplify_list_eq).
  assert (Hhash : Forall (fun d => is_char d "#" = false) (L ++ ":"%char :: R)).
  { unfold L, R. rewrite !Forall_app, Forall_cons_iff, !Forall_app. repeat split; eauto with topic. }
  assert (Hline : match find "#" ((L ++ ":"%char :: R) ++ C) with
                  | Some posc => substr ((L ++ ":"%char :: R) ++ C) 0 posc
                  | None => (L ++ ":"%char :: R) ++ C end = L ++ ":"%char :: R).
  { rewrite find_app_none by done. unfold C. destruct (e_comment e); simpl.
    - unfold substr. by rewrite Nat.add_0_r, drop_0, take_app_length.
    - by rewrite app_nil_r. }
  rewrite Hline.
  assert (HL : Forall (fun d => is_char d ":" = false) L)
    by (unfold L; rewrite !Forall_app; repeat split; eauto with topic).
  rewrite find_app_none by done. simpl. unfold substr.
  rewrite Nat.add_0_r, drop_0, take_app_length.
  replace (drop (length L + 1) (L ++ ":"%char :: R)) with R
    by (by rewrite drop_app_add).
  unfold L, R. pose proof Ht as (_ & Ht1 & Ht2). pose proof HP as (_ & HP1 & HP2).
  rewrite !trim_pad by (eauto with topic).
  rewrite !wf_topic_nonempty by done. simpl. unfold T, P.
  by rewrite !String.string_of_list_ascii_of_string, priority_of_priority_name.
Qed.

Lemma getlines_line line l s :
  Forall (fun d => is_char d "010" = false) l ->
  getlines line (l ++ "010"%char :: s) = (rev line ++ l) :: getlines [] s.
Proof.
  intros Hl. revert line. induction Hl as [|c l Hc Hl IH]; intros line; simpl.
  - by rewrite app_nil_r.
  - rewrite Hc, IH. simpl. by rewrite <- app_assoc.
Qed.

Lemma print_entry_one_line e :
  wf_entry e -> Forall (fun d => is_char d "010" = false) (print_entry e).
Proof.
  intros (H1 & H2 & H3 & H4 & Ht & Hc). unfold print_entry.
  rewrite !Forall_app. repeat split; eauto with topic.
  destruct (e_comment e); repeat constructor; done.
Qed.

Lemma getlines_print es :
  Forall wf_entry es -> getlines [] (print_file es) = map print_entry es.
Proof.
  induction 1 as [|e es He Hes IH]; [done|]. unfold print_file. simpl.
  rewrite <- app_assoc. simpl. rewrite getlines_line by (by apply print_entry_one_line).
  simpl. f_equal. exact IH.
Qed.

(** ** Properties *)

(** C40: loading a file of well-formed lines, whatever their spacing and comments, sets exactly
    the listed priorities: a topic listed twice has its last priority, every other topic keeps
    what it had. *)
Theorem loadFromFile_print es table :
  Forall wf_entry es ->
  loadFromFile (Some (String.string_of_list_ascii (print_file es))) table =
  (true, fold_left (fun t e => <[e_topic e := e_prio e]> t) es table).
Proof.
  intros Hes. unfold loadFromFile. f_equal.
  rewrite String.list_ascii_of_string_of_list_ascii, getlines_print by done.
  revert table; induction Hes as [|e es He Hes IH]; intros table; [done|]. simpl.
  unfold load_line at 2. by rewrite parse_line_print, IH by done.
Qed.

Definition sample : list entry :=
  [mkEntry [] "sensor/1" [" "%char] [" "%char] CRITICAL [] (Some ["x"%char]);
   mkEntry [] "db/backup" [] [] LOW ["013"%char] None].

Lemma loadFromFile_print_witness :
  Forall wf_entry sample /\
  loadFromFile (Some (String.string_of_list_ascii (print_file sample))) ∅ =
  (true, <["db/backup"%string := LOW]> (<["sensor/1"%string := CRITICAL]> ∅)).
Proof.
  assert (Hs : Forall wf_entry sample).
  { unfold sample. apply Forall_cons; split; [|apply Forall_cons; split; [|constructor]];
      unfold wf_entry, blank, wf_topic; cbn;
      repeat match goal with
      | |- exists c t', ?l = c :: t' /\ _ => eexists _, _; split; reflexivity
      | |- exists c t', ?l = t' ++ [c] /\ _ =>
          exists (List.last l " "%char), (removelast l); split; reflexivity
      | |- _ => constructor
      end. }
  split; [exact Hs|]. exact (loadFromFile_print sample ∅ Hs).
Defined.

End TopicTable.
