(* ===== verification/Spsc.v ===== *)
(** * The single-producer single-consumer ring: [include/eventstream/core/queues/spsc.hpp]

    Module [Spsc]: the operations run to completion refine a bounded FIFO of
    [Capacity - 1] slots.  Module [SpscConc]: the loads and stores of [push] and
    [pop] as separate steps of a producer and of any number of consumers over a
    sequentially consistent memory (the acquire/release pairs on [head_] and
    [tail_] order the plain accesses to [buffer_]); with one consumer the ring is
    a FIFO and free of races on its slots, with two it delivers an item twice. *)

From S2P Require Import Prelude.

#[local] Set Default Proof Using "Type*".

Module Spsc.
Section Ring.
Context {T : Type} `{Inhabited T}.

(** The [static_assert]s: a positive power of two, that fits a [size_t]. *)
Variable log_capacity : Z.
Definition Capacity : Z := 2 ^ log_capacity.
Hypothesis log_capacity_range : 0 <= log_capacity < 63.

Record Ring := mkRing {
  buffer_ : list T;
  head_ : Z;
  tail_ : Z
}.

(** [buffer_] is an array of value-initialised elements. *)
Definition new_ring : Ring := mkRing (replicate (Z.to_nat Capacity) inhabitant) 0 0.

(** [(i + 1) & (Capacity - 1)]. *)
Definition next_index (i : Z) : Z := Z.land (add64 i 1) (Capacity - 1).

Definition push (item : T) (r : Ring) : bool * Ring :=
  let head := head_ r in
  let next := next_index head in
  if next =? tail_ r then (false, r)
  else (true, mkRing (<[Z.to_nat head := item]> (buffer_ r)) next (tail_ r)).

Definition pop (r : Ring) : option T * Ring :=
  let tail := tail_ r in
  if tail =? head_ r then (None, r)
  else let item := buffer_ r !!! Z.to_nat tail in
       (Some item, mkRing (buffer_ r) (head_ r) (next_index tail)).

Definition size (r : Ring) : Z :=
  let head := head_ r in
  let tail := tail_ r in
  if tail <=? head then sub64 head tail else sub64 (add64 Capacity head) tail.

(** ** The specification: a FIFO of [Capacity - 1] slots *)

Definition slots : Z := Capacity - 1.

Definition fifo_push (item : T) (q : list T) : bool * list T :=
  if zlen q <? slots then (true, q ++ [item]) else (false, q).

Definition fifo_pop (q : list T) : option T * list T :=
  match q with [] => (None, []) | x :: q' => (Some x, q') end.

Inductive op := Push (item : T) | Pop | Size.
Inductive result := Pushed (ok : bool) | Popped (item : option T) | Sized (n : Z).

Definition ring_op (o : op) (r : Ring) : result * Ring :=
  match o with
  | Push x => let '(b, r') := push x r in (Pushed b, r')
  | Pop => let '(x, r') := pop r in (Popped x, r')
  | Size => (Sized (size r), r)
  end.

Definition fifo_op (o : op) (q : list T) : result * list T :=
  match o with
  | Push x => let '(b, q') := fifo_push x q in (Pushed b, q')
  | Pop => let '(x, q') := fifo_pop q in (Popped x, q')
  | Size => (Sized (zlen q), q)
  end.

Definition run {S : Type} (step : op -> S -> result * S) (ops : list op) (s : S) : list result * S :=
  fold_left (fun '(rs, s) o => let '(r, s') := step o s in (rs ++ [r], s')) ops ([], s).

(** ** The representation

    The slots hold positions [tc], ..., [tc + length q - 1] of the sequence of all
    items ever pushed, each at its position modulo the capacity. *)
Definition represents (r : Ring) (q : list T) (tc : Z) : Prop :=
  0 <= tc /\ zlen (buffer_ r) = Capacity /\
  tail_ r = tc mod Capacity /\ head_ r = (tc + zlen q) mod Capacity /\
  zlen q <= slots /\
  forall i x, q !! i = Some x -> buffer_ r !! Z.to_nat ((tc + Z.of_nat i) mod Capacity) = Some x.

Lemma Capacity_range : 0 < Capacity < 2 ^ 63.
Proof.
  unfold Capacity. split; [apply Z.pow_pos_nonneg; lia|]. apply Z.pow_lt_mono_r; lia.
Qed.

Lemma next_index_mod i : 0 <= i -> next_index (i mod Capacity) = (i + 1) mod Capacity.
Proof.
  intros Hi. pose proof Capacity_range. pose proof (Z.mod_pos_bound i Capacity).
  unfold next_index. rewrite add64_small by (unfold UINT64_MAX; lia).
  replace (Capacity - 1) with (Z.ones log_capacity) by (rewrite Z.ones_equiv; unfold Capacity; lia).
  rewrite Z.land_ones by lia. fold Capacity. rewrite Zplus_mod_idemp_l. done.
Qed.

(** Positions less than a capacity apart have different slots. *)
Lemma slot_inj a b : a mod Capacity = b mod Capacity -> - Capacity < a - b < Capacity -> a = b.
Proof.
  pose proof Capacity_range. intros He Hd.
  pose proof (Z.div_mod a Capacity ltac:(lia)) as Ha.
  pose proof (Z.div_mod b Capacity ltac:(lia)) as Hb. rewrite He in Ha.
  assert (a / Capacity = b / Capacity) by nia. congruence.
Qed.

Lemma slot_range i : 0 <= i mod Capacity < Capacity.
Proof. apply Z.mod_pos_bound. apply Capacity_range. Qed.

Lemma new_ring_represents : represents new_ring [] 0.
Proof.
  pose proof Capacity_range. unfold represents, new_ring, slots, zlen. simpl.
  rewrite length_replicate, Z2Nat.id by lia. rewrite Z.mod_0_l by lia.
  repeat split; try lia. intros i x Hi. by rewrite lookup_nil in Hi.
Qed.

Lemma full_test r q tc :
  represents r q tc -> (next_index (head_ r) =? tail_ r) = negb (zlen q <? slots).
Proof.
  intros (Htc & Hlen & Ht & Hh & Hq & _). pose proof Capacity_range. pose proof (zlen_nonneg q).
  rewrite Hh, Ht, next_index_mod by lia. unfold slots in *.
  destruct (Z.ltb_spec (zlen q) (Capacity - 1)) as [Hlt|Hge]; cbn [negb].
  - apply Z.eqb_neq. intros He.
    destruct (Z.eq_dec Capacity 1) as [Hc1|Hc1]; [rewrite Hc1 in *; lia|].
    apply slot_inj in He; lia.
  - apply Z.eqb_eq. replace (tc + zlen q + 1) with (tc + 1 * Capacity) by lia.
    by rewrite Z_mod_plus_full.
Qed.

Lemma empty_test r q tc :
  represents r q tc -> (tail_ r =? head_ r) = bool_decide (q = []).
Proof.
  intros (Htc & Hlen & Ht & Hh & Hq & _). pose proof Capacity_range. pose proof (zlen_nonneg q).
  rewrite Hh, Ht. unfold slots in *. case_bool_decide as Hnil.
  - subst q. apply Z.eqb_eq. f_equal. rewrite zlen_nil. lia.
  - apply Z.eqb_neq. intros He. apply Hnil, zlen_0. apply slot_inj in He; lia.
Qed.

Lemma push_represents x r q tc :
  represents r q tc ->
  let '(b, r') := push x r in let '(b', q') := fifo_push x q in
  b = b' /\ represents r' q' tc.
Proof.
  intros Hr. unfold push, fifo_push. rewrite (full_test r q tc Hr).
  destruct (Z.ltb_spec (zlen q) slots) as [Hlt|]; cbn [negb]; [|done]. split; [done|].
  destruct Hr as (Htc & Hlen & Ht & Hh & Hq & Hb). pose proof Capacity_range.
  pose proof (zlen_nonneg q). unfold slots in *. unfold represents. simpl.
  autorewrite with zlen.
  rewrite Hh, next_index_mod, Z.add_assoc by lia.
  repeat split; try done; try (unfold slots; lia).
  pose proof (slot_range (tc + zlen q)) as Hrh.
  intros i y Hi. apply lookup_app_Some in Hi as [Hi|[Hi1 Hi2]].
  - pose proof (lookup_lt_Some _ _ _ Hi) as Hil.
    pose proof (slot_range (tc + Z.of_nat i)).
    rewrite list_lookup_insert_ne; [by apply Hb|]. intros He.
    apply Z2Nat.inj in He; [|lia..]. apply slot_inj in He; unfold zlen in *; lia.
  - apply list_lookup_singleton_Some in Hi2 as [Hi2 ->].
    replace (tc + Z.of_nat i) with (tc + zlen q) by (unfold zlen; lia).
    apply list_lookup_insert_eq. unfold zlen in Hlen. lia.
Qed.

Lemma represents_lookup r x q tc :
  represents r (x :: q) tc -> buffer_ r !!! Z.to_nat (tail_ r) = x.
Proof.
  intros (Htc & Hlen & Ht & Hh & Hq & Hb). apply list_lookup_total_correct. rewrite Ht.
  rewrite <- (Hb O x eq_refl). do 3 f_equal. lia.
Qed.

Lemma represents_tail r x q tc :
  represents r (x :: q) tc ->
  represents (mkRing (buffer_ r) (head_ r) (next_index (tail_ r))) q (tc + 1).
Proof.
  intros (Htc & Hlen & Ht & Hh & Hq & Hb). autorewrite with zlen in *.
  unfold represents. simpl. rewrite Ht, next_index_mod, Hh by lia.
  repeat split; try lia; try done.
  - f_equal. lia.
  - intros i y Hi. specialize (Hb (S i) y Hi). rewrite <- Hb. do 3 f_equal. lia.
Qed.

Lemma pop_represents r q tc :
  represents r q tc ->
  let '(x, r') := pop r in let '(x', q') := fifo_pop q in
  x = x' /\ exists tc', represents r' q' tc'.
Proof.
  intros Hr. unfold pop, fifo_pop. rewrite (empty_test r q tc Hr).
  destruct q as [|x q]; simpl; [eauto|].
  split; [|by eauto using represents_tail]. f_equal. by eapply represents_lookup.
Qed.

Lemma size_represents r q tc : represents r q tc -> size r = zlen q.
Proof.
  intros (Htc & Hlen & Ht & Hh & Hq & _). pose proof Capacity_range. pose proof (zlen_nonneg q).
  pose proof (slot_range tc). pose proof (slot_range (tc + zlen q)).
  unfold slots in Hq. unfold size. rewrite Hh, Ht.
  assert (Hmod : (tc + zlen q) mod Capacity = tc mod Capacity + zlen q \/
                 (tc + zlen q) mod Capacity = tc mod Capacity + zlen q - Capacity).
  { rewrite <- Zplus_mod_idemp_l.
    destruct (Z.ltb_spec (tc mod Capacity + zlen q) Capacity).
    - left. apply Z.mod_small. lia.
    - right. symmetry. apply Z.mod_unique with (q := 1); lia. }
  destruct (Z.leb_spec (tc mod Capacity) ((tc + zlen q) mod Capacity)).
  - rewrite sub64_small by (unfold UINT64_MAX; lia). lia.
  - rewrite add64_small by (unfold UINT64_MAX; lia).
    rewrite sub64_small by (unfold UINT64_MAX; lia). lia.
Qed.

Lemma spsc_op_represents o r q tc :
  represents r q tc ->
  (ring_op o r).1 = (fifo_op o q).1 /\ exists tc', represents (ring_op o r).2 (fifo_op o q).2 tc'.
Proof.
  intros Hr. destruct o as [x| |]; simpl.
  - pose proof (push_represents x r q tc Hr) as Hp.
    destruct (push x r), (fifo_push x q). simpl. naive_solver.
  - pose proof (pop_represents r q tc Hr) as Hp.
    destruct (pop r), (fifo_pop q). simpl. naive_solver.
  - rewrite (size_represents r q tc Hr). eauto.
Qed.

Lemma run_app {S : Type} (step : op -> S -> result * S) rs ops s :
  fold_left (fun '(rs, s) o => let '(r, s') := step o s in (rs ++ [r], s')) ops (rs, s) =
  (rs ++ (run step ops s).1, (run step ops s).2).
Proof.
  unfold run. revert rs s. induction ops as [|o ops IH]; intros rs s; simpl.
  { by rewrite app_nil_r. }
  destruct (step o s) as [r s']. rewrite IH, (IH [r]). simpl. by rewrite <- app_assoc.
Qed.

Lemma run_cons {S : Type} (step : op -> S -> result * S) o ops s :
  run step (o :: ops) s =
  ((step o s).1 :: (run step ops (step o s).2).1, (run step ops (step o s).2).2).
Proof. unfold run at 1. simpl. destruct (step o s) as [r s']. simpl. apply (run_app step [r]). Qed.

(** Every sequence of pushes, pops and size queries, whatever its length and however often
    the indices wrap, answers exactly as a FIFO of [Capacity - 1] slots does. *)
Theorem spsc_refines_fifo ops :
  (run ring_op ops new_ring).1 = (run fifo_op ops []).1.
Proof.
  assert (Hgen : forall r q tc, represents r q tc ->
            (run ring_op ops r).1 = (run fifo_op ops q).1).
  { induction ops as [|o ops IH]; intros r q tc Hr; [done|]. rewrite !run_cons. simpl.
    destruct (spsc_op_represents o r q tc Hr) as [-> [tc' Hr']]. f_equal. by eapply IH. }
  by eapply Hgen, new_ring_represents.
Qed.

End Ring.
End Spsc.

(** ** The loads and stores of [push] and [pop], interleaved *)

Module SpscConc.
Section Conc.
Context {T : Type} `{Inhabited T}.
Variable log_capacity : Z.
Hypothesis log_capacity_range : 0 <= log_capacity < 63.

Abbreviation Capacity := (Spsc.Capacity log_capacity).
Abbreviation next_index := (Spsc.next_index log_capacity).
Abbreviation Ring := (@Spsc.Ring T).
Abbreviation mkRing := Spsc.mkRing.

(** Where the producer is in [push]. *)
Inductive producer :=
| PIdle
| PHead (item : T) (head : Z)            (* head_ loaded *)
| PWrite (item : T) (head next : Z)      (* not full: about to write the slot *)
| PStore (item : T) (head next : Z).     (* slot written: about to store head_ *)

(** Where a consumer is in [pop]. *)
Inductive consumer :=
| CIdle
| CTail (tail : Z)                       (* tail_ loaded *)
| CRead (tail : Z)                       (* not empty: about to read the slot *)
| CStore (item : T) (tail : Z).          (* item copied: about to store tail_ *)

(** The shared memory, the threads, and what was pushed and what was returned so far. *)
Record state := mkState {
  ring : Ring;
  prod : producer;
  cons_ : list consumer;
  pushed : list T;
  popped : list T
}.

Inductive step : state -> state -> Prop :=
| push_load_head x r cs ps qs :
    step (mkState r PIdle cs ps qs) (mkState r (PHead x (Spsc.head_ r)) cs ps qs)
| push_full x h r cs ps qs :
    next_index h = Spsc.tail_ r ->
    step (mkState r (PHead x h) cs ps qs) (mkState r PIdle cs ps qs)
| push_not_full x h r cs ps qs :
    next_index h <> Spsc.tail_ r ->
    step (mkState r (PHead x h) cs ps qs) (mkState r (PWrite x h (next_index h)) cs ps qs)
| push_write x h n r cs ps qs :
    step (mkState r (PWrite x h n) cs ps qs)
         (mkState (mkRing (<[Z.to_nat h := x]> (Spsc.buffer_ r)) (Spsc.head_ r) (Spsc.tail_ r))
            (PStore x h n) cs ps qs)
| push_store x h n r cs ps qs :
    step (mkState r (PStore x h n) cs ps qs)
         (mkState (mkRing (Spsc.buffer_ r) n (Spsc.tail_ r)) PIdle cs (ps ++ [x]) qs)
| pop_load_tail i r p cs ps qs :
    cs !! i = Some CIdle ->
    step (mkState r p cs ps qs) (mkState r p (<[i := CTail (Spsc.tail_ r)]> cs) ps qs)
| pop_empty i t r p cs ps qs :
    cs !! i = Some (CTail t) -> t = Spsc.head_ r ->
    step (mkState r p cs ps qs) (mkState r p (<[i := CIdle]> cs) ps qs)
| pop_not_empty i t r p cs ps qs :
    cs !! i = Some (CTail t) -> t <> Spsc.head_ r ->
    step (mkState r p cs ps qs) (mkState r p (<[i := CRead t]> cs) ps qs)
| pop_read i t r p cs ps qs :
    cs !! i = Some (CRead t) ->
    step (mkState r p cs ps qs)
         (mkState r p (<[i := CStore (Spsc.buffer_ r !!! Z.to_nat t) t]> cs) ps qs)
| pop_store i x t r p cs ps qs :
    cs !! i = Some (CStore x t) ->
    step (mkState r p cs ps qs)
         (mkState (mkRing (Spsc.buffer_ r) (Spsc.head_ r) (next_index t)) p
            (<[i := CIdle]> cs) ps (qs ++ [x])).

Definition initial (consumers : nat) : state :=
  mkState (Spsc.new_ring log_capacity) PIdle (replicate consumers CIdle) [] [].

(** The slot a thread is about to access, and whether the access is a write. *)
Definition prod_access (p : producer) : option Z :=
  match p with PWrite _ h _ => Some h | _ => None end.
Definition cons_access (c : consumer) : option Z :=
  match c with CRead t => Some t | _ => None end.

(** A write of the producer and a read of a consumer of the same slot are both enabled. *)
Definition slot_race (s : state) : Prop :=
  exists i c a, cons_ s !! i = Some c /\ cons_access c = Some a /\ prod_access (prod s) = Some a.

(** ** One consumer *)

Definition ring_ok (s : state) : Prop :=
  Spsc.represents log_capacity (ring s) (drop (length (popped s)) (pushed s)) (zlen (popped s)) /\
  popped s = take (length (popped s)) (pushed s).

Definition producer_ok (s : state) : Prop :=
  match prod s with
  | PIdle => True
  | PHead _ h => h = Spsc.head_ (ring s)
  | PWrite _ h n => h = Spsc.head_ (ring s) /\ n = next_index h /\ n <> Spsc.tail_ (ring s)
  | PStore x h n => h = Spsc.head_ (ring s) /\ n = next_index h /\ n <> Spsc.tail_ (ring s) /\
                    Spsc.buffer_ (ring s) !! Z.to_nat h = Some x
  end.

Definition consumer_ok (s : state) (c : consumer) : Prop :=
  match c with
  | CIdle => True
  | CTail t => t = Spsc.tail_ (ring s)
  | CRead t => t = Spsc.tail_ (ring s) /\ t <> Spsc.head_ (ring s)
  | CStore x t => t = Spsc.tail_ (ring s) /\ t <> Spsc.head_ (ring s) /\
                  x = Spsc.buffer_ (ring s) !!! Z.to_nat t
  end.

Definition inv (s : state) : Prop :=
  ring_ok s /\ producer_ok s /\ exists c, cons_ s = [c] /\ consumer_ok s c.

(** Writing the slot at [head_] while the ring is not full changes nothing represented. *)
Lemma write_represents (r : Ring) (q : list T) tc (x : T) :
  Spsc.represents log_capacity r q tc -> next_index (Spsc.head_ r) <> Spsc.tail_ r ->
  let r' : Ring := mkRing (<[Z.to_nat (Spsc.head_ r) := x]> (Spsc.buffer_ r)) (Spsc.head_ r) (Spsc.tail_ r) in
  Spsc.represents log_capacity r' q tc /\
  Spsc.buffer_ r' !! Z.to_nat (Spsc.head_ r) = Some x.
Proof.
  intros Hr Hne. pose proof (Spsc.full_test _ log_capacity_range r q tc Hr) as Hf.
  pose proof (Spsc.push_represents _ log_capacity_range x r q tc Hr) as Hp.
  unfold Spsc.push, Spsc.fifo_push in Hp.
  rewrite (proj2 (Z.eqb_neq _ _) Hne) in Hf, Hp.
  destruct (Z.ltb_spec (zlen q) (Spsc.slots log_capacity)); [|done].
  destruct Hp as (_ & Htc & Hlen & Ht & Hh & Hq & Hb).
  destruct Hr as (_ & Hlen0 & Ht0 & Hh0 & Hq0 & Hb0). simpl in *.
  split.
  - unfold Spsc.represents. simpl. repeat split; try done.
    intros i y Hi. apply Hb. by apply lookup_app_l_Some.
  - rewrite Hh0. replace (tc + zlen q) with (tc + Z.of_nat (length q)) by done.
    rewrite Hh0 in Hb. apply (Hb (length q) x). by apply list_lookup_middle.
Qed.

Lemma store_represents (r : Ring) (q : list T) tc (x : T) :
  Spsc.represents log_capacity r q tc -> next_index (Spsc.head_ r) <> Spsc.tail_ r ->
  Spsc.buffer_ r !! Z.to_nat (Spsc.head_ r) = Some x ->
  Spsc.represents log_capacity
    (mkRing (Spsc.buffer_ r) (next_index (Spsc.head_ r)) (Spsc.tail_ r)) (q ++ [x]) tc.
Proof.
  intros Hr Hne Hx. pose proof (Spsc.full_test _ log_capacity_range r q tc Hr) as Hf.
  pose proof (Spsc.push_represents _ log_capacity_range x r q tc Hr) as Hp.
  unfold Spsc.push, Spsc.fifo_push in Hp. rewrite (proj2 (Z.eqb_neq _ _) Hne) in Hf, Hp.
  destruct (Z.ltb_spec (zlen q) (Spsc.slots log_capacity)); [|done].
  destruct Hp as [_ Hp]. by rewrite list_insert_id in Hp.
Qed.

Lemma ring_indices_range (r : Ring) (q : list T) tc :
  Spsc.represents log_capacity r q tc ->
  0 <= Spsc.head_ r < Capacity /\ 0 <= Spsc.tail_ r < Capacity.
Proof.
  intros (_ & _ & -> & -> & _). split; by apply Spsc.slot_range.
Qed.

Lemma next_index_inj a b :
  0 <= a < Capacity -> 0 <= b < Capacity -> next_index a = next_index b -> a = b.
Proof.
  intros Ha Hb He.
  rewrite <- (Z.mod_small a Capacity), <- (Z.mod_small b Capacity) in He by done.
  rewrite !Spsc.next_index_mod in He by (done || lia).
  apply Spsc.slot_inj in He; [lia|done|lia].
Qed.

Lemma taken_length (ps qs : list T) : qs = take (length qs) ps -> (length qs <= length ps)%nat.
Proof. intros H1. apply (f_equal length) in H1. rewrite length_take in H1. lia. Qed.

Lemma spsc_inv_initial : inv (initial 1).
Proof.
  split; [split; [apply Spsc.new_ring_represents; done|done]|]. split; [done|]. by exists CIdle.
Qed.

(** The two steps of the threads that change the sequence of items. *)
Lemma popped_next (r : Ring) (ps qs : list T) :
  Spsc.represents log_capacity r (drop (length qs) ps) (zlen qs) ->
  qs = take (length qs) ps -> Spsc.tail_ r <> Spsc.head_ r ->
  let x := Spsc.buffer_ r !!! Z.to_nat (Spsc.tail_ r) in
  Spsc.represents log_capacity (mkRing (Spsc.buffer_ r) (Spsc.head_ r) (next_index (Spsc.tail_ r)))
    (drop (length (qs ++ [x])) ps) (zlen (qs ++ [x])) /\
  qs ++ [x] = take (length (qs ++ [x])) ps.
Proof.
  intros Hr Hq Hne x. pose proof (Spsc.empty_test _ log_capacity_range r _ _ Hr) as He.
  rewrite (proj2 (Z.eqb_neq _ _) Hne) in He. symmetry in He. apply bool_decide_eq_false in He.
  destruct (drop (length qs) ps) as [|y q'] eqn:Hd; [done|].
  assert (Hx : x = y) by (by eapply Spsc.represents_lookup). rewrite Hx.
  assert (Hps : ps = qs ++ y :: q') by (rewrite Hq at 1; by rewrite <- Hd, take_drop).
  assert (Hps' : ps = (qs ++ [y]) ++ q') by (by rewrite <- app_assoc).
  rewrite Hps' at 1 2. rewrite drop_app_length, take_app_length, zlen_app. split; [|done].
  by eapply Spsc.represents_tail.
Qed.

Lemma spsc_inv_step s s' : inv s -> step s s' -> inv s'.
Proof.
  intros ([Hr Hpop] & Hp & c & Hcs & Hc) Hstep.
  destruct Hstep; simpl in *; subst;
    repeat match goal with
    | H : [_] !! ?i = Some _ |- _ => apply list_lookup_singleton_Some in H as [-> ->]
    end; unfold inv, ring_ok, producer_ok; simpl in *.
  all: try by (split; [done|]; split; [try done|eexists; by split]).
  - destruct Hp as (-> & -> & Hne).
    destruct (write_represents _ _ _ x Hr Hne) as [Hr' Hx]. destruct (ring_indices_range _ _ _ Hr).
    split; [done|]. split; [done|]. exists c. split; [done|].
    destruct c; simpl in *; try done. destruct Hc as (-> & Hth & ->).
    split_and!; try done. rewrite list_lookup_total_insert_ne; [done|]. lia.
  - destruct Hp as (-> & -> & Hne & Hx). pose proof (taken_length _ _ Hpop) as Hlen.
    split.
    { rewrite drop_app_le, take_app_le by done. split; [by apply store_represents|done]. }
    split; [done|]. exists c. split; [done|]. destruct c; simpl in *; naive_solver.
  - destruct Hc as [-> Hth]. split; [done|]. split; [done|]. by eexists.
  - destruct Hc as (-> & Hth & ->). destruct (ring_indices_range _ _ _ Hr) as [Hhr Htr].
    split; [by apply popped_next|]. split; [|by eexists].
    assert (Hni : next_index (Spsc.head_ r) <> next_index (Spsc.tail_ r))
      by (intros He; apply next_index_inj in He; done).
    destruct p as [|y h|y h n|y h n]; [exact I|exact Hp| |].
    + destruct Hp as (-> & -> & _). exact (conj eq_refl (conj eq_refl Hni)).
    + destruct Hp as (-> & -> & _ & Hy).
      exact (conj eq_refl (conj eq_refl (conj Hni Hy))).
Qed.

(** C16: under every interleaving of one producer and one consumer, the items returned are a
    prefix of the items pushed (no loss, no duplication, no reordering), at most
    [Capacity - 1] items are in flight, and the slot being written is never the slot being
    read. *)
Theorem spsc_interleaved_fifo s :
  rtc step (initial 1) s ->
  popped s `prefix_of` pushed s /\
  zlen (pushed s) - zlen (popped s) < Capacity /\ ~ slot_race s.
Proof.
  intros Hs. pose proof (rtc_invariant step inv spsc_inv_step _ _ Hs spsc_inv_initial) as
    ([Hr Hpop] & Hp & c & Hcs & Hc).
  pose proof (taken_length _ _ Hpop) as Hlen.
  split; [|split].
  - exists (drop (length (popped s)) (pushed s)). rewrite Hpop at 1. by rewrite take_drop.
  - destruct Hr as (_ & _ & _ & _ & Hq & _). unfold Spsc.slots in Hq. unfold zlen in *.
    rewrite length_drop in Hq. lia.
  - intros (i & c' & a & Hi & Ha & Hpa). rewrite Hcs in Hi.
    apply list_lookup_singleton_Some in Hi as [-> ->].
    unfold producer_ok in Hp. destruct (prod s), c'; simplify_eq/=. naive_solver.
Qed.

(** With a second popping thread - the producer itself makes room with [pop] when the
    overflow policy is DROP_OLD - one pushed item is returned twice. *)
Theorem second_consumer_duplicates x :
  1 <= log_capacity ->
  exists s, rtc step (initial 2) s /\ pushed s = [x] /\ popped s = [x; x].
Proof.
  intros H1.
  assert (Hcap : 1 < Capacity) by (unfold Spsc.Capacity; apply Z.pow_gt_1; lia).
  assert (Hn : next_index 0 = 1).
  { pose proof (Spsc.next_index_mod log_capacity log_capacity_range 0 ltac:(lia)) as Hm.
    by rewrite !Z.mod_small in Hm by lia. }
  assert (Hx : Spsc.buffer_ (mkRing (<[Z.to_nat 0 := x]> (replicate (Z.to_nat Capacity) inhabitant))
                               1 0) !!! Z.to_nat 0 = x)
    by (apply list_lookup_total_insert_eq; rewrite length_replicate; lia).
  eexists. split.
  - do 2 (eapply rtc_l; [first [apply (push_load_head x)|apply push_not_full; simpl; lia]|]).
    eapply rtc_l; [apply push_write|]. eapply rtc_l; [apply push_store|]. simpl. rewrite Hn.
    eapply rtc_l; [by apply (pop_load_tail 0)|]. eapply rtc_l; [by apply (pop_load_tail 1)|]. simpl.
    eapply rtc_l; [by apply (pop_not_empty 0 0)|]. eapply rtc_l; [by apply (pop_not_empty 1 0)|]. simpl.
    eapply rtc_l; [by apply (pop_read 0 0)|]. eapply rtc_l; [by apply (pop_read 1 0)|].
    rewrite Hx. simpl.
    eapply rtc_l; [by apply (pop_store 0 x 0)|]. simpl. apply rtc_once. by apply (pop_store 1 x 0).
  - done.
Qed.

End Conc.
End SpscConc.

(** ** Concrete runs: the 16384-slot ring of the event bus *)

#[local] Instance Z_inhabited : Inhabited Z := populate 0.

Lemma spsc_refines_fifo_witness :
  0 <= 14 < 63 /\
  (Spsc.run (Spsc.ring_op 14) [Spsc.Push 5; Spsc.Size; Spsc.Pop; Spsc.Pop] (Spsc.new_ring 14)).1
  = [Spsc.Pushed true; Spsc.Sized 1; Spsc.Popped (Some 5); Spsc.Popped None].
Proof.
  split; [lia|].
  exact (Spsc.spsc_refines_fifo 14 ltac:(lia) [Spsc.Push 5; Spsc.Size; Spsc.Pop; Spsc.Pop]).
Defined.

Lemma spsc_interleaved_fifo_witness :
  exists s : @SpscConc.state Z, rtc (SpscConc.step 14) (SpscConc.initial 14 1) s /\
    SpscConc.popped s `prefix_of` SpscConc.pushed s.
Proof.
  eexists. split; [eapply rtc_once, (SpscConc.push_load_head 14 7)|].
  apply (SpscConc.spsc_interleaved_fifo 14 ltac:(lia) _
           (rtc_once _ _ (SpscConc.push_load_head 14 7 _ _ _ _))).
Defined.

Lemma second_consumer_duplicates_witness :
  exists s : @SpscConc.state Z, rtc (SpscConc.step 14) (SpscConc.initial 14 2) s /\
    SpscConc.popped s = [7; 7].
Proof.
  destruct (SpscConc.second_consumer_duplicates 14 ltac:(lia) 7 ltac:(lia)) as (s & Hr & _ & Hp).
  by exists s.
Defined.
