(* ===== verification/Mpsc.v ===== *)
(** * The multi-producer single-consumer queue: [include/eventstream/core/queues/mpsc.hpp]

    Module [Mpsc]: Vyukov's linked queue as steps of any number of producers and
    one consumer over a heap of nodes that are allocated and freed.  The order of
    the items is the order of the exchanges on [tail_].  The theorems: memory
    safety and FIFO order under every interleaving, completeness once producers
    are idle, the bound on the capacity overshoot, and the wrap of [size_] that
    makes [push] refuse an item on an empty queue. *)

From S2P Require Import Prelude.

Module Mpsc.
Section Queue.
Context {T : Type} `{Inhabited T}.
Variable Capacity : Z.

Abbreviation loc := positive.

Record Node := mkNode { data : T; next : option loc }.

(** [Node()]: the dummy. *)
Definition dummy_node : Node := mkNode inhabitant None.

(** Where a producer is in [push]. *)
Inductive producer :=
| PIdle
| PExchange (node : loc)              (* node allocated *)
| PLink (prev node : loc)             (* tail_ exchanged: about to store prev->next *)
| PCount.                             (* linked: about to increment size_ *)

(** Where the consumer is in [pop]. *)
Inductive consumer :=
| CIdle
| CTake (head node : loc)             (* next loaded, not null *)
| CDelete (head : loc)                (* head_ moved: about to delete the old dummy *)
| CCount.                             (* about to decrement size_ *)

(** The shared memory and the threads; [chain] lists the nodes from [head_] to
    [tail_] in exchange order, [pushed] the items exchanged, [popped] those taken. *)
Record state := mkState {
  nodes : gmap loc Node;
  head_ : loc;
  tail_ : loc;
  size_ : Z;
  prods : list producer;
  cons_ : consumer;
  chain : list loc;
  pushed : list T;
  popped : list T;
  counted : Z;
  discounted : Z
}.

Definition initial (producers : nat) : state :=
  mkState {[1%positive := dummy_node]} 1 1 0 (replicate producers PIdle) CIdle [1%positive] [] [] 0 0.

(** [pop]'s first two loads: the result is [nullopt] when the link is null. *)
Definition head_next (s : state) : option loc := nodes s !! head_ s ≫= next.

(** [push]'s admission test. *)
Definition admits (s : state) : bool := size_ s <? Capacity.

Inductive step : state -> state -> Prop :=
| push_refused t s :
    prods s !! t = Some PIdle -> admits s = false -> step s s
| push_alloc t n x s :
    prods s !! t = Some PIdle -> admits s = true -> nodes s !! n = None ->
    step s (mkState (<[n := mkNode x None]> (nodes s)) (head_ s) (tail_ s) (size_ s)
              (<[t := PExchange n]> (prods s)) (cons_ s) (chain s) (pushed s) (popped s)
              (counted s) (discounted s))
| push_exchange t n nd s :
    prods s !! t = Some (PExchange n) -> nodes s !! n = Some nd ->
    step s (mkState (nodes s) (head_ s) n (size_ s)
              (<[t := PLink (tail_ s) n]> (prods s)) (cons_ s) (chain s ++ [n])
              (pushed s ++ [data nd]) (popped s) (counted s) (discounted s))
| push_link t prev n nd s :
    prods s !! t = Some (PLink prev n) -> nodes s !! prev = Some nd ->
    step s (mkState (<[prev := mkNode (data nd) (Some n)]> (nodes s)) (head_ s) (tail_ s) (size_ s)
              (<[t := PCount]> (prods s)) (cons_ s) (chain s) (pushed s) (popped s)
              (counted s) (discounted s))
| push_count t s :
    prods s !! t = Some PCount ->
    step s (mkState (nodes s) (head_ s) (tail_ s) (add64 (size_ s) 1)
              (<[t := PIdle]> (prods s)) (cons_ s) (chain s) (pushed s) (popped s)
              (counted s + 1) (discounted s))
| pop_empty s :
    cons_ s = CIdle -> head_next s = None -> step s s
| pop_load n s :
    cons_ s = CIdle -> head_next s = Some n ->
    step s (mkState (nodes s) (head_ s) (tail_ s) (size_ s) (prods s) (CTake (head_ s) n)
              (chain s) (pushed s) (popped s) (counted s) (discounted s))
| pop_take h n nd s :
    cons_ s = CTake h n -> nodes s !! n = Some nd ->
    step s (mkState (nodes s) n (tail_ s) (size_ s) (prods s) (CDelete h)
              (tail (chain s)) (pushed s) (popped s ++ [data nd]) (counted s) (discounted s))
| pop_delete h s :
    cons_ s = CDelete h ->
    step s (mkState (delete h (nodes s)) (head_ s) (tail_ s) (size_ s) (prods s) CCount
              (chain s) (pushed s) (popped s) (counted s) (discounted s))
| pop_count s :
    cons_ s = CCount ->
    step s (mkState (nodes s) (head_ s) (tail_ s) (sub64 (size_ s) 1) (prods s) CIdle
              (chain s) (pushed s) (popped s) (counted s) (discounted s + 1)).

(** The addresses a thread's next step dereferences. *)
Definition prod_derefs (p : producer) : list loc :=
  match p with PLink prev _ => [prev] | PExchange n => [n] | _ => [] end.
Definition cons_derefs (s : state) : list loc :=
  match cons_ s with
  | CIdle => [head_ s] | CTake _ n => [n] | CDelete h => [h] | CCount => []
  end.

(** The destructor, when no call is under way: [pop] until it returns [nullopt] - the item goes with
    its node, [size_] no one reads any more - then the dummy is deleted.  Reading or deleting a
    freed node is undefined. *)
Fixpoint drain (fuel : nat) (ns : gmap loc Node) (head : loc) : outcome (gmap loc Node * loc) :=
  match fuel with
  | O => UB
  | S fuel' =>
      match ns !! head with
      | None => UB
      | Some hd =>
          match next hd with
          | None => Ret (ns, head)
          | Some n => if decide (is_Some (ns !! n)) then drain fuel' (delete head ns) n else UB
          end
      end
  end.

Definition destroy (s : state) : outcome (gmap loc Node) :=
  '(ns, head) ← drain (length (chain s)) (nodes s) (head_ s);
  if decide (is_Some (ns !! head)) then Ret (delete head ns) else UB.

Definition no_use_after_free (s : state) : Prop :=
  (forall t p a, prods s !! t = Some p -> a ∈ prod_derefs p -> is_Some (nodes s !! a)) /\
  (forall a, a ∈ cons_derefs s -> is_Some (nodes s !! a)).

(** ** The invariant *)

Definition holds (ns : gmap loc Node) (a : loc) (x : T) : Prop :=
  exists nd, ns !! a = Some nd /\ data nd = x.

Record inv (s : state) : Prop := {
  i_nodup : NoDup (chain s);
  i_head : chain s !! 0%nat = Some (head_ s);
  i_tail : last (chain s) = Some (tail_ s);
  i_live : forall i a, chain s !! i = Some a -> exists nd, nodes s !! a = Some nd /\
             (next nd = chain s !! S i \/
              (next nd = None /\ exists t b, chain s !! S i = Some b /\
                                             prods s !! t = Some (PLink a b)));
  i_link : forall t a b, prods s !! t = Some (PLink a b) -> exists i nd,
             chain s !! i = Some a /\ chain s !! S i = Some b /\
             nodes s !! a = Some nd /\ next nd = None;
  i_link_uniq : forall t t' a b b', prods s !! t = Some (PLink a b) ->
             prods s !! t' = Some (PLink a b') -> t = t';
  i_fresh : forall t n, prods s !! t = Some (PExchange n) -> (n ∉ chain s) /\
             exists nd, nodes s !! n = Some nd /\ next nd = None;
  i_fresh_uniq : forall t t' n, prods s !! t = Some (PExchange n) ->
             prods s !! t' = Some (PExchange n) -> t = t';
  i_items : exists rest, pushed s = popped s ++ rest /\
             Forall2 (holds (nodes s)) (tail (chain s)) rest;
  i_cons : match cons_ s with
           | CIdle | CCount => True
           | CTake h b => h = head_ s /\ head_next s = Some b
           | CDelete o => (o ∉ chain s) /\ is_Some (nodes s !! o) /\
                          forall t, prods s !! t <> Some (PExchange o)
           end
}.

Lemma mpsc_inv_initial k : inv (initial k).
Proof.
  split; simpl; try done.
  - apply NoDup_singleton.
  - intros [|i] a Ha; simplify_eq/=. exists dummy_node. by rewrite lookup_singleton_eq; auto.
  - intros t a b [? _]%lookup_replicate; simplify_eq.
  - intros t t' a b b' [? _]%lookup_replicate; simplify_eq.
  - intros t n [? _]%lookup_replicate; simplify_eq.
  - intros t t' n [? _]%lookup_replicate; simplify_eq.
  - exists []. by split.
Qed.

(** A chain position is determined by its node. *)
Lemma chain_pos (l : list loc) i j a :
  NoDup l -> l !! i = Some a -> l !! j = Some a -> i = j.
Proof. intros Hn Hi Hj. by eapply NoDup_lookup. Qed.

Lemma last_pos (l : list loc) i a :
  NoDup l -> last l = Some a -> l !! i = Some a -> l !! S i = None.
Proof.
  intros Hn Hl Hi. rewrite last_lookup in Hl.
  pose proof (chain_pos _ _ _ _ Hn Hi Hl) as ->. apply lookup_ge_None.
  pose proof (lookup_lt_Some _ _ _ Hi). lia.
Qed.

Lemma insert_lookup_cases (l : list producer) t t' p q :
  <[t := p]> l !! t' = Some q -> (t' = t /\ q = p) \/ (t' <> t /\ l !! t' = Some q).
Proof.
  intros Hl. apply list_lookup_insert_Some in Hl as [(-> & -> & _)|[? ?]]; [by left|right; auto].
Qed.

Lemma holds_mono ns ns' l xs :
  (forall a, a ∈ l -> forall nd, ns !! a = Some nd -> exists nd', ns' !! a = Some nd' /\ data nd' = data nd) ->
  Forall2 (holds ns) l xs -> Forall2 (holds ns') l xs.
Proof.
  intros Hm Hf. induction Hf as [|a x l xs (nd & Hnd & Hx) Hf IH]; constructor.
  - destruct (Hm a ltac:(left) nd Hnd) as (nd' & Hnd' & Hd). exists nd'. split; [done|congruence].
  - apply IH. intros b Hb. apply Hm. by right.
Qed.

Ltac prod_cases :=
  repeat match goal with
  | Hl : <[_ := _]> _ !! _ = Some _ |- _ =>
      apply insert_lookup_cases in Hl as [[-> ?]|[? Hl]]; simplify_eq
  end.

(** Changing only counters, or a producer that holds no node, keeps the invariant. *)
Lemma inv_same s s' :
  nodes s' = nodes s -> head_ s' = head_ s -> tail_ s' = tail_ s -> chain s' = chain s ->
  pushed s' = pushed s -> popped s' = popped s ->
  (forall t p, prod_derefs p <> [] -> prods s' !! t = Some p <-> prods s !! t = Some p) ->
  match cons_ s' with
  | CIdle | CCount => True
  | CTake h b => h = head_ s /\ head_next s = Some b
  | CDelete o => (o ∉ chain s) /\ is_Some (nodes s !! o) /\
                 forall t, prods s !! t <> Some (PExchange o)
  end -> inv s -> inv s'.
Proof.
  intros Hn Hh Ht Hc Hpu Hpo Hp Hcons Hi.
  assert (Hhn : head_next s' = head_next s) by (unfold head_next; by rewrite Hn, Hh).
  assert (HpL : forall t a b, prods s' !! t = Some (PLink a b) <-> prods s !! t = Some (PLink a b))
    by (intros; apply Hp; done).
  assert (HpE : forall t a, prods s' !! t = Some (PExchange a) <-> prods s !! t = Some (PExchange a))
    by (intros; apply Hp; done).
  destruct Hi. split; rewrite ?Hhn, ?Hn, ?Hh, ?Ht, ?Hc, ?Hpu, ?Hpo; try done.
  - intros i a Ha. destruct (i_live0 i a Ha) as (nd & Hnd & Hx). exists nd. split; [done|].
    destruct Hx as [Hx|(Hx & t & b & Hb & Hl)]; [by left|right].
    split; [done|]. exists t, b. by rewrite HpL.
  - intros t a b. rewrite HpL. apply i_link0.
  - intros t t' a b b'. rewrite !HpL. apply i_link_uniq0.
  - intros t n. rewrite HpE. apply i_fresh0.
  - intros t t' n. rewrite !HpE. apply i_fresh_uniq0.
  - destruct (cons_ s'); try done. by setoid_rewrite HpE.
Qed.

Lemma inv_alloc t n x s :
  prods s !! t = Some PIdle -> nodes s !! n = None -> inv s ->
  inv (mkState (<[n := mkNode x None]> (nodes s)) (head_ s) (tail_ s) (size_ s)
         (<[t := PExchange n]> (prods s)) (cons_ s) (chain s) (pushed s) (popped s)
         (counted s) (discounted s)).
Proof.
  intros Ht Hn Hi. pose proof Hi as Hi'. destruct Hi as [Hnd Hh Htl Hlive Hlink Hlu Hf Hfu Hit Hc].
  assert (Hfresh : forall i a, chain s !! i = Some a -> a <> n).
  { intros i a Ha ->. destruct (Hlive i n Ha) as (nd & Hx & _). congruence. }
  split; simpl; try done.
  - intros i a Ha. destruct (Hlive i a Ha) as (nd & Hx & Hnx). exists nd.
    rewrite lookup_insert_ne by (apply not_eq_sym; eauto). split; [done|].
    destruct Hnx as [Hnx|(Hnx & t' & b & Hb & Hl)]; [by left|right]. split; [done|].
    exists t', b. split; [done|]. rewrite list_lookup_insert_ne; [done|]. congruence.
  - intros t' a b Hl. prod_cases. destruct (Hlink t' a b Hl) as (i & nd & Ha & Hb & Hx & Hnx).
    exists i, nd. rewrite lookup_insert_ne by (apply not_eq_sym; eauto). done.
  - intros t1 t2 a b b' H1 H2. prod_cases. by eapply Hlu.
  - intros t' m Hm. prod_cases.
    + split; [|exists (mkNode x None); by rewrite lookup_insert_eq].
      intros [i Hin]%list_elem_of_lookup. by apply (Hfresh i n).
    + destruct (Hf t' m Hm) as (Hm1 & nd & Hm2 & Hm3). split; [done|]. exists nd.
      rewrite lookup_insert_ne; [done|]. congruence.
  - intros t1 t2 m H1 H2. prod_cases; try done; try (by eapply Hfu);
      match goal with
      | Hx : prods s !! _ = Some (PExchange n) |- _ =>
          destruct (Hf _ _ Hx) as (_ & nd & Hy & _); congruence
      end.
  - destruct Hit as (rest & Hrest & Hall). exists rest. split; [done|].
    eapply holds_mono; [|exact Hall]. intros a _ nd Ha. exists nd.
    rewrite lookup_insert_ne; [done|]. congruence.
  - assert (Hn0 : n <> head_ s) by (apply not_eq_sym; eauto).
    destruct (cons_ s); try done.
    { unfold head_next in *. simpl. by rewrite lookup_insert_ne. }
    destruct Hc as (Ho1 & [nd Ho2] & Ho3). split; [done|].
    assert (n <> head) by congruence. rewrite lookup_insert_ne by done. split; [by eexists|].
    intros t' Hx. prod_cases. by eapply Ho3.
Qed.

(** The nodes of the chain after an exchange on [tail_]. *)
Lemma exchange_live t n nd s i a :
  inv s -> prods s !! t = Some (PExchange n) -> nodes s !! n = Some nd -> next nd = None ->
  (chain s ++ [n]) !! i = Some a ->
  exists nd', nodes s !! a = Some nd' /\
    (next nd' = (chain s ++ [n]) !! S i \/
     (next nd' = None /\ exists t' b, (chain s ++ [n]) !! S i = Some b /\
                                      <[t := PLink (tail_ s) n]> (prods s) !! t' = Some (PLink a b))).
Proof.
  intros Hi Ht Hn Hnn [Ha|[Hle [Hi0 <-]%list_lookup_singleton_Some]]%lookup_app_Some.
  - destruct (i_live _ Hi i a Ha) as (nd' & Hnd' & Hx). exists nd'. split; [done|].
    destruct Hx as [Hx|(Hx & t' & b & Hb & Hl)].
    + destruct (next nd') as [b|] eqn:Eb; [left; symmetry; apply lookup_app_l_Some; congruence|].
      right. split; [done|]. pose proof (i_tail _ Hi) as Htl. rewrite last_lookup in Htl.
      assert (length (chain s) = S i) as Hlen.
      { symmetry in Hx. apply lookup_ge_None in Hx. pose proof (lookup_lt_Some _ _ _ Ha). lia. }
      exists t, n. rewrite <- Hlen, lookup_app_r, Nat.sub_diag by lia. split; [done|].
      rewrite Hlen in Htl. cbn [pred] in Htl. simplify_eq.
      by apply list_lookup_insert_eq; eapply lookup_lt_Some.
    + right. split; [done|]. exists t', b. split; [by apply lookup_app_l_Some|].
      rewrite list_lookup_insert_ne; [done|]. congruence.
  - exists nd. split; [done|]. left. rewrite Hnn. symmetry. apply lookup_ge_None.
    rewrite length_app. simpl. lia.
Qed.

Lemma inv_exchange t n nd s :
  prods s !! t = Some (PExchange n) -> nodes s !! n = Some nd -> inv s ->
  inv (mkState (nodes s) (head_ s) n (size_ s)
         (<[t := PLink (tail_ s) n]> (prods s)) (cons_ s) (chain s ++ [n])
         (pushed s ++ [data nd]) (popped s) (counted s) (discounted s)).
Proof.
  intros Ht Hn Hinv. pose proof Hinv as [Hnd Hh Htl Hlive Hlink Hlu Hf Hfu Hit Hc].
  destruct (Hf t n Ht) as (Hnin & nd' & Hn' & Hnn). assert (nd' = nd) as -> by congruence.
  rewrite last_lookup in Htl. set (k := pred (length (chain s))) in *.
  assert (Hlen : length (chain s) = S k).
  { pose proof (lookup_lt_Some _ _ _ Htl). unfold k in *. lia. }
  assert (HSk : chain s !! S k = None) by (apply lookup_ge_None; lia).
  assert (Hold : forall i a, chain s !! i = Some a -> (chain s ++ [n]) !! i = Some a)
    by (intros; by apply lookup_app_l_Some).
  destruct (Hlive k _ Htl) as (tnd & Htn & [Htx|(_ & ? & ? & ? & _)]); [|congruence].
  assert (Hnolink : forall t' b, prods s !! t' <> Some (PLink (tail_ s) b)).
  { intros t' b Hb. destruct (Hlink _ _ _ Hb) as (i & ? & Hia & Hib & _).
    pose proof (chain_pos _ _ _ _ Hnd Hia Htl) as ->. congruence. }
  split; simpl.
  - apply NoDup_app. split; [done|]. split; [|apply NoDup_singleton].
    intros a Ha ->%list_elem_of_singleton. done.
  - by apply Hold.
  - by rewrite last_snoc.
  - intros i a Ha. by apply (exchange_live t n nd).
  - intros t' a b Hl. prod_cases.
    + exists k, tnd. split; [by apply Hold|].
      rewrite <- Hlen, lookup_app_r, Nat.sub_diag by lia. split; [done|]. split; [done|congruence].
    + destruct (Hlink t' a b Hl) as (i & and & Ha & Hb & Hx & Hnx). exists i, and. auto.
  - intros t1 t2 a b b' H1 H2. prod_cases; try done; try (by exfalso; eapply Hnolink).
    by eapply Hlu.
  - intros t' m Hm. prod_cases. destruct (Hf t' m Hm) as (Hm1 & Hm2). split; [|done].
    rewrite elem_of_app, list_elem_of_singleton. intros [| ->]; [done|].
    assert (t' = t) by (by eapply Hfu). done.
  - intros t1 t2 m H1 H2. prod_cases. by eapply Hfu.
  - destruct Hit as (rest & Hrest & Hall). exists (rest ++ [data nd]).
    rewrite Hrest, <- app_assoc. split; [done|].
    destruct (chain s) as [|c0 ch] eqn:Ec; [done|]. simpl in *.
    apply Forall2_app; [done|]. repeat constructor. by exists nd.
  - destruct (cons_ s); try done.
    destruct Hc as (Ho1 & Ho2 & Ho3). split_and!; [|done|].
    + rewrite elem_of_app, list_elem_of_singleton. intros [| ->]; [done|]. by apply (Ho3 t).
    + intros t' Hx. prod_cases. by apply (Ho3 t').
Qed.

Lemma inv_link t prev n nd s :
  prods s !! t = Some (PLink prev n) -> nodes s !! prev = Some nd -> inv s ->
  inv (mkState (<[prev := mkNode (data nd) (Some n)]> (nodes s)) (head_ s) (tail_ s) (size_ s)
         (<[t := PCount]> (prods s)) (cons_ s) (chain s) (pushed s) (popped s)
         (counted s) (discounted s)).
Proof.
  intros Ht Hn [Hnd Hh Htl Hlive Hlink Hlu Hf Hfu Hit Hc].
  destruct (Hlink t prev n Ht) as (i & nd' & Hi & HSi & Hn' & Hnn).
  assert (nd' = nd) as -> by congruence.
  split; simpl; try done.
  - intros j a Ha. destruct (decide (a = prev)) as [->|Hne].
    + pose proof (chain_pos _ _ _ _ Hnd Ha Hi) as ->. eexists. rewrite lookup_insert_eq.
      split; [done|]. by left.
    + destruct (Hlive j a Ha) as (and & Hand & Hx). exists and. rewrite lookup_insert_ne by done.
      split; [done|]. destruct Hx as [Hx|(Hx & t' & b & Hb & Hl)]; [by left|right].
      split; [done|]. exists t', b. split; [done|]. rewrite list_lookup_insert_ne; [done|]. congruence.
  - intros t' a b Hl. prod_cases. destruct (Hlink t' a b Hl) as (j & and & Ha & Hb & Hx & Hnx).
    exists j, and. rewrite lookup_insert_ne; [done|]. intros <-. by eapply H0, Hlu.
  - intros t1 t2 a b b' H1 H2. prod_cases. by eapply Hlu.
  - intros t' m Hm. prod_cases. destruct (Hf t' m Hm) as (Hm1 & mnd & Hm2). split; [done|].
    exists mnd. rewrite lookup_insert_ne; [done|]. intros <-. apply Hm1.
    by eapply list_elem_of_lookup_2.
  - intros t1 t2 m H1 H2. prod_cases. by eapply Hfu.
  - destruct Hit as (rest & Hrest & Hall). exists rest. split; [done|].
    eapply holds_mono; [|exact Hall]. intros a _ and Ha.
    destruct (decide (a = prev)) as [->|]; [|exists and; by rewrite lookup_insert_ne].
    eexists. rewrite lookup_insert_eq. split; [done|]. simpl. congruence.
  - destruct (cons_ s); try done.
    + unfold head_next in *. simpl. destruct Hc as [-> Hx]. split; [done|].
      rewrite lookup_insert_ne; [done|]. intros ->. rewrite Hn in Hx. simpl in Hx. congruence.
    + destruct Hc as (Ho1 & Ho2 & Ho3). split_and!; [done| |].
      * apply lookup_insert_is_Some. destruct (decide (prev = head)); auto.
      * intros t' Hx. prod_cases. by apply (Ho3 t').
Qed.

Lemma inv_take h n nd s :
  cons_ s = CTake h n -> nodes s !! n = Some nd -> inv s ->
  inv (mkState (nodes s) n (tail_ s) (size_ s) (prods s) (CDelete h)
         (tail (chain s)) (pushed s) (popped s ++ [data nd]) (counted s) (discounted s)).
Proof.
  intros Hcs Hn [Hnd Hh Htl Hlive Hlink Hlu Hf Hfu Hit Hc]. rewrite Hcs in Hc.
  destruct Hc as [-> Hhn]. unfold head_next in Hhn.
  destruct (Hlive O _ Hh) as (hnd & Hhnd & Hx). rewrite Hhnd in Hhn. simpl in Hhn.
  destruct Hx as [Hx|(Hx & _)]; [|congruence]. rewrite Hhn in Hx. symmetry in Hx.
  destruct (chain s) as [|c0 [|c1 ch]] eqn:Ec; simplify_eq/=.
  pose proof Hnd as [Hnin Hnd']%NoDup_cons.
  split; simpl; try done.
  - intros i a Ha. by apply (Hlive (S i)).
  - intros t a b Hl. destruct (Hlink t a b Hl) as ([|i] & and & Ha & Hb & Hand & Hnx); simplify_eq/=.
    by exists i, and.
  - intros t m Hm. destruct (Hf t m Hm) as [Hm1 Hm2]. split; [|done].
    intros Hin. apply Hm1. by right.
  - destruct Hit as (rest & Hrest & Hall). inversion Hall as [|? x ? rest' (nd' & Hn' & Hd) Hall']. subst.
    exists rest'. split; [|done]. assert (nd' = nd) as -> by congruence.
    by rewrite Hrest, <- app_assoc.
  - split_and!; [done|by eexists|]. intros t Hm. destruct (Hf t _ Hm) as [Hm1 _]. apply Hm1. by left.
Qed.

Lemma mpsc_inv_delete h s :
  cons_ s = CDelete h -> inv s ->
  inv (mkState (delete h (nodes s)) (head_ s) (tail_ s) (size_ s) (prods s) CCount
         (chain s) (pushed s) (popped s) (counted s) (discounted s)).
Proof.
  intros Hcs [Hnd Hh Htl Hlive Hlink Hlu Hf Hfu Hit Hc]. rewrite Hcs in Hc.
  destruct Hc as (Ho1 & _ & Ho3).
  assert (Hne : forall i a, chain s !! i = Some a -> h <> a)
    by (intros i a Ha ->; apply Ho1; by eapply list_elem_of_lookup_2).
  split; simpl; try done.
  - intros i a Ha. rewrite lookup_delete_ne by eauto. by apply Hlive.
  - intros t a b Hl. destruct (Hlink t a b Hl) as (i & nd & Ha & Hb & Hx & Hnx). exists i, nd.
    rewrite lookup_delete_ne by eauto. done.
  - intros t n Hn. destruct (Hf t n Hn) as (Hn1 & nd & Hn2). split; [done|]. exists nd.
    rewrite lookup_delete_ne; [done|]. intros ->. by eapply Ho3.
  - destruct Hit as (rest & Hrest & Hall). exists rest. split; [done|].
    eapply holds_mono; [|exact Hall]. intros a [i Ha]%list_elem_of_lookup nd Hnda. exists nd.
    rewrite lookup_tail in Ha. rewrite lookup_delete_ne by eauto. done.
Qed.

Lemma mpsc_inv_step s s' : inv s -> step s s' -> inv s'.
Proof.
  intros Hi Hs. destruct Hs as [ | | | |t s Ht| |n s Hcs Hhn| | |s Hcs]; try done.
  - by apply inv_alloc.
  - by eapply inv_exchange.
  - by apply inv_link.
  - pose proof (i_cons _ Hi). apply (inv_same s); try done.
    intros t' p Hp. simpl. split.
    + intros Hl. prod_cases; done.
    + intros Hl. rewrite list_lookup_insert_ne; [done|]. intros ->.
      rewrite Ht in Hl. by simplify_eq.
  - by apply (inv_same s).
  - by apply inv_take.
  - by apply mpsc_inv_delete.
  - by apply (inv_same s).
Qed.

(** ** Properties *)

Lemma inv_reachable k s : rtc step (initial k) s -> inv s.
Proof. intros Hr. exact (rtc_invariant step inv mpsc_inv_step _ _ Hr (mpsc_inv_initial k)). Qed.

Lemma inv_safe s : inv s -> no_use_after_free s.
Proof.
  intros [Hnd Hh Htl Hlive Hlink Hlu Hf Hfu Hit Hc].
  destruct (Hlive O _ Hh) as (hnd & Hhnd & Hx). split.
  - intros t p a Ht Ha. destruct p as [|n|a' b|]; simpl in Ha;
      try (by apply not_elem_of_nil in Ha); apply list_elem_of_singleton in Ha as ->.
    + destruct (Hf t n Ht) as (_ & nd & Hn & _). by eexists.
    + destruct (Hlink t a' b Ht) as (i & nd & _ & _ & Hn & _). by eexists.
  - intros a Ha. unfold cons_derefs in Ha. destruct (cons_ s); simpl in Ha;
      try (by apply not_elem_of_nil in Ha); apply list_elem_of_singleton in Ha as ->.
    + by eexists.
    + destruct Hc as [_ Hhn]. unfold head_next in Hhn. rewrite Hhnd in Hhn. simpl in Hhn.
      destruct Hx as [Hx|(Hx & _)]; [|congruence]. rewrite Hhn in Hx.
      destruct (Hlive 1%nat node (eq_sym Hx)) as (nd & Hn & _). by eexists.
    + by destruct Hc as (_ & ? & _).
Qed.

(** ** No node is lost *)

(** Who will free a node: the chain, the producer that has not exchanged it yet, or the consumer
    that is about to delete it. *)
Definition kept (s : state) : Prop := forall a, is_Some (nodes s !! a) ->
  a ∈ chain s \/ (exists t, prods s !! t = Some (PExchange a)) \/ cons_ s = CDelete a.

Lemma kept_initial k : kept (initial k).
Proof.
  intros a [nd Ha]. cbn in Ha. left. apply lookup_singleton_Some in Ha as [<- _]. cbn. set_solver.
Qed.

(** A producer's new place gives up no node but the one it exchanged. *)
Lemma exchange_moves (l : list producer) t p q a :
  l !! t = Some p -> p <> PExchange a -> (exists t', l !! t' = Some (PExchange a)) ->
  exists t', <[t := q]> l !! t' = Some (PExchange a).
Proof.
  intros Ht Hp [t' H']. exists t'. rewrite list_lookup_insert_ne; [done|]. intros ->. congruence.
Qed.

Lemma mpsc_kept_step s s' : inv s -> kept s -> step s s' -> kept s'.
Proof.
  intros Hi Hk Hs. destruct Hs as [ |t n x s Ht ? Hn|t n nd s Ht|t prev n nd s Ht Hp|t s Ht|
    |n s Hc|h n nd s Hc|h s Hc|s Hc]; try done; intros a Ha; cbn in *.
  - destruct (decide (a = n)) as [->|Hne].
    + right; left. exists t. apply list_lookup_insert_eq. by eapply lookup_lt_Some.
    + rewrite lookup_insert_ne in Ha by done. destruct (Hk a Ha) as [?|[?|?]]; [by left| |by auto].
      right; left. by eapply exchange_moves.
  - rewrite elem_of_app, list_elem_of_singleton. destruct (Hk a Ha) as [?|[?|?]]; [by auto| |by auto].
    destruct (decide (a = n)) as [->|]; [by auto|]. right; left. eapply exchange_moves; [done|congruence|done].
  - assert (Ha' : is_Some (nodes s !! a)).
    { destruct (decide (a = prev)) as [->|]; [by eexists|]. by rewrite lookup_insert_ne in Ha. }
    destruct (Hk a Ha') as [?|[?|?]]; [by left| |by auto]. right; left. by eapply exchange_moves.
  - destruct (Hk a Ha) as [?|[?|?]]; [by left| |by auto]. right; left. by eapply exchange_moves.
  - destruct (Hk a Ha) as [?|[?|?]]; [by auto..|congruence].
  - pose proof (i_cons _ Hi) as Hcs. rewrite Hc in Hcs. destruct Hcs as [-> _]. pose proof (i_head _ Hi) as Hh.
    destruct (Hk a Ha) as [Hin|[?|?]]; [|by auto|congruence].
    destruct (chain s) as [|c0 ch]; [done|]. cbn in *. injection Hh as ->.
    apply elem_of_cons in Hin as [->|]; by auto.
  - rewrite lookup_delete_is_Some in Ha. destruct Ha as [Hne Ha].
    destruct (Hk a Ha) as [?|[?|?]]; [by auto..|congruence].
  - destruct (Hk a Ha) as [?|[?|?]]; [by auto..|congruence].
Qed.

Lemma kept_reachable k s : rtc step (initial k) s -> kept s.
Proof.
  intros Hr. refine (proj2 (rtc_invariant step (fun s => inv s /\ kept s) _ _ _ Hr _)).
  - intros x y [Hi Hk] Hs. split; [by eapply mpsc_inv_step|by eapply mpsc_kept_step].
  - split; [apply mpsc_inv_initial|apply kept_initial].
Qed.

(** The chain of a heap that holds nothing else is freed node by node. *)
Lemma drain_chain ch ns head :
  NoDup ch -> ch !! 0%nat = Some head ->
  (forall i a, ch !! i = Some a -> exists nd, ns !! a = Some nd /\ next nd = ch !! S i) ->
  (forall a, is_Some (ns !! a) -> a ∈ ch) ->
  exists l, drain (length ch) ns head = Ret ({[l.1 := l.2]}, l.1).
Proof.
  revert ns head. induction ch as [|c ch IH]; intros ns head Hnd Hh Hl Hk; [done|].
  injection Hh as <-. apply NoDup_cons in Hnd as [Hc Hnd].
  destruct (Hl 0%nat c eq_refl) as (nd & Hc0 & Hn). cbn [length drain]. rewrite Hc0, Hn. cbn [lookup list_lookup].
  destruct ch as [|c1 ch]; cbn [lookup list_lookup].
  - exists (c, nd). cbn [fst snd]. do 2 f_equal. apply map_eq. intros a.
    destruct (decide (a = c)) as [->|Hne]; [by rewrite lookup_singleton_eq, Hc0|].
    rewrite lookup_singleton_ne by done. apply eq_None_not_Some. intros Ha.
    apply Hk, list_elem_of_singleton in Ha. done.
  - destruct (Hl 1%nat c1 eq_refl) as (nd1 & Hc1 & _). rewrite decide_True by (by eexists).
    apply IH; [done|done| |].
    + intros i a Ha. destruct (Hl (S i) a Ha) as (nda & Hna & Hnx). exists nda.
      rewrite lookup_delete_ne; [done|]. intros ->. apply Hc. by eapply list_elem_of_lookup_2.
    + intros a [Hne Ha]%lookup_delete_is_Some. apply Hk in Ha. by apply elem_of_cons in Ha as [->|].
Qed.

Lemma destroy_frees s :
  inv s -> kept s -> (forall t p, prods s !! t = Some p -> p = PIdle) -> cons_ s = CIdle -> destroy s = Ret ∅.
Proof.
  intros Hi Hk Hidle Hc. destruct (drain_chain (chain s) (nodes s) (head_ s)) as (l & Hl).
  - apply (i_nodup _ Hi).
  - apply (i_head _ Hi).
  - intros i a Ha. destruct (i_live _ Hi i a Ha) as (nd & Hnd & [Hx|(_ & t & b & _ & Hx)]); [by exists nd|].
    by specialize (Hidle t _ Hx).
  - intros a Ha. destruct (Hk a Ha) as [?|[[t Ht]|?]]; [done| |congruence]. by specialize (Hidle t _ Ht).
  - unfold destroy. rewrite Hl. cbn [mbind outcome_bind]. rewrite decide_True by (rewrite lookup_singleton_eq; by eexists).
    f_equal. apply delete_singleton_eq.
Qed.

(** C15: under every interleaving of any number of producers with the consumer, the items
    returned are a prefix of the items in the order of the exchanges, no thread touches a freed
    node, and once every producer has returned the consumer sees an empty queue exactly when
    every item was returned; the destructor, run when no call is under way, frees every node that was
    ever allocated and not freed yet, each once, whatever is still queued. *)
Theorem mpsc_fifo_memory_safe k s :
  rtc step (initial k) s ->
  popped s `prefix_of` pushed s /\ no_use_after_free s /\
  ((forall t p, prods s !! t = Some p -> p = PIdle) ->
   (head_next s = None <-> popped s = pushed s) /\ (cons_ s = CIdle -> destroy s = Ret ∅)).
Proof.
  intros Hr. pose proof (inv_reachable k s Hr) as Hi.
  split; [|split; [by apply inv_safe|]].
  - destruct (i_items _ Hi) as (rest & -> & _). by exists rest.
  - intros Hidle. split; [|by apply destroy_frees; [|by eapply kept_reachable|]].
    destruct Hi as [Hnd Hh Htl Hlive Hlink Hlu Hf Hfu (rest & Hrest & Hall) Hc].
    destruct (Hlive O _ Hh) as (hnd & Hhnd & Hx). unfold head_next. rewrite Hhnd. simpl.
    destruct Hx as [->|(_ & t & b & _ & Hl)]; [|by specialize (Hidle t _ Hl)].
    rewrite Hrest. destruct (chain s) as [|c0 [|c1 ch]]; simplify_eq/=.
    + inversion Hall. by rewrite app_nil_r.
    + inversion Hall as [|? x ? r]; subst. split; [done|].
      intros He. apply (f_equal length) in He. rewrite length_app in He. simpl in He. lia.
Qed.

(** ** The capacity test is made on a counter that lags behind *)

Definition busy (p : producer) : Z := match p with PIdle => 0 | _ => 1 end.
Definition linked (p : producer) : Z := match p with PLink _ _ | PCount => 1 | _ => 0 end.
Definition taken (c : consumer) : Z := match c with CDelete _ | CCount => 1 | _ => 0 end.

Definition cap_ok (k : Z) (s : state) : Prop :=
  size_ s = wrap 64 (counted s - discounted s) /\ zlen (prods s) = k /\
  zlen (pushed s) = counted s + zsum linked (prods s) /\
  zlen (popped s) = discounted s + taken (cons_ s) /\
  counted s - discounted s + zsum busy (prods s) <= Capacity - 1 + k.

Lemma zsum_busy l : 0 <= zsum linked l <= zsum busy l /\ zsum busy l <= zlen l.
Proof.
  split; [split|].
  - rewrite <- (Z.mul_0_l (zlen l)), <- (zsum_const 0 l). apply zsum_le. by intros [].
  - apply zsum_le. by intros [].
  - rewrite <- (Z.mul_1_l (zlen l)), <- (zsum_const 1 l). apply zsum_le. by intros [].
Qed.

Lemma cap_step k s s' :
  1 <= Capacity -> Capacity + k <= 2 ^ 63 -> cap_ok k s -> step s s' -> cap_ok k s'.
Proof.
  intros H1 Hk (Hsz & Hlen & Hpu & Hpo & Hb) Hs. unfold cap_ok.
  destruct Hs as [ |t n x s Ht Ha|t n nd s Ht|t ? n nd s Ht|t s Ht| |n s Hc|h n nd s Hc|h s Hc|s Hc];
    simpl; autorewrite with zlen;
    repeat match goal with
    | |- context [zsum ?f (<[t := ?q]> ?l)] => rewrite (zsum_insert f l t _ q Ht)
    end; rewrite ?Hc in Hpo; simpl in *; try (repeat split; (done || lia)).
  - split_and!; try (done || lia).
    destruct (zsum_busy (<[t := PExchange n]> (prods s))) as [_ Hbz].
    rewrite zlen_insert, (zsum_insert _ _ _ _ _ Ht) in Hbz. simpl in Hbz.
    unfold admits in Ha. bool_to_prop. rewrite Hsz in Ha.
    destruct (Z.ltb_spec (counted s - discounted s) 0); [lia|].
    rewrite wrap_small in Ha by (unfold in_word; pose proof (zsum_busy (prods s)); lia). lia.
  - split_and!; try (done || lia). rewrite Hsz. unfold add64. rewrite wrap_add_l. f_equal. lia.
  - split_and!; try (done || lia). rewrite Hsz. unfold sub64, wrap.
    rewrite Zminus_mod_idemp_l. f_equal. lia.
Qed.

(** The number of items in the queue exceeds the capacity by less than the number of
    producers, whatever the interleaving. *)
Theorem mpsc_capacity_bound k s :
  1 <= Capacity -> Capacity + Z.of_nat k <= 2 ^ 63 -> rtc step (initial k) s ->
  zlen (pushed s) - zlen (popped s) <= Capacity - 1 + Z.of_nat k.
Proof.
  intros H1 Hk Hr.
  assert (H0 : cap_ok (Z.of_nat k) (initial k)).
  { unfold cap_ok, initial. simpl. unfold zlen. rewrite length_replicate. simpl.
    assert (Hz : zsum linked (replicate k PIdle) = 0 /\ zsum busy (replicate k PIdle) = 0)
      by (clear; induction k; simpl; lia).
    destruct Hz as [-> ->]. split_and!; try (done || lia). }
  destruct (rtc_invariant step (cap_ok (Z.of_nat k))
              (fun s s' Hs => cap_step _ s s' H1 Hk Hs) _ _ Hr H0) as (_ & Hl & Hpu & Hpo & Hb).
  pose proof (zsum_busy (prods s)).
  assert (0 <= taken (cons_ s)) by (by destruct (cons_ s)). lia.
Qed.

(** A consumer that takes an item before its producer has counted it wraps [size_] below
    zero: the queue is empty, and every other producer is refused until the count is made. *)
Theorem mpsc_size_underflow_refuses x :
  1 <= Capacity <= UINT64_MAX ->
  exists s, rtc step (initial 2) s /\ popped s = [x] /\ pushed s = [x] /\
    size_ s = UINT64_MAX /\ prods s !! 1%nat = Some PIdle /\ admits s = false.
Proof.
  intros Hcap. eexists. split.
  - eapply rtc_l; [apply (push_alloc 0%nat 2%positive x); [done| |done]; apply Z.ltb_lt; simpl; lia|].
    eapply rtc_l; [by eapply (push_exchange 0%nat)|]. simpl.
    eapply rtc_l; [by eapply (push_link 0%nat)|]. simpl.
    eapply rtc_l; [by apply pop_load|]. simpl.
    eapply rtc_l; [by eapply pop_take|]. simpl.
    eapply rtc_l; [by eapply pop_delete|]. simpl. apply rtc_once. by eapply pop_count.
  - simpl. split_and!; try done. unfold admits. simpl. apply Z.ltb_ge.
    change (sub64 0 1) with UINT64_MAX. lia.
Qed.

(** ** Calls that run alone

    [push] and [pop] run to completion act on the list of the items in the queue; the
    components that use the queue are modelled with these functions. *)

Definition push (item : T) (q : list T) : bool * list T :=
  if zlen q <? Capacity then (true, q ++ [item]) else (false, q).

Definition pop (q : list T) : option T * list T :=
  match q with [] => (None, []) | x :: q' => (Some x, q') end.

(** No call is under way and the queue holds [q]. *)
Definition quiescent (s : state) (q : list T) : Prop :=
  inv s /\ (forall t p, prods s !! t = Some p -> p = PIdle) /\ cons_ s = CIdle /\
  pushed s = popped s ++ q /\ size_ s = zlen q.

Lemma push_alone t x s q :
  quiescent s q -> (t < length (prods s))%nat -> zlen q < UINT64_MAX ->
  exists s', rtc step s s' /\ quiescent s' (push x q).2 /\ popped s' = popped s.
Proof.
  intros (Hi & Hidle & Hc & Hq & Hsz) Ht Hmax. unfold push.
  destruct (lookup_lt_is_Some_2 _ _ Ht) as [p Hp]. pose proof (Hidle _ _ Hp) as ->.
  destruct (Z.ltb_spec (zlen q) Capacity) as [Hlt|]; [|by exists s; split].
  set (n := fresh (dom (nodes s))).
  assert (Hn : nodes s !! n = None) by (apply not_elem_of_dom, is_fresh).
  pose proof (push_alloc t n x s Hp ltac:(unfold admits; rewrite Hsz; by apply Z.ltb_lt) Hn) as S1.
  pose proof (mpsc_inv_step _ _ Hi S1) as Hi1.
  match type of S1 with step _ ?a => set (s1 := a) in * end.
  assert (Hp1 : prods s1 !! t = Some (PExchange n)) by (by apply list_lookup_insert_eq).
  assert (Hn1 : nodes s1 !! n = Some (mkNode x None)) by apply lookup_insert_eq.
  pose proof (push_exchange t n _ s1 Hp1 Hn1) as S2. pose proof (mpsc_inv_step _ _ Hi1 S2) as Hi2.
  match type of S2 with step _ ?a => set (s2 := a) in * end.
  assert (Hp2 : prods s2 !! t = Some (PLink (tail_ s1) n))
    by (apply list_lookup_insert_eq; unfold s1; simpl; by rewrite length_insert).
  destruct (i_link _ Hi2 _ _ _ Hp2) as (_ & nd & _ & _ & Hnd & _).
  pose proof (push_link t _ n nd s2 Hp2 Hnd) as S3. pose proof (mpsc_inv_step _ _ Hi2 S3) as Hi3.
  match type of S3 with step _ ?a => set (s3 := a) in * end.
  assert (Hp3 : prods s3 !! t = Some PCount)
    by (apply list_lookup_insert_eq; unfold s2, s1; simpl; by rewrite !length_insert).
  pose proof (push_count t s3 Hp3) as S4. pose proof (mpsc_inv_step _ _ Hi3 S4) as Hi4.
  eexists. split; [eapply rtc_l, rtc_l, rtc_l, rtc_once; eassumption|].
  split; [|done]. split; [exact Hi4|]. split; [|split; [done|]].
  - intros t' p. cbn [prods s3 s2 s1]. rewrite !list_insert_insert_eq. intros Hl. prod_cases; eauto.
  - simpl. rewrite Hq, Hsz. split; [by rewrite app_assoc|]. pose proof (zlen_nonneg q).
    autorewrite with zlen. apply add64_small. lia.
Qed.

Lemma pop_alone s x q :
  quiescent s (x :: q) -> zlen (x :: q) <= UINT64_MAX ->
  exists s', rtc step s s' /\ quiescent s' q /\ popped s' = popped s ++ [x].
Proof.
  intros (Hi & Hidle & Hc & Hq & Hsz) Hmax. rewrite zlen_cons in Hsz, Hmax.
  pose proof Hi as [Hnd Hh _ Hlive _ _ _ _ (rest & Hrest & Hall) _].
  rewrite Hrest in Hq. apply app_inv_head in Hq. subst rest.
  destruct (Hlive O _ Hh) as (hnd & Hhnd & Hnx).
  destruct Hnx as [Hnx|(_ & t & b & _ & Hl)]; [|by specialize (Hidle t _ Hl)].
  destruct (chain s) as [|c0 [|c1 ch]] eqn:Ec; simpl in Hall; [by inversion Hall..|].
  inversion Hall as [|? ? ? ? (nd & Hn1 & Hd) Hall']; subst.
  assert (Hhn : head_next s = Some c1) by (unfold head_next; rewrite Hhnd; exact Hnx).
  pose proof (pop_load c1 s Hc Hhn) as S1. pose proof (mpsc_inv_step _ _ Hi S1) as Hi1.
  match type of S1 with step _ ?a => set (s1 := a) in * end.
  pose proof (pop_take (head_ s) c1 nd s1 eq_refl Hn1) as S2. pose proof (mpsc_inv_step _ _ Hi1 S2) as Hi2.
  match type of S2 with step _ ?a => set (s2 := a) in * end.
  pose proof (pop_delete (head_ s) s2 eq_refl) as S3. pose proof (mpsc_inv_step _ _ Hi2 S3) as Hi3.
  match type of S3 with step _ ?a => set (s3 := a) in * end.
  pose proof (pop_count s3 eq_refl) as S4. pose proof (mpsc_inv_step _ _ Hi3 S4) as Hi4.
  eexists. split; [eapply rtc_l, rtc_l, rtc_l, rtc_once; eassumption|].
  split; [|done]. split; [exact Hi4|]. split; [done|]. split; [done|]. simpl.
  rewrite Hrest, Hsz. split; [by rewrite <- app_assoc|]. pose proof (zlen_nonneg q).
  rewrite sub64_small by (unfold UINT64_MAX in *; lia). lia.
Qed.

End Queue.
End Mpsc.

(** ** Concrete runs *)

#[local] Instance Z_inhabited : Inhabited Z := populate 0.

Module MpscRun.

Definition one_step : @Mpsc.state Z :=
  Mpsc.mkState {[1%positive := Mpsc.dummy_node; 2%positive := Mpsc.mkNode 7 None]} 1 1 0
    [Mpsc.PExchange 2; Mpsc.PIdle] Mpsc.CIdle [1%positive] [] [] 0 0.

Lemma one_step_reachable : rtc (Mpsc.step 131072) (@Mpsc.initial Z _ 2) one_step.
Proof.
  apply rtc_once.
  exact (Mpsc.push_alloc 131072 0%nat 2%positive 7 (@Mpsc.initial Z _ 2) eq_refl eq_refl eq_refl).
Qed.

(** The push has returned, nothing was taken out. *)
Definition one_queued : @Mpsc.state Z :=
  Mpsc.mkState {[1%positive := Mpsc.mkNode inhabitant (Some 2%positive); 2%positive := Mpsc.mkNode 7 None]} 1 2 1
    [Mpsc.PIdle; Mpsc.PIdle] Mpsc.CIdle [1; 2]%positive [7] [] 1 0.

Lemma one_queued_reachable : rtc (Mpsc.step 131072) (@Mpsc.initial Z _ 2) one_queued.
Proof.
  eapply rtc_r; [eapply rtc_r; [eapply rtc_r; [exact one_step_reachable|]|]|].
  - by eapply (Mpsc.push_exchange 131072 0%nat 2%positive).
  - by eapply (Mpsc.push_link 131072 0%nat 1%positive 2%positive).
  - by eapply (Mpsc.push_count 131072 0%nat).
Qed.

End MpscRun.

(** In the middle of a push, and after it, when the queue is destroyed with an item in it. *)
Lemma mpsc_fifo_memory_safe_witness :
  Mpsc.no_use_after_free MpscRun.one_step /\ Mpsc.destroy MpscRun.one_queued = Ret ∅.
Proof.
  split; [apply (Mpsc.mpsc_fifo_memory_safe 131072 2 _ MpscRun.one_step_reachable)|].
  apply (Mpsc.mpsc_fifo_memory_safe 131072 2 _ MpscRun.one_queued_reachable); [|reflexivity].
  intros [|[|t]] p Hp; [by injection Hp as <-..|done].
Defined.

Lemma mpsc_capacity_bound_witness :
  zlen (Mpsc.pushed MpscRun.one_step) - zlen (Mpsc.popped MpscRun.one_step) <= 131072 - 1 + 2.
Proof.
  exact (@Mpsc.mpsc_capacity_bound Z _ 131072 2 _ ltac:(lia) ltac:(lia) MpscRun.one_step_reachable).
Defined.

Lemma mpsc_size_underflow_refuses_witness :
  exists s : @Mpsc.state Z, rtc (Mpsc.step 131072) (@Mpsc.initial Z _ 2) s /\
    Mpsc.size_ s = UINT64_MAX.
Proof.
  destruct (@Mpsc.mpsc_size_underflow_refuses Z _ 131072 7
              ltac:(unfold UINT64_MAX; lia)) as (s & Hs & _ & _ & Hz & _).
  by exists s.
Defined.
