(* ===== verification/Dedup.v ===== *)
(** * The deduplicator: [include/eventstream/core/queues/dedup.hpp],
    [src/core/queues/dedup.cpp]

    Module [Dedup]: the bucket chains and the operations without interference,
    refined to a map from event ids to the time of their insertion.  Module
    [DedupRace]: the CAS loop of [insert] on one bucket as steps of any number of
    inserting threads. *)

From S2P Require Import Prelude.

Module Dedup.

(** A node of a chain; the list is the chain from its head. *)
Record Entry := mkEntry { entry_id : Z; timestamp_ms : Z }.

Abbreviation buckets := (list (list Entry)).

Definition DEFAULT_BUCKETS : Z := 4096.
Definition IDEMPOTENT_WINDOW_MS : Z := 3600000.
Definition MAX_RETRIES : Z := 3.

Definition new_table (num_buckets : nat) : buckets := replicate num_buckets [].

Definition bucket_idx (t : buckets) (event_id : Z) : nat := Z.to_nat (event_id mod zlen t).

(** The search loops over [next]. *)
Definition in_chain (event_id : Z) (b : list Entry) : bool :=
  existsb (fun e => entry_id e =? event_id) b.

Definition is_duplicate (event_id now_ms : Z) (t : buckets) : bool :=
  match t !! bucket_idx t event_id with
  | Some b => in_chain event_id b
  | None => false
  end.

(** [insert] when no other thread runs: the first CAS succeeds. *)
Definition insert (event_id now_ms : Z) (t : buckets) : bool * buckets :=
  let i := bucket_idx t event_id in
  match t !! i with
  | Some head =>
      if in_chain event_id head then (false, t)
      else (true, <[i := mkEntry event_id now_ms :: head]> t)
  | None => (false, t)
  end.

(** [now_ms >= ts ? now_ms - ts : 0], in 64 bits. *)
Definition age_ms (now_ms : Z) (e : Entry) : Z :=
  if timestamp_ms e <=? now_ms then sub64 now_ms (timestamp_ms e) else 0.

Definition expired (now_ms : Z) (e : Entry) : bool := IDEMPOTENT_WINDOW_MS <? age_ms now_ms e.

(** Phase 1: expired entries at the head are swung past, uncounted. *)
Fixpoint drop_expired_heads (now_ms : Z) (b : list Entry) : list Entry :=
  match b with
  | head :: next => if expired now_ms head then drop_expired_heads now_ms next else b
  | [] => []
  end.

(** Phase 2: expired entries behind the head are unlinked and counted. *)
Fixpoint unlink_expired (now_ms : Z) (curr : list Entry) (removed : Z) : list Entry * Z :=
  match curr with
  | [] => ([], removed)
  | e :: next =>
      if expired now_ms e then unlink_expired now_ms next (add64 removed 1)
      else let '(rest, n) := unlink_expired now_ms next removed in (e :: rest, n)
  end.

Definition cleanup_bucket_count (now_ms : Z) (b : list Entry) : list Entry * Z :=
  match drop_expired_heads now_ms b with
  | [] => ([], 0)
  | head :: next => let '(rest, n) := unlink_expired now_ms next 0 in (head :: rest, n)
  end.

(** The loop over the buckets, with [total_removed]. *)
Fixpoint cleanup_buckets (now_ms : Z) (t : buckets) (total_removed : Z) : buckets * Z :=
  match t with
  | [] => ([], total_removed)
  | b :: t' =>
      let '(b', n) := cleanup_bucket_count now_ms b in
      let '(t'', total) := cleanup_buckets now_ms t' (add64 total_removed n) in
      (b' :: t'', total)
  end.

Definition cleanup (now_ms : Z) (t : buckets) : buckets := (cleanup_buckets now_ms t 0).1.
Definition cleanup_all (t : buckets) : buckets := (cleanup_buckets UINT64_MAX t 0).1.

Definition approx_size (t : buckets) : Z :=
  fold_left (fun count b => fold_left (fun c _ => c + 1) b count) t 0.

(** ** The specification: a map from ids to insertion times *)

Inductive op := Insert (event_id now_ms : Z) | IsDuplicate (event_id now_ms : Z)
              | Cleanup (now_ms : Z) | ApproxSize.
Inductive result := Answer (b : bool) | Done | Count (n : Z).

Definition table_op (o : op) (t : buckets) : result * buckets :=
  match o with
  | Insert i now => let '(b, t') := insert i now t in (Answer b, t')
  | IsDuplicate i now => (Answer (is_duplicate i now t), t)
  | Cleanup now => (Done, cleanup now t)
  | ApproxSize => (Count (approx_size t), t)
  end.

Definition fresh_enough (now_ms : Z) (kv : Z * Z) : Prop :=
  expired now_ms (mkEntry kv.1 kv.2) = false.
#[global] Instance fresh_enough_dec now kv : Decision (fresh_enough now kv).
Proof. unfold fresh_enough. apply _. Defined.

Definition map_op (o : op) (m : gmap Z Z) : result * gmap Z Z :=
  match o with
  | Insert i now => if decide (is_Some (m !! i)) then (Answer false, m) else (Answer true, <[i := now]> m)
  | IsDuplicate i _ => (Answer (bool_decide (is_Some (m !! i))), m)
  | Cleanup now => (Done, filter (fresh_enough now) m)
  | ApproxSize => (Count (Z.of_nat (size m)), m)
  end.

Fixpoint run {S : Type} (step : op -> S -> result * S) (ops : list op) (s : S) : list result :=
  match ops with
  | [] => []
  | o :: ops' => let '(r, s') := step o s in r :: run step ops' s'
  end.

(** ** The representation *)

Definition kv (e : Entry) : Z * Z := (entry_id e, timestamp_ms e).
Definition entries (t : buckets) : list (Z * Z) := map kv (concat t).

Record represents (t : buckets) (m : gmap Z Z) : Prop := {
  r_nonempty : t <> [];
  r_place : forall i b e, t !! i = Some b -> e ∈ b -> bucket_idx t (entry_id e) = i;
  r_nodup : NoDup (entries t).*1;
  r_map : m = list_to_map (entries t)
}.

Lemma bucket_idx_lt t i : t <> [] -> (bucket_idx t i < length t)%nat.
Proof.
  intros Ht. assert (0 < zlen t) by (destruct t; [done|]; autorewrite with zlen; pose proof (zlen_nonneg t); lia).
  unfold bucket_idx. pose proof (Z.mod_pos_bound i (zlen t)). unfold zlen in *. lia.
Qed.

Lemma bucket_of t i : t <> [] -> exists b, t !! bucket_idx t i = Some b.
Proof. intros Ht. by apply lookup_lt_is_Some_2, bucket_idx_lt. Qed.

Lemma in_chain_spec i b : in_chain i b = true <-> exists e, e ∈ b /\ entry_id e = i.
Proof.
  unfold in_chain. rewrite existsb_exists. setoid_rewrite list_elem_of_In.
  by setoid_rewrite Z.eqb_eq.
Qed.

Lemma elem_of_entries t k v :
  (k, v) ∈ entries t <-> exists i b, t !! i = Some b /\ mkEntry k v ∈ b.
Proof.
  unfold entries. rewrite list_elem_of_In, in_map_iff. setoid_rewrite in_concat. split.
  - intros ([k' v'] & [= -> ->] & b & Hb & He). apply list_elem_of_In, list_elem_of_lookup in Hb as [i Hi].
    exists i, b. split; [done|]. by apply list_elem_of_In.
  - intros (i & b & Hi & He). exists (mkEntry k v). split; [done|]. exists b.
    split; apply list_elem_of_In; [by eapply list_elem_of_lookup_2|done].
Qed.

(** An id is in the map exactly when it is in the chain of its bucket. *)
Lemma in_chain_map t m i b :
  represents t m -> t !! bucket_idx t i = Some b -> in_chain i b = true <-> is_Some (m !! i).
Proof.
  intros [Hne Hpl Hnd ->] Hb. rewrite in_chain_spec. split.
  - intros ([k v] & He & <-). exists v. apply elem_of_list_to_map; [done|].
    apply elem_of_entries. by eexists _, b.
  - intros [v Hv]. apply elem_of_list_to_map in Hv; [|done].
    apply elem_of_entries in Hv as (j & b' & Hj & He).
    pose proof (Hpl j b' _ Hj He) as Hji. simpl in Hji. subst j. simplify_eq. by eexists.
Qed.

Lemma concat_insert_cons {A} (t : list (list A)) i b x :
  t !! i = Some b -> concat (<[i := x :: b]> t) ≡ₚ x :: concat t.
Proof.
  revert i; induction t as [|c t IH]; intros [|i] Hi; simplify_eq/=; [done|].
  rewrite IH by done. by rewrite Permutation_middle.
Qed.

Lemma insert_represents t m i now :
  represents t m ->
  (insert i now t).1 = (if decide (is_Some (m !! i)) then false else true) /\
  represents (insert i now t).2 (if decide (is_Some (m !! i)) then m else <[i := now]> m).
Proof.
  intros Hr. pose proof Hr as [Hne Hpl Hnd Hm]. destruct (bucket_of t i Hne) as [b Hb].
  unfold insert. rewrite Hb. pose proof (in_chain_map t m i b Hr Hb) as Hin.
  destruct (in_chain i b) eqn:E.
  { by rewrite !decide_True by (by apply Hin). }
  rewrite !decide_False by (intros ?%Hin; congruence). split; [done|]. simpl.
  assert (Hlen : zlen (<[bucket_idx t i := mkEntry i now :: b]> t) = zlen t) by apply zlen_insert.
  assert (Hperm : entries (<[bucket_idx t i := mkEntry i now :: b]> t) ≡ₚ (i, now) :: entries t).
  { unfold entries. by rewrite concat_insert_cons. }
  assert (Hnin : i ∉ (entries t).*1).
  { apply not_elem_of_list_to_map. rewrite <- Hm. apply eq_None_not_Some. intros ?%Hin. congruence. }
  assert (Hnd' : NoDup ((i, now) :: entries t).*1) by (by constructor).
  split.
  - intros Hnil. apply (f_equal zlen) in Hnil. rewrite Hlen in Hnil. by apply zlen_0 in Hnil.
  - intros j c e Hj He. unfold bucket_idx at 1. rewrite Hlen. fold (bucket_idx t (entry_id e)).
    apply list_lookup_insert_Some in Hj as [(<- & <- & _)|[_ Hj]]; [|by eapply Hpl].
    apply elem_of_cons in He as [->|He]; [done|]. by eapply Hpl.
  - by rewrite Hperm.
  - rewrite Hm, <- list_to_map_cons. symmetry.
    apply (list_to_map_proper (M := gmap Z)); by rewrite ?Hperm.
Qed.

Lemma drop_expired_heads_filter now b :
  match drop_expired_heads now b with
  | [] => List.filter (fun e => negb (expired now e)) b = []
  | e :: b' => expired now e = false /\
               List.filter (fun e => negb (expired now e)) b =
               List.filter (fun e => negb (expired now e)) (e :: b')
  end.
Proof.
  induction b as [|e b IH]; [done|]. simpl. destruct (expired now e) eqn:E; simpl; [done|].
  split; [done|]. by rewrite E.
Qed.

Lemma unlink_expired_filter now b n :
  (unlink_expired now b n).1 = List.filter (fun e => negb (expired now e)) b.
Proof.
  revert n; induction b as [|e b IH]; intros n; [done|]. simpl.
  destruct (expired now e) eqn:E; simpl; [apply IH|].
  destruct (unlink_expired now b n) eqn:Eu. simpl. f_equal. rewrite <- (IH n). by rewrite Eu.
Qed.

(** What stays in a bucket: the entries not expired, in their order. *)
Lemma cleanup_bucket_filter now b :
  (cleanup_bucket_count now b).1 = List.filter (fun e => negb (expired now e)) b.
Proof.
  unfold cleanup_bucket_count. pose proof (drop_expired_heads_filter now b) as Hd.
  destruct (drop_expired_heads now b) as [|e b']; [done|]. destruct Hd as [He ->]. simpl.
  rewrite He. simpl. rewrite <- (unlink_expired_filter now b' 0). by destruct (unlink_expired now b' 0).
Qed.

Lemma cleanup_filter now t :
  cleanup now t = map (List.filter (fun e => negb (expired now e))) t.
Proof.
  unfold cleanup. generalize 0. induction t as [|b t IH]; intros n; [done|]. simpl.
  destruct (cleanup_bucket_count now b) as [b' k] eqn:Eb.
  specialize (IH (add64 n k)). destruct (cleanup_buckets now t (add64 n k)). simpl in *.
  f_equal; [|done]. by rewrite <- cleanup_bucket_filter, Eb.
Qed.

Lemma entries_cleanup now t :
  entries (cleanup now t) = List.filter (fun e => negb (expired now (mkEntry e.1 e.2))) (entries t).
Proof.
  rewrite cleanup_filter. unfold entries. rewrite concat_filter_map.
  induction (concat t) as [|[k v] l IH]; [done|]. simpl. destruct (expired now (mkEntry k v)); simpl.
  - apply IH.
  - by rewrite IH.
Qed.

Lemma NoDup_fst_filter {A} (f : Z * A -> bool) l : NoDup l.*1 -> NoDup (List.filter f l).*1.
Proof.
  induction l as [|[k v] l IH]; simpl; [done|]. intros [Hk Hl]%NoDup_cons.
  destruct (f (k, v)); simpl; [|auto]. constructor; [|auto].
  intros Hin. apply Hk. apply list_elem_of_fmap in Hin as ([k' v'] & Hkk & Hin). simpl in Hkk. subst k'.
  apply list_elem_of_In, filter_In in Hin as [Hin _]. apply list_elem_of_fmap.
  exists (k, v'). split; [done|]. by apply list_elem_of_In.
Qed.

Lemma cleanup_represents t m now :
  represents t m -> represents (cleanup now t) (filter (fresh_enough now) m).
Proof.
  intros [Hne Hpl Hnd Hm].
  assert (Hlen : zlen (cleanup now t) = zlen t) by (rewrite cleanup_filter; unfold zlen; by rewrite length_map).
  assert (Hnd' : NoDup (entries (cleanup now t)).*1)
    by (rewrite entries_cleanup; by apply NoDup_fst_filter).
  split; [|intros i b e Hi He|done|].
  - intros Hnil. rewrite Hnil in Hlen. symmetry in Hlen. by apply zlen_0 in Hlen.
  - unfold bucket_idx. rewrite Hlen. fold (bucket_idx t (entry_id e)).
    rewrite cleanup_filter in Hi. apply list_lookup_fmap_Some in Hi as (b0 & -> & Hi).
    apply list_elem_of_In, filter_In in He as [He _]. eapply Hpl; [done|]. by apply list_elem_of_In.
  - apply map_eq. intros k. apply option_eq. intros v.
    rewrite <- elem_of_list_to_map by done. rewrite map_lookup_filter_Some, Hm.
    rewrite <- elem_of_list_to_map by done. rewrite entries_cleanup, !list_elem_of_In, filter_In.
    unfold fresh_enough. simpl. rewrite negb_true_iff. done.
Qed.

Lemma approx_size_entries t : approx_size t = zlen (entries t).
Proof.
  unfold approx_size, entries, zlen. rewrite length_map.
  enough (Hg : forall n, fold_left (fun count b => fold_left (fun c (_ : Entry) => c + 1) b count) t n
                         = n + Z.of_nat (length (concat t))) by (rewrite Hg; lia).
  assert (Hb : forall (b : list Entry) n, fold_left (fun c _ => c + 1) b n = n + Z.of_nat (length b)).
  { induction b as [|e b IH]; intros n; simpl; [lia|]. rewrite IH. lia. }
  induction t as [|b t IH]; intros n; simpl; [lia|]. rewrite IH, Hb, length_app. lia.
Qed.

Lemma dedup_op_represents o t m :
  represents t m ->
  (table_op o t).1 = (map_op o m).1 /\ represents (table_op o t).2 (map_op o m).2.
Proof.
  intros Hr. destruct o as [i now|i now|now|]; simpl.
  - destruct (insert_represents t m i now Hr) as [Hb Hr'].
    destruct (insert i now t) as [b t']. simpl in *. subst b. by case_decide.
  - split; [|done]. destruct (bucket_of t i (r_nonempty _ _ Hr)) as [b Hb].
    unfold is_duplicate. rewrite Hb. f_equal. apply eq_bool_prop_intro.
    pose proof (in_chain_map t m i b Hr Hb). rewrite bool_decide_spec. by rewrite Is_true_true.
  - split; [done|]. by apply cleanup_represents.
  - split; [|done]. rewrite approx_size_entries. destruct Hr as [_ _ Hnd ->].
    rewrite map_size_list_to_map by done. done.
Qed.

Lemma new_table_represents n : (0 < n)%nat -> represents (new_table n) ∅.
Proof.
  intros Hn.
  assert (He : entries (new_table n) = []).
  { unfold entries, new_table. clear. induction n; [done|]. apply IHn. }
  split; rewrite ?He; [destruct n; [lia|done]| |constructor|done].
  intros i b e [-> _]%lookup_replicate Hin. by apply not_elem_of_nil in Hin.
Qed.

(** C27: without interference the table of any number of buckets answers every sequence of
    [insert], [is_duplicate], [cleanup] and [approx_size] as a map from ids to insertion times
    does: [insert] is true exactly for an id not in the map, and [cleanup] removes exactly the
    entries older than the window. *)
Theorem dedup_refines_map n ops :
  (0 < n)%nat -> run table_op ops (new_table n) = run map_op ops ∅.
Proof.
  intros Hn. pose proof (new_table_represents n Hn) as Hr.
  revert Hr. generalize (new_table n), (∅ : gmap Z Z).
  induction ops as [|o ops IH]; intros t m Hr; [done|]. simpl.
  destruct (dedup_op_represents o t m Hr) as [Ho Hr'].
  destruct (table_op o t), (map_op o m). simpl in *. subst. f_equal. by apply IH.
Qed.

(** The number [cleanup] logs leaves out the entries removed at the head of a chain. *)
Example cleanup_count_misses_heads :
  cleanup_bucket_count 5000000 [mkEntry 1 0; mkEntry 2 0] = ([], 0).
Proof. reflexivity. Qed.

End Dedup.

(** ** Several inserting threads on one bucket *)

Module DedupRace.

Import Dedup.

(** Where a thread is in [insert]: about to load the head, about to CAS after a
    scan of the chain it loaded, or returned. *)
Inductive thread :=
| ILoad (event_id now_ms retry_count : Z)
| ICas (event_id now_ms retry_count : Z) (head : list Entry)
| IDone (event_id : Z) (result : bool).

Record state := mkState { bucket : list Entry; threads : list thread }.

(** The loop's test after a failed CAS. *)
Definition retry (i now r : Z) : thread :=
  if r + 1 <? MAX_RETRIES then ILoad i now (r + 1) else IDone i false.

(** Chains only grow at the head here, so the CAS on the head pointer succeeds
    exactly when the chain is still the one that was loaded. *)
Inductive step : state -> state -> Prop :=
| load_duplicate t i now r b ts :
    ts !! t = Some (ILoad i now r) -> in_chain i b = true ->
    step (mkState b ts) (mkState b (<[t := IDone i false]> ts))
| load_new t i now r b ts :
    ts !! t = Some (ILoad i now r) -> in_chain i b = false ->
    step (mkState b ts) (mkState b (<[t := ICas i now r b]> ts))
| cas_success t i now r b ts :
    ts !! t = Some (ICas i now r b) ->
    step (mkState b ts) (mkState (mkEntry i now :: b) (<[t := IDone i true]> ts))
| cas_failure t i now r head b ts :
    ts !! t = Some (ICas i now r head) -> head <> b ->
    step (mkState b ts) (mkState b (<[t := retry i now r]> ts)).

Definition initial (requests : list (Z * Z)) : state :=
  mkState [] (map (fun '(i, now) => ILoad i now 0) requests).

Definition inv (s : state) : Prop :=
  NoDup (map entry_id (bucket s)) /\
  (forall t i now r head, threads s !! t = Some (ICas i now r head) -> in_chain i head = false) /\
  (forall t i, threads s !! t = Some (IDone i true) -> in_chain i (bucket s) = true) /\
  (forall t t' i, threads s !! t = Some (IDone i true) -> threads s !! t' = Some (IDone i true) -> t = t').

Lemma in_chain_cons i e b : in_chain i (e :: b) = (entry_id e =? i) || in_chain i b.
Proof. done. Qed.

Lemma in_chain_ids i b : in_chain i b = true <-> i ∈ map entry_id b.
Proof. rewrite in_chain_spec, list_elem_of_fmap. naive_solver. Qed.

Lemma thread_cases (ts : list thread) t t' p q :
  <[t := p]> ts !! t' = Some q -> (t' = t /\ q = p) \/ (t' <> t /\ ts !! t' = Some q).
Proof.
  intros Hl. apply list_lookup_insert_Some in Hl as [(-> & -> & _)|[? ?]]; [by left|right; auto].
Qed.

Ltac thread_cases :=
  repeat match goal with
  | Hl : <[_ := _]> _ !! _ = Some _ |- _ =>
      apply thread_cases in Hl as [[-> ?]|[? Hl]]; simplify_eq
  end.

Lemma retry_not_done i now r j : retry i now r <> IDone j true.
Proof. unfold retry. by case_match. Qed.
Lemma retry_not_cas i now r j n q h : retry i now r <> ICas j n q h.
Proof. unfold retry. by case_match. Qed.

Lemma race_inv_step s s' : inv s -> step s s' -> inv s'.
Proof.
  intros (Hnd & Hc & Hd & Hu) Hs.
  destruct Hs as [t i now r b ts Ht Hi|t i now r b ts Ht Hi|t i now r b ts Ht|t i now r h b ts Ht Hne];
    unfold inv in *; cbn [bucket threads] in *.
  - split_and!; [done|..]; intros; thread_cases; eauto.
  - split_and!; [done|..]; intros; thread_cases; eauto.
  - pose proof (Hc _ _ _ _ _ Ht) as Hin.
    assert (Hno : forall t', ts !! t' <> Some (IDone i true))
      by (intros t' Ht'; apply Hd in Ht'; congruence).
    split_and!; [|intros; thread_cases; eauto| |].
    + constructor; [|done]. intros Hx. apply (in_chain_ids i b) in Hx. congruence.
    + intros t' j Ht'. rewrite in_chain_cons. cbn [entry_id].
      thread_cases; [by rewrite Z.eqb_refl|].
      rewrite (Hd _ _ Ht'). apply orb_true_r.
    + intros t1 t2 j H1 H2. thread_cases; try done; try (by exfalso; eapply Hno). by eapply Hu.
  - split_and!; [done| | |].
    + intros t' j n q h' Ht'. thread_cases; [by exfalso; eapply retry_not_cas|by eapply Hc].
    + intros t' j Ht'. thread_cases; [by exfalso; eapply retry_not_done|by eapply Hd].
    + intros t1 t2 j H1 H2.
      thread_cases; try (by exfalso; eapply retry_not_done). by eapply Hu.
Qed.

Lemma race_inv_initial reqs : inv (initial reqs).
Proof.
  unfold inv, initial. simpl. split; [constructor|].
  assert (Hl : forall t p, map (fun '(i, now) => ILoad i now 0) reqs !! t = Some p ->
            exists i now, p = ILoad i now 0).
  { intros t p Hp. apply list_lookup_fmap_Some in Hp as ([i now] & -> & _). eauto. }
  split_and!.
  - intros t i now r h Ht. by destruct (Hl _ _ Ht) as (? & ? & ?).
  - intros t i Ht. by destruct (Hl _ _ Ht) as (? & ? & ?).
  - intros t t' i Ht. by destruct (Hl _ _ Ht) as (? & ? & ?).
Qed.

(** However many threads race on a bucket, no id is stored twice, and of all calls of
    [insert] with the same id at most one returns true - and then the id is stored. *)
Theorem dedup_insert_race reqs s :
  rtc step (initial reqs) s ->
  NoDup (map entry_id (bucket s)) /\
  (forall t i, threads s !! t = Some (IDone i true) -> i ∈ map entry_id (bucket s)) /\
  (forall t t' i, threads s !! t = Some (IDone i true) ->
                  threads s !! t' = Some (IDone i true) -> t = t').
Proof.
  intros Hr. destruct (rtc_invariant step inv race_inv_step _ _ Hr (race_inv_initial reqs)) as (Hnd & _ & Hd & Hu).
  split; [done|]. split; [|done]. intros t i Ht. apply in_chain_ids. by eapply Hd.
Qed.

(** [insert] can return false for an id that no thread ever inserted: three lost CAS are
    answered like a duplicate. *)
Theorem dedup_contended_insert_lost a b c d :
  NoDup [a; b; c; d] ->
  exists s, rtc step (initial [(a, 0); (b, 0); (c, 0); (d, 0)]) s /\
    threads s !! 0%nat = Some (IDone a false) /\ a ∉ map entry_id (bucket s).
Proof.
  intros Hnd. repeat (apply NoDup_cons in Hnd as [? Hnd]). set_unfold.
  assert (Hch : forall i x l, x <> i -> in_chain i l = false -> in_chain i (mkEntry x 0 :: l) = false).
  { intros i x l Hx Hl. rewrite in_chain_cons, Hl. cbn [entry_id]. by rewrite (proj2 (Z.eqb_neq _ _) Hx). }
  assert (Hall : in_chain a [mkEntry b 0] = false /\ in_chain c [mkEntry b 0] = false /\
                 in_chain a [mkEntry c 0; mkEntry b 0] = false /\
                 in_chain d [mkEntry c 0; mkEntry b 0] = false)
    by (split_and!; repeat apply Hch; naive_solver).
  destruct Hall as (Ha1 & Hc1 & Ha2 & Hd2).
  eexists. split.
  - eapply rtc_l; [by eapply (load_new 0)|]. simpl.
    eapply rtc_l; [by eapply (load_new 1)|]. simpl.
    eapply rtc_l; [by eapply (cas_success 1)|]. simpl.
    eapply rtc_l; [by eapply (cas_failure 0)|]. simpl.
    eapply rtc_l; [by eapply (load_new 0)|]. simpl.
    eapply rtc_l; [by eapply (load_new 2)|]. simpl.
    eapply rtc_l; [by eapply (cas_success 2)|]. simpl.
    eapply rtc_l; [by eapply (cas_failure 0)|]. simpl.
    eapply rtc_l; [by eapply (load_new 0)|]. simpl.
    eapply rtc_l; [by eapply (load_new 3)|]. simpl.
    eapply rtc_l; [by eapply (cas_success 3)|]. simpl.
    apply rtc_once. by eapply (cas_failure 0).
  - simpl. split; [done|]. set_solver.
Qed.

End DedupRace.

(** ** Concrete runs *)

Lemma dedup_refines_map_witness :
  (0 < 4)%nat /\
  Dedup.run Dedup.table_op
    [Dedup.Insert 5 0; Dedup.Insert 5 1; Dedup.Insert 9 2; Dedup.Cleanup 3600001;
     Dedup.IsDuplicate 5 0; Dedup.ApproxSize] (Dedup.new_table 4)
  = [Dedup.Answer true; Dedup.Answer false; Dedup.Answer true; Dedup.Done;
     Dedup.Answer false; Dedup.Count 1].
Proof.
  split; [lia|]. rewrite (Dedup.dedup_refines_map 4 _ ltac:(lia)). vm_compute. reflexivity.
Defined.

Lemma dedup_insert_race_witness :
  exists s, rtc DedupRace.step (DedupRace.initial [(5, 0)]) s /\
    NoDup (map Dedup.entry_id (DedupRace.bucket s)).
Proof.
  pose (Hs := DedupRace.load_new 0 5 0 0 [] [DedupRace.ILoad 5 0 0] eq_refl eq_refl).
  eexists. split; [exact (rtc_once _ _ Hs)|].
  apply (DedupRace.dedup_insert_race [(5, 0)] _ (rtc_once _ _ Hs)).
Defined.

Lemma dedup_contended_insert_lost_witness :
  exists s, rtc DedupRace.step (DedupRace.initial [(0, 0); (4096, 0); (8192, 0); (12288, 0)]) s /\
    DedupRace.threads s !! 0%nat = Some (DedupRace.IDone 0 false).
Proof.
  destruct (DedupRace.dedup_contended_insert_lost 0 4096 8192 12288) as (s & Hs & Ht & _).
  - repeat (constructor; [set_solver|]). constructor.
  - by exists s.
Defined.
