(* ===== verification/DedupReclaim.v ===== *)
(** * The deduplicator while [cleanup] runs: [src/core/queues/dedup.cpp]

    Module [DedupReclaim]: one bucket of the table with its nodes in a heap, and the threads
    that call [insert], [is_duplicate], [approx_size] and - one of them - [cleanup] on it,
    one access to shared memory per step.  A node that [delete] has given back is no longer
    in the heap, and reading it is undefined.  [recycles] says whether the allocator may
    hand out an address a second time. *)

From S2P Require Import Prelude Dedup.

Module DedupReclaim.
Import Dedup.

(** ** Memory *)

Abbreviation addr := positive.

(** [Entry] with its [next] pointer. *)
Record Node := mkNode { entry : Entry; next : option addr }.

Record Memory := mkMemory {
  heap : gmap addr Node;
  head : option addr;                 (* buckets_[bucket_idx] *)
  (* what has happened: the addresses handed out, the entries [insert] accepted, and those [cleanup] unlinked, each
     with the time it was given *)
  used : gset addr;
  accepted : list Entry;
  gone : list (Entry * Z)
}.

Definition read (a : addr) (m : Memory) : outcome Node :=
  match heap m !! a with Some n => Ret n | None => UB end.

Definition set_heap (h : gmap addr Node) (m : Memory) : Memory := mkMemory h (head m) (used m) (accepted m) (gone m).
Definition write (a : addr) (n : Node) (m : Memory) : Memory := set_heap (<[a := n]> (heap m)) m.
Definition free (a : addr) (m : Memory) : Memory := set_heap (delete a (heap m)) m.

(** [new Entry(event_id, now_ms)] *)
Definition alloc (a : addr) (e : Entry) (m : Memory) : Memory :=
  mkMemory (<[a := mkNode e None]> (heap m)) (head m) ({[a]} ∪ used m) (accepted m) (gone m).

(** The two swings of the bucket's head, and the removal behind it. *)
Definition publish (a : addr) (e : Entry) (m : Memory) : Memory :=
  mkMemory (heap m) (Some a) (used m) (accepted m ++ [e]) (gone m).
Definition swing (nx : option addr) (e : Entry) (now : Z) (m : Memory) : Memory :=
  mkMemory (heap m) nx (used m) (accepted m) (gone m ++ [(e, now)]).
Definition unlink (prev : addr) (n : Node) (e : Entry) (now : Z) (m : Memory) : Memory :=
  mkMemory (<[prev := n]> (heap m)) (head m) (used m) (accepted m) (gone m ++ [(e, now)]).

(** ** The threads *)

(** Where a caller is: in [insert], about to allocate, to load the head, to look at [curr], to
    compare and swap the head it loaded; in [is_duplicate]; in [approx_size]. *)
Inductive thread :=
| INew (event_id now_ms : Z)
| ILoad (event_id now_ms : Z) (new_entry : addr) (retry_count : Z)
| IScan (event_id now_ms : Z) (new_entry : addr) (retry_count : Z) (head curr : option addr)
| ICas (event_id now_ms : Z) (new_entry : addr) (retry_count : Z) (head : option addr)
| IDone (event_id : Z) (result : bool)
| RLoad (event_id : Z)
| RScan (event_id : Z) (entry : option addr)
| RDone (event_id : Z) (result : bool)
| SLoad
| SScan (count : Z) (entry : option addr)
| SDone (count : Z).

Definition tstep (fresh : addr) (p : thread) (m : Memory) : outcome (thread * Memory) :=
  match p with
  | INew i now => Ret (ILoad i now fresh 0, alloc fresh (mkEntry i now) m)
  | ILoad i now a r => Ret (IScan i now a r (head m) (head m), m)
  | IScan i now a r h (Some curr) =>
      n ← read curr m;
      Ret (if entry_id (entry n) =? i then (IDone i false, free a m) else (IScan i now a r h (next n), m))
  | IScan i now a r h None => n ← read a m; Ret (ICas i now a r h, write a (mkNode (entry n) h) m)
  | ICas i now a r h =>
      Ret (if decide (head m = h) then (IDone i true, publish a (mkEntry i now) m)
           else if r + 1 <? MAX_RETRIES then (ILoad i now a (r + 1), m) else (IDone i false, free a m))
  | RLoad i => Ret (RScan i (head m), m)
  | RScan i (Some curr) => n ← read curr m; Ret (if entry_id (entry n) =? i then RDone i true else RScan i (next n), m)
  | RScan i None => Ret (RDone i false, m)
  | SLoad => Ret (SScan 0 (head m), m)
  | SScan c (Some curr) => n ← read curr m; Ret (SScan (add64 c 1) (next n), m)
  | SScan c None => Ret (SDone c, m)
  | IDone _ _ | RDone _ _ | SDone _ => Ret (p, m)
  end.

Definition MAX_HEAD_RETRIES : Z := 10.

(** Where [cleanup_bucket_count] is: not running, about to load the head; in the first loop,
    about to look at [head], to compare and swap it for [next], to delete it; at the end of
    that loop, about to read [head->next]; in the second, about to look at [curr], to write
    [prev->next], to delete [curr]. *)
Inductive cleaner :=
| CIdle
| CLoad (now_ms : Z)
| CHead (now_ms : Z) (head : addr) (head_retries : Z)
| CCas (now_ms : Z) (head : addr) (seen : Node) (head_retries : Z)
| CDelHead (now_ms : Z) (head : addr) (next : option addr)
| CTail (now_ms : Z) (head : addr)
| CMid (now_ms : Z) (prev : addr) (curr : option addr) (removed : Z)
| CUnlink (now_ms : Z) (prev curr : addr) (seen : Node) (removed : Z)
| CDel (now_ms : Z) (prev curr : addr) (next : option addr) (removed : Z).

Definition cstep (now_ms : Z) (k : cleaner) (m : Memory) : outcome (cleaner * Memory) :=
  match k with
  | CIdle => Ret (CLoad now_ms, m)
  | CLoad now => Ret (match head m with Some h => CHead now h 0 | None => CIdle end, m)
  | CHead now h r => n ← read h m; Ret (if expired now (entry n) then CCas now h n r else CTail now h, m)
  | CCas now h n r =>
      Ret (if decide (head m = Some h) then (CDelHead now h (next n), swing (next n) (entry n) now m)
           else match head m with
                | Some h' => (if r + 1 <? MAX_HEAD_RETRIES then CHead now h' (r + 1) else CTail now h', m)
                | None => (CIdle, m)
                end)
  | CDelHead now h nx => _ ← read h m; Ret (match nx with Some h' => CHead now h' 0 | None => CIdle end, free h m)
  | CTail now h => n ← read h m; Ret (CMid now h (next n) 0, m)
  | CMid now prev None removed => Ret (CIdle, m)
  | CMid now prev (Some curr) removed =>
      n ← read curr m;
      Ret (if expired now (entry n) then CUnlink now prev curr n removed else CMid now curr (next n) removed, m)
  | CUnlink now prev curr n removed =>
      p ← read prev m; Ret (CDel now prev curr (next n) removed, unlink prev (mkNode (entry p) (next n)) (entry n) now m)
  | CDel now prev curr nx removed => _ ← read curr m; Ret (CMid now prev nx (add64 removed 1), free curr m)
  end.

(** ** Schedules *)

Record state := mkState { mem : Memory; threads : list thread; sweeper : cleaner }.

(** The thread that acts next, with the address the allocator would give it; the cleaner,
    with the time it is given when it starts. *)
Inductive actor := Thread (t : nat) (fresh : addr) | Cleaner (now_ms : Z).

Section Schedules.
Context (recycles : bool).

Definition allowed (fresh : addr) (p : thread) (m : Memory) : bool :=
  match p with
  | INew _ _ => bool_decide (heap m !! fresh = None) && (recycles || bool_decide (fresh ∉ used m))
  | _ => true
  end.

Definition turn (c : actor) (s : state) : outcome state :=
  match c with
  | Thread t fresh =>
      match threads s !! t with
      | Some p =>
          if allowed fresh p (mem s)
          then '(p', m) ← tstep fresh p (mem s); Ret (mkState m (<[t := p']> (threads s)) (sweeper s))
          else Ret s
      | None => Ret s
      end
  | Cleaner now => '(k, m) ← cstep now (sweeper s) (mem s); Ret (mkState m (threads s) k)
  end.

Fixpoint run (cs : list actor) (s : state) : outcome state :=
  match cs with [] => Ret s | c :: cs' => s' ← turn c s; run cs' s' end.

End Schedules.

Inductive request := InsertCall (event_id now_ms : Z) | IsDuplicateCall (event_id : Z) | ApproxSizeCall.

Definition called (r : request) : thread :=
  match r with InsertCall i now => INew i now | IsDuplicateCall i => RLoad i | ApproxSizeCall => SLoad end.

Definition initial (requests : list request) : state :=
  mkState (mkMemory ∅ None ∅ [] []) (map called requests) CIdle.

(** ** The chain *)

(** The nodes reached from [p] are [l]. *)
Fixpoint linked (hp : gmap addr Node) (p : option addr) (l : list addr) : Prop :=
  match l with
  | [] => p = None
  | a :: l' => p = Some a /\ exists n, hp !! a = Some n /\ linked hp (next n) l'
  end.

Definition entries_at (hp : gmap addr Node) (l : list addr) : list Entry := omap (fun a => entry <$> hp !! a) l.

Lemma linked_frame hp hp' p l :
  (forall a, a ∈ l -> hp' !! a = hp !! a) -> linked hp p l -> linked hp' p l.
Proof.
  revert p; induction l as [|a l IH]; intros p Hf; [done|]. intros (-> & n & Hn & Hl). split; [done|].
  exists n. rewrite Hf by set_solver. split; [done|]. apply IH; [set_solver|done].
Qed.

Lemma linked_app hp p l1 a l2 :
  linked hp p (l1 ++ a :: l2) -> exists n, hp !! a = Some n /\ linked hp (next n) l2.
Proof.
  revert p; induction l1 as [|b l1 IH]; intros p; cbn; [by intros (_ & ?)|]. intros (_ & n & _ & Hl). by eapply IH.
Qed.

Lemma linked_split hp p l a :
  linked hp p l -> a ∈ l -> exists n l1 l2, hp !! a = Some n /\ l = l1 ++ a :: l2 /\ linked hp (next n) l2.
Proof.
  intros Hl (l1 & l2 & ->)%list_elem_of_split. destruct (linked_app _ _ _ _ _ Hl) as (n & Hn & Ht). by exists n, l1, l2.
Qed.

Lemma linked_head hp p l a : linked hp p l -> p = Some a -> exists l', l = a :: l'.
Proof. destruct l as [|b l]; cbn; [intros -> [=]|]. intros (-> & _) [= ->]. by exists l. Qed.

(** Where a pointer of the chain leads. *)
Lemma linked_next hp p l a n b : linked hp p l -> a ∈ l -> hp !! a = Some n -> next n = Some b -> b ∈ l.
Proof.
  intros Hl Ha Hn Hb. destruct (linked_split _ _ _ _ Hl Ha) as (n' & l1 & l2 & Hn' & -> & Ht). simplify_eq.
  destruct (linked_head _ _ _ _ Ht Hb) as [l' ->]. set_solver.
Qed.

Lemma linked_unlink hp p l1 prev c l2 np n :
  NoDup (l1 ++ prev :: c :: l2) -> linked hp p (l1 ++ prev :: c :: l2) -> hp !! prev = Some np -> hp !! c = Some n ->
  linked (<[prev := mkNode (entry np) (next n)]> hp) p (l1 ++ prev :: l2).
Proof.
  revert p; induction l1 as [|b l1 IH]; intros p; cbn [app].
  - intros Hnd (-> & np' & Hp & Hc & n' & Hn' & Hl) Hnp Hn. simplify_eq. split; [done|].
    eexists. rewrite lookup_insert_eq. split; [done|]. cbn. apply (linked_frame hp); [|done].
    intros a Ha. apply lookup_insert_ne. apply NoDup_cons in Hnd as [Hnd _]. set_solver.
  - intros [Hb Hnd]%NoDup_cons (-> & nb & Hnb & Hl) Hnp Hn. split; [done|]. exists nb.
    rewrite lookup_insert_ne by set_solver. split; [done|]. by apply IH.
Qed.

Lemma entries_frame hp hp' l :
  (forall a, a ∈ l -> entry <$> hp' !! a = entry <$> hp !! a) -> entries_at hp' l = entries_at hp l.
Proof.
  induction l as [|a l IH]; intros Hf; [done|]. cbn. rewrite Hf by set_solver.
  destruct (entry <$> hp !! a); cbn; [f_equal|]; apply IH; set_solver.
Qed.

Lemma entries_app hp l1 l2 : entries_at hp (l1 ++ l2) = entries_at hp l1 ++ entries_at hp l2.
Proof. apply omap_app. Qed.

Lemma entries_cons hp a n l : hp !! a = Some n -> entries_at hp (a :: l) = entry n :: entries_at hp l.
Proof. intros Hn. cbn. by rewrite Hn. Qed.

(** ** The heap: every node is in one place *)

Definition covers (hp : gmap addr Node) (ps : list addr) : Prop := NoDup ps /\ forall a, is_Some (hp !! a) <-> a ∈ ps.

#[global] Instance covers_proper hp : Proper ((≡ₚ) ==> iff) (covers hp).
Proof. intros ps ps' Hp. unfold covers. rewrite Hp. by setoid_rewrite Hp. Qed.

Lemma covers_alloc hp a n ps : hp !! a = None -> covers hp ps -> covers (<[a := n]> hp) (a :: ps).
Proof.
  intros Ha [Hnd Hc]. assert (Hin : a ∉ ps) by (intros [? ?]%Hc; congruence). split; [by constructor|].
  intros b. rewrite lookup_insert_is_Some', elem_of_cons, Hc. naive_solver.
Qed.

Lemma covers_write hp a n ps : a ∈ ps -> covers hp ps -> covers (<[a := n]> hp) ps.
Proof. intros Ha [Hnd Hc]. split; [done|]. intros b. rewrite lookup_insert_is_Some', Hc. naive_solver. Qed.

Lemma covers_free hp a ps : covers hp (a :: ps) -> covers (delete a hp) ps.
Proof.
  intros [[Hin Hnd]%NoDup_cons Hc]. split; [done|]. intros b. rewrite lookup_delete_is_Some, Hc. set_solver.
Qed.

Lemma covers_disjoint hp l1 l2 a : covers hp (l1 ++ l2) -> a ∈ l1 -> a ∈ l2 -> False.
Proof. intros [(_ & Hd & _)%NoDup_app _] H1 H2. by apply (Hd a). Qed.

(** ** The invariant *)

(** The node a call of [insert] has made and not yet published. *)
Definition owned (p : thread) : list addr :=
  match p with ILoad _ _ a _ | IScan _ _ a _ _ _ | ICas _ _ a _ _ => [a] | _ => [] end.

Definition ptrs (o : option addr) : list addr := match o with Some a => [a] | None => [] end.

(** The node a walk is about to read. *)
Definition walks (p : thread) : list addr :=
  match p with IScan _ _ _ _ _ c | RScan _ c | SScan _ c => ptrs c | _ => [] end.

Definition accepted_by (p : thread) : list Z := match p with IDone i true => [i] | _ => [] end.

(** The node the cleaner has unlinked and not yet deleted, and its [next]. *)
Definition limbo_next (k : cleaner) : option (addr * option addr) :=
  match k with CDelHead _ a nx => Some (a, nx) | CDel _ _ a nx _ => Some (a, nx) | _ => None end.

Definition limbo (k : cleaner) : list addr := match limbo_next k with Some (a, _) => [a] | None => [] end.

Definition own_ok (hp : gmap addr Node) (p : thread) : Prop :=
  match p with
  | ILoad i now a _ | IScan i now a _ _ _ => exists nx, hp !! a = Some (mkNode (mkEntry i now) nx)
  | ICas i now a _ h => hp !! a = Some (mkNode (mkEntry i now) h)
  | _ => True
  end.

Definition points (hp : gmap addr Node) (a : addr) (nx : option addr) : Prop := exists n, hp !! a = Some n /\ next n = nx.

Definition clean_ok (hp : gmap addr Node) (l : list addr) (k : cleaner) : Prop :=
  match k with
  | CIdle | CLoad _ => True
  | CHead _ h _ | CTail _ h => h ∈ l
  | CCas now h n _ => h ∈ l /\ hp !! h = Some n /\ expired now (entry n) = true
  | CDelHead _ h nx => points hp h nx /\ (forall x, nx = Some x -> x ∈ l)
  | CMid _ prev c _ => prev ∈ l /\ points hp prev c
  | CUnlink now prev c n _ =>
      prev ∈ l /\ points hp prev (Some c) /\ c ∈ l /\ hp !! c = Some n /\ expired now (entry n) = true
  | CDel _ prev c nx _ => prev ∈ l /\ points hp prev nx /\ points hp c nx
  end.

Record wf (l : list addr) (m : Memory) (ts : list thread) (k : cleaner) : Prop := {
  w_chain : linked (heap m) (head m) l;
  w_covers : covers (heap m) (l ++ flat_map owned ts ++ limbo k);
  w_own : Forall (own_ok (heap m)) ts;
  w_clean : clean_ok (heap m) l k;
  w_log : accepted m ≡ₚ entries_at (heap m) l ++ (gone m).*1;
  w_gone : Forall (fun x => expired x.2 x.1 = true) (gone m);
  w_accept : flat_map accepted_by ts ≡ₚ map entry_id (accepted m);
  w_walks : gone m = [] -> forall a, a ∈ flat_map walks ts -> a ∈ l
}.

Lemma own_ok_frame hp hp' ts :
  (forall a, a ∈ flat_map owned ts -> hp' !! a = hp !! a) -> Forall (own_ok hp) ts -> Forall (own_ok hp') ts.
Proof.
  intros Hf. induction 1 as [|p ts Hp _ IH]; constructor.
  - destruct p; cbn in *; try done; rewrite Hf by set_solver; done.
  - apply IH. cbn in Hf. set_solver.
Qed.

Lemma clean_ok_frame hp hp' l l' k :
  (forall a, a ∈ l ++ limbo k -> hp' !! a = hp !! a) -> (forall a, a ∈ l -> a ∈ l') -> clean_ok hp l k -> clean_ok hp' l' k.
Proof.
  intros Hf Hs. destruct k; cbn in *; unfold points; intros; destruct_and?; rewrite ?Hf by set_solver; eauto 10.
Qed.

Lemma flat_map_middle {A B} (f : A -> list B) l1 x l2 :
  flat_map f (l1 ++ x :: l2) ≡ₚ f x ++ flat_map f l1 ++ flat_map f l2.
Proof. rewrite flat_map_app. cbn. solve_Permutation. Qed.

(** A step of a thread that leaves the chain as it is. *)
Lemma wf_private l m ts1 p ts2 k p' hp' used' :
  wf l m (ts1 ++ p :: ts2) k ->
  (forall a, a ∈ l ++ (flat_map owned ts1 ++ flat_map owned ts2) ++ limbo k -> hp' !! a = heap m !! a) ->
  covers hp' (owned p' ++ l ++ (flat_map owned ts1 ++ flat_map owned ts2) ++ limbo k) ->
  own_ok hp' p' -> accepted_by p' = accepted_by p -> (gone m = [] -> forall a, a ∈ walks p' -> a ∈ l) ->
  wf l (mkMemory hp' (head m) used' (accepted m) (gone m)) (ts1 ++ p' :: ts2) k.
Proof.
  intros [Hch Hcv Hown Hcl Hlog Hg Hacc Hw] Hf Hcv' Ho' Ha Hw'. split; cbn [heap head accepted gone]; try done.
  - eapply linked_frame; [|done]. set_solver.
  - rewrite flat_map_middle. eapply covers_proper; [|exact Hcv']. solve_Permutation.
  - apply Forall_app in Hown as [H1 [_ H2]%Forall_cons]. apply Forall_app. split; [|constructor; [done|]];
      (eapply own_ok_frame; [|done]); set_solver.
  - eapply clean_ok_frame; [|done|done]. set_solver.
  - rewrite (entries_frame (heap m)); [done|]. intros a Hin. f_equal. apply Hf. set_solver.
  - rewrite flat_map_middle, Ha, <- flat_map_middle. done.
  - intros Hn a. rewrite flat_map_middle. intros [Hin|Hin]%elem_of_app; [by apply Hw'|].
    apply Hw; [done|]. rewrite flat_map_middle. set_solver.
Qed.

Lemma mem_eta m : mkMemory (heap m) (head m) (used m) (accepted m) (gone m) = m.
Proof. by destruct m. Qed.

(** One that only moves on. *)
Lemma wf_moves l m ts1 p ts2 k p' :
  wf l m (ts1 ++ p :: ts2) k -> owned p' = owned p -> own_ok (heap m) p' -> accepted_by p' = accepted_by p ->
  (gone m = [] -> forall a, a ∈ walks p' -> a ∈ l) -> wf l m (ts1 ++ p' :: ts2) k.
Proof.
  intros Hw Ho Hok Ha Hwk. rewrite <- (mem_eta m) at 1. apply (wf_private l m ts1 p ts2 k p' (heap m)); try done.
  rewrite Ho. pose proof (w_covers _ _ _ _ Hw) as Hc. rewrite flat_map_middle in Hc.
  eapply covers_proper; [|exact Hc]. solve_Permutation.
Qed.

(** Where the thread itself stands in the invariant. *)
Lemma wf_here l m ts1 p ts2 k :
  wf l m (ts1 ++ p :: ts2) k ->
  covers (heap m) (owned p ++ l ++ (flat_map owned ts1 ++ flat_map owned ts2) ++ limbo k) /\ own_ok (heap m) p /\
  (gone m = [] -> forall a, a ∈ walks p -> a ∈ l).
Proof.
  intros Hw. split; [|split].
  - pose proof (w_covers _ _ _ _ Hw) as Hc. rewrite flat_map_middle in Hc. eapply covers_proper; [|exact Hc]. solve_Permutation.
  - pose proof (w_own _ _ _ _ Hw) as H. by apply Forall_app in H as [_ [? _]%Forall_cons].
  - intros Hg a Ha. apply (w_walks _ _ _ _ Hw Hg). rewrite flat_map_middle. set_solver.
Qed.

Lemma wf_head l m ts k a : wf l m ts k -> a ∈ ptrs (head m) -> a ∈ l.
Proof.
  intros Hw Ha. pose proof (w_chain _ _ _ _ Hw) as Hc. destruct (head m) eqn:E; [|set_solver].
  destruct (linked_head _ _ _ _ Hc eq_refl) as [l' ->]. set_solver.
Qed.

(** The next node of a walk. *)
Lemma wf_walk l m ts k c n a :
  wf l m ts k -> c ∈ l -> heap m !! c = Some n -> a ∈ ptrs (next n) -> a ∈ l.
Proof.
  intros Hw Hc Hn Ha. destruct (next n) eqn:E; [|set_solver].
  apply (linked_next _ _ _ c n a (w_chain _ _ _ _ Hw) Hc Hn). rewrite E. set_solver.
Qed.

Lemma wf_frees l m ts1 p ts2 k p' a :
  wf l m (ts1 ++ p :: ts2) k -> owned p = [a] -> owned p' = [] -> accepted_by p' = accepted_by p -> walks p' = [] ->
  own_ok (delete a (heap m)) p' -> wf l (free a m) (ts1 ++ p' :: ts2) k.
Proof.
  intros Hw Ho Ho' Ha Hwk Hok. destruct (wf_here _ _ _ _ _ _ Hw) as (Hc & _ & _). rewrite Ho in Hc. cbn [app] in Hc.
  apply (wf_private l m ts1 p ts2 k p'); try done; [|by rewrite Ho'; apply covers_free|by rewrite Hwk; set_solver].
  intros b Hb. apply lookup_delete_ne. intros <-. destruct Hc as [[Hin _]%NoDup_cons _]. done.
Qed.

(** ** Every step keeps it *)

Lemma read_ret a m n : read a m = Ret n <-> heap m !! a = Some n.
Proof. unfold read. destruct (heap m !! a); naive_solver. Qed.

(** A successful swap of [insert]. *)
Lemma publish_wf l m ts1 i now a r ts2 k :
  wf l m (ts1 ++ ICas i now a r (head m) :: ts2) k ->
  wf (a :: l) (publish a (mkEntry i now) m) (ts1 ++ IDone i true :: ts2) k.
Proof.
  intros Hw. destruct (wf_here _ _ _ _ _ _ Hw) as (Hc & Ho & _). destruct Hw as [Hch _ Hown Hcl Hlog Hg Hacc Hwk].
  cbn in Ho, Hc. split; cbn [publish heap head accepted gone].
  - split; [done|]. by eexists.
  - rewrite flat_map_middle. cbn [owned app]. exact Hc.
  - apply Forall_app in Hown as [H1 [_ H2]%Forall_cons]. apply Forall_app. split; [done|]. by constructor.
  - eapply clean_ok_frame; [done| |done]. set_solver.
  - rewrite (entries_cons _ _ _ _ Ho), Hlog. cbn [entry]. solve_Permutation.
  - done.
  - rewrite map_app, <- Hacc, !flat_map_middle. cbn. solve_Permutation.
  - intros Hn b. rewrite flat_map_middle. cbn. intros Hb. apply elem_of_cons. right. apply Hwk; [done|].
    rewrite flat_map_middle. set_solver.
Qed.

Lemma alloc_wf l m ts1 i now ts2 k a :
  heap m !! a = None -> wf l m (ts1 ++ INew i now :: ts2) k ->
  wf l (alloc a (mkEntry i now) m) (ts1 ++ ILoad i now a 0 :: ts2) k.
Proof.
  intros Ha Hw. destruct (wf_here _ _ _ _ _ _ Hw) as (Hc & _ & _). cbn in Hc.
  apply (wf_private l m ts1 (INew i now) ts2 k); try done.
  - intros b Hb. apply lookup_insert_ne. intros <-. destruct Hc as [_ Hc]. apply Hc in Hb as [? ?]. congruence.
  - by apply covers_alloc.
  - exists None. by rewrite lookup_insert_eq.
  - set_solver.
Qed.

(** The end of a scan: [new_entry->next = head]. *)
Lemma links_wf l m ts1 i now a r h ts2 k n :
  heap m !! a = Some n -> wf l m (ts1 ++ IScan i now a r h None :: ts2) k ->
  wf l (write a (mkNode (entry n) h) m) (ts1 ++ ICas i now a r h :: ts2) k.
Proof.
  intros Hn Hw. destruct (wf_here _ _ _ _ _ _ Hw) as (Hc & [nx Ho] & _). cbn in Hc. simplify_eq.
  apply (wf_private l m ts1 (IScan i now a r h None) ts2 k); try done.
  - intros b Hb. apply lookup_insert_ne. intros <-. destruct Hc as [[Hin _]%NoDup_cons _]. done.
  - apply covers_write; [set_solver|done].
  - cbn. by rewrite lookup_insert_eq.
  - set_solver.
Qed.

(** The cleaner between two writes. *)
Lemma wf_looks l m ts k k' :
  wf l m ts k -> limbo k' = limbo k -> clean_ok (heap m) l k' -> wf l m ts k'.
Proof. intros [Hch Hcv Hown Hcl Hlog Hg Hacc Hwk] Hlim Hk. split; try done. by rewrite Hlim. Qed.

Lemma wf_swings l m ts now h n r :
  wf l m ts (CCas now h n r) -> head m = Some h ->
  exists l', l = h :: l' /\ wf l' (swing (next n) (entry n) now m) ts (CDelHead now h (next n)).
Proof.
  intros [Hch Hcv Hown (Hin & Hn & Hx) Hlog Hg Hacc Hwk] Hh. destruct (linked_head _ _ _ _ Hch Hh) as [l' ->].
  exists l'. split; [done|]. cbn in Hch. destruct Hch as (_ & n' & Hn' & Hch). assert (n' = n) as -> by congruence.
  split; cbn [swing heap head accepted gone]; try done.
  - eapply covers_proper; [|exact Hcv]. cbn. solve_Permutation.
  - split; [by eexists|]. intros x Hx'. destruct (linked_head _ _ _ _ Hch Hx') as [l'' ->]. set_solver.
  - rewrite Hlog, (entries_cons _ _ _ _ Hn), fmap_app. cbn. solve_Permutation.
  - apply Forall_app. by split; [|constructor].
  - by destruct (gone m).
Qed.

Lemma wf_deletes l m ts k k' a :
  wf l m ts k -> limbo k = [a] -> limbo k' = [] -> clean_ok (delete a (heap m)) l k' -> wf l (free a m) ts k'.
Proof.
  intros [Hch Hcv Hown Hcl Hlog Hg Hacc Hwk] Hl Hl' Hk. rewrite Hl in Hcv.
  assert (Hc : covers (heap m) (a :: l ++ flat_map owned ts)) by (eapply covers_proper; [|exact Hcv]; solve_Permutation).
  assert (Ha : a ∉ l ++ flat_map owned ts) by (by destruct Hc as [[? _]%NoDup_cons _]).
  split; cbn [free set_heap heap head accepted gone]; try done.
  - eapply linked_frame; [|done]. intros b Hb. apply lookup_delete_ne. set_solver.
  - rewrite Hl', app_nil_r. by apply covers_free.
  - eapply own_ok_frame; [|done]. intros b Hb. apply lookup_delete_ne. set_solver.
  - rewrite (entries_frame (heap m)); [done|]. intros b Hb. f_equal. apply lookup_delete_ne. set_solver.
Qed.

Lemma wf_unlinks l m ts now prev c n p removed :
  wf l m ts (CUnlink now prev c n removed) -> heap m !! prev = Some p ->
  exists l1 l2, l = l1 ++ prev :: c :: l2 /\
    wf (l1 ++ prev :: l2) (unlink prev (mkNode (entry p) (next n)) (entry n) now m) ts (CDel now prev c (next n) removed).
Proof.
  intros [Hch Hcv Hown (Hp & (p1 & Hp1 & Hpn) & Hcin & Hn & Hx) Hlog Hg Hacc Hwk] Hpr.
  assert (p1 = p) as -> by congruence. destruct (linked_split _ _ _ _ Hch Hp) as (p2 & l1 & l2 & Hp2 & -> & Ht).
  assert (p2 = p) as -> by congruence.
  destruct (linked_head _ _ _ _ Ht Hpn) as [l2' ->]. rename l2' into l2. exists l1, l2. split; [done|].
  assert (Hnd : NoDup (l1 ++ prev :: c :: l2)) by (by destruct Hcv as [(? & _ & _)%NoDup_app _]).
  assert (Hpc : prev <> c) by (apply NoDup_app in Hnd as (_ & _ & [Hnd _]%NoDup_cons); set_solver).
  split; cbn [unlink heap head accepted gone].
  - by apply linked_unlink with c.
  - apply covers_write; [set_solver|]. eapply covers_proper; [|exact Hcv]. cbn. solve_Permutation.
  - eapply own_ok_frame; [|done]. intros b Hb. apply lookup_insert_ne. intros <-.
    apply (covers_disjoint _ _ _ prev Hcv); set_solver.
  - cbn [clean_ok]. unfold points. rewrite lookup_insert_eq, lookup_insert_ne by done. split_and!; [set_solver|by eexists|by eexists].
  - rewrite (entries_frame (heap m)).
    + rewrite Hlog, !entries_app, fmap_app, !(entries_cons _ prev _ _ Hpr), (entries_cons _ c _ _ Hn). cbn. solve_Permutation.
    + intros b Hb. destruct (decide (b = prev)) as [->|]; [by rewrite lookup_insert_eq, Hpr|by rewrite lookup_insert_ne].
  - apply Forall_app. by split; [|constructor].
  - done.
  - by destruct (gone m).
Qed.

(** As long as nothing was removed, a walk is in the chain. *)
Lemma tstep_defined l m ts1 p ts2 k f :
  wf l m (ts1 ++ p :: ts2) k -> gone m = [] -> exists p' m', tstep f p m = Ret (p', m').
Proof.
  intros Hw Hg. destruct (wf_here _ _ _ _ _ _ Hw) as (Hc & Ho & Hwk). specialize (Hwk Hg).
  assert (Hlive : forall a, a ∈ walks p -> exists n, heap m !! a = Some n).
  { intros a Ha. apply Hc. apply Hwk in Ha. set_solver. }
  destruct p as [i now|i now a r|i now a r h [c|]|i now a r h|i res|i|i [c|]|i res| |cnt [c|]|cnt]; cbn [tstep]; eauto;
    unfold read; try (destruct (Hlive c) as [n ->]; [set_solver|]).
  - destruct (entry_id (entry n) =? i) eqn:E; cbn; rewrite E; eauto.
  - cbn in Ho. destruct Ho as [nx ->]. cbn. eauto.
  - destruct (decide (head m = h)); [eauto|]. destruct (_ <? _); eauto.
  - cbn. eauto.
  - cbn. eauto.
Qed.

(** ** No id twice, if no address is used twice *)

(** The part of the chain at and behind a node. *)
Fixpoint drop_to (a : addr) (l : list addr) : list addr :=
  match l with [] => [] | b :: l' => if decide (b = a) then l else drop_to a l' end.

Definition from (p : option addr) (l : list addr) : list addr := match p with Some a => drop_to a l | None => [] end.

Lemma drop_to_sub a x l : x ∈ drop_to a l -> x ∈ l /\ a ∈ l.
Proof. induction l as [|b l IH]; cbn; [set_solver|]. case_decide; [set_solver|]. intros ?%IH. set_solver. Qed.

Lemma drop_to_app a l1 l2 : a ∉ l1 -> drop_to a (l1 ++ a :: l2) = a :: l2.
Proof.
  induction l1 as [|b l1 IH]; cbn; intros Ha; [by rewrite decide_True|].
  rewrite decide_False by set_solver. apply IH. set_solver.
Qed.

(** Taking one node out of the chain. *)
Lemma drop_to_without a c x l1 l2 :
  a <> c -> x <> c -> x ∈ drop_to a (l1 ++ c :: l2) <-> x ∈ drop_to a (l1 ++ l2).
Proof.
  intros Hac Hxc. induction l1 as [|b l1 IH]; cbn; [by rewrite decide_False by done|]. case_decide; [set_solver|done].
Qed.

Lemma from_linked hp p l1 l2 : NoDup (l1 ++ l2) -> linked hp p l2 -> from p (l1 ++ l2) = l2.
Proof.
  intros Hnd Hl. destruct l2 as [|b l2]; cbn in Hl; [by subst p|]. destruct Hl as [-> _]. cbn. apply drop_to_app.
  apply NoDup_app in Hnd as (_ & Hd & _). intros Hb. apply (Hd b); set_solver.
Qed.

(** What a walk that is about to read [c] has still before it. *)
Definition ahead (l : list addr) (k : cleaner) (c : option addr) : list addr :=
  match c with
  | None => []
  | Some y =>
      if decide (y ∈ l) then drop_to y l
      else match limbo_next k with Some (z, nx) => if decide (z = y) then from nx l else [] | None => [] end
  end.

Definition carries (hp : gmap addr Node) (i : Z) (a : addr) : Prop := exists n, hp !! a = Some n /\ entry_id (entry n) = i.

(** A node of id [i] at or behind the head the walk started from is still before it - unless
    the walk is about to read a node that was deleted. *)
Definition tracks (hp : gmap addr Node) (l : list addr) (k : cleaner) (i : Z) (h c : option addr) : Prop :=
  (exists y, c = Some y /\ hp !! y = None) \/ forall a, a ∈ from h l -> carries hp i a -> a ∈ ahead l k c.

Definition clear (hp : gmap addr Node) (l : list addr) (k : cleaner) (p : thread) : Prop :=
  match p with
  | IScan i _ _ _ h c => tracks hp l k i h c
  | ICas i _ _ _ h => tracks hp l k i h None
  | _ => True
  end.

(** The addresses a call of [insert] remembers. *)
Definition recalled (p : thread) : list addr :=
  match p with IScan _ _ _ _ h c => ptrs h ++ ptrs c | ICas _ _ _ _ h => ptrs h | _ => [] end.

Record uq (l : list addr) (m : Memory) (ts : list thread) (k : cleaner) : Prop := {
  u_used : forall a, is_Some (heap m !! a) -> a ∈ used m;
  u_ids : NoDup (map entry_id (entries_at (heap m) l));
  u_known : forall a, a ∈ flat_map recalled ts -> a ∈ used m /\ a ∉ flat_map owned ts;
  u_clear : Forall (clear (heap m) l k) ts
}.

Lemma carries_frame hp hp' i a : entry <$> hp' !! a = entry <$> hp !! a -> carries hp' i a -> carries hp i a.
Proof. unfold carries. intros Hf (n & Hn & Hi). rewrite Hn in Hf. destruct (hp !! a) as [n'|]; [|done]. exists n'. simplify_eq/=. by rewrite <- Hf. Qed.

(** Elsewhere in the heap nothing matters but what is gone. *)
Lemma tracks_frame hp hp' l k i h c :
  (forall a, a ∈ l -> hp' !! a = hp !! a) -> (forall y, c = Some y -> hp !! y = None -> hp' !! y = None) ->
  tracks hp l k i h c -> tracks hp' l k i h c.
Proof.
  intros Hf Hd [(y & Hy & Hn)|Ht]; [left; exists y; auto|right]. intros a Ha Hc. apply Ht; [done|].
  eapply carries_frame; [|done]. f_equal. apply Hf. destruct h as [b|]; [|by apply not_elem_of_nil in Ha].
  by apply drop_to_sub in Ha as [? _].
Qed.

Lemma tracks_published hp l k i h c a :
  a ∉ l -> a ∉ ptrs h ++ ptrs c -> tracks hp l k i h c -> tracks hp (a :: l) k i h c.
Proof.
  intros Hal Ha [Hd|Ht]; [by left|right]. intros b Hb Hc.
  assert (Hfrom : forall w, (forall z, w = Some z -> z <> a) -> from w (a :: l) = from w l).
  { intros [z|] Hz; [|done]. cbn. rewrite decide_False; [done|]. intros ->. by eapply Hz. }
  rewrite Hfrom in Hb by (intros z ->; set_solver). specialize (Ht b Hb Hc). destruct c as [y|]; [|done].
  cbn in *. assert (Hya : a <> y) by set_solver. case_decide as Hy.
  - rewrite decide_True by set_solver. by rewrite decide_False.
  - rewrite decide_False by set_solver. destruct (limbo_next k) as [[z nx]|]; [|done]. case_decide; [|done].
    rewrite Hfrom; [done|]. intros x -> ->. by apply drop_to_sub in Ht as [_ ?].
Qed.

Lemma tracks_without hp hp' l1 c l2 k k' nx i h w :
  limbo_next k = None -> limbo_next k' = Some (c, nx) -> from nx (l1 ++ l2) = l2 -> c ∉ l1 ++ l2 ->
  (forall a, entry <$> hp' !! a = entry <$> hp !! a) ->
  tracks hp (l1 ++ c :: l2) k i h w -> tracks hp' (l1 ++ l2) k' i h w.
Proof.
  intros Hk Hk' Hnx Hc Hf [(y & -> & Hy)|Ht].
  - left. exists y. split; [done|]. specialize (Hf y). rewrite Hy in Hf. by destruct (hp' !! y).
  - right. intros a Ha Hi. destruct h as [z|]; [|by apply not_elem_of_nil in Ha]. cbn [from] in *.
    destruct (drop_to_sub _ _ _ Ha) as [Hal Hzl].
    assert (Hac : a <> c) by (by intros ->). assert (Hzc : z <> c) by (by intros ->).
    assert (Hin : a ∈ ahead (l1 ++ c :: l2) k w).
    { apply Ht; [by apply drop_to_without|]. eapply carries_frame; [|done]. by rewrite Hf. }
    destruct w as [y|]; [|done]. cbn in *. rewrite Hk in Hin. rewrite Hk'. case_decide as Hy; [|set_solver].
    destruct (decide (y = c)) as [->|Hyc].
    + rewrite decide_False, decide_True, Hnx by done. rewrite drop_to_app in Hin by set_solver. set_solver.
    + rewrite decide_True by set_solver. by apply drop_to_without in Hin.
Qed.

Lemma tracks_freed hp l k k' y nx i h w :
  limbo_next k = Some (y, nx) -> limbo_next k' = None -> y ∉ l -> tracks hp l k i h w -> tracks (delete y hp) l k' i h w.
Proof.
  intros Hk Hk' Hy. destruct (decide (w = Some y)) as [->|Hwy]; [left; exists y; by rewrite lookup_delete_eq|].
  intros [(z & -> & Hz)|Ht].
  - left. exists z. split; [done|]. by rewrite lookup_delete_None; right.
  - right. intros a Ha Hc. assert (Hya : a <> y).
    { intros ->. destruct h as [b|]; [|by apply not_elem_of_nil in Ha]. by apply drop_to_sub in Ha as [? _]. }
    specialize (Ht a Ha). unfold carries in Hc. rewrite lookup_delete_ne in Hc by done. specialize (Ht Hc).
    destruct w as [z|]; [|done]. cbn in *. case_decide; [done|]. rewrite Hk in Ht. rewrite Hk'.
    rewrite decide_False in Ht; [done|]. by intros <-.
Qed.

(** The node that is unlinked and not deleted leads back to the chain. *)
Lemma limbo_target l m ts k c nx :
  wf l m ts k -> limbo_next k = Some (c, nx) -> points (heap m) c nx /\ (c ∉ l) /\ (forall z, z ∈ ptrs nx -> z ∈ l).
Proof.
  intros Hw Hk. pose proof (w_clean _ _ _ _ Hw) as Hcl. pose proof (w_covers _ _ _ _ Hw) as Hcv.
  assert (Hc : c ∉ l).
  { intros Hc. apply (covers_disjoint _ _ _ c Hcv); [done|]. unfold limbo. rewrite Hk. set_solver. }
  destruct k; try done; injection Hk as <- <-; cbn in Hcl.
  - destruct Hcl as [Hp Hn]. split_and!; [done..|]. intros z Hz. destruct next0; [|set_solver]. apply Hn. f_equal. set_solver.
  - destruct Hcl as (Hp & (np & Hnp & Hnx) & Hcp). split_and!; [done..|]. intros z Hz.
    apply (wf_walk l m ts _ prev np z Hw Hp Hnp). by rewrite Hnx.
Qed.

Lemma ahead_from l k w : (forall z, z ∈ ptrs w -> z ∈ l) -> ahead l k w = from w l.
Proof. intros Hw. destruct w as [z|]; [|done]. cbn. rewrite decide_True; [done|]. apply Hw. set_solver. Qed.

(** A walk that reads a live node, not its own, goes on in the chain and has lost only that node. *)
Lemma walk_on l m ts k c n :
  wf l m ts k -> heap m !! c = Some n -> c ∉ flat_map owned ts ->
  (forall z, z ∈ ptrs (next n) -> z ∈ l) /\
  (forall i h, entry_id (entry n) <> i -> tracks (heap m) l k i h (Some c) -> tracks (heap m) l k i h (next n)).
Proof.
  intros Hw Hn Ho. pose proof (w_covers _ _ _ _ Hw) as Hcv.
  assert (Hnext : forall z, z ∈ ptrs (next n) -> z ∈ l).
  { intros z Hz. assert (Hc : c ∈ l ++ limbo k) by (apply proj2 in Hcv; assert (is_Some (heap m !! c)) as ?%Hcv by eauto; set_solver).
    apply elem_of_app in Hc as [Hc|Hc]; [by eapply wf_walk|]. unfold limbo in Hc.
    destruct (limbo_next k) as [[y nx]|] eqn:Ek; [|set_solver]. apply list_elem_of_singleton in Hc as <-.
    destruct (limbo_target _ _ _ _ _ _ Hw Ek) as ((n' & Hn' & Hnx) & _ & Hl). simplify_eq. by apply Hl. }
  split; [done|]. intros i h Hne [(y & [= <-] & Hy)|Ht]; [congruence|right]. intros a Ha Hi. specialize (Ht a Ha Hi).
  rewrite ahead_from by done. assert (Hac : a <> c) by (intros ->; destruct Hi as (n' & ? & ?); simplify_eq).
  cbn in Ht. case_decide as Hc.
  - destruct (linked_split _ _ _ _ (w_chain _ _ _ _ Hw) Hc) as (n' & l1 & l2 & Hn' & -> & Hl).
    assert (n' = n) as -> by congruence.
    assert (Hnd : NoDup (l1 ++ c :: l2)) by (by destruct Hcv as [(? & _ & _)%NoDup_app _]).
    rewrite drop_to_app in Ht by (apply NoDup_app in Hnd as (_ & Hd & _); intros ?; apply (Hd c); set_solver).
    rewrite cons_middle, app_assoc in Hnd |- *. rewrite (from_linked _ _ _ _ Hnd Hl). set_solver.
  - destruct (limbo_next k) as [[y nx]|] eqn:Ek; [|set_solver]. case_decide as Hy; [subst y|set_solver].
    destruct (limbo_target _ _ _ _ _ _ Hw Ek) as ((n' & Hn' & Hnx) & _ & _). by simplify_eq.
Qed.

Lemma uq_private l m ts1 p ts2 k p' hp' used' :
  uq l m (ts1 ++ p :: ts2) k ->
  (forall a, a ∈ l -> hp' !! a = heap m !! a) -> (forall a, a ∈ used m -> heap m !! a = None -> hp' !! a = None) ->
  (forall a, a ∈ used m -> a ∈ used') -> (forall a, is_Some (hp' !! a) -> a ∈ used') ->
  (forall a, a ∈ owned p' -> a ∈ owned p \/ a ∉ used m) ->
  (forall a, a ∈ recalled p' -> a ∈ used m /\ a ∉ flat_map owned (ts1 ++ p :: ts2)) -> clear hp' l k p' ->
  uq l (mkMemory hp' (head m) used' (accepted m) (gone m)) (ts1 ++ p' :: ts2) k.
Proof.
  intros [Hu Hids Hkn Hcl] Hf Hd Hus Hu' Ho Hr Hc. split; cbn [heap head used]; [done| | |].
  - rewrite (entries_frame (heap m)); [done|]. intros a Ha. f_equal. by apply Hf.
  - assert (Hsafe : forall a, a ∈ used m -> a ∉ flat_map owned (ts1 ++ p :: ts2) -> a ∉ flat_map owned (ts1 ++ p' :: ts2)).
    { intros a Ha. rewrite !flat_map_middle, !elem_of_app. intros Hno [Hin|Hin]; [destruct (Ho a Hin)|]; tauto. }
    assert (Hold : forall a, a ∈ flat_map recalled ts1 ++ flat_map recalled ts2 ->
      a ∈ used' /\ a ∉ flat_map owned (ts1 ++ p' :: ts2)).
    { intros a Ha. destruct (Hkn a) as [H1 H2]; [rewrite flat_map_middle; set_solver|]. auto. }
    intros a. rewrite flat_map_middle, elem_of_app. intros [Ha|Ha]; [|by apply Hold].
    destruct (Hr a Ha) as [H1 H2]. auto.
  - assert (Hkeep : forall q, q ∈ ts1 ++ ts2 -> clear (heap m) l k q -> clear hp' l k q).
    { intros q Hq. assert (Hrq : forall a, a ∈ recalled q -> a ∈ used m).
      { intros a Ha. apply Hkn. rewrite flat_map_middle, <- flat_map_app. apply elem_of_app. right.
        apply list_elem_of_In, in_flat_map. exists q. by split; apply list_elem_of_In. }
      destruct q; cbn in *; try done; apply tracks_frame; try done; intros y ->; apply Hd, Hrq; set_solver. }
    apply Forall_app in Hcl as [H1 [_ H2]%Forall_cons]. rewrite Forall_forall in H1, H2.
    apply Forall_app. split; [|constructor; [done|]]; apply Forall_forall; intros q Hq; apply Hkeep; set_solver.
Qed.

Lemma uq_moves l m ts1 p ts2 k p' :
  uq l m (ts1 ++ p :: ts2) k -> owned p' = owned p ->
  (forall a, a ∈ recalled p' -> a ∈ used m /\ a ∉ flat_map owned (ts1 ++ p :: ts2)) -> clear (heap m) l k p' ->
  uq l m (ts1 ++ p' :: ts2) k.
Proof.
  intros Hq Ho Hr Hc. rewrite <- (mem_eta m) at 1. apply (uq_private l m ts1 p); try done; [apply Hq|].
  rewrite Ho. auto.
Qed.

Lemma uq_frees l m ts1 p ts2 k p' a :
  wf l m (ts1 ++ p :: ts2) k -> uq l m (ts1 ++ p :: ts2) k -> owned p = [a] -> owned p' = [] -> recalled p' = [] ->
  clear (delete a (heap m)) l k p' -> uq l (free a m) (ts1 ++ p' :: ts2) k.
Proof.
  intros Hw Hq Ho Ho' Hr Hc. destruct (wf_here _ _ _ _ _ _ Hw) as (Hcv & _). rewrite Ho in Hcv.
  apply (uq_private l m ts1 p); try done.
  - intros b Hb. apply lookup_delete_ne. intros <-. destruct Hcv as [[Hin _]%NoDup_cons _]. set_solver.
  - intros b _ Hb. apply lookup_delete_None. by right.
  - intros b [? [_ Hb]%lookup_delete_Some]. apply (u_used _ _ _ _ Hq). eauto.
  - rewrite Ho'. set_solver.
  - rewrite Hr. set_solver.
Qed.

Lemma uq_publish l m ts1 i now a r ts2 k :
  wf l m (ts1 ++ ICas i now a r (head m) :: ts2) k -> uq l m (ts1 ++ ICas i now a r (head m) :: ts2) k ->
  uq (a :: l) (publish a (mkEntry i now) m) (ts1 ++ IDone i true :: ts2) k.
Proof.
  intros Hw [Hu Hids Hkn Hcl]. destruct (wf_here _ _ _ _ _ _ Hw) as (Hcv & Ho & _). cbn in Ho, Hcv.
  assert (Hal : a ∉ l) by (destruct Hcv as [[Hin _]%NoDup_cons _]; set_solver).
  assert (Hmine : a ∈ flat_map owned (ts1 ++ ICas i now a r (head m) :: ts2)) by (rewrite flat_map_middle; set_solver).
  apply Forall_app in Hcl as [H1 [Hc H2]%Forall_cons].
  split; cbn [publish heap head used]; [done| | |].
  - rewrite (entries_cons _ _ _ _ Ho). cbn [map entry entry_id]. constructor; [|done].
    intros Hin. apply list_elem_of_fmap in Hin as (e & -> & He). apply list_elem_of_omap in He as (b & Hb & He).
    destruct (heap m !! b) as [n|] eqn:En; [|done]. injection He as <-.
    destruct Hc as [(y & [=] & _)|Hc]. apply (not_elem_of_nil b). apply (Hc b).
    + assert (Hnd : NoDup l) by (by destruct (w_covers _ _ _ _ Hw) as [(? & _ & _)%NoDup_app _]).
      pose proof (from_linked (heap m) (head m) [] l Hnd (w_chain _ _ _ _ Hw)) as Hfr. cbn [app] in Hfr. by rewrite Hfr.
    + by exists n.
  - intros b. rewrite flat_map_middle. cbn. intros Hb. destruct (Hkn b) as [? Hno]; [rewrite flat_map_middle; set_solver|].
    split; [done|]. rewrite flat_map_middle in Hno |- *. cbn in *. set_solver.
  - assert (Hkeep : forall q, q ∈ ts1 ++ ts2 -> clear (heap m) l k q -> clear (heap m) (a :: l) k q).
    { intros q Hq. assert (Hrq : a ∉ recalled q).
      { intros Ha. destruct (Hkn a) as [_ []]; [|done]. rewrite flat_map_middle, <- flat_map_app. apply elem_of_app. right.
        apply list_elem_of_In, in_flat_map. exists q. by split; apply list_elem_of_In. }
      destruct q; cbn in *; try done; apply tracks_published; try done. set_solver. }
    rewrite Forall_forall in H1, H2. apply Forall_app. split; [|constructor; [done|]]; apply Forall_forall; intros q Hq;
      apply Hkeep; set_solver.
Qed.

Lemma uq_alloc l m ts1 i now ts2 k a :
  heap m !! a = None -> a ∉ used m -> wf l m (ts1 ++ INew i now :: ts2) k -> uq l m (ts1 ++ INew i now :: ts2) k ->
  uq l (alloc a (mkEntry i now) m) (ts1 ++ ILoad i now a 0 :: ts2) k.
Proof.
  intros Ha Hnew Hw Hq. destruct (wf_here _ _ _ _ _ _ Hw) as (Hcv & _).
  apply (uq_private l m ts1 (INew i now)); try done; cbn [owned recalled].
  - intros b Hb. apply lookup_insert_ne. intros <-. destruct Hcv as [_ Hcv].
    assert (is_Some (heap m !! a)) as [? ?] by (apply Hcv; set_solver). congruence.
  - intros b Hb Hn. rewrite lookup_insert_ne; [done|]. by intros <-.
  - set_solver.
  - intros b. rewrite lookup_insert_is_Some'. intros [<-|Hb]; [set_solver|]. apply (u_used _ _ _ _ Hq) in Hb. set_solver.
  - intros b Hb. right. by apply list_elem_of_singleton in Hb as ->.
  - set_solver.
Qed.

Lemma uq_links l m ts1 i now a r h ts2 k n :
  wf l m (ts1 ++ IScan i now a r h None :: ts2) k -> uq l m (ts1 ++ IScan i now a r h None :: ts2) k ->
  uq l (write a (mkNode (entry n) h) m) (ts1 ++ ICas i now a r h :: ts2) k.
Proof.
  intros Hw Hq. destruct (wf_here _ _ _ _ _ _ Hw) as (Hcv & [nx Ho] & _). cbn in Hcv.
  assert (Hfr : forall b, b ∈ l -> <[a := mkNode (entry n) h]> (heap m) !! b = heap m !! b).
  { intros b Hb. apply lookup_insert_ne. intros <-. destruct Hcv as [[Hin _]%NoDup_cons _]. set_solver. }
  apply (uq_private l m ts1 (IScan i now a r h None)); try done; cbn [owned recalled clear].
  - intros b _ Hn. rewrite lookup_insert_ne; [done|]. intros <-. congruence.
  - intros b. rewrite lookup_insert_is_Some'. intros [<-|Hb]; apply (u_used _ _ _ _ Hq); eauto.
  - auto.
  - intros b Hb. apply (u_known _ _ _ _ Hq). rewrite flat_map_middle. cbn. set_solver.
  - eapply tracks_frame; [done|done|]. pose proof (u_clear _ _ _ _ Hq) as H. by apply Forall_app in H as [_ [? _]%Forall_cons].
Qed.

(** ** Steps *)

Definition inv (recycles : bool) (l : list addr) (m : Memory) (ts : list thread) (k : cleaner) : Prop :=
  wf l m ts k /\ (recycles = false -> uq l m ts k).

Lemma uq_here l m ts1 p ts2 k : uq l m (ts1 ++ p :: ts2) k ->
  clear (heap m) l k p /\ forall a, a ∈ recalled p -> a ∈ used m /\ a ∉ flat_map owned (ts1 ++ p :: ts2).
Proof.
  intros [_ _ Hkn Hcl]. split; [by apply Forall_app in Hcl as [_ [? _]%Forall_cons]|].
  intros a Ha. apply Hkn. rewrite flat_map_middle. set_solver.
Qed.

(** The addresses of the chain. *)
Lemma chain_known l m ts k a : wf l m ts k -> uq l m ts k -> a ∈ l -> a ∈ used m /\ a ∉ flat_map owned ts.
Proof.
  intros Hw Hq Ha. pose proof (w_covers _ _ _ _ Hw) as Hc. split.
  - apply (u_used _ _ _ _ Hq), Hc. set_solver.
  - intros Ho. apply (covers_disjoint _ _ _ a Hc); set_solver.
Qed.

Lemma inv_moves recycles l m ts1 p ts2 k p' :
  inv recycles l m (ts1 ++ p :: ts2) k -> owned p' = owned p -> own_ok (heap m) p' -> accepted_by p' = accepted_by p ->
  (gone m = [] -> forall a, a ∈ walks p' -> a ∈ l) ->
  (uq l m (ts1 ++ p :: ts2) k ->
     (forall a, a ∈ recalled p' -> a ∈ used m /\ a ∉ flat_map owned (ts1 ++ p :: ts2)) /\ clear (heap m) l k p') ->
  inv recycles l m (ts1 ++ p' :: ts2) k.
Proof.
  intros [Hw Hq] Ho Hok Ha Hwk Hu. split; [by eapply wf_moves|]. intros Hr. destruct (Hu (Hq Hr)) as [H1 H2].
  by eapply uq_moves; eauto.
Qed.

Lemma inv_frees recycles l m ts1 p ts2 k p' a :
  inv recycles l m (ts1 ++ p :: ts2) k -> owned p = [a] -> accepted_by p = [] ->
  (exists i, p' = IDone i false) -> inv recycles l (free a m) (ts1 ++ p' :: ts2) k.
Proof.
  intros [Hw Hq] Ho Ha [i ->]. split; [by eapply wf_frees; eauto|]. intros Hr. eapply uq_frees; eauto. done.
Qed.

(** The load of the head. *)
Lemma loads_inv recycles l m ts1 i now a r ts2 k :
  inv recycles l m (ts1 ++ ILoad i now a r :: ts2) k ->
  inv recycles l m (ts1 ++ IScan i now a r (head m) (head m) :: ts2) k.
Proof.
  intros Hi. destruct (wf_here _ _ _ _ _ _ (proj1 Hi)) as (_ & Ho & _).
  assert (Hhd : forall b, b ∈ ptrs (head m) -> b ∈ l) by (intros b; by eapply wf_head, Hi).
  apply (inv_moves _ _ _ _ _ _ _ _ Hi); try done. intros Hq. split.
  - intros b Hb. apply (chain_known l m _ k); [apply Hi|done|]. cbn in Hb. set_solver.
  - right. intros b Hb _. by rewrite ahead_from.
Qed.

(** A look at a node with another id. *)
Lemma scans_inv recycles l m ts1 i now a r h c n ts2 k :
  inv recycles l m (ts1 ++ IScan i now a r h (Some c) :: ts2) k -> heap m !! c = Some n -> entry_id (entry n) <> i ->
  inv recycles l m (ts1 ++ IScan i now a r h (next n) :: ts2) k.
Proof.
  intros Hi Hn Hne. pose proof (proj1 Hi) as Hw. destruct (wf_here _ _ _ _ _ _ Hw) as (_ & Ho & Hwk).
  apply (inv_moves _ _ _ _ _ _ _ _ Hi); try done.
  - intros Hg b Hb. apply (wf_walk _ _ _ _ c n b Hw); [|done|done]. apply Hwk; [done|]. cbn. set_solver.
  - intros Hq. destruct (uq_here _ _ _ _ _ _ Hq) as [Hcl Hrc]. cbn in Hcl, Hrc.
    assert (Hc : c ∉ flat_map owned (ts1 ++ IScan i now a r h (Some c) :: ts2)) by (apply Hrc; set_solver).
    destruct (walk_on _ _ _ _ _ _ Hw Hn Hc) as [Hl Ht]. split; [|by apply Ht].
    intros b [Hb|Hb]%elem_of_app; [apply Hrc; set_solver|]. by apply (chain_known l m _ k), Hl.
Qed.

Lemma tstep_inv recycles l m ts1 p ts2 k f p' m' :
  inv recycles l m (ts1 ++ p :: ts2) k -> allowed recycles f p m = true -> tstep f p m = Ret (p', m') ->
  exists l', inv recycles l' m' (ts1 ++ p' :: ts2) k.
Proof.
  intros Hi Hal. pose proof (proj1 Hi) as Hw. destruct (wf_here _ _ _ _ _ _ Hw) as (Hc & Ho & Hwk).
  assert (Hhd : forall a, a ∈ ptrs (head m) -> a ∈ l) by (intros a; by eapply wf_head).
  assert (Hnx : forall c n, c ∈ walks p -> heap m !! c = Some n -> gone m = [] -> forall a, a ∈ ptrs (next n) -> a ∈ l)
    by (intros c n Hcw Hn Hg a; eapply wf_walk; eauto).
  assert (Hread : forall q, owned q = [] -> own_ok (heap m) q -> accepted_by q = [] -> recalled q = [] ->
    (gone m = [] -> forall a, a ∈ walks q -> a ∈ l) -> clear (heap m) l k q -> owned p = [] -> accepted_by p = [] ->
    inv recycles l m (ts1 ++ q :: ts2) k).
  { intros q H1 H2 H3 H4 H5 H6 H7 H8. apply (inv_moves _ _ _ _ _ _ _ _ Hi); try congruence; try done.
    intros _. by rewrite H4; split; [set_solver|]. }
  destruct p as [i now|i now a r|i now a r h [c|]|i now a r h|i res|i|i [c|]|i res| |cnt [c|]|cnt]; cbn [tstep];
    rewrite ?outcome_bind_ret; intros Hs; try (destruct Hs as (n & Hn & Hs); apply read_ret in Hn);
    try injection Hs as <- <-; try (exists l; first [done|by apply Hread]).
  - exists l. cbn in Hal. apply andb_true_iff in Hal as [Hal Hnew]. apply bool_decide_eq_true in Hal.
    split; [by apply alloc_wf|]. intros ->. apply bool_decide_eq_true in Hnew.
    apply uq_alloc; [done|done|done|by apply Hi].
  - exists l. by apply loads_inv.
  - exists l. destruct (Z.eqb_spec (entry_id (entry n)) i) as [He|He]; injection Hs as <- <-; [|by eapply scans_inv].
    eapply inv_frees; eauto; done.
  - exists l. split; [by eapply links_wf|]. intros Hr. apply uq_links; [done|by apply Hi].
  - destruct (decide (head m = h)) as [<-|]; [|destruct (r + 1 <? MAX_RETRIES)]; injection Hs as <- <-.
    + exists (a :: l). split; [by apply publish_wf with r|]. intros Hr. apply uq_publish with r; [done|by apply Hi].
    + exists l. apply (inv_moves _ _ _ _ _ _ _ _ Hi); cbn in *; [done|by eexists|done|set_solver|]. split; [set_solver|done].
    + exists l. eapply inv_frees; eauto; done.
  - exists l. apply Hread; try done; try (by destruct (_ =? i)). cbn. intros Hg b. destruct (_ =? i); [set_solver|]. eapply Hnx; eauto. set_solver.
  - exists l. apply Hread; try done. cbn. intros Hg b. eapply Hnx; eauto. set_solver.
Qed.

(** *** The cleaner *)

Lemma clear_impl hp hp' l l' k k' ts :
  (forall i h c, tracks hp l k i h c -> tracks hp' l' k' i h c) -> Forall (clear hp l k) ts -> Forall (clear hp' l' k') ts.
Proof. intros Ht Hc. eapply Forall_impl; [exact Hc|]. intros []; cbn; auto. Qed.

Lemma inv_looks recycles l m ts k k' :
  inv recycles l m ts k -> limbo_next k = None -> limbo_next k' = None -> clean_ok (heap m) l k' -> inv recycles l m ts k'.
Proof.
  intros [Hw Hq] Hk Hk' Hcl. split; [apply (wf_looks _ _ _ _ _ Hw); [|done]; unfold limbo; by rewrite Hk, Hk'|].
  intros Hr. destruct (Hq Hr) as [Hu Hids Hkn Hc]. split; try done. eapply clear_impl; [|exact Hc].
  intros i h c. unfold tracks, ahead. by rewrite Hk, Hk'.
Qed.

Lemma swings_inv recycles l m ts now h n r :
  inv recycles l m ts (CCas now h n r) -> head m = Some h ->
  exists l', inv recycles l' (swing (next n) (entry n) now m) ts (CDelHead now h (next n)).
Proof.
  intros [Hw Hq] Hh. destruct (wf_swings _ _ _ _ _ _ _ Hw Hh) as (l' & -> & Hw'). exists l'. split; [done|].
  intros Hr. destruct (Hq Hr) as [Hu Hids Hkn Hc]. pose proof (w_covers _ _ _ _ Hw) as [([Hno Hnd]%NoDup_cons & _ & _)%NoDup_app _].
  assert (Hn : heap m !! h = Some n) by apply (w_clean _ _ _ _ Hw).
  split; cbn [swing heap used]; [done| |done|].
  - rewrite (entries_cons _ _ _ _ Hn) in Hids. by apply NoDup_cons in Hids as [_ ?].
  - eapply clear_impl; [|exact Hc]. intros i z w. apply (tracks_without _ _ [] h l' _ _ (next n)); try done.
    apply (from_linked (heap m) (next n) [] l' Hnd). apply (w_chain _ _ _ _ Hw').
Qed.

Lemma unlinks_inv recycles l m ts now prev c n p removed :
  inv recycles l m ts (CUnlink now prev c n removed) -> heap m !! prev = Some p ->
  exists l', inv recycles l' (unlink prev (mkNode (entry p) (next n)) (entry n) now m) ts (CDel now prev c (next n) removed).
Proof.
  intros [Hw Hq] Hp. destruct (wf_unlinks _ _ _ _ _ _ _ _ _ Hw Hp) as (l1 & l2 & -> & Hw'). exists (l1 ++ prev :: l2).
  split; [done|]. intros Hr. destruct (Hq Hr) as [Hu Hids Hkn Hc].
  pose proof (w_covers _ _ _ _ Hw') as [(Hnd' & _ & _)%NoDup_app _].
  assert (Hfr : forall a, entry <$> <[prev := mkNode (entry p) (next n)]> (heap m) !! a = entry <$> heap m !! a).
  { intros a. destruct (decide (a = prev)) as [->|]; [by rewrite lookup_insert_eq, Hp|by rewrite lookup_insert_ne]. }
  assert (Hcn : heap m !! c = Some n) by apply (w_clean _ _ _ _ Hw).
  destruct (limbo_target _ _ _ _ c (next n) Hw' eq_refl) as (_ & Hno & _).
  split; cbn [unlink heap used]; [| |done|].
  - intros a. rewrite lookup_insert_is_Some'. intros [<-|Ha]; apply Hu; eauto.
  - rewrite (entries_frame (heap m)) by (intros; apply Hfr). rewrite entries_app, (entries_cons _ prev p l2 Hp).
    rewrite entries_app, (entries_cons _ prev p (c :: l2) Hp), (entries_cons _ c n l2 Hcn) in Hids. eapply sublist_NoDup; [exact Hids|]. apply fmap_sublist.
    apply sublist_app; [done|]. apply sublist_skip. by apply sublist_cons.
  - eapply clear_impl; [|exact Hc]. intros i z w. rewrite (cons_middle prev l1 (c :: l2)), (cons_middle prev l1 l2), !app_assoc.
    rewrite (cons_middle prev l1 l2), app_assoc in Hno, Hnd'.
    apply (tracks_without _ _ _ c l2 _ _ (next n)); try done. apply (from_linked (heap m)); [done|].
    pose proof (w_chain _ _ _ _ Hw) as Hch. rewrite (cons_middle prev l1 (c :: l2)), app_assoc in Hch.
    destruct (linked_app _ _ _ _ _ Hch) as (n' & Hn' & Hl). by assert (n' = n) as -> by congruence.
Qed.

Lemma deletes_inv recycles l m ts k k' a nx :
  inv recycles l m ts k -> limbo_next k = Some (a, nx) -> limbo_next k' = None -> clean_ok (delete a (heap m)) l k' ->
  inv recycles l (free a m) ts k'.
Proof.
  intros [Hw Hq] Hk Hk' Hcl. split.
  { apply (wf_deletes _ _ _ _ _ _ Hw); [unfold limbo; by rewrite Hk|unfold limbo; by rewrite Hk'|done]. }
  intros Hr. destruct (Hq Hr) as [Hu Hids Hkn Hc]. destruct (limbo_target _ _ _ _ _ _ Hw Hk) as (_ & Hno & _).
  split; cbn [free set_heap heap used]; [| |done|].
  - intros b Hb. apply Hu. apply lookup_delete_is_Some in Hb as [_ ?]. done.
  - rewrite (entries_frame (heap m)); [done|]. intros b Hb. f_equal. apply lookup_delete_ne. by intros <-.
  - eapply clear_impl; [|exact Hc]. intros i z w. by apply tracks_freed with nx.
Qed.

(** The cleaner always reads a node that is there. *)
Lemma cstep_inv recycles l m ts k now :
  inv recycles l m ts k -> exists k' m', cstep now k m = Ret (k', m') /\ exists l', inv recycles l' m' ts k'.
Proof.
  intros Hi. pose proof (proj1 Hi) as Hw. pose proof (w_clean _ _ _ _ Hw) as Hcl. pose proof (w_covers _ _ _ _ Hw) as Hc.
  assert (Hlive : forall a, a ∈ l ++ limbo k -> exists n, heap m !! a = Some n).
  { intros a Ha. apply Hc. set_solver. }
  assert (Hhd : forall h, head m = Some h -> h ∈ l) by (intros h Hh; eapply wf_head; [done|]; rewrite Hh; set_solver).
  destruct k as [|t|t h r|t h n r|t h nx|t h|t prev [c|] rm|t prev c n rm|t prev c nx rm]; cbn [cstep clean_ok] in *.
  - do 2 eexists. split; [done|]. exists l. by apply (inv_looks _ _ _ _ _ _ Hi).
  - do 2 eexists. split; [done|]. exists l. destruct (head m) eqn:Eh; apply (inv_looks _ _ _ _ _ _ Hi); try done. cbn. auto.
  - destruct (Hlive h) as [n Hn]; [set_solver|]. unfold read. rewrite Hn. do 2 eexists. split; [done|]. exists l.
    destruct (expired t (entry n)) eqn:Ex; apply (inv_looks _ _ _ _ _ _ Hi); try done; cbn; auto.
  - destruct (decide (head m = Some h)) as [Eh|Eh].
    + do 2 eexists. split; [done|]. by eapply swings_inv.
    + destruct (head m) as [h'|] eqn:Eh'; do 2 eexists; (split; [done|]); exists l; [destruct (_ <? _)|];
        apply (inv_looks _ _ _ _ _ _ Hi); try done; cbn; auto.
  - destruct (Hlive h) as [n Hn]; [set_solver|]. unfold read. rewrite Hn. do 2 eexists. split; [done|]. exists l.
    destruct nx as [h'|]; eapply (deletes_inv _ _ _ _ _ _ _ _ Hi); try done. cbn. by apply Hcl.
  - destruct (Hlive h) as [n Hn]; [set_solver|]. unfold read. rewrite Hn. do 2 eexists. split; [done|]. exists l.
    apply (inv_looks _ _ _ _ _ _ Hi); [done..|]. split; [done|]. by exists n.
  - destruct Hcl as [Hp (np & Hnp & Hnx)].
    assert (Hcin : c ∈ l) by (eapply linked_next; [apply (w_chain _ _ _ _ Hw)|..]; eauto).
    destruct (Hlive c) as [n Hn]; [set_solver|]. unfold read. rewrite Hn. do 2 eexists. split; [done|]. exists l.
    destruct (expired t (entry n)) eqn:Ex; apply (inv_looks _ _ _ _ _ _ Hi); try done; cbn; unfold points; eauto 10.
  - do 2 eexists. split; [done|]. exists l. by apply (inv_looks _ _ _ _ _ _ Hi).
  - destruct Hcl as (Hp & (np & Hnp & Hnx) & Hrest). unfold read. rewrite Hnp. do 2 eexists. split; [done|]. by eapply unlinks_inv.
  - destruct Hcl as (Hp & Hpp & Hpc). destruct (Hlive c) as [n Hn]; [set_solver|]. unfold read. rewrite Hn.
    do 2 eexists. split; [done|]. exists l. eapply (deletes_inv _ _ _ _ _ _ _ _ Hi); try done. split; [done|].
    destruct Hpp as (np & Hnp & Hnx). exists np. split; [|done]. rewrite lookup_delete_ne; [done|]. intros <-.
    eapply (covers_disjoint _ l _ c Hc); [done|]. unfold limbo. cbn. set_solver.
Qed.

Lemma turn_inv recycles c s s' l :
  inv recycles l (mem s) (threads s) (sweeper s) -> turn recycles c s = Ret s' ->
  exists l', inv recycles l' (mem s') (threads s') (sweeper s').
Proof.
  destruct s as [m ts k]. intros Hi. destruct c as [t f|now]; cbn [turn mem threads sweeper] in *.
  - destruct (ts !! t) as [p|] eqn:Et; [|intros [= <-]; by exists l].
    destruct (allowed recycles f p m) eqn:Ea; [|intros [= <-]; by exists l].
    rewrite outcome_bind_ret. intros ([p' m'] & Hs & [= <-]). cbn [mem threads sweeper].
    apply list_elem_of_split_length in Et as (ts1 & ts2 & -> & ->).
    replace (<[length ts1 := p']> (ts1 ++ p :: ts2)) with (ts1 ++ p' :: ts2); [by eapply tstep_inv|].
    replace (length ts1) with (length ts1 + 0)%nat by lia. by rewrite insert_app_r.
  - destruct (cstep_inv recycles l m ts k now Hi) as (k' & m' & -> & Hex). intros [= <-]. exact Hex.
Qed.

Lemma run_inv_reclaim recycles cs s s' l :
  inv recycles l (mem s) (threads s) (sweeper s) -> run recycles cs s = Ret s' ->
  exists l', inv recycles l' (mem s') (threads s') (sweeper s').
Proof.
  revert s l; induction cs as [|c cs IH]; intros s l Hi; cbn [run]; [intros [= <-]; by exists l|].
  rewrite outcome_bind_ret. intros (s1 & Ht & Hr). destruct (turn_inv _ _ _ _ _ Hi Ht) as [l1 H1]. by eapply IH.
Qed.

Lemma initial_inv recycles reqs :
  inv recycles [] (mem (initial reqs)) (threads (initial reqs)) (sweeper (initial reqs)).
Proof.
  assert (Hf : forall {B} (f : thread -> list B), (forall r, f (called r) = []) -> flat_map f (map called reqs) = []).
  { intros B f Hf. induction reqs as [|r reqs IH]; [done|]. cbn. by rewrite Hf, IH. }
  assert (Hall : forall P : thread -> Prop, (forall r, P (called r)) -> Forall P (map called reqs)).
  { intros P HP. apply Forall_fmap, Forall_forall. intros r _. apply HP. }
  split; [split|intros _; split]; cbn [initial mem threads sweeper heap head accepted gone used]; try done.
  - rewrite Hf by by intros []. cbn. split; [constructor|]. intros a. rewrite lookup_empty. split; [by intros [? ?]|set_solver].
  - apply Hall. by intros [].
  - rewrite Hf by by intros []. done.
  - rewrite Hf by by intros []. set_solver.
  - intros a. rewrite lookup_empty. by intros [? ?].
  - constructor.
  - rewrite Hf by by intros []. set_solver.
  - apply Hall. by intros [].
Qed.


(** A walk that stands on an entry while [cleanup] deletes it reads freed memory: the fence before
    the [delete] keeps no reader away.  Here [is_duplicate] has loaded the head. *)
Theorem dedup_reader_reads_freed i j :
  run false (replicate 4 (Thread 0 1) ++ [Thread 1 1] ++ replicate 5 (Cleaner 3600001) ++ [Thread 1 1])
    (initial [InsertCall i 0; IsDuplicateCall j]) = UB.
Proof. vm_compute. reflexivity. Qed.

(** An allocator that hands an address out again lets [insert] accept an id twice: thread 1 has
    scanned the chain of one old entry; the entry is deleted, thread 2 inserts the same id in a
    node at the same address, and the compare-and-swap of thread 1 finds the head it knew. *)
Theorem dedup_recycled_head_accepts_twice :
  exists s, run true (replicate 4 (Thread 0 1) ++ replicate 4 (Thread 1 2) ++ replicate 5 (Cleaner 3600001) ++
      replicate 4 (Thread 2 1) ++ [Thread 1 2])
    (initial [InsertCall 7 0; InsertCall 4103 3600001; InsertCall 4103 3600001]) = Ret s /\
  threads s = [IDone 7 true; IDone 4103 true; IDone 4103 true] /\
  entries_at (heap (mem s)) [2; 1]%positive = [mkEntry 4103 3600001; mkEntry 4103 3600001] /\
  head (mem s) = Some 2%positive.
Proof. vm_compute. eexists. split_and!; reflexivity. Qed.

End DedupReclaim.

(** ** A concrete run *)

Module ReclaimRun.
Import DedupReclaim.

(** An entry is inserted, a second one while the cleaner looks at the first; the first is taken
    out from behind it. *)
Definition requests : list request := [InsertCall 7 0; InsertCall 4103 3600001; IsDuplicateCall 7].
Definition schedule : list actor :=
  replicate 4 (Thread 0 1) ++ replicate 4 (Thread 1 2) ++ replicate 3 (Cleaner 3600001) ++ [Thread 1 2] ++
  replicate 7 (Cleaner 3600001) ++ replicate 3 (Thread 2 3).
End ReclaimRun.

