(* ===== verification/Dlq.v ===== *)
(** * The dead-letter queue: [src/core/events/dead_letter_queue.cpp]

    Module [DeadLetterQueue]: the bounded buffer of copies of dropped events and
    the cumulative counter.  The mutex makes each operation one step. *)

From S2P Require Import Prelude Event.

Module DeadLetterQueue.

Definition MAX_STORED_EVENTS : Z := 1000.

(** The deque, oldest first. *)
Record t := mk { total_dropped_ : Z; stored_events_ : list Event }.

Definition new : t := mk 0 [].

(** The ring-buffer step shared by [push] and [pushBatch]. *)
Definition store_one (stored : list Event) (e : Event) : list Event :=
  (if MAX_STORED_EVENTS <=? zlen stored then tail stored else stored) ++ [e].

Definition push (e : Event) (q : t) : t :=
  mk (add64 (total_dropped_ q) 1) (store_one (stored_events_ q) e).

(** The loop over the batch: null pointers are skipped. *)
Fixpoint store_batch (h : Heap) (events : list EventPtr) (stored : list Event) : outcome (list Event) :=
  match events with
  | [] => Ret stored
  | None :: events' => store_batch h events' stored
  | evt :: events' => e ← deref h evt; store_batch h events' (store_one stored e)
  end.

Definition pushBatch (h : Heap) (events : list EventPtr) (q : t) : outcome t :=
  match events with
  | [] => Ret q
  | _ => stored ← store_batch h events (stored_events_ q);
         Ret (mk (add64 (total_dropped_ q) (zlen events)) stored)
  end.

Definition totalDropped (q : t) : Z := total_dropped_ q.
Definition size (q : t) : Z := zlen (stored_events_ q).

(** Newest first. *)
Definition getRecentEvents (max_count : Z) (q : t) : list Event :=
  let count := Z.min max_count (zlen (stored_events_ q)) in
  take (Z.to_nat count) (rev (stored_events_ q)).

Definition clear (q : t) : t := mk (total_dropped_ q) [].

(** ** What the queue promises *)

Inductive op := Push (e : Event) | PushBatch (events : list EventPtr) | Clear.

Definition dlq_op (h : Heap) (q : t) (o : op) : outcome t :=
  match o with
  | Push e => Ret (push e q)
  | PushBatch es => pushBatch h es q
  | Clear => Ret (clear q)
  end.

Fixpoint run (h : Heap) (ops : list op) (q : t) : outcome t :=
  match ops with [] => Ret q | o :: ops' => q' ← dlq_op h q o; run h ops' q' end.

Definition lastn {A} (n : nat) (l : list A) : list A := drop (length l - n) l.

(** The events a batch holds. *)
Definition contents (h : Heap) (events : list EventPtr) : list Event :=
  omap (fun p => match p with Some l => h !! l | None => None end) events.

(** Every event handed over since the last [clear]. *)
Definition history (h : Heap) (past : list Event) (o : op) : list Event :=
  match o with
  | Push e => past ++ [e]
  | PushBatch es => past ++ contents h es
  | Clear => []
  end.

Definition counted (o : op) : Z :=
  match o with Push _ => 1 | PushBatch es => zlen es | Clear => 0 end.

Definition no_dangling (h : Heap) (o : op) : Prop :=
  match o with PushBatch es => Forall (fun p => p = None \/ live h p) es | _ => True end.

Lemma zlen_lastn {A} n (l : list A) : zlen (lastn n l) = Z.min (Z.of_nat n) (zlen l).
Proof. unfold lastn, zlen. rewrite length_drop. lia. Qed.

Lemma store_one_lastn l e : store_one (lastn 1000 l) e = lastn 1000 (l ++ [e]).
Proof.
  unfold store_one. rewrite zlen_lastn. unfold MAX_STORED_EVENTS. change (Z.of_nat 1000) with 1000.
  unfold lastn. rewrite length_app. cbn [length].
  destruct (Z.leb_spec 1000 (Z.min 1000 (zlen l))) as [Hge|Hlt]; unfold zlen in *.
  - rewrite drop_app_le by lia. f_equal.
    replace (length l + 1 - 1000)%nat with (S (length l - 1000)) by lia.
    generalize (length l - 1000)%nat; clear. intros n; revert n.
    induction l as [|x l IH]; intros [|n]; simpl; done.
  - replace (length l - 1000)%nat with O by lia. replace (length l + 1 - 1000)%nat with O by lia. done.
Qed.

Lemma store_batch_lastn h events l :
  Forall (fun p => p = None \/ live h p) events ->
  store_batch h events (lastn 1000 l) = Ret (lastn 1000 (l ++ contents h events)).
Proof.
  intros Hl. revert l. induction Hl as [|p events Hp Hl IH]; intros l.
  { simpl. by rewrite app_nil_r. }
  destruct Hp as [->|(a & e & -> & He)]; simpl; [apply IH|].
  rewrite He. cbn [mbind outcome_bind]. rewrite store_one_lastn, IH. by rewrite <- app_assoc.
Qed.

(** Whatever is pushed, singly or in batches with null entries, the queue holds the latest
    1000 of the events handed over since the last [clear], reports them newest first, and its
    counter counts every call's entries, null ones included, for ever. *)
Theorem dlq_keeps_latest h ops :
  Forall (no_dangling h) ops ->
  exists q, run h ops new = Ret q /\
    stored_events_ q = lastn 1000 (fold_left (history h) ops []) /\
    total_dropped_ q = wrap 64 (zsum counted ops) /\
    forall n, getRecentEvents n q = take (Z.to_nat n) (rev (lastn 1000 (fold_left (history h) ops []))).
Proof.
  intros Hops.
  enough (Hg : forall q past, stored_events_ q = lastn 1000 past -> in_word 64 (total_dropped_ q) ->
    exists q', run h ops q = Ret q' /\ stored_events_ q' = lastn 1000 (fold_left (history h) ops past) /\
      total_dropped_ q' = wrap 64 (total_dropped_ q + zsum counted ops)).
  { destruct (Hg new [] eq_refl ltac:(unfold in_word; simpl; lia)) as (q & Hr & Hs & Ht). exists q.
    split; [done|]. split; [done|]. split; [done|]. intros n. unfold getRecentEvents. rewrite Hs.
    set (l := lastn 1000 _). unfold zlen. rewrite Z2Nat.inj_min, Nat2Z.id.
    destruct (decide (Z.to_nat n <= length l)%nat).
    - by rewrite Nat.min_l.
    - rewrite Nat.min_r by lia. rewrite !take_ge; [done|rewrite length_rev; lia..]. }
  induction Hops as [|o ops Ho Hops IH]; intros q past Hq Hw.
  { exists q. simpl. rewrite Z.add_0_r, wrap_small by done. done. }
  assert (Hstep : exists q1, dlq_op h q o = Ret q1 /\
            stored_events_ q1 = lastn 1000 (history h past o) /\
            total_dropped_ q1 = wrap 64 (total_dropped_ q + counted o)).
  { destruct o as [e|es|]; simpl in *.
    - eexists. split; [done|]. simpl. rewrite Hq, store_one_lastn. done.
    - destruct es as [|p es].
      + exists q. simpl. rewrite app_nil_r, zlen_nil, Z.add_0_r, wrap_small by done. done.
      + unfold pushBatch. rewrite Hq, store_batch_lastn by done. cbn [mbind outcome_bind].
        eexists. split; [done|]. done.
    - eexists. split; [done|]. simpl. by rewrite Z.add_0_r, wrap_small. }
  destruct Hstep as (q1 & H1 & Hs1 & Ht1). cbn [run fold_left]. rewrite H1. cbn [mbind outcome_bind].
  destruct (IH q1 _ Hs1) as (q2 & H2 & Hs2 & Ht2); [rewrite Ht1; by apply wrap_range|].
  exists q2. split; [done|]. split; [done|]. rewrite Ht2, Ht1, wrap_add_l. cbn [zsum fold_right].
  f_equal. unfold zsum. lia.
Qed.

Lemma dlq_keeps_latest_witness :
  Forall (no_dangling ∅) [PushBatch [None]] /\
  exists q, run ∅ [PushBatch [None]] new = Ret q /\ total_dropped_ q = 1.
Proof.
  assert (H : Forall (no_dangling ∅) [PushBatch [None]]) by (repeat constructor).
  split; [exact H|]. destruct (dlq_keeps_latest ∅ _ H) as (q & Hq & _ & Ht & _).
  exists q. split; [exact Hq|exact Ht].
Defined.

End DeadLetterQueue.
