(* ===== verification/Metrics.v ===== *)
(** * Metrics: [include/eventstream/core/metrics/{metrics,registry}.hpp],
    [src/core/metrics/registry.cpp], [include/eventstream/core/control/thresholds.hpp]

    Module [MetricRegistry]: the named counters the components share, the
    snapshots with their health verdict, and the buffered update of the last-event
    time.  Every access to the map is under the mutex; the counters are atomics
    reached through the reference [getMetrics] returns, so an update is a change of
    the named entry.  A [double] is a binary64 number of the Standard Library's
    [SpecFloat]. *)

From S2P Require Import Prelude.
From Stdlib Require Import Sorting.Sorted Floats.SpecFloat.
From stdpp Require Import sorting.
#[local] Open Scope Z_scope.

Record Metrics := mkMetrics {
  total_events_processed : Z;
  total_events_dropped : Z;
  current_queue_depth : Z;
  last_event_timestamp_ms : Z;
  health_status : Z
}.

(** The default member initialisers. *)
Definition new_metrics : Metrics := mkMetrics 0 0 0 0 0.

Inductive HealthStatus := HEALTHY | UNHEALTHY.
Definition health_code (h : HealthStatus) : Z := match h with HEALTHY => 0 | UNHEALTHY => 1 end.

Record MetricSnapshot := mkSnapshot {
  snap_processed : Z; snap_dropped : Z; snap_depth : Z; snap_health : HealthStatus
}.

(** [get_drop_rate_percent]: the product and the sum wrap at 64 bits. *)
Definition get_drop_rate_percent (s : MetricSnapshot) : Z :=
  let total := add64 (snap_processed s) (snap_dropped s) in
  if 0 <? total then mul64 (snap_dropped s) 100 / total else 0.

(** The updates the components make through a [Metrics&]. *)
Definition add_processed (n : Z) (m : Metrics) : Metrics :=
  mkMetrics (add64 (total_events_processed m) n) (total_events_dropped m) (current_queue_depth m)
    (last_event_timestamp_ms m) (health_status m).
Definition add_dropped (n : Z) (m : Metrics) : Metrics :=
  mkMetrics (total_events_processed m) (add64 (total_events_dropped m) n) (current_queue_depth m)
    (last_event_timestamp_ms m) (health_status m).
Definition set_queue_depth (d : Z) (m : Metrics) : Metrics :=
  mkMetrics (total_events_processed m) (total_events_dropped m) d
    (last_event_timestamp_ms m) (health_status m).
Definition set_timestamp (ts : Z) (m : Metrics) : Metrics :=
  mkMetrics (total_events_processed m) (total_events_dropped m) (current_queue_depth m)
    ts (health_status m).
Definition set_health (h : HealthStatus) (m : Metrics) : Metrics :=
  mkMetrics (total_events_processed m) (total_events_dropped m) (current_queue_depth m)
    (last_event_timestamp_ms m) (health_code h).

Module MetricNames.
Definition EVENTBUS : string := "EventBusMulti".
Definition REALTIME : string := "RealtimeProcessor".
Definition TRANSACTIONAL : string := "TransactionalProcessor".
Definition BATCH : string := "BatchProcessor".
End MetricNames.

Module MetricRegistry.

(** ** Doubles *)

Definition double := spec_float.
Definition of_uint64 (n : Z) : double := binary_normalize 53 1024 n 0 false.
Definition mul (x y : double) : double := SFmul 53 1024 x y.
Definition div (x y : double) : double := SFdiv 53 1024 x y.
(** [x > y], false when either is a NaN. *)
Definition gt (x y : double) : bool := SFltb y x.

Record ControlThresholds := mkThresholds {
  max_queue_depth : Z;
  max_drop_rate : double;
  max_latency_ms : Z;
  min_events_for_evaluation : Z;
  recovery_factor : double
}.

Record t := mk {
  metrics_map_ : gmap string Metrics;
  thresholds_ : ControlThresholds
}.

Definition setThresholds (th : ControlThresholds) (r : t) : t := mk (metrics_map_ r) th.

(** [getMetrics]: [try_emplace] creates the entry on first use; [update_metrics f]
    is the call followed by the writes [f] through the reference. *)
Definition getMetrics (name : string) (r : t) : Metrics * t :=
  match metrics_map_ r !! name with
  | Some m => (m, r)
  | None => (new_metrics, mk (<[name := new_metrics]> (metrics_map_ r)) (thresholds_ r))
  end.

Definition update_metrics (f : Metrics -> Metrics) (name : string) (r : t) : t :=
  let '(m, r') := getMetrics name r in mk (<[name := f m]> (metrics_map_ r')) (thresholds_ r').

(** [(drop * 100.0) / total]. *)
Definition drop_rate (proc drop : Z) : double :=
  let total := add64 proc drop in
  if 0 <? total then div (mul (of_uint64 drop) (of_uint64 100)) (of_uint64 total)
  else of_uint64 0.

Definition buildSnapshot (m : Metrics) (th : ControlThresholds) : MetricSnapshot * Metrics :=
  let proc := total_events_processed m in
  let drop := total_events_dropped m in
  let depth := current_queue_depth m in
  let health := if (max_queue_depth th <? depth) || gt (drop_rate proc drop) (max_drop_rate th)
                then UNHEALTHY else HEALTHY in
  (mkSnapshot proc drop depth health, set_health health m).

Definition getSnapshot (name : string) (r : t) : option MetricSnapshot * t :=
  match metrics_map_ r !! name with
  | None => (None, r)
  | Some m => let '(s, m') := buildSnapshot m (thresholds_ r) in
              (Some s, mk (<[name := m']> (metrics_map_ r)) (thresholds_ r))
  end.

Definition getSnapshots (r : t) : gmap string MetricSnapshot * t :=
  ((fun m => (buildSnapshot m (thresholds_ r)).1) <$> metrics_map_ r,
   mk ((fun m => (buildSnapshot m (thresholds_ r)).2) <$> metrics_map_ r) (thresholds_ r)).

(** ** The last-event time *)

(** The thread-local buffer. *)
Record ts_buffer := mkBuffer { last_name : string; last_update_ns : Z }.
Definition new_buffer : ts_buffer := mkBuffer "" 0.

Definition UPDATE_INTERVAL_NS : Z := 1000000.

(** [now_ns] is the first reading of the clock, [now_ms] the one of [now()]. *)
Definition updateEventTimestamp (name : string) (now_ns now_ms : Z) (buffer : ts_buffer) (r : t)
    : ts_buffer * t :=
  if bool_decide (last_name buffer = name)
     && (sub64 now_ns (last_update_ns buffer) <? UPDATE_INTERVAL_NS)
  then (buffer, r)
  else
    let r' := match metrics_map_ r !! name with
              | Some m => mk (<[name := set_timestamp now_ms m]> (metrics_map_ r)) (thresholds_ r)
              | None => r
              end in
    (mkBuffer name now_ns, r').

(** A thread reports events of one name at the given times, on one clock. *)
Definition report (name : string) (times : list Z) (b : ts_buffer) (r : t) : ts_buffer * t :=
  fold_left (fun '(b, r) ns => updateEventTimestamp name ns (ns / 1000000) b r) times (b, r).

(** ** Lemmas *)

Lemma update_metrics_lookup f name r :
  metrics_map_ (update_metrics f name r) !! name =
  Some (f (default new_metrics (metrics_map_ r !! name))).
Proof.
  unfold update_metrics, getMetrics. destruct (metrics_map_ r !! name) eqn:E; simpl;
    by rewrite lookup_insert_eq.
Qed.

Lemma update_metrics_other f name name' r :
  name <> name' -> metrics_map_ (update_metrics f name r) !! name' = metrics_map_ r !! name'.
Proof.
  intros Hne. unfold update_metrics, getMetrics. destruct (metrics_map_ r !! name); simpl;
    by rewrite ?lookup_insert_ne.
Qed.

Lemma report_snoc name times ns b r :
  report name (times ++ [ns]) b r =
  let '(b', r') := report name times b r in updateEventTimestamp name ns (ns / 1000000) b' r'.
Proof. unfold report. rewrite fold_left_app. simpl. by destruct (fold_left _ times (b, r)). Qed.

(** ** Properties *)

(** A thread that reports the events of one registered name on a monotonic clock leaves a
    stored last-event time that is at most one millisecond behind the last event reported, although
    it skips the lock within a millisecond of the previous update. *)
Theorem timestamp_lag_bounded name times last m r :
  StronglySorted Z.le (times ++ [last]) -> Forall (in_word 64) (times ++ [last]) ->
  name <> ""%string -> metrics_map_ r !! name = Some m ->
  exists m', metrics_map_ (report name (times ++ [last]) new_buffer r).2 !! name = Some m' /\
    last / 1000000 - 1 <= last_event_timestamp_ms m' <= last / 1000000.
Proof.
  intros Hs Hw Hname Hm.
  enough (Hinv : let '(b, r') := report name (times ++ [last]) new_buffer r in
            exists m', metrics_map_ r' !! name = Some m' /\ last_name b = name /\
              last_event_timestamp_ms m' = last_update_ns b / 1000000 /\
              0 <= last_update_ns b <= last /\ last - last_update_ns b < UPDATE_INTERVAL_NS).
  { destruct (report name (times ++ [last]) new_buffer r) as [b r'].
    destruct Hinv as (m' & Hm' & _ & Hts & Hlag). exists m'. split; [done|]. rewrite Hts.
    unfold UPDATE_INTERVAL_NS in Hlag. split.
    - apply Z.le_sub_le_add_r. replace (last_update_ns b / 1000000 + 1)
        with ((last_update_ns b + 1 * 1000000) / 1000000) by (apply Z.div_add; lia).
      apply Z.div_le_mono; lia.
    - apply Z.div_le_mono; lia. }
  revert last Hs Hw. induction times as [|prev times IH] using rev_ind; intros last Hs Hw.
  - unfold report. cbn [app fold_left]. unfold updateEventTimestamp.
    rewrite bool_decide_eq_false_2 by (cbn; congruence). cbn [andb]. rewrite Hm.
    eexists. cbn [metrics_map_]. rewrite lookup_insert_eq. split; [done|]. simpl. split; [done|].
    split; [done|]. unfold UPDATE_INTERVAL_NS. apply (Forall_singleton (in_word 64)) in Hw.
    unfold in_word in Hw. lia.
  - assert (Hle : prev <= last /\ in_word 64 last /\ in_word 64 prev).
    { rewrite !Forall_app, !Forall_singleton in Hw. split; [|tauto].
      apply (StronglySorted_app_1_elem_of Z.le (times ++ [prev]) [last] prev last Hs); set_solver. }
    destruct Hle as (Hle & Hl64 & Hp64). rewrite report_snoc.
    specialize (IH prev).
    destruct (report name (times ++ [prev]) new_buffer r) as [b r'].
    destruct IH as (m' & Hm' & Hb & Hts & Hlag).
    { by eapply StronglySorted_app_1_l. }
    { by apply Forall_app in Hw as [? _]. }
    unfold updateEventTimestamp. rewrite bool_decide_eq_true_2 by done. cbn [andb].
    unfold in_word in *. rewrite sub64_small by (unfold UINT64_MAX; lia).
    destruct (Z.ltb_spec (last - last_update_ns b) UPDATE_INTERVAL_NS).
    + exists m'. split_and!; try done; lia.
    + rewrite Hm'. eexists. simpl. rewrite lookup_insert_eq. split; [done|]. simpl.
      unfold UPDATE_INTERVAL_NS. split_and!; try done; lia.
Qed.

Lemma timestamp_lag_bounded_witness :
  exists m', metrics_map_ (report "EventBusMulti" ([5000000] ++ [5900000]) new_buffer
    (mk {["EventBusMulti"%string := new_metrics]} (mkThresholds 0 (of_uint64 0) 0 0 (of_uint64 0)))).2
    !! "EventBusMulti"%string = Some m' /\ 4 <= last_event_timestamp_ms m' <= 5.
Proof.
  apply (timestamp_lag_bounded "EventBusMulti" [5000000] 5900000 new_metrics).
  - repeat constructor; lia.
  - repeat constructor; lia.
  - discriminate.
  - reflexivity.
Defined.

(** As long as a hundred times the events fit 64 bits, the reported percentage is the drop rate
    rounded down, between 0 and 100. *)
Theorem drop_rate_percent_exact p d dep h :
  0 <= p -> 0 <= d -> 100 * (p + d) <= UINT64_MAX ->
  let r := get_drop_rate_percent (mkSnapshot p d dep h) in
  0 <= r <= 100 /\ (0 < p + d -> r * (p + d) <= 100 * d < (r + 1) * (p + d)).
Proof.
  unfold UINT64_MAX. intros Hp Hd Hb. unfold get_drop_rate_percent. simpl.
  rewrite add64_small by (unfold UINT64_MAX; lia).
  unfold mul64. rewrite wrap_small by (unfold in_word; lia).
  destruct (Z.ltb_spec 0 (p + d)) as [Hpos|]; [|lia].
  pose proof (Z.div_mod (d * 100) (p + d) ltac:(lia)) as Hdm.
  pose proof (Z.mod_pos_bound (d * 100) (p + d) Hpos). split; [|nia].
  split; [apply Z.div_pos; lia|]. apply Z.lt_succ_r, Z.div_lt_upper_bound; lia.
Qed.

Lemma drop_rate_percent_exact_witness :
  100 * (97 + 3) <= UINT64_MAX /\ 0 <= get_drop_rate_percent (mkSnapshot 97 3 0 HEALTHY) <= 100.
Proof.
  split; [unfold UINT64_MAX; lia|].
  apply (drop_rate_percent_exact 97 3 0 HEALTHY); unfold UINT64_MAX; lia.
Defined.

(** Beyond that the product wraps: all of 2^60 events dropped is reported as 4 percent. *)
Example drop_rate_percent_wraps :
  get_drop_rate_percent (mkSnapshot 0 (2 ^ 60) 0 HEALTHY) = 4.
Proof. reflexivity. Qed.

End MetricRegistry.
