(* ===== verification/Histogram.v ===== *)
(** * The latency histogram: [include/eventstream/core/metrics/histogram.hpp]

    Module [LatencyHistogram]: 64 buckets of powers of two, the counters, the
    bounds and the percentile estimate.  The percentile argument is a [double]; its
    conversion to an index is the one of [Metrics.v]'s binary64 numbers, with the
    conversion of a value outside [size_t] undefined as in C++. *)

From S2P Require Import Prelude Metrics.
From Stdlib Require Import Sorting.Sorted Floats.SpecFloat.

Module LatencyHistogram.

Definition NUM_BUCKETS : nat := 64.

Record t := mk { buckets_ : list Z; total_count_ : Z }.

Definition create : t := mk (replicate NUM_BUCKETS 0) 0.

(** [__builtin_clzll] of a non-zero argument. *)
Definition clzll (x : Z) : Z := 63 - Z.log2 x.

Definition bucketForLatency (latency_ns : Z) : nat :=
  if latency_ns <=? 1 then O else
  let msb := 63 - clzll latency_ns in
  Nat.min (Z.to_nat msb) (NUM_BUCKETS - 1).

Definition bucketMin (bucket : nat) : Z :=
  match bucket with O => 0 | _ => Z.shiftl 1 (Z.of_nat bucket) end.

Definition bucketMax (bucket : nat) : Z :=
  if (bucket =? 63)%nat then UINT64_MAX else Z.shiftl 1 (Z.of_nat bucket + 1) - 1.

Definition record (latency_ns : Z) (h : t) : t :=
  let bucket := bucketForLatency latency_ns in
  mk (alter (fun n => add64 n 1) bucket (buckets_ h)) (add64 (total_count_ h) 1).

Definition getTotalCount (h : t) : Z := total_count_ h.

Definition getBucketCount (bucket : nat) (h : t) : Z :=
  if (NUM_BUCKETS <=? bucket)%nat then 0 else default 0 (buckets_ h !! bucket).

(** The first, and the last, bucket that is not empty. *)
Definition getMinValue (h : t) : Z :=
  match List.find (fun b => 0 <? getBucketCount b h) (seq 0 NUM_BUCKETS) with
  | Some b => bucketMin b | None => 0 end.

Definition getMaxValue (h : t) : Z :=
  match List.find (fun b => 0 <? getBucketCount b h) (rev (seq 0 NUM_BUCKETS)) with
  | Some b => bucketMax b | None => 0 end.

(** The midpoint pushed for every sample of a bucket. *)
Definition midpoint (b : nat) : Z := add64 (bucketMin b) (Z.shiftl 1 (Z.of_nat b) / 2).

Definition samples (h : t) : list Z :=
  concat (map (fun b => replicate (Z.to_nat (getBucketCount b h)) (midpoint b)) (seq 0 NUM_BUCKETS)).

(** [static_cast<size_t>]: towards zero, undefined out of range. *)
Definition to_size_t (x : spec_float) : outcome Z :=
  match x with
  | S754_zero _ => Ret 0
  | S754_finite s m e =>
      let v := Z.shiftl (Z.pos m) e in
      if v =? 0 then Ret 0
      else if s then UB else if v <=? UINT64_MAX then Ret v else UB
  | _ => UB
  end.

(** [nth_element] puts at [idx] the element sorting would put there; the samples are
    generated in increasing order. *)
Definition calculatePercentile (percentile : spec_float) (h : t) : outcome Z :=
  if total_count_ h =? 0 then Ret 0 else
  let ss := samples h in
  if zlen ss =? 0 then Ret 0 else
  idx ← to_size_t (MetricRegistry.mul (MetricRegistry.div percentile (MetricRegistry.of_uint64 100))
                     (MetricRegistry.of_uint64 (zlen ss)));
  let idx := if zlen ss <=? idx then zlen ss - 1 else idx in
  Ret (nth (Z.to_nat idx) ss 0).

(** 99.9, as the compiler reads it. *)
Definition p999 : spec_float := S754_finite false 7029837543348634 (-46).

(** The numbers of the lines: the samples, the least value, three percentiles, the greatest; None where
    there is no sample. *)
Definition printPercentiles (h : t) : outcome (option (list Z)) :=
  if getTotalCount h =? 0 then Ret None else
  p50 ← calculatePercentile (MetricRegistry.of_uint64 50) h;
  p99 ← calculatePercentile (MetricRegistry.of_uint64 99) h;
  p999 ← calculatePercentile p999 h;
  Ret (Some [getTotalCount h; getMinValue h; p50; p99; p999; getMaxValue h]).

Definition reset (h : t) : t := mk (replicate NUM_BUCKETS 0) 0.

Definition record_all (xs : list Z) (h : t) : t := fold_left (fun h x => record x h) xs h.

(** ** Lemmas *)

(** A latency lies between the bounds of its bucket, which is one of the 64. *)
Lemma bucket_spec x : in_word 64 x ->
  (bucketForLatency x < NUM_BUCKETS)%nat /\
  bucketMin (bucketForLatency x) <= x <= bucketMax (bucketForLatency x).
Proof.
  unfold in_word, NUM_BUCKETS. intros Hx. unfold bucketForLatency.
  destruct (Z.leb_spec x 1) as [|Hx1]; [split; [lia|]; change (bucketMin 0) with 0; change (bucketMax 0) with 1; lia|].
  unfold clzll. replace (63 - (63 - Z.log2 x)) with (Z.log2 x) by lia.
  pose proof (Z.log2_spec x ltac:(lia)) as [Hlo Hhi].
  assert (H1 : 1 <= Z.log2 x < 64) by (split; [apply Z.log2_le_pow2|apply Z.log2_lt_pow2]; lia).
  rewrite Nat.min_l by (unfold NUM_BUCKETS; lia). split; [lia|].
  unfold bucketMin, bucketMax. destruct (Z.to_nat (Z.log2 x)) as [|k] eqn:E; [lia|].
  rewrite <- E, !Z2Nat.id, Z.shiftl_1_l by lia. split; [lia|].
  destruct (Nat.eqb_spec (Z.to_nat (Z.log2 x)) 63).
  - unfold UINT64_MAX. lia.
  - rewrite Z.shiftl_1_l. rewrite <- Z.add_1_r in Hhi. lia.
Qed.

Lemma bucketMin_mono a b : (a <= b)%nat -> bucketMin a <= bucketMin b.
Proof.
  intros. unfold bucketMin. destruct a, b; try lia; rewrite ?Z.shiftl_1_l.
  - apply Z.pow_nonneg. lia.
  - apply Z.pow_le_mono_r; lia.
Qed.

Lemma bucketMax_mono a b : (a <= b)%nat -> (b < 64)%nat -> bucketMax a <= bucketMax b.
Proof.
  intros Hab Hb. unfold bucketMax.
  destruct (Nat.eqb_spec a 63), (Nat.eqb_spec b 63); try lia; rewrite ?Z.shiftl_1_l.
  - pose proof (Z.pow_le_mono_r 2 (Z.of_nat a + 1) 63 ltac:(lia) ltac:(lia)). unfold UINT64_MAX. lia.
  - pose proof (Z.pow_le_mono_r 2 (Z.of_nat a + 1) (Z.of_nat b + 1) ltac:(lia) ltac:(lia)). lia.
Qed.

Lemma midpoint_in b : (b < 64)%nat -> bucketMin b <= midpoint b <= bucketMax b.
Proof.
  intros Hb. unfold midpoint.
  assert (H64 : 2 ^ Z.of_nat b <= 2 ^ 63) by (apply Z.pow_le_mono_r; lia).
  destruct b as [|b]; [vm_compute; split; discriminate|]. unfold bucketMin, bucketMax.
  rewrite !Z.shiftl_1_l. set (k := Z.of_nat (S b)) in *.
  assert (Hk : 2 ^ k = 2 * 2 ^ (k - 1)) by (rewrite <- Z.pow_succ_r; [f_equal; lia|lia]).
  pose proof (Z.pow_pos_nonneg 2 (k - 1) ltac:(lia) ltac:(lia)).
  replace (2 ^ k / 2) with (2 ^ (k - 1)) by (rewrite Hk, Z.mul_comm, Z.div_mul; lia).
  rewrite add64_small by (unfold UINT64_MAX; lia).
  destruct (Nat.eqb_spec (S b) 63); [unfold UINT64_MAX; lia|].
  rewrite Z.pow_add_r by lia. lia.
Qed.

(** How often a bucket was hit. *)
Definition hits (b : nat) (xs : list Z) : Z := zsum (fun x => if (bucketForLatency x =? b)%nat then 1 else 0) xs.

Lemma hits_nonneg b xs : 0 <= hits b xs <= zlen xs.
Proof.
  pose proof (zsum_const 0 xs) as H0. pose proof (zsum_const 1 xs) as H1.
  pose proof (zsum_le (fun _ => 0) (fun x => if (bucketForLatency x =? b)%nat then 1 else 0) xs) as Hlo.
  pose proof (zsum_le (fun x => if (bucketForLatency x =? b)%nat then 1 else 0) (fun _ => 1) xs) as Hhi.
  unfold hits. split; [specialize (Hlo ltac:(intros x; cbn beta; destruct (_ =? _)%nat; lia)); lia|].
  specialize (Hhi ltac:(intros x; cbn beta; destruct (_ =? _)%nat; lia)). lia.
Qed.

Lemma record_all_counts xs :
  Forall (in_word 64) xs -> zlen xs <= UINT64_MAX ->
  length (buckets_ (record_all xs create)) = NUM_BUCKETS /\
  total_count_ (record_all xs create) = zlen xs /\
  forall b, getBucketCount b (record_all xs create) = hits b xs.
Proof.
  intros Hw. induction xs as [|x xs IH] using rev_ind; intros Hlen.
  { split; [done|]. split; [done|]. intros b. unfold getBucketCount.
    destruct (Nat.leb_spec NUM_BUCKETS b); [done|].
    change (buckets_ (record_all [] create)) with (replicate NUM_BUCKETS 0).
    by rewrite lookup_replicate_2. }
  rewrite zlen_app, zlen_cons, zlen_nil in *. apply Forall_app in Hw as [Hw Hx].
  apply (Forall_singleton (in_word 64)) in Hx.
  destruct (IH Hw ltac:(lia)) as (Hl & Ht & Hb). unfold record_all in *. rewrite fold_left_app.
  set (h := fold_left _ xs create) in *. cbn [fold_left record buckets_ total_count_].
  split; [by rewrite length_alter|]. pose proof (zlen_nonneg xs).
  split; [rewrite Ht; apply add64_small; lia|].
  intros b. specialize (Hb b). pose proof (hits_nonneg b xs) as Hh.
  destruct (bucket_spec x Hx) as [Hlt _].
  unfold getBucketCount in *. unfold record. cbn [buckets_]. unfold hits in *. rewrite zsum_app. cbn [zsum fold_right].
  destruct (Nat.eqb_spec (bucketForLatency x) b) as [<-|Hne].
  - destruct (Nat.leb_spec NUM_BUCKETS (bucketForLatency x)); [lia|].
    destruct (lookup_lt_is_Some_2 (buckets_ h) (bucketForLatency x)) as [n Hn]; [lia|].
    rewrite list_lookup_alter_eq, Hn. rewrite Hn in Hb. cbn in Hb |- *. rewrite Hb. rewrite add64_small by lia. lia.
  - rewrite list_lookup_alter_ne by done. lia.
Qed.

(** [find] over buckets in increasing, or decreasing, order returns the extreme one. *)
Lemma find_extreme (R : nat -> nat -> Prop) (p : nat -> bool) l b :
  (forall x, R x x) -> StronglySorted R l -> List.find p l = Some b ->
  p b = true /\ b ∈ l /\ forall c, c ∈ l -> p c = true -> R b c.
Proof.
  intros Hrefl Hs. induction Hs as [|a l Hs IH Hf]; [done|]. simpl. destruct (p a) eqn:Ea.
  - intros [= ->]. split; [done|]. split; [left|].
    intros c [->|Hc]%elem_of_cons _; [done|]. by eapply Forall_forall in Hc; [|exact Hf].
  - intros Hb. destruct (IH Hb) as (Hpb & Hin & Hext). split; [done|]. split; [by right|].
    intros c [->|Hc]%elem_of_cons Hpc; [congruence|auto].
Qed.

Lemma seq_increasing s n : StronglySorted le (seq s n).
Proof.
  revert s; induction n as [|n IH]; intros s; simpl; constructor; [apply IH|].
  apply Forall_forall. intros x Hx%elem_of_seq. lia.
Qed.

Lemma seq_decreasing s n : StronglySorted ge (rev (seq s n)).
Proof.
  induction n as [|n IH]; [constructor|]. rewrite seq_S, rev_app_distr. simpl. constructor; [done|].
  apply Forall_forall. intros x Hx%list_elem_of_In%in_rev%list_elem_of_In%elem_of_seq. lia.
Qed.

Lemma hits_pos b xs : 0 < hits b xs <-> exists x, x ∈ xs /\ bucketForLatency x = b.
Proof.
  induction xs as [|y xs IH]; [split; [done|]; intros (x & Hx & _); by apply not_elem_of_nil in Hx|].
  pose proof (hits_nonneg b xs) as Hh. unfold hits in *. cbn [zsum fold_right].
  destruct (Nat.eqb_spec (bucketForLatency y) b) as [He|Hne].
  - split; [|intros _; unfold zsum in Hh; lia]. intros _. exists y. split; [left|done].
  - rewrite Z.add_0_l. rewrite IH. split.
    + intros (x & Hx & Hb). exists x. split; [by right|done].
    + intros (x & [->|Hx]%elem_of_cons & Hb); [done|]. by exists x.
Qed.

Lemma samples_in h v :
  v ∈ samples h -> exists b, (b < NUM_BUCKETS)%nat /\ 0 < getBucketCount b h /\ v = midpoint b.
Proof.
  unfold samples. intros Hv. apply list_elem_of_In, in_concat in Hv as (l & Hl & Hv).
  apply in_map_iff in Hl as (b & <- & Hb). apply in_seq in Hb. exists b.
  apply list_elem_of_In, elem_of_replicate in Hv as [-> Hn].
  split; [lia|]. split; [lia|done].
Qed.

Lemma samples_length xs :
  Forall (in_word 64) xs -> zlen xs <= UINT64_MAX -> xs <> [] -> samples (record_all xs create) <> [].
Proof.
  intros Hw Hl Hne. destruct xs as [|x xs']; [done|]. set (xs := x :: xs') in *.
  destruct (record_all_counts xs Hw Hl) as (_ & _ & Hc).
  apply Forall_cons_1 in Hw as [Hx _]. destruct (bucket_spec x Hx) as [Hlt _].
  assert (Hpos : 0 < hits (bucketForLatency x) xs) by (apply hits_pos; exists x; split; [left|done]).
  rewrite <- Hc in Hpos. intros Hnil.
  assert (Hin : midpoint (bucketForLatency x) ∈ samples (record_all xs create)).
  { unfold samples. apply list_elem_of_In, in_concat. eexists. split.
    - apply in_map_iff. exists (bucketForLatency x). split; [done|]. apply in_seq. lia.
    - apply list_elem_of_In, elem_of_replicate. split; [done|lia]. }
  rewrite Hnil in Hin. by apply not_elem_of_nil in Hin.
Qed.

Section Recorded.
Variable xs : list Z.
Hypothesis xs_words : Forall (in_word 64) xs.
Hypothesis xs_count : zlen xs <= UINT64_MAX.
Hypothesis xs_some : xs <> [].

Let h := record_all xs create.

(** The lower bound of the first non-empty bucket, the upper bound of the last. *)
Lemma min_bucket : exists b, (b < NUM_BUCKETS)%nat /\ getMinValue h = bucketMin b /\
  forall c, (c < NUM_BUCKETS)%nat -> 0 < getBucketCount c h -> (b <= c)%nat.
Proof using xs_words xs_count xs_some.
  unfold getMinValue.
  destruct (List.find (fun b => 0 <? getBucketCount b h) (seq 0 NUM_BUCKETS)) as [b|] eqn:Ef.
  - apply (find_extreme le) in Ef as (Hp & Hin & Hext); [|lia|apply seq_increasing].
    apply elem_of_seq in Hin. exists b. split; [lia|]. split; [done|].
    intros c Hc Hpc. apply Hext; [apply elem_of_seq; lia|by apply Z.ltb_lt].
  - exfalso. apply (samples_length xs xs_words xs_count xs_some).
    apply elem_of_nil_inv. intros v Hv. apply samples_in in Hv as (b & Hb & Hpos & _).
    eapply find_none in Ef; [|apply in_seq; split; [lia|exact Hb]]. bool_to_prop. fold h in Hpos. lia.
Qed.

Lemma max_bucket : exists b, (b < NUM_BUCKETS)%nat /\ getMaxValue h = bucketMax b /\
  forall c, (c < NUM_BUCKETS)%nat -> 0 < getBucketCount c h -> (c <= b)%nat.
Proof using xs_words xs_count xs_some.
  unfold getMaxValue.
  destruct (List.find (fun b => 0 <? getBucketCount b h) (rev (seq 0 NUM_BUCKETS))) as [b|] eqn:Ef.
  - apply (find_extreme ge) in Ef as (Hp & Hin & Hext); [|lia|apply seq_decreasing].
    apply list_elem_of_In, in_rev, in_seq in Hin. exists b. split; [lia|]. split; [done|].
    intros c Hc Hpc. apply Hext; [|by apply Z.ltb_lt].
    apply list_elem_of_In. rewrite <- in_rev. apply in_seq. lia.
  - exfalso. apply (samples_length xs xs_words xs_count xs_some).
    apply elem_of_nil_inv. intros v Hv. apply samples_in in Hv as (b & Hb & Hpos & _).
    eapply find_none in Ef; [|rewrite <- in_rev; apply in_seq; split; [lia|exact Hb]].
    bool_to_prop. fold h in Hpos. lia.
Qed.

(** After recording any latencies, the total is their number, the reported minimum and maximum
    bracket every one of them, and every percentile for which the index is a [size_t] is answered
    with a value between the two. *)
Theorem histogram_brackets p :
  total_count_ h = zlen xs /\
  (forall x, x ∈ xs -> getMinValue h <= x <= getMaxValue h) /\
  (forall idx,
     to_size_t (MetricRegistry.mul (MetricRegistry.div p (MetricRegistry.of_uint64 100))
                  (MetricRegistry.of_uint64 (zlen (samples h)))) = Ret idx -> 0 <= idx ->
     exists v, calculatePercentile p h = Ret v /\ getMinValue h <= v <= getMaxValue h).
Proof using xs_words xs_count xs_some.
  destruct min_bucket as (bmin & Hbmin & Hmin & Hmin').
  destruct max_bucket as (bmax & Hbmax & Hmax & Hmax').
  destruct (record_all_counts xs xs_words xs_count) as (_ & Ht & Hc). fold h in Ht, Hc.
  assert (Hrange : forall b, (b < NUM_BUCKETS)%nat -> 0 < getBucketCount b h ->
            getMinValue h <= bucketMin b /\ bucketMax b <= getMaxValue h).
  { intros b Hb Hpos. rewrite Hmin, Hmax. split; [by apply bucketMin_mono, Hmin'|].
    apply bucketMax_mono; [by apply Hmax'|done]. }
  split; [done|]. split.
  - intros x Hx. pose proof (proj1 (Forall_forall _ _) xs_words x Hx) as Hw.
    destruct (bucket_spec x Hw) as [Hlt Hb].
    destruct (Hrange (bucketForLatency x) Hlt); [rewrite Hc; apply hits_pos; by exists x|]. lia.
  - intros idx Hidx Hpos. unfold calculatePercentile.
    pose proof (samples_length xs xs_words xs_count xs_some) as Hs. fold h in Hs.
    assert (Hz : 0 < zlen (samples h)).
    { pose proof (zlen_nonneg (samples h)). destruct (Z.eq_dec (zlen (samples h)) 0) as [Hz|]; [|lia].
      by apply zlen_0 in Hz. }
    assert (0 < zlen xs) by (pose proof (zlen_nonneg xs); destruct (Z.eq_dec (zlen xs) 0) as [Hz0|];
      [by apply zlen_0 in Hz0|lia]).
    rewrite Ht, !(proj2 (Z.eqb_neq _ 0)) by lia. rewrite Hidx. cbn [mbind outcome_bind].
    set (i := if zlen (samples h) <=? idx then _ else _).
    assert (Hi : 0 <= i < zlen (samples h)) by (unfold i; case_match; bool_to_prop; lia).
    eexists. split; [done|].
    assert (Hv : nth (Z.to_nat i) (samples h) 0 ∈ samples h).
    { apply list_elem_of_In, nth_In. unfold zlen in Hi. lia. }
    apply samples_in in Hv as (b & Hb & Hpb & ->).
    pose proof (midpoint_in b Hb). destruct (Hrange b Hb Hpb). lia.
Qed.

End Recorded.

(** The 50th percentile of three latencies: index 1, the bucket of 1000 ns. *)
Lemma histogram_brackets_witness :
  exists v, calculatePercentile (MetricRegistry.of_uint64 50) (record_all [1; 1000; 2000] create) = Ret v /\
    getMinValue (record_all [1; 1000; 2000] create) <= v.
Proof.
  destruct (histogram_brackets [1; 1000; 2000]) with (p := MetricRegistry.of_uint64 50)
    as (_ & _ & Hp).
  - repeat constructor; lia.
  - unfold zlen, UINT64_MAX. simpl. lia.
  - discriminate.
  - destruct (Hp 1 ltac:(vm_compute; reflexivity) ltac:(lia)) as (v & Hv & Hle & _).
    exact (ex_intro _ v (conj Hv Hle)).
Defined.

(** The literal is 999/10 rounded. *)
Example p999_literal : p999 = MetricRegistry.div (MetricRegistry.of_uint64 999) (MetricRegistry.of_uint64 10).
Proof. vm_compute. reflexivity. Qed.

Example printed_three : printPercentiles (record_all [1; 1000; 2000] create) = Ret (Some [3; 0; 768; 1536; 1536; 2047]).
Proof. vm_compute. reflexivity. Qed.

End LatencyHistogram.
