(* ===== verification/Profiler.v ===== *)
(** * The profiler and the clock: [include/eventstream/core/metrics/profiler.hpp],
    [include/eventstream/core/utils/clock.hpp]

    No other part of the engine calls them: the parts of it read the clock themselves.
    Module [Clock]: the three readings of one instant.  Module [PipelineProfiler]: the
    latency of an event from the points it passed; [recordPoint] keeps nothing. *)

From S2P Require Import Prelude.

Module Clock.

(** The count of the steady clock, a signed 64-bit number of nanoseconds; [duration_cast] truncates towards
    zero and the result is returned as unsigned. *)
Definition now_ns (count : Z) : Z := wrap 64 count.
Definition now_us (count : Z) : Z := now_ns count / 1000.
Definition now_ms (count : Z) : Z := wrap 64 (Z.quot count 1000000).

(** The three readings of one instant agree, as long as the clock has not counted below zero. *)
Lemma readings_agree count :
  0 <= count < 2 ^ 63 -> now_ns count = count /\ now_ms count = now_us count / 1000 /\
  now_us count * 1000 <= now_ns count < (now_us count + 1) * 1000.
Proof.
  intros Hc. unfold now_us, now_ms, now_ns. rewrite Z.quot_div_nonneg by lia.
  rewrite (wrap_small 64 count), wrap_small by (unfold in_word; Z.div_mod_to_equations; lia).
  rewrite Z.div_div by lia. split_and!; [done|done| |]; Z.div_mod_to_equations; lia.
Qed.

End Clock.

Module PipelineProfiler.

Record LatencyPoint := mkPoint { point_name : string; timestamp_ns : Z }.
Record EventLatencies := mkLatencies { event_id : Z; points : list LatencyPoint }.

(** [back] minus [front]. *)
Definition total_latency_ns (l : EventLatencies) : Z :=
  match points l with
  | [] => 0
  | p :: ps => sub64 (timestamp_ns (List.last ps p)) (timestamp_ns p)
  end.

(** Reads the clock and keeps nothing: the profile of no event changes. *)
Definition recordPoint (event_id : Z) (point_name : string) (now_ns : Z) (profile : list EventLatencies)
    : list EventLatencies := profile.

(** The time between each point and the next. *)
Fixpoint stages (p : LatencyPoint) (ps : list LatencyPoint) : list Z :=
  match ps with
  | [] => []
  | q :: ps' => sub64 (timestamp_ns q) (timestamp_ns p) :: stages q ps'
  end.

(** The latency of an event is the sum of its stages, whatever the clock readings, modulo 2^64. *)
Lemma total_is_sum_of_stages i p ps :
  total_latency_ns (mkLatencies i (p :: ps)) = wrap 64 (zsum (fun d => d) (stages p ps)).
Proof.
  unfold total_latency_ns. cbn [points]. revert p. induction ps as [|q ps IH]; intros p.
  - cbn. unfold sub64. by rewrite Z.sub_diag.
  - assert (Hl : List.last (q :: ps) p = List.last ps q).
    { clear. revert q p. induction ps as [|r ps IH]; intros q p; [done|].
      change (List.last (r :: ps) p = List.last (r :: ps) q). by rewrite !IH. }
    rewrite Hl. change (zsum (fun d => d) (stages p (q :: ps)))
      with (sub64 (timestamp_ns q) (timestamp_ns p) + zsum (fun d => d) (stages q ps)).
    specialize (IH q). unfold sub64 in *. rewrite wrap_add_l, Z.add_comm, <- wrap_add_l, <- IH, wrap_add_l. f_equal. lia.
Qed.

End PipelineProfiler.
