(* ===== verification/EventBus.v ===== *)
(** * The event bus: [src/core/events/event_bus.cpp]

    Module [EventBus]: the three queues with their overflow policies, the pressure
    level and the dead-letter queue.  The state threads the heap of events (the bus
    stamps the dequeue time through the shared pointer), the metric registry and the
    calling thread's timestamp buffer.  The clock readings are arguments; a
    [wait_for] is an arbitrary change [env] made by the other threads while the lock
    is released, followed by the evaluation of the predicate. *)

From S2P Require Import Prelude Event Spsc Dlq Metrics.

Module EventBus.

#[export] Instance EventPtr_inhabited : Inhabited EventPtr := populate None.

Definition DROP_BATCH_SIZE : nat := 64.

Inductive QueueId := REALTIME | TRANSACTIONAL | BATCHQ.
Inductive OverflowPolicy := DROP_OLD | BLOCK_PRODUCER | DROP_NEW.
Inductive PressureLevel := P_NORMAL | P_HIGH | P_CRITICAL.

#[export] Instance QueueId_eq_dec : EqDecision QueueId.
Proof. solve_decision. Defined.
#[export] Instance PressureLevel_eq_dec : EqDecision PressureLevel.
Proof. solve_decision. Defined.

(** [SpscRingBuffer<EventPtr, 16384>]. *)
Definition log_ring : Z := 14.

Record RealtimeQueue := mkRealtime {
  ringBuffer : Spsc.Ring (T := EventPtr);
  rt_policy : OverflowPolicy;
  pressure : PressureLevel
}.

Record Q := mkQ { dq : list EventPtr; capacity : Z; policy : OverflowPolicy }.

Record Bus := mkBus {
  RealtimeBus_ : RealtimeQueue;
  TransactionalBus_ : Q;
  BatchBus_ : Q;
  dlq_ : DeadLetterQueue.t
}.

(** The constructor. *)
Definition new_bus : Bus :=
  mkBus (mkRealtime (Spsc.new_ring log_ring) DROP_OLD P_NORMAL)
    (mkQ [] 131072 BLOCK_PRODUCER) (mkQ [] 32768 DROP_NEW) DeadLetterQueue.new.

(** What an operation of the bus can change. *)
Record World := mkWorld {
  heap : Heap;
  bus : Bus;
  metrics : MetricRegistry.t;
  ts_buf : MetricRegistry.ts_buffer
}.

Definition with_bus (b : Bus) (w : World) : World := mkWorld (heap w) b (metrics w) (ts_buf w).
Definition with_heap (h : Heap) (w : World) : World := mkWorld h (bus w) (metrics w) (ts_buf w).

Definition set_ring (r : Spsc.Ring) (w : World) : World :=
  with_bus (mkBus (mkRealtime r (rt_policy (RealtimeBus_ (bus w))) (pressure (RealtimeBus_ (bus w))))
              (TransactionalBus_ (bus w)) (BatchBus_ (bus w)) (dlq_ (bus w))) w.
Definition set_pressure (p : PressureLevel) (w : World) : World :=
  with_bus (mkBus (mkRealtime (ringBuffer (RealtimeBus_ (bus w))) (rt_policy (RealtimeBus_ (bus w))) p)
              (TransactionalBus_ (bus w)) (BatchBus_ (bus w)) (dlq_ (bus w))) w.
Definition set_dlq (d : DeadLetterQueue.t) (w : World) : World :=
  with_bus (mkBus (RealtimeBus_ (bus w)) (TransactionalBus_ (bus w)) (BatchBus_ (bus w)) d) w.

(** The calls on the shared registry. *)
Definition metric (f : Metrics -> Metrics) (w : World) : World :=
  mkWorld (heap w) (bus w) (MetricRegistry.update_metrics f MetricNames.EVENTBUS (metrics w)) (ts_buf w).
Definition touch_timestamp (now_ns now_ms : Z) (w : World) : World :=
  let '(b, r) := MetricRegistry.updateEventTimestamp "EventBusMulti" now_ns now_ms (ts_buf w) (metrics w) in
  mkWorld (heap w) (bus w) r b.

(** [getQueue]: everything but BATCH is the transactional queue. *)
Definition getQueue (q : QueueId) (b : Bus) : Q :=
  match q with
  | TRANSACTIONAL => TransactionalBus_ b
  | BATCHQ => BatchBus_ b
  | REALTIME => TransactionalBus_ b
  end.

Definition setQueue (q : QueueId) (x : Q) (w : World) : World :=
  with_bus (match q with
            | BATCHQ => mkBus (RealtimeBus_ (bus w)) (TransactionalBus_ (bus w)) x (dlq_ (bus w))
            | _ => mkBus (RealtimeBus_ (bus w)) x (BatchBus_ (bus w)) (dlq_ (bus w))
            end) w.

Definition set_dq (q : QueueId) (l : list EventPtr) (w : World) : World :=
  setQueue q (mkQ l (capacity (getQueue q (bus w))) (policy (getQueue q (bus w)))) w.

Definition size (q : QueueId) (w : World) : Z := zlen (dq (getQueue q (bus w))).

Definition getRealtimePressure (w : World) : PressureLevel := pressure (RealtimeBus_ (bus w)).

Definition pressure_of (used : Z) : PressureLevel :=
  if 14000 <=? used then P_CRITICAL else if 12000 <=? used then P_HIGH else P_NORMAL.

(** [dlq_.push( *p)]. *)
Definition dead_letter (p : EventPtr) (w : World) : outcome World :=
  e ← deref (heap w) p; Ret (set_dlq (DeadLetterQueue.push e (dlq_ (bus w))) w).

(** The REALTIME branch of [push]. *)
Definition push_realtime (evt : EventPtr) (now_ns now_ms : Z) (w : World) : outcome (bool * World) :=
  let used := Spsc.size log_ring (ringBuffer (RealtimeBus_ (bus w))) in
  let w := metric (set_queue_depth used) w in
  let w := set_pressure (pressure_of used) w in
  let '(ok, r) := Spsc.push log_ring evt (ringBuffer (RealtimeBus_ (bus w))) in
  if ok then
    let w := set_ring r w in
    let w := metric (add_processed 1) w in
    Ret (true, touch_timestamp now_ns now_ms w)
  else
    let refuse_event (w : World) :=
      w ← dead_letter evt w; Ret (false, metric (add_dropped 1) w) in
    match rt_policy (RealtimeBus_ (bus w)) with
    | DROP_OLD =>
        let '(old_evt, r) := Spsc.pop log_ring (ringBuffer (RealtimeBus_ (bus w))) in
        let w := set_ring r w in
        w ← match old_evt with
            | Some old => w ← dead_letter old w; Ret (metric (add_dropped 1) w)
            | None => Ret w
            end;
        let '(ok, r) := Spsc.push log_ring evt (ringBuffer (RealtimeBus_ (bus w))) in
        if ok then Ret (true, metric (add_processed 1) (set_ring r w)) else refuse_event w
    | _ => refuse_event w
    end.

(** The part of [push] after the admission test of a deque. *)
Definition enqueue (q : QueueId) (evt : EventPtr) (now_ns now_ms : Z) (w : World) : bool * World :=
  let w := set_dq q (dq (getQueue q (bus w)) ++ [evt]) w in
  let w := metric (add_processed 1) w in
  (true, touch_timestamp now_ns now_ms w).

Definition full (q : QueueId) (w : World) : bool :=
  capacity (getQueue q (bus w)) <=? zlen (dq (getQueue q (bus w))).

Definition push (q : QueueId) (evt : EventPtr) (now_ns now_ms : Z) (env : World -> World) (w : World)
    : outcome (bool * World) :=
  let w := metric (fun m => m) w in
  match q with
  | REALTIME => push_realtime evt now_ns now_ms w
  | _ =>
      if full q w then
        match policy (getQueue q (bus w)) with
        | BLOCK_PRODUCER =>
            let w := env w in
            if full q w then _ ← deref (heap w) evt; Ret (false, w)
            else Ret (enqueue q evt now_ns now_ms w)
        | DROP_NEW =>
            let w := metric (add_dropped 1) w in
            _ ← deref (heap w) evt; Ret (false, w)
        | DROP_OLD => Ret (enqueue q evt now_ns now_ms w)
        end
      else Ret (enqueue q evt now_ns now_ms w)
  end.

Definition stamp (p : EventPtr) (now_ns : Z) (w : World) : outcome World :=
  h ← modify (set_dequeue_time now_ns) (heap w) p; Ret (with_heap h w).

(** Taking the front of a deque that is not empty. *)
Definition dequeue (q : QueueId) (now_ns : Z) (w : World) : outcome (option EventPtr * World) :=
  match dq (getQueue q (bus w)) with
  | [] => Ret (None, w)
  | event :: rest => w ← stamp event now_ns (set_dq q rest w); Ret (Some event, w)
  end.

Definition pop (q : QueueId) (now_ns : Z) (env : World -> World) (w : World)
    : outcome (option EventPtr * World) :=
  match q with
  | REALTIME =>
      let '(evt_opt, r) := Spsc.pop log_ring (ringBuffer (RealtimeBus_ (bus w))) in
      let w := set_ring r w in
      match evt_opt with
      | Some evt => w ← stamp evt now_ns w; Ret (Some evt, w)
      | None => Ret (None, w)
      end
  | _ =>
      match dq (getQueue q (bus w)) with
      | [] => dequeue q now_ns (env w)
      | _ => dequeue q now_ns w
      end
  end.

(** The pops of the REALTIME branch of [dropBatchFromQueue]. *)
Fixpoint pop_ring_batch (n : nat) (r : Spsc.Ring) : list EventPtr * Spsc.Ring :=
  match n with
  | O => ([], r)
  | S n' =>
      match Spsc.pop log_ring r with
      | (Some e, r') => let '(es, r'') := pop_ring_batch n' r' in (e :: es, r'')
      | (None, r') => ([], r')
      end
  end.

Definition drop_to_dlq (batch : list EventPtr) (w : World) : outcome (Z * World) :=
  let dropped := zlen batch in
  if 0 <? dropped then
    d ← DeadLetterQueue.pushBatch (heap w) batch (dlq_ (bus w));
    Ret (dropped, metric (add_dropped dropped) (set_dlq d w))
  else Ret (dropped, w).

Definition dropBatchFromQueue (q : QueueId) (w : World) : outcome (Z * World) :=
  let w := metric (fun m => m) w in
  match q with
  | REALTIME =>
      let '(batch, r) := pop_ring_batch DROP_BATCH_SIZE (ringBuffer (RealtimeBus_ (bus w))) in
      drop_to_dlq batch (set_ring r w)
  | _ =>
      let l := dq (getQueue q (bus w)) in
      let to_drop := Nat.min DROP_BATCH_SIZE (length l) in
      drop_to_dlq (take to_drop l) (set_dq q (drop to_drop l) w)
  end.

(** ** The specification: three bounded FIFO queues and a count of dead letters *)

Record Abs := mkAbs {
  a_rt : list EventPtr; a_tx : list EventPtr; a_bt : list EventPtr; a_dropped : Z
}.

Inductive op :=
| Push (q : QueueId) (evt : EventPtr) (now_ns now_ms : Z)
| Pop (q : QueueId) (now_ns : Z)
| DropBatch (q : QueueId).

Inductive result := Pushed (ok : bool) | Popped (evt : option EventPtr) | DroppedN (n : Z).

(** The operations of the bus, no other thread interfering. *)
Definition bus_op (o : op) (w : World) : outcome (result * World) :=
  match o with
  | Push q evt ns ms => '(ok, w') ← push q evt ns ms (fun w => w) w; Ret (Pushed ok, w')
  | Pop q ns => '(e, w') ← pop q ns (fun w => w) w; Ret (Popped e, w')
  | DropBatch q => '(n, w') ← dropBatchFromQueue q w; Ret (DroppedN n, w')
  end.

Fixpoint run (ops : list op) (w : World) : outcome (list result * World) :=
  match ops with
  | [] => Ret ([], w)
  | o :: ops' => '(r, w) ← bus_op o w; '(rs, w) ← run ops' w; Ret (r :: rs, w)
  end.

Definition pop_front (l : list EventPtr) : option EventPtr * list EventPtr :=
  match l with [] => (None, []) | x :: l' => (Some x, l') end.

Definition abs_op (o : op) (a : Abs) : result * Abs :=
  match o with
  | Push REALTIME evt _ _ =>
      if zlen (a_rt a) <? 16383
      then (Pushed true, mkAbs (a_rt a ++ [evt]) (a_tx a) (a_bt a) (a_dropped a))
      else (Pushed true, mkAbs (tail (a_rt a) ++ [evt]) (a_tx a) (a_bt a) (a_dropped a + 1))
  | Push TRANSACTIONAL evt _ _ =>
      if zlen (a_tx a) <? 131072
      then (Pushed true, mkAbs (a_rt a) (a_tx a ++ [evt]) (a_bt a) (a_dropped a))
      else (Pushed false, a)
  | Push BATCHQ evt _ _ =>
      if zlen (a_bt a) <? 32768
      then (Pushed true, mkAbs (a_rt a) (a_tx a) (a_bt a ++ [evt]) (a_dropped a))
      else (Pushed false, a)
  | Pop REALTIME _ => let '(x, l) := pop_front (a_rt a) in (Popped x, mkAbs l (a_tx a) (a_bt a) (a_dropped a))
  | Pop TRANSACTIONAL _ => let '(x, l) := pop_front (a_tx a) in (Popped x, mkAbs (a_rt a) l (a_bt a) (a_dropped a))
  | Pop BATCHQ _ => let '(x, l) := pop_front (a_bt a) in (Popped x, mkAbs (a_rt a) (a_tx a) l (a_dropped a))
  | DropBatch REALTIME =>
      (DroppedN (zlen (take 64 (a_rt a))),
       mkAbs (drop 64 (a_rt a)) (a_tx a) (a_bt a) (a_dropped a + zlen (take 64 (a_rt a))))
  | DropBatch TRANSACTIONAL =>
      (DroppedN (zlen (take 64 (a_tx a))),
       mkAbs (a_rt a) (drop 64 (a_tx a)) (a_bt a) (a_dropped a + zlen (take 64 (a_tx a))))
  | DropBatch BATCHQ =>
      (DroppedN (zlen (take 64 (a_bt a))),
       mkAbs (a_rt a) (a_tx a) (drop 64 (a_bt a)) (a_dropped a + zlen (take 64 (a_bt a))))
  end.

Fixpoint abs_run (ops : list op) (a : Abs) : list result * Abs :=
  match ops with
  | [] => ([], a)
  | o :: ops' => let '(r, a) := abs_op o a in let '(rs, a) := abs_run ops' a in (r :: rs, a)
  end.

Definition op_live (h : Heap) (o : op) : Prop :=
  match o with Push _ evt _ _ => live h evt | _ => True end.

(** ** The simulation *)

Record sim (w : World) (a : Abs) : Prop := {
  s_ring : exists tc, Spsc.represents log_ring (ringBuffer (RealtimeBus_ (bus w))) (a_rt a) tc;
  s_tx : TransactionalBus_ (bus w) = mkQ (a_tx a) 131072 BLOCK_PRODUCER;
  s_bt : BatchBus_ (bus w) = mkQ (a_bt a) 32768 DROP_NEW;
  s_policy : rt_policy (RealtimeBus_ (bus w)) = DROP_OLD;
  s_dlq : DeadLetterQueue.total_dropped_ (dlq_ (bus w)) = wrap 64 (a_dropped a);
  s_live : Forall (live (heap w)) (a_rt a ++ a_tx a ++ a_bt a)
}.

Lemma log_ring_range : 0 <= log_ring < 63.
Proof. unfold log_ring. lia. Qed.

Lemma ring_slots : Spsc.slots log_ring = 16383.
Proof. reflexivity. Qed.

(** Counters and the timestamp touch neither the bus nor the heap. *)
Lemma touch_bus ns ms w : bus (touch_timestamp ns ms w) = bus w.
Proof. unfold touch_timestamp. by destruct (MetricRegistry.updateEventTimestamp _ _ _ _ _). Qed.
Lemma touch_heap ns ms w : heap (touch_timestamp ns ms w) = heap w.
Proof. unfold touch_timestamp. by destruct (MetricRegistry.updateEventTimestamp _ _ _ _ _). Qed.

Lemma sim_same w w' a : bus w' = bus w -> heap w' = heap w -> sim w a -> sim w' a.
Proof. intros Hb Hh []. split; by rewrite ?Hb, ?Hh. Qed.

(** Empty queues hold no event, whatever the heap. *)
Lemma sim_empty h w n : sim w (mkAbs [] [] [] n) -> sim (with_heap h w) (mkAbs [] [] [] n).
Proof. intros []. by split. Qed.

Lemma sim_pressure p w a : sim w a -> sim (set_pressure p w) a.
Proof. intros []. by split. Qed.

Lemma dead_letter_live p w : live (heap w) p -> exists e,
  dead_letter p w = Ret (set_dlq (DeadLetterQueue.push e (dlq_ (bus w))) w).
Proof. intros Hp. apply deref_live in Hp as [e He]. exists e. unfold dead_letter. by rewrite He. Qed.

Lemma stamp_live p ns w : live (heap w) p -> exists h,
  stamp p ns w = Ret (with_heap h w) /\ forall q, live (heap w) q -> live h q.
Proof.
  intros Hp. destruct (modify_live (set_dequeue_time ns) _ _ Hp) as (l & e & -> & He & Hm).
  unfold stamp. rewrite Hm. eexists. split; [done|]. intros q Hq. by eapply live_modify.
Qed.

Lemma pop_ring_batch_spec n r l tc :
  Spsc.represents log_ring r l tc ->
  (pop_ring_batch n r).1 = take n l /\
  exists tc', Spsc.represents log_ring (pop_ring_batch n r).2 (drop n l) tc'.
Proof.
  revert r l tc; induction n as [|n IH]; intros r l tc Hr; [by eauto|]. cbn [pop_ring_batch].
  pose proof (Spsc.pop_represents log_ring log_ring_range r l tc Hr) as Hp.
  destruct (Spsc.pop log_ring r) as [x r'], l as [|y l]; simpl in Hp; destruct Hp as [-> [tc' Hr']].
  - by eauto.
  - destruct (IH r' l tc' Hr') as [Hes Hr'']. destruct (pop_ring_batch n r') as [es r'']. simpl in *.
    subst es. done.
Qed.

Lemma push_batch_total h batch d :
  Forall (live h) batch -> batch <> [] -> exists d',
    DeadLetterQueue.pushBatch h batch d = Ret d' /\
    DeadLetterQueue.total_dropped_ d' = add64 (DeadLetterQueue.total_dropped_ d) (zlen batch).
Proof.
  intros Hl Hne. unfold DeadLetterQueue.pushBatch. destruct batch as [|p batch]; [done|].
  assert (Hs : forall st, exists st', DeadLetterQueue.store_batch h (p :: batch) st = Ret st').
  { clear Hne. induction Hl as [|q l Hq Hl IH]; intros st; [by eexists|].
    destruct Hq as (a & e & -> & He). simpl. rewrite He. apply IH. }
  destruct (Hs (DeadLetterQueue.stored_events_ d)) as [st' ->]. by eexists.
Qed.

Lemma drop_to_dlq_live batch w :
  Forall (live (heap w)) batch -> in_word 64 (DeadLetterQueue.total_dropped_ (dlq_ (bus w))) ->
  exists w', drop_to_dlq batch w = Ret (zlen batch, w') /\ heap w' = heap w /\
    RealtimeBus_ (bus w') = RealtimeBus_ (bus w) /\
    TransactionalBus_ (bus w') = TransactionalBus_ (bus w) /\
    BatchBus_ (bus w') = BatchBus_ (bus w) /\
    DeadLetterQueue.total_dropped_ (dlq_ (bus w')) =
      wrap 64 (DeadLetterQueue.total_dropped_ (dlq_ (bus w)) + zlen batch).
Proof.
  intros Hl Hw. destruct batch as [|p batch].
  - exists w. rewrite zlen_nil, Z.add_0_r, wrap_small by done. by split_and!.
  - destruct (push_batch_total _ _ (dlq_ (bus w)) Hl ltac:(done)) as (d' & Hd & Ht).
    unfold drop_to_dlq.
    rewrite (proj2 (Z.ltb_lt 0 (zlen (p :: batch))))
      by (autorewrite with zlen; pose proof (zlen_nonneg batch); lia).
    rewrite Hd. cbn [mbind outcome_bind]. eexists. split; [done|]. by split_and!.
Qed.

(** [push] on each queue. *)
Lemma push_realtime_sim evt ns ms w a :
  sim w a -> live (heap w) evt -> exists w',
    push_realtime evt ns ms w = Ret (true, w') /\ heap w' = heap w /\
    sim w' (abs_op (Push REALTIME evt ns ms) a).2.
Proof.
  intros Hs Hevt. unfold push_realtime.
  set (w1 := set_pressure _ (metric _ w)).
  assert (Hs1 : sim w1 a) by (apply sim_pressure; by eapply sim_same; [..|exact Hs]).
  assert (Hh1 : heap w1 = heap w) by done. rewrite <- Hh1 in Hevt |- *. clearbody w1. clear Hs w Hh1.
  destruct Hs1 as [[tc Hr] Htx Hbt Hpol Hdlq Hlive].
  pose proof (Spsc.push_represents log_ring log_ring_range evt _ _ _ Hr) as Hp.
  unfold Spsc.fifo_push in Hp. rewrite ring_slots in Hp.
  destruct (Spsc.push log_ring evt (ringBuffer (RealtimeBus_ (bus w1)))) as [ok r] eqn:Epush. simpl.
  apply Forall_app in Hlive as [Hlr Hlo].
  destruct (Z.ltb_spec (zlen (a_rt a)) 16383) as [Hlt|Hge]; destruct Hp as [-> Hr'].
  - eexists. split; [done|]. split; [by rewrite touch_heap|].
    split; rewrite ?touch_bus, ?touch_heap; simpl; try done; [by eauto|].
    by rewrite <- app_assoc; repeat (apply Forall_app; split); try apply Forall_app in Hlo as [? ?];
       repeat constructor.
  - assert (r = ringBuffer (RealtimeBus_ (bus w1))) as ->.
    { revert Epush. unfold Spsc.push. case_match; congruence. }
    rewrite Hpol.
    pose proof (Spsc.pop_represents log_ring log_ring_range _ _ _ Hr) as Hpop.
    destruct (a_rt a) as [|x l] eqn:Ea; [rewrite zlen_nil in Hge; lia|].
    destruct (Spsc.pop log_ring (ringBuffer (RealtimeBus_ (bus w1)))) as [old r1].
    simpl in Hpop. destruct Hpop as [-> [tc1 Hr1]].
    apply Forall_cons in Hlr as [Hx Hl].
    destruct (dead_letter_live x (set_ring r1 w1)) as [e He]; [done|]. rewrite He.
    cbn [mbind outcome_bind].
    pose proof (Spsc.push_represents log_ring log_ring_range evt _ _ _ Hr1) as Hp2.
    unfold Spsc.fifo_push in Hp2. rewrite ring_slots in Hp2.
    destruct Hr as (_ & _ & _ & _ & Hcap & _). rewrite ring_slots, zlen_cons in Hcap.
    rewrite (proj2 (Z.ltb_lt (zlen l) 16383)) in Hp2 by lia. simpl.
    destruct (Spsc.push log_ring evt r1) as [ok2 r2]. destruct Hp2 as [-> Hr2].
    eexists. split; [done|]. split; [done|].
    split; simpl; try done; [by eauto| |].
    + unfold add64. by rewrite Hdlq, wrap_add_l.
    + rewrite <- app_assoc. repeat (apply Forall_app; split); try apply Forall_app in Hlo as [? ?];
        by repeat constructor.
Qed.

Lemma enqueue_sim q evt ns ms w a :
  q <> REALTIME -> sim w a -> live (heap w) evt ->
  (enqueue q evt ns ms w).1 = true /\ heap (enqueue q evt ns ms w).2 = heap w /\
  sim (enqueue q evt ns ms w).2
    (match q with
     | TRANSACTIONAL => mkAbs (a_rt a) (a_tx a ++ [evt]) (a_bt a) (a_dropped a)
     | _ => mkAbs (a_rt a) (a_tx a) (a_bt a ++ [evt]) (a_dropped a)
     end).
Proof.
  intros Hq [Hr Htx Hbt Hpol Hdlq Hlive] Hevt. unfold enqueue. simpl. split; [done|].
  split; [by rewrite touch_heap|]. rewrite !Forall_app in Hlive. destruct Hlive as (H1 & H2 & H3).
  destruct q; [done|..]; split; rewrite ?touch_bus, ?touch_heap; simpl; try done;
    rewrite ?Htx, ?Hbt; try done; rewrite !Forall_app; split_and!; try done; by repeat constructor.
Qed.

Lemma push_sim q evt ns ms w a :
  sim w a -> live (heap w) evt -> exists ok w',
    push q evt ns ms (fun w => w) w = Ret (ok, w') /\ heap w' = heap w /\
    (abs_op (Push q evt ns ms) a).1 = Pushed ok /\ sim w' (abs_op (Push q evt ns ms) a).2.
Proof.
  intros Hs Hevt.
  assert (Hs1 : sim (metric (fun m => m) w) a) by (by eapply sim_same; [..|exact Hs]).
  pose proof Hs1 as [_ Htx Hbt _ _ _]. unfold push.
  destruct q.
  - destruct (push_realtime_sim evt ns ms _ a Hs1 Hevt) as (w' & Hw & Hh & Hsim).
    exists true, w'. split; [done|]. split; [done|]. split; [|done]. simpl. by case_match.
  - unfold full. cbn [getQueue]. rewrite Htx. cbn [capacity policy dq abs_op].
    destruct (Z.leb_spec 131072 (zlen (a_tx a))).
    + rewrite (proj2 (Z.ltb_ge (zlen (a_tx a)) 131072)) by lia.
      apply deref_live in Hevt as [e He]. cbn [heap metric]. rewrite He. cbn [mbind outcome_bind].
      eexists _, _. split; [done|]. by split_and!.
    + rewrite (proj2 (Z.ltb_lt (zlen (a_tx a)) 131072)) by lia.
      destruct (enqueue_sim TRANSACTIONAL evt ns ms _ a ltac:(done) Hs1 Hevt) as (Hok & Hh & Hsim).
      destruct (enqueue TRANSACTIONAL evt ns ms _) as [ok w']. simpl in Hok. subst ok.
      eexists _, _. split; [done|]. by split_and!.
  - unfold full. cbn [getQueue]. rewrite Hbt. cbn [capacity policy dq abs_op].
    destruct (Z.leb_spec 32768 (zlen (a_bt a))).
    + rewrite (proj2 (Z.ltb_ge (zlen (a_bt a)) 32768)) by lia.
      apply deref_live in Hevt as [e He]. cbn [heap metric]. rewrite He. cbn [mbind outcome_bind].
      eexists _, _. split; [done|]. split_and!; try done. by eapply sim_same; [..|exact Hs].
    + rewrite (proj2 (Z.ltb_lt (zlen (a_bt a)) 32768)) by lia.
      destruct (enqueue_sim BATCHQ evt ns ms _ a ltac:(done) Hs1 Hevt) as (Hok & Hh & Hsim).
      destruct (enqueue BATCHQ evt ns ms _) as [ok w']. simpl in Hok. subst ok.
      eexists _, _. split; [done|]. by split_and!.
Qed.

Lemma pop_sim q ns w a :
  sim w a -> exists x w',
    pop q ns (fun w => w) w = Ret (x, w') /\ (abs_op (Pop q ns) a).1 = Popped x /\
    sim w' (abs_op (Pop q ns) a).2 /\ (forall p, live (heap w) p -> live (heap w') p).
Proof.
  intros [[tc Hr] Htx Hbt Hpol Hdlq Hlive].
  destruct q; cbn [pop abs_op getQueue].
  - pose proof (Spsc.pop_represents log_ring log_ring_range _ _ _ Hr) as Hp.
    destruct (Spsc.pop log_ring (ringBuffer (RealtimeBus_ (bus w)))) as [y r].
    unfold Spsc.fifo_pop in Hp. destruct (a_rt a) as [|x l]; simpl in *; destruct Hp as [-> [tc' Hr']].
    + eexists _, _. split; [done|]. split; [done|]. split; [|done].
      split; simpl; try done. by eauto.
    + apply Forall_cons in Hlive as [Hx Hl].
      destruct (stamp_live x ns (set_ring r w) Hx) as (h & -> & Hh). cbn [mbind outcome_bind].
      eexists _, _. split; [done|]. split; [done|]. split; [|done].
      split; simpl; try done; [by eauto|]. eapply Forall_impl; [exact Hl|]. exact Hh.
  - rewrite Htx. cbn [dq]. destruct (a_tx a) as [|x l] eqn:Ea.
    + unfold dequeue. cbn [getQueue]. rewrite Htx. cbn [dq pop_front].
      eexists _, _. split; [done|]. split; [done|]. split; [|done]. split; simpl; eauto.
    + unfold dequeue. cbn [getQueue]. rewrite Htx. cbn [dq pop_front].
      assert (Hx : live (heap w) x) by (rewrite Forall_app, Forall_app, Forall_cons in Hlive; tauto).
      destruct (stamp_live x ns (set_dq TRANSACTIONAL l w) Hx) as (h & -> & Hh). cbn [mbind outcome_bind].
      eexists _, _. split; [done|]. split; [done|]. split; [|done].
      split; simpl; rewrite ?Htx; try done; [by eauto|].
      eapply (Forall_impl (live (heap w))); [|exact Hh].
      rewrite !Forall_app, Forall_cons in Hlive. rewrite !Forall_app. tauto.
  - rewrite Hbt. cbn [dq]. destruct (a_bt a) as [|x l] eqn:Ea.
    + unfold dequeue. cbn [getQueue]. rewrite Hbt. cbn [dq pop_front].
      eexists _, _. split; [done|]. split; [done|]. split; [|done]. split; simpl; eauto.
    + unfold dequeue. cbn [getQueue]. rewrite Hbt. cbn [dq pop_front].
      assert (Hx : live (heap w) x) by (rewrite Forall_app, Forall_app, Forall_cons in Hlive; tauto).
      destruct (stamp_live x ns (set_dq BATCHQ l w) Hx) as (h & -> & Hh). cbn [mbind outcome_bind].
      eexists _, _. split; [done|]. split; [done|]. split; [|done].
      split; simpl; rewrite ?Hbt; try done; [by eauto|].
      eapply (Forall_impl (live (heap w))); [|exact Hh].
      rewrite !Forall_app, Forall_cons in Hlive. rewrite !Forall_app. tauto.
Qed.

Lemma take_min {A} n (l : list A) : take (Nat.min n (length l)) l = take n l.
Proof.
  destruct (decide (n <= length l)%nat); [by rewrite Nat.min_l|].
  rewrite Nat.min_r by lia. by rewrite !take_ge by lia.
Qed.
Lemma drop_min {A} n (l : list A) : drop (Nat.min n (length l)) l = drop n l.
Proof.
  destruct (decide (n <= length l)%nat); [by rewrite Nat.min_l|].
  rewrite Nat.min_r by lia. by rewrite !drop_ge by lia.
Qed.

Lemma drop_sim q w a :
  sim w a -> exists n w',
    dropBatchFromQueue q w = Ret (n, w') /\ (abs_op (DropBatch q) a).1 = DroppedN n /\
    sim w' (abs_op (DropBatch q) a).2 /\ heap w' = heap w.
Proof.
  intros [[tc Hr] Htx Hbt Hpol Hdlq Hlive]. rewrite !Forall_app in Hlive.
  destruct Hlive as (H1 & H2 & H3).
  assert (Hw : in_word 64 (DeadLetterQueue.total_dropped_ (dlq_ (bus w))))
    by (rewrite Hdlq; by apply wrap_range).
  destruct q; unfold dropBatchFromQueue, DROP_BATCH_SIZE; cbn [abs_op getQueue metric bus].
  - destruct (pop_ring_batch_spec 64 _ _ _ Hr) as [Hb [tc' Hr']].
    destruct (pop_ring_batch 64 (ringBuffer (RealtimeBus_ (bus w)))) as [batch r].
    cbn [fst snd] in Hb, Hr'. subst batch.
    destruct (drop_to_dlq_live (take 64 (a_rt a)) (set_ring r (metric (fun m => m) w)))
      as (w' & Hd & Hh & Hrt & Ht & Hbb & Htot); [by apply Forall_take|done|].
    rewrite Hd. eexists _, w'. split; [done|]. split; [done|]. split; [|done].
    split; rewrite ?Hrt, ?Ht, ?Hbb, ?Htot, ?Hh; try done; cbn [snd a_rt a_tx a_bt a_dropped].
    + simpl. by eauto.
    + simpl. by rewrite Hdlq, wrap_add_l.
    + rewrite !Forall_app. split_and!; try done. by apply Forall_drop.
  - rewrite Htx. cbn [dq]. rewrite take_min, drop_min.
    destruct (drop_to_dlq_live (take 64 (a_tx a))
      (set_dq TRANSACTIONAL (drop 64 (a_tx a)) (metric (fun m => m) w)))
      as (w' & Hd & Hh & Hrt & Ht & Hbb & Htot); [by apply Forall_take|done|].
    rewrite Hd. eexists _, w'. split; [done|]. split; [done|]. split; [|done].
    split; rewrite ?Hrt, ?Ht, ?Hbb, ?Htot, ?Hh; try done; cbn [snd a_rt a_tx a_bt a_dropped].
    + simpl. by eauto.
    + simpl. by rewrite Htx.
    + simpl. by rewrite Hdlq, wrap_add_l.
    + rewrite !Forall_app. split_and!; try done. by apply Forall_drop.
  - rewrite Hbt. cbn [dq]. rewrite take_min, drop_min.
    destruct (drop_to_dlq_live (take 64 (a_bt a))
      (set_dq BATCHQ (drop 64 (a_bt a)) (metric (fun m => m) w)))
      as (w' & Hd & Hh & Hrt & Ht & Hbb & Htot); [by apply Forall_take|done|].
    rewrite Hd. eexists _, w'. split; [done|]. split; [done|]. split; [|done].
    split; rewrite ?Hrt, ?Ht, ?Hbb, ?Htot, ?Hh; try done; cbn [snd a_rt a_tx a_bt a_dropped].
    + simpl. by eauto.
    + simpl. by rewrite Hbt.
    + simpl. by rewrite Hdlq, wrap_add_l.
    + rewrite !Forall_app. split_and!; try done. by apply Forall_drop.
Qed.

Lemma op_sim o w a :
  sim w a -> op_live (heap w) o -> exists w',
    bus_op o w = Ret ((abs_op o a).1, w') /\ sim w' (abs_op o a).2 /\
    (forall p, live (heap w) p -> live (heap w') p).
Proof.
  intros Hs Ho. destruct o as [q evt ns ms|q ns|q]; cbn [bus_op].
  - destruct (push_sim q evt ns ms w a Hs Ho) as (ok & w' & -> & Hh & -> & Hs').
    exists w'. split; [done|]. split; [done|]. by rewrite Hh.
  - destruct (pop_sim q ns w a Hs) as (x & w' & -> & -> & Hs' & Hh). by exists w'.
  - destruct (drop_sim q w a Hs) as (n & w' & -> & -> & Hs' & Hh).
    exists w'. split; [done|]. split; [done|]. by rewrite Hh.
Qed.

Lemma run_sim ops w a :
  sim w a -> Forall (op_live (heap w)) ops -> exists w',
    run ops w = Ret ((abs_run ops a).1, w') /\ sim w' (abs_run ops a).2.
Proof.
  revert w a; induction ops as [|o ops IH]; intros w a Hs Hl; [by eauto|].
  apply Forall_cons in Hl as [Ho Hl]. cbn [run abs_run].
  destruct (op_sim o w a Hs Ho) as (w1 & -> & Hs1 & Hh). cbn [mbind outcome_bind].
  destruct (abs_op o a) as [r a1]. cbn [fst snd] in *.
  destruct (IH w1 a1 Hs1) as (w2 & -> & Hs2).
  { eapply Forall_impl; [exact Hl|]. intros [q e ns ms| |]; simpl; auto. }
  cbn [mbind outcome_bind]. destruct (abs_run ops a1) as [rs a2]. by exists w2.
Qed.

Definition initial (h : Heap) (m : MetricRegistry.t) : World :=
  mkWorld h new_bus m MetricRegistry.new_buffer.

Lemma initial_sim h m : sim (initial h m) (mkAbs [] [] [] 0).
Proof. split; try done. exists 0. by apply Spsc.new_ring_represents, log_ring_range. Qed.


(** A producer blocked on the full transactional queue is admitted exactly when the other
    threads made room during the wait; otherwise the push is refused and changes nothing else. *)
Theorem push_waits_for_room evt ns ms env w :
  live (heap (env (metric (fun m => m) w))) evt ->
  policy (TransactionalBus_ (bus w)) = BLOCK_PRODUCER -> full TRANSACTIONAL w = true ->
  let w1 := env (metric (fun m => m) w) in
  push TRANSACTIONAL evt ns ms env w =
  Ret (if full TRANSACTIONAL w1 then (false, w1) else enqueue TRANSACTIONAL evt ns ms w1).
Proof.
  intros Hevt Hpol Hfull w1. unfold push.
  change (full TRANSACTIONAL (metric (fun m => m) w)) with (full TRANSACTIONAL w).
  rewrite Hfull. cbn [getQueue metric bus]. rewrite Hpol.
  fold w1. destruct (full TRANSACTIONAL w1); [|done].
  apply deref_live in Hevt as [e He]. fold w1 in He. by rewrite He.
Qed.

(** [size(REALTIME)] is the size of the transactional queue, whatever the ring holds. *)
Lemma size_realtime_is_transactional w : size REALTIME w = size TRANSACTIONAL w.
Proof. reflexivity. Qed.

End EventBus.

(** ** Concrete runs *)

Module BusRun.

Definition event1 : Event :=
  new_event (mkEventHeader TCP HIGH 1 0 0 1 0) "a" [] ∅.
Definition heap1 : Heap := {[1%positive := event1]}.
Definition registry0 : MetricRegistry.t :=
  MetricRegistry.mk ∅ (MetricRegistry.mkThresholds 0 (MetricRegistry.of_uint64 0) 0 0
                         (MetricRegistry.of_uint64 0)).
(** The transactional queue full of one event. *)
Definition full_world : EventBus.World :=
  EventBus.mkWorld heap1
    (EventBus.mkBus (EventBus.RealtimeBus_ EventBus.new_bus)
       (EventBus.mkQ [Some 1%positive] 1 EventBus.BLOCK_PRODUCER)
       (EventBus.BatchBus_ EventBus.new_bus) DeadLetterQueue.new)
    registry0 MetricRegistry.new_buffer.

End BusRun.


Lemma push_waits_for_room_witness :
  exists w, EventBus.push EventBus.TRANSACTIONAL (Some 1%positive) 0 0
              (fun w => EventBus.set_dq EventBus.TRANSACTIONAL [] w) BusRun.full_world = Ret (true, w).
Proof.
  eexists.
  rewrite (EventBus.push_waits_for_room (Some 1%positive) 0 0
             (fun w => EventBus.set_dq EventBus.TRANSACTIONAL [] w) BusRun.full_world).
  - reflexivity.
  - exists 1%positive, BusRun.event1. split; reflexivity.
  - reflexivity.
  - reflexivity.
Defined.
