(* ===== verification/Dispatcher.v ===== *)
(** * The dispatcher: [src/core/events/dispatcher.cpp]

    Module [Dispatcher]: the inbound queue, the routing by priority, topic table and
    pressure, and one turn of the dispatch loop with its retries.  The priority is
    changed through the shared pointer, so the heap carries it. *)

From S2P Require Import Prelude Event TopicTable Spsc Mpsc Dlq Metrics EventBus.

Module Dispatcher.
Import EventBus.

Definition INBOUND_CAPACITY : Z := 65536.
Definition MAX_RETRIES : nat := 3.

Record Dispatcher := mkDispatcher {
  world : World;                                     (* event_bus_ and what it reaches *)
  inbound_queue_ : list EventPtr;
  topic_table_ : option (gmap string EventPriority)
}.

Definition with_world (w : World) (d : Dispatcher) : Dispatcher :=
  mkDispatcher w (inbound_queue_ d) (topic_table_ d).

Definition tryPush (evt : EventPtr) (d : Dispatcher) : bool * Dispatcher :=
  let '(ok, q) := Mpsc.push INBOUND_CAPACITY evt (inbound_queue_ d) in
  (ok, mkDispatcher (world d) q (topic_table_ d)).

Definition tryPop (d : Dispatcher) : option EventPtr * Dispatcher :=
  let '(x, q) := Mpsc.pop (inbound_queue_ d) in
  (x, mkDispatcher (world d) q (topic_table_ d)).

(** ** Routing *)

Definition set_event_priority (p : EventPriority) (evt : EventPtr) (w : World) : outcome World :=
  h ← modify (set_priority p) (heap w) evt; Ret (with_heap h w).

(** [adaptToPressure]. *)
Definition adaptToPressure (evt : EventPtr) (w : World) : outcome World :=
  match evt with
  | None => Ret w
  | Some _ =>
      match getRealtimePressure w with
      | P_CRITICAL =>
          e ← deref (heap w) evt;
          if bool_decide (priority (header e) = HIGH) then set_event_priority MEDIUM evt w else Ret w
      | P_HIGH =>
          e ← deref (heap w) evt;
          if bool_decide (priority (header e) = HIGH) then set_event_priority MEDIUM evt w else Ret w
      | P_NORMAL => Ret w
      end
  end.

(** The priority the table gives a topic; [MEDIUM] without a table or an entry. *)
Definition table_priority (table : option (gmap string EventPriority)) (topic : string) : EventPriority :=
  match table with
  | Some t => (TopicTable.findTopic t topic MEDIUM).2
  | None => MEDIUM
  end.

Definition queue_of (p : EventPriority) : QueueId :=
  if bool_decide (p = CRITICAL) || bool_decide (p = HIGH) then REALTIME
  else if bool_decide (p = MEDIUM) || bool_decide (p = LOW) then TRANSACTIONAL
  else BATCHQ.

(** [route], the [assert] compiled out. *)
Definition route (table : option (gmap string EventPriority)) (evt : EventPtr) (w : World)
    : outcome (QueueId * World) :=
  match evt with
  | None => Ret (TRANSACTIONAL, w)
  | Some _ =>
      e ← deref (heap w) evt;
      let prio := table_priority table (topic e) in
      w ← (if priority_lt (priority (header e)) prio then set_event_priority prio evt w else Ret w);
      w ← adaptToPressure evt w;
      e ← deref (heap w) evt;
      Ret (queue_of (priority (header e)), w)
  end.

(** ** The dispatch loop *)

(** What one attempt to push depends on: two clock readings, and what the other
    threads do while the producer waits. *)
Record attempt := mkAttempt { at_ns : Z; at_ms : Z; at_env : World -> World }.

(** [while (!pushed && retry_count < MAX_RETRIES)]. *)
Fixpoint push_retry (tries : list attempt) (q : QueueId) (evt : EventPtr) (w : World)
    : outcome (bool * World) :=
  match tries with
  | [] => Ret (false, w)
  | a :: tries' =>
      '(pushed, w) ← push q evt (at_ns a) (at_ms a) (at_env a) w;
      if pushed : bool then Ret (true, w) else push_retry tries' q evt w
  end.

(** One turn of the loop; [tries] has the three attempts. *)
Definition dispatch_one (tries : list attempt) (d : Dispatcher) : outcome Dispatcher :=
  match tryPop d with
  | (None, d) => Ret d
  | (Some None, d) => Ret d
  | (Some evt, d) =>
      '(q, w) ← route (topic_table_ d) evt (world d);
      '(pushed, w) ← push_retry (take MAX_RETRIES tries) q evt w;
      w ← (if pushed : bool then Ret w else dead_letter evt w);
      Ret (with_world w d)
  end.

Definition dispatch_all (turns : list (list attempt)) (d : Dispatcher) : outcome Dispatcher :=
  fold_left (fun m tries => d ← m; dispatch_one tries d) turns (Ret d).

(** ** What routing promises *)

Definition priority_max (p q : EventPriority) : EventPriority := if priority_lt p q then q else p.

Definition under_pressure (w : World) : bool := bool_decide (getRealtimePressure w <> P_NORMAL).

Definition adapted (w : World) (p : EventPriority) : EventPriority :=
  if under_pressure w && bool_decide (p = HIGH) then MEDIUM else p.

Definition final_priority (table : option (gmap string EventPriority)) (w : World) (e : Event)
    : EventPriority :=
  adapted w (priority_max (priority (header e)) (table_priority table (topic e))).

(** Rewriting the priority it already has leaves an event as it is. *)
Lemma set_priority_id e : set_priority (priority (header e)) e = e.
Proof. by destruct e as [[] ? ? ? ?]. Qed.
Lemma set_priority_twice p q e : set_priority p (set_priority q e) = set_priority p e.
Proof. done. Qed.

Lemma set_event_priority_live p l e w :
  heap w !! l = Some e ->
  set_event_priority p (Some l) w = Ret (with_heap (<[l := set_priority p e]> (heap w)) w).
Proof. intros He. unfold set_event_priority, modify. by rewrite He. Qed.

Lemma adapt_live l e w :
  heap w !! l = Some e ->
  adaptToPressure (Some l) w =
  Ret (with_heap (<[l := set_priority (adapted w (priority (header e))) e]> (heap w)) w).
Proof.
  intros He. unfold adaptToPressure, adapted, under_pressure.
  assert (Hid : with_heap (<[l := set_priority (priority (header e)) e]> (heap w)) w = w).
  { rewrite set_priority_id, insert_id by done. by destruct w. }
  destruct (getRealtimePressure w); cbn [deref]; rewrite ?He; cbn [mbind outcome_bind].
  - rewrite bool_decide_eq_false_2 by (intros Hn; by apply Hn). cbn [andb]. by rewrite Hid.
  - rewrite (bool_decide_eq_true_2 (P_HIGH <> P_NORMAL)) by discriminate. cbn [andb].
    case_bool_decide; [by apply set_event_priority_live|by rewrite Hid].
  - rewrite (bool_decide_eq_true_2 (P_CRITICAL <> P_NORMAL)) by discriminate. cbn [andb].
    case_bool_decide; [by apply set_event_priority_live|by rewrite Hid].
Qed.

(** Routing changes the event's priority and nothing else. *)
Lemma route_live table l e w :
  heap w !! l = Some e ->
  route table (Some l) w =
  Ret (queue_of (final_priority table w e),
       with_heap (<[l := set_priority (final_priority table w e) e]> (heap w)) w).
Proof.
  intros He. unfold route. cbn [deref]. rewrite He. cbn [mbind outcome_bind].
  set (tp := table_priority table (topic e)).
  set (mp := priority_max (priority (header e)) tp).
  assert (H1 : (if priority_lt (priority (header e)) tp then set_event_priority tp (Some l) w else Ret w)
               = Ret (with_heap (<[l := set_priority mp e]> (heap w)) w)).
  { unfold mp, priority_max. destruct (priority_lt (priority (header e)) tp).
    - by apply set_event_priority_live.
    - rewrite set_priority_id, insert_id by done. by destruct w. }
  rewrite H1. cbn [mbind outcome_bind].
  rewrite (adapt_live l (set_priority mp e)) by (simpl; by rewrite lookup_insert_eq).
  cbn [mbind outcome_bind deref heap with_heap]. rewrite lookup_insert_eq, insert_insert_eq.
  rewrite set_priority_twice. done.
Qed.

(** The queue of an event is the one of the larger of its own priority and the priority of its
    topic (MEDIUM for a topic not listed), HIGH lowered to MEDIUM under pressure; the event carries
    that priority afterwards and nothing else of the heap changes. *)
Theorem route_priority table l e w :
  heap w !! l = Some e ->
  let p := final_priority table w e in
  route table (Some l) w = Ret (queue_of p, with_heap (<[l := set_priority p e]> (heap w)) w) /\
  (queue_of p = REALTIME <-> p = CRITICAL \/ p = HIGH) /\
  (queue_of p = BATCHQ <-> priority (header e) = BATCH /\ table_priority table (topic e) = BATCH) /\
  (p = HIGH -> getRealtimePressure w = P_NORMAL) /\
  (priority_code (priority (header e)) < priority_code p ->
   p = table_priority table (topic e) \/ p = MEDIUM).
Proof.
  intros He p. split; [by apply route_live|].
  unfold p, final_priority, adapted, under_pressure, priority_max, queue_of, priority_lt.
  split_and!; destruct (priority (header e)), (table_priority table (topic e)),
    (getRealtimePressure w); simpl; try naive_solver lia.
Qed.

(** ** Nothing taken from the inbound queue is lost *)

Definition no_env : World -> World := fun w => w.
Definition alone (clock : list (Z * Z)) : list attempt :=
  map (fun '(ns, ms) => mkAttempt ns ms no_env) clock.

(** What the three attempts come to in the specification of the bus. *)
Definition abs_dispatch (q : QueueId) (evt : EventPtr) (a : Abs) : Abs :=
  match abs_op (Push q evt 0 0) a with
  | (Pushed true, a') => a'
  | (_, _) => mkAbs (a_rt a) (a_tx a) (a_bt a) (a_dropped a + 1)
  end.

Lemma abs_push_clock q evt ns ms a : abs_op (Push q evt ns ms) a = abs_op (Push q evt 0 0) a.
Proof. by destruct q. Qed.

Lemma abs_push_refused q evt a : (abs_op (Push q evt 0 0) a).1 = Pushed false ->
  (abs_op (Push q evt 0 0) a).2 = a.
Proof. destruct q; simpl; by repeat case_match. Qed.

Lemma sim_dead_letter evt w a :
  sim w a -> live (heap w) evt -> exists w', dead_letter evt w = Ret w' /\ heap w' = heap w /\
    sim w' (mkAbs (a_rt a) (a_tx a) (a_bt a) (a_dropped a + 1)).
Proof.
  intros [Hr Htx Hbt Hpol Hdlq Hlive] Hl. destruct (dead_letter_live evt w Hl) as [e ->].
  eexists. split; [done|]. split; [done|]. split; simpl; try done.
  unfold add64. by rewrite Hdlq, wrap_add_l.
Qed.

Lemma push_retry_cons ns ms clock q evt w :
  push_retry (alone ((ns, ms) :: clock)) q evt w =
  '(pushed, w) ← push q evt ns ms no_env w;
  if pushed : bool then Ret (true, w) else push_retry (alone clock) q evt w.
Proof. reflexivity. Qed.

Lemma push_retry_sim clock q evt w a :
  sim w a -> live (heap w) evt -> clock <> [] -> exists ok w',
    push_retry (alone clock) q evt w = Ret (ok, w') /\ heap w' = heap w /\
    (abs_op (Push q evt 0 0) a).1 = Pushed ok /\ sim w' (abs_op (Push q evt 0 0) a).2.
Proof.
  revert w; induction clock as [|[ns ms] clock IH]; intros w Hs Hl Hne; [done|].
  rewrite push_retry_cons.
  destruct (push_sim q evt ns ms w a Hs Hl) as (ok & w1 & Hpush & Hh & Hok & Hs1).
  unfold no_env at 1. rewrite Hpush. cbn [mbind outcome_bind]. rewrite abs_push_clock in Hok, Hs1.
  destruct ok; [by exists true, w1|].
  rewrite abs_push_refused in Hs1 by done.
  destruct clock as [|c clock].
  - exists false, w1. rewrite abs_push_refused by done. done.
  - destruct (IH w1 Hs1) as (ok & w2 & H2 & Hh2 & Hok2 & Hs2); [by rewrite Hh|done|].
    exists ok, w2. rewrite H2. split; [done|]. by rewrite Hh2.
Qed.

Lemma sim_heap h w a :
  sim w a -> (forall p, live (heap w) p -> live h p) -> sim (with_heap h w) a.
Proof.
  intros [Hr Htx Hbt Hpol Hdlq Hlive] Hh. split; try done. simpl. eapply Forall_impl; [exact Hlive|done].
Qed.

Lemma dispatch_one_sim c1 c2 c3 d a l e rest :
  sim (world d) a -> inbound_queue_ d = Some l :: rest -> heap (world d) !! l = Some e ->
  exists d', dispatch_one (alone [c1; c2; c3]) d = Ret d' /\
    inbound_queue_ d' = rest /\ topic_table_ d' = topic_table_ d /\
    heap (world d') =
      <[l := set_priority (final_priority (topic_table_ d) (world d) e) e]> (heap (world d)) /\
    sim (world d')
      (abs_dispatch (queue_of (final_priority (topic_table_ d) (world d) e)) (Some l) a).
Proof.
  intros Hs Hq He. unfold dispatch_one, tryPop. rewrite Hq. cbn [Mpsc.pop topic_table_ world].
  rewrite (route_live _ l e) by done. cbn [mbind outcome_bind].
  set (p := final_priority (topic_table_ d) (world d) e).
  set (w1 := with_heap _ (world d)).
  assert (Hlive : forall x, live (heap (world d)) x -> live (heap w1) x).
  { intros x Hx. apply (live_modify (set_priority p) (heap (world d)) (heap w1) (Some l)); [|done].
    cbn [modify]. by rewrite He. }
  assert (Hs1 : sim w1 a) by (by apply sim_heap).
  assert (Hl1 : live (heap w1) (Some l)) by (apply Hlive; by exists l, e).
  change (take MAX_RETRIES (alone [c1; c2; c3])) with (alone [c1; c2; c3]).
  destruct (push_retry_sim [c1; c2; c3] (queue_of p) (Some l) w1 a Hs1 Hl1)
    as (ok & w2 & Hp & Hh & Hok & Hs2); [done|].
  rewrite Hp. cbn [mbind outcome_bind]. unfold abs_dispatch.
  destruct (abs_op (Push (queue_of p) (Some l) 0 0) a) as [r a'] eqn:Ea. simpl in Hok, Hs2. subst r.
  destruct ok; cbn [mbind outcome_bind].
  - eexists. split; [done|]. by split_and!.
  - destruct (sim_dead_letter (Some l) w2 a') as (w3 & Hd & Hh3 & Hs3); [done|by rewrite Hh|].
    rewrite Hd. cbn [mbind outcome_bind]. eexists. split; [done|].
    split; [done|]. split; [done|]. split; [simpl; by rewrite Hh3, Hh|].
    pose proof (abs_push_refused (queue_of p) (Some l) a) as Hr. rewrite Ea in Hr. simpl in Hr.
    by rewrite (Hr eq_refl) in Hs3.
Qed.

(** A turn of the dispatch loop that finds an event takes it off the inbound queue and leaves it in
    exactly one place - at the end of the queue it is routed to, or, after that queue refused it
    three times, in the dead-letter queue, counted once. *)
Theorem dispatch_one_keeps_event c1 c2 c3 d a l e rest :
  sim (world d) a -> inbound_queue_ d = Some l :: rest -> heap (world d) !! l = Some e ->
  exists d', dispatch_one (alone [c1; c2; c3]) d = Ret d' /\
    inbound_queue_ d' = rest /\ topic_table_ d' = topic_table_ d /\
    heap (world d') =
      <[l := set_priority (final_priority (topic_table_ d) (world d) e) e]> (heap (world d)) /\
    sim (world d')
      (abs_dispatch (queue_of (final_priority (topic_table_ d) (world d) e)) (Some l) a).
Proof. apply dispatch_one_sim. Qed.

(** ** Pressure and counters *)

Lemma push_other_queue q evt ns ms w ok w' :
  q <> REALTIME -> push q evt ns ms no_env w = Ret (ok, w') ->
  RealtimeBus_ (bus w') = RealtimeBus_ (bus w).
Proof.
  intros Hq. unfold push, no_env.
  assert (He : forall w0, RealtimeBus_ (bus (enqueue q evt ns ms w0).2) = RealtimeBus_ (bus w0))
    by (intros w0; unfold enqueue; cbn [snd]; rewrite touch_bus; by destruct q).
  assert (Hw : forall w0, Ret (enqueue q evt ns ms w0) = Ret (ok, w') ->
            RealtimeBus_ (bus w0) = RealtimeBus_ (bus w) ->
            RealtimeBus_ (bus w') = RealtimeBus_ (bus w)).
  { intros w0 Hr Hw0. specialize (He w0).
    destruct (enqueue q evt ns ms w0). simplify_eq. simpl in He. congruence. }
  set (w1 := metric (fun m => m) w).
  destruct q; [done|..]; (destruct (full _ w1); [|intros Hr; by apply (Hw w1)]);
    (destruct (policy _); [intros Hr; by apply (Hw w1)|..]);
    try (destruct (full _ w1); [|intros Hr; by apply (Hw w1)]);
    rewrite outcome_bind_ret; intros (e & _ & [= _ <-]); done.
Qed.

Lemma push_retry_other_queue clock q evt w ok w' :
  q <> REALTIME -> push_retry (alone clock) q evt w = Ret (ok, w') ->
  RealtimeBus_ (bus w') = RealtimeBus_ (bus w).
Proof.
  intros Hq. revert w; induction clock as [|[ns ms] clock IH]; intros w; [by intros [= <- <-]|].
  rewrite push_retry_cons, outcome_bind_ret. intros ([[|] w1] & Hp & Hr).
  - simplify_eq. by eapply push_other_queue.
  - etransitivity; [by eapply IH|by eapply push_other_queue].
Qed.

(** The event is not CRITICAL and its topic is not listed as CRITICAL. *)
Definition noncritical (table : option (gmap string EventPriority)) (e : Event) : Prop :=
  priority (header e) <> CRITICAL /\ table_priority table (topic e) <> CRITICAL.

Lemma noncritical_final table w e :
  noncritical table e -> under_pressure w = true ->
  queue_of (final_priority table w e) <> REALTIME /\
  noncritical table (set_priority (final_priority table w e) e).
Proof.
  unfold noncritical, final_priority, adapted, priority_max, queue_of, priority_lt.
  intros [H1 H2] ->. simpl. destruct (priority (header e)), (table_priority table (topic e));
    simpl; naive_solver.
Qed.

Definition queued_noncritical (d : Dispatcher) : Prop :=
  Forall (fun p => exists l e, p = Some l /\ heap (world d) !! l = Some e /\
                               noncritical (topic_table_ d) e) (inbound_queue_ d).

Lemma dispatch_under_pressure c1 c2 c3 d a :
  sim (world d) a -> queued_noncritical d -> under_pressure (world d) = true ->
  exists d' a', dispatch_one (alone [c1; c2; c3]) d = Ret d' /\ sim (world d') a' /\
    queued_noncritical d' /\ RealtimeBus_ (bus (world d')) = RealtimeBus_ (bus (world d)).
Proof.
  intros Hs Hq Hu. destruct d as [w [|p rest] table]; [by exists (mkDispatcher w [] table), a|].
  apply Forall_cons in Hq as [(l & e & -> & He & Hn) Hq]. simpl in He, Hn, Hs, Hu.
  destruct (dispatch_one_sim c1 c2 c3 (mkDispatcher w (Some l :: rest) table) a l e rest
              Hs eq_refl He) as (d' & Hd & Hin & Htab & Hheap & Hs').
  simpl in Htab, Hheap. destruct (noncritical_final table w e Hn Hu) as [Hnq Hne].
  eexists d', _. split; [exact Hd|]. split; [exact Hs'|]. split.
  - unfold queued_noncritical. rewrite Hin, Htab, Hheap. eapply Forall_impl; [exact Hq|].
    intros p (l' & e' & -> & He' & Hn'). simpl in He'.
    destruct (decide (l' = l)) as [->|Hneq].
    + eexists l, _. rewrite lookup_insert_eq. split; [done|]. by split.
    + exists l', e'. by rewrite lookup_insert_ne.
  - unfold dispatch_one, tryPop in Hd. cbn [Mpsc.pop inbound_queue_ topic_table_ world] in Hd.
    rewrite (route_live _ l e) in Hd by done. cbn [mbind outcome_bind] in Hd.
    change (take MAX_RETRIES (alone [c1; c2; c3])) with (alone [c1; c2; c3]) in Hd.
    apply outcome_bind_ret in Hd as ([ok w2] & Hp & Hd).
    apply push_retry_other_queue in Hp; [|done]. simpl in Hp.
    apply outcome_bind_ret in Hd as (w3 & Hw3 & [= <-]). simpl. rewrite <- Hp.
    destruct ok; [by simplify_eq|]. unfold dead_letter in Hw3.
    apply outcome_bind_ret in Hw3 as (e3 & _ & [= <-]). done.
Qed.

(** Once the pressure level has left NORMAL, dispatching events that are not CRITICAL never
    brings it back: whatever the ring holds - even nothing - no such event reaches the REALTIME
    queue and the level stays, because only a REALTIME push measures the ring. *)
Theorem pressure_is_sticky clocks d a :
  sim (world d) a -> queued_noncritical d -> getRealtimePressure (world d) <> P_NORMAL ->
  exists d', dispatch_all (map (fun '(c1, c2, c3) => alone [c1; c2; c3]) clocks) d = Ret d' /\
    getRealtimePressure (world d') = getRealtimePressure (world d) /\
    ringBuffer (RealtimeBus_ (bus (world d'))) = ringBuffer (RealtimeBus_ (bus (world d))).
Proof.
  intros Hs Hq Hp.
  enough (Hg : exists d' a', dispatch_all (map (fun '(c1, c2, c3) => alone [c1; c2; c3]) clocks) d = Ret d' /\
    sim (world d') a' /\ RealtimeBus_ (bus (world d')) = RealtimeBus_ (bus (world d))).
  { destruct Hg as (d' & _ & Hd & _ & Hr). exists d'. split; [exact Hd|].
    unfold getRealtimePressure. by rewrite Hr. }
  revert d a Hs Hq Hp. induction clocks as [|[[c1 c2] c3] clocks IH]; intros d a Hs Hq Hp.
  { by exists d, a. }
  destruct (dispatch_under_pressure c1 c2 c3 d a Hs Hq) as (d1 & a1 & Hd & Hs1 & Hq1 & Hr1).
  { unfold under_pressure. by rewrite bool_decide_eq_true. }
  destruct (IH d1 a1 Hs1 Hq1) as (d2 & a2 & Hd2 & Hs2 & Hr2).
  { unfold getRealtimePressure in *. by rewrite Hr1. }
  exists d2, a2. split; [|split; [done|congruence]].
  unfold dispatch_all in *. cbn [map fold_left]. cbn [mbind outcome_bind]. by rewrite Hd.
Qed.

(** The bus's counter of dropped events. *)
Definition dropped_metric (w : World) : Z :=
  total_events_dropped (default new_metrics
    (MetricRegistry.metrics_map_ (metrics w) !! MetricNames.EVENTBUS)).

Lemma dropped_metric_update f w :
  dropped_metric (metric f w) =
  total_events_dropped (f (default new_metrics
    (MetricRegistry.metrics_map_ (metrics w) !! MetricNames.EVENTBUS))).
Proof. unfold dropped_metric, metric. simpl. by rewrite MetricRegistry.update_metrics_lookup. Qed.

Lemma push_full_batch evt ns ms w a :
  sim w a -> live (heap w) evt -> 32768 <= zlen (a_bt a) ->
  exists w', push BATCHQ evt ns ms no_env w = Ret (false, w') /\ heap w' = heap w /\
    bus w' = bus w /\ dropped_metric w' = add64 (dropped_metric w) 1.
Proof.
  intros Hs Hl Hf. unfold push, full. cbn [getQueue metric bus]. rewrite (s_bt _ _ Hs). simpl.
  rewrite (proj2 (Z.leb_le 32768 (zlen (a_bt a)))) by lia.
  apply deref_live in Hl as [e He]. rewrite He. cbn [mbind outcome_bind].
  eexists. split; [done|]. split; [done|]. split; [done|].
  rewrite dropped_metric_update. unfold add_dropped. simpl. f_equal.
  by rewrite MetricRegistry.update_metrics_lookup.
Qed.

(** An event refused by the full BATCH queue is dead-lettered once but counted three times in the
    bus's dropped-events metric, once per attempt. *)
Theorem batch_drop_counted_thrice c1 c2 c3 d a l e rest :
  sim (world d) a -> inbound_queue_ d = Some l :: rest -> heap (world d) !! l = Some e ->
  32768 <= zlen (a_bt a) -> queue_of (final_priority (topic_table_ d) (world d) e) = BATCHQ ->
  exists d', dispatch_one (alone [c1; c2; c3]) d = Ret d' /\
    dropped_metric (world d') = wrap 64 (dropped_metric (world d) + 3) /\
    DeadLetterQueue.total_dropped_ (dlq_ (bus (world d'))) =
      add64 (DeadLetterQueue.total_dropped_ (dlq_ (bus (world d)))) 1.
Proof.
  intros Hs Hq He Hf Hb. unfold dispatch_one, tryPop. rewrite Hq.
  cbn [Mpsc.pop inbound_queue_ topic_table_ world].
  rewrite (route_live _ l e) by done. cbn [mbind outcome_bind]. rewrite Hb.
  change (take MAX_RETRIES (alone [c1; c2; c3])) with (alone [c1; c2; c3]).
  set (p := final_priority (topic_table_ d) (world d) e). set (w0 := with_heap _ (world d)).
  assert (Hlive : forall x, live (heap (world d)) x -> live (heap w0) x).
  { intros x Hx. apply (live_modify (set_priority p) (heap (world d)) (heap w0) (Some l)); [|done].
    cbn [modify]. by rewrite He. }
  assert (Hs0 : sim w0 a) by (by apply sim_heap).
  assert (Hl0 : live (heap w0) (Some l)) by (apply Hlive; by exists l, e).
  destruct c1 as [n1 m1], c2 as [n2 m2], c3 as [n3 m3]. rewrite !push_retry_cons.
  destruct (push_full_batch (Some l) n1 m1 w0 a Hs0 Hl0 Hf) as (w1 & -> & Hh1 & Hb1 & Hd1).
  cbn [mbind outcome_bind]. rewrite push_retry_cons.
  destruct (push_full_batch (Some l) n2 m2 w1 a) as (w2 & -> & Hh2 & Hb2 & Hd2);
    [by eapply sim_same|by rewrite Hh1|done|].
  cbn [mbind outcome_bind]. rewrite push_retry_cons.
  destruct (push_full_batch (Some l) n3 m3 w2 a) as (w3 & -> & Hh3 & Hb3 & Hd3);
    [eapply sim_same; [rewrite Hb2; exact Hb1|rewrite Hh2; exact Hh1|exact Hs0]|by rewrite Hh2, Hh1|done|].
  cbn [mbind outcome_bind alone map push_retry].
  destruct (dead_letter_live (Some l) w3) as [e3 He3]; [by rewrite Hh3, Hh2, Hh1|].
  rewrite He3. cbn [mbind outcome_bind]. eexists. split; [done|]. simpl. split.
  - change (dropped_metric (set_dlq _ w3)) with (dropped_metric w3). rewrite Hd3, Hd2, Hd1.
    change (dropped_metric w0) with (dropped_metric (world d)). unfold add64.
    rewrite !wrap_add_l. rewrite <- Z.add_assoc, wrap_add_l. f_equal. lia.
  - rewrite Hb3, Hb2, Hb1. done.
Qed.

End Dispatcher.

(** ** Concrete runs *)

Module DispatchRun.

(** One HIGH event waits in the inbound queue; the ring is empty. *)
Definition start : Dispatcher.Dispatcher :=
  Dispatcher.mkDispatcher (EventBus.initial BusRun.heap1 BusRun.registry0) [Some 1%positive] None.

(** The same, the pressure level left at HIGH. *)
Definition pressed : Dispatcher.Dispatcher :=
  Dispatcher.mkDispatcher
    (EventBus.set_pressure EventBus.P_HIGH (EventBus.initial BusRun.heap1 BusRun.registry0))
    [Some 1%positive] None.

(** A BATCH event of a topic listed as BATCH, and the BATCH queue full. *)
Definition batch_event : Event := set_priority BATCH BusRun.event1.
Definition batch_full : Dispatcher.Dispatcher :=
  Dispatcher.mkDispatcher
    (EventBus.mkWorld {[1%positive := batch_event]}
       (EventBus.mkBus (EventBus.RealtimeBus_ EventBus.new_bus) (EventBus.TransactionalBus_ EventBus.new_bus)
          (EventBus.mkQ (replicate (Z.to_nat 32768) (Some 1%positive)) 32768 EventBus.DROP_NEW)
          DeadLetterQueue.new)
       BusRun.registry0 MetricRegistry.new_buffer)
    [Some 1%positive] (Some {["a"%string := BATCH]}).
Definition batch_full_abs : EventBus.Abs :=
  EventBus.mkAbs [] [] (replicate (Z.to_nat 32768) (Some 1%positive)) 0.

Lemma batch_full_sim : EventBus.sim (Dispatcher.world batch_full) batch_full_abs.
Proof.
  split; try reflexivity.
  - exists 0. apply Spsc.new_ring_represents, EventBus.log_ring_range.
  - apply Forall_replicate. exists 1%positive, batch_event. split; reflexivity.
Qed.

Lemma batch_full_count : 32768 <= zlen (EventBus.a_bt batch_full_abs).
Proof. unfold zlen, batch_full_abs. cbn [EventBus.a_bt]. rewrite length_replicate. lia. Qed.

End DispatchRun.

Lemma route_priority_witness :
  exists w, Dispatcher.route None (Some 1%positive) (EventBus.initial BusRun.heap1 BusRun.registry0)
            = Ret (EventBus.REALTIME, w).
Proof.
  destruct (Dispatcher.route_priority None 1%positive BusRun.event1
              (EventBus.initial BusRun.heap1 BusRun.registry0) eq_refl) as [Hr _].
  eexists. exact Hr.
Defined.

Lemma dispatch_one_keeps_event_witness :
  exists d', Dispatcher.dispatch_one (Dispatcher.alone [(0, 0); (1, 0); (2, 0)]) DispatchRun.start = Ret d' /\
    EventBus.sim (Dispatcher.world d') (EventBus.mkAbs [Some 1%positive] [] [] 0).
Proof.
  destruct (Dispatcher.dispatch_one_keeps_event (0, 0) (1, 0) (2, 0) DispatchRun.start
              (EventBus.mkAbs [] [] [] 0) 1%positive BusRun.event1 []
              (EventBus.initial_sim _ _) eq_refl eq_refl) as (d' & Hd & _ & _ & _ & Hs).
  exists d'. exact (conj Hd Hs).
Defined.

Lemma pressure_is_sticky_witness :
  exists d', Dispatcher.dispatch_all [Dispatcher.alone [(0, 0); (1, 0); (2, 0)]] DispatchRun.pressed = Ret d' /\
    EventBus.getRealtimePressure (Dispatcher.world d') = EventBus.P_HIGH.
Proof.
  destruct (Dispatcher.pressure_is_sticky [((0, 0), (1, 0), (2, 0))] DispatchRun.pressed
              (EventBus.mkAbs [] [] [] 0)) as (d' & Hd & Hp & _).
  - apply EventBus.sim_pressure, EventBus.initial_sim.
  - repeat constructor. exists 1%positive, BusRun.event1. repeat split; discriminate.
  - discriminate.
  - exists d'. exact (conj Hd Hp).
Defined.

Lemma batch_drop_counted_thrice_witness :
  exists d', Dispatcher.dispatch_one (Dispatcher.alone [(0, 0); (1, 0); (2, 0)]) DispatchRun.batch_full = Ret d' /\
    Dispatcher.dropped_metric (Dispatcher.world d') = 3.
Proof.
  destruct (Dispatcher.batch_drop_counted_thrice (0, 0) (1, 0) (2, 0) DispatchRun.batch_full
              DispatchRun.batch_full_abs 1%positive DispatchRun.batch_event [])
    as (d' & Hd & Hm & _).
  - exact DispatchRun.batch_full_sim.
  - reflexivity.
  - reflexivity.
  - exact DispatchRun.batch_full_count.
  - reflexivity.
  - exists d'. exact (conj Hd Hm).
Defined.
