(* ===== verification/Fanout.v ===== *)
(** * The dispatcher as a fork

    While every queue has room the dispatch loop splits the inbound queue into the
    three queues of the bus: each event goes, in order, to the queue its own priority
    and its topic select, and nothing else changes.  Module [Fanout]. *)

From S2P Require Import Prelude Event TopicTable Spsc Mpsc Dlq Metrics EventBus Dispatcher.

Module Fanout.
Import EventBus Dispatcher.

(** ** A push that finds room *)

(** The events of a queue, and the number below which it takes one more without changing the
    pressure level. *)
Definition events_of (q : QueueId) (a : Abs) : list EventPtr :=
  match q with REALTIME => a_rt a | TRANSACTIONAL => a_tx a | BATCHQ => a_bt a end.
Definition bound (q : QueueId) : Z :=
  match q with REALTIME => 12000 | TRANSACTIONAL => 131072 | BATCHQ => 32768 end.

Definition add (q : QueueId) (evt : EventPtr) (a : Abs) : Abs :=
  match q with
  | REALTIME => mkAbs (a_rt a ++ [evt]) (a_tx a) (a_bt a) (a_dropped a)
  | TRANSACTIONAL => mkAbs (a_rt a) (a_tx a ++ [evt]) (a_bt a) (a_dropped a)
  | BATCHQ => mkAbs (a_rt a) (a_tx a) (a_bt a ++ [evt]) (a_dropped a)
  end.

(** What a push with room keeps: the heap, the dead-letter queue and the counters of the others. *)
Record keeps_rest (w w' : World) : Prop := {
  kr_heap : heap w' = heap w;
  kr_dlq : dlq_ (bus w') = dlq_ (bus w);
  kr_metrics : forall name, name <> MetricNames.EVENTBUS ->
    MetricRegistry.metrics_map_ (metrics w') !! name = MetricRegistry.metrics_map_ (metrics w) !! name
}.

Lemma keeps_rest_trans w1 w2 w3 : keeps_rest w1 w2 -> keeps_rest w2 w3 -> keeps_rest w1 w3.
Proof.
  intros [H1 H2 H3] [H4 H5 H6]. split; [congruence..|]. intros name Hn. by rewrite H6, H3.
Qed.

Lemma metric_rest f w : keeps_rest w (metric f w).
Proof. split; try done. intros name Hn. cbn. by apply MetricRegistry.update_metrics_other. Qed.

Lemma touch_keeps_rest ns ms w : keeps_rest w (touch_timestamp ns ms w).
Proof.
  split; [by rewrite touch_heap|by rewrite touch_bus|]. intros name Hn. unfold touch_timestamp.
  unfold MetricRegistry.updateEventTimestamp. destruct (_ && _); cbn; [done|].
  destruct (MetricRegistry.metrics_map_ (metrics w) !! "EventBusMulti"); cbn; [|done].
  apply lookup_insert_ne. by intros <-.
Qed.

Lemma bus_rest b w : dlq_ b = dlq_ (bus w) -> keeps_rest w (with_bus b w).
Proof. by split. Qed.

(** Read a chain of updates from the outside in. *)
Ltac rest_chain :=
  repeat (eapply keeps_rest_trans; [|first [apply touch_keeps_rest | apply metric_rest | by apply bus_rest]]); by split.

Lemma enqueue_rest q evt ns ms w : keeps_rest w (enqueue q evt ns ms w).2.
Proof.
  assert (Hq : forall l, keeps_rest w (set_dq q l w)) by (intros l; by destruct q).
  unfold enqueue. cbn [snd]. eapply keeps_rest_trans; [apply Hq|]. rest_chain.
Qed.

(** A deque that is not full. *)
Lemma push_deque_room q evt ns ms env w :
  q <> REALTIME -> full q (metric (fun m => m) w) = false ->
  let w' := (enqueue q evt ns ms (metric (fun m => m) w)).2 in
  push q evt ns ms env w = Ret (true, w') /\ keeps_rest w w' /\ getRealtimePressure w' = getRealtimePressure w.
Proof.
  intros Hq Hfull w'. split; [unfold push; rewrite Hfull; by destruct q|]. split.
  - eapply keeps_rest_trans; [apply (metric_rest (fun m => m))|apply enqueue_rest].
  - unfold w', getRealtimePressure, enqueue. cbn [snd]. rewrite touch_bus. by destruct q.
Qed.

(** A push that finds room succeeds at once, whatever the other threads would do to a waiting one. *)
Lemma push_room q evt ns ms env w a :
  sim w a -> live (heap w) evt -> getRealtimePressure w = P_NORMAL -> zlen (events_of q a) < bound q ->
  exists w', push q evt ns ms env w = Ret (true, w') /\ sim w' (add q evt a) /\ keeps_rest w w' /\
    getRealtimePressure w' = P_NORMAL.
Proof.
  intros Hs Hl Hn Hroom. destruct (push_sim q evt ns ms w a Hs Hl) as (ok & w1 & Hpush & _ & Hok & Hs1).
  assert (Habs : abs_op (Push q evt ns ms) a = (Pushed true, add q evt a)).
  { destruct q; cbn [bound events_of] in Hroom; cbn [abs_op]; rewrite (proj2 (Z.ltb_lt _ _)) by lia; done. }
  rewrite Habs in Hok, Hs1. injection Hok as <-. cbn [snd] in Hs1. exists w1.
  assert (Hsame : push q evt ns ms env w = push q evt ns ms (fun w => w) w /\
                  keeps_rest w w1 /\ getRealtimePressure w1 = P_NORMAL).
  2: { destruct Hsame as (-> & H1 & H2). by split_and!. }
  destruct q.
  - split; [done|]. destruct Hs as [[tc Hr] _ _ _ _ _]. revert Hpush. cbn [push]. unfold push_realtime.
    pose proof (Spsc.size_represents _ log_ring_range _ _ _ Hr) as Hsz.
    pose proof (Spsc.push_represents _ log_ring_range evt _ _ _ Hr) as Hp.
    cbn [bus metric set_pressure with_bus RealtimeBus_ ringBuffer].
    rewrite Hsz. destruct (Spsc.push log_ring evt _) as [ok r].
    unfold Spsc.fifo_push in Hp. rewrite ring_slots in Hp. cbn [bound events_of] in Hroom.
    rewrite (proj2 (Z.ltb_lt _ _)) in Hp by lia. destruct Hp as [-> _]. intros [= <-]. split.
    + unfold set_ring, set_pressure. rest_chain.
    + unfold getRealtimePressure. rewrite touch_bus. cbn. unfold pressure_of.
      rewrite !(proj2 (Z.leb_gt _ _)) by lia. done.
  - assert (Hfull : full TRANSACTIONAL (metric (fun m => m) w) = false).
    { unfold full. cbn. rewrite (s_tx _ _ Hs). by apply Z.leb_gt. }
    destruct (push_deque_room TRANSACTIONAL evt ns ms (fun w => w) w) as (Hp & Hk & Hpr); [done..|].
    destruct (push_deque_room TRANSACTIONAL evt ns ms env w) as (-> & _); [done..|].
    rewrite Hp in Hpush |- *. injection Hpush as <-. split; [done|]. split; [done|]. by etransitivity; [exact Hpr|].
  - assert (Hfull : full BATCHQ (metric (fun m => m) w) = false).
    { unfold full. cbn. rewrite (s_bt _ _ Hs). by apply Z.leb_gt. }
    destruct (push_deque_room BATCHQ evt ns ms (fun w => w) w) as (Hp & Hk & Hpr); [done..|].
    destruct (push_deque_room BATCHQ evt ns ms env w) as (-> & _); [done..|].
    rewrite Hp in Hpush |- *. injection Hpush as <-. split; [done|]. split; [done|]. by etransitivity; [exact Hpr|].
Qed.

(** ** The loop on a whole inbound queue *)

(** The event as the dispatcher leaves it, and the queue it goes to, at normal pressure. *)
Definition prioritised (table : option (gmap string EventPriority)) (e : Event) : Event :=
  set_priority (priority_max (priority (header e)) (table_priority table (topic e))) e.
Definition destination (table : option (gmap string EventPriority)) (e : Event) : QueueId :=
  queue_of (priority (header (prioritised table e))).

(** The addresses whose events go to the queue. *)
Fixpoint share table (q : QueueId) (ls : list loc) (es : list Event) : list loc :=
  match ls, es with
  | l :: ls', e :: es' =>
      if bool_decide (destination table e = q) then l :: share table q ls' es' else share table q ls' es'
  | _, _ => []
  end.

(** [d'] is [d] after the events [es] at [ls] were dispatched. *)
Record forked (d : Dispatcher) (a : Abs) (ls : list loc) (es : list Event) (d' : Dispatcher) : Prop := {
  f_sim : sim (world d') (mkAbs (a_rt a ++ map Some (share (topic_table_ d) REALTIME ls es))
                                (a_tx a ++ map Some (share (topic_table_ d) TRANSACTIONAL ls es))
                                (a_bt a ++ map Some (share (topic_table_ d) BATCHQ ls es)) (a_dropped a));
  f_pressure : getRealtimePressure (world d') = P_NORMAL;
  f_events : Forall2 (fun l e => heap (world d') !! l = Some e) ls (map (prioritised (topic_table_ d)) es);
  f_others : forall l, l ∉ ls -> heap (world d') !! l = heap (world d) !! l;
  f_dlq : dlq_ (bus (world d')) = dlq_ (bus (world d));
  f_metrics : forall name, name <> MetricNames.EVENTBUS ->
    MetricRegistry.metrics_map_ (metrics (world d')) !! name = MetricRegistry.metrics_map_ (metrics (world d)) !! name
}.

Lemma final_priority_calm table w e :
  getRealtimePressure w = P_NORMAL ->
  final_priority table w e = priority_max (priority (header e)) (table_priority table (topic e)).
Proof. intros Hn. unfold final_priority, adapted, under_pressure. rewrite Hn. by rewrite bool_decide_eq_false_2 by auto. Qed.

(** One turn with at least one attempt. *)
Lemma dispatch_one_room t tries d a l e rest :
  sim (world d) a -> inbound_queue_ d = Some l :: rest -> heap (world d) !! l = Some e ->
  getRealtimePressure (world d) = P_NORMAL ->
  let q := destination (topic_table_ d) e in
  zlen (events_of q a) < bound q ->
  exists d', dispatch_one (t :: tries) d = Ret d' /\ inbound_queue_ d' = rest /\ topic_table_ d' = topic_table_ d /\
    sim (world d') (add q (Some l) a) /\ getRealtimePressure (world d') = P_NORMAL /\
    heap (world d') = <[l := prioritised (topic_table_ d) e]> (heap (world d)) /\
    dlq_ (bus (world d')) = dlq_ (bus (world d)) /\
    forall name, name <> MetricNames.EVENTBUS ->
      MetricRegistry.metrics_map_ (metrics (world d')) !! name = MetricRegistry.metrics_map_ (metrics (world d)) !! name.
Proof.
  intros Hs Hq He Hn q Hroom. unfold dispatch_one, tryPop. rewrite Hq. cbn [Mpsc.pop topic_table_ world].
  rewrite (route_live _ l e) by done. rewrite final_priority_calm by done. cbn [mbind outcome_bind].
  change (queue_of (priority_max (priority (header e)) (table_priority (topic_table_ d) (topic e)))) with q.
  change (set_priority _ e) with (prioritised (topic_table_ d) e).
  set (w1 := with_heap _ (world d)).
  assert (Hs1 : sim w1 a).
  { apply sim_heap; [done|]. intros p. apply (live_modify (fun _ => prioritised (topic_table_ d) e) _ _ (Some l)).
    cbn [modify]. by rewrite He. }
  destruct (push_room q (Some l) (at_ns t) (at_ms t) (at_env t) w1 a Hs1) as (w2 & Hw2 & Hs2 & [Hh Hd Hm] & Hn2); [|done..|].
  { exists l, (prioritised (topic_table_ d) e). split; [done|]. by apply lookup_insert_eq. }
  cbn [take MAX_RETRIES push_retry]. rewrite Hw2. cbn [mbind outcome_bind].
  eexists. split; [done|]. cbn. by split_and!.
Qed.

Lemma forked_nil d a : sim (world d) a -> getRealtimePressure (world d) = P_NORMAL -> forked d a [] [] d.
Proof. intros Hs Hn. split; try done. cbn [share map].
  rewrite !app_nil_r. by destruct a. Qed.

Lemma events_of_add q q' evt a : zlen (events_of q (add q' evt a)) <= zlen (events_of q a) + 1.
Proof. destruct q, q'; cbn; autorewrite with zlen; lia. Qed.

Lemma dispatch_all_cons t ts d d1 :
  dispatch_one t d = Ret d1 -> dispatch_all (t :: ts) d = dispatch_all ts d1.
Proof. intros Hd. unfold dispatch_all. cbn [fold_left mbind outcome_bind]. by rewrite Hd. Qed.

(** With room in every queue the dispatcher is a stable fork of its inbound queue. *)
Lemma dispatch_forks turns d a ls es :
  sim (world d) a -> inbound_queue_ d = map Some ls -> NoDup ls ->
  Forall2 (fun l e => heap (world d) !! l = Some e) ls es ->
  getRealtimePressure (world d) = P_NORMAL ->
  length turns = length ls -> Forall (fun t => t <> []) turns ->
  (forall q, zlen (events_of q a) + zlen ls <= bound q) ->
  exists d', dispatch_all turns d = Ret d' /\ inbound_queue_ d' = [] /\ topic_table_ d' = topic_table_ d /\
    forked d a ls es d'.
Proof.
  revert d a ls es. induction turns as [|t turns IH]; intros d a [|l ls] [|e es] Hs Hq Hnd Hes Hn Hlen Htry Hroom;
    try done; try (by inversion Hes).
  { exists d. split_and!; try done. by apply forked_nil. }
  apply Forall2_cons in Hes as [He Hes]. apply NoDup_cons in Hnd as [Hl Hnd]. injection Hlen as Hlen.
  apply Forall_cons in Htry as [Ht Htry]. destruct t as [|t tries]; [done|].
  pose proof (zlen_nonneg ls). setoid_rewrite zlen_cons in Hroom.
  destruct (dispatch_one_room t tries d a l e (map Some ls) Hs Hq He Hn) as
    (d1 & Hd1 & Hq1 & Ht1 & Hs1 & Hn1 & Hh1 & Hdl1 & Hm1); [specialize (Hroom (destination (topic_table_ d) e)); lia|].
  destruct (IH d1 _ ls es Hs1 Hq1 Hnd) as (d' & Hd' & Hq' & Ht' & [Fs Fp Fe Fo Fd Fm]); try done.
  { rewrite Hh1. apply Forall2_same_length_lookup. apply Forall2_same_length_lookup in Hes as [Hlen' Hes].
    split; [done|]. intros i k x Hk Hx. rewrite lookup_insert_ne; [by eapply Hes|].
    intros ->. apply Hl. by eapply list_elem_of_lookup_2. }
  { intros q. specialize (Hroom q). pose proof (events_of_add q (destination (topic_table_ d) e) (Some l) a). lia. }
  exists d'. rewrite (dispatch_all_cons _ _ _ d1) by done. rewrite Ht', Ht1 in *. split_and!; try done.
  split; [|done| | |congruence|intros name Hname; by rewrite Fm, Hm1].
  - cbn [share]. destruct (destination (topic_table_ d) e); cbn [add a_rt a_tx a_bt a_dropped] in Fs;
      repeat (rewrite bool_decide_eq_true_2 by done) || rewrite bool_decide_eq_false_2 by done; cbn [map];
      rewrite <- ?app_assoc in Fs; exact Fs.
  - cbn [map]. constructor; [|done]. rewrite Fo, Hh1 by done. apply lookup_insert_eq.
  - intros k [Hk1 Hk2]%not_elem_of_cons. rewrite Fo, Hh1 by done. by apply lookup_insert_ne.
Qed.

(** ** The shares *)

Lemma share_in table q ls es l : l ∈ share table q ls es -> l ∈ ls.
Proof.
  revert es; induction ls as [|k ls IH]; intros [|e es]; cbn [share]; try set_solver.
  case_bool_decide; [|set_solver]. intros [->|Hl]%elem_of_cons; [left|right; by eapply IH].
Qed.

Lemma share_disjoint table q q' ls es l :
  NoDup ls -> q <> q' -> l ∈ share table q ls es -> l ∉ share table q' ls es.
Proof.
  intros Hnd Hq. revert es; induction Hnd as [|k ls Hk Hnd IH]; intros [|e es]; cbn [share]; try set_solver.
  assert (Hno : forall q, k ∉ share table q ls es) by (intros q0 Hin; by apply Hk, (share_in table q0 ls es)).
  repeat case_bool_decide; try congruence; intros Hin Hin'; repeat (rewrite elem_of_cons in *); naive_solver.
Qed.

(** The events at the addresses of a share. *)
Lemma share_events table q (h : Heap) ls es :
  Forall2 (fun l e => h !! l = Some e) ls (map (prioritised table) es) ->
  Forall2 (fun l e => h !! l = Some e) (share table q ls es)
    (map (prioritised table) (List.filter (fun e => bool_decide (destination table e = q)) es)).
Proof.
  revert es; induction ls as [|l ls IH]; intros [|e es] Hes; cbn [share map List.filter] in *;
    try constructor; try (by inversion Hes).
  apply Forall2_cons in Hes as [He Hes]. case_bool_decide; [constructor|]; auto.
Qed.

End Fanout.
