(* ===== verification/Pipeline.v ===== *)
(** * From the socket to the dispatcher

    The instance of [FrameSink] the ingest servers run with: an event is taken from
    [IngestEventPool] (an address no holder refers to), filled by
    [EventFactory::createEvent] and offered to [Dispatcher::tryPush], as the [try]
    blocks of [src/core/ingest/{tcp,udp,epoll}.cpp] do.  The frames a server delivers
    become, in order, the events at the end of the inbound queue; the three servers
    share that lemma. *)

From S2P Require Import Prelude Event EventFactory FrameParser IngestSink TcpServer EpollServer UdpServer.
From S2P Require Import Mpsc EventBus Dispatcher.

Module Pipeline.

(** The dispatcher with what it reaches, the id counter of the factory and the
    system clock. *)
Record PWorld := mkPWorld {
  disp : Dispatcher.Dispatcher;
  global_event_id : Z;
  clock_ns : Z
}.

Definition heap_of (w : PWorld) : Heap := EventBus.heap (Dispatcher.world (disp w)).

Definition offer (src : EventSourceType) (addr : string) (f : FrameParser.ParsedFrame) (w : PWorld)
    : bool * PWorld :=
  let l := fresh (dom (heap_of w)) in
  let '(e, next_id) := EventFactory.createEvent (global_event_id w) (clock_ns w) src
                         (FrameParser.pf_priority f) (FrameParser.pf_payload f)
                         (FrameParser.pf_topic f) {["client_address"%string := addr]} in
  let d := Dispatcher.with_world
             (EventBus.with_heap (<[l := e]> (heap_of w)) (Dispatcher.world (disp w))) (disp w) in
  let '(ok, d) := Dispatcher.tryPush (Some l) d in
  (ok, mkPWorld d next_id (clock_ns w)).

#[export] Instance pipeline_sink : FrameSink PWorld := {| accept_frame := offer |}.

(** ** The events frames become *)

(** The call of [createEvent] a server makes for a frame. *)
Definition request_of (src : EventSourceType) (addr : string) (now : Z) (f : FrameParser.ParsedFrame) :=
  EventFactory.mkRequest now src (FrameParser.pf_priority f) (FrameParser.pf_payload f)
    (FrameParser.pf_topic f) {["client_address"%string := addr]}.

Definition created (src : EventSourceType) (addr : string) (f : FrameParser.ParsedFrame) (w : PWorld) : Event :=
  (EventFactory.createEvent (global_event_id w) (clock_ns w) src (FrameParser.pf_priority f)
     (FrameParser.pf_payload f) (FrameParser.pf_topic f) {["client_address"%string := addr]}).1.

(** The events of a sequence of frames, the ids taken from the counter one after another. *)
Definition arrivals (src : EventSourceType) (addr : string) (fs : list FrameParser.ParsedFrame) (w : PWorld)
    : list Event :=
  (EventFactory.create_run (global_event_id w) (map (request_of src addr (clock_ns w)) fs)).1.

Definition event_at (h : Heap) (l : loc) (e : Event) : Prop := h !! l = Some e.

(** [w'] is [w] with the events [es] at the new addresses [ls], queued in this order. *)
Record arrived (w : PWorld) (es : list Event) (ls : list loc) (w' : PWorld) : Prop := {
  ar_queue : Dispatcher.inbound_queue_ (disp w') = Dispatcher.inbound_queue_ (disp w) ++ map Some ls;
  ar_events : Forall2 (event_at (heap_of w')) ls es;
  ar_fresh : Forall (fun l => heap_of w !! l = None) ls;
  ar_distinct : NoDup ls;
  ar_old : forall l, l ∉ ls -> heap_of w' !! l = heap_of w !! l;
  ar_bus : exists h, Dispatcher.world (disp w') = EventBus.with_heap h (Dispatcher.world (disp w));
  ar_table : Dispatcher.topic_table_ (disp w') = Dispatcher.topic_table_ (disp w)
}.

Lemma arrived_nil w : arrived w [] [] w.
Proof.
  split; try done; [by rewrite app_nil_r|constructor|].
  exists (heap_of w). unfold heap_of. by destruct (Dispatcher.world (disp w)).
Qed.

Lemma arrived_cons w e l w1 es ls w2 :
  arrived w [e] [l] w1 -> arrived w1 es ls w2 -> arrived w (e :: es) (l :: ls) w2.
Proof.
  intros [Hq1 He1 Hf1 Hd1 Ho1 [h1 Hb1] Ht1] [Hq2 He2 Hf2 Hd2 Ho2 [h2 Hb2] Ht2].
  apply Forall_cons in Hf1 as [Hf1 _]. apply Forall2_cons in He1 as [He1 _].
  assert (Hl : l ∉ ls).
  { intros Hin. rewrite Forall_forall in Hf2. specialize (Hf2 l Hin). unfold event_at in He1. congruence. }
  split.
  - rewrite Hq2, Hq1, <- app_assoc. done.
  - constructor; [|done]. unfold event_at in *. by rewrite Ho2.
  - constructor; [done|]. apply Forall_forall. intros k Hk. rewrite Forall_forall in Hf2.
    rewrite <- (Ho1 k); [by apply Hf2|]. by intros ->%list_elem_of_singleton.
  - by constructor.
  - intros k Hk. apply not_elem_of_cons in Hk as [Hk1 Hk2].
    rewrite Ho2 by done. apply Ho1. by rewrite list_elem_of_singleton.
  - exists h2. by rewrite Hb2, Hb1.
  - congruence.
Qed.

Lemma arrivals_cons src addr f fs w w1 :
  global_event_id w1 = add64 (global_event_id w) 1 -> clock_ns w1 = clock_ns w ->
  arrivals src addr (f :: fs) w = created src addr f w :: arrivals src addr fs w1.
Proof.
  intros Hn Hc. unfold arrivals, created. rewrite Hn, Hc. cbn [map EventFactory.create_run request_of
    EventFactory.createEvent EventFactory.r_now EventFactory.r_source EventFactory.r_priority
    EventFactory.r_payload EventFactory.r_topic EventFactory.r_metadata].
  by destruct (EventFactory.create_run _ _).
Qed.

Lemma offer_accepted src addr f w :
  zlen (Dispatcher.inbound_queue_ (disp w)) < Dispatcher.INBOUND_CAPACITY ->
  exists l w', offer src addr f w = (true, w') /\ arrived w [created src addr f w] [l] w' /\
    global_event_id w' = add64 (global_event_id w) 1 /\ clock_ns w' = clock_ns w.
Proof.
  intros Hroom. unfold offer, created, Dispatcher.tryPush, Mpsc.push.
  cbn [EventFactory.createEvent Dispatcher.with_world Dispatcher.inbound_queue_ fst].
  rewrite (proj2 (Z.ltb_lt _ _) Hroom).
  set (l := fresh (dom (heap_of w))). set (e := new_event _ _ _ _).
  assert (Hl : heap_of w !! l = None) by (apply not_elem_of_dom, is_fresh).
  clearbody l e. exists l. eexists. split; [done|]. split; [|done].
  split; cbn; try done.
  - constructor; [|done]. apply lookup_insert_eq.
  - by constructor.
  - apply NoDup_singleton.
  - intros k Hk. apply lookup_insert_ne. set_solver.
  - by eexists.
Qed.

Lemma deliver_all_arrived src addr fs s :
  zlen (Dispatcher.inbound_queue_ (disp (world s))) + zlen fs <= Dispatcher.INBOUND_CAPACITY ->
  exists ls, arrived (world s) (arrivals src addr fs (world s)) ls (world (deliver_all src addr fs s)) /\
    totalBackpressureDrops_ (deliver_all src addr fs s) = totalBackpressureDrops_ s.
Proof.
  revert s; induction fs as [|f fs IH]; intros s Hroom; [exists []; split; [apply arrived_nil|done]|].
  rewrite zlen_cons in Hroom. pose proof (zlen_nonneg fs).
  destruct (offer_accepted src addr f (world s)) as (l & w1 & Ho & Ha & Hn & Hc); [lia|].
  unfold deliver_all. cbn [fold_left]. fold (deliver_all src addr fs (deliver src addr f s)).
  assert (Hd : deliver src addr f s =
            mkIngest (add64 (totalEventsProcessed_ s) 1) (totalBackpressureDrops_ s) w1).
  { unfold deliver. cbn [accept_frame pipeline_sink]. by rewrite Ho. }
  destruct (IH (deliver src addr f s)) as (ls & Hls & Hdr).
  { rewrite Hd. cbn [world]. rewrite (ar_queue _ _ _ _ Ha), zlen_app. cbn [map]. rewrite zlen_cons, zlen_nil. lia. }
  rewrite Hd in *. cbn [world totalBackpressureDrops_] in *. exists (l :: ls). split; [|done].
  rewrite (arrivals_cons _ _ _ _ _ w1) by done. by eapply arrived_cons.
Qed.

(** What the events keep of the frames. *)
Definition shows (src : EventSourceType) (addr : string) (f : FrameParser.ParsedFrame) (e : Event) : Prop :=
  topic e = FrameParser.pf_topic f /\ body e = FrameParser.pf_payload f /\
  priority (header e) = FrameParser.pf_priority f /\ sourceType (header e) = src /\
  crc32 (header e) = EventFactory.calculateCRC32 (FrameParser.pf_payload f) /\
  metadata e = {["client_address"%string := addr]}.

Lemma arrivals_show src addr fs w : Forall2 (shows src addr) fs (arrivals src addr fs w).
Proof.
  unfold arrivals. generalize (global_event_id w). induction fs as [|f fs IH]; intros n; [constructor|].
  cbn [map EventFactory.create_run request_of EventFactory.createEvent EventFactory.r_now EventFactory.r_source
    EventFactory.r_priority EventFactory.r_payload EventFactory.r_topic EventFactory.r_metadata].
  specialize (IH (add64 n 1)). destruct (EventFactory.create_run _ _) as [es n']. cbn [fst] in *.
  by constructor.
Qed.

(** ** The three servers *)

Lemma tcp_arrived addr fs chunks s :
  Forall TcpServer.sendable fs -> concat chunks = TcpServer.stream fs ->
  zlen (Dispatcher.inbound_queue_ (disp (world s))) + zlen fs <= Dispatcher.INBOUND_CAPACITY ->
  exists s' ls,
    TcpServer.handleClient addr (map TcpServer.Received chunks) s = TcpServer.Open [] 0 s' /\
    arrived (world s) (arrivals TCP addr fs (world s)) ls (world s') /\
    totalBackpressureDrops_ s' = totalBackpressureDrops_ s.
Proof.
  intros Hfs Hc Hroom. destruct (deliver_all_arrived TCP addr fs s Hroom) as (ls & H1 & H2).
  exists (deliver_all TCP addr fs s), ls. split; [|done].
  unfold TcpServer.handleClient. rewrite TcpServer.handleClient_scan by done.
  cbn [app]. rewrite Hc, <- (app_nil_r (TcpServer.stream fs)). by rewrite TcpServer.scan_all_stream.
Qed.

(** C13: frames sent over TCP, however the network cuts the stream, arrive in the dispatcher's inbound
    queue in order, each as a new event with the frame's priority, topic and payload, a checksum of
    that payload and the client's address, as long as the queue has room; none is counted as
    dropped and earlier events are untouched. *)
Theorem tcp_to_inbound addr fs chunks s :
  Forall TcpServer.sendable fs -> concat chunks = TcpServer.stream fs ->
  zlen (Dispatcher.inbound_queue_ (disp (world s))) + zlen fs <= Dispatcher.INBOUND_CAPACITY ->
  exists s' ls es,
    TcpServer.handleClient addr (map TcpServer.Received chunks) s = TcpServer.Open [] 0 s' /\
    arrived (world s) es ls (world s') /\ Forall2 (shows TCP addr) fs es /\
    totalBackpressureDrops_ s' = totalBackpressureDrops_ s.
Proof.
  intros Hfs Hc Hroom. destruct (tcp_arrived addr fs chunks s Hfs Hc Hroom) as (s' & ls & H1 & H2 & H3).
  exists s', ls, (arrivals TCP addr fs (world s)). split; [done|]. split; [done|].
  split; [apply arrivals_show|done].
Qed.

(** C22: frames sent over UDP, one datagram each, arrive in the inbound queue in the order the
    datagrams are received, each as a new event; every datagram is counted, no parse error is, and
    nothing is read from an earlier datagram. *)
Theorem udp_to_inbound addr fs st :
  Forall (UdpServer.fits st) fs -> zlen (UdpServer.recvBuffer st) <= UdpServer.MAX_UDP_DATAGRAM ->
  in_word 64 (UdpServer.totalDatagramsReceived_ st) ->
  zlen (Dispatcher.inbound_queue_ (disp (world (UdpServer.ingest st)))) + zlen fs <= Dispatcher.INBOUND_CAPACITY ->
  exists st' ls es,
    UdpServer.receiveLoop (map (fun f => UdpServer.Datagram addr (UdpServer.datagram_of f)) fs) st = Ret st' /\
    arrived (world (UdpServer.ingest st)) es ls (world (UdpServer.ingest st')) /\
    Forall2 (shows UDP addr) fs es /\
    UdpServer.totalDatagramsReceived_ st' = wrap 64 (UdpServer.totalDatagramsReceived_ st + zlen fs) /\
    UdpServer.totalParseErrors_ st' = UdpServer.totalParseErrors_ st /\
    totalBackpressureDrops_ (UdpServer.ingest st') = totalBackpressureDrops_ (UdpServer.ingest st).
Proof.
  intros Hfs Hbuf Hw Hroom.
  destruct (deliver_all_arrived UDP addr fs (UdpServer.ingest st) Hroom) as (ls & H1 & H2).
  destruct (UdpServer.receiveLoop_encoded addr fs st Hfs Hbuf Hw) as (buf & Hr).
  eexists _, ls, (arrivals UDP addr fs (world (UdpServer.ingest st))). split; [exact Hr|].
  split; [done|]. split; [apply arrivals_show|done].
Qed.

(** C23: frames sent over a connection of the epoll server, however the stream is cut into reads,
    arrive in the inbound queue in order, each as a new event; the connection is kept, with an
    empty buffer, and no other connection is touched. *)
Theorem epoll_to_inbound fd addr fs chunks st :
  Forall TcpServer.sendable fs -> concat chunks = TcpServer.stream fs ->
  EpollServer.connections_ st !! fd = Some (EpollServer.mkConnectionState [] addr 0) ->
  zlen (Dispatcher.inbound_queue_ (disp (world (EpollServer.ingest st)))) + zlen fs <= Dispatcher.INBOUND_CAPACITY ->
  exists st' ls es,
    EpollServer.handleRead fd chunks EpollServer.WouldBlock st = Ret (true, st') /\
    EpollServer.connections_ st' = EpollServer.connections_ st /\
    arrived (world (EpollServer.ingest st)) es ls (world (EpollServer.ingest st')) /\
    Forall2 (shows TCP addr) fs es /\
    totalBackpressureDrops_ (EpollServer.ingest st') = totalBackpressureDrops_ (EpollServer.ingest st).
Proof.
  intros Hfs Hc Hfd Hroom.
  destruct (tcp_arrived addr fs chunks (EpollServer.ingest st) Hfs Hc Hroom) as (s' & ls & H1 & H2 & H3).
  apply EpollServer.read_loop_tcp in H1.
  eexists _, ls, (arrivals TCP addr fs (world (EpollServer.ingest st))). unfold EpollServer.handleRead.
  rewrite Hfd, H1. cbn [mbind outcome_bind]. split; [done|]. cbn. split; [by apply insert_id|].
  split; [done|]. split; [apply arrivals_show|done].
Qed.

Definition start : Ingest PWorld :=
  mkIngest 0 0 (mkPWorld (Dispatcher.mkDispatcher (EventBus.initial ∅ BusRun.registry0) [] None) 0 0).

Lemma tcp_to_inbound_witness :
  exists s' ls (es : list Event),
    TcpServer.handleClient "10.0.0.1"
      (map TcpServer.Received [take 5 (TcpServer.stream [TcpRun.frame]); drop 5 (TcpServer.stream [TcpRun.frame])])
      start = TcpServer.Open [] 0 s' /\
    Dispatcher.inbound_queue_ (disp (world s')) = [] ++ map Some ls /\ length es = 1%nat.
Proof.
  destruct (tcp_to_inbound "10.0.0.1" [TcpRun.frame]
              [take 5 (TcpServer.stream [TcpRun.frame]); drop 5 (TcpServer.stream [TcpRun.frame])] start)
    as (s' & ls & es & H1 & H2 & H3 & _).
  - repeat constructor; vm_compute; repeat split; discriminate.
  - reflexivity.
  - vm_compute. discriminate.
  - exists s', ls, es. apply Forall2_length in H3.
    exact (conj H1 (conj (ar_queue _ _ _ _ H2) (eq_sym H3))).
Defined.

Definition udp_start : UdpServer.Server := UdpServer.new_server 64 start.

Lemma udp_to_inbound_witness :
  exists st' ls (es : list Event),
    UdpServer.receiveLoop [UdpServer.Datagram "10.0.0.2" (UdpServer.datagram_of TcpRun.frame)] udp_start = Ret st' /\
    Dispatcher.inbound_queue_ (disp (world (UdpServer.ingest st'))) = [] ++ map Some ls /\ length es = 1%nat.
Proof.
  destruct (udp_to_inbound "10.0.0.2" [TcpRun.frame] udp_start) as (st' & ls & es & H1 & H2 & H3 & _).
  - repeat constructor; vm_compute; repeat split; discriminate.
  - vm_compute. discriminate.
  - vm_compute. split; [discriminate|reflexivity].
  - vm_compute. discriminate.
  - exists st', ls, es. apply Forall2_length in H3.
    exact (conj H1 (conj (ar_queue _ _ _ _ H2) (eq_sym H3))).
Defined.

Definition epoll_start : EpollServer.Server (W := PWorld) :=
  EpollServer.acceptConnections_step [100] 5 "10.0.0.1:40000" true true (EpollServer.mkServer ∅ 0 0 0 start []).

Lemma epoll_to_inbound_witness :
  exists st' ls (es : list Event),
    EpollServer.handleRead 5 [TcpServer.stream [TcpRun.frame]] EpollServer.WouldBlock epoll_start = Ret (true, st') /\
    Dispatcher.inbound_queue_ (disp (world (EpollServer.ingest st'))) = [] ++ map Some ls /\ length es = 1%nat.
Proof.
  destruct (epoll_to_inbound 5 "10.0.0.1:40000" [TcpRun.frame] [TcpServer.stream [TcpRun.frame]] epoll_start)
    as (st' & ls & es & H1 & _ & H2 & H3 & _).
  - repeat constructor; vm_compute; repeat split; discriminate.
  - reflexivity.
  - reflexivity.
  - vm_compute. discriminate.
  - exists st', ls, es. apply Forall2_length in H3.
    exact (conj H1 (conj (ar_queue _ _ _ _ H2) (eq_sym H3))).
Defined.

End Pipeline.
