(* ===== verification/Storage.v ===== *)
(** * The storage engine: [src/core/storage/storage.cpp]

    Module [StorageEngine]: the binary event log with its batched flush, and the text
    log of dropped events.  An [ofstream] is the bytes that reached the file, the
    bytes still in its buffer, how much the system still takes, and its error state, which is
    sticky: whether a write is accepted is an argument, whether a flush is depends on the room there
    is.  The stream may pass bytes of a full buffer on before a flush; only a flush or the
    destructor makes sure of it, and the bytes count as buffered until then.  The text log is
    opened with room for all.  Integers are laid out little-endian, as on the hosts the build
    targets. *)

From S2P Require Import Prelude Event.
From Stdlib Require Import Ascii.
From stdpp Require Import pretty.
#[local] Open Scope Z_scope.

Module StorageEngine.

(** ** Files *)

(** [room]: how many bytes the system still takes; without a number, all. *)
Record ofstream := mkFile { is_open : bool; good : bool; room : option nat; on_disk : list byte; buffered : list byte }.

Definition closed_file : ofstream := mkFile false true None [] [].

(** [write]/[<<]: nothing happens on a stream in error. *)
Definition write (accepted : bool) (bs : list byte) (f : ofstream) : ofstream :=
  if good f then
    if accepted then mkFile (is_open f) true (room f) (on_disk f) (buffered f ++ bs)
    else mkFile (is_open f) false (room f) (on_disk f) (buffered f)
  else f.

(** A flush the system does not take to the end leaves the stream in error. *)
Definition flush_file (f : ofstream) : ofstream :=
  if good f then
    match room f with
    | None => mkFile (is_open f) true None (on_disk f ++ buffered f) []
    | Some n => mkFile (is_open f) (length (buffered f) <=? n)%nat (Some (n - length (buffered f))%nat)
                  (on_disk f ++ take n (buffered f)) (drop n (buffered f))
    end
  else f.

Record Storage := mkStorage {
  dlq_path_ : string;
  storageFile : ofstream;
  dlqFile : ofstream;
  eventCount : Z;
  dlq_count_ : Z;
  last_dlq_reason_ : string;
  last_dlq_timestamp_ms_ : Z
}.

Definition FLUSH_BATCH_SIZE : Z := 100.

(** ** Construction *)

Definition is_separator (c : Ascii.ascii) : bool :=
  bool_decide (c = "/"%char) || bool_decide (c = "\"%char).

(** [find_last_of("/\\")], the index from the start. *)
Fixpoint find_last_separator (s : list Ascii.ascii) : option nat :=
  match s with
  | [] => None
  | c :: s' => match find_last_separator s' with
               | Some i => Some (S i)
               | None => if is_separator c then Some O else None
               end
  end.

Definition dlq_path_for (storagePath dlqPath : string) : string :=
  if bool_decide (dlqPath = ""%string) then
    match find_last_separator (String.list_ascii_of_string storagePath) with
    | Some lastSlash =>
        (String.substring 0 (lastSlash + 1) storagePath +:+ "dlq_log.txt")%string
    | None => "dlq_log.txt"%string
    end
  else dlqPath.

(** The constructor: the file's present contents, or that it cannot be opened. *)
Definition open_storage (storagePath dlqPath : string) (existing : option (list byte)) : outcome Storage :=
  match existing with
  | None => Throw "Failed to open storage file"
  | Some old => Ret (mkStorage (dlq_path_for storagePath dlqPath) (mkFile true true None old [])
                       closed_file 0 0 "" 0)
  end.

(** ** The event log *)

Definition serialize (e : Event) : list byte :=
  let topicLen := wrap 32 (Z.of_nat (String.length (topic e))) in
  le_bytes 8 (wrap 64 (timestamp (header e))) ++
  [z2b (source_code (sourceType (header e)))] ++
  le_bytes 4 (id (header e)) ++
  le_bytes 4 topicLen ++
  (if 0 <? topicLen then String.list_byte_of_string (topic e) else []) ++
  le_bytes 8 (zlen (body e)) ++
  body e.

Definition with_log (f : ofstream) (n : Z) (s : Storage) : Storage :=
  mkStorage (dlq_path_ s) f (dlqFile s) n (dlq_count_ s) (last_dlq_reason_ s) (last_dlq_timestamp_ms_ s).

(** The state is returned beside the outcome: it is kept when the call throws. *)
Definition storeEvent (accepted : bool) (e : Event) (s : Storage) : outcome unit * Storage :=
  let f := write accepted (serialize e) (storageFile s) in
  if negb (good f) then (Throw "Failed to write event to storage", with_log f (eventCount s) s)
  else
    let n := add64 (eventCount s) 1 in
    if FLUSH_BATCH_SIZE <=? n then (Ret tt, with_log (flush_file f) 0 s)
    else (Ret tt, with_log f n s).

Definition flush (s : Storage) : Storage :=
  if is_open (storageFile s) then with_log (flush_file (storageFile s)) (eventCount s) s else s.

(** [flush] and [close] of the destructor.  [rest]: what [close] still gets out of the buffer of a
    stream in error. *)
Definition close_file (rest : list byte) (f : ofstream) : ofstream :=
  if is_open f then
    let f := flush_file f in mkFile false (good f) (room f) (on_disk f ++ if good f then [] else rest) []
  else f.

(** [~StorageEngine]. *)
Definition destroy (rest rest_dlq : list byte) (s : Storage) : Storage :=
  mkStorage (dlq_path_ s) (close_file rest (storageFile s)) (close_file rest_dlq (dlqFile s)) (eventCount s)
    (dlq_count_ s) (last_dlq_reason_ s) (last_dlq_timestamp_ms_ s).

(** The disk fills up: the event log has room for [n] more bytes. *)
Definition disk_fills (n : nat) (s : Storage) : Storage :=
  let f := storageFile s in
  with_log (mkFile (is_open f) (good f) (Some n) (on_disk f) (buffered f)) (eventCount s) s.

(** [retrieveEvent] always answers false. *)
Definition retrieveEvent (eventId : Z) (s : Storage) : bool := false.

(** ** The dead-letter log *)

Definition NUL : byte := Byte.x00.

(** [c_str()] read by [%s]: up to the first NUL. *)
Fixpoint c_string (bs : list byte) : list byte :=
  match bs with
  | [] => []
  | b :: bs' => if bool_decide (b = NUL) then [] else b :: c_string bs'
  end.

Definition bytes_of (s : string) : list byte := String.list_byte_of_string s.

(** What the format expands to, before truncation. *)
Definition dlq_text (timestamp_s : Z) (e : Event) (reason : string) : list byte :=
  bytes_of "[" ++ bytes_of (pretty timestamp_s) ++ bytes_of "] DROPPED: id=" ++
  bytes_of (pretty (id (header e))) ++ bytes_of " topic=" ++ c_string (bytes_of (topic e)) ++
  bytes_of " priority=" ++ bytes_of (pretty (priority_code (priority (header e)))) ++
  bytes_of " reason=" ++ c_string (bytes_of reason) ++ [Byte.x0a].

(** [snprintf] into 512 bytes keeps 511 of them. *)
Definition dlq_line (timestamp_s : Z) (e : Event) (reason : string) : list byte :=
  take 511 (dlq_text timestamp_s e reason).

Fixpoint write_lines (h : Heap) (timestamp_s : Z) (reason : string) (events : list EventPtr)
    (f : ofstream) : outcome ofstream :=
  match events with
  | [] => Ret f
  | None :: events' => write_lines h timestamp_s reason events' f
  | evt :: events' =>
      e ← deref h evt;
      write_lines h timestamp_s reason events' (write true (dlq_line timestamp_s e reason) f)
  end.

(** [existing]: the log's contents when it can be opened. *)
Definition appendDLQ (h : Heap) (events : list EventPtr) (reason : string) (timestamp_s timestamp_ms : Z)
    (existing : option (list byte)) (s : Storage) : outcome Storage :=
  match events with
  | [] => Ret s
  | _ =>
      let opened := if is_open (dlqFile s) then Some (dlqFile s)
                    else (fun old => mkFile true true None old []) <$> existing in
      match opened with
      | None => Ret s
      | Some f =>
          f ← write_lines h timestamp_s reason events f;
          Ret (mkStorage (dlq_path_ s) (storageFile s) (flush_file f) (eventCount s)
                 (add64 (dlq_count_ s) (zlen events)) reason timestamp_ms)
      end
  end.

Definition getDLQStats (s : Storage) : Z * string * Z :=
  (dlq_count_ s, last_dlq_reason_ s, last_dlq_timestamp_ms_ s).

(** ** Reading the log back *)

(** What a record keeps of an event. *)
Record stored := mkStored {
  st_timestamp : Z; st_source : Z; st_id : Z; st_topic : string; st_body : list byte
}.

Definition stored_of (e : Event) : stored :=
  mkStored (timestamp (header e)) (source_code (sourceType (header e))) (id (header e)) (topic e) (body e).

(** Split off [n] bytes. *)
Definition chunk (n : Z) (bs : list byte) : option (list byte * list byte) :=
  if zlen bs <? n then None else Some (take (Z.to_nat n) bs, drop (Z.to_nat n) bs).

Definition read_record (bs : list byte) : option (stored * list byte) :=
  '(ts, bs) ← chunk 8 bs;
  '(src, bs) ← chunk 1 bs;
  '(i, bs) ← chunk 4 bs;
  '(tl, bs) ← chunk 4 bs;
  '(t, bs) ← chunk (le_val tl) bs;
  '(pl, bs) ← chunk 8 bs;
  '(p, bs) ← chunk (le_val pl) bs;
  Some (mkStored (le_val ts) (le_val src) (le_val i) (String.string_of_list_byte t) p, bs).

Fixpoint read_log (fuel : nat) (bs : list byte) : option (list stored) :=
  match bs, fuel with
  | [], _ => Some []
  | _, O => None
  | _, S fuel' => '(r, bs') ← read_record bs; rs ← read_log fuel' bs'; Some (r :: rs)
  end.

(** The fields fit their types. *)
Definition storable (e : Event) : Prop :=
  in_word 64 (timestamp (header e)) /\ in_word 32 (id (header e)) /\
  in_word 32 (Z.of_nat (String.length (topic e))) /\ in_word 64 (zlen (body e)).

Definition log_bytes (es : list Event) : list byte := concat (map serialize es).

Lemma chunk_app (l r : list byte) : chunk (zlen l) (l ++ r) = Some (l, r).
Proof.
  unfold chunk. rewrite (proj2 (Z.ltb_ge _ _)) by (autorewrite with zlen; pose proof (zlen_nonneg r); lia).
  unfold zlen. by rewrite Nat2Z.id, take_app_length, drop_app_length.
Qed.

Lemma chunk_le n z r : chunk (Z.of_nat n) (le_bytes n z ++ r) = Some (le_bytes n z, r).
Proof. rewrite <- (length_le_bytes n z) at 1. apply chunk_app. Qed.

Lemma zlen_topic t : zlen (String.list_byte_of_string t) = Z.of_nat (String.length t).
Proof.
  unfold zlen. f_equal. induction t as [|c t IH]; [done|]. cbn. by rewrite <- IH.
Qed.

Lemma read_record_serialize e rest :
  storable e -> read_record (serialize e ++ rest) = Some (stored_of e, rest).
Proof.
  intros (Hts & Hid & Ht & Hb). unfold in_word in *. unfold serialize, read_record.
  rewrite !wrap_small by done. set (n := Z.of_nat (String.length (topic e))) in *.
  assert (Htop : (if 0 <? n then String.list_byte_of_string (topic e) else []) =
                 String.list_byte_of_string (topic e)).
  { destruct (Z.ltb_spec 0 n); [done|]. symmetry. apply zlen_0. rewrite zlen_topic. unfold n in *. lia. }
  rewrite Htop, <- !app_assoc. rewrite (chunk_le 8). cbn [mbind option_bind].
  change 1 with (zlen [z2b (source_code (sourceType (header e)))]) at 1. rewrite chunk_app.
  cbn [mbind option_bind]. rewrite (chunk_le 4). cbn [mbind option_bind].
  rewrite (chunk_le 4). cbn [mbind option_bind].
  rewrite (le_val_bytes 4 n) by done. unfold n. rewrite <- zlen_topic, chunk_app.
  cbn [mbind option_bind]. rewrite (chunk_le 8). cbn [mbind option_bind].
  rewrite (le_val_bytes 8 (zlen (body e))), chunk_app by done. cbn [mbind option_bind].
  unfold stored_of. rewrite (le_val_bytes 8), (le_val_bytes 4) by done.
  rewrite String.string_of_list_byte_of_string. do 3 f_equal.
  cbn [le_val]. rewrite b2z_z2b. destruct (sourceType (header e)); reflexivity.
Qed.

Lemma serialize_nonempty e : (8 <= length (serialize e))%nat.
Proof. unfold serialize. rewrite length_app, length_le_bytes. lia. Qed.

Lemma read_log_bytes es fuel :
  Forall storable es -> (length es <= fuel)%nat -> read_log fuel (log_bytes es) = Some (map stored_of es).
Proof.
  intros Hes. revert fuel. induction Hes as [|e es He Hes IH]; intros fuel Hf; [by destruct fuel|].
  simpl in Hf. destruct fuel as [|fuel]; [lia|]. unfold log_bytes. cbn [map concat].
  assert (Hne : serialize e ++ concat (map serialize es) <> []).
  { intros Hn. apply (f_equal length) in Hn. rewrite length_app in Hn.
    pose proof (serialize_nonempty e). simpl in Hn. lia. }
  pose proof (read_record_serialize e (concat (map serialize es)) He) as Hr.
  destruct (serialize e ++ concat (map serialize es)) as [|b bs]; [done|]. cbn [read_log].
  rewrite Hr. cbn [mbind option_bind]. fold (log_bytes es). rewrite IH by lia. done.
Qed.

Definition store_all (es : list Event) (s : Storage) : Storage :=
  fold_left (fun s e => (storeEvent true e s).2) es s.

(** What the log promises between calls: every stored event is on disk or buffered, and
    fewer than [FLUSH_BATCH_SIZE] are only buffered. *)
Definition log_ok (old : list byte) (es : list Event) (s : Storage) : Prop :=
  exists durable pending, es = durable ++ pending /\
    good (storageFile s) = true /\ room (storageFile s) = None /\ is_open (storageFile s) = true /\
    on_disk (storageFile s) = old ++ log_bytes durable /\
    buffered (storageFile s) = log_bytes pending /\
    zlen pending <= eventCount s < FLUSH_BATCH_SIZE.

Lemma log_bytes_app es fs : log_bytes (es ++ fs) = log_bytes es ++ log_bytes fs.
Proof. unfold log_bytes. by rewrite map_app, concat_app. Qed.

Lemma storeEvent_ok old es e s :
  log_ok old es s ->
  (storeEvent true e s).1 = Ret tt /\ log_ok old (es ++ [e]) (storeEvent true e s).2.
Proof.
  intros (du & pe & -> & Hg & Hm & Ho & Hd & Hb & Hc). unfold storeEvent, write. rewrite Hg. cbn [good negb].
  pose proof (zlen_nonneg pe). unfold FLUSH_BATCH_SIZE in *.
  assert (Hone : log_bytes [e] = serialize e) by (unfold log_bytes; cbn [map concat]; apply app_nil_r).
  rewrite add64_small by (unfold UINT64_MAX; lia).
  destruct (Z.leb_spec 100 (eventCount s + 1)).
  - split; [done|]. exists (du ++ pe ++ [e]), [].
    cbn [snd storageFile with_log flush_file good is_open room on_disk buffered eventCount]. rewrite Hm.
    cbn [good is_open room on_disk buffered]. rewrite Ho, Hd, Hb.
    rewrite !log_bytes_app, Hone, app_nil_r, <- !app_assoc. by split_and!.
  - split; [done|]. exists du, (pe ++ [e]).
    cbn [snd storageFile with_log good is_open room on_disk buffered eventCount]. rewrite Hm, Ho, Hd, Hb, log_bytes_app, Hone, <- app_assoc.
    split_and!; try done; autorewrite with zlen; unfold FLUSH_BATCH_SIZE; lia.
Qed.

Lemma flush_durable old es s : log_ok old es s -> on_disk (storageFile (flush s)) = old ++ log_bytes es.
Proof.
  intros (du & pe & -> & Hg & Hm & Ho & Hd & Hb & Hc). unfold flush. rewrite Ho. unfold flush_file. rewrite Hg, Hm.
  cbn [storageFile with_log on_disk]. by rewrite Hd, Hb, log_bytes_app, <- app_assoc.
Qed.

Lemma destroy_durable old es s rest rest_dlq :
  log_ok old es s -> storageFile (destroy rest rest_dlq s) = mkFile false true None (old ++ log_bytes es) [].
Proof.
  intros (du & pe & -> & Hg & Hm & Ho & Hd & Hb & Hc). unfold destroy, close_file. cbn [storageFile]. rewrite Ho. unfold flush_file. rewrite Hg, Hm.
  cbn [good room on_disk]. by rewrite Hd, Hb, log_bytes_app, app_nil_r, <- app_assoc.
Qed.

Lemma flush_ok old es s : log_ok old es s -> log_ok old es (flush s).
Proof.
  intros (du & pe & -> & Hg & Hm & Ho & Hd & Hb & Hc). unfold flush. rewrite Ho. exists (du ++ pe), [].
  unfold flush_file. rewrite Hg, Hm. cbn [storageFile with_log good is_open room on_disk buffered eventCount].
  rewrite Hd, Hb, log_bytes_app, app_nil_r, <- app_assoc. autorewrite with zlen.
  pose proof (zlen_nonneg pe). split_and!; try done; lia.
Qed.

(** A flushed log is a complete file to append to. *)
Lemma flush_rebase old es s : log_ok old es s -> log_ok (old ++ log_bytes es) [] (flush s).
Proof.
  intros Hl. pose proof (flush_durable _ _ _ Hl) as Hdisk.
  destruct (flush_ok _ _ _ Hl) as (du & pe & _ & Hg & Hm & Ho & _ & _ & Hc).
  exists [], []. rewrite Hdisk. cbn [app]. pose proof (zlen_nonneg pe). rewrite zlen_nil.
  assert (Hb : buffered (storageFile (flush s)) = []).
  { destruct Hl as (? & ? & _ & Hg' & Hm' & Ho' & _). unfold flush. rewrite Ho'. unfold flush_file. by rewrite Hg', Hm'. }
  rewrite Hb. split_and!; try done; [by rewrite app_nil_r|lia..].
Qed.

Lemma log_ok_disk old s : log_ok old [] s -> on_disk (storageFile s) = old.
Proof.
  intros (du & pe & Hn & _ & _ & _ & Hd & _). symmetry in Hn. apply app_eq_nil in Hn as [-> ->].
  by rewrite Hd, app_nil_r.
Qed.

Lemma store_all_ok old es es' s : log_ok old es s -> log_ok old (es ++ es') (store_all es' s).
Proof.
  revert es s; induction es' as [|e es' IH]; intros es s Hs; [by rewrite app_nil_r|].
  cbn [store_all fold_left]. replace (es ++ e :: es') with ((es ++ [e]) ++ es') by (by rewrite <- app_assoc).
  apply IH. by apply storeEvent_ok.
Qed.

(** C26: storing events and flushing appends to the file exactly a log from which every event's
    timestamp, source, id, topic and payload is read back in order; before the flush all but fewer than a
    hundred of the latest events are sure to be in the file; and the destructor, without any flush, leaves
    the same file. *)
Theorem storage_log_roundtrip path dlq old es s :
  Forall storable es -> open_storage path dlq (Some old) = Ret s ->
  let s' := store_all es s in
  (exists k, (length es - k < 100)%nat /\ on_disk (storageFile s') = old ++ log_bytes (take k es)) /\
  on_disk (storageFile (flush s')) = old ++ log_bytes es /\
  (forall rest rest_dlq, storageFile (destroy rest rest_dlq s') = mkFile false true None (old ++ log_bytes es) []) /\
  read_log (length es) (log_bytes es) = Some (map stored_of es).
Proof.
  intros Hes [= <-] s'.
  assert (H0 : log_ok old [] (mkStorage (dlq_path_for path dlq) (mkFile true true None old []) closed_file 0 0 "" 0)).
  { exists [], []. cbn. rewrite app_nil_r. by split_and!. }
  destruct (store_all_ok old [] es _ H0) as (du & pe & He & Hg & Hm & Ho & Hd & Hb & Hl).
  fold s' in Hg, Ho, Hd, Hb. simpl in He. subst es. split; [|split; [|split]].
  - exists (length du). rewrite take_app_length, length_app. split; [|done].
    unfold zlen, FLUSH_BATCH_SIZE in Hl. lia.
  - apply flush_durable. by exists du, pe.
  - intros rest rest_dlq. apply destroy_durable. by exists du, pe.
  - by apply read_log_bytes.
Qed.

(** A failed write makes [storeEvent] throw, and every later call throws as well without writing:
    the stream's error state is never cleared. *)
Theorem storage_failure_is_permanent e later a e' s :
  let s1 := (storeEvent false e s).2 in
  let s2 := fold_left (fun s ae => (storeEvent ae.1 ae.2 s).2) later s1 in
  (storeEvent false e s).1 = Throw "Failed to write event to storage" /\
  (storeEvent a e' s2).1 = Throw "Failed to write event to storage" /\
  storageFile (storeEvent a e' s2).2 = storageFile s1.
Proof.
  assert (Hbad : forall a e s, good (storageFile s) = false ->
            (storeEvent a e s).1 = Throw "Failed to write event to storage" /\
            storageFile (storeEvent a e s).2 = storageFile s).
  { intros a0 e0 s0 Hg. unfold storeEvent, write. rewrite Hg. cbn [good negb]. rewrite Hg. done. }
  assert (Hfirst : (storeEvent false e s).1 = Throw "Failed to write event to storage" /\
            good (storageFile (storeEvent false e s).2) = false).
  { unfold storeEvent, write. destruct (good (storageFile s)) eqn:Hg; cbn [good negb]; [done|].
    by rewrite Hg. }
  destruct Hfirst as [H1 H2]. intros s1 s2. split; [done|]. fold s1 in H2.
  assert (Hs2 : storageFile s2 = storageFile s1).
  { unfold s2. generalize dependent s1. clear -Hbad.
    induction later as [|ae later IH]; intros s1 H2; [done|].
    simpl. destruct (Hbad ae.1 ae.2 s1 H2) as [_ Hf]. rewrite IH; [done|by rewrite Hf]. }
  rewrite <- Hs2 in H2. destruct (Hbad a e' s2 H2) as [H3 ->]. done.
Qed.

(** Storing without anyone looking at what a flush comes to. *)
Lemma stores_buffer es s :
  good (storageFile s) = true -> 0 <= eventCount s -> eventCount s + zlen es < FLUSH_BATCH_SIZE ->
  store_all es s = with_log (mkFile (is_open (storageFile s)) true (room (storageFile s)) (on_disk (storageFile s))
                               (buffered (storageFile s) ++ log_bytes es)) (eventCount s + zlen es) s /\
  forall k e, es !! k = Some e -> (storeEvent true e (store_all (take k es) s)).1 = Ret tt.
Proof.
  revert s; induction es as [|e es IH]; intros s Hg H0 Hc.
  { split; [|done]. cbn. rewrite app_nil_r, Z.add_0_r, <- Hg. by destruct s as [p [] d c n rs ts]. }
  autorewrite with zlen in Hc. pose proof (zlen_nonneg es).
  assert (Hs : storeEvent true e s = (Ret tt, with_log (mkFile (is_open (storageFile s)) true (room (storageFile s))
            (on_disk (storageFile s)) (buffered (storageFile s) ++ serialize e)) (eventCount s + 1) s)).
  { unfold storeEvent, write. rewrite Hg. cbn [good negb]. unfold FLUSH_BATCH_SIZE in *.
    rewrite add64_small by (unfold UINT64_MAX; lia). by rewrite (proj2 (Z.leb_gt 100 (eventCount s + 1))) by lia. }
  destruct (IH (storeEvent true e s).2) as [IH1 IH2].
  1-3: rewrite Hs; cbn [snd with_log storageFile good eventCount]; (done || lia).
  split.
  - cbn [store_all fold_left]. fold (store_all es (storeEvent true e s).2). rewrite IH1, Hs.
    cbn [snd with_log storageFile good eventCount is_open room on_disk buffered]. unfold log_bytes. cbn [map concat].
    autorewrite with zlen. by rewrite <- app_assoc, <- Z.add_assoc.
  - intros [|k] x Hk; [injection Hk as <-; cbn [take store_all fold_left]; by rewrite Hs|]. by apply IH2.
Qed.

(** On a full disk a hundred calls of [storeEvent] return as if the events were stored: the hundredth flushes, does
    not look at the outcome, and what the disk did not take is lost.  Only the next call throws. *)
Lemma full_disk_unnoticed n es e e' s :
  good (storageFile s) = true -> eventCount s = 0 -> buffered (storageFile s) = [] -> zlen es = FLUSH_BATCH_SIZE - 1 ->
  let s' := store_all (es ++ [e]) (disk_fills n s) in
  (forall k x, (es ++ [e]) !! k = Some x -> (storeEvent true x (store_all (take k (es ++ [e])) (disk_fills n s))).1 = Ret tt) /\
  on_disk (storageFile s') = on_disk (storageFile s) ++ take n (log_bytes (es ++ [e])) /\
  ((n < length (log_bytes (es ++ [e])))%nat ->
     (storeEvent true e' s').1 = Throw "Failed to write event to storage" /\ flush s' = s').
Proof.
  intros Hg Hc Hb Hn s'. unfold FLUSH_BATCH_SIZE in Hn.
  destruct (stores_buffer es (disk_fills n s)) as [Hall Hret]; [done|cbn; lia|cbn; unfold FLUSH_BATCH_SIZE; lia|].
  cbn [disk_fills with_log storageFile is_open room on_disk buffered eventCount] in Hall. rewrite Hb, Hc in Hall. cbn [app] in Hall.
  set (s1 := store_all es (disk_fills n s)) in *.
  assert (Hs' : s' = (storeEvent true e s1).2) by (unfold s', s1, store_all; by rewrite fold_left_app).
  assert (Hlast : storeEvent true e s1 =
    (Ret tt, with_log (flush_file (mkFile (is_open (storageFile s)) true (Some n) (on_disk (storageFile s))
                                    (log_bytes (es ++ [e])))) 0 s)).
  { rewrite Hall, log_bytes_app. unfold storeEvent, write. cbn [with_log storageFile good is_open room on_disk buffered eventCount negb].
    unfold FLUSH_BATCH_SIZE. rewrite add64_small by (unfold UINT64_MAX; lia).
    rewrite (proj2 (Z.leb_le 100 (0 + zlen es + 1))) by lia.
    replace (log_bytes [e]) with (serialize e) by (unfold log_bytes; cbn [map concat]; by rewrite app_nil_r). reflexivity. }
  rewrite Hlast in Hs'. split_and!.
  - intros k x Hk. apply lookup_app_Some in Hk as [Hk|[Hlen Hk]].
    + rewrite take_app_le by (apply lookup_lt_Some in Hk; lia). by apply Hret.
    + apply list_lookup_singleton_Some in Hk as [Hk ->]. replace k with (length es) by lia. rewrite take_app_length.
      fold s1. by rewrite Hlast.
  - by rewrite Hs'.
  - intros Hlt. rewrite Hs'. unfold flush_file, storeEvent, write, flush, flush_file. cbn [good room with_log storageFile buffered is_open].
    rewrite (proj2 (Nat.leb_gt (length (log_bytes (es ++ [e]))) n)) by done. cbn. split; [done|]. by destruct (is_open _).
Qed.

(** A line of the dead-letter log holds at most 511 bytes; a longer one loses its newline. *)
Lemma dlq_line_length ts e reason : (length (dlq_line ts e reason) <= 511)%nat.
Proof. unfold dlq_line. rewrite length_take. lia. Qed.

(** The count of the dead-letter log counts null entries, which it does not write. *)
Example appendDLQ_counts_nulls s :
  is_open (dlqFile s) = true -> good (dlqFile s) = true -> room (dlqFile s) = None ->
  exists s', appendDLQ ∅ [None; None] "x" 0 0 None s = Ret s' /\
    dlq_count_ s' = add64 (dlq_count_ s) 2 /\ on_disk (dlqFile s') = on_disk (dlqFile s) ++ buffered (dlqFile s).
Proof.
  intros Ho Hg Hm. unfold appendDLQ. rewrite Ho. cbn [write_lines mbind outcome_bind].
  eexists. split; [done|]. split; [done|]. cbn. unfold flush_file. by rewrite Hg, Hm.
Qed.

Lemma storage_log_roundtrip_witness :
  on_disk (storageFile (flush (store_all [new_event (mkEventHeader TCP HIGH 7 1 2 1 0) "a" [Byte.x01; Byte.x02] ∅]
     (mkStorage "dlq_log.txt" (mkFile true true None [] []) closed_file 0 0 "" 0)))) =
  [] ++ log_bytes [new_event (mkEventHeader TCP HIGH 7 1 2 1 0) "a" [Byte.x01; Byte.x02] ∅].
Proof.
  apply (storage_log_roundtrip "events.bin" "" []
           [new_event (mkEventHeader TCP HIGH 7 1 2 1 0) "a" [Byte.x01; Byte.x02] ∅]).
  - repeat constructor; vm_compute; (discriminate || reflexivity).
  - reflexivity.
Defined.

(** The dead-letter path is put beside the event log under a fixed name. *)
Example dlq_path_derived : dlq_path_for "unittest/derived_storage.bin" "" = "unittest/dlq_log.txt"%string.
Proof. reflexivity. Qed.

End StorageEngine.
