(* ===== verification/Handlers.v ===== *)
(** * Event handlers and alerts: [include/eventstream/core/processor/{handler,alert}.hpp]

    Module [Handlers]: the handler interface as a record of its three virtual
    functions, the built-in handlers, the registry with its longest-prefix lookup,
    and the alert handlers.  A read of [body\[0\]] or a [memcpy] past the end of the
    body is undefined behaviour.  The order in which the hash map of the registry is
    walked is an argument. *)

From S2P Require Import Prelude Event.
From stdpp Require Import pretty.
#[local] Open Scope Z_scope.
#[local] Set Warnings "-register-all".

Module Handlers.

(** ** Data *)

Inductive AlertLevel := INFO | WARNING | A_CRITICAL | EMERGENCY.

Record Alert := mkAlert {
  al_level : AlertLevel; al_message : string; al_source : string;
  al_event_id : Z; al_timestamp_ns : Z; al_context : list byte
}.

Record ValidationResult := mkValidation { valid : bool; error : string }.
Definition v_ok : ValidationResult := mkValidation true "".
Definition v_fail (msg : string) : ValidationResult := mkValidation false msg.

Inductive HandleOutcome := SUCCESS | FAIL | ALERT | DROP.

#[global] Instance HandleOutcome_eq_dec : EqDecision HandleOutcome.
Proof. solve_decision. Defined.

Record HandleResult := mkResult {
  r_outcome : HandleOutcome; r_alert_level : AlertLevel; r_message : string
}.
Definition r_success (msg : string) : HandleResult := mkResult SUCCESS INFO msg.
Definition r_fail (msg : string) : HandleResult := mkResult FAIL INFO msg.
Definition r_alert (lvl : AlertLevel) (msg : string) : HandleResult := mkResult ALERT lvl msg.
Definition r_drop (msg : string) : HandleResult := mkResult DROP INFO msg.

(** The virtual functions of [EventHandler]; an implementation may throw. *)
Record EventHandler := mkHandler {
  validate : Event -> outcome ValidationResult;
  checkRules : Event -> outcome ValidationResult;
  handle : Event -> outcome HandleResult;
  h_name : string
}.

(** The defaults of the base class. *)
Definition default_validate (e : Event) : outcome ValidationResult :=
  Ret (if bool_decide (topic e = ""%string) then v_fail "empty topic" else v_ok).
Definition default_checkRules (e : Event) : outcome ValidationResult := Ret v_ok.

Definition body_nonempty (msg : string) (e : Event) : outcome ValidationResult :=
  Ret (if bool_decide (body e = []) then v_fail msg else v_ok).

(** [event.body\[0\]]. *)
Definition body0 (e : Event) : outcome Z :=
  bs ← rd_range (body e) 0 1; Ret (be_val bs).

(** [std::memcpy(&amount, event.body.data(), 4)]. *)
Definition body_u32 (e : Event) : outcome Z :=
  bs ← rd_range (body e) 0 4; Ret (le_val bs).

(** ** The built-in handlers *)

Definition DefaultEventHandler : EventHandler :=
  mkHandler default_validate default_checkRules (fun _ => Ret (r_success "")) "DefaultEventHandler".

Definition SensorTemperatureHandler : EventHandler :=
  mkHandler (body_nonempty "empty body for temperature sensor")
    (fun e => b ← body0 e;
              Ret (if 150 <? b then v_fail "temperature out of physical range" else v_ok))
    (fun e => temp ← body0 e;
              Ret (if 100 <? temp
                   then r_alert A_CRITICAL ("Temperature critical: " +:+ pretty temp +:+ "C")
                   else if 80 <? temp
                   then r_alert WARNING ("Temperature warning: " +:+ pretty temp +:+ "C")
                   else r_success ""))
    "SensorTemperatureHandler".

Definition SensorPressureHandler : EventHandler :=
  mkHandler (body_nonempty "empty body for pressure sensor") default_checkRules
    (fun e => pressure ← body0 e;
              Ret (if 200 <? pressure
                   then r_alert EMERGENCY ("Pressure emergency: " +:+ pretty pressure +:+ " bar")
                   else if 150 <? pressure
                   then r_alert WARNING ("Pressure high: " +:+ pretty pressure +:+ " bar")
                   else r_success ""))
    "SensorPressureHandler".

Definition PaymentEventHandler : EventHandler :=
  mkHandler
    (fun e => Ret (if zlen (body e) <? 4 then v_fail "payment body too short" else v_ok))
    (fun e => amount ← body_u32 e;
              Ret (if amount =? 0 then v_fail "payment amount is zero"
                   else if 1000000 <? amount then v_fail "payment amount exceeds limit" else v_ok))
    (fun e => amount ← body_u32 e; Ret (r_success ("payment_ok amount=" +:+ pretty amount)))
    "PaymentEventHandler".

Definition AuditEventHandler : EventHandler :=
  mkHandler (body_nonempty "empty audit log body") default_checkRules
    (fun _ => Ret (r_success "")) "AuditEventHandler".

(** ** The registry: the map as the list of its entries in the order it is walked *)

Abbreviation registry := (list (string * EventHandler)).

Definition lookup_handler (topic : string) (reg : registry) : option EventHandler :=
  snd <$> List.find (fun ph => bool_decide (ph.1 = topic)) reg.

(** [handlers_\[topic_prefix\] = handler]: an existing entry is replaced. *)
Fixpoint registerHandler (topic_prefix : string) (h : EventHandler) (reg : registry) : registry :=
  match reg with
  | [] => [(topic_prefix, h)]
  | (p, h0) :: reg' =>
      if bool_decide (p = topic_prefix) then (p, h) :: reg'
      else (p, h0) :: registerHandler topic_prefix h reg'
  end.

(** [topic.rfind(prefix, 0) == 0]. *)
Definition has_prefix (topic prefix : string) : bool := String.prefix prefix topic.

(** The loop of [getHandler]. *)
Fixpoint best_match (topic : string) (reg : registry) (best : option EventHandler) (best_len : nat)
    : option EventHandler :=
  match reg with
  | [] => best
  | (prefix, h) :: reg' =>
      if has_prefix topic prefix && (best_len <? String.length prefix)%nat
      then best_match topic reg' (Some h) (String.length prefix)
      else best_match topic reg' best best_len
  end.

Definition getHandler (topic : string) (reg : registry) : option EventHandler :=
  match lookup_handler topic reg with
  | Some h => Some h
  | None => best_match topic reg None 0
  end.

Definition getOrDefault (topic : string) (reg : registry) : EventHandler :=
  match getHandler topic reg with Some h => h | None => DefaultEventHandler end.

(** [clear]. *)
Definition clear_registry (reg : registry) : registry := [].

Definition registerDefaultHandlers (reg : registry) : registry :=
  registerHandler "audit" AuditEventHandler
    (registerHandler "payment" PaymentEventHandler
      (registerHandler "sensor/pressure" SensorPressureHandler
        (registerHandler "sensor/temperature" SensorTemperatureHandler reg))).

(** ** Alert handlers *)

(** Where an alert goes; a callback may throw. *)
Inductive AlertHandler :=
| LoggingAlertHandler
| CallbackAlertHandler (throws : Alert -> bool) (tag : string)
| CompositeAlertHandler (handlers : list AlertHandler)
| NullAlertHandler.

(** The log of alerts shown and callbacks run, with whether the call threw. *)
Fixpoint onAlert (h : AlertHandler) (a : Alert) (seen : list (string * Alert)) {struct h}
    : bool * list (string * Alert) :=
  match h with
  | LoggingAlertHandler => (false, seen ++ [("log"%string, a)])
  | CallbackAlertHandler throws tag => (throws a, seen ++ [(tag, a)])
  | CompositeAlertHandler hs =>
      (false, (fix go (hs : list AlertHandler) (seen : list (string * Alert)) :=
                 match hs with
                 | [] => seen
                 | h :: hs' => go hs' (onAlert h a seen).2
                 end) hs seen)
  | NullAlertHandler => (false, seen)
  end.

(** ** Lemmas *)

Lemma prefix_refl t : String.prefix t t = true.
Proof. induction t as [|c t IH]; [done|]. simpl. by destruct (Ascii.ascii_dec c c). Qed.

(** Two prefixes of a topic of the same length are the same string. *)
Lemma prefix_same_length t p q :
  String.prefix p t = true -> String.prefix q t = true -> String.length p = String.length q -> p = q.
Proof.
  revert p q; induction t as [|c t IH]; intros [|a p] [|b q]; simpl; try done.
  destruct (Ascii.ascii_dec a c) as [->|]; [|done]. destruct (Ascii.ascii_dec b c) as [->|]; [|done].
  intros Hp Hq [= Hl]. f_equal. by apply IH.
Qed.

Lemma prefix_length t p : String.prefix p t = true -> (String.length p <= String.length t)%nat.
Proof.
  revert t; induction p as [|a p IH]; intros [|c t]; simpl; try done; try lia.
  destruct (Ascii.ascii_dec a c); [|done]. intros Hp. apply IH in Hp. lia.
Qed.

(** What the loop keeps: the best candidate seen, the initial one included. *)
Lemma best_match_spec topic reg best best_len :
  (exists p h, (p, h) ∈ reg /\ String.prefix p topic = true /\ (best_len < String.length p)%nat /\
     best_match topic reg best best_len = Some h /\
     forall p' h', (p', h') ∈ reg -> String.prefix p' topic = true ->
       (String.length p' <= String.length p)%nat) \/
  (best_match topic reg best best_len = best /\
   forall p' h', (p', h') ∈ reg -> String.prefix p' topic = true -> (String.length p' <= best_len)%nat).
Proof.
  revert best best_len; induction reg as [|[p h] reg IH]; intros best best_len.
  { right. split; [done|]. intros p' h' Hin. by apply not_elem_of_nil in Hin. }
  simpl. unfold has_prefix. destruct (String.prefix p topic) eqn:Ep; simpl.
  - destruct (Nat.ltb_spec best_len (String.length p)) as [Hlt|Hge].
    + left. destruct (IH (Some h) (String.length p)) as [(p1 & h1 & Hin & Hp1 & Hl & Hb & Hmax)|[Hb Hmax]].
      * exists p1, h1. split; [by right|]. split; [done|]. split; [lia|]. split; [done|].
        intros p' h' [[= -> ->]|Hin']%elem_of_cons Hp'; [lia|by eapply Hmax].
      * exists p, h. split; [left|]. split; [done|]. split; [done|]. split; [done|].
        intros p' h' [[= -> ->]|Hin']%elem_of_cons Hp'; [lia|by eapply Hmax].
    + destruct (IH best best_len) as [(p1 & h1 & Hin & Hp1 & Hl & Hb & Hmax)|[Hb Hmax]].
      * left. exists p1, h1. split; [by right|]. split; [done|]. split; [done|]. split; [done|].
        intros p' h' [[= -> ->]|Hin']%elem_of_cons Hp'; [lia|by eapply Hmax].
      * right. split; [done|]. intros p' h' [[= -> ->]|Hin']%elem_of_cons Hp'; [lia|by eapply Hmax].
  - destruct (IH best best_len) as [(p1 & h1 & Hin & Hp1 & Hl & Hb & Hmax)|[Hb Hmax]].
    + left. exists p1, h1. split; [by right|]. split; [done|]. split; [done|]. split; [done|].
      intros p' h' [[= -> ->]|Hin']%elem_of_cons Hp'; [congruence|by eapply Hmax].
    + right. split; [done|]. intros p' h' [[= -> ->]|Hin']%elem_of_cons Hp'; [congruence|by eapply Hmax].
Qed.

Lemma entry_unique (reg : registry) p h h' :
  NoDup reg.*1 -> (p, h) ∈ reg -> (p, h') ∈ reg -> h = h'.
Proof.
  induction reg as [|[q g] reg IH]; intros Hnd H1 H2; [by apply not_elem_of_nil in H1|].
  simpl in Hnd. apply NoDup_cons in Hnd as [Hq Hnd].
  assert (Hin : forall g', (q, g') ∈ reg -> False).
  { intros g' Hg. apply Hq, list_elem_of_fmap. by exists (q, g'). }
  apply elem_of_cons in H1 as [H1|H1]; apply elem_of_cons in H2 as [H2|H2]; simplify_eq; try done.
  - by exfalso; eapply Hin.
  - by exfalso; eapply Hin.
  - by apply IH.
Qed.

Lemma lookup_handler_spec topic reg :
  match lookup_handler topic reg with
  | Some h => (topic, h) ∈ reg
  | None => forall h, (topic, h) ∉ reg
  end.
Proof.
  unfold lookup_handler. destruct (List.find _ reg) as [[p h]|] eqn:Ef; simpl.
  - apply find_some in Ef as [Hin Hp]. apply bool_decide_eq_true in Hp. simpl in Hp. subst.
    by apply list_elem_of_In.
  - intros h Hin. apply list_elem_of_In in Hin. eapply find_none in Ef; [|exact Hin].
    simpl in Ef. by apply bool_decide_eq_false in Ef.
Qed.

(** A handler for the longest registered prefix. *)
Definition longest (topic : string) (reg : registry) (p : string) (h : EventHandler) : Prop :=
  (p, h) ∈ reg /\ String.prefix p topic = true /\
  forall p' h', (p', h') ∈ reg -> String.prefix p' topic = true ->
    (String.length p' <= String.length p)%nat.

Lemma getHandler_longest topic reg h :
  getHandler topic reg = Some h -> exists p, longest topic reg p h.
Proof.
  unfold getHandler, longest. pose proof (lookup_handler_spec topic reg) as Hl.
  destruct (lookup_handler topic reg) as [g|].
  - intros [= ->]. exists topic. split; [done|]. split; [apply prefix_refl|].
    intros p' h' _ Hp. by apply prefix_length.
  - destruct (best_match_spec topic reg None 0) as [(p & g & Hin & Hp & _ & -> & Hmax)|[-> _]]; [|done].
    intros [= ->]. by exists p.
Qed.

Lemma getHandler_none topic reg p h :
  getHandler topic reg = None -> (p, h) ∈ reg -> String.prefix p topic = true -> p = ""%string.
Proof.
  unfold getHandler. pose proof (lookup_handler_spec topic reg) as Hl.
  destruct (lookup_handler topic reg); [done|].
  destruct (best_match_spec topic reg None 0) as [(q & g & _ & _ & _ & -> & _)|[_ Hmax]]; [done|].
  intros _ Hin Hp. specialize (Hmax p h Hin Hp). destruct p; [done|simpl in Hmax; lia].
Qed.

(** C36: the lookup returns the handler of the longest registered prefix of the topic and none only when
    no non-empty prefix is registered, and the answer does not depend on the order in which the
    hash map is walked. *)
Theorem getHandler_longest_prefix topic reg reg' :
  NoDup reg.*1 -> reg ≡ₚ reg' ->
  getHandler topic reg = getHandler topic reg' /\
  match getHandler topic reg with
  | Some h => exists p, longest topic reg p h
  | None => forall p h, (p, h) ∈ reg -> String.prefix p topic = true -> p = ""%string
  end.
Proof.
  intros Hnd Hperm.
  assert (Hnd' : NoDup reg'.*1) by (by rewrite <- Hperm).
  split.
  - destruct (getHandler topic reg) as [h|] eqn:E, (getHandler topic reg') as [h'|] eqn:E'; try done.
    + apply getHandler_longest in E as (p & Hin & Hp & Hmax).
      apply getHandler_longest in E' as (p' & Hin' & Hp' & Hmax').
      assert (p = p') as <-.
      { apply (prefix_same_length topic); [done|done|]. rewrite <- Hperm in Hin'.
        rewrite Hperm in Hin. pose proof (Hmax _ _ Hin' Hp'). pose proof (Hmax' _ _ Hin Hp). lia. }
      rewrite <- Hperm in Hin'. by rewrite (entry_unique reg p h h' Hnd Hin Hin').
    + unfold getHandler in E. pose proof (lookup_handler_spec topic reg) as Hl.
      unfold getHandler in E'. pose proof (lookup_handler_spec topic reg') as Hl'.
      destruct (lookup_handler topic reg') as [g'|]; [done|].
      destruct (lookup_handler topic reg) as [g|]; [rewrite Hperm in Hl; by apply Hl' in Hl|].
      destruct (best_match_spec topic reg' None 0) as [(q & g & _ & _ & _ & Hb & _)|[_ Hmax']]; [congruence|].
      destruct (best_match_spec topic reg None 0) as [(q & g & Hin & Hp & Hlen & _)|[Hb _]]; [|congruence].
      rewrite Hperm in Hin. specialize (Hmax' q g Hin Hp). lia.
    + unfold getHandler in E. pose proof (lookup_handler_spec topic reg) as Hl.
      unfold getHandler in E'. pose proof (lookup_handler_spec topic reg') as Hl'.
      destruct (lookup_handler topic reg) as [g|]; [done|].
      destruct (lookup_handler topic reg') as [g'|]; [rewrite <- Hperm in Hl'; by apply Hl in Hl'|].
      destruct (best_match_spec topic reg None 0) as [(q & g & _ & _ & _ & Hb & _)|[_ Hmax]]; [congruence|].
      destruct (best_match_spec topic reg' None 0) as [(q & g & Hin & Hp & Hlen & _)|[Hb _]]; [|congruence].
      rewrite <- Hperm in Hin. specialize (Hmax q g Hin Hp). lia.
  - destruct (getHandler topic reg) as [h|] eqn:E; [by apply getHandler_longest|].
    intros p h. by apply getHandler_none.
Qed.

Lemma getHandler_longest_prefix_witness :
  NoDup (registerDefaultHandlers []).*1 /\
  getHandler "payment/eu" (registerDefaultHandlers []) = getHandler "payment/eu" (rev (registerDefaultHandlers [])).
Proof.
  assert (Hn : NoDup (registerDefaultHandlers []).*1)
    by (apply (bool_decide_unpack _); vm_compute; exact I).
  split; [exact Hn|].
  exact (proj1 (getHandler_longest_prefix "payment/eu" (registerDefaultHandlers [])
           (rev (registerDefaultHandlers [])) Hn (Permutation_rev _))).
Defined.

(** On an event that passes its handler's [validate], no built-in handler's rule check or handling
    reads outside the body: both return. *)
Theorem builtin_handlers_guarded topic e v :
  let h := getOrDefault topic (registerDefaultHandlers []) in
  validate h e = Ret v -> valid v = true ->
  exists r hr, checkRules h e = Ret r /\ handle h e = Ret hr.
Proof.
  intros h.
  assert (Hb : h = DefaultEventHandler \/ h = SensorTemperatureHandler \/ h = SensorPressureHandler \/
               h = PaymentEventHandler \/ h = AuditEventHandler).
  { unfold h, getOrDefault. destruct (getHandler topic _) as [g|] eqn:E; [|by left].
    apply getHandler_longest in E as (p & Hin & _). right.
    repeat (apply elem_of_cons in Hin as [[= _ ->]|Hin]; [tauto|]). by apply not_elem_of_nil in Hin. }
  assert (Hne : forall msg, body_nonempty msg e = Ret v -> valid v = true -> exists b, body0 e = Ret b).
  { intros msg [= <-]. case_bool_decide as Hbody; [done|]. intros _. unfold body0.
    destruct (body e) as [|b bs] eqn:Eb; [done|].
    rewrite (rd_range_ok (b :: bs) 0 1) by (autorewrite with zlen; pose proof (zlen_nonneg bs); lia).
    by eexists. }
  destruct Hb as [-> |[-> |[-> |[-> | ->]]]]; cbn [validate checkRules handle DefaultEventHandler
    SensorTemperatureHandler SensorPressureHandler PaymentEventHandler AuditEventHandler]; intros Hv Hok.
  - by eexists _, _.
  - destruct (Hne _ Hv Hok) as [b ->]. by eexists _, _.
  - destruct (Hne _ Hv Hok) as [b ->]. by eexists _, _.
  - injection Hv as <-. destruct (Z.ltb_spec (zlen (body e)) 4); [done|].
    unfold body_u32. rewrite (rd_range_ok (body e) 0 4) by lia. by eexists _, _.
  - by eexists _, _.
Qed.

Lemma builtin_handlers_guarded_witness :
  exists r hr, checkRules PaymentEventHandler (new_event (mkEventHeader TCP LOW 1 0 4 7 0) "payment"
                 [Byte.x05; Byte.x00; Byte.x00; Byte.x00] ∅) = Ret r /\
    handle PaymentEventHandler (new_event (mkEventHeader TCP LOW 1 0 4 7 0) "payment"
      [Byte.x05; Byte.x00; Byte.x00; Byte.x00] ∅) = Ret hr.
Proof.
  exact (builtin_handlers_guarded "payment" (new_event (mkEventHeader TCP LOW 1 0 4 7 0) "payment"
           [Byte.x05; Byte.x00; Byte.x00; Byte.x00] ∅) v_ok eq_refl eq_refl).
Defined.

(** A composite runs every handler, whichever of them throw. *)
Lemma composite_runs_all hs a seen :
  onAlert (CompositeAlertHandler hs) a seen =
  (false, fold_left (fun seen h => (onAlert h a seen).2) hs seen).
Proof. reflexivity. Qed.

End Handlers.
