(* ===== verification/Output.v ===== *)
(** * The stream of processed events: [include/eventstream/core/processor/output.hpp]

    Module [Output]: the observer list published as a snapshot, the two
    notifications with the pruning of inactive observers, and the four observers the
    program registers.  A notification walks the snapshot it loaded; what other
    threads do to the list meanwhile is the argument [env], and pruning starts from
    the list as it is then. *)

From S2P Require Import Prelude Event.

Module Output.
Section Stream.
(** The state the observers write to. *)
Context {S : Type}.

(** The virtual functions of [ProcessedEventObserver].  An exception of a callback is
    swallowed, so a callback is the change it made. *)
Record Observer := mkObserver {
  isActive : S -> bool;
  onEventProcessed : Event -> string -> S -> S;
  onEventDropped : Event -> string -> string -> S -> S
}.

Record Stream := mkStream { observers_snapshot_ : list Observer; enabled_ : bool }.

Definition new_stream : Stream := mkStream [] true.

Definition subscribe (observer : option Observer) (st : Stream) : Stream :=
  match observer with
  | None => st
  | Some o => mkStream (observers_snapshot_ st ++ [o]) (enabled_ st)
  end.

Definition clear (st : Stream) : Stream := mkStream [] (enabled_ st).

Definition setEnabled (b : bool) (st : Stream) : Stream := mkStream (observers_snapshot_ st) b.

Definition hasObservers (st : Stream) : bool :=
  match observers_snapshot_ st with [] => false | _ => true end.

Definition pruneInactive (s : S) (st : Stream) : Stream :=
  match observers_snapshot_ st with
  | [] => st
  | l => mkStream (List.filter (fun o => isActive o s) l) (enabled_ st)
  end.

(** The loop of a notification over the snapshot: the callback [call] of each active
    observer, and whether one was inactive. *)
Fixpoint notify_loop (call : Observer -> S -> S) (obs : list Observer) (needs_prune : bool) (s : S)
    : bool * S :=
  match obs with
  | [] => (needs_prune, s)
  | o :: obs' =>
      if isActive o s then notify_loop call obs' needs_prune (call o s)
      else notify_loop call obs' true s
  end.

Definition notify (call : Observer -> S -> S) (env : Stream -> Stream) (st : Stream) (s : S)
    : Stream * S :=
  if enabled_ st then
    match observers_snapshot_ st with
    | [] => (st, s)
    | obs =>
        let '(needs_prune, s) := notify_loop call obs false s in
        let st := env st in
        (if needs_prune then pruneInactive s st else st, s)
    end
  else (st, s).

Definition notifyProcessed (e : Event) (proc : string) := notify (fun o => onEventProcessed o e proc).
Definition notifyDropped (e : Event) (proc reason : string) := notify (fun o => onEventDropped o e proc reason).

(** ** What a notification promises *)

Lemma notify_loop_all call obs p s :
  (forall o s', o ∈ obs -> isActive o s' = true) ->
  notify_loop call obs p s = (p, fold_left (fun s o => call o s) obs s).
Proof.
  revert p s; induction obs as [|o obs IH]; intros p s Ha; [done|]. simpl.
  rewrite (Ha o s) by left. apply IH. intros o' s' Ho. apply Ha. by right.
Qed.

Lemma prune_observers s st :
  observers_snapshot_ (pruneInactive s st) = List.filter (fun o => isActive o s) (observers_snapshot_ st) /\
  enabled_ (pruneInactive s st) = enabled_ st.
Proof. unfold pruneInactive. destruct (observers_snapshot_ st) eqn:E; [by rewrite E|done]. Qed.

Lemma notify_all call st s :
  enabled_ st = true -> (forall o s', o ∈ observers_snapshot_ st -> isActive o s' = true) ->
  notify call (fun st => st) st s = (st, fold_left (fun s o => call o s) (observers_snapshot_ st) s).
Proof.
  intros He Ha. unfold notify. rewrite He. destruct (observers_snapshot_ st) as [|o l] eqn:El; [done|].
  by rewrite notify_loop_all.
Qed.

(** Whatever the other threads subscribe while a notification runs, no active observer is lost to
    its pruning: an active observer on the list the other threads left stays on it, nothing is added,
    and the switch is as they left it. *)
Theorem notify_keeps_subscribers call env st s o :
  enabled_ st = true -> observers_snapshot_ st <> [] ->
  let '(st', s') := notify call env st s in
  (o ∈ observers_snapshot_ (env st) -> isActive o s' = true -> o ∈ observers_snapshot_ st') /\
  (o ∈ observers_snapshot_ st' -> o ∈ observers_snapshot_ (env st)) /\
  enabled_ st' = enabled_ (env st).
Proof.
  intros He Hne. unfold notify. rewrite He. destruct (observers_snapshot_ st) as [|o0 l]; [done|].
  destruct (notify_loop call (o0 :: l) false s) as [prune s'].
  destruct prune; [|by split_and!]. unfold pruneInactive.
  destruct (observers_snapshot_ (env st)) as [|o1 k] eqn:Ek; [by rewrite Ek|].
  cbn [observers_snapshot_ enabled_].
  split_and!; [| |done].
  - intros Ho Ha. apply list_elem_of_In, filter_In. split; [by apply list_elem_of_In|done].
  - intros Ho. apply list_elem_of_In, filter_In in Ho as [Ho _]. by apply list_elem_of_In.
Qed.

End Stream.

(** ** The observers the program registers *)

(** What they write: the drop monitor's counter and their log. *)
Record Observed := mkObserved { drop_count_ : Z; log : list (string * Z) }.

Definition add_log (tag : string) (e : Event) (s : Observed) : Observed :=
  mkObserved (drop_count_ s) (log s ++ [(tag, id (header e))]).

Definition always : Observed -> bool := fun _ => true.

(** [topic.find(x) == 0]. *)
Definition starts (e : Event) (x : string) : bool := String.prefix x (topic e).

Definition RealtimeAlertObserver : Observer :=
  mkObserver always
    (fun e proc s =>
       if negb (bool_decide (proc = "RealtimeProcessor"%string)) then s
       else if starts e "sensor/pressure" then add_log "emergency-svc" e s
       else if starts e "sensor/temperature" then add_log "monitoring" e s else s)
    (fun e proc reason s =>
       if negb (bool_decide (proc = "RealtimeProcessor"%string)) then s else add_log "rt-dropped" e s).

Definition TransactionalBusinessObserver : Observer :=
  mkObserver always
    (fun e proc s =>
       if negb (bool_decide (proc = "TransactionalProcessor"%string)) then s
       else if starts e "payment" then add_log "payment-status" e s
       else if starts e "state" then add_log "state-change" e s
       else if starts e "audit" then add_log "compliance" e s else s)
    (fun e proc reason s =>
       if negb (bool_decide (proc = "TransactionalProcessor"%string)) then s else add_log "txn-dropped" e s).

Definition BatchAnalyticsObserver : Observer :=
  mkObserver always
    (fun e proc s =>
       if negb (bool_decide (proc = "BatchProcessor"%string)) then s
       else if starts e "audit" then add_log "analytics" e s else s)
    (fun e proc reason s =>
       if negb (bool_decide (proc = "BatchProcessor"%string)) then s else add_log "batch-dropped" e s).

Definition DroppedEventMonitorObserver : Observer :=
  mkObserver always (fun _ _ s => s)
    (fun e proc reason s => mkObserved (add64 (drop_count_ s) 1) (log s ++ [("drop"%string, id (header e))])).

(** The flag and the list. *)
Definition registerDefaultObservers (registered : bool) (st : Stream (S := Observed))
    : bool * Stream (S := Observed) :=
  if registered then (true, st)
  else (true, subscribe (Some DroppedEventMonitorObserver)
                (subscribe (Some BatchAnalyticsObserver)
                   (subscribe (Some TransactionalBusinessObserver)
                      (subscribe (Some RealtimeAlertObserver) st)))).

Definition clearAllObservers (st : Stream (S := Observed)) : bool * Stream (S := Observed) :=
  (false, clear st).

Definition quiet {S} : Stream (S := S) -> Stream (S := S) := fun st => st.

Lemma default_observers_active o s :
  o ∈ observers_snapshot_ (registerDefaultObservers false new_stream).2 -> isActive o s = true.
Proof.
  simpl. intros Ho. repeat (apply elem_of_cons in Ho as [->|Ho]; [done|]). by apply not_elem_of_nil in Ho.
Qed.

(** With the default observers a drop is counted once, and registering twice changes nothing. *)
Lemma drop_counted_once e proc reason s :
  let st := (registerDefaultObservers false new_stream).2 in
  (notifyDropped e proc reason quiet st s).1 = st /\
  drop_count_ (notifyDropped e proc reason quiet st s).2 = add64 (drop_count_ s) 1 /\
  registerDefaultObservers true st = (true, st).
Proof.
  intros st. unfold notifyDropped, quiet.
  rewrite notify_all by (done || exact default_observers_active).
  split_and!; [done| |done]. simpl. by repeat case_match.
Qed.

End Output.

Lemma notify_keeps_subscribers_witness :
  Output.DroppedEventMonitorObserver ∈
  Output.observers_snapshot_
    (Output.notify (fun o => Output.onEventProcessed o (new_event (mkEventHeader TCP LOW 1 0 0 1 0) "a" [] ∅) "x")
       (Output.subscribe (Some Output.DroppedEventMonitorObserver))
       (Output.mkStream [Output.mkObserver (fun _ => false) (fun _ _ s => s) (fun _ _ _ s => s)] true)
       (Output.mkObserved 0 [])).1.
Proof.
  pose proof (Output.notify_keeps_subscribers
    (fun o => Output.onEventProcessed o (new_event (mkEventHeader TCP LOW 1 0 0 1 0) "a" [] ∅) "x")
    (Output.subscribe (Some Output.DroppedEventMonitorObserver))
    (Output.mkStream [Output.mkObserver (fun _ => false) (fun _ _ s => s) (fun _ _ _ s => s)] true)
    (Output.mkObserved 0 []) Output.DroppedEventMonitorObserver eq_refl ltac:(discriminate)) as H.
  apply H; [|reflexivity]. right. left.
Defined.
