(* ===== verification/Processor.v ===== *)
(** * The processors' world and the realtime processor:
    [include/eventstream/core/processor/processor.hpp], [src/core/processor/realtime.cpp]

    The state the three processors share (the bus with its dead-letter queue and the
    metric registry, the storage engine, the observers of processed events, the
    alerts shown) with their own members, and a state monad whose computations can
    throw: what was done before an exception is kept.  The clock readings of a call
    and the answers of the file system are in [Inputs].  [numa_node_] only chooses
    the thread's processor: [NUMABinding.bind_once].

    Module [Realtime]: [RealtimeProcessor] and what becomes of an event given to it. *)

From S2P Require Import Prelude Event Dlq Metrics Histogram EventBus Storage Handlers Output Dedup.
From stdpp Require Import pretty.
#[local] Open Scope Z_scope.

(** ** State *)

(** The members of the three classes; pointers to shared parts are in [PWorld]. *)
Record RealtimeState := mkRealtimeState {
  alert_handler_ : option Handlers.AlertHandler;
  max_processing_ms_ : Z
}.

Record TransactionalState := mkTransactionalState {
  paused_ : bool;
  max_retries_ : Z;
  dedup_table_ : Dedup.buckets;
  last_cleanup_ms_ : Z;
  latency_hist_ : LatencyHistogram.t
}.

(** The time since the epoch of the steady clock, in nanoseconds. *)
Record TopicBucket := mkTopicBucket { events : list Event; last_flush_time : Z }.

Record BatchState := mkBatchState {
  drop_events_ : bool;
  has_bus : bool;
  window_ : Z;
  buckets_ : gmap string TopicBucket
}.

(** [has_dlq]: whether [dlq_] points to the bus's dead-letter queue or is null. *)
Record PWorld {S : Type} := mkPWorld {
  bw : EventBus.World;
  storage_ : option StorageEngine.Storage;
  has_dlq : bool;
  stream : Output.Stream (S := S);
  observed : S;
  alerts : list (string * Handlers.Alert);
  rt : RealtimeState;
  txn : TransactionalState;
  batch : BatchState
}.
Arguments PWorld : clear implicits.

(** What a call reads from outside: the clocks, and whether the system accepts the
    [n]th write of the call. *)
Record Inputs := mkInputs {
  start_ns : Z; done_ns : Z;      (* high_resolution_clock around the handling *)
  alert_ns : Z;                   (* nowNs() of an alert *)
  wall_ms : Z;                    (* system_clock, in ms *)
  steady_ns : Z;                  (* steady_clock *)
  latency_now_ns : Z;             (* nowNs() of the latency sample *)
  ts_ns : Z; ts_ms : Z;           (* the clocks of updateEventTimestamp *)
  accepted : nat -> bool
}.

(** ** Computations *)

Definition M (S A : Type) : Type := PWorld S -> outcome A * PWorld S.

#[global] Instance M_ret S : MRet (M S) := fun A a w => (Ret a, w).
#[global] Instance M_bind S : MBind (M S) := fun A B k m w =>
  match m w with
  | (Ret a, w') => k a w'
  | (Throw what, w') => (Throw what, w')
  | (UB, w') => (UB, w')
  end.

Lemma bindE {S A B} (m : M S A) (k : A -> M S B) w :
  (m ≫= k) w = match m w with
               | (Ret a, w') => k a w'
               | (Throw what, w') => (Throw what, w')
               | (UB, w') => (UB, w')
               end.
Proof. done. Qed.

Lemma bind_inv {S A B} (m : M S A) (k : A -> M S B) w b w' :
  (m ≫= k) w = (Ret b, w') <-> exists a w1, m w = (Ret a, w1) /\ k a w1 = (Ret b, w').
Proof. rewrite bindE. destruct (m w) as [[a| |] w1]; naive_solver. Qed.

Section Operations.
Context {S : Type}.
Implicit Types w : PWorld S.

Definition with_bw (b : EventBus.World) w : PWorld S :=
  mkPWorld S b (storage_ w) (has_dlq w) (stream w) (observed w) (alerts w) (rt w) (txn w) (batch w).
Definition with_storage (s : option StorageEngine.Storage) w : PWorld S :=
  mkPWorld S (bw w) s (has_dlq w) (stream w) (observed w) (alerts w) (rt w) (txn w) (batch w).
Definition with_stream (so : Output.Stream * S) w : PWorld S :=
  mkPWorld S (bw w) (storage_ w) (has_dlq w) so.1 so.2 (alerts w) (rt w) (txn w) (batch w).
Definition with_alerts (a : list (string * Handlers.Alert)) w : PWorld S :=
  mkPWorld S (bw w) (storage_ w) (has_dlq w) (stream w) (observed w) a (rt w) (txn w) (batch w).
Definition with_rt (r : RealtimeState) w : PWorld S :=
  mkPWorld S (bw w) (storage_ w) (has_dlq w) (stream w) (observed w) (alerts w) r (txn w) (batch w).
Definition with_txn (t : TransactionalState) w : PWorld S :=
  mkPWorld S (bw w) (storage_ w) (has_dlq w) (stream w) (observed w) (alerts w) (rt w) t (batch w).
Definition with_batch (b : BatchState) w : PWorld S :=
  mkPWorld S (bw w) (storage_ w) (has_dlq w) (stream w) (observed w) (alerts w) (rt w) (txn w) b.

Definition lift {A} (o : outcome A) : M S A := fun w => (o, w).
Definition get : M S (PWorld S) := fun w => (Ret w, w).
Definition update (f : PWorld S -> PWorld S) : M S unit := fun w => (Ret tt, f w).

(** [MetricRegistry::getInstance().getMetrics(name)], then the writes [f] through the
    reference. *)
Definition set_metrics (name : string) (f : Metrics -> Metrics) w : PWorld S :=
  with_bw (EventBus.mkWorld (EventBus.heap (bw w)) (EventBus.bus (bw w))
             (MetricRegistry.update_metrics f name (EventBus.metrics (bw w))) (EventBus.ts_buf (bw w))) w.
Definition count_dropped (name : string) : M S unit := update (set_metrics name (add_dropped 1)).
Definition count_processed (name : string) : M S unit := update (set_metrics name (add_processed 1)).

Definition touch (name : string) (i : Inputs) : M S unit := update (fun w =>
  let '(b, r) := MetricRegistry.updateEventTimestamp name (ts_ns i) (ts_ms i)
                   (EventBus.ts_buf (bw w)) (EventBus.metrics (bw w)) in
  with_bw (EventBus.mkWorld (EventBus.heap (bw w)) (EventBus.bus (bw w)) r b) w).

(** [if (dlq_) dlq_->push(event)]. *)
Definition push_dlq (e : Event) : M S unit := update (fun w =>
  if has_dlq w then
    with_bw (EventBus.set_dlq (DeadLetterQueue.push e (EventBus.dlq_ (EventBus.bus (bw w)))) (bw w)) w
  else w).

(** [if (storage_) storage_->storeEvent(event)]. *)
Definition store (ok : bool) (e : Event) : M S unit := fun w =>
  match storage_ w with
  | None => (Ret tt, w)
  | Some s => let '(o, s') := StorageEngine.storeEvent ok e s in (o, with_storage (Some s') w)
  end.

Definition flush_storage : M S unit := update (fun w =>
  with_storage (StorageEngine.flush <$> storage_ w) w).

(** [setStorage] of a processor whose storage no other processor shares; the engine never calls it. *)
Definition setStorage (s : option StorageEngine.Storage) : M S unit := update (with_storage s).

Definition notify_processed (others : Output.Stream -> Output.Stream) (name : string) (e : Event) : M S unit :=
  update (fun w => with_stream (Output.notifyProcessed e name others (stream w) (observed w)) w).
Definition notify_dropped (others : Output.Stream -> Output.Stream) (name reason : string) (e : Event) : M S unit :=
  update (fun w => with_stream (Output.notifyDropped e name reason others (stream w) (observed w)) w).

(** The three calls every processor makes for an event it gives up. *)
Definition drop_event (others : Output.Stream -> Output.Stream) (name reason : string) (e : Event) : M S unit :=
  count_dropped name;; push_dlq e;; notify_dropped others name reason e.

(** A sequence of calls on one processor. *)
Fixpoint process_all (process : Inputs -> Event -> M S unit) (calls : list (Inputs * Event)) : M S unit :=
  match calls with [] => mret tt | (i, e) :: calls' => process i e;; process_all process calls' end.

(** ** What the operations change *)

(** The counters of a processor. *)
Definition metrics_of (name : string) w : Metrics :=
  default new_metrics (MetricRegistry.metrics_map_ (EventBus.metrics (bw w)) !! name).
Definition processed (name : string) w : Z := total_events_processed (metrics_of name w).
Definition dropped (name : string) w : Z := total_events_dropped (metrics_of name w).
Definition dlq w : DeadLetterQueue.t := EventBus.dlq_ (EventBus.bus (bw w)).

Lemma metrics_of_set name f w : metrics_of name (set_metrics name f w) = f (metrics_of name w).
Proof. unfold metrics_of. cbn. by rewrite MetricRegistry.update_metrics_lookup. Qed.

Lemma touch_metrics name i w :
  let w' := (touch name i w).2 in
  processed name w' = processed name w /\ dropped name w' = dropped name w /\
  EventBus.bus (bw w') = EventBus.bus (bw w) /\ EventBus.heap (bw w') = EventBus.heap (bw w).
Proof.
  unfold touch, update, processed, dropped, metrics_of, MetricRegistry.updateEventTimestamp. cbn.
  destruct (bool_decide _ && _)%bool; [done|].
  destruct (MetricRegistry.metrics_map_ (EventBus.metrics (bw w)) !! name) eqn:E; cbn; [|by rewrite E].
  by rewrite lookup_insert_eq.
Qed.

Lemma touch_rest name i w :
  exists b, touch name i w = (Ret tt, with_bw b w).
Proof.
  unfold touch, update. destruct (MetricRegistry.updateEventTimestamp _ _ _ _ _). by eexists.
Qed.

End Operations.

(** ** What a computation leaves alone *)

(** [m] does not change what [v] shows of the world. *)
Definition leaves {S X A} (v : PWorld S -> X) (m : M S A) : Prop := forall w, v (m w).2 = v w.

Create HintDb leaves.

Lemma leaves_bind {S X A B} (v : PWorld S -> X) (m : M S A) (k : A -> M S B) :
  leaves v m -> (forall a, leaves v (k a)) -> leaves v (m ≫= k).
Proof.
  intros Hm Hk w. rewrite bindE. specialize (Hm w). destruct (m w) as [[a| |] w']; [|done..].
  by rewrite Hk.
Qed.
Lemma leaves_ret {S X A} (v : PWorld S -> X) (a : A) : leaves v (mret a).
Proof. done. Qed.
Lemma leaves_lift {S X A} (v : PWorld S -> X) (o : outcome A) : leaves v (lift o).
Proof. done. Qed.
Lemma leaves_get {S X} (v : PWorld S -> X) : leaves v get.
Proof. done. Qed.
Lemma leaves_update {S X} (v : PWorld S -> X) (f : PWorld S -> PWorld S) :
  (forall w, v (f w) = v w) -> leaves v (update f).
Proof. intros Hf w. apply Hf. Qed.
Lemma leaves_pair {S X Y A} (v : PWorld S -> X) (u : PWorld S -> Y) (m : M S A) :
  leaves v m -> leaves u m -> leaves (fun w => (v w, u w)) m.
Proof. intros Hv Hu w. by rewrite Hv, Hu. Qed.

#[export] Hint Resolve leaves_ret leaves_lift leaves_get : leaves.

(** Follow a translated body to the operations it is made of. *)
Ltac solve_leaves :=
  repeat first
    [ progress intros
    | solve [auto with leaves]
    | apply leaves_bind
    | case_match
    | solve [by apply leaves_update]
    | done ].

(** Run the first computation of a sequence where it is one that cannot fail. *)
Ltac mrun := repeat (rewrite bindE;
  cbn [get update lift count_dropped count_processed push_dlq notify_dropped notify_processed flush_storage]).

(** Giving an event up never fails, and changes the counter, the dead-letter queue and
    the observers. *)
Lemma drop_event_spec {S} others name reason e (w : PWorld S) :
  exists w', drop_event others name reason e w = (Ret tt, w') /\
    processed name w' = processed name w /\ dropped name w' = add64 (dropped name w) 1 /\
    dlq w' = (if has_dlq w then DeadLetterQueue.push e (dlq w) else dlq w) /\
    storage_ w' = storage_ w /\
    (stream w', observed w') = Output.notifyDropped e name reason others (stream w) (observed w) /\
    has_dlq w' = has_dlq w /\ rt w' = rt w /\ txn w' = txn w /\ batch w' = batch w /\ alerts w' = alerts w.
Proof.
  unfold drop_event. mrun. unfold notify_dropped. cbn [update]. eexists. split; [done|].
  unfold processed, dropped, dlq. change (has_dlq (set_metrics name (add_dropped 1) w)) with (has_dlq w).
  destruct (has_dlq w) eqn:Ed; cbn -[metrics_of];
    (split_and!; [| |done|done|by destruct (Output.notifyDropped _ _ _ _ _ _)|done..]).
  all: unfold metrics_of; cbn; by rewrite MetricRegistry.update_metrics_lookup.
Qed.

(** ** [RealtimeProcessor] *)

Module Realtime.
Section Realtime.
(** The registered handlers, and what the other threads do to the observer list while
    a notification runs. *)
Context {S : Type} (reg : Handlers.registry) (others : Output.Stream (S := S) -> Output.Stream (S := S)).
Implicit Types w : PWorld S.

Definition name : string := "RealtimeProcessor".

(** The constructor: a null handler is replaced by the logging one. *)
Definition create (alert_handler : option Handlers.AlertHandler) : RealtimeState :=
  mkRealtimeState (Some (default Handlers.LoggingAlertHandler alert_handler)) 5.

Definition setMaxProcessingMs (ms : Z) (r : RealtimeState) : RealtimeState :=
  mkRealtimeState (alert_handler_ r) ms.
Definition setAlertHandler (h : option Handlers.AlertHandler) (r : RealtimeState) : RealtimeState :=
  mkRealtimeState h (max_processing_ms_ r).

(** Logs the handler's name through the pointer, which [setAlertHandler] may have set to null. *)
Definition start : M S unit := fun w =>
  (match alert_handler_ (rt w) with Some _ => Ret tt | None => UB end, w).

Definition stop : M S unit := flush_storage.

Definition emitAlert (level : Handlers.AlertLevel) (message : string) (i : Inputs) (e : Event) : M S unit :=
  fun w =>
  match alert_handler_ (rt w) with
  | None => (Ret tt, w)
  | Some h =>
      let alert := Handlers.mkAlert level message (topic e) (id (header e)) (alert_ns i) (body e) in
      let '(threw, seen) := Handlers.onAlert h alert (alerts w) in
      (if threw : bool then Throw "alert handler" else Ret tt, with_alerts seen w)
  end.

(** [duration_cast<milliseconds>]: towards zero. *)
Definition elapsed_ms (i : Inputs) : Z := Z.quot (done_ns i - start_ns i) 1000000.

(** The part of [process] after the switch on the handler's outcome. *)
Definition finish (i : Inputs) (e : Event) : M S unit :=
  w ← get;
  if max_processing_ms_ (rt w) <? elapsed_ms i then
    count_dropped name;;
    emitAlert Handlers.WARNING
      ("SLA breach: " +:+ pretty (elapsed_ms i) +:+ "ms > " +:+ pretty (max_processing_ms_ (rt w)) +:+ "ms") i e;;
    push_dlq e;;
    notify_dropped others name "sla_breach" e
  else
    touch name i;;
    store (accepted i 0) e;;
    notify_processed others name e.

Definition process (i : Inputs) (e : Event) : M S unit :=
  update (set_metrics name (fun m => m));;
  let handler := Handlers.getOrDefault (topic e) reg in
  v ← lift (Handlers.validate handler e);
  if negb (Handlers.valid v) then drop_event others name (Handlers.error v) e else
  r ← lift (Handlers.checkRules handler e);
  if negb (Handlers.valid r) then drop_event others name (Handlers.error r) e else
  result ← lift (Handlers.handle handler e);
  match Handlers.r_outcome result with
  | Handlers.ALERT =>
      emitAlert (Handlers.r_alert_level result) (Handlers.r_message result) i e;;
      count_processed name;;
      finish i e
  | Handlers.FAIL | Handlers.DROP => drop_event others name (Handlers.r_message result) e
  | Handlers.SUCCESS => count_processed name;; finish i e
  end.

(** The private [handle], which nothing calls. *)
Definition handle (e : Event) : outcome bool :=
  result ← Handlers.handle (Handlers.getOrDefault (topic e) reg) e;
  Ret (negb (bool_decide (Handlers.r_outcome result = Handlers.FAIL))).

(** ** What becomes of an event *)

(** The event was delivered: stored (where there is a storage) and announced. *)
Definition delivered (i : Inputs) (e : Event) w w' : Prop :=
  processed name w' = add64 (processed name w) 1 /\ dropped name w' = dropped name w /\
  dlq w' = dlq w /\
  storage_ w' = (fun s => (StorageEngine.storeEvent (accepted i 0) e s).2) <$> storage_ w /\
  (stream w', observed w') = Output.notifyProcessed e name others (stream w) (observed w).

(** The event was given up: counted, copied to the dead-letter queue and announced. *)
Definition given_up (counted : bool) (reason : string) (e : Event) w w' : Prop :=
  processed name w' = (if counted then add64 (processed name w) 1 else processed name w) /\
  dropped name w' = add64 (dropped name w) 1 /\
  dlq w' = (if has_dlq w then DeadLetterQueue.push e (dlq w) else dlq w) /\
  storage_ w' = storage_ w /\
  (stream w', observed w') = Output.notifyDropped e name reason others (stream w) (observed w).

(** Two worlds that differ in the alerts shown only. *)
Definition alike w w' : Prop :=
  processed name w' = processed name w /\ dropped name w' = dropped name w /\ dlq w' = dlq w /\
  has_dlq w' = has_dlq w /\ storage_ w' = storage_ w /\ stream w' = stream w /\ observed w' = observed w /\
  rt w' = rt w.

Lemma alike_lookup w : alike w (set_metrics name (fun m => m) w).
Proof. unfold alike, processed, dropped. rewrite metrics_of_set. by split_and!. Qed.

Lemma alike_alert level message i e w : alike w (emitAlert level message i e w).2.
Proof.
  unfold emitAlert. destruct (alert_handler_ (rt w)) as [h|] eqn:Eh; [|done].
  destruct (Handlers.onAlert h _ _). done.
Qed.

Lemma alike_trans w1 w2 w3 : alike w1 w2 -> alike w2 w3 -> alike w1 w3.
Proof. unfold alike. intros (-> & -> & -> & -> & -> & -> & -> & ->). done. Qed.

Lemma drop_event_given_up reason e w w' :
  drop_event others name reason e w = (Ret tt, w') -> given_up false reason e w w'.
Proof.
  destruct (drop_event_spec others name reason e w) as (w1 & -> & ? & ? & ? & ? & ? & ?). by intros [= <-].
Qed.

Lemma given_up_alike c reason e w w1 w2 : alike w w1 -> given_up c reason e w1 w2 -> given_up c reason e w w2.
Proof. unfold given_up. by intros (-> & -> & -> & -> & -> & -> & -> & _). Qed.

Lemma delivered_alike i e w w1 w2 : alike w w1 -> delivered i e w1 w2 -> delivered i e w w2.
Proof. unfold delivered. by intros (-> & -> & -> & _ & -> & -> & -> & _). Qed.

(** The end of [process], the processed counter included. *)
Lemma finish_spec i e w w' :
  finish i e (set_metrics name (add_processed 1) w) = (Ret tt, w') ->
  if max_processing_ms_ (rt w) <? elapsed_ms i then given_up true "sla_breach" e w w'
  else delivered i e w w'.
Proof.
  unfold finish. mrun. change (rt (set_metrics name (add_processed 1) w)) with (rt w).
  destruct (max_processing_ms_ (rt w) <? elapsed_ms i).
  - mrun.
    set (w1 := set_metrics (S := S) name (add_dropped 1) _). set (msg := ("SLA breach: " +:+ _)%string).
    pose proof (alike_alert Handlers.WARNING msg i e w1) as Ha.
    destruct (emitAlert Handlers.WARNING msg i e w1) as [[[]| |] w2]; [|done..].
    mrun. intros [= <-].
    destruct Ha as (Hp & Hd & Hq & Hh & Hs & Hst & Ho & _). cbn [snd] in *.
    unfold given_up, processed, dropped, dlq in *. cbn -[metrics_of set_metrics].
    rewrite Hh. change (stream w1) with (stream w) in Hst. change (observed w1) with (observed w) in Ho.
    assert (Hm : metrics_of name w1 = add_dropped 1 (add_processed 1 (metrics_of name w)))
      by (unfold w1; by rewrite !metrics_of_set).
    rewrite Hm in Hp, Hd. change (has_dlq w1) with (has_dlq w) in *.
    destruct (has_dlq w); cbn -[metrics_of set_metrics]; rewrite Hst, Ho;
      split_and!; try done; try (by destruct (Output.notifyDropped _ _ _ _ _ _)).
    by rewrite Hq.
  - set (w1 := set_metrics (S := S) name (add_processed 1) w).
    pose proof (touch_metrics name i w1) as (Hp & Hd & Hb & _).
    destruct (touch_rest name i w1) as [b Ht]. mrun. rewrite Ht in Hp, Hd, Hb |- *. cbn [snd] in *.
    mrun. unfold store. cbn -[metrics_of set_metrics].
    assert (Hm : metrics_of name w1 = add_processed 1 (metrics_of name w))
      by (unfold w1; by rewrite !metrics_of_set).
    unfold delivered, processed, dropped, dlq in *. rewrite Hm in Hp, Hd. cbn -[metrics_of set_metrics] in Hb.
    change (storage_ w1) with (storage_ w).
    destruct (storage_ w) as [s|] eqn:Es; cbn -[metrics_of set_metrics StorageEngine.storeEvent].
    + destruct (StorageEngine.storeEvent (accepted i 0) e s) as [[[]| |] s'] eqn:E; [|done..].
      intros [= <-]. cbn -[metrics_of set_metrics StorageEngine.storeEvent].
      split_and!; try done; [by rewrite Hb|].
      by destruct (Output.notifyProcessed _ _ _ _ _).
    + intros [= <-]. cbn -[metrics_of set_metrics]. split_and!; try done; [by rewrite Hb|].
      by destruct (Output.notifyProcessed _ _ _ _ _).
Qed.

(** Over the limit the alert comes before the copy to the dead-letter queue: when the alert handler
    throws, the event is counted as dropped and is neither stored nor kept nor announced. *)
Theorem alert_throw_loses_event i e w h :
  max_processing_ms_ (rt w) < elapsed_ms i -> alert_handler_ (rt w) = Some h ->
  (forall a seen, (Handlers.onAlert h a seen).1 = true) ->
  exists w', finish i e w = (Throw "alert handler", w') /\ dropped name w' = add64 (dropped name w) 1 /\
    storage_ w' = storage_ w /\ dlq w' = dlq w /\ observed w' = observed w.
Proof.
  intros Hms Hh Hthrow. unfold finish. mrun. rewrite (proj2 (Z.ltb_lt _ _)) by done. mrun.
  set (w1 := set_metrics (S := S) name (add_dropped 1) w). set (msg := ("SLA breach: " +:+ _)%string).
  pose proof (alike_alert Handlers.WARNING msg i e w1) as (_ & Hd & Hq & _ & Hs & _ & Ho & _). revert Hd Hq Hs Ho.
  unfold emitAlert. change (alert_handler_ (rt w1)) with (alert_handler_ (rt w)). rewrite Hh.
  match goal with |- context [Handlers.onAlert h ?a ?s] => specialize (Hthrow a s); destruct (Handlers.onAlert h a s) as [t seen] end.
  cbn [fst] in Hthrow. subst t. intros Hd Hq Hs Ho. eexists. split; [done|]. split_and!; [|done..].
  cbn [snd] in Hd. rewrite Hd. unfold dropped, w1. by rewrite metrics_of_set.
Qed.

(** C28: a [process] that returns either delivers the event (stored, announced as processed and
    counted, the dead-letter queue untouched) or gives it up (counted as dropped, copied to the
    dead-letter queue, announced as dropped, the storage untouched): never both and never neither.
    An event whose handling took longer than the limit is given up although it was also counted
    as processed; every other event is in one counter. *)
Theorem realtime_disposition i e w w' :
  process i e w = (Ret tt, w') ->
  (delivered i e w w' /\ elapsed_ms i <= max_processing_ms_ (rt w)) \/
  (exists reason, given_up false reason e w w') \/
  (given_up true "sla_breach" e w w' /\ max_processing_ms_ (rt w) < elapsed_ms i).
Proof.
  assert (Hfin : forall w1, alike w w1 ->
    finish i e (set_metrics name (add_processed 1) w1) = (Ret tt, w') ->
    (delivered i e w w' /\ elapsed_ms i <= max_processing_ms_ (rt w)) \/
    (given_up true "sla_breach" e w w' /\ max_processing_ms_ (rt w) < elapsed_ms i)).
  { intros w1 Ha Hf. apply finish_spec in Hf. pose proof Ha as (_ & _ & _ & _ & _ & _ & _ & Hrt).
    rewrite Hrt in Hf. destruct (Z.ltb_spec (max_processing_ms_ (rt w)) (elapsed_ms i)).
    - right. split; [by eapply given_up_alike|done].
    - left. split; [by eapply delivered_alike|done]. }
  assert (Hdrop : forall reason, drop_event others name reason e (set_metrics name (fun m => m) w) = (Ret tt, w') ->
    exists reason, given_up false reason e w w').
  { intros reason Hd. exists reason. eapply given_up_alike; [apply alike_lookup|].
    by apply drop_event_given_up. }
  unfold process. mrun.
  destruct (Handlers.validate _ e) as [v| |]; [|done..]. mrun. destruct (Handlers.valid v); cbn [negb].
  2: { intros Hd. right. left. by eapply Hdrop. }
  mrun. destruct (Handlers.checkRules _ e) as [r| |]; [|done..]. mrun. destruct (Handlers.valid r); cbn [negb].
  2: { intros Hd. right. left. by eapply Hdrop. }
  mrun. destruct (Handlers.handle _ e) as [h| |]; [|done..]. mrun.
  destruct (Handlers.r_outcome h).
  - mrun. intros Hf. destruct (Hfin _ (alike_lookup w) Hf); tauto.
  - intros Hd. right. left. by eapply Hdrop.
  - mrun. set (w1 := set_metrics (S := S) name _ w).
    pose proof (alike_alert (Handlers.r_alert_level h) (Handlers.r_message h) i e w1) as Ha.
    destruct (emitAlert (Handlers.r_alert_level h) (Handlers.r_message h) i e w1) as [[[]| |] w2]; [|done..].
    mrun. intros Hf. destruct (Hfin w2 (alike_trans _ _ _ (alike_lookup w) Ha) Hf); tauto.
  - intros Hd. right. left. by eapply Hdrop.
Qed.

(** ** The account of a processor that always returns *)

(** An alert handler that does not throw. *)
Definition quiet w : Prop :=
  forall h a seen, alert_handler_ (rt w) = Some h -> (Handlers.onAlert h a seen).1 = false.

Lemma emitAlert_quiet level message i e w :
  quiet w -> exists seen, emitAlert level message i e w = (Ret tt, with_alerts seen w).
Proof.
  intros Hq. unfold emitAlert. destruct (alert_handler_ (rt w)) as [h|] eqn:Eh.
  - specialize (Hq h (Handlers.mkAlert level message (topic e) (id (header e)) (alert_ns i) (body e)) (alerts w) Eh).
    destruct (Handlers.onAlert h _ _) as [threw seen]. cbn in Hq. subst threw. by exists seen.
  - exists (alerts w). by destruct w.
Qed.

(** What [process] does with an event: the reason it is given up for, if it is, and whether it
    was counted as processed. *)
Definition fate (limit : Z) (i : Inputs) (e : Event) : outcome (bool * option string) :=
  let handler := Handlers.getOrDefault (topic e) reg in
  v ← Handlers.validate handler e;
  if negb (Handlers.valid v) then Ret (false, Some (Handlers.error v)) else
  r ← Handlers.checkRules handler e;
  if negb (Handlers.valid r) then Ret (false, Some (Handlers.error r)) else
  result ← Handlers.handle handler e;
  match Handlers.r_outcome result with
  | Handlers.FAIL | Handlers.DROP => Ret (false, Some (Handlers.r_message result))
  | Handlers.ALERT | Handlers.SUCCESS =>
      Ret (true, if limit <? elapsed_ms i then Some "sla_breach"%string else None)
  end.

(** The members a call leaves as they are. *)
Definition members w := (rt w, has_dlq w).

Lemma members_process i e : leaves members (process i e).
Proof.
  assert (Hal : forall l m, leaves members (emitAlert l m i e)).
  { intros l m w. pose proof (alike_alert l m i e w) as (_ & _ & _ & Hh & _ & _ & _ & Hr).
    unfold members. by rewrite Hh, Hr. }
  assert (Hst : forall ok, leaves members (store ok e)).
  { intros ok w. unfold store. destruct (storage_ w); [|done]. by destruct (StorageEngine.storeEvent ok e s). }
  assert (Hto : leaves members (touch name i)).
  { intros w. by destruct (touch_rest name i w) as [b ->]. }
  assert (Hd : leaves members (push_dlq e)).
  { apply leaves_update. intros w. unfold members. by destruct (has_dlq w) eqn:E; cbn; rewrite ?E. }
  unfold process, finish, drop_event. solve_leaves.
Qed.

Lemma finish_returns i e w :
  quiet w -> (forall s, storage_ w = Some s -> (StorageEngine.storeEvent (accepted i 0) e s).1 = Ret tt) ->
  (finish i e w).1 = Ret tt.
Proof.
  intros Hq Hs. unfold finish. mrun. destruct (max_processing_ms_ (rt w) <? elapsed_ms i).
  - mrun. destruct (emitAlert_quiet Handlers.WARNING
      ("SLA breach: " +:+ pretty (elapsed_ms i) +:+ "ms > " +:+ pretty (max_processing_ms_ (rt w)) +:+ "ms")
      i e (set_metrics name (add_dropped 1) w)) as [seen ->]; [exact Hq|]. by mrun.
  - destruct (touch_rest name i w) as [b Hb]. mrun. rewrite Hb. mrun. unfold store.
    change (storage_ (with_bw b w)) with (storage_ w). destruct (storage_ w) as [s|]; [|by mrun].
    specialize (Hs s eq_refl). destruct (StorageEngine.storeEvent _ e s) as [o s']. cbn in Hs. subst o. by mrun.
Qed.

(** With a handler that answers, an alert handler that does not throw and a storage that accepts,
    [process] returns and the event meets its fate. *)
Lemma process_fate i e c reason w :
  quiet w -> (forall s, storage_ w = Some s -> (StorageEngine.storeEvent (accepted i 0) e s).1 = Ret tt) ->
  fate (max_processing_ms_ (rt w)) i e = Ret (c, reason) ->
  exists w', process i e w = (Ret tt, w') /\ members w' = members w /\
    match reason with
    | None => c = true /\ delivered i e w w'
    | Some r => given_up c r e w w'
    end.
Proof.
  intros Hq Hs Hf.
  enough (exists w', process i e w = (Ret tt, w') /\
    match reason with None => c = true /\ delivered i e w w' | Some r => given_up c r e w w' end) as (w' & Hw' & Hr).
  { exists w'. split; [done|]. split; [|done]. pose proof (members_process i e w) as Hm. by rewrite Hw' in Hm. }
  assert (Hdrop : forall r, exists w', drop_event others name r e (set_metrics name (fun m => m) w) = (Ret tt, w') /\
                            given_up false r e w w').
  { intros r. destruct (drop_event_spec others name r e (set_metrics name (fun m => m) w)) as (w' & Hw' & _).
    exists w'. split; [done|]. eapply given_up_alike; [apply alike_lookup|]. by apply drop_event_given_up. }
  assert (Hfin : forall w1, alike w w1 -> exists w', finish i e (set_metrics name (add_processed 1) w1) = (Ret tt, w') /\
    match (if max_processing_ms_ (rt w) <? elapsed_ms i then Some "sla_breach"%string else None) with
    | None => true = true /\ delivered i e w w' | Some r => given_up true r e w w' end).
  { intros w1 Ha. pose proof Ha as (_ & _ & _ & _ & Hst & _ & _ & Hrt).
    pose proof (finish_returns i e (set_metrics name (add_processed 1) w1)) as Hr.
    pose proof (finish_spec i e w1) as Hspec.
    destruct (finish i e (set_metrics name (add_processed 1) w1)) as [o w'].
    assert (o = Ret tt) as ->.
    { apply Hr; [unfold quiet; cbn; by rewrite Hrt|cbn; by rewrite Hst]. }
    exists w'. split; [done|]. specialize (Hspec w' eq_refl). rewrite Hrt in Hspec.
    destruct (max_processing_ms_ (rt w) <? elapsed_ms i); [by eapply given_up_alike|].
    split; [done|]. by eapply delivered_alike. }
  unfold fate in Hf. unfold process. mrun.
  destruct (Handlers.validate _ e) as [v| |]; [|done..]. cbn [mbind outcome_bind] in Hf. mrun.
  destruct (Handlers.valid v); cbn [negb] in *; [|injection Hf as <- <-; apply Hdrop].
  destruct (Handlers.checkRules _ e) as [r| |]; [|done..]. cbn [mbind outcome_bind] in Hf. mrun.
  destruct (Handlers.valid r); cbn [negb] in *; [|injection Hf as <- <-; apply Hdrop].
  destruct (Handlers.handle _ e) as [h| |]; [|done..]. cbn [mbind outcome_bind] in Hf. mrun.
  destruct (Handlers.r_outcome h); injection Hf as <- <-.
  - mrun. apply Hfin, alike_lookup.
  - apply Hdrop.
  - mrun. set (w1 := set_metrics (S := S) name _ w).
    pose proof (alike_alert (Handlers.r_alert_level h) (Handlers.r_message h) i e w1) as Ha.
    destruct (emitAlert_quiet (Handlers.r_alert_level h) (Handlers.r_message h) i e w1 Hq) as [sn Hsn].
    rewrite Hsn in Ha |- *. mrun. eapply Hfin, alike_trans; [apply alike_lookup|done].
  - apply Hdrop.
Qed.

(** ** The account the processor keeps *)

(** The events stored, the events given up, and how many were counted as processed. *)
Record Account := mkAccount { stored : list Event; abandoned : list Event; counted : Z }.

Definition account_step (limit : Z) (a : Account) (call : Inputs * Event) : Account :=
  match fate limit call.1 call.2 with
  | Ret (c, None) => mkAccount (stored a ++ [call.2]) (abandoned a) (counted a + 1)
  | Ret (c, Some _) =>
      mkAccount (stored a) (abandoned a ++ [call.2]) (if (c : bool) then counted a + 1 else counted a)
  | _ => a
  end.

Definition account (limit : Z) (calls : list (Inputs * Event)) : Account :=
  fold_left (account_step limit) calls (mkAccount [] [] 0).

(** Accepted events handled in time are all stored. *)
Lemma account_all limit calls a :
  Forall (fun c => fate limit c.1 c.2 = Ret (true, None)) calls ->
  stored (fold_left (account_step limit) calls a) = stored a ++ map snd calls /\
  abandoned (fold_left (account_step limit) calls a) = abandoned a.
Proof.
  intros Hf. revert a. induction Hf as [|[i e] calls Hf Hfs IH]; intros a; [by rewrite app_nil_r|].
  cbn [fold_left map snd]. destruct (IH (account_step limit a (i, e))) as [-> ->].
  unfold account_step. cbn [fst snd] in *. rewrite Hf. cbn [stored abandoned]. by rewrite <- app_assoc.
Qed.

(** The system accepts the write and the handler answers. *)
Definition responds (limit : Z) (call : Inputs * Event) : Prop :=
  accepted call.1 0 = true /\ exists f, fate limit call.1 call.2 = Ret f.

Record accounts (old : list byte) (limit : Z) (a : Account) w : Prop := {
  a_quiet : quiet w;
  a_limit : max_processing_ms_ (rt w) = limit;
  a_log : exists s, storage_ w = Some s /\ StorageEngine.log_ok old (stored a) s;
  a_has_dlq : has_dlq w = true;
  a_dlq : DeadLetterQueue.stored_events_ (dlq w) = DeadLetterQueue.lastn 1000 (abandoned a);
  a_processed : processed name w = wrap 64 (counted a);
  a_dropped : dropped name w = wrap 64 (zlen (abandoned a))
}.

Lemma accounts_step old limit a i e w :
  accounts old limit a w -> responds limit (i, e) ->
  exists w', process i e w = (Ret tt, w') /\ accounts old limit (account_step limit a (i, e)) w'.
Proof.
  intros [Hq Hl (s & Hs & Hlog) Hh Hd Hp Hdr] [Ha [[c reason] Hf]]. cbn [fst snd] in *.
  destruct (StorageEngine.storeEvent_ok old _ e s Hlog) as [Hok Hlog'].
  destruct (process_fate i e c reason w Hq) as (w' & Hw' & Hm & Hr).
  { intros s0 Hs0. rewrite Ha. rewrite Hs in Hs0. by injection Hs0 as <-. }
  { by rewrite Hl. }
  exists w'. split; [done|]. injection Hm as Hrt Hhd.
  assert (Hq' : quiet w') by (unfold quiet; by rewrite Hrt).
  assert (Hwrap : forall n, add64 (wrap 64 n) 1 = wrap 64 (n + 1)) by (intros n; unfold add64; by rewrite wrap_add_l).
  unfold account_step. cbn [fst snd]. rewrite Hf. destruct reason as [r|].
  - destruct Hr as (Hp' & Hd' & Hq2 & Hs' & _).
    split; cbn [stored abandoned counted]; rewrite ?Hrt, ?Hhd; try done.
    + exists s. by rewrite Hs'.
    + rewrite Hq2, Hh. cbn. by rewrite Hd, DeadLetterQueue.store_one_lastn.
    + rewrite Hp', Hp. destruct c; [apply Hwrap|done].
    + rewrite Hd', Hdr, Hwrap. by autorewrite with zlen.
  - destruct Hr as (_ & Hp' & Hd' & Hq2 & Hs' & _). rewrite Hs in Hs'. cbn in Hs'. rewrite Ha in Hs'.
    split; cbn [stored abandoned counted]; rewrite ?Hrt, ?Hhd; try done.
    + by eexists.
    + by rewrite Hq2.
    + rewrite Hp', Hp. apply Hwrap.
    + by rewrite Hd', Hdr.
Qed.

End Realtime.
End Realtime.

(** A world with nothing in it yet, on the given storage. *)
Definition empty_pworld (s : option StorageEngine.Storage) : PWorld unit :=
  mkPWorld unit
    (EventBus.mkWorld ∅ EventBus.new_bus
       (MetricRegistry.mk ∅ (MetricRegistry.mkThresholds 0 (MetricRegistry.of_uint64 0) 0 0 (MetricRegistry.of_uint64 0)))
       MetricRegistry.new_buffer)
    s true Output.new_stream tt [] (Realtime.create None)
    (mkTransactionalState false 3 (Dedup.new_table 4) 0 LatencyHistogram.create)
    (mkBatchState false true 5000000000 ∅).

Definition calm (ns : Z) : Inputs := mkInputs ns ns ns (ns / 1000000) ns ns ns (ns / 1000000) (fun _ => true).

Definition sample_event (n : Z) (t : string) (b : list byte) : Event :=
  new_event (mkEventHeader TCP LOW n 1 (zlen b) (Z.of_nat (String.length t)) 0) t b ∅.

Definition handlers0 : Handlers.registry := Handlers.registerDefaultHandlers [].
Definition audit_event : Event := sample_event 7 "audit" [Byte.x01].
Definition open_log : StorageEngine.Storage :=
  StorageEngine.mkStorage "dlq_log.txt" (StorageEngine.mkFile true true None [] []) StorageEngine.closed_file 0 0 "" 0.

Lemma returned {A} (p : outcome unit * A) : p.1 = Ret tt -> p = (Ret tt, p.2).
Proof. destruct p. cbn. by intros ->. Qed.

Lemma realtime_disposition_witness :
  exists w', Realtime.process (Handlers.registerDefaultHandlers []) (fun s => s) (calm 5000000)
    (sample_event 1 "audit" []) (empty_pworld None) = (Ret tt, w') /\
    exists reason, Realtime.given_up (fun s => s) false reason (sample_event 1 "audit" []) (empty_pworld None) w'.
Proof.
  pose proof (returned (Realtime.process (Handlers.registerDefaultHandlers []) (fun s => s) (calm 5000000)
    (sample_event 1 "audit" []) (empty_pworld None)) ltac:(vm_compute; reflexivity)) as Hr.
  refine (ex_intro _ _ (conj Hr _)).
  destruct (Realtime.realtime_disposition (Handlers.registerDefaultHandlers []) (fun s => s) (calm 5000000)
    (sample_event 1 "audit" []) (empty_pworld None) _ Hr) as [[H _]|[H|[_ H]]].
  - destruct H as (H & _). vm_compute in H. discriminate H.
  - exact H.
  - vm_compute in H. discriminate H.
Defined.
