(* ===== verification/Transactional.v ===== *)
(** * The transactional processor: [src/core/processor/transactional.cpp]

    Module [Transactional]: the pause switch, the deduplication with its periodic
    cleanup, the retries and the commit.  One thread runs [process] (the manager's),
    so the compare-and-swap on the time of the last cleanup succeeds.  A handler may
    answer differently on each attempt: the argument [handle_at]. *)

From S2P Require Import Prelude Event Dlq Metrics Histogram EventBus Storage Handlers Output Dedup Processor.
From Stdlib Require Import Sorting.Sorted.

Module Transactional.
Section Transactional.
Context {S : Type} (reg : Handlers.registry)
  (handle_at : Handlers.EventHandler -> Z -> Event -> outcome Handlers.HandleResult)
  (others : Output.Stream (S := S) -> Output.Stream (S := S)).
Implicit Types w : PWorld S.

Definition name : string := "TransactionalProcessor".

Definition create : TransactionalState :=
  mkTransactionalState false 3 (Dedup.new_table (Z.to_nat Dedup.DEFAULT_BUCKETS)) 0 LatencyHistogram.create.

Definition set_paused (b : bool) (t : TransactionalState) : TransactionalState :=
  mkTransactionalState b (max_retries_ t) (dedup_table_ t) (last_cleanup_ms_ t) (latency_hist_ t).
Definition pauseProcessing : M S unit := update (fun w => with_txn (set_paused true (txn w)) w).
Definition resumeProcessing : M S unit := update (fun w => with_txn (set_paused false (txn w)) w).
Definition setMaxRetries (n : Z) (t : TransactionalState) : TransactionalState :=
  mkTransactionalState (paused_ t) n (dedup_table_ t) (last_cleanup_ms_ t) (latency_hist_ t).

(** Only logs. *)
Definition start : M S unit := mret tt.
Definition stop : M S unit := flush_storage.

Definition set_dedup (d : Dedup.buckets) (last : Z) (t : TransactionalState) : TransactionalState :=
  mkTransactionalState (paused_ t) (max_retries_ t) d last (latency_hist_ t).
Definition record_latency (latency : Z) (t : TransactionalState) : TransactionalState :=
  mkTransactionalState (paused_ t) (max_retries_ t) (dedup_table_ t) (last_cleanup_ms_ t)
    (LatencyHistogram.record latency (latency_hist_ t)).

(** [last == 0 || now_ms - last > 10000], in unsigned 64-bit arithmetic. *)
Definition cleanup_due (now_ms last : Z) : bool := (last =? 0) || (10000 <? sub64 now_ms last).

Definition cleanup_if_due (i : Inputs) : M S unit := update (fun w =>
  let t := txn w in
  if cleanup_due (wall_ms i) (last_cleanup_ms_ t) then
    with_txn (set_dedup (Dedup.cleanup (wall_ms i) (dedup_table_ t)) (wall_ms i) t) w
  else w).

(** The retry loop; [remaining] is [max_retries_ - attempt + 1]. *)
Fixpoint retry (h : Handlers.EventHandler) (e : Event) (remaining : nat) (attempt : Z) : outcome bool :=
  match remaining with
  | O => Ret false
  | Datatypes.S n =>
      result ← handle_at h attempt e;
      if bool_decide (Handlers.r_outcome result = Handlers.SUCCESS)
         || bool_decide (Handlers.r_outcome result = Handlers.ALERT)
      then Ret true else retry h e n (attempt + 1)
  end.

(** The branch of a handled event: the id is remembered before the event is stored. *)
Definition commit (i : Inputs) (e : Event) : M S unit :=
  update (fun w => with_txn (set_dedup (Dedup.insert (id (header e)) (wall_ms i) (dedup_table_ (txn w))).2
                               (last_cleanup_ms_ (txn w)) (txn w)) w);;
  count_processed name;;
  store (accepted i 0) e;;
  update (fun w => if 0 <? dequeue_time_ns e
                   then with_txn (record_latency (sub64 (latency_now_ns i) (dequeue_time_ns e)) (txn w)) w
                   else w);;
  touch name i;;
  notify_processed others name e.

Definition process (i : Inputs) (e : Event) : M S unit :=
  update (set_metrics name (fun m => m));;
  w ← get;
  if paused_ (txn w) then drop_event others name "processor_paused" e else
  if Dedup.is_duplicate (id (header e)) (wall_ms i) (dedup_table_ (txn w)) then mret tt else
  cleanup_if_due i;;
  let handler := Handlers.getOrDefault (topic e) reg in
  v ← lift (Handlers.validate handler e);
  if negb (Handlers.valid v) then drop_event others name (Handlers.error v) e else
  r ← lift (Handlers.checkRules handler e);
  if negb (Handlers.valid r) then drop_event others name (Handlers.error r) e else
  success ← lift (retry handler e (Z.to_nat (max_retries_ (txn w))) 1);
  if (success : bool) then commit i e else drop_event others name "max_retries_exceeded" e.

(** ** The ledger the processor keeps *)

(** What the handler decides on an event. *)
Definition verdict (max_retries : Z) (e : Event) : outcome bool :=
  let handler := Handlers.getOrDefault (topic e) reg in
  v ← Handlers.validate handler e;
  if negb (Handlers.valid v) then Ret false else
  r ← Handlers.checkRules handler e;
  if negb (Handlers.valid r) then Ret false else
  retry handler e (Z.to_nat max_retries) 1.

(** The ids remembered with the time they were, the time of the last cleanup, the events
    stored with their times, and the events given up. *)
Record Ledger := mkLedger {
  seen : gmap Z Z; last_cleanup : Z; stored : list (Z * Event); dead : list Event
}.

Definition ledger_step (max_retries : Z) (l : Ledger) (call : Inputs * Event) : Ledger :=
  let now := wall_ms call.1 in
  let e := call.2 in
  if decide (is_Some (seen l !! id (header e))) then l else
  let '(m, last) := if cleanup_due now (last_cleanup l)
                    then (filter (Dedup.fresh_enough now) (seen l), now) else (seen l, last_cleanup l) in
  match verdict max_retries e with
  | Ret true => mkLedger (<[id (header e) := now]> m) last (stored l ++ [(now, e)]) (dead l)
  | _ => mkLedger m last (stored l) (dead l ++ [e])
  end.

Definition ledger (max_retries : Z) (calls : list (Inputs * Event)) : Ledger :=
  fold_left (ledger_step max_retries) calls (mkLedger ∅ 0 [] []).

(** Accepted events with ids not met before are all stored. *)
Lemma ledger_all mr calls l :
  Forall (fun c => verdict mr c.2 = Ret true) calls -> NoDup (map (fun c => id (header c.2)) calls) ->
  Forall (fun c => seen l !! id (header c.2) = None) calls ->
  map snd (stored (fold_left (ledger_step mr) calls l)) = map snd (stored l) ++ map snd calls /\
  dead (fold_left (ledger_step mr) calls l) = dead l.
Proof.
  intros Hv. revert l. induction Hv as [|[i e] calls Hv Hvs IH]; intros l Hnd Hnew; [by rewrite app_nil_r|].
  apply NoDup_cons in Hnd as [Hid Hnd]. apply Forall_cons in Hnew as [Hn Hnew]. cbn [fold_left map fst snd] in *.
  unfold ledger_step at 2 4. cbn [fst snd]. rewrite Hn, decide_False by (by intros [? ?]).
  assert (Hm : forall m : gmap Z Z, (forall k, seen l !! k = None -> m !! k = None) ->
    Forall (fun c : Inputs * Event => <[id (header e) := wall_ms i]> m !! id (header c.2) = None) calls).
  { intros m Hm. rewrite Forall_forall in *. intros c Hc. rewrite lookup_insert_ne; [by apply Hm, Hnew|].
    intros He. apply Hid. rewrite He. apply list_elem_of_In, in_map_iff. exists c. by rewrite <- list_elem_of_In. }
  destruct (cleanup_due (wall_ms i) (last_cleanup l)); rewrite Hv; (edestruct IH as [-> ->]; [done|cbn [seen]|]).
  all: try (cbn [stored dead]; by rewrite map_app, <- app_assoc).
  - apply Hm. intros k Hk. apply map_lookup_filter_None. by left.
  - by apply Hm.
Qed.

(** The system accepts the write, and the handler answers on every attempt made. *)
Definition responds (max_retries : Z) (call : Inputs * Event) : Prop :=
  accepted call.1 0 = true /\ exists b, verdict max_retries call.2 = Ret b.

(** A processor of the given retries whose table remembers [m], on the log [old]. *)
Record keeps (old : list byte) (max_retries : Z) (l : Ledger) w : Prop := {
  k_dedup : Dedup.represents (dedup_table_ (txn w)) (seen l);
  k_last : last_cleanup_ms_ (txn w) = last_cleanup l;
  k_running : paused_ (txn w) = false;
  k_retries : max_retries_ (txn w) = max_retries;
  k_log : exists s, storage_ w = Some s /\ StorageEngine.log_ok old (map snd (stored l)) s;
  k_has_dlq : has_dlq w = true;
  k_dlq : DeadLetterQueue.stored_events_ (dlq w) = DeadLetterQueue.lastn 1000 (dead l);
  k_processed : processed name w = wrap 64 (zlen (stored l));
  k_dropped : dropped name w = wrap 64 (zlen (dead l))
}.

Lemma wrap_count (n : Z) : add64 (wrap 64 n) 1 = wrap 64 (n + 1).
Proof. unfold add64. by rewrite wrap_add_l. Qed.

(** The first lookup of the metrics changes nothing the ledger sees. *)
Lemma keeps_lookup old mr l w : keeps old mr l w -> keeps old mr l (set_metrics name (fun m => m) w).
Proof.
  intros [? ? ? ? ? ? ? Hp Hd]. split; try done; unfold processed, dropped in *; by rewrite metrics_of_set.
Qed.

Lemma keeps_cleanup old mr l i w :
  keeps old mr l w ->
  let '(m, last) := if cleanup_due (wall_ms i) (last_cleanup l)
                    then (filter (Dedup.fresh_enough (wall_ms i)) (seen l), wall_ms i)
                    else (seen l, last_cleanup l) in
  exists w', cleanup_if_due i w = (Ret tt, w') /\ keeps old mr (mkLedger m last (stored l) (dead l)) w'.
Proof.
  intros [Hd Hl ? ? ? ? ? ? ?].
  assert (Hc : cleanup_if_due i w = (Ret tt,
    if cleanup_due (wall_ms i) (last_cleanup l)
    then with_txn (set_dedup (Dedup.cleanup (wall_ms i) (dedup_table_ (txn w))) (wall_ms i) (txn w)) w else w)).
  { by rewrite <- Hl. }
  destruct (cleanup_due (wall_ms i) (last_cleanup l)); (eexists; split; [exact Hc|]); split; try done.
  by apply Dedup.cleanup_represents.
Qed.

Lemma keeps_drop old mr l reason e w :
  keeps old mr l w ->
  exists w', drop_event others name reason e w = (Ret tt, w') /\
    keeps old mr (mkLedger (seen l) (last_cleanup l) (stored l) (dead l ++ [e])) w'.
Proof.
  intros [Hd Hl Hp Hr Hs Hh Hq Hpr Hdr].
  destruct (drop_event_spec others name reason e w)
    as (w' & Hw & Hp' & Hd' & Hq' & Hs' & _ & Hh' & _ & Ht' & _ & _).
  exists w'. split; [done|]. rewrite Hh in Hq', Hh'. split; cbn [seen last_cleanup stored dead]; rewrite ?Ht', ?Hs'; try done.
  - rewrite Hq'. cbn. by rewrite Hq, DeadLetterQueue.store_one_lastn.
  - by rewrite Hp'.
  - rewrite Hd', Hdr, wrap_count. by autorewrite with zlen.
Qed.

Lemma keeps_commit old mr l i e w :
  keeps old mr l w -> accepted i 0 = true -> seen l !! id (header e) = None ->
  exists w', commit i e w = (Ret tt, w') /\
    keeps old mr (mkLedger (<[id (header e) := wall_ms i]> (seen l)) (last_cleanup l)
                    (stored l ++ [(wall_ms i, e)]) (dead l)) w'.
Proof.
  intros [Hd Hl Hp Hr (s & Hs & Hlog) Hh Hq Hpr Hdr] Ha Hn. unfold commit. mrun. unfold store at 1.
  cbn [storage_ with_txn with_bw set_metrics]. rewrite Hs, Ha.
  destruct (StorageEngine.storeEvent_ok old _ e s Hlog) as [Hok Hlog'].
  destruct (StorageEngine.storeEvent true e s) as [o s'] eqn:Est. cbn [fst snd] in *. subst o.
  mrun. set (w1 := if 0 <? dequeue_time_ns e then _ else _).
  assert (Hw1 : exists t, txn w1 = t /\ paused_ t = false /\ max_retries_ t = mr /\ last_cleanup_ms_ t = last_cleanup l /\
            dedup_table_ t = (Dedup.insert (id (header e)) (wall_ms i) (dedup_table_ (txn w))).2 /\
            storage_ w1 = Some s' /\ has_dlq w1 = true /\ dlq w1 = dlq w /\
            metrics_of name w1 = add_processed 1 (metrics_of name w)).
  { unfold w1. eexists. split; [done|].
    destruct (0 <? dequeue_time_ns e); cbn -[metrics_of Dedup.insert]; (split_and!; [done..|]);
      unfold metrics_of; cbn; by rewrite MetricRegistry.update_metrics_lookup. }
  clearbody w1. destruct Hw1 as (t & Ht & H1 & H2 & H3 & H4 & H5 & H6 & H7 & H8).
  pose proof (touch_metrics name i w1) as (Hp' & Hd' & Hb & _).
  destruct (touch_rest name i w1) as [b Hto]. rewrite Hto in Hp', Hd', Hb |- *. cbn [snd] in *. mrun.
  unfold notify_processed. cbn [update].
  eexists. split; [done|]. unfold processed, dropped in *. rewrite H8 in Hp', Hd'.
  destruct (Dedup.insert_represents (dedup_table_ (txn w)) (seen l) (id (header e)) (wall_ms i) Hd) as [_ Hrep].
  rewrite decide_False in Hrep by (rewrite Hn; by intros [? ?]).
  split; cbn [seen last_cleanup stored dead with_stream with_bw txn storage_ has_dlq]; rewrite ?Ht; try done.
  - by rewrite H4.
  - exists s'. split; [done|]. by rewrite map_app.
  - unfold dlq in *. cbn in Hb |- *. by rewrite Hb, H7.
  - unfold processed. etransitivity; [exact Hp'|]. cbn. rewrite Hpr, wrap_count. by autorewrite with zlen.
  - unfold dropped. etransitivity; [exact Hd'|]. exact Hdr.
Qed.

Lemma txn_process_step old mr l i e w :
  keeps old mr l w -> responds mr (i, e) ->
  exists w', process i e w = (Ret tt, w') /\ keeps old mr (ledger_step mr l (i, e)) w'.
Proof.
  intros Hk [Ha [b Hv]]. cbn [fst snd] in *. unfold process, ledger_step. mrun. cbn [fst snd].
  apply keeps_lookup in Hk. set (w1 := set_metrics (S := S) name _ w) in *. clearbody w1.
  rewrite (k_running _ _ _ _ Hk), (k_retries _ _ _ _ Hk).
  assert (Hdup : Dedup.is_duplicate (id (header e)) (wall_ms i) (dedup_table_ (txn w1)) =
                 bool_decide (is_Some (seen l !! id (header e)))).
  { pose proof (Dedup.dedup_op_represents (Dedup.IsDuplicate (id (header e)) (wall_ms i)) _ _ (k_dedup _ _ _ _ Hk)) as [Ho _].
    by injection Ho. }
  rewrite Hdup. destruct (decide (is_Some (seen l !! id (header e)))) as [Hin|Hnin].
  { rewrite bool_decide_eq_true_2 by done. by exists w1. }
  rewrite bool_decide_eq_false_2 by done.
  pose proof (keeps_cleanup old mr l i w1 Hk) as Hc.
  assert (Hfresh : (if cleanup_due (wall_ms i) (last_cleanup l)
      then (filter (Dedup.fresh_enough (wall_ms i)) (seen l), wall_ms i)
      else (seen l, last_cleanup l)).1 !! id (header e) = None).
  { apply eq_None_not_Some. intros Hs. apply Hnin. destruct (cleanup_due _ _); [|done].
    destruct Hs as [t Hs]. apply map_lookup_filter_Some in Hs as [Hs _]. by exists t. }
  destruct (if cleanup_due (wall_ms i) (last_cleanup l) then _ else _) as [m last].
  destruct Hc as (w2 & Hw2 & Hk2). rewrite bindE, Hw2. cbn [fst] in Hfresh.
  rewrite Hv. unfold verdict in Hv.
  pose proof (fun reason => keeps_drop old mr (mkLedger m last (stored l) (dead l)) reason e w2 Hk2) as Hdrop.
  rewrite bindE. unfold lift at 1.
  destruct (Handlers.validate _ e) as [v| |]; [|done..]. cbn [mbind outcome_bind] in Hv.
  destruct (Handlers.valid v); cbn [negb] in *; [|injection Hv as <-; apply Hdrop].
  rewrite bindE. unfold lift at 1.
  destruct (Handlers.checkRules _ e) as [r| |]; [|done..]. cbn [mbind outcome_bind] in Hv.
  destruct (Handlers.valid r); cbn [negb] in *; [|injection Hv as <-; apply Hdrop].
  rewrite bindE. unfold lift at 1. rewrite Hv. destruct b; [|apply Hdrop].
  apply (keeps_commit old mr (mkLedger m last (stored l) (dead l))); done.
Qed.

Lemma process_all_keeps old mr calls l w :
  Forall (responds mr) calls -> keeps old mr l w ->
  exists w', process_all process calls w = (Ret tt, w') /\ keeps old mr (fold_left (ledger_step mr) calls l) w'.
Proof.
  intros Hc. revert l w. induction Hc as [|[i e] calls Hr Hc IH]; intros l w Hk; [by exists w|].
  destruct (txn_process_step old mr l i e w Hk Hr) as (w1 & Hw1 & Hk1). cbn [process_all fold_left].
  destruct (IH _ _ Hk1) as (w2 & Hw2 & Hk2). exists w2. split; [|done]. by rewrite bindE, Hw1.
Qed.

(** ** At most once per window *)

(** Every event stored is still remembered, with its time or a later one, or is older than
    the window at time [now]. *)
Definition remembered (now : Z) (l : Ledger) : Prop :=
  (forall t e, (t, e) ∈ stored l -> 0 <= t <= now /\
    ((exists t', seen l !! id (header e) = Some t' /\ t <= t') \/ t + Dedup.IDEMPOTENT_WINDOW_MS < now)) /\
  (forall k t, seen l !! k = Some t -> 0 <= t <= now) /\
  (forall l1 t1 e1 l2 t2 e2 l3, stored l = l1 ++ (t1, e1) :: l2 ++ (t2, e2) :: l3 ->
    id (header e1) = id (header e2) -> t1 + Dedup.IDEMPOTENT_WINDOW_MS < t2).

Lemma expired_spec now k t :
  0 <= t <= now -> now <= UINT64_MAX -> ~ Dedup.fresh_enough now (k, t) <-> t + Dedup.IDEMPOTENT_WINDOW_MS < now.
Proof.
  intros Ht Hn. unfold Dedup.fresh_enough, Dedup.expired, Dedup.age_ms. cbn [fst snd Dedup.timestamp_ms].
  rewrite (proj2 (Z.leb_le t now)), sub64_small by lia. unfold Dedup.IDEMPOTENT_WINDOW_MS.
  rewrite not_false_iff_true, Z.ltb_lt. lia.
Qed.

(** The last event of a list that extends another. *)
Lemma pair_in_snoc {A} (l l1 l2 l3 : list A) x y z :
  l ++ [z] = l1 ++ x :: l2 ++ y :: l3 ->
  (exists l3', l = l1 ++ x :: l2 ++ y :: l3') \/ (y = z /\ x ∈ l).
Proof.
  destruct l3 as [|u l3 _] using rev_ind.
  - replace (l1 ++ x :: l2 ++ [y]) with ((l1 ++ x :: l2) ++ [y]) by (by rewrite <- app_assoc).
    intros [-> ->]%app_inj_tail. right. split; [done|]. set_solver.
  - replace (l1 ++ x :: l2 ++ y :: l3 ++ [u]) with ((l1 ++ x :: l2 ++ y :: l3) ++ [u])
      by (by rewrite <- !app_assoc, <- !app_comm_cons, <- app_assoc).
    intros [-> _]%app_inj_tail. left. by exists l3.
Qed.

Lemma remembered_later now now' l : now <= now' -> remembered now l -> remembered now' l.
Proof.
  intros Hle (H1 & H2 & H3). split_and!; [|intros k t Hk; specialize (H2 k t Hk); lia|done].
  intros t e Hin. destruct (H1 t e Hin) as [? [?|?]]; (split; [lia|]); [by left|right; lia].
Qed.

Lemma remembered_cleanup now l :
  now <= UINT64_MAX -> remembered now l ->
  remembered now (mkLedger (filter (Dedup.fresh_enough now) (seen l)) now (stored l) (dead l)).
Proof.
  intros Hn (H1 & H2 & H3). split_and!; cbn [stored seen]; [| |done].
  - intros t e Hin. destruct (H1 t e Hin) as [Ht [(t' & Hs & Hle)|?]]; [|by split; [|right]].
    split; [done|]. pose proof (H2 _ _ Hs) as Ht'.
    destruct (decide (Dedup.fresh_enough now (id (header e), t'))) as [Hf|Hf].
    + left. exists t'. split; [|done]. by apply map_lookup_filter_Some.
    + right. apply expired_spec in Hf; lia.
  - intros k t Hs. apply map_lookup_filter_Some in Hs as [Hs _]. by eapply H2.
Qed.

Lemma remembered_store now l e last :
  0 <= now -> remembered now l -> seen l !! id (header e) = None ->
  remembered now (mkLedger (<[id (header e) := now]> (seen l)) last (stored l ++ [(now, e)]) (dead l)).
Proof.
  intros Hn (H1 & H2 & H3) Hnone. split_and!; cbn [stored seen].
  - intros t e' [Hin|Hin]%elem_of_app.
    + destruct (H1 t e' Hin) as [Ht [(t' & Hs & Hle)|?]]; [|by split; [|right]].
      split; [done|]. left. exists t'. split; [|done]. rewrite lookup_insert_ne; [done|congruence].
    + apply list_elem_of_singleton in Hin as [= -> ->]. split; [lia|]. left. exists now.
      by rewrite lookup_insert_eq.
  - intros k t. rewrite lookup_insert_Some. intros [[_ <-]|[_ Hs]]; [lia|by eapply H2].
  - intros l1 t1 e1 l2 t2 e2 l3 Heq Hid. apply pair_in_snoc in Heq as [[l3' Heq]|[[= -> ->] Hin]].
    + by eapply H3.
    + destruct (H1 t1 e1 Hin) as [_ [(t' & Hs & _)|?]]; [|done]. rewrite Hid in Hs. congruence.
Qed.

Lemma remembered_step mr now l i e :
  remembered now l -> now <= wall_ms i <= UINT64_MAX -> 0 <= now ->
  remembered (wall_ms i) (ledger_step mr l (i, e)).
Proof.
  intros Hr Hle Hn. apply (remembered_later now (wall_ms i)) in Hr; [|lia]. unfold ledger_step. cbn [fst snd].
  case_decide as Hin; [done|].
  assert (Hc : forall m last, (m, last) = (if cleanup_due (wall_ms i) (last_cleanup l)
      then (filter (Dedup.fresh_enough (wall_ms i)) (seen l), wall_ms i) else (seen l, last_cleanup l)) ->
      remembered (wall_ms i) (mkLedger m last (stored l) (dead l)) /\ m !! id (header e) = None).
  { intros m last. destruct (cleanup_due _ _); intros [= -> ->].
    - split; [apply remembered_cleanup; [lia|done]|]. apply eq_None_not_Some. intros [t Hs].
      apply map_lookup_filter_Some in Hs as [Hs _]. apply Hin. by exists t.
    - split; [by destruct Hr as (? & ? & ?); split_and!|]. by apply eq_None_not_Some. }
  destruct (if cleanup_due _ _ then _ else _) as [m last]. destruct (Hc m last eq_refl) as [Hm Hnone].
  destruct (verdict mr e) as [[]| |]; try (destruct Hm as (? & ? & ?); by split_and!).
  by apply (remembered_store (wall_ms i) (mkLedger m last (stored l) (dead l))); [lia|..].
Qed.

Lemma ledger_remembered mr calls now l :
  StronglySorted Z.le (now :: map (fun c => wall_ms c.1) calls) -> 0 <= now ->
  Forall (fun c => wall_ms c.1 <= UINT64_MAX) calls -> remembered now l ->
  exists now', remembered now' (fold_left (ledger_step mr) calls l).
Proof.
  intros Hs Hn Hw. revert now l Hs Hn. induction Hw as [|[i e] calls Hi Hw IH]; intros now l Hs Hn Hr.
  { by exists now. }
  cbn [map fst] in Hs. apply StronglySorted_inv in Hs as [Hs Hall]. inversion Hall as [|? ? Hle _]; subst.
  cbn [fold_left]. apply (IH (wall_ms i)); [done|lia|]. by apply (remembered_step mr now).
Qed.

(** C12: a running processor given any sequence of events on a clock that does not go back, with a
    handler that answers and a storage that accepts, returns on every event, stores the accepted
    events in order, copies the refused ones to the dead-letter queue, counts both exactly, and stores
    no id twice within the idempotency window of one hour. *)
Theorem transactional_once_per_window old n calls s w :
  (0 < n)%nat -> txn w = set_dedup (Dedup.new_table n) 0 (txn w) -> paused_ (txn w) = false ->
  storage_ w = Some s -> StorageEngine.log_ok old [] s ->
  has_dlq w = true -> DeadLetterQueue.stored_events_ (dlq w) = [] ->
  processed name w = 0 -> dropped name w = 0 ->
  Forall (responds (max_retries_ (txn w))) calls ->
  StronglySorted Z.le (0 :: map (fun c => wall_ms c.1) calls) ->
  Forall (fun c => wall_ms c.1 <= UINT64_MAX) calls ->
  let l := ledger (max_retries_ (txn w)) calls in
  exists w' s', process_all process calls w = (Ret tt, w') /\
    storage_ w' = Some s' /\ StorageEngine.log_ok old (map snd (stored l)) s' /\
    DeadLetterQueue.stored_events_ (dlq w') = DeadLetterQueue.lastn 1000 (dead l) /\
    processed name w' = wrap 64 (zlen (stored l)) /\ dropped name w' = wrap 64 (zlen (dead l)) /\
    forall l1 t1 e1 l2 t2 e2 l3, stored l = l1 ++ (t1, e1) :: l2 ++ (t2, e2) :: l3 ->
      id (header e1) = id (header e2) -> t1 + Dedup.IDEMPOTENT_WINDOW_MS < t2.
Proof.
  intros Hn Ht Hp Hs Hlog Hh Hq Hpr Hdr Hr Hsort Hw l.
  assert (Hk : keeps old (max_retries_ (txn w)) (mkLedger ∅ 0 [] []) w).
  { split; try done; [|by rewrite Ht|by exists s]. rewrite Ht. by apply Dedup.new_table_represents. }
  destruct (process_all_keeps old _ calls _ w Hr Hk) as (w' & Hw' & [_ _ _ _ (s' & Hs' & Hlog') _ Hq' Hpr' Hdr']).
  exists w', s'. do 6 (split; [done|]).
  destruct (ledger_remembered (max_retries_ (txn w)) calls 0 (mkLedger ∅ 0 [] []) Hsort ltac:(lia) Hw)
    as (now & _ & _ & H3); [|exact H3].
  split_and!; cbn [stored seen].
  - intros t e Hin. by apply not_elem_of_nil in Hin.
  - intros k t Hk0. by rewrite lookup_empty in Hk0.
  - by intros [|].
Qed.

Lemma insert_then_duplicate k now now' t :
  t <> [] -> Dedup.is_duplicate k now' (Dedup.insert k now t).2 = true.
Proof.
  intros Ht. unfold Dedup.insert, Dedup.is_duplicate. destruct (Dedup.bucket_of t k Ht) as [b Hb]. rewrite Hb.
  destruct (Dedup.in_chain k b) eqn:Ec; cbn [snd]; [by rewrite Hb|].
  assert (Hidx : Dedup.bucket_idx (<[Dedup.bucket_idx t k := Dedup.mkEntry k now :: b]> t) k = Dedup.bucket_idx t k)
    by (unfold Dedup.bucket_idx; by rewrite zlen_insert).
  rewrite Hidx, list_lookup_insert_eq by (by apply Dedup.bucket_idx_lt).
  unfold Dedup.in_chain. cbn. by rewrite Z.eqb_refl.
Qed.

(** An accepted event whose write the storage refuses is lost: [process] throws after the event
    was counted as processed and its id remembered, nothing reaches the dead-letter queue or the
    observers, and submitting it again returns at once as a duplicate, changing none of them. *)
Theorem storage_failure_loses_event i j e s s' what w :
  paused_ (txn w) = false -> dedup_table_ (txn w) <> [] ->
  Dedup.is_duplicate (id (header e)) (wall_ms i) (dedup_table_ (txn w)) = false ->
  verdict (max_retries_ (txn w)) e = Ret true ->
  storage_ w = Some s -> StorageEngine.storeEvent (accepted i 0) e s = (Throw what, s') ->
  let w1 := (process i e w).2 in
  (process i e w).1 = Throw what /\
  processed name w1 = add64 (processed name w) 1 /\ dropped name w1 = dropped name w /\
  dlq w1 = dlq w /\ (stream w1, observed w1) = (stream w, observed w) /\
  process j e w1 = (Ret tt, set_metrics name (fun m => m) w1).
Proof.
  intros Hp Hne Hdup Hv Hs Hst.
  assert (Hrun : exists t, paused_ t = false /\ dedup_table_ t <> [] /\
    process i e w = (Throw what, with_storage (Some s') (set_metrics name (add_processed 1)
      (with_txn (set_dedup (Dedup.insert (id (header e)) (wall_ms i) (dedup_table_ t)).2 (last_cleanup_ms_ t) t)
         (set_metrics name (fun m => m) w))))).
  { unfold process. mrun. cbn [txn set_metrics with_bw]. rewrite Hp, Hdup.
    exists (if cleanup_due (wall_ms i) (last_cleanup_ms_ (txn w))
            then set_dedup (Dedup.cleanup (wall_ms i) (dedup_table_ (txn w))) (wall_ms i) (txn w) else txn w).
    split; [by destruct (cleanup_due _ _)|]. split.
    { destruct (cleanup_due _ _); [|done]. cbn. rewrite Dedup.cleanup_filter. by destruct (dedup_table_ (txn w)). }
    unfold verdict in Hv. rewrite bindE. unfold cleanup_if_due at 1. cbn [update txn set_metrics with_bw]. mrun.
    destruct (Handlers.validate _ e) as [v| |]; [|done..]. cbn [mbind outcome_bind] in Hv.
    destruct (Handlers.valid v); cbn [negb] in *; [|done]. mrun.
    destruct (Handlers.checkRules _ e) as [r| |]; [|done..]. cbn [mbind outcome_bind] in Hv.
    destruct (Handlers.valid r); cbn [negb] in *; [|done]. mrun. rewrite Hv.
    unfold commit. mrun. unfold store.
    destruct (cleanup_due _ _); cbn -[StorageEngine.storeEvent Dedup.insert set_metrics metrics_of];
      cbn [storage_ set_metrics with_bw with_txn]; rewrite Hs, Hst; done. }
  destruct Hrun as (t & Ht & Htn & Hrun). rewrite Hrun. cbn [fst snd].
  split; [done|]. split; [|split; [|split; [done|split; [done|]]]].
  1,2: unfold processed, dropped, metrics_of; cbn; rewrite MetricRegistry.update_metrics_lookup; cbn;
       by rewrite MetricRegistry.update_metrics_lookup.
  unfold process. mrun. cbn [txn set_metrics with_bw with_storage with_txn set_dedup paused_ dedup_table_].
  rewrite Ht, insert_then_duplicate by done. done.
Qed.

End Transactional.
End Transactional.

(** ** Concrete runs *)

Definition plain_handle (h : Handlers.EventHandler) (attempt : Z) (e : Event) : outcome Handlers.HandleResult :=
  Handlers.handle h e.

(** The same event submitted twice is stored once. *)
Lemma transactional_once_per_window_witness :
  Forall (Transactional.responds handlers0 plain_handle 3)
    [(calm 5000000, audit_event); (calm 9000000, audit_event)] /\
  exists w' s', process_all (Transactional.process handlers0 plain_handle (fun st => st))
      [(calm 5000000, audit_event); (calm 9000000, audit_event)] (empty_pworld (Some open_log)) = (Ret tt, w') /\
    storage_ w' = Some s' /\ StorageEngine.log_ok [] [audit_event] s'.
Proof.
  assert (Hr : Forall (Transactional.responds handlers0 plain_handle 3)
    [(calm 5000000, audit_event); (calm 9000000, audit_event)]).
  { repeat constructor; exists true; vm_compute; reflexivity. }
  split; [exact Hr|].
  destruct (Transactional.transactional_once_per_window handlers0 plain_handle (fun st => st) [] 4
    [(calm 5000000, audit_event); (calm 9000000, audit_event)] open_log (empty_pworld (Some open_log)))
    as (w' & s' & Hw & Hs & Hl & _).
  - lia.
  - reflexivity.
  - reflexivity.
  - reflexivity.
  - exists [], []. repeat split; reflexivity.
  - reflexivity.
  - reflexivity.
  - reflexivity.
  - reflexivity.
  - exact Hr.
  - change (StronglySorted Z.le [0; 5; 9]). repeat constructor; lia.
  - repeat constructor; vm_compute; discriminate.
  - exists w', s'. split; [exact Hw|]. split; [exact Hs|exact Hl].
Defined.

Lemma storage_failure_loses_event_witness :
  let i := mkInputs 0 0 0 5 0 0 0 5 (fun _ => false) in
  let w := empty_pworld (Some open_log) in
  let w1 := (Transactional.process handlers0 plain_handle (fun st => st) i audit_event w).2 in
  (Transactional.process handlers0 plain_handle (fun st => st) i audit_event w).1
    = Throw "Failed to write event to storage" /\
  dlq w1 = dlq w /\
  Transactional.process handlers0 plain_handle (fun st => st) i audit_event w1
    = (Ret tt, set_metrics Transactional.name (fun m => m) w1).
Proof.
  intros i w w1.
  pose proof (Transactional.storage_failure_loses_event handlers0 plain_handle (fun st => st) i i audit_event
    open_log (StorageEngine.storeEvent false audit_event open_log).2 "Failed to write event to storage" w
    eq_refl ltac:(discriminate) ltac:(vm_compute; reflexivity) ltac:(vm_compute; reflexivity) eq_refl eq_refl) as H.
  destruct H as (H1 & _ & _ & H2 & _ & H3).
  exact (conj H1 (conj H2 H3)).
Defined.
