(* ===== verification/Batch.v ===== *)
(** * The batch processor: [src/core/processor/batch.cpp]

    Module [Batch]: the buckets by topic, the flush of a bucket and the two places it is
    called from.  The mutexes make each call one step.  The order in which [stop] walks
    the hash map is a function of it, an argument. *)

From S2P Require Import Prelude Event Dlq Metrics Histogram EventBus Storage Handlers Output Dedup Processor.

Module Batch.
Section Batch.
Context {S : Type} (reg : Handlers.registry) (others : Output.Stream (S := S) -> Output.Stream (S := S)).
Implicit Types w : PWorld S.

Definition name : string := "BatchProcessor".

(** The window is given in seconds. *)
Definition create (window : Z) (bus : bool) : BatchState := mkBatchState false bus (window * 1000000000) ∅.

(** Only logs. *)
Definition start : M S unit := mret tt.

Definition set_drop (b : bool) (t : BatchState) : BatchState := mkBatchState b (has_bus t) (window_ t) (buckets_ t).
Definition dropBatchEvents : M S unit := update (fun w => with_batch (set_drop true (batch w)) w).
Definition resumeBatchEvents : M S unit := update (fun w => with_batch (set_drop false (batch w)) w).

Definition set_bucket (topic : string) (b : TopicBucket) w : PWorld S :=
  with_batch (mkBatchState (drop_events_ (batch w)) (has_bus (batch w)) (window_ (batch w))
                (<[topic := b]> (buckets_ (batch w)))) w.

(** [buckets_.try_emplace(topic)]. *)
Definition bucket_of (topic : string) w : TopicBucket :=
  default (mkTopicBucket [] 0) (buckets_ (batch w) !! topic).

(** The loop over a bucket's events; [n] is the number of writes made. *)
Fixpoint flush_loop (i : Inputs) (handler : Handlers.EventHandler) (evts : list Event) (n : nat) : M S unit :=
  match evts with
  | [] => mret tt
  | evt :: evts' =>
      result ← lift (Handlers.handle handler evt);
      if bool_decide (Handlers.r_outcome result = Handlers.FAIL)
         || bool_decide (Handlers.r_outcome result = Handlers.DROP)
      then push_dlq evt;; notify_dropped others name (Handlers.r_message result) evt;;
           flush_loop i handler evts' n
      else store (accepted i n) evt;; notify_processed others name evt;;
           flush_loop i handler evts' (Datatypes.S n)
  end.

Definition flushBucketLocked (i : Inputs) (topic : string) : M S unit :=
  w ← get;
  match events (bucket_of topic w) with
  | [] => mret tt
  | evts =>
      flush_loop i (Handlers.getOrDefault topic reg) evts 0;;
      flush_storage;;
      update (fun w => set_bucket topic (mkTopicBucket [] (last_flush_time (bucket_of topic w))) w)
  end.

Definition flush (i : Inputs) (topic : string) : M S unit :=
  w ← get;
  match buckets_ (batch w) !! topic with
  | None => mret tt
  | Some _ => flushBucketLocked i topic
  end.

Fixpoint flush_each (i : string -> Inputs) (topics : list string) : M S unit :=
  match topics with [] => mret tt | t :: ts => flushBucketLocked (i t) t;; flush_each i ts end.

(** [walk]: the order in which a map with these entries is walked. *)
Definition stop (i : string -> Inputs) (walk : gmap string TopicBucket -> list string) : M S unit :=
  w ← get;
  flush_each i (walk (buckets_ (batch w)));;
  flush_storage.

(** [event_bus_->dropBatchFromQueue(BATCH)]. *)
Definition drop_queue : M S unit := fun w =>
  if has_bus (batch w) then
    match EventBus.dropBatchFromQueue EventBus.BATCHQ (bw w) with
    | Ret (_, b) => (Ret tt, with_bw b w)
    | Throw what => (Throw what, w)
    | UB => (UB, w)
    end
  else (Ret tt, w).

(** The part of [process] under the locks. *)
Definition bucket_event (i : Inputs) (e : Event) : M S unit :=
  let now := steady_ns i in
  update (fun w => let b := bucket_of (topic e) w in
                   set_bucket (topic e) (mkTopicBucket (events b ++ [e]) (last_flush_time b)) w);;
  count_processed name;;
  w ← get;
  let set_time := update (fun w => set_bucket (topic e) (mkTopicBucket (events (bucket_of (topic e) w)) now) w) in
  if last_flush_time (bucket_of (topic e) w) =? 0 then set_time;; touch name i
  else if window_ (batch w) <=? now - last_flush_time (bucket_of (topic e) w)
  then flushBucketLocked i (topic e);; set_time;; touch name i
  else touch name i.

Definition process (i : Inputs) (e : Event) : M S unit :=
  update (set_metrics name (fun m => m));;
  w ← get;
  if drop_events_ (batch w) then
    count_dropped name;; push_dlq e;; drop_queue;; notify_dropped others name "backpressure_drop" e
  else
  let handler := Handlers.getOrDefault (topic e) reg in
  v ← lift (Handlers.validate handler e);
  if negb (Handlers.valid v) then drop_event others name (Handlers.error v) e else
  r ← lift (Handlers.checkRules handler e);
  if negb (Handlers.valid r) then drop_event others name (Handlers.error r) e else
  bucket_event i e.

(** ** What a flush does *)

Definition good (e : Event) : bool :=
  match Handlers.handle (Handlers.getOrDefault (topic e) reg) e with
  | Ret r => negb (bool_decide (Handlers.r_outcome r = Handlers.FAIL)
                   || bool_decide (Handlers.r_outcome r = Handlers.DROP))
  | _ => false
  end.

Definition answers (e : Event) : Prop :=
  exists r, Handlers.handle (Handlers.getOrDefault (topic e) reg) e = Ret r.

Definition of_topic (t : string) (e : Event) : bool := bool_decide (topic e = t).

(** What a flush leaves alone. *)
Definition kept w w' : Prop := batch w' = batch w /\ txn w' = txn w /\ has_dlq w' = has_dlq w.

Lemma kept_trans w1 w2 w3 : kept w1 w2 -> kept w2 w3 -> kept w1 w3.
Proof. unfold kept. by intros (-> & -> & ->). Qed.

(** The events a loop has been through: the good ones are in the log, in order. *)
Lemma flush_loop_prefix old es t i evts rest n s w :
  (forall k, accepted i k = true) -> Forall answers evts -> Forall (fun e => topic e = t) evts ->
  storage_ w = Some s -> StorageEngine.log_ok old es s ->
  exists n' w' s', flush_loop i (Handlers.getOrDefault t reg) (evts ++ rest) n w =
      flush_loop i (Handlers.getOrDefault t reg) rest n' w' /\
    storage_ w' = Some s' /\ StorageEngine.log_ok old (es ++ List.filter good evts) s' /\ kept w w'.
Proof.
  intros Hacc Ha. revert es n s w. induction Ha as [|e evts [r Hr] Ha IH]; intros es n s w Ht Hs Hl.
  { exists n, w, s. by rewrite app_nil_r. }
  apply Forall_cons in Ht as [He Ht]. cbn [app flush_loop List.filter]. rewrite bindE. unfold lift at 1.
  unfold good at 1. rewrite <- He, Hr. rewrite He.
  destruct (bool_decide (Handlers.r_outcome r = Handlers.FAIL) || bool_decide (Handlers.r_outcome r = Handlers.DROP));
    cbn [negb].
  - mrun. set (w1 := with_stream _ _).
    assert (H1 : storage_ w1 = storage_ w /\ kept w w1) by (unfold w1, kept; destruct (has_dlq w) eqn:Ed; by rewrite ?Ed).
    destruct H1 as [H1 Hk1]. clearbody w1. rewrite <- H1 in Hs.
    destruct (IH es n s w1 Ht Hs Hl) as (n' & w' & s' & -> & Hs' & Hl' & Hk).
    exists n', w', s'. split_and!; try done. by eapply kept_trans.
  - rewrite bindE. unfold store at 1. rewrite Hs, Hacc.
    destruct (StorageEngine.storeEvent_ok old es e s Hl) as [Hok Hl1].
    destruct (StorageEngine.storeEvent true e s) as [o s1]. cbn [fst snd] in *. subst o. mrun.
    set (w1 := with_stream _ _).
    destruct (IH (es ++ [e]) (Datatypes.S n) s1 w1 Ht eq_refl Hl1) as (n' & w' & s' & -> & Hs' & Hl' & Hk).
    exists n', w', s'. split_and!; try done. by rewrite <- app_assoc in Hl'.
Qed.

Lemma bucket_of_set t b w : bucket_of t (set_bucket t b w) = b.
Proof. unfold bucket_of. cbn. by rewrite lookup_insert_eq. Qed.

Lemma bucket_of_set_ne t t' b w : t <> t' -> bucket_of t' (set_bucket t b w) = bucket_of t' w.
Proof. intros Hne. unfold bucket_of. cbn. by rewrite lookup_insert_ne. Qed.

(** ** Each admitted event is stored once, in the order of its topic *)

(** The log is [flushed]; per topic it continues, with the bucket, the admitted events. *)
Record batched (old : list byte) (admitted flushed : list Event) w : Prop := {
  b_log : exists s, storage_ w = Some s /\ StorageEngine.log_ok old flushed s;
  b_on : drop_events_ (batch w) = false;
  b_bucket : forall t, Forall (fun e => topic e = t /\ answers e) (events (bucket_of t w));
  b_order : forall t, List.filter (of_topic t) flushed ++ List.filter good (events (bucket_of t w)) =
                      List.filter (fun e => of_topic t e && good e) admitted
}.

Lemma batched_ext old ad fl w w' :
  storage_ w' = storage_ w -> batch w' = batch w -> batched old ad fl w -> batched old ad fl w'.
Proof. intros Hs Hb [? ? ? ?]. split; unfold bucket_of in *; rewrite ?Hs, ?Hb; done. Qed.

Lemma filter_of_topic t t' evts :
  Forall (fun e => topic e = t /\ answers e) evts ->
  List.filter (of_topic t') (List.filter good evts) = if decide (t' = t) then List.filter good evts else [].
Proof.
  induction 1 as [|e evts [He _] Hf IH]; [by case_decide|]. cbn [List.filter].
  destruct (good e); [|done]. cbn [List.filter]. unfold of_topic at 1. rewrite IH.
  case_decide; [rewrite bool_decide_eq_true_2 by congruence|rewrite bool_decide_eq_false_2 by congruence]; done.
Qed.

Lemma flush_bucket_ok old ad fl i t w :
  (forall k, accepted i k = true) -> batched old ad fl w ->
  exists w', flushBucketLocked i t w = (Ret tt, w') /\
    batched old ad (fl ++ List.filter good (events (bucket_of t w))) w' /\
    bucket_of t w' = mkTopicBucket [] (last_flush_time (bucket_of t w)) /\
    (forall t', t' <> t -> bucket_of t' w' = bucket_of t' w).
Proof.
  intros Hacc Hb. unfold flushBucketLocked. mrun. pose proof Hb as [(s & Hs & Hl) Hon Hbk Hord].
  destruct (bucket_of t w) as [evts last] eqn:Eb. cbn [events last_flush_time].
  destruct evts as [|e evts]; [exists w; rewrite app_nil_r; done|].
  pose proof (Hbk t) as Ht. rewrite Eb in Ht. cbn [events] in Ht.
  destruct (flush_loop_prefix old fl t i (e :: evts) [] 0 s w Hacc) as (n' & w1 & s1 & Hrun & Hs1 & Hl1 & Hk);
    [apply (Forall_impl _ _ _ Ht); tauto|apply (Forall_impl _ _ _ Ht); tauto|done|done|].
  rewrite app_nil_r in Hrun. mrun. rewrite Hrun. cbn [flush_loop]. unfold mret, M_ret. mrun.
  unfold update. set (w2 := with_storage _ w1). assert (Hb2 : batch w2 = batch w) by apply Hk.
  assert (Hbo : forall t', bucket_of t' w2 = bucket_of t' w) by (intros; unfold bucket_of; by rewrite Hb2).
  rewrite (Hbo t), Eb. cbn [last_flush_time]. eexists. split; [done|].
  split; [|split; [apply bucket_of_set|intros t' Hne; by rewrite bucket_of_set_ne by done]].
  split.
  - exists (StorageEngine.flush s1). split; [by cbn; rewrite Hs1|by apply StorageEngine.flush_ok].
  - cbn. by rewrite (proj1 Hk).
  - intros t'. destruct (decide (t' = t)) as [->|Hne]; [by rewrite bucket_of_set|].
    rewrite bucket_of_set_ne, Hbo by done. apply Hbk.
  - intros t'. rewrite List.filter_app, (filter_of_topic t t' _ Ht). rewrite <- Hord.
    case_decide as Hd; [subst; rewrite bucket_of_set, Eb, app_nil_r; done|].
    rewrite bucket_of_set_ne, Hbo, app_nil_r by done. done.
Qed.

Definition admits (e : Event) : outcome bool :=
  let handler := Handlers.getOrDefault (topic e) reg in
  v ← Handlers.validate handler e;
  if negb (Handlers.valid v) then Ret false else
  r ← Handlers.checkRules handler e; Ret (Handlers.valid r).

(** An event added to its bucket. *)
Lemma batched_add old ad fl e f w :
  batched old ad fl w -> answers e ->
  batched old (ad ++ [e]) fl
    (set_bucket (topic e) (mkTopicBucket (events (bucket_of (topic e) w) ++ [e]) f) w).
Proof.
  intros [Hl Hon Hbk Hord] Ha. split; [done|done| |]; intros t.
  - destruct (decide (t = topic e)) as [->|Hne]; [|rewrite bucket_of_set_ne by done; apply Hbk].
    rewrite bucket_of_set. apply Forall_app. split; [apply Hbk|by constructor].
  - rewrite List.filter_app, <- Hord. cbn [List.filter]. unfold of_topic at 3.
    destruct (decide (t = topic e)) as [->|Hne].
    + rewrite bucket_of_set, bool_decide_eq_true_2 by done. cbn [events andb]. rewrite List.filter_app, app_assoc.
      f_equal.
    + rewrite bucket_of_set_ne, bool_decide_eq_false_2 by congruence. by rewrite app_nil_r.
Qed.

Lemma batched_time old ad fl t f w :
  batched old ad fl w -> batched old ad fl (set_bucket t (mkTopicBucket (events (bucket_of t w)) f) w).
Proof.
  intros [Hl Hon Hbk Hord]. split; [done|done| |]; intros t'.
  all: destruct (decide (t' = t)) as [->|Hne]; [rewrite bucket_of_set|rewrite bucket_of_set_ne by done].
  all: cbn [events]; by auto.
Qed.

Lemma batch_process_step old ad fl i e b w :
  (forall k, accepted i k = true) -> batched old ad fl w -> admits e = Ret b -> answers e ->
  exists w' fl', process i e w = (Ret tt, w') /\ batched old (if b then ad ++ [e] else ad) fl' w'.
Proof.
  intros Hacc Hb Had Ha. unfold process. mrun.
  apply (batched_ext _ _ _ w (set_metrics name (fun m => m) w) eq_refl eq_refl) in Hb.
  set (w1 := set_metrics (S := S) name _ w) in *. clearbody w1. rewrite (b_on _ _ _ _ Hb). unfold admits in Had.
  assert (Hdrop : forall reason, exists w' fl', drop_event others name reason e w1 = (Ret tt, w') /\ batched old ad fl' w').
  { intros reason. destruct (drop_event_spec others name reason e w1) as (w' & ? & _ & _ & _ & Hs & _ & _ & _ & _ & Hbt & _).
    exists w', fl. split; [done|]. by eapply batched_ext. }
  rewrite bindE. unfold lift at 1.
  destruct (Handlers.validate _ e) as [v| |]; [|done..]. cbn [mbind outcome_bind] in Had.
  destruct (Handlers.valid v); cbn [negb] in *; [|injection Had as <-; apply Hdrop].
  rewrite bindE. unfold lift at 1.
  destruct (Handlers.checkRules _ e) as [r| |]; [|done..]. cbn [mbind outcome_bind] in Had. injection Had as <-.
  destruct (Handlers.valid r); cbn [negb] in *; [|apply Hdrop].
  unfold bucket_event. mrun.
  pose proof (batched_add old ad fl e (last_flush_time (bucket_of (topic e) w1)) w1 Hb Ha) as Hb2.
  set (wb := set_bucket _ _ w1) in Hb2. change (set_bucket _ _ w1) with wb.
  apply (batched_ext _ _ _ wb (set_metrics name (add_processed 1) wb) eq_refl eq_refl) in Hb2.
  set (w2 := set_metrics (S := S) name (add_processed 1) _) in *. clearbody w2.
  assert (Htouch : forall w fl', batched old (ad ++ [e]) fl' w ->
            exists w' fl'', touch name i w = (Ret tt, w') /\ batched old (ad ++ [e]) fl'' w').
  { intros w3 fl3 H3. destruct (touch_rest name i w3) as [b3 ->]. eexists _, fl3. split; [done|].
    by eapply batched_ext; [..|exact H3]. }
  destruct (last_flush_time (bucket_of (topic e) w2) =? 0).
  { mrun. eapply Htouch. by apply batched_time. }
  destruct (window_ (batch w2) <=? steady_ns i - last_flush_time (bucket_of (topic e) w2)); [|by eapply Htouch].
  destruct (flush_bucket_ok old _ fl i (topic e) w2 Hacc Hb2) as (w3 & Hw3 & Hb3 & _).
  mrun. rewrite Hw3. mrun. eapply Htouch. by apply batched_time.
Qed.

Lemma flush_each_ok old ad js walk fl w :
  (forall t k, accepted (js t) k = true) -> batched old ad fl w ->
  exists w' fl', flush_each js walk w = (Ret tt, w') /\ batched old ad fl' w' /\
    forall t, events (bucket_of t w') = if decide (t ∈ walk) then [] else events (bucket_of t w).
Proof.
  intros Hacc. revert fl w. induction walk as [|t walk IH]; intros fl w Hb.
  { exists w, fl. done. }
  destruct (flush_bucket_ok old ad fl (js t) t w (Hacc t) Hb) as (w1 & Hw1 & Hb1 & Ht1 & Ho1).
  destruct (IH _ _ Hb1) as (w2 & fl2 & Hw2 & Hb2 & Hev). exists w2, fl2. cbn [flush_each].
  rewrite bindE, Hw1. split; [done|]. split; [done|]. intros t'. rewrite Hev.
  destruct (decide (t' = t)) as [->|Hne].
  - rewrite Ht1. rewrite (decide_True (P := t ∈ t :: walk)) by left. by case_decide.
  - rewrite Ho1 by done. repeat case_decide; set_solver.
Qed.

Definition admitted_of (calls : list (Inputs * Event)) : list Event :=
  List.filter (fun e => bool_decide (admits e = Ret true)) (map snd calls).

Definition responds (call : Inputs * Event) : Prop :=
  (forall k, accepted call.1 k = true) /\ answers call.2 /\ exists b, admits call.2 = Ret b.

Lemma process_all_batched old calls ad fl w :
  Forall responds calls -> batched old ad fl w ->
  exists w' fl', process_all process calls w = (Ret tt, w') /\ batched old (ad ++ admitted_of calls) fl' w'.
Proof.
  intros Hc. revert ad fl w. induction Hc as [|[i e] calls (Hacc & Ha & b & Hb) Hc IH]; intros ad fl w Hw.
  { exists w, fl. by rewrite app_nil_r. }
  destruct (batch_process_step old ad fl i e b w Hacc Hw Hb Ha) as (w1 & fl1 & H1 & Hw1).
  destruct (IH _ _ _ Hw1) as (w2 & fl2 & H2 & Hw2). exists w2, fl2. cbn [process_all]. rewrite bindE, H1.
  split; [done|]. unfold admitted_of in *. cbn [map snd List.filter fst] in *. rewrite Hb.
  destruct b; [|done]. rewrite bool_decide_eq_true_2 by done. by rewrite <- app_assoc in Hw2.
Qed.

Lemma batched_initially old s w :
  storage_ w = Some s -> StorageEngine.log_ok old [] s ->
  drop_events_ (batch w) = false -> buckets_ (batch w) = ∅ -> batched old [] [] w.
Proof.
  intros Hs Hl Hon Hbk.
  split; [by exists s|done|..]; intros t; unfold bucket_of; rewrite Hbk, lookup_empty; cbn; [constructor|done].
Qed.

(** A walk of the map meets every entry. *)
Definition complete (walk : gmap string TopicBucket -> list string) : Prop :=
  forall m t, is_Some (m !! t) -> t ∈ walk m.

(** [stop] writes what the buckets still hold. *)
Lemma stop_flushes old ad js walk fl w :
  (forall t k, accepted (js t) k = true) -> complete walk -> batched old ad fl w ->
  exists w2 s2 flushed, stop js walk w = (Ret tt, w2) /\ storage_ w2 = Some s2 /\
    StorageEngine.on_disk (StorageEngine.storageFile s2) = old ++ StorageEngine.log_bytes flushed /\
    (forall t, List.filter (of_topic t) flushed = List.filter (fun e => of_topic t e && good e) ad) /\
    forall t, events (bucket_of t w2) = [].
Proof.
  intros Hacc Hwalk Hb.
  destruct (flush_each_ok old _ js (walk (buckets_ (batch w))) fl w Hacc Hb) as (w2 & fl2 & Hw2 & Hb2 & Hev).
  unfold stop. mrun. rewrite Hw2. unfold flush_storage, update.
  destruct Hb2 as [(s2 & Hs2 & Hl2) _ _ Hord].
  assert (Hnone : forall t, events (bucket_of t w2) = []).
  { intros t. rewrite Hev. case_decide as Hin; [done|]. unfold bucket_of.
    destruct (buckets_ (batch w) !! t) eqn:E; [|done]. exfalso. apply Hin, Hwalk. by rewrite E. }
  eexists _, (StorageEngine.flush s2), fl2. split; [done|]. split; [by cbn; rewrite Hs2|].
  split; [by apply StorageEngine.flush_durable|]. split; [|done].
  intros t. specialize (Hord t). by rewrite Hnone, app_nil_r in Hord.
Qed.

(** C19: whatever the topics, times and window, a processor that starts with no bucket, with handlers
    that answer and a storage that accepts, has after [stop] written to the file, for every topic,
    exactly the admitted events of that topic the handler did not refuse, each once and in the order
    they arrived, and every bucket is empty. *)
Theorem batch_stores_each_once old calls js walk s w :
  storage_ w = Some s -> StorageEngine.log_ok old [] s ->
  drop_events_ (batch w) = false -> buckets_ (batch w) = ∅ ->
  Forall responds calls -> (forall t k, accepted (js t) k = true) -> complete walk ->
  exists w1 w2 s2 flushed, process_all process calls w = (Ret tt, w1) /\
    stop js walk w1 = (Ret tt, w2) /\ storage_ w2 = Some s2 /\
    StorageEngine.on_disk (StorageEngine.storageFile s2) = old ++ StorageEngine.log_bytes flushed /\
    (forall t, List.filter (of_topic t) flushed =
               List.filter (fun e => of_topic t e && good e) (admitted_of calls)) /\
    forall t, events (bucket_of t w2) = [].
Proof.
  intros Hs Hl Hon Hbk Hc Hacc Hwalk.
  destruct (process_all_batched old calls [] [] w Hc) as (w1 & fl1 & Hw1 & Hb1); [by eapply batched_initially|].
  destruct (stop_flushes old _ js walk fl1 w1 Hacc Hwalk Hb1) as (w2 & s2 & fl2 & H).
  by exists w1, w2, s2, fl2.
Qed.

(** The flushes of a topic, one after another, whatever they throw. *)
Fixpoint flush_times (k : nat) (i : Inputs) (t : string) w : PWorld S :=
  match k with O => w | Datatypes.S k' => flush_times k' i t (flushBucketLocked i t w).2 end.

(** An event on which the handler throws is never removed from its bucket: each flush stores the
    good events in front of it once more, throws and leaves the bucket as it was, so after [k] flushes
    they are in the log [k] times. *)
Theorem handler_exception_repeats k old es t i l1 x l2 what s w :
  (forall k, accepted i k = true) -> events (bucket_of t w) = l1 ++ x :: l2 ->
  Forall (fun e => topic e = t) l1 -> Forall answers l1 ->
  Handlers.handle (Handlers.getOrDefault t reg) x = Throw what ->
  storage_ w = Some s -> StorageEngine.log_ok old es s ->
  (flushBucketLocked i t w).1 = Throw what /\
  exists s', storage_ (flush_times k i t w) = Some s' /\
    StorageEngine.log_ok old (es ++ concat (replicate k (List.filter good l1))) s' /\
    events (bucket_of t (flush_times k i t w)) = l1 ++ x :: l2.
Proof.
  intros Hacc Hev Ht Ha Hx Hs Hl.
  assert (Hone : forall es s w, events (bucket_of t w) = l1 ++ x :: l2 -> storage_ w = Some s ->
    StorageEngine.log_ok old es s -> exists w' s', flushBucketLocked i t w = (Throw what, w') /\
      storage_ w' = Some s' /\ StorageEngine.log_ok old (es ++ List.filter good l1) s' /\
      events (bucket_of t w') = l1 ++ x :: l2).
  { clear es s w Hev Hs Hl. intros es s w Hev Hs Hl.
    destruct (flush_loop_prefix old es t i l1 (x :: l2) 0 s w Hacc Ha Ht Hs Hl)
      as (n' & w' & s' & Hrun & Hs' & Hl' & Hk).
    exists w', s'. split_and!; try done.
    - unfold flushBucketLocked. mrun. rewrite Hev.
      destruct (l1 ++ x :: l2) as [|e0 l0] eqn:E; [by destruct l1|]. mrun. rewrite Hrun.
      cbn [flush_loop]. rewrite bindE. unfold lift. by rewrite Hx.
    - unfold bucket_of in *. by rewrite (proj1 Hk). }
  destruct (Hone es s w Hev Hs Hl) as (w1 & s1 & Hw1 & _). split; [by rewrite Hw1|]. clear w1 s1 Hw1.
  revert es s w Hev Hs Hl. induction k as [|k IH]; intros es s w Hev Hs Hl.
  { exists s. cbn. by rewrite app_nil_r. }
  destruct (Hone es s w Hev Hs Hl) as (w1 & s1 & Hw1 & Hs1 & Hl1 & Hev1). cbn [flush_times replicate concat].
  rewrite Hw1. destruct (IH _ s1 w1 Hev1 Hs1 Hl1) as (s' & H1 & H2 & H3). exists s'.
  by rewrite <- app_assoc in H2.
Qed.

End Batch.
End Batch.

(** ** Concrete runs *)

Definition two_audits : list (Inputs * Event) :=
  [(calm 1000000000, audit_event); (calm 7000000000, audit_event)].

(** The walk in the order of the finite map. *)
Definition map_walk (m : gmap string TopicBucket) : list string := map fst (map_to_list m).

Lemma map_walk_complete : Batch.complete map_walk.
Proof.
  intros m t [b Hb]. apply elem_of_map_to_list in Hb. apply list_elem_of_In, in_map_iff. exists (t, b).
  split; [done|]. by apply list_elem_of_In.
Qed.

Lemma batch_stores_each_once_witness :
  exists w1 w2 s2 flushed,
    process_all (Batch.process handlers0 (fun st => st)) two_audits (empty_pworld (Some open_log)) = (Ret tt, w1) /\
    Batch.stop handlers0 (fun st => st) (fun _ => calm 8000000000) map_walk w1 = (Ret tt, w2) /\
    storage_ w2 = Some s2 /\
    StorageEngine.on_disk (StorageEngine.storageFile s2) = [] ++ StorageEngine.log_bytes flushed /\
    List.filter (Batch.of_topic "audit") flushed = [audit_event; audit_event].
Proof.
  destruct (Batch.batch_stores_each_once handlers0 (fun st => st) [] two_audits (fun _ => calm 8000000000)
    map_walk open_log (empty_pworld (Some open_log))) as (w1 & w2 & s2 & fl & H1 & H2 & H3 & H4 & H5 & _).
  - reflexivity.
  - exists [], []. repeat split; reflexivity.
  - reflexivity.
  - reflexivity.
  - repeat constructor.
    all: try (intros k; reflexivity); try (eexists; vm_compute; reflexivity).
  - intros t k. reflexivity.
  - exact map_walk_complete.
  - exists w1, w2, s2, fl. split; [exact H1|]. split; [exact H2|]. split; [exact H3|]. split; [exact H4|].
    rewrite H5. vm_compute. reflexivity.
Defined.

(** A handler that throws on the event 2. *)
Definition fussy : Handlers.EventHandler :=
  Handlers.mkHandler Handlers.default_validate Handlers.default_checkRules
    (fun e => if id (header e) =? 2 then Throw "bad event" else Ret (Handlers.r_success "")) "fussy".

Definition poisoned : PWorld unit :=
  Batch.set_bucket "x" (mkTopicBucket [sample_event 1 "x" []; sample_event 2 "x" []] 1) (empty_pworld (Some open_log)).

Lemma handler_exception_repeats_witness :
  exists s', storage_ (Batch.flush_times [("x"%string, fussy)] (fun st => st) 2 (calm 5) "x" poisoned) = Some s' /\
    StorageEngine.log_ok [] [sample_event 1 "x" []; sample_event 1 "x" []] s'.
Proof.
  destruct (Batch.handler_exception_repeats [("x"%string, fussy)] (fun st => st) 2 [] [] "x" (calm 5)
    [sample_event 1 "x" []] (sample_event 2 "x" []) [] "bad event" open_log poisoned) as (_ & s' & Hs & Hl & _).
  - reflexivity.
  - reflexivity.
  - repeat constructor.
  - repeat constructor. eexists. vm_compute. reflexivity.
  - vm_compute. reflexivity.
  - reflexivity.
  - exists [], []. repeat split; reflexivity.
  - exists s'. split; [exact Hs|exact Hl].
Defined.
