(* ===== verification/Manager.v ===== *)
(** * The process manager: [src/core/processor/manager.cpp]

    Module [ProcessManager]: the wiring of the processors, the loop each processor
    thread runs, and the control operations.  One pass of the loop is [turn]: the pop,
    the call and the handler of exceptions; a run is the passes made until [isRunning_]
    is read as false.  What a processor owes the loop is the class [LeavesQueues]. *)

From S2P Require Import Prelude Event Spsc Dlq Metrics Histogram EventBus Storage Handlers Output.
From S2P Require Import Dedup Processor Transactional Batch.
From Stdlib Require Import Sorting.Sorted.

(** ** What the loop needs of a processor *)

(** The events and the queues of the bus. *)
Definition queues {S} (w : PWorld S) :=
  (EventBus.heap (bw w), EventBus.ringBuffer (EventBus.RealtimeBus_ (EventBus.bus (bw w))),
   EventBus.TransactionalBus_ (EventBus.bus (bw w)), EventBus.BatchBus_ (EventBus.bus (bw w))).

Class LeavesQueues {S} (process : Inputs -> Event -> M S unit) : Prop :=
  leaves_queues i e : leaves queues (process i e).

Lemma queues_touch {S} name i : leaves (S := S) queues (touch name i).
Proof.
  intros w. destruct (touch_rest name i w) as [b Hb]. pose proof (touch_metrics name i w) as (_ & _ & H1 & H2).
  rewrite Hb in *. cbn in *. unfold queues. cbn. by rewrite H1, H2.
Qed.
Lemma queues_push_dlq {S} e : leaves (S := S) queues (push_dlq e).
Proof. apply leaves_update. intros w. by destruct (has_dlq w). Qed.
Lemma queues_store {S} ok e : leaves (S := S) queues (store ok e).
Proof.
  intros w. unfold store. destruct (storage_ w); [|done]. by destruct (StorageEngine.storeEvent ok e s).
Qed.
Lemma queues_drop {S} others name reason e : leaves (S := S) queues (drop_event others name reason e).
Proof.
  unfold drop_event. apply leaves_bind; [done|]. intros _. apply leaves_bind; [apply queues_push_dlq|]. done.
Qed.
Lemma queues_alert {S} level message i e : leaves (S := S) queues (Realtime.emitAlert level message i e).
Proof.
  intros w. unfold Realtime.emitAlert. destruct (alert_handler_ (rt w)); [|done].
  by destruct (Handlers.onAlert _ _ _).
Qed.

#[export] Hint Resolve queues_touch queues_push_dlq queues_store queues_drop queues_alert : leaves.

#[export] Instance realtime_leaves_queues {S} reg others : LeavesQueues (S := S) (Realtime.process reg others).
Proof. intros i e. unfold Realtime.process, Realtime.finish. solve_leaves. Qed.

#[export] Instance transactional_leaves_queues {S} reg handle_at others :
  LeavesQueues (S := S) (Transactional.process reg handle_at others).
Proof.
  intros i e. unfold Transactional.process, Transactional.commit. solve_leaves.
  apply leaves_update. intros w. cbv zeta. by destruct (Transactional.cleanup_due _ _).
Qed.

Module ProcessManager.
Section Manager.
Context {S : Type}.
Implicit Types w : PWorld S.

(** ** Construction and control *)

Record Dependencies := mkDependencies {
  d_storage : option StorageEngine.Storage;
  d_dlq : bool;
  d_alert_handler : option Handlers.AlertHandler;
  d_batch_window : Z
}.

(** The constructor, on the bus and the observers as they are. *)
Definition create (deps : Dependencies) (b : EventBus.World) (st : Output.Stream (S := S)) (s : S) : PWorld S :=
  mkPWorld S b (d_storage deps) (d_dlq deps) st s [] (Realtime.create (d_alert_handler deps))
    Transactional.create (Batch.create (d_batch_window deps) true).

(** The constructor without dependencies. *)
Definition create_default : EventBus.World -> Output.Stream (S := S) -> S -> PWorld S :=
  create (mkDependencies None false None 5).

Definition pauseTransactions : M S unit := Transactional.pauseProcessing.
Definition resumeTransactions : M S unit := Transactional.resumeProcessing.
Definition dropBatchEvents : M S unit := Batch.dropBatchEvents.
Definition resumeBatchEvents : M S unit := Batch.resumeBatchEvents.

(** ** The loop *)

(** One pass: the clock of the pop, what the other threads do to the bus while it waits,
    and the inputs of the call. *)
Record Turn := mkTurn { pop_ns : Z; env : EventBus.World -> EventBus.World; inp : Inputs }.

(** The event handed to the processor, if any; an exception of [process] is caught. *)
Definition turn (q : EventBus.QueueId) (process : Inputs -> Event -> M S unit) (t : Turn) : M S (option Event) :=
  fun w =>
  match EventBus.pop q (pop_ns t) (env t) (bw w) with
  | Ret (None, b) => (Ret None, with_bw b w)
  | Ret (Some p, b) =>
      match deref (EventBus.heap b) p with
      | Ret e =>
          match process (inp t) e (with_bw b w) with
          | (UB, w') => (UB, w')
          | (_, w') => (Ret (Some e), w')
          end
      | _ => (UB, with_bw b w)
      end
  | Throw what => (Throw what, w)
  | UB => (UB, w)
  end.

Fixpoint turns (q : EventBus.QueueId) (process : Inputs -> Event -> M S unit) (ts : list Turn)
    : M S (list (option Event)) :=
  match ts with
  | [] => mret []
  | t :: ts' => e ← turn q process t; es ← turns q process ts'; mret (e :: es)
  end.

(** [start] and [stop] are outside the [try]. *)
Definition runLoop (q : EventBus.QueueId) (start : M S unit) (process : Inputs -> Event -> M S unit) (stop : M S unit)
    (ts : list Turn) : M S (list (option Event)) :=
  start;; es ← turns q process ts; stop;; mret es.

(** ** What a pop takes *)

(** The events waiting in a queue, in order. *)
Definition holds q w (ps : list EventPtr) : Prop :=
  match q with
  | EventBus.REALTIME => exists tc, Spsc.represents EventBus.log_ring
      (EventBus.ringBuffer (EventBus.RealtimeBus_ (EventBus.bus (bw w)))) ps tc
  | _ => EventBus.dq (EventBus.getQueue q (EventBus.bus (bw w))) = ps
  end.

Definition deque q w : list EventPtr := EventBus.dq (EventBus.getQueue q (EventBus.bus (bw w))).

Lemma deque_holds q w : q <> EventBus.REALTIME -> holds q w (deque q w).
Proof. by destruct q. Qed.

Lemma queues_holds q w w' ps :
  queues w' = queues w -> holds q w ps -> holds q w' ps /\ EventBus.heap (bw w') = EventBus.heap (bw w).
Proof. unfold queues, holds. intros [= -> Hr Ht Hb]. by destruct q; cbn; rewrite ?Hr, ?Ht, ?Hb. Qed.

(** The event a loop takes off its queue, stamped; the other queues are as they were. *)
Lemma pop_holds q now f w l e rest :
  holds q w (Some l :: rest) -> EventBus.heap (bw w) !! l = Some e ->
  exists b, EventBus.pop q now f (bw w) = Ret (Some (Some l), b) /\
    EventBus.heap b = <[l := set_dequeue_time now e]> (EventBus.heap (bw w)) /\
    holds q (with_bw b w) rest /\
    EventBus.dlq_ (EventBus.bus b) = EventBus.dlq_ (EventBus.bus (bw w)) /\
    EventBus.metrics b = EventBus.metrics (bw w) /\
    (forall q' ps, q' <> q -> holds q' w ps -> holds q' (with_bw b w) ps).
Proof.
  unfold holds, EventBus.pop. intros Hq He. destruct q.
  - destruct Hq as [tc Hr]. pose proof (Spsc.pop_represents _ EventBus.log_ring_range _ _ _ Hr) as Hp.
    destruct (Spsc.pop _ _) as [x r]. cbn in Hp. destruct Hp as [-> Hr']. unfold EventBus.stamp. cbn. rewrite He.
    eexists. split_and!; try done. by intros [].
  - rewrite Hq. unfold EventBus.dequeue. rewrite Hq. unfold EventBus.stamp. cbn. rewrite He.
    eexists. split_and!; try done. by intros [].
  - rewrite Hq. unfold EventBus.dequeue. rewrite Hq. unfold EventBus.stamp. cbn. rewrite He.
    eexists. split_and!; try done. by intros [].
Qed.

(** The event the pointer shows once it is stamped. *)
Definition stamped (h : Heap) (p : EventPtr) (now : Z) : option Event :=
  match p with Some l => set_dequeue_time now <$> h !! l | None => None end.

Lemma stamped_insert h l e now p now' :
  h !! l = Some e -> stamped (<[l := set_dequeue_time now e]> h) p now' = stamped h p now'.
Proof.
  intros He. destruct p as [k|]; [|done]. cbn. destruct (decide (k = l)) as [->|Hne].
  - by rewrite lookup_insert_eq, He.
  - by rewrite lookup_insert_ne.
Qed.

(** The loop on a queue hands the queued events to the processor one by one in queue order, each
    with its dequeue time, and survives every exception the processor throws: after as many passes
    as there were events all of them were handed over and the queue is empty. *)
Theorem runLoop_in_order q process `{!LeavesQueues process} ts ps w :
  (forall i e w, (process i e w).1 <> UB) ->
  holds q w ps -> Forall (live (EventBus.heap (bw w))) ps -> length ts = length ps ->
  exists w', turns q process ts w =
      (Ret (zip_with (fun p t => stamped (EventBus.heap (bw w)) p (pop_ns t)) ps ts), w') /\
    holds q w' [].
Proof.
  intros Hub. revert ps w. induction ts as [|t ts IH]; intros [|p ps] w Hq Hlive Hlen; try done; [by exists w|].
  apply Forall_cons in Hlive as [(l & e & -> & He) Hlive]. injection Hlen as Hlen.
  cbn [turns zip_with]. rewrite bindE. unfold turn.
  destruct (pop_holds q (pop_ns t) (env t) w l e ps Hq He) as (b & -> & Hh & Hqb & _).
  assert (Hb : deref (EventBus.heap b) (Some l) = Ret (set_dequeue_time (pop_ns t) e)).
  { cbn. by rewrite Hh, lookup_insert_eq. }
  rewrite Hb. pose proof (leaves_queues (inp t) (set_dequeue_time (pop_ns t) e) (with_bw b w)) as Hf.
  pose proof (Hub (inp t) (set_dequeue_time (pop_ns t) e) (with_bw b w)) as Hno.
  destruct (process (inp t) (set_dequeue_time (pop_ns t) e) (with_bw b w)) as [o w1]. cbn [fst snd] in *.
  destruct (queues_holds q _ _ ps Hf Hqb) as [Hq1 Hh1]. cbn [bw with_bw] in Hh1. rewrite Hh in Hh1.
  assert (Hlive1 : Forall (live (EventBus.heap (bw w1))) ps).
  { rewrite Hh1. apply (Forall_impl _ _ _ Hlive). intros p'. apply (live_modify (set_dequeue_time (pop_ns t)) _ _ (Some l)).
    cbn. by rewrite He. }
  destruct (IH ps w1 Hq1 Hlive1 Hlen) as (w' & Hw' & Hend). exists w'. split; [|done].
  cbn [stamped]. rewrite He. cbn [fmap option_fmap option_map].
  assert (Hzip : zip_with (fun p t => stamped (EventBus.heap (bw w1)) p (pop_ns t)) ps ts =
                 zip_with (fun p t => stamped (EventBus.heap (bw w)) p (pop_ns t)) ps ts).
  { rewrite Hh1. clear -He. revert ts; induction ps as [|p ps IHp]; intros [|t' ts]; [done..|]. cbn [zip_with].
    by rewrite IHp, stamped_insert. }
  rewrite Hzip in Hw'. by destruct o; [rewrite bindE, Hw'..|].
Qed.

(** ** A loop as a fold over the events it is given *)

(** The calls the loop makes: each queued event, stamped, with the inputs of its pass. *)
Definition calls_of (h : Heap) (ps : list EventPtr) (ts : list Turn) : list (option (Inputs * Event)) :=
  zip_with (fun p t => (fun e => (inp t, e)) <$> stamped h p (pop_ns t)) ps ts.

Lemma calls_of_insert h l e now ps ts :
  h !! l = Some e -> calls_of (<[l := set_dequeue_time now e]> h) ps ts = calls_of h ps ts.
Proof.
  intros He. unfold calls_of. revert ts; induction ps as [|p ps IH]; intros [|t ts]; [done..|].
  cbn [zip_with]. by rewrite IH, stamped_insert.
Qed.

(** [R a w]: the processor has come to the summary [a].  A call on an event it is [ready] for
    returns, leaves the queues alone and takes the summary one step further. *)
Section Fold.
Context {A : Type} (R : A -> PWorld S -> Prop) (next : A -> Inputs * Event -> A)
  (ready : Inputs * Event -> Prop) (process : Inputs -> Event -> M S unit).

Definition advances : Prop := forall a i e w, R a w -> ready (i, e) ->
  exists w', process i e w = (Ret tt, w') /\ R (next a (i, e)) w' /\ queues w' = queues w.

(** The summary does not depend on what a pop changes. *)
Definition pop_stable : Prop := forall a b w,
  EventBus.dlq_ (EventBus.bus b) = EventBus.dlq_ (EventBus.bus (bw w)) ->
  EventBus.metrics b = EventBus.metrics (bw w) -> R a w -> R a (with_bw b w).

(** What a loop on [q] leaves of the bus. *)
Definition other_queues q (ps : list EventPtr) w w' : Prop :=
  (forall q' ps', q' <> q -> holds q' w ps' -> holds q' w' ps') /\
  forall l, Some l ∉ ps -> EventBus.heap (bw w') !! l = EventBus.heap (bw w) !! l.

Lemma turns_fold q ts ps calls a w :
  advances -> pop_stable ->
  holds q w ps -> length ts = length ps -> calls_of (EventBus.heap (bw w)) ps ts = map Some calls ->
  Forall ready calls -> R a w ->
  exists es w', turns q process ts w = (Ret es, w') /\ R (fold_left next calls a) w' /\ holds q w' [] /\
    other_queues q ps w w'.
Proof.
  intros Hadv Hstable. revert a ps calls w.
  induction ts as [|t ts IH]; intros a [|p ps] [|[i e] calls] w Hq Hlen Hcalls Hready Hr; try done.
  { eexists _, w. by split_and!. }
  injection Hlen as Hlen. cbn [calls_of zip_with map] in Hcalls. injection Hcalls as Hhead Hcalls.
  apply Forall_cons in Hready as [Hi Hready].
  destruct p as [l|]; [|done]. cbn [stamped] in Hhead.
  destruct (EventBus.heap (bw w) !! l) as [e0|] eqn:He; [|done]. injection Hhead as <- <-.
  cbn [turns fold_left]. rewrite bindE. unfold turn.
  destruct (pop_holds q (pop_ns t) (env t) w l e0 ps Hq He) as (b & -> & Hh & Hqb & Hd & Hm & Ho).
  assert (Hb : deref (EventBus.heap b) (Some l) = Ret (set_dequeue_time (pop_ns t) e0)).
  { cbn. by rewrite Hh, lookup_insert_eq. }
  rewrite Hb.
  destruct (Hadv a (inp t) _ (with_bw b w) (Hstable a b w Hd Hm Hr) Hi) as (w1 & Hw1 & Hr1 & Hf). rewrite Hw1.
  destruct (queues_holds q _ _ ps Hf Hqb) as [Hq1 Hh1]. cbn [bw with_bw] in Hh1. rewrite Hh in Hh1.
  destruct (IH (next a (inp t, set_dequeue_time (pop_ns t) e0)) ps calls w1)
    as (es & w' & Hw' & Hr' & Hend & Ho' & Hh'); try done.
  { rewrite Hh1. by rewrite calls_of_insert. }
  eexists _, w'. split; [by rewrite bindE, Hw'|]. split; [exact Hr'|]. split; [done|]. split.
  - intros q' ps' Hne Hps. apply Ho'; [done|]. eapply queues_holds; [exact Hf|]. by apply Ho.
  - intros k [Hk1 Hk2]%not_elem_of_cons. rewrite Hh' by done. rewrite Hh1. apply lookup_insert_ne. congruence.
Qed.

End Fold.

(** ** From the transactional queue to the file *)

Section Transactional.
Context (reg : Handlers.registry)
  (handle_at : Handlers.EventHandler -> Z -> Event -> outcome Handlers.HandleResult)
  (others : Output.Stream (S := S) -> Output.Stream (S := S)).

Abbreviation txn_process := (Transactional.process reg handle_at others).

Lemma keeps_bw old mr l b w :
  EventBus.dlq_ (EventBus.bus b) = EventBus.dlq_ (EventBus.bus (bw w)) ->
  EventBus.metrics b = EventBus.metrics (bw w) ->
  Transactional.keeps old mr l w -> Transactional.keeps old mr l (with_bw b w).
Proof.
  intros Hd Hm [? ? ? ? ? ? Hq Hp Hr].
  split; try done; unfold dlq, processed, dropped, metrics_of in *; cbn; by rewrite ?Hd, ?Hm.
Qed.

(** What the transactional processor never writes. *)
Definition txn_frame w := (batch w, rt w).

Lemma leaves_txn_frame i e : leaves txn_frame (txn_process i e).
Proof.
  assert (Hto : leaves txn_frame (touch Transactional.name i)).
  { intros w. by destruct (touch_rest Transactional.name i w) as [b ->]. }
  assert (Hst : forall ok, leaves txn_frame (store ok e)).
  { intros ok w. unfold store. destruct (storage_ w); [|done]. by destruct (StorageEngine.storeEvent ok e s). }
  assert (Hd : leaves txn_frame (push_dlq e)) by (apply leaves_update; intros w; by destruct (has_dlq w)).
  assert (Hc : leaves txn_frame (Transactional.cleanup_if_due i)).
  { apply leaves_update. intros w. cbv zeta. by destruct (Transactional.cleanup_due _ _). }
  assert (Hl : leaves txn_frame (Transactional.commit others i e)).
  { unfold Transactional.commit. solve_leaves. }
  unfold Transactional.process, drop_event. solve_leaves.
Qed.

Definition txn_state old mr w0 l w : Prop := Transactional.keeps old mr l w /\ txn_frame w = txn_frame w0.

Lemma txn_advances old mr w0 :
  advances (txn_state old mr w0) (Transactional.ledger_step reg handle_at mr)
    (Transactional.responds reg handle_at mr) txn_process.
Proof.
  intros l i e w [Hk Hf0] Hr.
  destruct (Transactional.txn_process_step reg handle_at others old mr l i e w Hk Hr) as (w1 & Hw1 & Hk1).
  exists w1. split; [done|].
  pose proof (leaves_queues (process := txn_process) i e w) as Hf.
  pose proof (leaves_txn_frame i e w) as Hf1. rewrite Hw1 in Hf, Hf1. split; [|done]. split; [done|].
  by rewrite <- Hf0.
Qed.

(** A processor that has seen no event yet. *)
Record txn_fresh old s w : Prop := {
  tf_table : exists n, (0 < n)%nat /\ txn w = Transactional.set_dedup (Dedup.new_table n) 0 (txn w);
  tf_running : paused_ (txn w) = false;
  tf_storage : storage_ w = Some s;
  tf_log : StorageEngine.log_ok old [] s;
  tf_has_dlq : has_dlq w = true;
  tf_dlq : DeadLetterQueue.stored_events_ (dlq w) = [];
  tf_processed : processed Transactional.name w = 0;
  tf_dropped : dropped Transactional.name w = 0
}.

Lemma txn_fresh_keeps old s w :
  txn_fresh old s w -> Transactional.keeps old (max_retries_ (txn w)) (Transactional.mkLedger ∅ 0 [] []) w.
Proof.
  intros [(n & Hn & Ht) ? ? ? ? ? ? ?]. split; try done; [|by rewrite Ht|by exists s].
  rewrite Ht. by apply Dedup.new_table_represents.
Qed.

(** The loop on the transactional queue, and what its [stop] leaves on disk. *)
Lemma transactional_loop old ts ps calls s w :
  txn_fresh old s w -> holds EventBus.TRANSACTIONAL w ps -> length ts = length ps ->
  calls_of (EventBus.heap (bw w)) ps ts = map Some calls ->
  Forall (Transactional.responds reg handle_at (max_retries_ (txn w))) calls ->
  let l := Transactional.ledger reg handle_at (max_retries_ (txn w)) calls in
  exists es w' s', runLoop EventBus.TRANSACTIONAL Transactional.start txn_process Transactional.stop ts w = (Ret es, w') /\
    storage_ w' = Some s' /\
    StorageEngine.log_ok (old ++ StorageEngine.log_bytes (map snd (Transactional.stored l))) [] s' /\
    DeadLetterQueue.stored_events_ (dlq w') = DeadLetterQueue.lastn 1000 (Transactional.dead l) /\
    txn_frame w' = txn_frame w /\ other_queues EventBus.TRANSACTIONAL ps w w'.
Proof.
  intros Hfr Hps Hlen Hcalls Hresp l.
  destruct (turns_fold _ _ _ txn_process EventBus.TRANSACTIONAL ts ps calls (Transactional.mkLedger ∅ 0 [] []) w
    (txn_advances old (max_retries_ (txn w)) w)) as (es & w' & Hw' & [Hk' Hf'] & _ & Ho'); try done.
  { intros l0 b w0 Hd Hm [Hk Hf]. split; [by apply keeps_bw|done]. }
  { split; [by eapply txn_fresh_keeps|done]. }
  destruct (Transactional.k_log _ _ _ _ Hk') as (s' & Hs' & Hl').
  eexists es, _, (StorageEngine.flush s'). unfold runLoop, Transactional.start. rewrite bindE. cbn [mret M_ret]. rewrite bindE, Hw'.
  unfold Transactional.stop, flush_storage. rewrite bindE. cbn [update]. unfold mret, M_ret.
  split; [done|]. split; [by cbn; rewrite Hs'|]. split; [by apply StorageEngine.flush_rebase|].
  split; [|done]. exact (Transactional.k_dlq _ _ _ _ Hk').
Qed.


End Transactional.

End Manager.
End ProcessManager.

(** ** Concrete runs *)

(** A world with the given pointers in the transactional queue. *)
Definition queued (h : Heap) (ps : list EventPtr) (w : PWorld unit) : PWorld unit :=
  with_bw (EventBus.set_dq EventBus.TRANSACTIONAL ps (EventBus.with_heap h (bw w))) w.

Definition heap2 : Heap := {[1%positive := audit_event; 2%positive := sample_event 9 "audit" [Byte.x02]]}.
Definition world2 : PWorld unit := queued heap2 [Some 1%positive; Some 2%positive] (empty_pworld (Some open_log)).
Definition turns2 : list ProcessManager.Turn :=
  [ProcessManager.mkTurn 11 (fun b => b) (calm 5000000); ProcessManager.mkTurn 12 (fun b => b) (calm 6000000)].

(** A processor that throws on every event. *)
Definition always_throws (i : Inputs) (e : Event) : M unit unit := lift (Throw "refused").
#[export] Instance always_throws_leaves : LeavesQueues always_throws.
Proof. intros i e w. reflexivity. Qed.

Lemma runLoop_in_order_witness :
  exists w', ProcessManager.turns EventBus.TRANSACTIONAL always_throws turns2 world2 =
      (Ret [Some (set_dequeue_time 11 audit_event); Some (set_dequeue_time 12 (sample_event 9 "audit" [Byte.x02]))], w') /\
    ProcessManager.deque EventBus.TRANSACTIONAL w' = [].
Proof.
  apply (ProcessManager.runLoop_in_order EventBus.TRANSACTIONAL always_throws turns2
           [Some 1%positive; Some 2%positive] world2).
  - intros i e w. discriminate.
  - reflexivity.
  - repeat constructor.
    + exists 1%positive, audit_event. split; reflexivity.
    + exists 2%positive, (sample_event 9 "audit" [Byte.x02]). split; reflexivity.
  - reflexivity.
Defined.

