(* ===== verification/Drain.v ===== *)
(** * From the queues to the file

    The loop of each processor thread composed with its processor and the storage
    engine: what the file holds once the events of a queue were handed over and the
    loop was stopped.  Module [Drain]: the realtime and the batch queue; the
    transactional queue is in [Manager.v].  Both are folds of the processor's own
    account over the calls the loop makes ([ProcessManager.turns_fold]). *)

From S2P Require Import Prelude Event Spsc Dlq Metrics EventBus Storage Handlers Output.
From S2P Require Import Dedup Processor Transactional Batch Manager.

Module Drain.
Section Drain.
Context {S : Type} (reg : Handlers.registry) (others : Output.Stream (S := S) -> Output.Stream (S := S)).
Implicit Types w : PWorld S.

(** ** The realtime ring *)

Abbreviation rt_process := (Realtime.process reg others).

Lemma accounts_bw old limit a b w :
  EventBus.dlq_ (EventBus.bus b) = EventBus.dlq_ (EventBus.bus (bw w)) ->
  EventBus.metrics b = EventBus.metrics (bw w) ->
  Realtime.accounts old limit a w -> Realtime.accounts old limit a (with_bw b w).
Proof.
  intros Hd Hm [? ? ? ? Hq Hp Hr].
  split; try done; unfold dlq, processed, dropped, metrics_of in *; cbn; by rewrite ?Hd, ?Hm.
Qed.

(** What the realtime processor never writes. *)
Definition rt_frame w := (txn w, batch w, metrics_of Transactional.name w).

Lemma leaves_rt_frame i e : leaves rt_frame (rt_process i e).
Proof.
  assert (Hm : forall f w, rt_frame (set_metrics Realtime.name f w) = rt_frame w).
  { intros f w. unfold rt_frame, metrics_of. cbn. by rewrite MetricRegistry.update_metrics_other. }
  assert (Hto : leaves rt_frame (touch Realtime.name i)).
  { intros w. unfold touch, update, rt_frame, metrics_of, MetricRegistry.updateEventTimestamp. cbn.
    destruct (_ && _); cbn; [done|]. case_match; cbn; [|done]. by rewrite lookup_insert_ne. }
  assert (Hst : forall ok, leaves rt_frame (store ok e)).
  { intros ok w. unfold store. destruct (storage_ w); [|done]. by destruct (StorageEngine.storeEvent ok e s). }
  assert (Hd : leaves rt_frame (push_dlq e)) by (apply leaves_update; intros w; by destruct (has_dlq w)).
  assert (Hal : forall l m, leaves rt_frame (Realtime.emitAlert l m i e)).
  { intros l m w. unfold Realtime.emitAlert. destruct (alert_handler_ (rt w)); [|done].
    by destruct (Handlers.onAlert _ _ _). }
  assert (Hu : forall f, leaves rt_frame (update (set_metrics Realtime.name f))) by (intros f w; apply Hm).
  unfold Realtime.process, Realtime.finish, drop_event, count_dropped, count_processed. solve_leaves.
Qed.

Definition rt_state old limit w0 a w : Prop := Realtime.accounts old limit a w /\ rt_frame w = rt_frame w0.

Lemma realtime_advances old limit w0 :
  ProcessManager.advances (rt_state old limit w0) (Realtime.account_step reg limit)
    (Realtime.responds reg limit) rt_process.
Proof.
  intros a i e w [Ha Hf0] Hr.
  destruct (Realtime.accounts_step reg others old limit a i e w Ha Hr) as (w1 & Hw1 & Ha1).
  exists w1. split; [done|].
  pose proof (leaves_queues (process := rt_process) i e w) as Hf.
  pose proof (leaves_rt_frame i e w) as Hf1. rewrite Hw1 in Hf, Hf1. split; [|done]. split; [done|].
  by rewrite <- Hf0.
Qed.

(** A processor that has seen no event yet. *)
Record rt_fresh old s w : Prop := {
  rf_quiet : Realtime.quiet w;
  rf_alert : is_Some (alert_handler_ (rt w));
  rf_storage : storage_ w = Some s;
  rf_log : StorageEngine.log_ok old [] s;
  rf_has_dlq : has_dlq w = true;
  rf_dlq : DeadLetterQueue.stored_events_ (dlq w) = [];
  rf_processed : processed Realtime.name w = 0;
  rf_dropped : dropped Realtime.name w = 0
}.

(** The loop on the ring, and what its [stop] leaves on disk. *)
Lemma realtime_loop old ts ps calls s w :
  rt_fresh old s w -> ProcessManager.holds EventBus.REALTIME w ps -> length ts = length ps ->
  ProcessManager.calls_of (EventBus.heap (bw w)) ps ts = map Some calls ->
  Forall (Realtime.responds reg (max_processing_ms_ (rt w))) calls ->
  let a := Realtime.account reg (max_processing_ms_ (rt w)) calls in
  exists es w' s', ProcessManager.runLoop EventBus.REALTIME Realtime.start rt_process Realtime.stop ts w = (Ret es, w') /\
    storage_ w' = Some s' /\
    StorageEngine.log_ok (old ++ StorageEngine.log_bytes (Realtime.stored a)) [] s' /\
    has_dlq w' = true /\
    DeadLetterQueue.stored_events_ (dlq w') = DeadLetterQueue.lastn 1000 (Realtime.abandoned a) /\
    processed Realtime.name w' = wrap 64 (Realtime.counted a) /\
    dropped Realtime.name w' = wrap 64 (zlen (Realtime.abandoned a)) /\
    rt_frame w' = rt_frame w /\ ProcessManager.other_queues EventBus.REALTIME ps w w'.
Proof.
  intros [Hq [ah Hah] Hs Hl Hh Hd Hp Hdr] Hring Hlen Hcalls Hresp a.
  assert (Ha : Realtime.accounts old (max_processing_ms_ (rt w)) (Realtime.mkAccount [] [] 0) w).
  { split; try done. by exists s. }
  destruct (ProcessManager.turns_fold _ _ _ rt_process EventBus.REALTIME ts ps calls
    (Realtime.mkAccount [] [] 0) w (realtime_advances old (max_processing_ms_ (rt w)) w))
    as (es & w' & Hw' & [[_ _ (s' & Hs' & Hl') Hh' Hd' Hp' Hdr'] Hf'] & _ & Ho'); try done.
  { intros a0 b w0 Hdl Hm [Hk Hf]. split; [by apply accounts_bw|]. rewrite <- Hf.
    unfold rt_frame, metrics_of. cbn. by rewrite Hm. }
  eexists es, _, (StorageEngine.flush s'). unfold ProcessManager.runLoop, Realtime.start. rewrite bindE, Hah, bindE, Hw'.
  unfold Realtime.stop, flush_storage. rewrite bindE. cbn [update]. unfold mret, M_ret.
  split; [done|]. split; [by cbn; rewrite Hs'|]. split; [by apply StorageEngine.flush_rebase|].
  by split_and!.
Qed.

(** C9: from the realtime ring to the file: the loop of the realtime processor that makes as many passes
    as events are in the ring and is then stopped returns with the file holding exactly the records of
    the events handled within the limit, in ring order; every other event is, in order, in the
    dead-letter queue, which keeps the latest thousand, and the counters are exact. *)
Theorem realtime_queue_to_disk old ts ps calls s w :
  rt_fresh old s w -> ProcessManager.holds EventBus.REALTIME w ps -> length ts = length ps ->
  ProcessManager.calls_of (EventBus.heap (bw w)) ps ts = map Some calls ->
  Forall (Realtime.responds reg (max_processing_ms_ (rt w))) calls ->
  let a := Realtime.account reg (max_processing_ms_ (rt w)) calls in
  exists es w' s', ProcessManager.runLoop EventBus.REALTIME Realtime.start rt_process Realtime.stop ts w = (Ret es, w') /\
    storage_ w' = Some s' /\
    StorageEngine.on_disk (StorageEngine.storageFile s') =
      old ++ StorageEngine.log_bytes (Realtime.stored a) /\
    DeadLetterQueue.stored_events_ (dlq w') = DeadLetterQueue.lastn 1000 (Realtime.abandoned a) /\
    processed Realtime.name w' = wrap 64 (Realtime.counted a) /\
    dropped Realtime.name w' = wrap 64 (zlen (Realtime.abandoned a)).
Proof.
  intros Hfr Hring Hlen Hcalls Hresp a.
  destruct (realtime_loop old ts ps calls s w Hfr Hring Hlen Hcalls Hresp)
    as (es & w' & s' & Hw' & Hs' & Hl' & _ & Hd' & Hp' & Hdr' & _).
  exists es, w', s'. split_and!; try done. by apply StorageEngine.log_ok_disk.
Qed.

(** ** The batch queue *)

Abbreviation batch_process := (Batch.process reg others).

Lemma queues_flush_bucket i t : leaves (S := S) queues (Batch.flushBucketLocked reg others i t).
Proof.
  assert (Hloop : forall h es n, leaves (S := S) queues (Batch.flush_loop others i h es n)).
  { intros h es. induction es as [|e es IH]; intros n; cbn [Batch.flush_loop]; [done|].
    solve_leaves; first [apply IH|by apply leaves_update]. }
  unfold Batch.flushBucketLocked. solve_leaves.
Qed.

#[local] Hint Resolve queues_flush_bucket : leaves.

(** While it is not told to drop, the batch processor leaves the queues alone. *)
Lemma batch_leaves_queues i e w :
  drop_events_ (batch w) = false -> queues (batch_process i e w).2 = queues w.
Proof.
  intros Hon. unfold Batch.process. mrun.
  change (drop_events_ (batch (set_metrics Batch.name (fun m => m) w))) with (drop_events_ (batch w)). rewrite Hon.
  change (queues w) with (queues (set_metrics Batch.name (fun m => m) w)).
  match goal with |- queues (?m ?w0).2 = _ => enough (leaves queues m) as Hm by apply (Hm w0) end.
  unfold Batch.bucket_event. solve_leaves.
Qed.

Definition admit_next (ad : list Event) (call : Inputs * Event) : list Event :=
  if bool_decide (Batch.admits reg call.2 = Ret true) then ad ++ [call.2] else ad.

Lemma admit_next_all calls ad : fold_left admit_next calls ad = ad ++ Batch.admitted_of reg calls.
Proof.
  revert ad. induction calls as [|[i e] calls IH]; intros ad; [by rewrite app_nil_r|].
  cbn [fold_left]. rewrite IH. unfold admit_next, Batch.admitted_of. cbn [map snd List.filter].
  case_bool_decide; [by rewrite <- app_assoc|done].
Qed.

Definition batching old ad w : Prop := exists fl, Batch.batched reg old ad fl w.

Lemma batch_advances old :
  ProcessManager.advances (batching old) admit_next (Batch.responds reg) batch_process.
Proof.
  intros ad i e w [fl Hb] (Hacc & Ha & b & Had). cbn [fst snd] in *.
  destruct (Batch.batch_process_step reg others old ad fl i e b w Hacc Hb Had Ha) as (w1 & fl1 & Hw1 & Hb1).
  exists w1. split; [done|]. split.
  - exists fl1. unfold admit_next. cbn [snd]. rewrite Had. by destruct b.
  - pose proof (batch_leaves_queues i e w (Batch.b_on _ _ _ _ _ Hb)) as Hf. by rewrite Hw1 in Hf.
Qed.

(** A processor with no bucket. *)
Record batch_fresh old s w : Prop := {
  bf_storage : storage_ w = Some s;
  bf_log : StorageEngine.log_ok old [] s;
  bf_on : drop_events_ (batch w) = false;
  bf_buckets : buckets_ (batch w) = ∅
}.

Lemma batch_loop old ts ps calls js walk s w :
  batch_fresh old s w -> ProcessManager.holds EventBus.BATCHQ w ps -> length ts = length ps ->
  ProcessManager.calls_of (EventBus.heap (bw w)) ps ts = map Some calls ->
  Forall (Batch.responds reg) calls -> (forall t k, accepted (js t) k = true) -> Batch.complete walk ->
  exists es w' s' flushed,
    ProcessManager.runLoop EventBus.BATCHQ Batch.start batch_process (Batch.stop reg others js walk) ts w = (Ret es, w') /\
    storage_ w' = Some s' /\
    StorageEngine.on_disk (StorageEngine.storageFile s') = old ++ StorageEngine.log_bytes flushed /\
    forall t, List.filter (Batch.of_topic t) flushed =
              List.filter (fun e => Batch.of_topic t e && Batch.good reg e) (Batch.admitted_of reg calls).
Proof.
  intros [Hs Hl Hon Hbk] Hq Hlen Hcalls Hresp Hacc Hwalk.
  assert (H0 : batching old [] w) by (exists []; by eapply Batch.batched_initially).
  destruct (ProcessManager.turns_fold (batching old) admit_next _ batch_process EventBus.BATCHQ ts ps calls [] w
    (batch_advances old)) as (es & w1 & Hw1 & [fl1 Hb1] & _); try done.
  { intros ad b w0 _ _ [fl Hb]. exists fl. by eapply Batch.batched_ext; [..|exact Hb]. }
  rewrite admit_next_all in Hb1. cbn [app] in Hb1.
  destruct (Batch.stop_flushes reg others old _ js walk fl1 w1 Hacc Hwalk Hb1)
    as (w2 & s2 & fl2 & Hw2 & Hs2 & Hdisk & Hord & _).
  exists es, w2, s2, fl2. split; [|done]. unfold ProcessManager.runLoop, Batch.start. rewrite bindE. cbn [mret M_ret]. rewrite bindE, Hw1. by rewrite bindE, Hw2.
Qed.

(** C10: from the batch queue to the file: the loop of a batch processor with no bucket that makes as many
    passes as events are queued and is then stopped returns with the file holding, for every topic,
    exactly the admitted events of that topic the handler did not refuse, each once and in queue order,
    and nothing else of that topic. *)
Theorem batch_queue_to_disk old ts ps calls js walk s w :
  batch_fresh old s w -> ProcessManager.holds EventBus.BATCHQ w ps -> length ts = length ps ->
  ProcessManager.calls_of (EventBus.heap (bw w)) ps ts = map Some calls ->
  Forall (Batch.responds reg) calls -> (forall t k, accepted (js t) k = true) -> Batch.complete walk ->
  exists es w' s' flushed,
    ProcessManager.runLoop EventBus.BATCHQ Batch.start batch_process (Batch.stop reg others js walk) ts w = (Ret es, w') /\
    storage_ w' = Some s' /\
    StorageEngine.on_disk (StorageEngine.storageFile s') = old ++ StorageEngine.log_bytes flushed /\
    forall t, List.filter (Batch.of_topic t) flushed =
              List.filter (fun e => Batch.of_topic t e && Batch.good reg e) (Batch.admitted_of reg calls).
Proof. apply batch_loop. Qed.

End Drain.
End Drain.

(** ** Concrete runs *)

(** Two audit records in the realtime ring, the second of which has no payload. *)
Definition empty_audit : Event := sample_event 9 "audit" [].
Definition heap3 : Heap := {[1%positive := audit_event; 2%positive := empty_audit]}.
Definition ring_of (ps : list EventPtr) : Spsc.Ring :=
  fold_left (fun r p => (Spsc.push EventBus.log_ring p r).2) ps (Spsc.new_ring EventBus.log_ring).
Definition ring_world : PWorld unit :=
  let w := empty_pworld (Some open_log) in
  with_bw (EventBus.set_ring (ring_of [Some 1%positive; Some 2%positive]) (EventBus.with_heap heap3 (bw w))) w.

Lemma ring_of_two p q : exists tc, Spsc.represents EventBus.log_ring (ring_of [p; q]) [p; q] tc.
Proof.
  exists 0. pose proof EventBus.log_ring_range as Hr.
  pose proof (Spsc.push_represents _ Hr p _ _ _ (Spsc.new_ring_represents _ Hr)) as H1.
  unfold ring_of. cbn [fold_left]. destruct (Spsc.push EventBus.log_ring p _) as [b1 r1]. cbn in H1.
  destruct H1 as [_ H1]. pose proof (Spsc.push_represents _ Hr q _ _ _ H1) as H2. cbn [snd].
  destruct (Spsc.push EventBus.log_ring q r1) as [b2 r2]. cbn in H2. apply H2.
Qed.

Lemma realtime_queue_to_disk_witness :
  exists es w' s', ProcessManager.runLoop EventBus.REALTIME Realtime.start (Realtime.process handlers0 (fun st => st))
      Realtime.stop turns2 ring_world = (Ret es, w') /\
    storage_ w' = Some s' /\
    StorageEngine.on_disk (StorageEngine.storageFile s') = StorageEngine.log_bytes [set_dequeue_time 11 audit_event] /\
    DeadLetterQueue.stored_events_ (dlq w') = [set_dequeue_time 12 empty_audit].
Proof.
  destruct (ring_of_two (Some 1%positive) (Some 2%positive)) as [tc Hring].
  destruct (Drain.realtime_queue_to_disk handlers0 (fun st => st) [] turns2 [Some 1%positive; Some 2%positive]
    [(calm 5000000, set_dequeue_time 11 audit_event); (calm 6000000, set_dequeue_time 12 empty_audit)]
    open_log ring_world) as (es & w' & s' & H1 & H2 & H3 & H4 & _).
  - split; try reflexivity.
    + intros h a seen. cbn. intros [= <-]. reflexivity.
    + eexists. reflexivity.
    + exists [], []. repeat split; reflexivity.
  - exists tc. exact Hring.
  - reflexivity.
  - reflexivity.
  - repeat constructor; eexists; vm_compute; reflexivity.
  - exists es, w', s'. split; [exact H1|]. split; [exact H2|]. split; [exact H3|]. exact H4.
Defined.

(** Two audit records in the batch queue. *)
Definition batch_world : PWorld unit :=
  let w := empty_pworld (Some open_log) in
  with_bw (EventBus.set_dq EventBus.BATCHQ [Some 1%positive; Some 2%positive] (EventBus.with_heap heap2 (bw w))) w.

Lemma batch_queue_to_disk_witness :
  exists es w2 s2 flushed,
    ProcessManager.runLoop EventBus.BATCHQ Batch.start (Batch.process handlers0 (fun st => st))
      (Batch.stop handlers0 (fun st => st) (fun _ => calm 8000000000) map_walk) turns2 batch_world = (Ret es, w2) /\
    storage_ w2 = Some s2 /\
    StorageEngine.on_disk (StorageEngine.storageFile s2) = [] ++ StorageEngine.log_bytes flushed /\
    List.filter (Batch.of_topic "audit") flushed =
      [set_dequeue_time 11 audit_event; set_dequeue_time 12 (sample_event 9 "audit" [Byte.x02])].
Proof.
  destruct (Drain.batch_queue_to_disk handlers0 (fun st => st) [] turns2 [Some 1%positive; Some 2%positive]
    [(calm 5000000, set_dequeue_time 11 audit_event);
     (calm 6000000, set_dequeue_time 12 (sample_event 9 "audit" [Byte.x02]))]
    (fun _ => calm 8000000000) map_walk open_log batch_world) as (es & w2 & s2 & fl & H1 & H2 & H3 & H4).
  - split; try reflexivity. exists [], []. repeat split; reflexivity.
  - reflexivity.
  - reflexivity.
  - reflexivity.
  - repeat constructor; try (intros k; reflexivity); try (eexists; vm_compute; reflexivity).
  - intros t k. reflexivity.
  - exact map_walk_complete.
  - exists es, w2, s2, fl. split; [exact H1|]. split; [exact H2|]. split; [exact H3|]. rewrite H4.
    vm_compute. reflexivity.
Defined.

(** The loop calls [stop] outside its [try]: the exception of a handler on an event still in a bucket leaves the thread
    function, which ends the process, and the event behind it is never written. *)
Example batch_stop_throw_escapes :
  match ProcessManager.runLoop EventBus.BATCHQ Batch.start (Batch.process [("x"%string, fussy)] (fun st => st))
          (Batch.stop [("x"%string, fussy)] (fun st => st) (fun _ => calm 8000000000) map_walk) [] poisoned with
  | (Throw what, w) => Some (what, map (fun e => id (header e)) (events (Batch.bucket_of "x" w)))
  | _ => None
  end = Some ("bad event"%string, [1; 2]).
Proof. vm_compute. reflexivity. Qed.
