(* ===== verification/Safety.v ===== *)
(** * What a call of a processor does to the engine around it

    Whatever the state of a processor and the answers of the file system, a call of it
    that meets no undefined behaviour in a handler meets none at all, and of the bus it
    changes only the dead-letter queue and, for a batch processor told to drop, the front
    of the batch queue.  [upholds] is the triple the calls are proved with, [solve_upholds]
    follows a body to its operations. *)

From S2P Require Import Prelude Event Spsc Dlq Metrics EventBus Storage Handlers Output Dedup.
From S2P Require Import Processor Transactional Batch.

(** ** Calls that keep a property of the world, whether they return or throw *)

Section Upholds.
Context {S : Type} (P : PWorld S -> Prop).
Implicit Types w : PWorld S.

Definition upholds {A} (m : M S A) : Prop := forall w, P w -> (m w).1 <> UB /\ P (m w).2.

Lemma upholds_ret {A} (a : A) : upholds (mret a).
Proof. by intros w Hw. Qed.

Lemma upholds_bind {A B} (m : M S A) (k : A -> M S B) :
  upholds m -> (forall a, upholds (k a)) -> upholds (m ≫= k).
Proof.
  intros Hm Hk w Hw. rewrite bindE. destruct (Hm w Hw) as [Hub Hw']. destruct (m w) as [[a| |] w']; [|done..].
  by apply Hk.
Qed.

(** Foreign code: what it answered is known to what follows. *)
Lemma upholds_lift {A B} (o : outcome A) (k : A -> M S B) :
  o <> UB -> (forall a, o = Ret a -> upholds (k a)) -> upholds (lift o ≫= k).
Proof. intros Ho Hk w Hw. rewrite bindE. cbn [lift]. destruct o; [by apply Hk|done|done]. Qed.

Lemma upholds_get {B} (k : PWorld S -> M S B) :
  (forall w, P w -> (k w w).1 <> UB /\ P (k w w).2) -> upholds (get ≫= k).
Proof. intros Hk w Hw. rewrite bindE. cbn [get]. by apply Hk. Qed.

Lemma upholds_get_any {B} (k : PWorld S -> M S B) : (forall w, upholds (k w)) -> upholds (get ≫= k).
Proof. intros Hk. apply upholds_get. intros w Hw. by apply Hk. Qed.

Lemma upholds_update (f : PWorld S -> PWorld S) : (forall w, P w -> P (f w)) -> upholds (update f).
Proof. intros Hf w Hw. split; [done|]. by apply Hf. Qed.

End Upholds.

Create HintDb upholds discriminated.
#[export] Hint Constants Opaque : upholds.
#[export] Hint Resolve upholds_ret : upholds.

(** Follow a translated body to the operations it is made of. *)
Ltac solve_upholds :=
  repeat (intros; lazymatch goal with
    | |- upholds _ (mbind _ (lift _)) => apply upholds_lift
    | |- upholds _ (mbind _ get) => apply upholds_get_any
    | |- upholds _ (mbind _ _) => apply upholds_bind
    | |- upholds _ (if _ then _ else _) => case_match
    | |- upholds _ _ => solve [eauto with upholds]
    end).

Module Safety.

(** ** Handlers *)

(** A handler whose rule check and handling are defined on what its [validate] lets pass. *)
Definition guarded (h : Handlers.EventHandler) (e : Event) : Prop :=
  Handlers.validate h e <> UB /\
  forall v, Handlers.validate h e = Ret v -> Handlers.valid v = true ->
    Handlers.checkRules h e <> UB /\ Handlers.handle h e <> UB.

Definition tame (reg : Handlers.registry) : Prop :=
  forall topic e, guarded (Handlers.getOrDefault topic reg) e.

Lemma default_validate_defined topic e :
  Handlers.validate (Handlers.getOrDefault topic (Handlers.registerDefaultHandlers [])) e <> UB.
Proof.
  unfold Handlers.getOrDefault. destruct (Handlers.getHandler topic _) as [g|] eqn:E; [|done].
  apply Handlers.getHandler_longest in E as (p & Hin & _).
  repeat (apply elem_of_cons in Hin as [[= _ ->]|Hin]; [done|]). by apply not_elem_of_nil in Hin.
Qed.

(** The handlers [main] registers. *)
Lemma defaults_tame : tame (Handlers.registerDefaultHandlers []).
Proof.
  intros topic e. split; [apply default_validate_defined|]. intros v Hv Hok.
  destruct (Handlers.builtin_handlers_guarded topic e v Hv Hok) as (r & hr & -> & ->). done.
Qed.

(** ** The bus within its frame *)

Section Within.
Context {S : Type} (reg : Handlers.registry)
  (handle_at : Handlers.EventHandler -> Z -> Event -> outcome Handlers.HandleResult)
  (others : Output.Stream (S := S) -> Output.Stream (S := S)).
Context (a : EventBus.Abs) (h : Heap) (may_drop : Prop).
Implicit Types w : PWorld S.

(** The buckets hold events their handler is defined on. *)
Definition buckets_ok w : Prop := forall t b, buckets_ (batch w) !! t = Some b ->
  Forall (fun e => Handlers.handle (Handlers.getOrDefault t reg) e <> UB) (events b).

(** The queues are those of [a], less some events from the front of the batch queue, every one of which
    was counted by the dead-letter queue. *)
Definition within w : Prop :=
  buckets_ok w /\ EventBus.heap (bw w) = h /\
  exists gone bt n, EventBus.a_bt a = gone ++ bt /\ (gone <> [] -> may_drop) /\
    EventBus.a_dropped a + zlen gone <= n /\
    EventBus.sim (bw w) (EventBus.mkAbs (EventBus.a_rt a) (EventBus.a_tx a) bt n).

Lemma within_same w w' :
  batch w' = batch w -> EventBus.heap (bw w') = EventBus.heap (bw w) -> EventBus.bus (bw w') = EventBus.bus (bw w) ->
  within w -> within w'.
Proof.
  intros Hb Hh Hbus (Hk & Hheap & gone & bt & n & H1 & H2 & H3 & Hs). unfold within, buckets_ok. rewrite Hb, Hh.
  split; [done|]. split; [done|]. exists gone, bt, n. do 3 (split; [done|]). by eapply EventBus.sim_same.
Qed.

Lemma within_push_dlq e : upholds within (push_dlq e).
Proof.
  apply upholds_update. intros w (Hk & Hh & gone & bt & n & H1 & H2 & H3 & Hs).
  destruct (has_dlq w); [|split; [done|split; [done|by exists gone, bt, n]]].
  split; [done|]. split; [done|]. exists gone, bt, (n + 1). do 2 (split; [done|]). split; [lia|].
  destruct Hs as [Hr Ht Hb Hp Hd Hl]. split; try done. cbn in *. unfold add64. by rewrite Hd, wrap_add_l.
Qed.

Lemma within_store ok e : upholds within (store ok e).
Proof.
  intros w Hw. unfold store. destruct (storage_ w) as [s|]; [|done].
  assert (Hub : (StorageEngine.storeEvent ok e s).1 <> UB).
  { unfold StorageEngine.storeEvent. by repeat case_match. }
  destruct (StorageEngine.storeEvent ok e s) as [o s']. split; [done|]. by eapply within_same; [..|exact Hw].
Qed.

Lemma within_touch name i : upholds within (touch name i).
Proof.
  intros w Hw. destruct (touch_rest name i w) as [b Hb]. pose proof (touch_metrics name i w) as (_ & _ & H1 & H2).
  rewrite Hb in *. cbn in *. split; [done|]. by eapply within_same; [..|exact Hw].
Qed.

Lemma within_alert level message i e : upholds within (Realtime.emitAlert level message i e).
Proof.
  intros w Hw. unfold Realtime.emitAlert. destruct (alert_handler_ (rt w)); [|done].
  destruct (Handlers.onAlert _ _ _) as [threw seen]. split; [by destruct threw|]. by eapply within_same; [..|exact Hw].
Qed.

Lemma within_update f :
  (forall w, batch (f w) = batch w /\ EventBus.heap (bw (f w)) = EventBus.heap (bw w) /\
             EventBus.bus (bw (f w)) = EventBus.bus (bw w)) -> upholds within (update f).
Proof. intros Hf. apply upholds_update. intros w Hw. destruct (Hf w) as (H1 & H2 & H3). by eapply within_same. Qed.

Lemma within_metric name f : upholds within (update (set_metrics name f)).
Proof. by apply within_update. Qed.
Lemma within_notify_dropped name reason e : upholds within (notify_dropped others name reason e).
Proof. apply within_update. intros w. by destruct (Output.notifyDropped _ _ _ _ _ _). Qed.
Lemma within_notify_processed name e : upholds within (notify_processed others name e).
Proof. apply within_update. intros w. by destruct (Output.notifyProcessed _ _ _ _ _). Qed.
Lemma within_flush : upholds within flush_storage.
Proof. by apply within_update. Qed.

#[local] Hint Resolve within_push_dlq within_store within_touch within_alert within_metric within_notify_dropped
  within_notify_processed within_flush : upholds.

Lemma within_drop name reason e : upholds within (drop_event others name reason e).
Proof. unfold drop_event, count_dropped. solve_upholds. Qed.

#[local] Hint Resolve within_drop : upholds.

(** ** The processors *)

Context (reg_tame : tame reg).
Context (handle_at_defined : forall hd k e, Handlers.handle hd e <> UB -> handle_at hd k e <> UB).

Lemma realtime_within i e : upholds within (Realtime.process reg others i e).
Proof using reg_tame.
  destruct (reg_tame (topic e) e) as [Hv Hg].
  assert (Hfin : upholds within (Realtime.finish others i e)).
  { unfold Realtime.finish, count_dropped. solve_upholds. }
  unfold Realtime.process. apply upholds_bind; [apply within_metric|]. intros _.
  apply upholds_lift; [done|]. intros v Hval. destruct (Handlers.valid v) eqn:Ev; cbn [negb]; [|apply within_drop].
  destruct (Hg v Hval Ev) as [Hr Hh].
  apply upholds_lift; [done|]. intros r _. destruct (Handlers.valid r); cbn [negb]; [|apply within_drop].
  apply upholds_lift; [done|]. intros result _. unfold count_processed.
  destruct (Handlers.r_outcome result); solve_upholds.
Qed.

Lemma retry_defined hd e n k : Handlers.handle hd e <> UB -> Transactional.retry handle_at hd e n k <> UB.
Proof using handle_at_defined.
  intros Hd. revert k. induction n as [|n IH]; intros k; [done|]. cbn [Transactional.retry].
  pose proof (handle_at_defined hd k e Hd). destruct (handle_at hd k e) as [r| |]; [|done..]. cbn [mbind outcome_bind].
  destruct (_ || _); [done|apply IH].
Qed.

Lemma commit_within i e : upholds within (Transactional.commit others i e).
Proof.
  unfold Transactional.commit, count_processed.
  assert (Hl : upholds within (update (fun w => if 0 <? dequeue_time_ns e
     then with_txn (Transactional.record_latency (sub64 (latency_now_ns i) (dequeue_time_ns e)) (txn w)) w else w)))
    by (apply within_update; intros w; by destruct (0 <? dequeue_time_ns e)).
  assert (Hi : upholds within (update (fun w => with_txn (Transactional.set_dedup
     (Dedup.insert (id (header e)) (wall_ms i) (dedup_table_ (txn w))).2 (last_cleanup_ms_ (txn w)) (txn w)) w)))
    by (by apply within_update).
  solve_upholds.
Qed.

Lemma transactional_within i e : upholds within (Transactional.process reg handle_at others i e).
Proof using reg_tame handle_at_defined.
  destruct (reg_tame (topic e) e) as [Hv Hg]. pose proof commit_within as Hcommit.
  assert (Hclean : upholds within (Transactional.cleanup_if_due i)).
  { apply within_update. intros w. cbv zeta. by destruct (Transactional.cleanup_due _ _). }
  unfold Transactional.process. apply upholds_bind; [apply within_metric|]. intros _.
  apply upholds_get_any. intros w. destruct (paused_ (txn w)); [apply within_drop|].
  destruct (Dedup.is_duplicate _ _ _); [apply upholds_ret|]. apply upholds_bind; [done|]. intros _.
  apply upholds_lift; [done|]. intros v Hval. destruct (Handlers.valid v) eqn:Ev; cbn [negb]; [|apply within_drop].
  destruct (Hg v Hval Ev) as [Hr Hh].
  apply upholds_lift; [done|]. intros r _. destruct (Handlers.valid r); cbn [negb]; [|apply within_drop].
  apply upholds_lift; [by apply retry_defined|]. intros [|] _; [apply Hcommit|apply within_drop].
Qed.

Lemma flush_loop_within i t evts n :
  Forall (fun e => Handlers.handle (Handlers.getOrDefault t reg) e <> UB) evts ->
  upholds within (Batch.flush_loop others i (Handlers.getOrDefault t reg) evts n).
Proof.
  intros Hev. revert n. induction Hev as [|e evts He Hev IH]; intros n; [apply upholds_ret|]. cbn [Batch.flush_loop].
  apply upholds_lift; [done|]. intros r _. destruct (_ || _); solve_upholds.
Qed.

Lemma within_bucket t f :
  (forall b, Forall (fun e => Handlers.handle (Handlers.getOrDefault t reg) e <> UB) (events b) ->
     Forall (fun e => Handlers.handle (Handlers.getOrDefault t reg) e <> UB) (events (f b))) ->
  upholds within (update (fun w => Batch.set_bucket t (f (Batch.bucket_of t w)) w)).
Proof.
  intros Hf. apply upholds_update. intros w (Hk & Hh & gone & bt & n & H1 & H2 & H3 & Hs).
  split; [|split; [done|]; exists gone, bt, n; by destruct Hs]. intros t' b. cbn [buckets_ batch Batch.set_bucket with_batch].
  destruct (decide (t' = t)) as [->|Hne].
  - rewrite lookup_insert_eq. intros [= <-]. apply Hf. unfold Batch.bucket_of.
    destruct (buckets_ (batch w) !! t) as [b|] eqn:E; cbn; [by eapply Hk|constructor].
  - rewrite lookup_insert_ne by done. apply Hk.
Qed.

Lemma flush_bucket_within i t : upholds within (Batch.flushBucketLocked reg others i t).
Proof.
  unfold Batch.flushBucketLocked. apply upholds_get. intros w Hw.
  assert (Hev : Forall (fun e => Handlers.handle (Handlers.getOrDefault t reg) e <> UB) (events (Batch.bucket_of t w))).
  { unfold Batch.bucket_of. destruct (buckets_ (batch w) !! t) as [b|] eqn:E; cbn; [|constructor].
    destruct Hw as [Hk _]. by eapply Hk. }
  destruct (events (Batch.bucket_of t w)) as [|e evts]; [done|]. revert w Hw Hev. intros w Hw Hev.
  refine (upholds_bind within _ _ (flush_loop_within i t (e :: evts) 0 Hev) _ w Hw). intros _.
  apply upholds_bind; [apply within_flush|]. intros _.
  by apply (within_bucket t (fun b => mkTopicBucket [] (last_flush_time b))).
Qed.

(** [dropBatchFromQueue]. *)
Lemma drop_queue_within : may_drop -> upholds within Batch.drop_queue.
Proof.
  intros Hmay w (Hk & Hh & gone & bt & n & H1 & H2 & H3 & Hs). unfold Batch.drop_queue.
  destruct (has_bus (batch w)); [|split; [done|]; split; [done|]; split; [done|]; by exists gone, bt, n].
  destruct (EventBus.drop_sim EventBus.BATCHQ _ _ Hs) as (k & b & -> & _ & Hs' & Hh'). split; [done|].
  split; [done|]. split; [cbn; by rewrite Hh'|]. exists (gone ++ take 64 bt), (drop 64 bt), (n + zlen (take 64 bt)).
  split; [by rewrite <- app_assoc, take_drop|]. split; [done|]. split; [rewrite zlen_app; lia|exact Hs'].
Qed.

Lemma batch_within i e : may_drop -> upholds within (Batch.process reg others i e).
Proof using reg_tame.
  intros Hmay. destruct (reg_tame (topic e) e) as [Hv Hg]. pose proof (drop_queue_within Hmay) as Hdrop.
  unfold Batch.process, count_dropped. apply upholds_bind; [apply within_metric|]. intros _.
  apply upholds_get_any. intros w. destruct (drop_events_ (batch w)); [solve_upholds|].
  apply upholds_lift; [done|]. intros v Hval. destruct (Handlers.valid v) eqn:Ev; cbn [negb]; [|apply within_drop].
  destruct (Hg v Hval Ev) as [Hr Hh].
  apply upholds_lift; [done|]. intros r _. destruct (Handlers.valid r); cbn [negb]; [|apply within_drop].
  unfold Batch.bucket_event, count_processed. apply upholds_bind.
  { apply (within_bucket (topic e) (fun b => mkTopicBucket (events b ++ [e]) (last_flush_time b))).
    intros b Hb. apply Forall_app. split; [done|]. by constructor. }
  intros _. apply upholds_bind; [apply within_metric|]. intros _. apply upholds_get_any. intros w1.
  assert (Ht : upholds within (update (fun w => Batch.set_bucket (topic e)
    (mkTopicBucket (events (Batch.bucket_of (topic e) w)) (steady_ns i)) w))).
  { by apply (within_bucket (topic e) (fun b => mkTopicBucket (events b) (steady_ns i))). }
  pose proof (flush_bucket_within i (topic e)) as Hflush.
  destruct (_ =? 0); [solve_upholds|]. destruct (_ <=? _); solve_upholds.
Qed.

(** The [stop] of the three. *)
Lemma stop_within i walk : upholds within (Batch.stop reg others i walk).
Proof.
  assert (Heach : forall ts, upholds within (Batch.flush_each reg others i ts)).
  { induction ts as [|t ts IH]; cbn [Batch.flush_each]; [apply upholds_ret|].
    apply upholds_bind; [apply flush_bucket_within|done]. }
  unfold Batch.stop. apply upholds_get_any. intros w. apply upholds_bind; [apply Heach|]. intros _. apply within_flush.
Qed.

End Within.
End Safety.
