(* ===== verification/Ledger.v ===== *)
(** * What a call of a processor does to the books of the engine

    The three processors share the storage and the dead-letter queue, and each has counters
    of its own.  Module [Ledger]: for each processor what one call of [process], and its
    [stop], adds to the log, to the buckets and to its counter of dropped events, and that
    it leaves the books of the others alone - whatever the others have written in the
    meantime.  The handlers answer, the alert handler does not throw and the file system
    accepts the writes. *)

From S2P Require Import Prelude Event Dlq Metrics EventBus Storage Handlers Output Dedup Processor Transactional Batch Safety.

Module Ledger.

(** ** Events by topic *)

Definition all_events (m : gmap string TopicBucket) : list Event := concat (map (fun kv => events kv.2) (map_to_list m)).

Lemma all_events_insert m t b : all_events (<[t := b]> m) ≡ₚ events b ++ all_events (delete t m).
Proof.
  unfold all_events. rewrite <- insert_delete_eq. rewrite (map_to_list_insert (delete t m) t b) by apply lookup_delete_eq. done.
Qed.

Lemma all_events_lookup m t :
  all_events m ≡ₚ events (default (mkTopicBucket [] 0) (m !! t)) ++ all_events (delete t m).
Proof.
  destruct (m !! t) as [b|] eqn:E; cbn [default events app].
  - rewrite <- (insert_id m t b) at 1 by done. apply all_events_insert.
  - by rewrite delete_id.
Qed.

Section Ledger.
Context {S : Type} (reg : Handlers.registry)
  (handle_at : Handlers.EventHandler -> Z -> Event -> outcome Handlers.HandleResult)
  (others : Output.Stream (S := S) -> Output.Stream (S := S)).
Implicit Types w : PWorld S.

(** ** The books *)

(** The log holds [L] after [old], part of it possibly in the stream's buffer. *)
Definition logged (old : list byte) (L : list Event) w : Prop :=
  exists s, storage_ w = Some s /\ StorageEngine.log_ok old L s.

(** The members of the three processors, and the counters of all but [n]. *)
Definition apart (n : string) w w' : Prop := forall n', n' <> n -> metrics_of n' w' = metrics_of n' w.

Definition bucketed w : list Event := all_events (buckets_ (batch w)).

(** A bucket holds events of its topic the handler answers on. *)
Definition sorted_buckets w : Prop :=
  forall t, Forall (fun e => topic e = t /\ Batch.answers reg e) (events (Batch.bucket_of t w)).

(** The ids the transactional processor remembers. *)
Definition remembers w (ids : Z -> Prop) : Prop :=
  exists m, Dedup.represents (dedup_table_ (txn w)) m /\ forall k, is_Some (m !! k) -> ids k.

(** ** Handlers that answer *)

Definition answering : Prop := forall topic e, exists v,
  Handlers.validate (Handlers.getOrDefault topic reg) e = Ret v /\
  (Handlers.valid v = true ->
     (exists r, Handlers.checkRules (Handlers.getOrDefault topic reg) e = Ret r) /\
     exists hr, Handlers.handle (Handlers.getOrDefault topic reg) e = Ret hr).

Definition accepting (i : Inputs) : Prop := forall k, accepted i k = true.

Lemma apart_trans n w1 w2 w3 : apart n w1 w2 -> apart n w2 w3 -> apart n w1 w3.
Proof. intros H1 H2 n' Hn. by rewrite H2, H1. Qed.

Lemma apart_set n f w : apart n w (set_metrics n f w).
Proof. intros n' Hn. unfold metrics_of. cbn. by rewrite MetricRegistry.update_metrics_other. Qed.

(** A computation that counts under one name leaves the other counters alone. *)
Definition counts_as {A} (n : string) (m : M S A) : Prop := forall n', n' <> n -> leaves (metrics_of n') m.

Lemma counts_apart {A} n (m : M S A) w : counts_as n m -> apart n w (m w).2.
Proof. intros Hm n' Hn. by apply Hm. Qed.

Lemma leaves_set n n' f : n' <> n -> leaves (S := S) (metrics_of n') (update (set_metrics n f)).
Proof. intros Hn w. by apply apart_set. Qed.

Lemma leaves_touch n n' i : n' <> n -> leaves (S := S) (metrics_of n') (touch n i).
Proof.
  intros Hn w. unfold touch, update, metrics_of, MetricRegistry.updateEventTimestamp. cbn.
  destruct (_ && _); cbn; [done|]. case_match; cbn; [|done]. by rewrite lookup_insert_ne.
Qed.

Lemma leaves_store {X} (v : PWorld S -> X) ok e :
  (forall s w, v (with_storage s w) = v w) -> leaves v (store ok e).
Proof. intros Hv w. unfold store. destruct (storage_ w); [|done]. destruct (StorageEngine.storeEvent ok e _). apply Hv. Qed.

Lemma leaves_push_dlq n e : leaves (S := S) (metrics_of n) (push_dlq e).
Proof. apply leaves_update. intros w. by destruct (has_dlq w). Qed.

Lemma leaves_alert n l m i e : leaves (S := S) (metrics_of n) (Realtime.emitAlert l m i e).
Proof. intros w. unfold Realtime.emitAlert. destruct (alert_handler_ (rt w)); [|done]. by destruct (Handlers.onAlert _ _ _). Qed.

Lemma leaves_notify_dropped n name reason e : leaves (S := S) (metrics_of n) (notify_dropped others name reason e).
Proof. by apply leaves_update. Qed.
Lemma leaves_notify_processed n name e : leaves (S := S) (metrics_of n) (notify_processed others name e).
Proof. by apply leaves_update. Qed.

Lemma leaves_store_metrics n ok e : leaves (S := S) (metrics_of n) (store ok e).
Proof. by apply leaves_store. Qed.

#[local] Hint Resolve leaves_set leaves_touch leaves_store_metrics leaves_push_dlq leaves_alert leaves_notify_dropped
  leaves_notify_processed : leaves.

Lemma leaves_drop_event n n' reason e : n' <> n -> leaves (S := S) (metrics_of n') (drop_event others n reason e).
Proof. intros Hn. unfold drop_event, count_dropped. solve_leaves. Qed.

#[local] Hint Resolve leaves_drop_event : leaves.

Lemma realtime_counts i e : counts_as Realtime.name (Realtime.process reg others i e).
Proof. intros n Hn. unfold Realtime.process, Realtime.finish, count_dropped, count_processed. solve_leaves. Qed.

Lemma transactional_counts i e : counts_as Transactional.name (Transactional.process reg handle_at others i e).
Proof.
  intros n Hn. unfold Transactional.process, Transactional.commit, Transactional.cleanup_if_due, count_dropped, count_processed.
  solve_leaves; apply leaves_update; intros w; cbv zeta; by case_match.
Qed.

(** ** The realtime processor *)

Context (reg_answers : answering).

(** The members a call of the realtime processor leaves. *)
Lemma realtime_members i e : leaves (S := S) (fun w => (rt w, txn w, batch w)) (Realtime.process reg others i e).
Proof.
  set (v := fun w : PWorld S => (rt w, txn w, batch w)).
  assert (Ht : leaves v (touch Realtime.name i)) by (intros w; by destruct (touch_rest Realtime.name i w) as [b ->]).
  assert (Hs : forall ok, leaves v (store ok e)) by (intros ok; by apply leaves_store).
  assert (Hd : leaves v (push_dlq e)) by (apply leaves_update; intros w; by destruct (has_dlq w)).
  assert (Ha : forall l m, leaves v (Realtime.emitAlert l m i e)).
  { intros l m w. unfold Realtime.emitAlert. destruct (alert_handler_ (rt w)); [|done]. by destruct (Handlers.onAlert _ _ _). }
  unfold Realtime.process, Realtime.finish, drop_event, count_dropped, count_processed. solve_leaves.
Qed.

Lemma fate_answers limit i e : exists c reason, Realtime.fate reg limit i e = Ret (c, reason).
Proof using reg_answers.
  unfold Realtime.fate. destruct (reg_answers (topic e) e) as (v & -> & Hv). cbn [mbind outcome_bind].
  destruct (Handlers.valid v); cbn [negb]; [|by eexists _, _]. destruct (Hv eq_refl) as [(r & ->) (hr & ->)]. cbn [mbind outcome_bind].
  destruct (Handlers.valid r); cbn [negb]; [|by eexists _, _]. destruct (Handlers.r_outcome hr); by eexists _, _.
Qed.

(** Either the event is in the log, or it is counted as dropped. *)
Lemma realtime_effect old L i e w :
  logged old L w -> Realtime.quiet w -> accepting i ->
  exists w' kept, Realtime.process reg others i e w = (Ret tt, w') /\
    logged old (if kept : bool then L ++ [e] else L) w' /\
    dropped Realtime.name w' = (if kept then dropped Realtime.name w else add64 (dropped Realtime.name w) 1) /\
    rt w' = rt w /\ txn w' = txn w /\ batch w' = batch w /\ apart Realtime.name w w'.
Proof using reg_answers.
  intros (s & Hs & Hl) Hq Hacc. destruct (fate_answers (max_processing_ms_ (rt w)) i e) as (c & reason & Hf).
  destruct (StorageEngine.storeEvent_ok old L e s Hl) as [Hok Hl'].
  destruct (Realtime.process_fate reg others i e c reason w Hq) as (w' & Hw' & _ & Hr); [|done|].
  { intros s' Hs'. rewrite Hs in Hs'. injection Hs' as <-. by rewrite Hacc. }
  pose proof (realtime_members i e w) as Hm. pose proof (counts_apart _ _ w (realtime_counts i e)) as Hap.
  rewrite Hw' in Hm, Hap. injection Hm as H1 H2 H3. exists w', (match reason with None => true | Some _ => false end).
  split; [done|]. destruct reason as [r|].
  - destruct Hr as (_ & Hd & _ & Hst & _). split_and!; try done. exists s. by rewrite Hst.
  - destruct Hr as (_ & _ & Hd & _ & Hst & _). split_and!; try done. eexists. rewrite Hst, Hs, Hacc. split; [done|]. exact Hl'.
Qed.

(** ** The transactional processor *)

Context (attempts_answer : forall hd k e hr, Handlers.handle hd e = Ret hr -> exists hr', handle_at hd k e = Ret hr').

Inductive disposition := Kept | Refused | Repeated.

Lemma transactional_members i e : leaves (S := S) (fun w => (rt w, batch w)) (Transactional.process reg handle_at others i e).
Proof.
  set (v := fun w : PWorld S => (rt w, batch w)).
  assert (Ht : leaves v (touch Transactional.name i)) by (intros w; by destruct (touch_rest Transactional.name i w) as [b ->]).
  assert (Hs : forall ok, leaves v (store ok e)) by (intros ok; by apply leaves_store).
  assert (Hd : leaves v (push_dlq e)) by (apply leaves_update; intros w; by destruct (has_dlq w)).
  unfold Transactional.process, Transactional.commit, Transactional.cleanup_if_due, drop_event, count_dropped, count_processed.
  solve_leaves; apply leaves_update; intros w; cbv zeta; by case_match.
Qed.

Lemma retry_answers hd e hr n k : Handlers.handle hd e = Ret hr -> exists b, Transactional.retry handle_at hd e n k = Ret b.
Proof using attempts_answer.
  intros Hh. revert k. induction n as [|n IH]; intros k; [by eexists|]. cbn [Transactional.retry].
  destruct (attempts_answer hd k e hr Hh) as [hr' ->]. cbn [mbind outcome_bind]. case_match; [by eexists|apply IH].
Qed.

Lemma remembers_weaken w (P Q : Z -> Prop) : (forall k, P k -> Q k) -> remembers w P -> remembers w Q.
Proof. intros H (m & Hm & Hk). exists m. auto. Qed.

Lemma remembers_txn w w' P : dedup_table_ (txn w') = dedup_table_ (txn w) -> remembers w P -> remembers w' P.
Proof. intros H (m & Hm & Hk). exists m. by rewrite H. Qed.

(** A processor that commits the event has it in the log and its id in the table. *)
Lemma commit_effect old L i e w P :
  logged old L w -> accepting i -> remembers w P ->
  exists w', Transactional.commit others i e w = (Ret tt, w') /\ logged old (L ++ [e]) w' /\
    dropped Transactional.name w' = dropped Transactional.name w /\ remembers w' (fun k => P k \/ k = id (header e)).
Proof.
  intros (s & Hs & Hl) Ha (m & Hm & Hk). unfold Transactional.commit. mrun. unfold store at 1.
  cbn [storage_ with_txn with_bw set_metrics]. rewrite Hs, Ha.
  destruct (StorageEngine.storeEvent_ok old L e s Hl) as [Hok Hl'].
  destruct (StorageEngine.storeEvent true e s) as [o s'] eqn:Est. cbn [fst snd] in *. subst o.
  mrun. set (w1 := if 0 <? dequeue_time_ns e then _ else _).
  assert (H1 : dedup_table_ (txn w1) = (Dedup.insert (id (header e)) (wall_ms i) (dedup_table_ (txn w))).2 /\
    storage_ w1 = Some s' /\ dropped Transactional.name w1 = dropped Transactional.name w).
  { unfold w1. destruct (0 <? dequeue_time_ns e); cbn -[dropped Dedup.insert]; (split_and!; [done..|]);
      unfold dropped, metrics_of; cbn; by rewrite MetricRegistry.update_metrics_lookup. }
  clearbody w1. destruct H1 as (H1 & H2 & H3).
  pose proof (touch_metrics Transactional.name i w1) as (_ & Hd' & _ & _).
  destruct (touch_rest Transactional.name i w1) as [b Hto]. rewrite Hto in Hd' |- *. cbn [snd] in *. mrun.
  unfold notify_processed. cbn [update]. eexists. split; [done|]. split; [by exists s'|]. split.
  - rewrite <- H3, <- Hd'. done.
  - destruct (Dedup.insert_represents (dedup_table_ (txn w)) m (id (header e)) (wall_ms i) Hm) as [_ Hrep].
    eexists. split; [cbn; rewrite H1; exact Hrep|]. intros k. case_decide; [intros; left; by apply Hk|].
    rewrite lookup_insert_is_Some'. intros [<-|?]; [by right|left; by apply Hk].
Qed.

(** The event is in the log, counted as dropped, or of an id that is remembered. *)
(** What a call of [process] makes of an event whose ids before it were those of [P]: it keeps it, refuses it
    and counts it, or drops it as a repetition. *)
Definition settles old (L : list Event) (P : Z -> Prop) (e : Event) w (r : outcome unit * PWorld S) : Prop :=
  exists w' d, r = (Ret tt, w') /\
    logged old (match d with Kept => L ++ [e] | _ => L end) w' /\
    dropped Transactional.name w' = (match d with Refused => add64 (dropped Transactional.name w) 1
                                     | _ => dropped Transactional.name w end) /\
    remembers w' (fun k => P k \/ (d = Kept /\ k = id (header e))) /\ (d = Repeated -> P (id (header e))).

Lemma settles_dropped old L P e w w2 reason :
  logged old L w2 -> remembers w2 P -> dropped Transactional.name w2 = dropped Transactional.name w ->
  settles old L P e w (drop_event others Transactional.name reason e w2).
Proof.
  intros (s & Hs & Hl) Hrem Hd.
  destruct (drop_event_spec others Transactional.name reason e w2) as (w' & Hw' & _ & Hd' & _ & Hs' & _ & _ & _ & Ht & _).
  exists w', Refused. split; [done|]. split; [exists s; by rewrite Hs'|]. split; [by rewrite Hd', Hd|]. split; [|done].
  apply (remembers_txn w2); [by rewrite Ht|]. eapply remembers_weaken; [|done]. by left.
Qed.

(** The cleaning of the table forgets ids and does nothing else. *)
Lemma cleanup_effect old L P i w :
  logged old L w -> remembers w P ->
  exists w', Transactional.cleanup_if_due i w = (Ret tt, w') /\ logged old L w' /\ remembers w' P /\
    dropped Transactional.name w' = dropped Transactional.name w.
Proof.
  intros Hl (m & Hm & Hk). unfold Transactional.cleanup_if_due, update. eexists. split; [done|]. cbv zeta.
  destruct (Transactional.cleanup_due _ _); [|by split_and!; [|exists m|]]. split_and!; [done| |done].
  eexists. split; [by apply Dedup.cleanup_represents|]. intros k [t Ht]. apply map_lookup_filter_Some in Ht as [Ht _].
  apply Hk. by eexists.
Qed.

Lemma transactional_settles old L i e w P :
  logged old L w -> accepting i -> remembers w P -> settles old L P e w (Transactional.process reg handle_at others i e w).
Proof using reg_answers attempts_answer.
  intros Hl Ha Hrem. unfold Transactional.process. mrun.
  assert (Hd0 : dropped Transactional.name (set_metrics Transactional.name (fun m => m) w) = dropped Transactional.name w)
    by (unfold dropped; by rewrite metrics_of_set).
  assert (Hl1 : logged old L (set_metrics Transactional.name (fun m => m) w)) by exact Hl.
  assert (Hrem1 : remembers (set_metrics Transactional.name (fun m => m) w) P) by exact Hrem.
  set (w1 := set_metrics (S := S) Transactional.name _ w) in *. clearbody w1. clear Hl Hrem.
  destruct (paused_ (txn w1)); [by apply settles_dropped|]. pose proof Hrem1 as (m & Hm & Hk).
  pose proof (Dedup.dedup_op_represents (Dedup.IsDuplicate (id (header e)) (wall_ms i)) _ _ Hm) as [Ho _].
  injection Ho as Hdup. rewrite Hdup. case_bool_decide as Hin.
  { exists w1, Repeated. split; [done|]. do 2 (split; [done|]). split; [|intros _; by apply Hk]. exists m. auto. }
  destruct (cleanup_effect old L P i w1 Hl1 Hrem1) as (w2 & Hw2 & Hl2 & Hrem2 & Hd2). rewrite bindE, Hw2. mrun.
  rewrite <- Hd2 in Hd0.
  destruct (reg_answers (topic e) e) as (v & -> & Hv). mrun.
  destruct (Handlers.valid v); cbn [negb]; [|by apply settles_dropped].
  destruct (Hv eq_refl) as [(r & ->) (hr & Hhr)]. mrun.
  destruct (Handlers.valid r); cbn [negb]; [|by apply settles_dropped].
  destruct (retry_answers _ e hr (Z.to_nat (max_retries_ (txn w1))) 1 Hhr) as [b ->]. mrun.
  destruct b; [|by apply settles_dropped]. destruct (commit_effect old L i e w2 P Hl2 Ha Hrem2) as (w' & -> & H1 & H2 & H3).
  exists w', Kept. split_and!; [done..|by rewrite H2| |done]. eapply remembers_weaken; [|exact H3]. naive_solver.
Qed.

Lemma transactional_effect old L i e w P :
  logged old L w -> accepting i -> remembers w P ->
  exists w' d, Transactional.process reg handle_at others i e w = (Ret tt, w') /\
    logged old (match d with Kept => L ++ [e] | _ => L end) w' /\
    dropped Transactional.name w' = (match d with Refused => add64 (dropped Transactional.name w) 1
                                     | _ => dropped Transactional.name w end) /\
    remembers w' (fun k => P k \/ (d = Kept /\ k = id (header e))) /\ (d = Repeated -> P (id (header e))) /\
    rt w' = rt w /\ batch w' = batch w /\ apart Transactional.name w w'.
Proof using reg_answers attempts_answer.
  intros Hl Ha Hrem. pose proof (transactional_members i e w) as Hm.
  pose proof (counts_apart _ _ w (transactional_counts i e)) as Hap.
  destruct (transactional_settles old L i e w P Hl Ha Hrem) as (w' & d & Hw' & H1 & H2 & H3 & H4).
  rewrite Hw' in Hm, Hap. injection Hm as H5 H6. by exists w', d.
Qed.

(** ** The batch processor *)

Lemma batch_members i e : leaves (S := S) (fun w => (rt w, txn w)) (Batch.process reg others i e).
Proof.
  set (v := fun w : PWorld S => (rt w, txn w)).
  assert (Ht : leaves v (touch Batch.name i)) by (intros w; by destruct (touch_rest Batch.name i w) as [b ->]).
  assert (Hs : forall ok e, leaves v (store ok e)) by (intros ok e'; by apply leaves_store).
  assert (Hd : forall e, leaves v (push_dlq e)) by (intros e'; apply leaves_update; intros w; by destruct (has_dlq w)).
  assert (Hq : leaves v Batch.drop_queue).
  { intros w. unfold Batch.drop_queue. destruct (has_bus _); [|done]. by destruct (EventBus.dropBatchFromQueue _ _) as [[]| |]. }
  assert (Hloop : forall h es n, leaves v (Batch.flush_loop others i h es n)).
  { intros h es. induction es as [|x es IH]; intros n; cbn [Batch.flush_loop]; solve_leaves; first [apply IH|by apply leaves_update]. }
  assert (Hf : forall t, leaves v (Batch.flushBucketLocked reg others i t)) by (intros t; unfold Batch.flushBucketLocked; solve_leaves).
  unfold Batch.process, Batch.bucket_event, drop_event, count_dropped, count_processed. solve_leaves.
Qed.

Lemma drop_bus_metrics q b n b' :
  EventBus.dropBatchFromQueue q b = Ret (n, b') -> forall k, k <> MetricNames.EVENTBUS ->
  MetricRegistry.metrics_map_ (EventBus.metrics b') !! k = MetricRegistry.metrics_map_ (EventBus.metrics b) !! k.
Proof.
  assert (Hdlq : forall l b0, EventBus.drop_to_dlq l b0 = Ret (n, b') -> forall k, k <> MetricNames.EVENTBUS ->
    MetricRegistry.metrics_map_ (EventBus.metrics b') !! k = MetricRegistry.metrics_map_ (EventBus.metrics b0) !! k).
  { intros l b0. unfold EventBus.drop_to_dlq. destruct (0 <? zlen l); [|by intros [= _ <-]].
    rewrite outcome_bind_ret. intros (d & _ & [= _ <-]) k Hk. cbn. by rewrite MetricRegistry.update_metrics_other. }
  assert (Hm : forall k, k <> MetricNames.EVENTBUS ->
    MetricRegistry.metrics_map_ (EventBus.metrics (EventBus.metric (fun m => m) b)) !! k =
    MetricRegistry.metrics_map_ (EventBus.metrics b) !! k) by (intros k Hk; cbn; by rewrite MetricRegistry.update_metrics_other).
  unfold EventBus.dropBatchFromQueue. destruct q.
  - destruct (EventBus.pop_ring_batch _ _) as [l r]. intros Hd k Hk. rewrite (Hdlq _ _ Hd k Hk). by apply Hm.
  - intros Hd k Hk. rewrite (Hdlq _ _ Hd k Hk). by apply Hm.
  - intros Hd k Hk. rewrite (Hdlq _ _ Hd k Hk). by apply Hm.
Qed.

Lemma leaves_drop_queue n : n <> MetricNames.EVENTBUS -> leaves (S := S) (metrics_of n) Batch.drop_queue.
Proof.
  intros Hn w. unfold Batch.drop_queue. destruct (has_bus _); [|done].
  destruct (EventBus.dropBatchFromQueue _ _) as [[k b]| |] eqn:E; [|done..]. unfold metrics_of. cbn.
  by rewrite (drop_bus_metrics _ _ _ _ E).
Qed.

#[local] Hint Resolve leaves_drop_queue : leaves.

Lemma leaves_flush_loop n i h es k : leaves (S := S) (metrics_of n) (Batch.flush_loop others i h es k).
Proof.
  revert k; induction es as [|x es IH]; intros k; cbn [Batch.flush_loop]; solve_leaves; apply IH.
Qed.

Lemma leaves_flush_bucket n i t : leaves (S := S) (metrics_of n) (Batch.flushBucketLocked reg others i t).
Proof. pose proof leaves_flush_loop. unfold Batch.flushBucketLocked. solve_leaves. Qed.

#[local] Hint Resolve leaves_flush_bucket : leaves.

(** Calls of the batch processor touch its own counters and, told to drop, the bus's. *)
Lemma batch_counts i e n : n <> Batch.name -> n <> MetricNames.EVENTBUS ->
  leaves (S := S) (metrics_of n) (Batch.process reg others i e).
Proof.
  intros Hn Hb. unfold Batch.process, Batch.bucket_event, count_dropped, count_processed. solve_leaves.
Qed.

Lemma bucketed_set t b w :
  bucketed (Batch.set_bucket t b w) ++ events (Batch.bucket_of t w) ≡ₚ bucketed w ++ events b.
Proof.
  unfold bucketed, Batch.bucket_of. cbn [buckets_ batch Batch.set_bucket with_batch].
  rewrite all_events_insert, (all_events_lookup (buckets_ (batch w)) t). solve_Permutation.
Qed.

Lemma sorted_set t b w :
  sorted_buckets w -> Forall (fun e => topic e = t /\ Batch.answers reg e) (events b) -> sorted_buckets (Batch.set_bucket t b w).
Proof.
  intros Hw Hb t'. destruct (decide (t' = t)) as [->|Hne]; [by rewrite Batch.bucket_of_set|].
  by rewrite Batch.bucket_of_set_ne.
Qed.

(** A flush moves the bucket of a topic to the log, but for what the handler refuses. *)
Lemma flush_effect old L i t w :
  logged old L w -> accepting i -> sorted_buckets w ->
  exists w', Batch.flushBucketLocked reg others i t w = (Ret tt, w') /\
    logged old (L ++ List.filter (Batch.good reg) (events (Batch.bucket_of t w))) w' /\
    bucketed w' ++ events (Batch.bucket_of t w) ≡ₚ bucketed w /\ sorted_buckets w' /\
    events (Batch.bucket_of t w') = [] /\ forall t', t' <> t -> Batch.bucket_of t' w' = Batch.bucket_of t' w.
Proof.
  intros (s & Hs & Hl) Ha Hw. unfold Batch.flushBucketLocked. mrun.
  destruct (events (Batch.bucket_of t w)) as [|e es] eqn:Ev.
  { exists w. cbn [List.filter]. rewrite !app_nil_r. split_and!; try done. by exists s. }
  pose proof (Hw t) as Ht. rewrite Ev in Ht.
  destruct (Batch.flush_loop_prefix reg others old L t i (e :: es) [] 0 s w Ha) as (n' & w1 & s1 & Hrun & Hs1 & Hl1 & Hk);
    [apply (Forall_impl _ _ _ Ht); tauto|apply (Forall_impl _ _ _ Ht); tauto|done|done|].
  rewrite app_nil_r in Hrun. mrun. rewrite Hrun. cbn [Batch.flush_loop]. unfold mret, M_ret. mrun. unfold update.
  set (w2 := with_storage _ w1). assert (Hb2 : batch w2 = batch w) by apply Hk.
  assert (Hbo : forall t', Batch.bucket_of t' w2 = Batch.bucket_of t' w) by (intros; unfold Batch.bucket_of; by rewrite Hb2).
  assert (Hbk : bucketed w2 = bucketed w) by (unfold bucketed; by rewrite Hb2).
  assert (Hw2 : sorted_buckets w2) by (intros t'; by rewrite Hbo).
  eexists. split; [done|]. split; [|split; [|split; [|split]]].
  - exists (StorageEngine.flush s1). split; [by cbn; rewrite Hs1|by apply StorageEngine.flush_ok].
  - rewrite <- Ev, <- Hbo, bucketed_set, Hbk. cbn [events]. by rewrite app_nil_r.
  - by apply sorted_set.
  - by rewrite Batch.bucket_of_set.
  - intros t' Hne. by rewrite Batch.bucket_of_set_ne.
Qed.

(** ** What a call of the batch processor does *)

Lemma dropped_of n w w' : metrics_of n w' = metrics_of n w -> dropped n w' = dropped n w.
Proof. unfold dropped. by intros ->. Qed.

(** The counters [touch] and the look-up of a counter do not move. *)
Lemma dropped_touch n i w : exists w', touch (S := S) n i w = (Ret tt, w') /\ storage_ w' = storage_ w /\
  batch w' = batch w /\ dropped n w' = dropped n w.
Proof.
  destruct (touch_rest n i w) as [b Hb]. pose proof (touch_metrics n i w) as (_ & Hd & _ & _). rewrite Hb in Hd.
  by eexists.
Qed.

Lemma logged_storage old L w w' : storage_ w' = storage_ w -> logged old L w -> logged old L w'.
Proof. intros H (s & Hs & Hl). exists s. by rewrite H. Qed.

(** The queue a processor in drop mode empties is in the bus; the books are elsewhere. *)
Lemma drop_queue_effect w : (exists a, EventBus.sim (bw w) a) ->
  exists b, Batch.drop_queue w = (Ret tt, with_bw b w) /\ metrics_of Batch.name (with_bw b w) = metrics_of Batch.name w.
Proof.
  intros [a Hs]. pose proof (leaves_drop_queue Batch.name ltac:(done) w) as Hl. unfold Batch.drop_queue in *.
  destruct (has_bus (batch w)); [|exists (bw w); by destruct w].
  destruct (EventBus.drop_sim EventBus.BATCHQ _ _ Hs) as (n & b & Hb & _). rewrite Hb in *. by exists b.
Qed.

Lemma sim_counted n f w a : EventBus.sim (bw w) a -> EventBus.sim (bw (set_metrics (S := S) n f w)) a.
Proof. by apply EventBus.sim_same. Qed.

Lemma sim_push_dlq e w a : EventBus.sim (bw w) a -> exists a', EventBus.sim (bw (push_dlq (S := S) e w).2) a'.
Proof.
  intros Hs. unfold push_dlq, update. cbn [snd]. destruct (has_dlq w); [|by exists a].
  exists (EventBus.mkAbs (EventBus.a_rt a) (EventBus.a_tx a) (EventBus.a_bt a) (EventBus.a_dropped a + 1)).
  destruct Hs as [Hr Ht Hb Hp Hd Hl]. split; try done. cbn in *. unfold add64. by rewrite Hd, wrap_add_l.
Qed.

(** Told to drop, the processor counts the event and bucket and log stay. *)
Lemma batch_drop_effect e w : (exists a, EventBus.sim (bw w) a) ->
  exists w', (count_dropped Batch.name;; push_dlq e;; Batch.drop_queue;;
     notify_dropped others Batch.name "backpressure_drop" e) w = (Ret tt, w') /\
    storage_ w' = storage_ w /\ batch w' = batch w /\ dropped Batch.name w' = add64 (dropped Batch.name w) 1.
Proof.
  intros [a Hs]. rewrite bindE. cbn [count_dropped update]. set (w1 := set_metrics Batch.name _ w).
  assert (H1 : storage_ w1 = storage_ w /\ batch w1 = batch w /\ dropped Batch.name w1 = add64 (dropped Batch.name w) 1).
  { split_and!; [done..|]. unfold dropped. subst w1. by rewrite metrics_of_set. }
  assert (Hs1 : EventBus.sim (bw w1) a) by by apply sim_counted.
  clearbody w1. destruct H1 as (<- & <- & <-). clear Hs. destruct (sim_push_dlq e w1 a Hs1) as [a' Hs2].
  pose proof (leaves_push_dlq Batch.name e w1) as Hm. unfold push_dlq, update in Hs2, Hm. cbn [snd] in Hs2, Hm.
  rewrite bindE. cbn [push_dlq update]. set (w2 := if has_dlq w1 then _ else w1) in *.
  assert (Hst : storage_ w2 = storage_ w1 /\ batch w2 = batch w1) by (subst w2; by destruct (has_dlq w1)).
  clearbody w2. destruct Hst as [H1 H2]. destruct (drop_queue_effect w2) as (b & Hq & Hm'); [by exists a'|].
  rewrite bindE, Hq. cbn [notify_dropped update].
  eexists. split; [done|]. split; [exact H1|]. split; [exact H2|]. apply dropped_of.
  rewrite <- Hm, <- Hm'. done.
Qed.
(** The books, whatever the rest of the world. *)
Definition batch_books old L (B : list Event) (d : Z) w : Prop :=
  logged old L w /\ bucketed w ≡ₚ B /\ sorted_buckets w /\ dropped Batch.name w = d.

Lemma books_set old L B B' d t b w :
  batch_books old L B d w -> Forall (fun e => topic e = t /\ Batch.answers reg e) (events b) ->
  B' ++ events (Batch.bucket_of t w) ≡ₚ B ++ events b -> batch_books old L B' d (Batch.set_bucket t b w).
Proof.
  intros (H1 & H2 & H3 & H4) Hb HB. split; [done|]. split; [|split; [by apply sorted_set|done]].
  apply (Permutation_app_inv_r (events (Batch.bucket_of t w))). by rewrite bucketed_set, H2, HB.
Qed.

Lemma books_time old L B d t now w :
  batch_books old L B d w -> batch_books old L B d (Batch.set_bucket t (mkTopicBucket (events (Batch.bucket_of t w)) now) w).
Proof. intros H. eapply books_set; [done| |done]. cbn [events]. apply H. Qed.

Lemma books_touch old L B d i w : batch_books old L B d w ->
  exists w', touch Batch.name i w = (Ret tt, w') /\ batch_books old L B d w'.
Proof.
  intros (H1 & H2 & H3 & H4). destruct (dropped_touch Batch.name i w) as (w' & Hw & Hs & Hb & Hd). exists w'. split; [done|].
  split; [by eapply logged_storage|]. unfold bucketed, sorted_buckets, Batch.bucket_of in *. by rewrite Hb, Hd.
Qed.

Lemma books_flush old L B d i t w : batch_books old L B d w -> accepting i ->
  exists w' flushed rest, Batch.flushBucketLocked reg others i t w = (Ret tt, w') /\ B ≡ₚ flushed ++ rest /\
    batch_books old (L ++ List.filter (Batch.good reg) flushed) rest d w'.
Proof.
  intros (H1 & H2 & H3 & H4) Ha. destruct (flush_effect old L i t w H1 Ha H3) as (w' & Hw & Hl & Hb & Hs & _).
  exists w', (events (Batch.bucket_of t w)), (bucketed w'). split; [done|].
  split; [by rewrite <- H2, <- Hb, Permutation_app_comm|]. split; [done|]. split; [done|]. split; [done|].
  rewrite <- H4. apply dropped_of. pose proof (leaves_flush_bucket Batch.name i t w) as Hm. by rewrite Hw in Hm.
Qed.

Lemma bucket_event_effect old L B d i e w :
  batch_books old L B d w -> accepting i -> Batch.answers reg e ->
  exists w' flushed rest, Batch.bucket_event reg others i e w = (Ret tt, w') /\ B ++ [e] ≡ₚ flushed ++ rest /\
    batch_books old (L ++ List.filter (Batch.good reg) flushed) rest d w'.
Proof.
  intros Hw Ha He. unfold Batch.bucket_event. rewrite bindE. cbn [update]. cbv zeta. set (w1 := Batch.set_bucket _ _ w).
  assert (H1 : batch_books old L (B ++ [e]) d w1).
  { eapply books_set; [done| |]; cbn [events].
    - apply Forall_app. split; [apply Hw|by constructor].
    - solve_Permutation. }
  clearbody w1. rewrite bindE. cbn [count_processed update]. set (w2 := set_metrics Batch.name _ w1).
  assert (H2 : batch_books old L (B ++ [e]) d w2).
  { destruct H1 as (? & ? & ? & <-). split_and!; try done. unfold dropped. subst w2. by rewrite metrics_of_set. }
  clearbody w2. clear H1 w1 Hw. rewrite bindE. cbn [get]. destruct (_ =? 0).
  - rewrite bindE. cbn [update]. destruct (books_touch old L (B ++ [e]) d i _ (books_time _ _ _ _ (topic e) (steady_ns i) _ H2))
      as (w' & -> & H'). exists w', [], (B ++ [e]). cbn [List.filter app]. by rewrite app_nil_r.
  - destruct (_ <=? _).
    + destruct (books_flush old L (B ++ [e]) d i (topic e) w2 H2 Ha) as (w3 & fl & rest & Hf & HB & H3). rewrite bindE, Hf.
      rewrite bindE. cbn [update]. destruct (books_touch _ _ _ _ i _ (books_time _ _ _ _ (topic e) (steady_ns i) _ H3))
        as (w' & -> & H'). by exists w', fl, rest.
    + destruct (books_touch old L (B ++ [e]) d i w2 H2) as (w' & -> & H'). exists w', [], (B ++ [e]).
      cbn [List.filter app]. by rewrite app_nil_r.
Qed.

(** The event is counted as dropped, or it is in a bucket; what leaves the buckets is in the log, but for
    what the handler refuses. *)
Lemma batch_effect old L B d i e w :
  batch_books old L B d w -> accepting i -> (exists a, EventBus.sim (bw w) a) ->
  exists w', Batch.process reg others i e w = (Ret tt, w') /\ rt w' = rt w /\ txn w' = txn w /\
    (forall n, n <> Batch.name -> n <> MetricNames.EVENTBUS -> metrics_of n w' = metrics_of n w) /\
    (batch_books old L B (add64 d 1) w' \/
     exists flushed rest, B ++ [e] ≡ₚ flushed ++ rest /\
       batch_books old (L ++ List.filter (Batch.good reg) flushed) rest d w').
Proof using reg_answers.
  intros Hw Ha Hsim. pose proof (batch_members i e w) as Hm. pose proof (fun n H1 H2 => batch_counts i e n H1 H2 w) as Hc.
  cut (exists w', Batch.process reg others i e w = (Ret tt, w') /\
    (batch_books old L B (add64 d 1) w' \/ exists flushed rest, B ++ [e] ≡ₚ flushed ++ rest /\
       batch_books old (L ++ List.filter (Batch.good reg) flushed) rest d w')).
  { intros (w' & Hw' & H). rewrite Hw' in Hm, Hc. injection Hm as H1 H2. by exists w'. }
  clear Hm Hc. unfold Batch.process. rewrite bindE. cbn [update]. set (w1 := set_metrics Batch.name _ w).
  assert (H1 : batch_books old L B d w1).
  { destruct Hw as (? & ? & ? & <-). split_and!; try done. unfold dropped. subst w1. by rewrite metrics_of_set. }
  assert (Hs1 : exists a, EventBus.sim (bw w1) a) by (destruct Hsim as [a ?]; exists a; by apply sim_counted).
  clearbody w1. clear Hw Hsim w. destruct H1 as (Hl & Hb & Hs & Hd). rewrite bindE. cbn [get].
  assert (Hdrop : forall reason, exists w', drop_event others Batch.name reason e w1 = (Ret tt, w') /\
    batch_books old L B (add64 d 1) w').
  { intros reason. destruct (drop_event_spec others Batch.name reason e w1) as (w' & Hw' & _ & Hd' & _ & Hst & _ & _ & _ & _ & Hb' & _).
    exists w'. split; [done|]. split; [by eapply logged_storage|].
    unfold bucketed, sorted_buckets, Batch.bucket_of in *. by rewrite Hb', Hd', Hd. }
  destruct (drop_events_ (batch w1)).
  { destruct (batch_drop_effect e w1 Hs1) as (w' & -> & Hst & Hb' & Hd'). exists w'. split; [done|]. left.
    split; [by eapply logged_storage|]. unfold bucketed, sorted_buckets, Batch.bucket_of in *. by rewrite Hb', Hd', Hd. }
  destruct (reg_answers (topic e) e) as (v & Hv & Hok). rewrite bindE, Hv. cbn [lift].
  destruct (Handlers.valid v); cbn [negb]; [|destruct (Hdrop (Handlers.error v)) as (w' & -> & H'); by exists w'; eauto].
  destruct (Hok eq_refl) as [(r & Hr) (hr & Hhr)]. rewrite bindE, Hr. cbn [lift].
  destruct (Handlers.valid r); cbn [negb]; [|destruct (Hdrop (Handlers.error r)) as (w' & -> & H'); by exists w'; eauto].
  destruct (bucket_event_effect old L B d i e w1) as (w' & fl & rest & -> & HB & H'); [done|done|by exists hr|].
  exists w'. split; [done|]. right. by exists fl, rest.
Qed.
(** ** Stopping *)

(** [StorageEngine::flush] through a processor that is stopped: the log is on the disk. *)
Lemma flush_storage_effect old L w : logged old L w ->
  exists w' s, flush_storage (S := S) w = (Ret tt, w') /\ logged old L w' /\ storage_ w' = Some s /\
    StorageEngine.on_disk (StorageEngine.storageFile s) = old ++ StorageEngine.log_bytes L /\
    (bw w', rt w', txn w', batch w') = (bw w, rt w, txn w, batch w).
Proof.
  intros (s & Hs & Hl). eexists _, (StorageEngine.flush s). split; [done|]. cbn [storage_ with_storage]. rewrite Hs.
  split; [exists (StorageEngine.flush s); split; [done|by apply StorageEngine.flush_ok]|].
  split; [done|]. split; [by apply StorageEngine.flush_durable|done].
Qed.

Lemma bucketed_none w : (forall t, events (Batch.bucket_of t w) = []) -> bucketed w = [].
Proof.
  intros H. unfold bucketed, all_events. assert (Hall : Forall (fun kv => events kv.2 = []) (map_to_list (buckets_ (batch w)))).
  { apply Forall_forall. intros [t b] Hin. apply elem_of_map_to_list in Hin. specialize (H t). unfold Batch.bucket_of in H.
    by rewrite Hin in H. }
  induction Hall as [|kv l Hkv _ IH]; [done|]. cbn [map concat]. by rewrite Hkv, IH.
Qed.

(** The buckets that are walked are emptied, the others stay. *)
Lemma flush_each_effect old i walk L B d w :
  batch_books old L B d w -> (forall t, accepting (i t)) ->
  exists w' flushed rest, Batch.flush_each reg others i walk w = (Ret tt, w') /\ B ≡ₚ flushed ++ rest /\
    batch_books old (L ++ List.filter (Batch.good reg) flushed) rest d w' /\
    (forall t, t ∈ walk -> events (Batch.bucket_of t w') = []) /\
    (forall t, t ∉ walk -> Batch.bucket_of t w' = Batch.bucket_of t w).
Proof.
  intros Hw Ha. revert L B w Hw; induction walk as [|t ts IH]; intros L B w Hw.
  { exists w, [], B. cbn [List.filter app]. rewrite app_nil_r. split_and!; try done. intros t Ht. by apply not_elem_of_nil in Ht. }
  destruct Hw as (H1 & H2 & H3 & H4). cbn [Batch.flush_each]. rewrite bindE.
  destruct (flush_effect old L (i t) t w H1 (Ha t) H3) as (w1 & Hw1 & Hl1 & Hb1 & Hs1 & He1 & Hne1). rewrite Hw1.
  assert (Hd1 : dropped Batch.name w1 = d).
  { rewrite <- H4. apply dropped_of. pose proof (leaves_flush_bucket Batch.name (i t) t w) as Hm. by rewrite Hw1 in Hm. }
  destruct (IH (L ++ List.filter (Batch.good reg) (events (Batch.bucket_of t w))) (bucketed w1) w1)
    as (w' & fl & rest & -> & HB & Hw' & Hin & Hout); [by split_and!|].
  exists w', (events (Batch.bucket_of t w) ++ fl), rest. split; [done|].
  split; [rewrite <- H2, <- Hb1, HB; solve_Permutation|]. rewrite List.filter_app, app_assoc. split; [done|]. split.
  - intros t' Ht. destruct (decide (t' ∈ ts)) as [|Hnin]; [by apply Hin|]. rewrite Hout by done.
    destruct (decide (t' = t)) as [->|Hne]; [done|]. apply elem_of_cons in Ht as [|]; done.
  - intros t' Ht. apply not_elem_of_cons in Ht as [Hne Ht]. by rewrite Hout, Hne1.
Qed.

Lemma leaves_flush_members i t : leaves (S := S) (fun w => (rt w, txn w)) (Batch.flushBucketLocked reg others i t).
Proof.
  set (v := fun w : PWorld S => (rt w, txn w)).
  assert (Hs : forall ok e, leaves v (store ok e)) by (intros ok e'; by apply leaves_store).
  assert (Hd : forall e, leaves v (push_dlq e)) by (intros e'; apply leaves_update; intros w; by destruct (has_dlq w)).
  assert (Hloop : forall h es n, leaves v (Batch.flush_loop others i h es n)).
  { intros h es. induction es as [|x es IH]; intros n; cbn [Batch.flush_loop]; solve_leaves; apply IH. }
  unfold Batch.flushBucketLocked. solve_leaves.
Qed.

Lemma leaves_stop {X} (v : PWorld S -> X) i walk :
  (forall i t, leaves v (Batch.flushBucketLocked reg others i t)) -> leaves v flush_storage ->
  leaves v (Batch.stop reg others i walk).
Proof.
  intros Hb Hf. assert (Heach : forall ts, leaves v (Batch.flush_each reg others i ts)).
  { induction ts as [|t ts IH]; cbn [Batch.flush_each]; solve_leaves; first [apply Hb|apply IH]. }
  unfold Batch.stop. solve_leaves; first [apply Heach|apply Hf].
Qed.

(** [stop] of the batch processor leaves no bucket with an event. *)
Lemma batch_stop_effect old i walk L B d w :
  batch_books old L B d w -> (forall t, accepting (i t)) -> Batch.complete walk ->
  exists w' flushed s, Batch.stop reg others i walk w = (Ret tt, w') /\ B ≡ₚ flushed /\
    batch_books old (L ++ List.filter (Batch.good reg) flushed) [] d w' /\
    storage_ w' = Some s /\
    StorageEngine.on_disk (StorageEngine.storageFile s) =
      old ++ StorageEngine.log_bytes (L ++ List.filter (Batch.good reg) flushed) /\
    rt w' = rt w /\ txn w' = txn w /\ (forall n, metrics_of n w' = metrics_of n w).
Proof.
  intros Hw Ha Hc. pose proof (leaves_stop _ i walk leaves_flush_members (leaves_update _ _ ltac:(done)) w) as Hm.
  pose proof (fun n => leaves_stop (metrics_of n) i walk (leaves_flush_bucket n) (leaves_update _ _ ltac:(done)) w) as Hn.
  destruct (flush_each_effect old i (walk (buckets_ (batch w))) L B d w Hw Ha) as (w1 & fl & rest & H1 & HB & Hw1 & Hin & Hout).
  assert (Hnone : rest = []).
  { apply Permutation_nil. destruct Hw1 as (_ & <- & _). symmetry; rewrite bucketed_none; [done|]. intros t.
    destruct (decide (t ∈ walk (buckets_ (batch w)))) as [|Hnin]; [by apply Hin|]. rewrite Hout by done.
    unfold Batch.bucket_of. destruct (buckets_ (batch w) !! t) eqn:E; [|done]. destruct Hnin. by apply Hc. }
  subst rest. rewrite app_nil_r in HB. destruct Hw1 as (Hl & Hb & Hs & Hd).
  destruct (flush_storage_effect old _ w1 Hl) as (w' & s & Hf & Hl' & Hst & Hdisk & Heq).
  assert (Hrun : Batch.stop reg others i walk w = (Ret tt, w')).
  { unfold Batch.stop. rewrite bindE. cbn [get]. by rewrite bindE, H1. }
  rewrite Hrun in Hm, Hn. injection Hm as Hm1 Hm2. injection Heq as Hbw _ _ Hbt.
  exists w', fl, s. split; [done|]. split; [done|]. split; [|done]. split; [done|].
  unfold bucketed, sorted_buckets, Batch.bucket_of in *. rewrite Hbt. split; [done|]. split; [done|].
  rewrite <- Hd. apply dropped_of. unfold metrics_of. by rewrite Hbw.
Qed.
End Ledger.
End Ledger.

(** The handlers [main] registers answer on every event. *)
Lemma defaults_answer : Ledger.answering (Handlers.registerDefaultHandlers []).
Proof.
  intros topic e.
  assert (Hv : exists v, Handlers.validate (Handlers.getOrDefault topic (Handlers.registerDefaultHandlers [])) e = Ret v).
  { unfold Handlers.getOrDefault. destruct (Handlers.getHandler topic _) as [g|] eqn:E; [|by eexists].
    apply Handlers.getHandler_longest in E as (p & Hin & _).
    repeat (apply elem_of_cons in Hin as [[= _ ->]|Hin]; [by eexists|]). by apply not_elem_of_nil in Hin. }
  destruct Hv as [v Hv]. exists v. split; [done|]. intros Hok.
  destruct (Handlers.builtin_handlers_guarded topic e v Hv Hok) as (r & hr & Hr & Hh). eauto.
Qed.
