(* ===== verification/Delivery.v ===== *)
(** * From the socket to the file

    The whole path of a burst of frames through the engine: the TCP server's loop on
    the chunks the network delivers, the dispatcher's turns, and the loops of the three
    processor threads, which are stopped when their queues are empty.  Module
    [Delivery]: the composition of [TcpServer], [Pipeline], [Fanout], [Manager] and
    [Drain], each used through its own theorem about a component. *)

From S2P Require Import Prelude Event EventFactory FrameParser IngestSink TcpServer TopicTable Spsc Dlq Metrics.
From S2P Require Import EventBus Dispatcher Fanout Storage Handlers Output Dedup Processor Transactional Batch.
From S2P Require Import Manager Drain Pipeline.

Module Delivery.
#[local] Existing Instances EventBus.QueueId_eq_dec Pipeline.pipeline_sink.

(** ** Frames, events and records *)

Definition frame_queue (table : option (gmap string EventPriority)) (f : FrameParser.ParsedFrame) : EventBus.QueueId :=
  Dispatcher.queue_of (Dispatcher.priority_max (FrameParser.pf_priority f)
                         (Dispatcher.table_priority table (FrameParser.pf_topic f))).

(** The frames that go to a queue. *)
Definition bound_for table (q : EventBus.QueueId) (fs : list FrameParser.ParsedFrame) :=
  List.filter (fun f => bool_decide (frame_queue table f = q)) fs.

Definition content (f : FrameParser.ParsedFrame) : string * list byte :=
  (FrameParser.pf_topic f, FrameParser.pf_payload f).
Definition content_of (r : StorageEngine.stored) : string * list byte :=
  (StorageEngine.st_topic r, StorageEngine.st_body r).
Definition on_topic (t : string) (c : string * list byte) : bool := bool_decide (c.1 = t).

(** The event has the frame's topic and payload. *)
Definition carries (f : FrameParser.ParsedFrame) (e : Event) : Prop :=
  topic e = FrameParser.pf_topic f /\ body e = FrameParser.pf_payload f.

(** ** Lists *)

Lemma Forall2_filter {A B} (R : A -> B -> Prop) (p : A -> bool) (q : B -> bool) xs ys :
  (forall x y, R x y -> p x = q y) -> Forall2 R xs ys -> Forall2 R (List.filter p xs) (List.filter q ys).
Proof.
  intros Hpq. induction 1 as [|x y xs ys Hxy H IH]; [constructor|]. cbn [List.filter].
  rewrite (Hpq x y Hxy). destruct (q y); [by constructor|done].
Qed.

Lemma filter_topic_map {A} (key : A -> string * list byte) t xs :
  List.filter (on_topic t) (map key xs) = map key (List.filter (fun x => on_topic t (key x)) xs).
Proof. induction xs as [|x xs IH]; [done|]. cbn [map List.filter]. rewrite IH. by destruct (on_topic t (key x)). Qed.

(** Two lists that agree topic by topic have the same elements. *)
Lemma by_topic_perm {A} (key : A -> string) (xs ys : list A) :
  (forall t, List.filter (fun x => bool_decide (key x = t)) xs = List.filter (fun x => bool_decide (key x = t)) ys) ->
  xs ≡ₚ ys.
Proof.
  revert ys; induction xs as [|x xs IH]; intros ys Hf.
  - destruct ys as [|y ys]; [done|]. specialize (Hf (key y)). cbn in Hf. by rewrite bool_decide_eq_true_2 in Hf.
  - pose proof (Hf (key x)) as Hx. cbn [List.filter] in Hx. rewrite bool_decide_eq_true_2 in Hx by done.
    assert (Hsplit : exists y1 y2, ys = y1 ++ x :: y2 /\ List.filter (fun y => bool_decide (key y = key x)) y1 = []).
    { clear -Hx. induction ys as [|y ys IH]; [done|]. cbn [List.filter] in Hx. case_bool_decide as Hk.
      - injection Hx as <- _. by exists [], ys.
      - destruct (IH Hx) as (y1 & y2 & -> & Hy). exists (y :: y1), y2. split; [done|]. cbn [List.filter].
        by rewrite bool_decide_eq_false_2. }
    destruct Hsplit as (y1 & y2 & -> & Hy1). rewrite <- Permutation_middle. apply Permutation_cons; [done|].
    apply IH. intros t. specialize (Hf t). rewrite List.filter_app in *. cbn [List.filter] in Hf.
    case_bool_decide as Hk; [|done]. rewrite <- Hk, Hy1 in *. cbn [app] in *. by injection Hf.
Qed.

Lemma three_queues table fs :
  bound_for table EventBus.REALTIME fs ++ bound_for table EventBus.TRANSACTIONAL fs ++
  bound_for table EventBus.BATCHQ fs ≡ₚ fs.
Proof.
  unfold bound_for. induction fs as [|f fs IH]; [done|]. cbn [List.filter].
  destruct (frame_queue table f); repeat (rewrite bool_decide_eq_true_2 by done) || rewrite bool_decide_eq_false_2 by done.
  - cbn [app]. by rewrite IH.
  - rewrite <- app_comm_cons, <- Permutation_middle. by rewrite IH.
  - rewrite app_assoc, <- Permutation_middle, <- app_assoc. by rewrite IH.
Qed.

(** ** The calls of a loop on events at known addresses *)

Definition calls (es : list Event) (ts : list ProcessManager.Turn) : list (Inputs * Event) :=
  zip_with (fun e t => (ProcessManager.inp t, set_dequeue_time (ProcessManager.pop_ns t) e)) es ts.

Lemma calls_of_events (h : Heap) ls es ts :
  Forall2 (fun l e => h !! l = Some e) ls es -> length ts = length es ->
  ProcessManager.calls_of h (map Some ls) ts = map Some (calls es ts).
Proof.
  intros Hes. revert ts. induction Hes as [|l e ls es He Hes IH]; intros [|t ts] Hlen; try done.
  injection Hlen as Hlen. cbn [map ProcessManager.calls_of calls zip_with ProcessManager.stamped].
  rewrite He. f_equal. by apply IH.
Qed.

Lemma calls_carry fs es ts :
  Forall2 carries fs es -> length ts = length fs -> Forall2 (fun f c => carries f c.2) fs (calls es ts).
Proof.
  intros Hc. revert ts. induction Hc as [|f e fs es He Hc IH]; intros [|t ts] Hlen; try done; [constructor..|].
  injection Hlen as Hlen. constructor; [exact He|]. by apply IH.
Qed.

Lemma calls_inputs (P : Inputs -> Prop) es ts :
  Forall (fun t => P (ProcessManager.inp t)) ts -> Forall (fun c => P c.1) (calls es ts).
Proof.
  intros Ht. revert es. induction Ht as [|t ts Ht Hts IH]; intros [|e es]; constructor; [done|apply IH].
Qed.

(** What the loops leave of an event. *)
Lemma calls_snd {X} (g : Event -> X) es ts :
  (forall n e, g (set_dequeue_time n e) = g e) -> length ts = length es ->
  map (fun c => g c.2) (calls es ts) = map g es.
Proof.
  intros Hg. revert ts. induction es as [|e es IH]; intros [|t ts] Hlen; try done.
  injection Hlen as Hlen. cbn [calls zip_with map snd]. by rewrite Hg, <- (IH ts).
Qed.

(** ** The engine at rest *)

Section Engine.
Context {S : Type} (reg : Handlers.registry)
  (handle_at : Handlers.EventHandler -> Z -> Event -> outcome Handlers.HandleResult)
  (others : Output.Stream (S := S) -> Output.Stream (S := S)).
Implicit Types w : PWorld S.

Abbreviation rt_loop := (ProcessManager.runLoop EventBus.REALTIME Realtime.start (Realtime.process reg others) Realtime.stop).
Abbreviation txn_loop :=
  (ProcessManager.runLoop EventBus.TRANSACTIONAL Transactional.start (Transactional.process reg handle_at others) Transactional.stop).
Abbreviation batch_loop js walk :=
  (ProcessManager.runLoop EventBus.BATCHQ Batch.start (Batch.process reg others) (Batch.stop reg others js walk)).

(** The three processor threads, one after another, each until its queue is empty and it is stopped. *)
Definition drain_all (ts1 ts2 ts3 : list ProcessManager.Turn) (js : string -> Inputs)
    (walk : gmap string TopicBucket -> list string) : M S unit :=
  rt_loop ts1;; txn_loop ts2;; batch_loop js walk ts3;; mret tt.

(** Started, nothing received yet; [old] is what the file holds. *)
Record idle (old : list byte) (s : StorageEngine.Storage) (d : Dispatcher.Dispatcher) w : Prop := {
  i_world : bw w = Dispatcher.world d;
  i_inbound : Dispatcher.inbound_queue_ d = [];
  i_bus : exists n, EventBus.sim (Dispatcher.world d) (EventBus.mkAbs [] [] [] n);
  i_pressure : EventBus.getRealtimePressure (Dispatcher.world d) = EventBus.P_NORMAL;
  i_rt : Drain.rt_fresh old s w;
  i_txn : ProcessManager.txn_fresh old s w;
  i_batch : Drain.batch_fresh old s w
}.

(** The handler of the frame's topic accepts every event that carries the frame. *)
Definition welcome (limit retries : Z) table (f : FrameParser.ParsedFrame) : Prop :=
  forall e, carries f e ->
  match frame_queue table f with
  | EventBus.REALTIME => forall i, Realtime.elapsed_ms i <= limit -> Realtime.fate reg limit i e = Ret (true, None)
  | EventBus.TRANSACTIONAL => Transactional.verdict reg handle_at retries e = Ret true
  | EventBus.BATCHQ => Batch.admits reg e = Ret true /\ Batch.good reg e = true
  end.

(** The system accepts every write, and the handling is in time. *)
Definition accepting (i : Inputs) : Prop := forall n, accepted i n = true.
Definition in_time (limit : Z) (i : Inputs) : Prop := accepting i /\ Realtime.elapsed_ms i <= limit.

(** ** One loop after another *)

(** The dispatcher's work changes nothing a fresh processor depends on. *)
Lemma fresh_after_dispatch old s d d' w :
  idle old s d w ->
  EventBus.dlq_ (EventBus.bus (Dispatcher.world d')) = EventBus.dlq_ (EventBus.bus (Dispatcher.world d)) ->
  (forall name, name <> MetricNames.EVENTBUS ->
     MetricRegistry.metrics_map_ (EventBus.metrics (Dispatcher.world d')) !! name =
     MetricRegistry.metrics_map_ (EventBus.metrics (Dispatcher.world d)) !! name) ->
  let w' := with_bw (Dispatcher.world d') w in
  Drain.rt_fresh old s w' /\ ProcessManager.txn_fresh old s w' /\ Drain.batch_fresh old s w'.
Proof.
  intros [Hw _ _ _ Hrt Htx Hbt] Hd Hm w'. rewrite <- Hw in Hd, Hm. split_and!.
  - destruct Hrt. split; try done; unfold dlq, processed, dropped, metrics_of in *; cbn; by rewrite ?Hd, ?Hm.
  - destruct Htx. split; try done; unfold dlq, processed, dropped, metrics_of in *; cbn; by rewrite ?Hd, ?Hm.
  - destruct Hbt. by split.
Qed.

Lemma realtime_stage old ts ps cs fs s w :
  Drain.rt_fresh old s w -> ProcessManager.txn_fresh old s w -> Drain.batch_fresh old s w ->
  ProcessManager.holds EventBus.REALTIME w ps -> length ts = length ps ->
  ProcessManager.calls_of (EventBus.heap (bw w)) ps ts = map Some cs ->
  Forall2 (fun f c => carries f c.2) fs cs -> Forall (fun c => in_time (max_processing_ms_ (rt w)) c.1) cs ->
  Forall (fun f => forall e, carries f e -> forall i, Realtime.elapsed_ms i <= max_processing_ms_ (rt w) ->
            Realtime.fate reg (max_processing_ms_ (rt w)) i e = Ret (true, None)) fs ->
  exists es w' s', rt_loop ts w = (Ret es, w') /\
    ProcessManager.txn_fresh (old ++ StorageEngine.log_bytes (map snd cs)) s' w' /\
    Drain.batch_fresh (old ++ StorageEngine.log_bytes (map snd cs)) s' w' /\ txn w' = txn w /\
    ProcessManager.other_queues EventBus.REALTIME ps w w'.
Proof.
  intros Hrt Htx Hbt Hq Hlen Hcalls Hc Hin Hf.
  assert (Hfate : Forall (fun c => Realtime.fate reg (max_processing_ms_ (rt w)) c.1 c.2 = Ret (true, None)) cs).
  { clear -Hc Hin Hf. induction Hc as [|f c fs cs Hfc Hc IH]; [constructor|].
    apply Forall_cons in Hin as [[_ Hi] Hin]. apply Forall_cons in Hf as [Hf Hfs]. constructor; [by apply Hf|auto]. }
  destruct (Drain.realtime_loop reg others old ts ps cs s w Hrt Hq Hlen Hcalls)
    as (es & w' & s' & Hw' & Hs' & Hl' & Hh' & Hd' & _ & _ & Hf' & Ho').
  { clear -Hfate Hin. induction Hfate as [|c cs Hc Hcs IH]; [constructor|].
    apply Forall_cons in Hin as [[Ha _] Hin]. constructor; [split; [apply Ha|by eexists]|auto]. }
  destruct (Realtime.account_all reg (max_processing_ms_ (rt w)) cs (Realtime.mkAccount [] [] 0) Hfate) as [Hst Hab].
  unfold Realtime.account in Hl', Hd'. rewrite Hst in Hl'. rewrite Hab in Hd'. cbn [Realtime.stored app] in Hl'.
  injection Hf' as Ht Hb Hm. exists es, w', s'. split; [done|].
  destruct Htx as [Htab Hrun _ _ _ _ Hpr Hdr]. destruct Hbt as [_ _ Hon Hbk]. split_and!; try done; split; try done.
  - by rewrite Ht.
  - by rewrite Ht.
  - unfold processed in *. by rewrite Hm.
  - unfold dropped in *. by rewrite Hm.
  - by rewrite Hb.
  - by rewrite Hb.
Qed.

Lemma transactional_stage old ts ps cs fs s w :
  ProcessManager.txn_fresh old s w -> Drain.batch_fresh old s w ->
  ProcessManager.holds EventBus.TRANSACTIONAL w ps -> length ts = length ps ->
  ProcessManager.calls_of (EventBus.heap (bw w)) ps ts = map Some cs ->
  Forall2 (fun f c => carries f c.2) fs cs -> Forall (fun c => accepting c.1) cs ->
  Forall (fun f => forall e, carries f e -> Transactional.verdict reg handle_at (max_retries_ (txn w)) e = Ret true) fs ->
  NoDup (map (fun c => id (header c.2)) cs) ->
  exists es w' s', txn_loop ts w = (Ret es, w') /\
    Drain.batch_fresh (old ++ StorageEngine.log_bytes (map snd cs)) s' w' /\
    ProcessManager.other_queues EventBus.TRANSACTIONAL ps w w'.
Proof.
  intros Htx Hbt Hq Hlen Hcalls Hc Hin Hf Hnd.
  assert (Hv : Forall (fun c => Transactional.verdict reg handle_at (max_retries_ (txn w)) c.2 = Ret true) cs).
  { clear -Hc Hf. induction Hc as [|f c fs cs Hfc Hc IH]; [constructor|].
    apply Forall_cons in Hf as [Hf Hfs]. constructor; [by apply Hf|auto]. }
  destruct (ProcessManager.transactional_loop reg handle_at others old ts ps cs s w Htx Hq Hlen Hcalls)
    as (es & w' & s' & Hw' & Hs' & Hl' & _ & Hf' & Ho').
  { clear -Hv Hin. induction Hv as [|c cs Hc Hcs IH]; [constructor|].
    apply Forall_cons in Hin as [Ha Hin]. constructor; [split; [apply Ha|by eexists]|auto]. }
  destruct (Transactional.ledger_all reg handle_at (max_retries_ (txn w)) cs (Transactional.mkLedger ∅ 0 [] []) Hv Hnd)
    as [Hst _].
  { apply Forall_forall. intros c _. apply lookup_empty. }
  unfold Transactional.ledger in Hl'. rewrite Hst in Hl'. cbn [Transactional.stored map app] in Hl'.
  injection Hf' as Hb Hr. exists es, w', s'. split; [done|]. split; [|done].
  destruct Hbt as [_ _ Hon Hbk]. split; try done; by rewrite Hb.
Qed.

Lemma batch_stage old ts ps cs fs js walk s w :
  Drain.batch_fresh old s w -> ProcessManager.holds EventBus.BATCHQ w ps -> length ts = length ps ->
  ProcessManager.calls_of (EventBus.heap (bw w)) ps ts = map Some cs ->
  Forall2 (fun f c => carries f c.2) fs cs -> Forall (fun c => accepting c.1) cs ->
  Forall (fun f => forall e, carries f e -> Batch.admits reg e = Ret true /\ Batch.good reg e = true) fs ->
  (forall t, accepting (js t)) -> Batch.complete walk ->
  exists es w' s' flushed, batch_loop js walk ts w = (Ret es, w') /\ storage_ w' = Some s' /\
    StorageEngine.on_disk (StorageEngine.storageFile s') = old ++ StorageEngine.log_bytes flushed /\
    forall t, List.filter (Batch.of_topic t) flushed = List.filter (Batch.of_topic t) (map snd cs).
Proof.
  intros Hbt Hq Hlen Hcalls Hc Hin Hf Hjs Hwalk.
  assert (Hg : Forall (fun c => Batch.admits reg c.2 = Ret true /\ Batch.good reg c.2 = true) cs).
  { clear -Hc Hf. induction Hc as [|f c fs cs Hfc Hc IH]; [constructor|].
    apply Forall_cons in Hf as [Hf Hfs]. constructor; [by apply Hf|auto]. }
  destruct (Drain.batch_loop reg others old ts ps cs js walk s w Hbt Hq Hlen Hcalls)
    as (es & w' & s' & fl & Hw' & Hs' & Hdisk & Hord); [|done..|].
  { clear -Hg Hin. induction Hg as [|c cs [Ha Hg] Hcs IH]; [constructor|].
    apply Forall_cons in Hin as [Hacc Hin]. constructor; [|auto]. split; [done|]. split; [|by eexists].
    unfold Batch.good in Hg. unfold Batch.answers. destruct (Handlers.handle _ _); [by eexists|done..]. }
  exists es, w', s', fl. split_and!; try done. intros t. rewrite Hord. unfold Batch.admitted_of.
  clear -Hg. induction Hg as [|c cs [Ha Hg] Hcs IH]; [done|]. cbn [map List.filter].
  rewrite Ha, bool_decide_eq_true_2 by done. cbn [List.filter]. rewrite Hg, andb_true_r.
  by destruct (Batch.of_topic t c.2); rewrite IH.
Qed.

End Engine.

(** ** The events of a burst *)

Lemma arrivals_carry src addr fs w : Forall2 carries fs (Pipeline.arrivals src addr fs w).
Proof.
  eapply Forall2_impl; [apply Pipeline.arrivals_show|]. intros f e (Ht & Hb & _). by split.
Qed.

Lemma arrivals_ids src addr fs w :
  zlen fs <= 2 ^ 32 -> NoDup (map (fun e => id (header e)) (Pipeline.arrivals src addr fs w)).
Proof.
  intros Hlen. apply NoDup_alt. intros i j x Hi Hj. unfold Pipeline.arrivals in *.
  rewrite list_lookup_fmap in Hi, Hj.
  destruct ((EventFactory.create_run _ _).1 !! i) as [ei|] eqn:Ei; [|done].
  destruct ((EventFactory.create_run _ _).1 !! j) as [ej|] eqn:Ej; [|done].
  cbn in Hi, Hj. eapply EventFactory.ids_injective; [|exact Ei|exact Ej|congruence].
  by rewrite length_map.
Qed.

(** The frames' fields fit the record's. *)
Lemma arrivals_storable src addr fs w :
  Forall TcpServer.sendable fs -> Forall StorageEngine.storable (Pipeline.arrivals src addr fs w).
Proof.
  intros Hfs. unfold Pipeline.arrivals. generalize (Pipeline.global_event_id w).
  induction Hfs as [|f fs [[Ht Hb] _] Hfs IH]; intros n; [constructor|].
  cbn [map EventFactory.create_run Pipeline.request_of EventFactory.createEvent EventFactory.r_now
    EventFactory.r_source EventFactory.r_priority EventFactory.r_payload EventFactory.r_topic EventFactory.r_metadata].
  specialize (IH (add64 n 1)). destruct (EventFactory.create_run _ _) as [es n']. cbn [fst] in *.
  constructor; [|done]. unfold StorageEngine.storable, in_word. cbn.
  pose proof (zlen_nonneg (FrameParser.pf_payload f)).
  split_and!; try (apply wrap_range; lia); lia.
Qed.

(** The records and the frames of a list of calls. *)
Lemma carried_content fs (cs : list (Inputs * Event)) :
  Forall2 (fun f c => carries f c.2) fs cs ->
  map content_of (map StorageEngine.stored_of (map snd cs)) = map content fs.
Proof.
  induction 1 as [|f c fs cs [Ht Hb] H IH]; [done|]. cbn [map]. rewrite IH. f_equal.
  unfold content_of, content. cbn. by rewrite Ht, Hb.
Qed.

Lemma by_topic_content (es es' : list Event) :
  (forall t, List.filter (Batch.of_topic t) es = List.filter (Batch.of_topic t) es') ->
  forall t, List.filter (on_topic t) (map content_of (map StorageEngine.stored_of es)) =
            List.filter (on_topic t) (map content_of (map StorageEngine.stored_of es')).
Proof.
  intros Hf t. rewrite !map_map, !filter_topic_map. f_equal. exact (Hf t).
Qed.

(** ** The three loops on a dispatched burst *)

Section Burst.
Context {S : Type} (reg : Handlers.registry)
  (handle_at : Handlers.EventHandler -> Z -> Event -> outcome Handlers.HandleResult)
  (others : Output.Stream (S := S) -> Output.Stream (S := S)).
Implicit Types w : PWorld S.

(** The events [es] at the addresses [ls] are what the queue holds. *)
Definition waiting (q : EventBus.QueueId) w (ls : list loc) (es : list Event) : Prop :=
  ProcessManager.holds q w (map Some ls) /\ Forall2 (fun l e => EventBus.heap (bw w) !! l = Some e) ls es.

Lemma waiting_after q q' ls ls' es w w' :
  ProcessManager.other_queues q (map Some ls) w w' -> q' <> q -> (forall l, l ∈ ls' -> l ∉ ls) ->
  waiting q' w ls' es -> waiting q' w' ls' es.
Proof.
  intros [Ho Hh] Hq Hd [Hps Hes]. split; [by apply Ho|].
  assert (Hsame : Forall (fun l => EventBus.heap (bw w') !! l = EventBus.heap (bw w) !! l) ls').
  { apply Forall_forall. intros l Hl. apply Hh. intros (k & [= ->] & Hk)%list_elem_of_fmap. by eapply Hd. }
  clear -Hes Hsame. induction Hes as [|l e ls es He Hes IH]; [constructor|].
  apply Forall_cons in Hsame as [H Hsame]. constructor; [by rewrite H|auto].
Qed.

(** The turns of the loops for a burst: as many as events, every write accepted, in time. *)
Record schedule (limit : Z) table (fs : list FrameParser.ParsedFrame) (ts1 ts2 ts3 : list ProcessManager.Turn)
    (js : string -> Inputs) (walk : gmap string TopicBucket -> list string) : Prop := {
  sc_rt : length ts1 = length (bound_for table EventBus.REALTIME fs);
  sc_txn : length ts2 = length (bound_for table EventBus.TRANSACTIONAL fs);
  sc_batch : length ts3 = length (bound_for table EventBus.BATCHQ fs);
  sc_rt_in : Forall (fun t => in_time limit (ProcessManager.inp t)) ts1;
  sc_txn_in : Forall (fun t => accepting (ProcessManager.inp t)) ts2;
  sc_batch_in : Forall (fun t => accepting (ProcessManager.inp t)) ts3;
  sc_stop : forall t, accepting (js t);
  sc_walk : Batch.complete walk
}.

(** The frames of a queue that are welcome, with the demand of that queue. *)
Lemma welcome_bound limit retries table q fs :
  Forall (welcome reg handle_at limit retries table) fs ->
  Forall (fun f => welcome reg handle_at limit retries table f /\ frame_queue table f = q) (bound_for table q fs).
Proof.
  intros Hf. unfold bound_for. induction Hf as [|f fs Hw Hf IH]; [constructor|]. cbn [List.filter].
  case_bool_decide; [by constructor|done].
Qed.

(** What a stage asks of its queue, its turns and its frames. *)
Ltac stage_condition :=
  first [ rewrite length_map; lia
        | apply calls_of_events; [done | lia]
        | by apply calls_carry
        | by apply calls_inputs
        | eapply Forall_impl; [by apply welcome_bound |];
          let f := fresh in let Hf := fresh in let Hq := fresh in let e := fresh in let He := fresh in
          intros f [Hf Hq] e He; specialize (Hf e He); by rewrite Hq in Hf ].

Lemma drain_waiting old s w table fs ls1 es1 ls2 es2 ls3 es3 ts1 ts2 ts3 js walk :
  Drain.rt_fresh old s w -> ProcessManager.txn_fresh old s w -> Drain.batch_fresh old s w ->
  schedule (max_processing_ms_ (rt w)) table fs ts1 ts2 ts3 js walk ->
  Forall (welcome reg handle_at (max_processing_ms_ (rt w)) (max_retries_ (txn w)) table) fs ->
  waiting EventBus.REALTIME w ls1 es1 -> waiting EventBus.TRANSACTIONAL w ls2 es2 -> waiting EventBus.BATCHQ w ls3 es3 ->
  (forall l, l ∈ ls2 -> (l ∉ ls1)) -> (forall l, l ∈ ls3 -> (l ∉ ls1) /\ (l ∉ ls2)) ->
  Forall2 carries (bound_for table EventBus.REALTIME fs) es1 ->
  Forall2 carries (bound_for table EventBus.TRANSACTIONAL fs) es2 ->
  Forall2 carries (bound_for table EventBus.BATCHQ fs) es3 ->
  NoDup (map (fun e => id (header e)) es2) ->
  exists w' s' flushed, drain_all reg handle_at others ts1 ts2 ts3 js walk w = (Ret tt, w') /\ storage_ w' = Some s' /\
    StorageEngine.on_disk (StorageEngine.storageFile s') =
      old ++ StorageEngine.log_bytes (map snd (calls es1 ts1) ++ map snd (calls es2 ts2) ++ flushed) /\
    forall t, List.filter (Batch.of_topic t) flushed = List.filter (Batch.of_topic t) (map snd (calls es3 ts3)).
Proof.
  intros Hrt Htx Hbt [L1 L2 L3 I1 I2 I3 Hjs Hwalk] Hwel [Q1 E1] W2 W3 D12 D3 C1 C2 C3 Hnd.
  pose proof (Forall2_length _ _ _ C1) as N1. pose proof (Forall2_length _ _ _ C2) as N2.
  pose proof (Forall2_length _ _ _ C3) as N3. pose proof (Forall2_length _ _ _ E1) as M1.
  destruct (realtime_stage reg others old ts1 _ (calls es1 ts1) (bound_for table EventBus.REALTIME fs) s w Hrt Htx Hbt Q1)
    as (x1 & w1 & s1 & R1 & Htx1 & Hbt1 & Htxn & O1).
  all: try stage_condition.
  pose proof (waiting_after _ EventBus.TRANSACTIONAL _ _ _ _ _ O1 ltac:(done) D12 W2) as [Q2 E2].
  pose proof (Forall2_length _ _ _ E2) as M2.
  destruct (transactional_stage reg handle_at others _ ts2 _ (calls es2 ts2) (bound_for table EventBus.TRANSACTIONAL fs)
    s1 w1 Htx1 Hbt1 Q2) as (x2 & w2 & s2 & R2 & Hbt2 & O2).
  all: try (rewrite ?Htxn; stage_condition).
  { rewrite (calls_snd (fun e => id (header e))); [done|done|lia]. }
  pose proof (waiting_after _ EventBus.BATCHQ _ _ _ _ _ O1 ltac:(done) (fun l Hl => proj1 (D3 l Hl)) W3) as W3'.
  pose proof (waiting_after _ EventBus.BATCHQ _ _ _ _ _ O2 ltac:(done) (fun l Hl => proj2 (D3 l Hl)) W3') as [Q3 E3].
  pose proof (Forall2_length _ _ _ E3) as M3.
  destruct (batch_stage reg others _ ts3 _ (calls es3 ts3) (bound_for table EventBus.BATCHQ fs) js walk s2 w2 Hbt2 Q3)
    as (x3 & w3 & s3 & fl & R3 & Hs3 & Hdisk & Hord); try done.
  all: try stage_condition.
  exists w3, s3, fl. unfold drain_all. rewrite bindE, R1, bindE, R2, bindE, R3. split_and!; try done.
  by rewrite Hdisk, !StorageEngine.log_bytes_app, <- !app_assoc.
Qed.

End Burst.

(** ** The whole path *)

Section Path.
Context {S : Type} (reg : Handlers.registry)
  (handle_at : Handlers.EventHandler -> Z -> Event -> outcome Handlers.HandleResult)
  (others : Output.Stream (S := S) -> Output.Stream (S := S)).
Implicit Types w : PWorld S.

Lemma destination_carries table f e :
  carries f e -> priority (header e) = FrameParser.pf_priority f ->
  frame_queue table f = Fanout.destination table e.
Proof. intros [Ht _] Hp. unfold frame_queue, Fanout.destination, Fanout.prioritised. cbn. by rewrite Ht, Hp. Qed.

(** What the dispatcher leaves in the queues for the frames of a burst. *)
Lemma dispatched table src addr fs es (pw : Pipeline.PWorld) q :
  es = Pipeline.arrivals src addr fs pw ->
  let es_q := map (Fanout.prioritised table) (List.filter (fun e => bool_decide (Fanout.destination table e = q)) es) in
  Forall2 carries (bound_for table q fs) es_q.
Proof.
  intros ->. cbn zeta.
  assert (Hf : Forall2 (fun f e => carries f e /\ priority (header e) = FrameParser.pf_priority f)
                 (bound_for table q fs)
                 (List.filter (fun e => bool_decide (Fanout.destination table e = q)) (Pipeline.arrivals src addr fs pw))).
  { apply Forall2_filter.
    - intros f e [Hc Hp]. by rewrite (destination_carries table f e Hc Hp).
    - eapply Forall2_impl; [apply Pipeline.arrivals_show|]. by intros f e (Ht & Hb & Hp & _). }
  induction Hf as [|f e fs' es' [Hc _] Hf IH]; constructor; [exact Hc|exact IH].
Qed.

Lemma NoDup_ids_filter table q es :
  NoDup (map (fun e => id (header e)) es) ->
  NoDup (map (fun e => id (header e))
    (map (Fanout.prioritised table) (List.filter (fun e => bool_decide (Fanout.destination table e = q)) es))).
Proof.
  rewrite map_map. cbn. intros Hnd. induction es as [|e es IH]; [constructor|].
  apply NoDup_cons in Hnd as [He Hnd]. cbn [List.filter]. case_bool_decide; [|auto]. cbn [map].
  apply NoDup_cons. split; [|auto]. intros Hin. apply He. apply list_elem_of_In, in_map_iff in Hin as (x & Hx & Hin).
  apply filter_In in Hin as [Hin _]. apply list_elem_of_In, in_map_iff. by exists x.
Qed.

Lemma storable_calls es ts :
  Forall StorageEngine.storable es -> Forall StorageEngine.storable (map snd (calls es ts)).
Proof.
  intros He. revert ts. induction He as [|e es He Hes IH]; intros [|t ts]; constructor; [exact He|apply IH].
Qed.

Lemma storable_dispatched table q es :
  Forall StorageEngine.storable es ->
  Forall StorageEngine.storable
    (map (Fanout.prioritised table) (List.filter (fun e => bool_decide (Fanout.destination table e = q)) es)).
Proof.
  induction 1 as [|e es He Hes IH]; [constructor|]. cbn [List.filter]. case_bool_decide; [|done].
  constructor; [exact He|exact IH].
Qed.

(** Everything written is read back: the records of the three groups, in order. *)
Lemma read_back (es1 es2 es3 fl : list Event) n :
  Forall StorageEngine.storable es1 -> Forall StorageEngine.storable es2 -> Forall StorageEngine.storable es3 ->
  (forall t, List.filter (Batch.of_topic t) fl = List.filter (Batch.of_topic t) es3) ->
  (length es1 + length es2 + length es3 <= n)%nat ->
  StorageEngine.read_log n (StorageEngine.log_bytes (es1 ++ es2 ++ fl)) =
    Some (map StorageEngine.stored_of es1 ++ map StorageEngine.stored_of es2 ++ map StorageEngine.stored_of fl).
Proof.
  intros H1 H2 H3 Ho Hn. pose proof (by_topic_perm topic fl es3 Ho) as Hp.
  rewrite StorageEngine.read_log_bytes, !map_app; [done| |].
  - apply Forall_app. split; [done|]. apply Forall_app. split; [done|]. by rewrite Hp.
  - rewrite !length_app, (Permutation_length Hp). lia.
Qed.

(** The burst as the dispatcher leaves it: in each queue the events of the frames bound for it. *)
Lemma burst_queued old addr fs chunks ig w s turns :
  let d := Pipeline.disp (world ig) in
  let table := Dispatcher.topic_table_ d in
  idle old s d w ->
  Forall TcpServer.sendable fs -> concat chunks = TcpServer.stream fs -> zlen fs <= 12000 ->
  length turns = length fs -> Forall (fun t => t <> []) turns ->
  exists ig' d' (at_ : EventBus.QueueId -> list loc) (evs : EventBus.QueueId -> list Event),
    TcpServer.handleClient addr (map TcpServer.Received chunks) ig = TcpServer.Open [] 0 ig' /\
    Dispatcher.dispatch_all turns (Pipeline.disp (world ig')) = Ret d' /\
    (let w0 := with_bw (Dispatcher.world d') w in
     Drain.rt_fresh old s w0 /\ ProcessManager.txn_fresh old s w0 /\ Drain.batch_fresh old s w0 /\
     forall q, waiting q w0 (at_ q) (evs q)) /\
    (forall q q' l, q <> q' -> l ∈ at_ q -> (l ∉ at_ q')) /\
    forall q, Forall2 carries (bound_for table q fs) (evs q) /\ Forall StorageEngine.storable (evs q) /\
              NoDup (map (fun e => id (header e)) (evs q)).
Proof.
  intros d table Hidle Hfs Hch Hmany Hturns Htries. pose proof Hidle as [Hw Hin [n Hsim] Hpr _ _ _].
  assert (Hroom : zlen (Dispatcher.inbound_queue_ d) + zlen fs <= Dispatcher.INBOUND_CAPACITY).
  { rewrite Hin. unfold Dispatcher.INBOUND_CAPACITY. rewrite zlen_nil. lia. }
  destruct (Pipeline.tcp_arrived addr fs chunks ig Hfs Hch Hroom) as (ig' & ls & Htcp & Harr & _).
  set (es := Pipeline.arrivals TCP addr fs (world ig)) in *.
  destruct Harr as [Aq Ae _ And _ [h Ab] At]. fold d in Aq, Ab, At. rewrite Hin in Aq. cbn [app] in Aq.
  pose proof (Forall2_length _ _ _ Ae) as Nes.
  pose proof (Forall2_length _ _ _ (arrivals_carry TCP addr fs (world ig))) as Nfs. fold es in Nfs.
  destruct (Fanout.dispatch_forks turns (Pipeline.disp (world ig')) (EventBus.mkAbs [] [] [] n) ls es)
    as (d' & Hd' & _ & _ & [Fs _ Fe _ Fd Fm]); try done.
  { rewrite Ab. by apply EventBus.sim_empty. }
  { rewrite Ab. exact Hpr. }
  { congruence. }
  { unfold zlen in *. intros []; cbn; lia. }
  rewrite At in Fs, Fe. rewrite Ab in Fd, Fm. fold table in Fs, Fe.
  destruct (fresh_after_dispatch old s d d' w Hidle Fd Fm) as (Hrt & Htx & Hbt).
  exists ig', d', (fun q => Fanout.share table q ls es),
    (fun q => map (Fanout.prioritised table) (List.filter (fun e => bool_decide (Fanout.destination table e = q)) es)).
  do 2 (split; [done|]). split; [split_and!; [done..|]|split].
  - intros q. split; [|by apply Fanout.share_events].
    destruct Fs as [Hring Ht Hb _ _ _]. destruct q; [exact Hring|..]; cbn; by rewrite ?Ht, ?Hb.
  - intros q q' l Hq. by apply Fanout.share_disjoint.
  - intros q. split_and!; [by eapply dispatched|by apply storable_dispatched, arrivals_storable|].
    apply NoDup_ids_filter, arrivals_ids. lia.
Qed.

(** C1: a burst of well-formed frames that arrives over TCP at an idle engine, however the stream is cut,
    with welcome frames and no more of them than the realtime ring takes without pressure, is in the file
    when the processors are stopped: the bytes appended are read back as one record for each frame with
    its topic and payload, none lost and none twice, those of the realtime queue first and in order, then
    those of the transactional queue in order, then those of the batch queue in order for each topic. *)
Theorem socket_to_disk old addr fs chunks ig w s turns ts1 ts2 ts3 js walk :
  let d := Pipeline.disp (world ig) in
  let table := Dispatcher.topic_table_ d in
  idle old s d w ->
  Forall TcpServer.sendable fs -> concat chunks = TcpServer.stream fs -> zlen fs <= 12000 ->
  Forall (welcome reg handle_at (max_processing_ms_ (rt w)) (max_retries_ (txn w)) table) fs ->
  length turns = length fs -> Forall (fun t => t <> []) turns ->
  schedule (max_processing_ms_ (rt w)) table fs ts1 ts2 ts3 js walk ->
  exists ig' d' w' s' bytes r1 r2 r3,
    TcpServer.handleClient addr (map TcpServer.Received chunks) ig = TcpServer.Open [] 0 ig' /\
    Dispatcher.dispatch_all turns (Pipeline.disp (world ig')) = Ret d' /\
    drain_all reg handle_at others ts1 ts2 ts3 js walk (with_bw (Dispatcher.world d') w) = (Ret tt, w') /\
    storage_ w' = Some s' /\ StorageEngine.on_disk (StorageEngine.storageFile s') = old ++ bytes /\
    StorageEngine.read_log (length fs) bytes = Some (r1 ++ r2 ++ r3) /\
    map content_of r1 = map content (bound_for table EventBus.REALTIME fs) /\
    map content_of r2 = map content (bound_for table EventBus.TRANSACTIONAL fs) /\
    (forall t, List.filter (on_topic t) (map content_of r3) =
               List.filter (on_topic t) (map content (bound_for table EventBus.BATCHQ fs))) /\
    map content_of (r1 ++ r2 ++ r3) ≡ₚ map content fs.
Proof.
  intros d table Hidle Hfs Hch Hmany Hwel Hturns Htries Hsch.
  destruct (burst_queued old addr fs chunks ig w s turns Hidle Hfs Hch Hmany Hturns Htries)
    as (ig' & d' & at_ & evs & Htcp & Hd' & (Hrt & Htx & Hbt & Hwait) & Hdisj & Hevs). fold d table in Hevs.
  destruct (drain_waiting reg handle_at others old s _ table fs _ _ _ _ _ _ ts1 ts2 ts3 js walk Hrt Htx Hbt Hsch Hwel
    (Hwait EventBus.REALTIME) (Hwait EventBus.TRANSACTIONAL) (Hwait EventBus.BATCHQ))
    as (w' & s' & fl & Hrun & Hs' & Hdisk & Hord); try apply Hevs.
  { intros l. by apply Hdisj. }
  { intros l Hl. split; by eapply Hdisj; [|exact Hl]. }
  destruct Hsch as [L1 L2 L3 _ _ _ _ _].
  assert (Hcalls : forall q ts, length ts = length (bound_for table q fs) ->
    Forall2 (fun f c => carries f c.2) (bound_for table q fs) (calls (evs q) ts) /\
    Forall StorageEngine.storable (map snd (calls (evs q) ts)) /\
    length (map snd (calls (evs q) ts)) = length (bound_for table q fs)).
  { intros q ts Hlen. destruct (Hevs q) as (Hcar & Hsto & _). assert (Hc := calls_carry _ _ ts Hcar Hlen).
    split_and!; [done|by apply storable_calls|]. rewrite length_map. symmetry. by eapply Forall2_length. }
  destruct (Hcalls _ _ L1) as (K1 & S1 & M1). destruct (Hcalls _ _ L2) as (K2 & S2 & M2).
  destruct (Hcalls _ _ L3) as (K3 & S3 & M3).
  pose proof (Permutation_length (three_queues table fs)) as Hlen. rewrite !length_app in Hlen.
  pose proof (by_topic_content _ _ Hord) as Hbatch.
  eexists ig', d', w', s', _, _, _, _. do 5 (split; [eassumption|]). split.
  { apply (read_back _ _ (map snd (calls (evs EventBus.BATCHQ) ts3))); try done. lia. }
  rewrite (carried_content _ _ K1), (carried_content _ _ K2). rewrite (carried_content _ _ K3) in Hbatch.
  split_and!; try done. rewrite !map_app, (carried_content _ _ K1), (carried_content _ _ K2).
  rewrite (by_topic_perm fst _ _ Hbatch). rewrite <- !map_app. by rewrite three_queues.
Qed.

End Path.

End Delivery.

(** ** A concrete burst: a frame for each queue *)

Module DeliveryRun.

Definition frames : list FrameParser.ParsedFrame :=
  [FrameParser.mkParsedFrame HIGH "a" [Byte.x01]; FrameParser.mkParsedFrame BATCH "m" [Byte.x02];
   FrameParser.mkParsedFrame LOW "a" [Byte.x03]].

Definition dispatcher : Dispatcher.Dispatcher :=
  Dispatcher.mkDispatcher (EventBus.initial ∅ BusRun.registry0) [] (Some {["a"%string := LOW; "m"%string := BATCH]}).

Definition ingest0 : Ingest Pipeline.PWorld := mkIngest 0 0 (Pipeline.mkPWorld dispatcher 0 0).

Definition engine0 : PWorld unit := with_bw (Dispatcher.world dispatcher) (empty_pworld (Some open_log)).

Definition turn_at (ns : Z) : ProcessManager.Turn := ProcessManager.mkTurn ns (fun b => b) (calm ns).
Definition once : list Dispatcher.attempt := [Dispatcher.mkAttempt 0 0 (fun w => w)].

Lemma engine0_idle : Delivery.idle [] open_log dispatcher engine0.
Proof.
  assert (Hlog : StorageEngine.log_ok [] [] open_log) by (exists [], []; repeat split; reflexivity).
  split; try reflexivity.
  - exists 0. apply EventBus.initial_sim.
  - split; try reflexivity; [|by eexists|exact Hlog]. intros h a seen. cbn. intros [= <-]. reflexivity.
  - split; try reflexivity; [|exact Hlog]. exists 4%nat. split; [lia|reflexivity].
  - split; try reflexivity. exact Hlog.
Qed.

Lemma frames_welcome :
  Forall (Delivery.welcome [] plain_handle 5 3 (Dispatcher.topic_table_ dispatcher)) frames.
Proof.
  apply Forall_cons; split; [|apply Forall_cons; split; [|apply Forall_cons; split; [|constructor]]];
    intros e [Ht Hb]; cbn in Ht, Hb.
  - change (Delivery.frame_queue _ _) with EventBus.REALTIME. cbn. intros i Hi. unfold Realtime.fate, Handlers.getOrDefault.
    cbn. unfold Handlers.default_validate. rewrite Ht. cbn. by rewrite (proj2 (Z.ltb_ge _ _) Hi).
  - change (Delivery.frame_queue _ _) with EventBus.BATCHQ. cbn.
    unfold Batch.admits, Batch.good. cbn. unfold Handlers.default_validate. rewrite Ht. by split.
  - change (Delivery.frame_queue _ _) with EventBus.TRANSACTIONAL. cbn. unfold Transactional.verdict. cbn.
    unfold Handlers.default_validate. by rewrite Ht.
Qed.

End DeliveryRun.

Lemma socket_to_disk_witness :
  exists w' s' bytes r1 r2 r3,
    storage_ (S := unit) w' = Some s' /\ StorageEngine.on_disk (StorageEngine.storageFile s') = [] ++ bytes /\
    StorageEngine.read_log 3 bytes = Some (r1 ++ r2 ++ r3) /\
    map Delivery.content_of r1 = [("a"%string, [Byte.x01])] /\
    map Delivery.content_of r2 = [("a"%string, [Byte.x03])] /\
    List.filter (Delivery.on_topic "m") (map Delivery.content_of r3) = [("m"%string, [Byte.x02])].
Proof.
  destruct (Delivery.socket_to_disk [] plain_handle (fun st => st) [] "10.0.0.1" DeliveryRun.frames
    [take 5 (TcpServer.stream DeliveryRun.frames); drop 5 (TcpServer.stream DeliveryRun.frames)]
    DeliveryRun.ingest0 DeliveryRun.engine0 open_log [DeliveryRun.once; DeliveryRun.once; DeliveryRun.once]
    [DeliveryRun.turn_at 5] [DeliveryRun.turn_at 6] [DeliveryRun.turn_at 7] (fun _ => calm 8) map_walk)
    as (ig' & d' & w' & s' & bytes & r1 & r2 & r3 & _ & _ & _ & H4 & H5 & H6 & H7 & H8 & H9 & _).
  - exact DeliveryRun.engine0_idle.
  - repeat constructor; vm_compute; repeat split; discriminate.
  - reflexivity.
  - vm_compute. discriminate.
  - exact DeliveryRun.frames_welcome.
  - reflexivity.
  - repeat constructor; discriminate.
  - split; try reflexivity; try (repeat constructor; vm_compute; discriminate).
    intros m t. apply map_walk_complete.
  - exists w', s', bytes, r1, r2, r3. split; [exact H4|]. split; [exact H5|]. split; [exact H6|].
    split; [exact H7|]. split; [exact H8|]. exact (H9 "m"%string).
Defined.
