(* ===== verification/Engine.v ===== *)
(** * The engine with its threads interleaved

    Module [Engine]: the state of the running engine and the calls its threads make on
    it - a server thread that delivers a frame, the dispatcher, the three processor loops,
    the switches of the manager - in any order.  A call that holds a lock or works on its
    own data is one action; what a thread carries from one call to the next (the event the
    dispatcher is trying to queue, the event a loop has popped) is part of the state, so the
    other threads can act between the calls.  A schedule is a list of actions; an action
    whose thread is not at that point does nothing, so every list is a schedule.

    The bus is called as its mutexes have it; the accesses of two threads inside the
    realtime ring and inside the inbound queue are in [Spsc.v] and [Mpsc.v]. *)

From S2P Require Import Prelude Event FrameParser EventFactory IngestSink TopicTable Spsc Mpsc Dlq Metrics EventBus.
From S2P Require Import Dispatcher Pipeline Storage Handlers Output Dedup Processor Transactional Batch Manager Safety.
From S2P Require Import Drain Delivery.

Module Engine.
#[local] Existing Instance EventBus.QueueId_eq_dec.
Section Engine.
Context {S : Type} (reg : Handlers.registry)
  (handle_at : Handlers.EventHandler -> Z -> Event -> outcome Handlers.HandleResult)
  (others : Output.Stream (S := S) -> Output.Stream (S := S))
  (table : option (gmap string EventPriority)).

(** ** State *)

Record State := mkState {
  world : PWorld S;                                        (* the bus, the storage, the processors *)
  inbound : list EventPtr;
  next_id : Z;
  held : option (EventPtr * EventBus.QueueId * nat);       (* the dispatcher's event, its queue, the attempts made *)
  hand : EventBus.QueueId -> option EventPtr;              (* the event each loop has popped *)
  (* what has happened: the events admitted, those each queue admitted, those given to each processor, and
     those the bus and the dispatcher gave up, each in order *)
  admitted : list EventPtr;
  entered : EventBus.QueueId -> list EventPtr;
  given : EventBus.QueueId -> list EventPtr;
  dead : list EventPtr
}.

Definition set_bus (b : EventBus.World) (s : State) : State :=
  mkState (with_bw b (world s)) (inbound s) (next_id s) (held s) (hand s) (admitted s) (entered s) (given s) (dead s).
Definition set_inbound (l : list EventPtr) (s : State) : State :=
  mkState (world s) l (next_id s) (held s) (hand s) (admitted s) (entered s) (given s) (dead s).
Definition set_held (h : option (EventPtr * EventBus.QueueId * nat)) (s : State) : State :=
  mkState (world s) (inbound s) (next_id s) h (hand s) (admitted s) (entered s) (given s) (dead s).
Definition set_hand (q : EventBus.QueueId) (x : option EventPtr) (s : State) : State :=
  mkState (world s) (inbound s) (next_id s) (held s) (<[q := x]> (hand s)) (admitted s) (entered s) (given s) (dead s).
Definition enter (q : EventBus.QueueId) (p : EventPtr) (s : State) : State :=
  mkState (world s) (inbound s) (next_id s) (held s) (hand s) (admitted s) (<[q := entered s q ++ [p]]> (entered s))
    (given s) (dead s).
Definition bury (ps : list EventPtr) (s : State) : State :=
  mkState (world s) (inbound s) (next_id s) (held s) (hand s) (admitted s) (entered s) (given s) (dead s ++ ps).

(** The contents of a queue. *)
Definition waiting (q : EventBus.QueueId) (b : EventBus.World) : list EventPtr :=
  match q with
  | EventBus.REALTIME =>
      (EventBus.pop_ring_batch (Z.to_nat 16384) (EventBus.ringBuffer (EventBus.RealtimeBus_ (EventBus.bus b)))).1
  | _ => EventBus.dq (EventBus.getQueue q (EventBus.bus b))
  end.

(** What left the front of a queue that was extended by [n]. *)
Definition lost (n : nat) (before after : list EventPtr) : list EventPtr :=
  take (length before + n - length after) before.

Inductive Control := PauseTransactions | ResumeTransactions | DropBatchEvents | ResumeBatchEvents.

Definition switch (c : Control) : M S unit :=
  match c with
  | PauseTransactions => ProcessManager.pauseTransactions
  | ResumeTransactions => ProcessManager.resumeTransactions
  | DropBatchEvents => ProcessManager.dropBatchEvents
  | ResumeBatchEvents => ProcessManager.resumeBatchEvents
  end.

Definition process_of (q : EventBus.QueueId) : Inputs -> Event -> M S unit :=
  match q with
  | EventBus.REALTIME => Realtime.process reg others
  | EventBus.TRANSACTIONAL => Transactional.process reg handle_at others
  | EventBus.BATCHQ => Batch.process reg others
  end.

Inductive Action :=
| Arrive (src : EventSourceType) (addr : string) (f : FrameParser.ParsedFrame) (now_ns : Z)
| Route
| Attempt (now_ns now_ms : Z)
| GiveUp
| Take (q : EventBus.QueueId) (now_ns : Z)
| Work (q : EventBus.QueueId) (i : Inputs)
| Switch (c : Control).

Definition dispatcher_of (s : State) : Dispatcher.Dispatcher :=
  Dispatcher.mkDispatcher (bw (world s)) (inbound s) table.

Definition exec (c : Action) (s : State) : outcome State :=
  let w := world s in
  match c with
  | Arrive src addr f now =>
      let '(_, p) := Pipeline.offer src addr f (Pipeline.mkPWorld (dispatcher_of s) (next_id s) now) in
      let q := Dispatcher.inbound_queue_ (Pipeline.disp p) in
      Ret (mkState (with_bw (Dispatcher.world (Pipeline.disp p)) w) q (Pipeline.global_event_id p) (held s) (hand s)
             (admitted s ++ drop (length (inbound s)) q) (entered s) (given s) (dead s))
  | Route =>
      match held s with
      | Some _ => Ret s
      | None =>
          match Dispatcher.tryPop (dispatcher_of s) with
          | (Some (Some l), d) =>
              '(q, b) ← Dispatcher.route table (Some l) (bw w);
              Ret (set_held (Some (Some l, q, O)) (set_bus b (set_inbound (Dispatcher.inbound_queue_ d) s)))
          | (_, d) => Ret (set_inbound (Dispatcher.inbound_queue_ d) s)
          end
      end
  | Attempt ns ms =>
      match held s with
      | Some (p, q, n) =>
          if (n <? Dispatcher.MAX_RETRIES)%nat then
            '(ok, b) ← EventBus.push q p ns ms (fun b => b) (bw w);
            Ret (if ok : bool
                 then bury (lost 1 (waiting q (bw w)) (waiting q b)) (enter q p (set_held None (set_bus b s)))
                 else set_held (Some (p, q, Datatypes.S n)) (set_bus b s))
          else Ret s
      | None => Ret s
      end
  | GiveUp =>
      match held s with
      | Some (p, q, n) =>
          if (n <? Dispatcher.MAX_RETRIES)%nat then Ret s else
          b ← EventBus.dead_letter p (bw w); Ret (bury [p] (set_held None (set_bus b s)))
      | None => Ret s
      end
  | Take q ns =>
      match hand s q with
      | Some _ => Ret s
      | None => '(x, b) ← EventBus.pop q ns (fun b => b) (bw w); Ret (set_hand q x (set_bus b s))
      end
  | Work q i =>
      match hand s q with
      | None => Ret s
      | Some p =>
          e ← deref (EventBus.heap (bw w)) p;
          match process_of q i e w with
          | (UB, _) => UB
          | (_, w') =>
              Ret (mkState w' (inbound s) (next_id s) (held s) (<[q := None]> (hand s)) (admitted s) (entered s)
                     (<[q := given s q ++ [p]]> (given s))
                     (dead s ++ lost 0 (waiting EventBus.BATCHQ (bw w)) (waiting EventBus.BATCHQ (bw w'))))
          end
      end
  | Switch c =>
      Ret (mkState (switch c w).2 (inbound s) (next_id s) (held s) (hand s) (admitted s) (entered s) (given s) (dead s))
  end.

Fixpoint run (cs : list Action) (s : State) : outcome State :=
  match cs with [] => Ret s | c :: cs' => s ← exec c s; run cs' s end.

(** ** The actions are the code's *)

Lemma schedule_cons c cs s s1 : exec c s = Ret s1 -> run (c :: cs) s = run cs s1.
Proof. intros H. cbn [run]. by rewrite H. Qed.

(** What a thread with nothing to do leaves. *)
Lemma run_idle_dispatcher cs s :
  held s = None -> Forall (fun c => match c with Attempt _ _ | GiveUp => True | _ => False end) cs -> run cs s = Ret s.
Proof.
  intros Hh. induction 1 as [|c cs Hc _ IH]; [done|]. rewrite (schedule_cons c cs s s); [done|].
  destruct c; try done; cbn [exec]; by rewrite Hh.
Qed.

(** The attempts that are left, and then giving up. *)
Lemma push_retry_schedule clock p q n s ok b :
  held s = Some (p, q, n) -> Nat.add n (length clock) = Dispatcher.MAX_RETRIES ->
  Dispatcher.push_retry (Dispatcher.alone clock) q p (bw (world s)) = Ret (ok, b) ->
  exists s', run (map (fun c => Attempt c.1 c.2) clock) s = Ret s' /\ bw (world s') = b /\ inbound s' = inbound s /\
    hand s' = hand s /\ given s' = given s /\ held s' = (if ok then None else Some (p, q, Dispatcher.MAX_RETRIES)).
Proof.
  revert n s. induction clock as [|[ns ms] clock IH]; intros n s Hh Hn Hp.
  - injection Hp as <- <-. exists s. cbn [length] in Hn. rewrite Nat.add_0_r in Hn. by subst n.
  - rewrite Dispatcher.push_retry_cons in Hp. apply outcome_bind_ret in Hp as ([ok1 b1] & Hp1 & Hp). cbn [length map] in *.
    assert (Hx : exec (Attempt ns ms) s = Ret (if ok1
       then bury (lost 1 (waiting q (bw (world s))) (waiting q b1)) (enter q p (set_held None (set_bus b1 s)))
       else set_held (Some (p, q, Datatypes.S n)) (set_bus b1 s))).
    { cbn [exec]. rewrite Hh, (proj2 (Nat.ltb_lt _ _)) by lia. unfold Dispatcher.no_env in Hp1. by rewrite Hp1. }
    cbn [fst snd]. rewrite (schedule_cons _ _ _ _ Hx). destruct ok1.
    + injection Hp as <- <-. rewrite run_idle_dispatcher; [by eexists|done|].
      apply Forall_fmap, Forall_forall. by intros [].
    + exact (IH (Datatypes.S n) (set_held (Some (p, q, Datatypes.S n)) (set_bus b1 s)) eq_refl ltac:(lia) Hp).
Qed.

Lemma schedule_app cs1 cs2 s s1 : run cs1 s = Ret s1 -> run (cs1 ++ cs2) s = run cs2 s1.
Proof.
  revert s; induction cs1 as [|c cs1 IH]; intros s; [by intros [= ->]|]. cbn [run app].
  rewrite outcome_bind_ret. intros (s2 & -> & Hr). by apply IH.
Qed.

(** A turn of the dispatch loop is a routing, three attempts and giving up, with nothing in between. *)
Lemma dispatch_one_schedule c1 c2 c3 s d' :
  held s = None -> Dispatcher.dispatch_one (Dispatcher.alone [c1; c2; c3]) (dispatcher_of s) = Ret d' ->
  exists s', run (Route :: map (fun c => Attempt c.1 c.2) [c1; c2; c3] ++ [GiveUp]) s = Ret s' /\
    dispatcher_of s' = d' /\ held s' = None /\ hand s' = hand s /\ given s' = given s.
Proof.
  intros Hh. unfold Dispatcher.dispatch_one, Dispatcher.tryPop, dispatcher_of.
  cbn [Dispatcher.inbound_queue_ Dispatcher.world Dispatcher.topic_table_].
  destruct (Mpsc.pop (inbound s)) as [x rest] eqn:Ep.
  assert (Hidle : (x = None \/ x = Some None) -> exists s', run (Route :: map (fun c => Attempt c.1 c.2) [c1; c2; c3] ++ [GiveUp]) s
    = Ret s' /\ dispatcher_of s' = Dispatcher.mkDispatcher (bw (world s)) rest table /\ held s' = None /\
      hand s' = hand s /\ given s' = given s).
  { intros Hx. rewrite (schedule_cons _ _ s (set_inbound rest s)).
    - rewrite run_idle_dispatcher; [by eexists|done|]. repeat constructor.
    - cbn [exec]. unfold Dispatcher.tryPop, dispatcher_of. cbn. rewrite Hh, Ep. by destruct Hx as [-> | ->]. }
  destruct x as [[l|]|]; [|intros [= <-]; auto..]. clear Hidle.
  rewrite outcome_bind_ret. intros ([q b] & Hr & Hd). apply outcome_bind_ret in Hd as ([ok b1] & Hp & Hd).
  change (take Dispatcher.MAX_RETRIES (Dispatcher.alone [c1; c2; c3])) with (Dispatcher.alone [c1; c2; c3]) in Hp.
  set (s1 := set_held (Some (Some l, q, O)) (set_bus b (set_inbound rest s))).
  assert (Hx : exec Route s = Ret s1).
  { cbn [exec]. unfold Dispatcher.tryPop, dispatcher_of. cbn. rewrite Hh, Ep. cbn in Hr. by rewrite Hr. }
  rewrite (schedule_cons _ _ _ _ Hx).
  destruct (push_retry_schedule [c1; c2; c3] (Some l) q 0 s1 ok b1 eq_refl eq_refl Hp)
    as (s2 & Hr2 & Hb2 & Hi2 & Hh2 & Hg2 & Hheld). rewrite (schedule_app _ _ _ _ Hr2). destruct ok.
  - injection Hd as <-. rewrite run_idle_dispatcher by (try done; repeat constructor). exists s2. unfold dispatcher_of. by rewrite Hb2, Hi2.
  - apply outcome_bind_ret in Hd as (b3 & Hd & [= <-]). cbn [run exec]. rewrite Hheld.
    change (Dispatcher.MAX_RETRIES <? Dispatcher.MAX_RETRIES)%nat with false. cbv iota. rewrite Hb2, Hd.
    cbn [mbind outcome_bind]. eexists. split; [done|]. unfold dispatcher_of. cbn. by rewrite Hi2.
Qed.

(** A turn of a processor loop on a queue with an event is a pop and a call. *)
Lemma turn_schedule q t s e w' :
  hand s q = None -> ProcessManager.turn q (process_of q) (ProcessManager.mkTurn (ProcessManager.pop_ns t) (fun b => b) (ProcessManager.inp t)) (world s) = (Ret (Some e), w') ->
  exists s', run [Take q (ProcessManager.pop_ns t); Work q (ProcessManager.inp t)] s = Ret s' /\ world s' = w' /\
    hand s' q = None /\ inbound s' = inbound s /\ held s' = held s.
Proof.
  intros Hh. unfold ProcessManager.turn. cbn [ProcessManager.pop_ns ProcessManager.env ProcessManager.inp].
  destruct (EventBus.pop q _ _ (bw (world s))) as [[[p|] b]| |] eqn:Ep; [|done..].
  destruct (deref (EventBus.heap b) p) as [e0| |] eqn:Ed; [|done..].
  destruct (process_of q (ProcessManager.inp t) e0 (with_bw b (world s))) as [o w1] eqn:Ew. intros Hr.
  assert (Hx : exec (Take q (ProcessManager.pop_ns t)) s = Ret (set_hand q (Some p) (set_bus b s))).
  { cbn [exec]. by rewrite Hh, Ep. }
  rewrite (schedule_cons _ _ _ _ Hx). cbn [run exec set_hand set_bus hand world bw with_bw]. rewrite fn_lookup_insert, Ed.
  cbn [mbind outcome_bind]. rewrite Ew. destruct o; [..|done]; injection Hr as <- <-; cbn [mbind outcome_bind];
    (eexists; split; [done|]; cbn; by rewrite fn_lookup_insert).
Qed.

(** ** Where the events are *)

Definition carried (s : State) : list EventPtr := match held s with Some (p, _, _) => [p] | None => [] end.
Definition handed (s : State) (q : EventBus.QueueId) : list EventPtr :=
  match hand s q with Some p => [p] | None => [] end.

(** The events a queue admitted that it did not throw away, the oldest first. *)
Definition column (s : State) (q : EventBus.QueueId) : list EventPtr :=
  given s q ++ handed s q ++ waiting q (bw (world s)).

Definition places (s : State) : list EventPtr :=
  inbound s ++ carried s ++ column s EventBus.REALTIME ++ column s EventBus.TRANSACTIONAL ++
  column s EventBus.BATCHQ ++ dead s.

Definition heap_of (s : State) : Heap := EventBus.heap (bw (world s)).

Record inv (s : State) : Prop := {
  v_bus : exists a, EventBus.sim (bw (world s)) a /\ zlen (dead s) <= EventBus.a_dropped a;
  v_buckets : Safety.buckets_ok reg (world s);
  v_live : Forall (live (heap_of s)) (admitted s);
  v_nodup : NoDup (admitted s);
  v_retries : forall p q n, held s = Some (p, q, n) -> (n <= Dispatcher.MAX_RETRIES)%nat;
  v_places : admitted s ≡ₚ places s;
  v_order : forall q, sublist (column s q) (entered s q);
  v_tx : column s EventBus.TRANSACTIONAL = entered s EventBus.TRANSACTIONAL
}.

(** *** The queues of the specification of the bus *)

Definition view (q : EventBus.QueueId) (a : EventBus.Abs) : list EventPtr :=
  match q with
  | EventBus.REALTIME => EventBus.a_rt a
  | EventBus.TRANSACTIONAL => EventBus.a_tx a
  | EventBus.BATCHQ => EventBus.a_bt a
  end.

Lemma waiting_sim q b a : EventBus.sim b a -> waiting q b = view q a.
Proof.
  intros [[tc Hr] Ht Hb _ _ _]. destruct q; cbn [waiting view EventBus.getQueue].
  - assert (Hn : Z.of_nat (Z.to_nat 16384) = 16384) by (by apply Z2Nat.id).
    revert Hn. generalize (Z.to_nat 16384). intros n Hn. rewrite (proj1 (EventBus.pop_ring_batch_spec n _ _ _ Hr)).
    apply take_ge. destruct Hr as (_ & _ & _ & _ & Hcap & _). rewrite EventBus.ring_slots in Hcap. unfold zlen in Hcap. lia.
  - by rewrite Ht.
  - by rewrite Hb.
Qed.

Lemma waiting_bus q b b' : EventBus.bus b' = EventBus.bus b -> waiting q b' = waiting q b.
Proof. intros Hb. unfold waiting. by rewrite Hb. Qed.

#[local] Opaque waiting.

Lemma abs_push_view q p ns ms a :
  ((EventBus.abs_op (EventBus.Push q p ns ms) a).1 = EventBus.Pushed false /\
   (EventBus.abs_op (EventBus.Push q p ns ms) a).2 = a) \/
  ((EventBus.abs_op (EventBus.Push q p ns ms) a).1 = EventBus.Pushed true /\
   let a' := (EventBus.abs_op (EventBus.Push q p ns ms) a).2 in
   exists gone rest, view q a = gone ++ rest /\ view q a' = rest ++ [p] /\
     (forall q', q' <> q -> view q' a' = view q' a) /\
     EventBus.a_dropped a' = EventBus.a_dropped a + zlen gone /\ (q = EventBus.TRANSACTIONAL -> gone = [])).
Proof.
  destruct q; cbn [EventBus.abs_op].
  - right. destruct (Z.ltb_spec (zlen (EventBus.a_rt a)) 16383); (split; [done|]); cbn.
    + exists [], (EventBus.a_rt a). split_and!; try done; [by intros []|]. rewrite zlen_nil. lia.
    + destruct (EventBus.a_rt a) as [|x l]; [by rewrite zlen_nil in *|]. exists [x], l.
      split_and!; try done. by intros [].
  - destruct (_ <? _); [right|by left]. split; [done|]. cbn. exists [], (EventBus.a_tx a).
    split_and!; try done; [by intros []|]. rewrite zlen_nil. lia.
  - destruct (_ <? _); [right|by left]. split; [done|]. cbn. exists [], (EventBus.a_bt a).
    split_and!; try done; [by intros []|]. rewrite zlen_nil. lia.
Qed.

Lemma abs_pop_view q ns a : exists x a',
  EventBus.abs_op (EventBus.Pop q ns) a = (EventBus.Popped x, a') /\
  view q a = match x with Some p => [p] | None => [] end ++ view q a' /\
  (forall q', q' <> q -> view q' a' = view q' a) /\ EventBus.a_dropped a' = EventBus.a_dropped a /\
  (x = None -> view q a = []).
Proof.
  destruct q; cbn [EventBus.abs_op view].
  - destruct (EventBus.a_rt a) as [|x l]; eexists _, _; split_and!; try done; by intros [].
  - destruct (EventBus.a_tx a) as [|x l]; eexists _, _; split_and!; try done; by intros [].
  - destruct (EventBus.a_bt a) as [|x l]; eexists _, _; split_and!; try done; by intros [].
Qed.

Lemma lost_spec n gone rest tail : length tail = n -> lost n (gone ++ rest) (rest ++ tail) = gone.
Proof.
  intros <-. unfold lost. rewrite !length_app.
  replace (length gone + length rest + length tail - (length rest + length tail))%nat with (length gone) by lia.
  apply take_app_length.
Qed.

(** *** One column apart from the others *)

Definition others_of {A} (q : EventBus.QueueId) (c : EventBus.QueueId -> list A) : list A :=
  match q with
  | EventBus.REALTIME => c EventBus.TRANSACTIONAL ++ c EventBus.BATCHQ
  | EventBus.TRANSACTIONAL => c EventBus.REALTIME ++ c EventBus.BATCHQ
  | EventBus.BATCHQ => c EventBus.REALTIME ++ c EventBus.TRANSACTIONAL
  end.

Lemma others_ext {A} q (c c' : EventBus.QueueId -> list A) :
  (forall q', q' <> q -> c' q' = c q') -> others_of q c' = others_of q c.
Proof. intros H. by destruct q; cbn; rewrite !H. Qed.

Lemma places_column q s :
  places s ≡ₚ inbound s ++ carried s ++ column s q ++ others_of q (column s) ++ dead s.
Proof.
  unfold places. generalize (inbound s) (carried s) (dead s) (column s). intros i c d col.
  destruct q; cbn [others_of]; solve_Permutation.
Qed.

(** *** Every action keeps the account *)

Lemma place_live s p : inv s -> p ∈ places s -> live (heap_of s) p.
Proof. intros Hi Hp. rewrite <- (v_places _ Hi) in Hp. pose proof (v_live _ Hi) as Hl. rewrite Forall_forall in Hl. by apply Hl. Qed.

Lemma held_place s p q n : held s = Some (p, q, n) -> p ∈ places s.
Proof. intros Hh. unfold places, carried. rewrite Hh. set_solver. Qed.

Lemma hand_place s q p : hand s q = Some p -> p ∈ places s.
Proof.
  intros Hh. rewrite (places_column q). assert (Hin : p ∈ handed s q) by (unfold handed; rewrite Hh; set_solver).
  unfold column. set_solver.
Qed.

Lemma inbound_place s p : p ∈ inbound s -> p ∈ places s.
Proof. unfold places. set_solver. Qed.

(** All but an arrival: the events are the same, and each is in one place. *)
Lemma inv_moved s s' a :
  inv s -> EventBus.sim (bw (world s')) a -> zlen (dead s') <= EventBus.a_dropped a ->
  Safety.buckets_ok reg (world s') -> (forall p, live (heap_of s) p -> live (heap_of s') p) ->
  (forall p q n, held s' = Some (p, q, n) -> (n <= Dispatcher.MAX_RETRIES)%nat) ->
  admitted s' = admitted s -> places s' ≡ₚ places s ->
  (forall q, sublist (column s' q) (entered s' q)) ->
  column s' EventBus.TRANSACTIONAL = entered s' EventBus.TRANSACTIONAL -> inv s'.
Proof.
  intros Hi Hs Hd Hb Hl Hr Ha Hp Ho Ht. split; try done.
  - by exists a.
  - rewrite Ha. eapply Forall_impl; [apply (v_live _ Hi)|done].
  - rewrite Ha. apply (v_nodup _ Hi).
  - rewrite Ha, (v_places _ Hi). by symmetry.
Qed.

(** The queues as they were: what is in them and around them. *)
Lemma column_same s s' q :
  given s' q = given s q -> hand s' q = hand s q -> waiting q (bw (world s')) = waiting q (bw (world s)) ->
  column s' q = column s q.
Proof. intros Hg Hh Hw. unfold column, handed. by rewrite Hg, Hh, Hw. Qed.

Lemma places_same s s' :
  inbound s' ++ carried s' ≡ₚ inbound s ++ carried s -> (forall q, column s' q = column s q) -> dead s' = dead s ->
  places s' ≡ₚ places s.
Proof. intros Hi Hc Hd. unfold places. by rewrite !Hc, Hd, !(app_assoc (inbound _)), Hi. Qed.

(** The attempt that is refused. *)
Lemma refused_inv s p q n a b :
  inv s -> held s = Some (p, q, n) -> (n < Dispatcher.MAX_RETRIES)%nat -> EventBus.sim (bw (world s)) a ->
  zlen (dead s) <= EventBus.a_dropped a -> EventBus.heap b = heap_of s -> EventBus.sim b a ->
  inv (set_held (Some (p, q, Datatypes.S n)) (set_bus b s)).
Proof.
  intros Hi Hh Hn Hs Hd Hheap Hs'. set (s' := set_held _ _).
  assert (Hcol : forall q', column s' q' = column s q').
  { intros q'. apply column_same; try done. cbn. by rewrite (waiting_sim _ _ _ Hs), (waiting_sim _ _ _ Hs'). }
  eapply (inv_moved s s' a); try done.
  - apply (v_buckets _ Hi).
  - unfold heap_of, s'. cbn. by rewrite Hheap.
  - intros p' q' n' [= <- <- <-]. lia.
  - apply places_same; [|done|done]. unfold carried. by rewrite Hh.
  - intros q'. rewrite Hcol. apply (v_order _ Hi).
  - rewrite Hcol. apply (v_tx _ Hi).
Qed.

(** The one that is taken in: the event is behind the [rest] of its queue, the [gone] are with the dead. *)
Lemma taken_inv s p q n a a' b gone rest :
  inv s -> held s = Some (p, q, n) -> EventBus.sim (bw (world s)) a -> zlen (dead s) <= EventBus.a_dropped a ->
  EventBus.heap b = heap_of s -> EventBus.sim b a' ->
  view q a = gone ++ rest -> view q a' = rest ++ [p] -> (forall q', q' <> q -> view q' a' = view q' a) ->
  EventBus.a_dropped a' = EventBus.a_dropped a + zlen gone -> (q = EventBus.TRANSACTIONAL -> gone = []) ->
  inv (bury (lost 1 (waiting q (bw (world s))) (waiting q b)) (enter q p (set_held None (set_bus b s)))).
Proof.
  intros Hi Hh Hs Hd Hheap Hs' Hv Hv' Ho Hdr Htx. set (s' := bury _ _).
  assert (Hlost : lost 1 (waiting q (bw (world s))) (waiting q b) = gone).
  { rewrite (waiting_sim _ _ _ Hs), (waiting_sim _ _ _ Hs'), Hv, Hv'. by apply lost_spec. }
  assert (Hcol : column s' q = given s q ++ handed s q ++ rest ++ [p]).
  { unfold column. cbn. by rewrite (waiting_sim _ _ _ Hs'), Hv'. }
  assert (Hcol0 : column s q = given s q ++ handed s q ++ gone ++ rest).
  { unfold column. by rewrite (waiting_sim _ _ _ Hs), Hv. }
  assert (Hother : forall q', q' <> q -> column s' q' = column s q').
  { intros q' Hq. apply column_same; try done. cbn. rewrite (waiting_sim _ _ _ Hs), (waiting_sim _ _ _ Hs'). by apply Ho. }
  assert (Hent : forall q', q' <> q -> entered s' q' = entered s q').
  { intros q' Hq. cbn. by rewrite fn_lookup_insert_ne. }
  assert (Hentq : entered s' q = entered s q ++ [p]) by (cbn; by rewrite fn_lookup_insert).
  eapply (inv_moved s s' a'); try done.
  - unfold s'. cbn [dead bury enter set_held set_bus]. rewrite Hlost, zlen_app, Hdr. lia.
  - apply (v_buckets _ Hi).
  - unfold heap_of, s'. cbn. by rewrite Hheap.
  - rewrite !(places_column q), (others_ext q _ _ Hother), Hcol, Hcol0. unfold carried. rewrite Hh.
    cbn [held s' bury enter set_held set_bus inbound dead]. rewrite Hlost. solve_Permutation.
  - intros q'. destruct (decide (q' = q)) as [->|Hne]; [|rewrite Hother, Hent by done; apply (v_order _ Hi)].
    rewrite Hcol, Hentq. rewrite !app_assoc. apply sublist_app; [|done]. rewrite <- !app_assoc.
    etransitivity; [|apply (v_order _ Hi)].
    rewrite Hcol0. repeat (apply sublist_app; [done|]). by apply sublist_inserts_l.
  - destruct (decide (q = EventBus.TRANSACTIONAL)) as [->|Hne]; [|rewrite Hother, Hent by congruence; apply (v_tx _ Hi)].
    rewrite Hcol, Hentq, <- (v_tx _ Hi), Hcol0, (Htx eq_refl). cbn [app]. by rewrite <- !app_assoc.
Qed.

Lemma attempt_inv ns ms s : inv s -> exists s', exec (Attempt ns ms) s = Ret s' /\ inv s'.
Proof.
  intros Hi. cbn [exec]. destruct (held s) as [[[p q] n]|] eqn:Hh; [|by exists s].
  destruct (n <? Dispatcher.MAX_RETRIES)%nat eqn:Hn; [|by exists s]. apply Nat.ltb_lt in Hn.
  destruct (v_bus _ Hi) as (a & Hs & Hd).
  assert (Hp : live (heap_of s) p) by (by eapply place_live, held_place).
  destruct (EventBus.push_sim q p ns ms _ a Hs Hp) as (ok & b & -> & Hheap & Hok & Hs'). cbn [mbind outcome_bind].
  eexists. split; [done|].
  destruct (abs_push_view q p ns ms a) as [[Hr Ha]|(Hr & gone & rest & Hv & Hv' & Ho & Hdr & Htx)]; rewrite Hr in Hok;
    injection Hok as <-.
  - rewrite Ha in Hs'. by eapply refused_inv.
  - by eapply taken_inv.
Qed.

Lemma route_inv s : inv s -> exists s', exec Route s = Ret s' /\ inv s'.
Proof.
  intros Hi. cbn [exec]. destruct (held s) eqn:Hh; [by exists s|].
  unfold Dispatcher.tryPop, dispatcher_of, Mpsc.pop. cbn [Dispatcher.inbound_queue_ Dispatcher.world Dispatcher.topic_table_].
  destruct (inbound s) as [|p rest] eqn:Hin.
  - exists (set_inbound [] s). split; [done|]. rewrite <- Hin. by destruct s.
  - assert (Hp : live (heap_of s) p) by (apply (place_live _ _ Hi), inbound_place; rewrite Hin; left).
    destruct Hp as (l & e & -> & He). rewrite (Dispatcher.route_live table l e _ He). cbn [mbind outcome_bind].
    eexists. split; [done|]. set (s' := set_held _ _). destruct (v_bus _ Hi) as (a & Hs & Hd).
    assert (Hlive : forall p, live (heap_of s) p -> live (heap_of s') p).
    { intros p. unfold heap_of, s'. cbn. eapply (live_modify (set_priority _) _ _ (Some l)). cbn.
      unfold heap_of in He. by rewrite He. }
    assert (Hcol : forall q', column s' q' = column s q') by (intros q'; apply column_same; [done|done|by apply waiting_bus]).
    eapply (inv_moved s s' a); try done.
    + cbn. by apply Dispatcher.sim_heap.
    + apply (v_buckets _ Hi).
    + intros p' q' n' [= <- <- <-]. lia.
    + apply places_same; [|done|done]. unfold carried. rewrite Hh, Hin. cbn. solve_Permutation.
    + intros q'. rewrite Hcol. apply (v_order _ Hi).
    + rewrite Hcol. apply (v_tx _ Hi).
Qed.

Lemma give_up_inv s : inv s -> exists s', exec GiveUp s = Ret s' /\ inv s'.
Proof.
  intros Hi. cbn [exec]. destruct (held s) as [[[p q] n]|] eqn:Hh; [|by exists s].
  destruct (n <? Dispatcher.MAX_RETRIES)%nat; [by exists s|]. destruct (v_bus _ Hi) as (a & Hs & Hd).
  assert (Hp : live (heap_of s) p) by (by eapply place_live, held_place).
  destruct (Dispatcher.sim_dead_letter p _ a Hs Hp) as (b & Hb & Hheap & Hs'). rewrite Hb. cbn [mbind outcome_bind].
  eexists. split; [done|]. set (s' := bury _ _).
  assert (Hcol : forall q', column s' q' = column s q').
  { intros q'. apply column_same; try done. cbn. rewrite (waiting_sim _ _ _ Hs), (waiting_sim _ _ _ Hs'). by destruct q'. }
  eapply (inv_moved s s' _); try done.
  - cbn. rewrite zlen_app. change (zlen [p]) with 1. lia.
  - apply (v_buckets _ Hi).
  - unfold heap_of, s'. cbn. by rewrite Hheap.
  - unfold places. rewrite !Hcol. unfold carried. rewrite Hh. cbn [inbound held dead s' bury set_held set_bus].
    generalize (inbound s) (dead s) (column s). intros i d c. solve_Permutation.
  - intros q'. rewrite Hcol. apply (v_order _ Hi).
  - rewrite Hcol. apply (v_tx _ Hi).
Qed.

Lemma take_inv q ns s : inv s -> exists s', exec (Take q ns) s = Ret s' /\ inv s'.
Proof.
  intros Hi. cbn [exec]. destruct (hand s q) as [p|] eqn:Hh; [by exists s|]. destruct (v_bus _ Hi) as (a & Hs & Hd).
  destruct (EventBus.pop_sim q ns _ a Hs) as (x & b & -> & Hx & Hs' & Hlive). cbn [mbind outcome_bind].
  destruct (abs_pop_view q ns a) as (x' & a' & Habs & Hv & Ho & Hdr & _). rewrite Habs in Hx, Hs'. cbn in Hx, Hs'.
  injection Hx as <-. eexists. split; [done|]. set (s' := set_hand _ _ _).
  assert (Hcol : forall q', column s' q' = column s q').
  { intros q'. destruct (decide (q' = q)) as [->|Hne].
    - unfold column, handed. cbn. rewrite fn_lookup_insert, Hh, (waiting_sim _ _ _ Hs), (waiting_sim _ _ _ Hs'), Hv.
      by destruct x'.
    - apply column_same; [done|cbn; by rewrite fn_lookup_insert_ne|]. cbn.
      rewrite (waiting_sim _ _ _ Hs), (waiting_sim _ _ _ Hs'). by apply Ho. }
  eapply (inv_moved s s' a'); try done.
  - cbn. by rewrite Hdr.
  - apply (v_buckets _ Hi).
  - apply (v_retries _ Hi).
  - by apply places_same.
  - intros q'. rewrite Hcol. apply (v_order _ Hi).
  - rewrite Hcol. apply (v_tx _ Hi).
Qed.

Lemma switch_inv c s : inv s -> exists s', exec (Switch c) s = Ret s' /\ inv s'.
Proof.
  intros Hi. eexists. split; [done|]. destruct (v_bus _ Hi) as (a & Hs & Hd). set (s' := mkState _ _ _ _ _ _ _ _ _).
  assert (Hbw : bw (world s') = bw (world s)) by (by destruct c).
  assert (Hcol : forall q', column s' q' = column s q') by (intros q'; apply column_same; [done..|by rewrite Hbw]).
  eapply (inv_moved s s' a); try done.
  - by rewrite Hbw.
  - pose proof (v_buckets _ Hi) as Hb. by destruct c.
  - unfold heap_of. by rewrite Hbw.
  - apply (v_retries _ Hi).
  - by apply places_same.
  - intros q'. rewrite Hcol. apply (v_order _ Hi).
  - rewrite Hcol. apply (v_tx _ Hi).
Qed.

(** An arrival is one new event at an address not in use, admitted where the inbound queue has room. *)
Lemma offer_new src addr f p : exists ok p' l e,
  Pipeline.offer src addr f p = (ok, p') /\ Pipeline.heap_of p !! l = None /\
  Dispatcher.world (Pipeline.disp p') = EventBus.with_heap (<[l := e]> (Pipeline.heap_of p)) (Dispatcher.world (Pipeline.disp p)) /\
  Dispatcher.inbound_queue_ (Pipeline.disp p') =
    Dispatcher.inbound_queue_ (Pipeline.disp p) ++ (if ok then [Some l] else []).
Proof.
  unfold Pipeline.offer, Dispatcher.tryPush, Mpsc.push. cbn [EventFactory.createEvent].
  set (l := fresh (dom (Pipeline.heap_of p))). set (e := new_event _ _ _ _).
  assert (Hl : Pipeline.heap_of p !! l = None) by (apply not_elem_of_dom, is_fresh). clearbody l.
  cbn [Dispatcher.with_world Dispatcher.inbound_queue_]. destruct (_ <? _); eexists _, _, l, e; split_and!; try done.
  cbn. by rewrite app_nil_r.
Qed.

Lemma arrive_inv src addr f now s : inv s -> exists s', exec (Arrive src addr f now) s = Ret s' /\ inv s'.
Proof.
  intros Hi. cbn [exec]. set (p0 := Pipeline.mkPWorld (dispatcher_of s) (next_id s) now).
  destruct (offer_new src addr f p0) as (ok & p' & l & e & Hp & Hl & Hw & Hq). rewrite Hp. eexists. split; [done|].
  set (s' := mkState _ _ _ _ _ _ _ _ _). change (Pipeline.heap_of p0) with (heap_of s) in Hl, Hw.
  change (Dispatcher.world (Pipeline.disp p0)) with (bw (world s)) in Hw.
  change (Dispatcher.inbound_queue_ (Pipeline.disp p0)) with (inbound s) in Hq.
  destruct Hi as [(a & Hs & Hd) Hbk Hlive Hnd Hre Hpl Hor Htx].
  assert (Hmono : forall x, live (heap_of s) x -> live (heap_of s') x).
  { intros x (k & ek & -> & Hk). exists k, ek. split; [done|]. unfold heap_of, s'. cbn. rewrite Hw. cbn.
    rewrite lookup_insert_ne; [done|]. intros <-. congruence. }
  assert (Hcol : forall q', column s' q' = column s q').
  { intros q'. apply column_same; try done. cbn. rewrite Hw. by apply waiting_bus. }
  assert (Hadm : admitted s' = admitted s ++ (if ok then [Some l] else [])).
  { cbn. by rewrite Hq, drop_app_length. }
  split; try done.
  - exists a. split; [|done]. cbn. rewrite Hw. apply Dispatcher.sim_heap; [done|]. intros x Hx.
    specialize (Hmono x Hx). unfold heap_of, s' in Hmono. cbn in Hmono. by rewrite Hw in Hmono.
  - rewrite Hadm. apply Forall_app. split; [by eapply Forall_impl|]. destruct ok; [|constructor]. constructor; [|constructor].
    exists l, e. split; [done|]. unfold heap_of, s'. cbn. rewrite Hw. apply lookup_insert_eq.
  - rewrite Hadm. apply NoDup_app. split; [done|]. split; [|destruct ok; [apply NoDup_singleton|constructor]].
    intros x Hx Hin. destruct ok; [|by apply not_elem_of_nil in Hin]. apply list_elem_of_singleton in Hin as ->.
    rewrite Forall_forall in Hlive. destruct (Hlive _ Hx) as (k & ek & [= <-] & Hk). unfold heap_of in *. congruence.
  - rewrite Hadm, Hpl. unfold places. rewrite !Hcol. cbn [inbound s' dead]. rewrite Hq. unfold carried. cbn [held s'].
    generalize (inbound s) (dead s) (column s) (if ok then [Some l] else []). intros i d c x.
    destruct (held s) as [[[? ?] ?]|]; solve_Permutation.
  - intros q'. rewrite Hcol. apply Hor.
  - by rewrite Hcol.
Qed.

(** The registered handlers are defined on what they let pass. *)
Context (reg_tame : Safety.tame reg).
Context (handle_at_defined : forall hd k e, Handlers.handle hd e <> UB -> handle_at hd k e <> UB).

Lemma process_within q a h i e : upholds (Safety.within reg a h (q = EventBus.BATCHQ)) (process_of q i e).
Proof using reg_tame handle_at_defined.
  destruct q; [by apply Safety.realtime_within|by apply Safety.transactional_within|by apply Safety.batch_within].
Qed.

(** A processor's work on the world; what it throws away of the batch queue is dead. *)
Definition set_world (w : PWorld S) (s : State) : State :=
  mkState w (inbound s) (next_id s) (held s) (hand s) (admitted s) (entered s) (given s)
    (dead s ++ lost 0 (waiting EventBus.BATCHQ (bw (world s))) (waiting EventBus.BATCHQ (bw w))).

(** The event in a loop's hand was given to the processor. *)
Definition release (q : EventBus.QueueId) (p : EventPtr) (s : State) : State :=
  mkState (world s) (inbound s) (next_id s) (held s) (<[q := None]> (hand s)) (admitted s) (entered s)
    (<[q := given s q ++ [p]]> (given s)) (dead s).

(** A world that is within the frame of the processors. *)
Lemma set_world_inv D w' a s : inv s -> EventBus.sim (bw (world s)) a -> zlen (dead s) <= EventBus.a_dropped a ->
  Safety.within reg a (heap_of s) D w' -> inv (set_world w' s) /\
  exists gone, waiting EventBus.BATCHQ (bw (world s)) = gone ++ waiting EventBus.BATCHQ (bw w') /\
    dead (set_world w' s) = dead s ++ gone.
Proof.
  intros Hi Hs Hd (Hbk & Hheap & gone & bt & n & Hbt & _ & Hn & Hs'). set (s' := set_world w' s).
  assert (Hlost : dead s' = dead s ++ gone).
  { cbn [dead s' set_world]. rewrite (waiting_sim _ _ _ Hs), (waiting_sim _ _ _ Hs'). cbn [view EventBus.a_bt]. rewrite Hbt.
    rewrite <- (app_nil_r bt) at 2. by rewrite lost_spec. }
  assert (Hcol : forall q', q' <> EventBus.BATCHQ -> column s' q' = column s q').
  { intros q' Hq. unfold column. do 2 f_equal. cbn. rewrite (waiting_sim _ _ _ Hs), (waiting_sim _ _ _ Hs'). by destruct q'. }
  set (G := given s EventBus.BATCHQ ++ handed s EventBus.BATCHQ).
  assert (Hcb : column s EventBus.BATCHQ = G ++ gone ++ bt).
  { unfold column. by rewrite (app_assoc (given _ _)), (waiting_sim _ _ _ Hs), <- Hbt. }
  assert (Hcb' : column s' EventBus.BATCHQ = G ++ bt).
  { unfold column. by rewrite (app_assoc (given _ _)), (waiting_sim _ _ _ Hs'). }
  split; [|exists gone; rewrite (waiting_sim _ _ _ Hs), (waiting_sim _ _ _ Hs'); done].
  eapply (inv_moved s s' _ Hi Hs'); try done.
  - rewrite Hlost, zlen_app. cbn. lia.
  - unfold heap_of, s'. cbn. by rewrite Hheap.
  - apply (v_retries _ Hi).
  - rewrite !(places_column EventBus.BATCHQ), (others_ext _ _ _ Hcol), Hcb, Hcb', Hlost. cbn [inbound s' set_world]. unfold carried. cbn [held s' set_world].
    generalize (inbound s) (dead s) (others_of EventBus.BATCHQ (column s)) G. intros x1 x2 x3 x4.
    destruct (held s) as [[[? ?] ?]|]; solve_Permutation.
  - intros q'. destruct (decide (q' = EventBus.BATCHQ)) as [->|Hne].
    + etransitivity; [|apply (v_order _ Hi)]. rewrite Hcb, Hcb'. apply sublist_app; [done|]. by apply sublist_inserts_l.
    + rewrite Hcol by done. apply (v_order _ Hi).
  - rewrite Hcol by done. apply (v_tx _ Hi).
Qed.

Lemma release_inv q p s : inv s -> hand s q = Some p -> inv (release q p s).
Proof.
  intros Hi Hh. destruct (v_bus _ Hi) as (a & Hs & Hd).
  assert (Hcol : forall q', column (release q p s) q' = column s q').
  { intros q'. unfold column. rewrite !(app_assoc (given _ _)). f_equal. unfold handed. cbn. destruct (decide (q' = q)) as [->|Hne].
    - by rewrite !fn_lookup_insert, Hh, app_nil_r.
    - by rewrite !fn_lookup_insert_ne. }
  eapply (inv_moved s _ a); try done.
  - apply (v_buckets _ Hi).
  - apply (v_retries _ Hi).
  - by apply places_same.
  - intros q'. rewrite Hcol. apply (v_order _ Hi).
  - rewrite Hcol. apply (v_tx _ Hi).
Qed.

(** The frame a processor starts from. *)
Lemma within_here D a s : inv s -> EventBus.sim (bw (world s)) a -> Safety.within reg a (heap_of s) D (world s).
Proof.
  intros Hi Hs. split; [apply (v_buckets _ Hi)|]. split; [done|]. exists [], (EventBus.a_bt a), (EventBus.a_dropped a).
  rewrite zlen_nil. split_and!; try done; [lia|]. by destruct a.
Qed.

Lemma work_inv q i s : inv s -> exists s', exec (Work q i) s = Ret s' /\ inv s'.
Proof using reg_tame handle_at_defined.
  intros Hi. cbn [exec]. destruct (hand s q) as [p|] eqn:Hh; [|by exists s]. destruct (v_bus _ Hi) as (a & Hs & Hd).
  destruct (place_live s p Hi (hand_place _ _ _ Hh)) as (l & e & -> & He). cbn [deref]. unfold heap_of in He. rewrite He.
  cbn [mbind outcome_bind].
  destruct (process_within q a (heap_of s) i e (world s) (within_here _ a s Hi Hs)) as [Hub Hw].
  destruct (process_of q i e (world s)) as [o w']. cbn [fst snd] in *.
  exists (release q (Some l) (set_world w' s)). split; [by destruct o|].
  apply release_inv; [|done]. by eapply set_world_inv.
Qed.

Lemma exec_inv c s : inv s -> exists s', exec c s = Ret s' /\ inv s'.
Proof using reg_tame handle_at_defined.
  destruct c; [apply arrive_inv|apply route_inv|apply attempt_inv|apply give_up_inv|apply take_inv|apply work_inv|apply switch_inv].
Qed.

Lemma run_inv cs s : inv s -> exists s', run cs s = Ret s' /\ inv s'.
Proof using reg_tame handle_at_defined.
  revert s; induction cs as [|c cs IH]; intros s Hi; [by exists s|].
  destruct (exec_inv c s Hi) as (s1 & H1 & Hi1). rewrite (schedule_cons _ _ _ _ H1). by apply IH.
Qed.

(** ** From rest *)

(** An engine at rest: nothing queued, nothing in a bucket. *)
Definition start (w : PWorld S) (id : Z) : State :=
  mkState w [] id None (fun _ => None) [] (fun _ => []) (fun _ => []) [].

Definition at_rest (w : PWorld S) : Prop :=
  (exists n, 0 <= n /\ EventBus.sim (bw w) (EventBus.mkAbs [] [] [] n)) /\ buckets_ (batch w) = ∅.

Lemma start_inv w id : at_rest w -> inv (start w id).
Proof.
  intros [(n & Hn & Hs) Hb].
  assert (Hcol : forall q, column (start w id) q = []).
  { intros q. unfold column. cbn. rewrite (waiting_sim _ _ _ Hs). by destruct q. }
  split; try done.
  - by exists (EventBus.mkAbs [] [] [] n).
  - intros t b. cbn. by rewrite Hb, lookup_empty.
  - constructor.
  - unfold places. by rewrite !Hcol.
  - intros q. by rewrite Hcol.
Qed.

(** in every schedule of the servers, the dispatcher, the three processor loops and the manager's switches, from
    an engine at rest and with handlers that are defined on what they let pass, no thread meets undefined
    behaviour, and after each action every event that was admitted is in exactly one place: waiting for
    the dispatcher, in its hand, in one queue, in a loop's hand, given to one processor, or given up - and those
    given up are no more than the dead-letter queue has counted.  The events of a queue are given to its processor in the
    order they entered it; the transactional queue loses none. *)
Theorem engine_conserves_events w id cs :
  at_rest w -> exists s, run cs (start w id) = Ret s /\
    NoDup (admitted s) /\
    admitted s ≡ₚ inbound s ++ carried s ++ column s EventBus.REALTIME ++ column s EventBus.TRANSACTIONAL ++
                  column s EventBus.BATCHQ ++ dead s /\
    (exists n, zlen (dead s) <= n /\
       DeadLetterQueue.total_dropped_ (EventBus.dlq_ (EventBus.bus (bw (world s)))) = wrap 64 n) /\
    (forall q, sublist (given s q ++ handed s q ++ waiting q (bw (world s))) (entered s q)) /\
    given s EventBus.TRANSACTIONAL ++ handed s EventBus.TRANSACTIONAL ++
      waiting EventBus.TRANSACTIONAL (bw (world s)) = entered s EventBus.TRANSACTIONAL.
Proof using reg_tame handle_at_defined.
  intros Hw. destruct (run_inv cs _ (start_inv w id Hw)) as (s & Hs & Hi). exists s. split; [done|].
  destruct Hi as [(a & Hsim & Hd) _ _ Hnd _ Hpl Hor Htx]. split; [done|]. split; [done|].
  split; [|done]. exists (EventBus.a_dropped a). split; [done|]. apply Hsim.
Qed.

(** ** Left to itself *)

(** An action whose thread is at that point and has something to do. *)
Definition ready (c : Action) (s : State) : Prop :=
  match c with
  | Route => held s = None /\ inbound s <> []
  | Attempt _ _ => exists p q n, held s = Some (p, q, n) /\ (n < Dispatcher.MAX_RETRIES)%nat
  | GiveUp => exists p q n, held s = Some (p, q, n) /\ (Dispatcher.MAX_RETRIES <= n)%nat
  | Take q _ => hand s q = None /\ waiting q (bw (world s)) <> []
  | Work q _ => hand s q <> None
  | Arrive _ _ _ _ | Switch _ => False
  end.

Definition progress (s s' : State) : Prop := exists c, ready c s /\ exec c s = Ret s'.

(** Nothing on the way. *)
Definition settled (s : State) : Prop :=
  inbound s = [] /\ held s = None /\ forall q, hand s q = None /\ waiting q (bw (world s)) = [].

Definition total (f : EventBus.QueueId -> nat) : nat :=
  (f EventBus.REALTIME + f EventBus.TRANSACTIONAL + f EventBus.BATCHQ)%nat.

Definition held_cost (s : State) : nat := match held s with Some (_, _, n) => 6 - n | None => 0 end.

(** How many actions are left at most. *)
Definition work_left (s : State) : nat :=
  (7 * length (inbound s) + held_cost s + 2 * total (fun q => length (waiting q (bw (world s)))) +
   total (fun q => length (handed s q)))%nat.

(** The lengths of the places add up to the number of events. *)
Lemma places_length s : inv s ->
  (length (inbound s) + length (carried s) + total (fun q => length (given s q)) + total (fun q => length (handed s q)) +
   total (fun q => length (waiting q (bw (world s)))) + length (dead s) = length (admitted s))%nat.
Proof.
  intros Hi. rewrite (v_places _ Hi). unfold places, column, total. rewrite !length_app. lia.
Qed.

Lemma total_insert {A} (f : EventBus.QueueId -> A) (g : A -> nat) q x :
  (total (fun q' => g (<[q := x]> f q')) + g (f q) = total (fun q' => g (f q')) + g x)%nat.
Proof.
  unfold total.
  destruct q; rewrite ?fn_lookup_insert; repeat (rewrite fn_lookup_insert_ne by done); lia.
Qed.

Lemma exec_progress c s s' : inv s -> inv s' -> ready c s -> exec c s = Ret s' ->
  (work_left s' < work_left s)%nat /\ admitted s' = admitted s.
Proof.
  intros Hi Hi' Hr He. pose proof (places_length s Hi) as HL. pose proof (places_length s' Hi') as HL'.
  set (W := total (fun q => length (waiting q (bw (world s))))) in *.
  set (W' := total (fun q => length (waiting q (bw (world s'))))) in *.
  unfold work_left. fold W W'. destruct c as [| |ns ms| |q ns|q i|]; cbn [ready] in Hr; try done.
  - destruct Hr as [Hh Hin]. cbn [exec] in He. rewrite Hh in He. unfold Dispatcher.tryPop, dispatcher_of, Mpsc.pop in He.
    cbn [Dispatcher.inbound_queue_] in He. destruct (inbound s) as [|p rest] eqn:Hq; [done|].
    assert (Hp : live (heap_of s) p) by (apply (place_live _ _ Hi), inbound_place; rewrite Hq; left).
    destruct Hp as (l & e & -> & Hl). rewrite (Dispatcher.route_live table l e _ Hl) in He. injection He as <-.
    split; [|done]. unfold held_cost, carried in *. rewrite Hh in *. cbn in *. unfold handed in *. cbn in *. lia.
  - destruct Hr as (p & q & n & Hh & Hn). cbn [exec] in He. rewrite Hh, (proj2 (Nat.ltb_lt _ _) Hn) in He.
    apply outcome_bind_ret in He as ([ok b] & _ & [= <-]). unfold held_cost, carried in *. rewrite Hh in *.
    unfold Dispatcher.MAX_RETRIES in Hn. destruct ok; (split; [|done]); cbn in *; unfold handed in *; cbn in *; rewrite ?length_app in *; lia.
  - destruct Hr as (p & q & n & Hh & Hn). pose proof (v_retries _ Hi _ _ _ Hh) as Hn'. cbn [exec] in He.
    rewrite Hh, (proj2 (Nat.ltb_ge _ _) Hn) in He. apply outcome_bind_ret in He as (b & _ & [= <-]).
    unfold held_cost, carried in *. rewrite Hh in *. unfold Dispatcher.MAX_RETRIES in *. split; [|done].
    cbn in *. unfold handed in *. cbn in *. rewrite ?length_app in *. cbn in *. lia.
  - destruct Hr as [Hh Hw]. destruct (v_bus _ Hi) as (a & Hs & _). cbn [exec] in He. rewrite Hh in He.
    destruct (EventBus.pop_sim q ns _ a Hs) as (x & b & Hpop & Hx & _ & _). rewrite Hpop in He. injection He as <-.
    destruct (abs_pop_view q ns a) as (x' & a' & Habs & Hv & _ & _ & Hnone). rewrite Habs in Hx. injection Hx as <-.
    rewrite (waiting_sim _ _ _ Hs) in Hw.
    split; [|done]. unfold held_cost, carried, handed in *. cbn in *.
    pose proof (total_insert (hand s) (fun x => length (match x with Some p => [p] | None => [] end)) q x') as Ht. cbn beta in Ht.
    rewrite Hh in Ht. destruct x'; [|by destruct (Hw (Hnone eq_refl))]. cbn in Ht. lia.
  - cbn [exec] in He. destruct (hand s q) as [p|] eqn:Hh; [|done]. apply outcome_bind_ret in He as (e & _ & He).
    destruct (process_of q i e (world s)) as [o w']. assert (Hs' : exists d, s' = mkState w' (inbound s) (next_id s) (held s)
      (<[q := None]> (hand s)) (admitted s) (entered s) (<[q := given s q ++ [p]]> (given s)) (dead s ++ d)).
    { destruct o; [..|done]; injection He as <-; by eexists. }
    destruct Hs' as [d ->]. split; [|done]. unfold held_cost, carried, handed in *. cbn in *.
    pose proof (total_insert (hand s) (fun x => length (match x with Some p => [p] | None => [] end)) q None) as Ht.
    pose proof (total_insert (given s) length q (given s q ++ [p])) as Hg. cbn beta in Ht.
    rewrite Hh in Ht. rewrite ?length_app in *. cbn in *. lia.
Qed.

(** An engine that is not settled can go on. *)
Lemma settled_or_progress s : inv s -> settled s \/ exists s', progress s s'.
Proof using reg_tame handle_at_defined.
  intros Hi. enough (settled s \/ exists c, ready c s) as [Hset|[c Hc]]; [by left| |].
  { destruct (exec_inv c s Hi) as (s' & Hs' & _). right. by exists s', c. }
  destruct (held s) as [[[p q] n]|] eqn:Hh.
  - right. destruct (le_lt_dec Dispatcher.MAX_RETRIES n); [exists GiveUp|exists (Attempt 0 0)]; by exists p, q, n.
  - destruct (inbound s) as [|p rest] eqn:Hq; [|right; exists Route; split; [done|by rewrite Hq]].
    assert (Hq3 : forall q, (hand s q = None /\ waiting q (bw (world s)) = []) \/ exists c, ready c s).
    { intros q. destruct (hand s q) as [p|] eqn:Hp.
      - right. exists (Work q (mkInputs 0 0 0 0 0 0 0 0 (fun _ => true))). cbn. by rewrite Hp.
      - destruct (waiting q (bw (world s))) as [|p l] eqn:Hw; [by left|]. right. exists (Take q 0). cbn. by rewrite Hp, Hw. }
    destruct (Hq3 EventBus.REALTIME) as [H1|]; [|by right]. destruct (Hq3 EventBus.TRANSACTIONAL) as [H2|]; [|by right].
    destruct (Hq3 EventBus.BATCHQ) as [H3|]; [|by right]. left. split; [done|]. split; [done|]. by intros [].
Qed.

Lemma progress_inv s s' : inv s -> progress s s' -> inv s'.
Proof using reg_tame handle_at_defined.
  intros Hi (c & _ & Hc). destruct (exec_inv c s Hi) as (s1 & H1 & Hi1). congruence.
Qed.

Lemma progress_step s s' : inv s -> progress s s' ->
  inv s' /\ admitted s' = admitted s /\ (work_left s' < work_left s)%nat.
Proof using reg_tame handle_at_defined.
  intros Hi Hp. pose proof (progress_inv s s' Hi Hp) as Hi'. destruct Hp as (c & Hr & Hc).
  by destruct (exec_progress c s s' Hi Hi' Hr Hc).
Qed.

(** C5: whatever state a schedule has brought the engine to, left to itself - no frame arrives, the threads act in any
    order - it comes to rest: there are at most [work_left] actions to be done, and where none is left nothing is
    queued or held, so that every event ever admitted was given to exactly one processor or given up. *)
Theorem engine_comes_to_rest w id cs s :
  at_rest w -> run cs (start w id) = Ret s ->
  (forall k s', nsteps progress k s s' -> (k <= work_left s)%nat) /\
  (forall s', rtc progress s s' -> (forall s'', ~ progress s' s'') ->
     settled s' /\ admitted s' = admitted s /\ NoDup (admitted s) /\
     admitted s ≡ₚ given s' EventBus.REALTIME ++ given s' EventBus.TRANSACTIONAL ++ given s' EventBus.BATCHQ ++ dead s').
Proof using reg_tame handle_at_defined.
  intros Hw Hr. destruct (run_inv cs _ (start_inv w id Hw)) as (s0 & Hs0 & Hi).
  assert (s0 = s) as -> by congruence. clear Hs0 Hr. split.
  - intros k s' Hk. cut (k + work_left s' <= work_left s)%nat; [lia|]. revert Hi.
    induction Hk as [s|k s s1 s2 Hst Hk IH]; intros Hi; [lia|].
    destruct (progress_step s s1 Hi Hst) as (Hi1 & _ & Hlt). specialize (IH Hi1). lia.
  - intros s' Hrtc Hstuck.
    destruct (rtc_invariant progress (fun s1 => inv s1 /\ admitted s1 = admitted s)
      ltac:(intros s1 s2 [H1 H2] H12; destruct (progress_step s1 s2 H1 H12) as (H3 & H4 & _); split; [done|congruence])
      s s' Hrtc (conj Hi eq_refl)) as [Hi' Ha].
    destruct (settled_or_progress s' Hi') as [Hset|[s2 H2]]; [|by destruct (Hstuck s2)].
    split; [done|]. split; [done|]. split; [apply (v_nodup _ Hi)|].
    rewrite <- Ha, (v_places _ Hi'). destruct Hset as (Hin & Hh & Hq). unfold places, column, carried, handed.
    rewrite Hin, Hh. destruct (Hq EventBus.REALTIME) as [-> ->], (Hq EventBus.TRANSACTIONAL) as [-> ->], (Hq EventBus.BATCHQ) as [-> ->].
    cbn [app]. by rewrite !app_nil_r.
Qed.

End Engine.
End Engine.

(** ** A concrete schedule *)

Module EngineRun.
Import Engine.
Import DeliveryRun.

Definition default_handlers : Handlers.registry := Handlers.registerDefaultHandlers [].
Definition as_written (hd : Handlers.EventHandler) (k : Z) (e : Event) : outcome Handlers.HandleResult := Handlers.handle hd e.

Abbreviation run_engine := (run default_handlers as_written (fun st : Output.Stream (S := unit) => st) (Dispatcher.topic_table_ dispatcher)).

Definition frame (p : EventPriority) (t : string) : FrameParser.ParsedFrame :=
  FrameParser.mkParsedFrame p t [Byte.x05; Byte.x00; Byte.x00; Byte.x00].

(** Two frames arrive; the dispatcher tries to queue the first while a third arrives; the realtime loop takes it while
    the second is being queued. *)
Definition interleaved : list Action :=
  [Arrive TCP "a" (frame CRITICAL "x") 1; Arrive UDP "b" (frame MEDIUM "payment") 2; Route; Arrive TCP "a" (frame BATCH "y") 3;
   Attempt 4 0; Route; Take EventBus.REALTIME 5; Attempt 6 0; Switch DropBatchEvents; Work EventBus.REALTIME (calm 7000000);
   Take EventBus.TRANSACTIONAL 8].

(** The number of events in each place. *)
Definition census (o : outcome (State (S := unit))) : option (nat * nat * list nat * list nat * list nat * nat) :=
  let of_queues (f : EventBus.QueueId -> list EventPtr) :=
    map (fun q => length (f q)) [EventBus.REALTIME; EventBus.TRANSACTIONAL; EventBus.BATCHQ] in
  match o with
  | Ret s => Some (length (admitted s), length (inbound s), of_queues (fun q => waiting q (bw (world s))),
                   of_queues (handed s), of_queues (given s), length (dead s))
  | _ => None
  end.

Lemma engine0_at_rest : at_rest engine0.
Proof. split; [|reflexivity]. exists 0. split; [lia|]. apply EventBus.initial_sim. Qed.

End EngineRun.

Lemma engine_conserves_events_witness :
  EngineRun.census (EngineRun.run_engine EngineRun.interleaved (Engine.start DeliveryRun.engine0 0)) =
    Some (3, 1, [0; 0; 0], [0; 1; 0], [1; 0; 0], 0)%nat /\
  exists s, EngineRun.run_engine EngineRun.interleaved (Engine.start DeliveryRun.engine0 0) = Ret s /\ NoDup (Engine.admitted s).
Proof.
  split; [vm_compute; reflexivity|].
  destruct (Engine.engine_conserves_events EngineRun.default_handlers EngineRun.as_written (fun st => st)
    (Dispatcher.topic_table_ DeliveryRun.dispatcher) Safety.defaults_tame (fun hd k e H => H) DeliveryRun.engine0 0
    EngineRun.interleaved EngineRun.engine0_at_rest) as (s & Hs & Hnd & _).
  exists s. split; [exact Hs|exact Hnd].
Defined.

(** The state the schedule above leaves: one frame is at the dispatcher, one in the hand of the transactional loop. *)
Lemma engine_comes_to_rest_witness :
  exists s, EngineRun.run_engine EngineRun.interleaved (Engine.start DeliveryRun.engine0 0) = Ret s /\ Engine.work_left s = 8%nat /\
    forall k s', nsteps (Engine.progress EngineRun.default_handlers EngineRun.as_written (fun st => st)
      (Dispatcher.topic_table_ DeliveryRun.dispatcher)) k s s' -> (k <= 8)%nat.
Proof.
  assert (Hw : match EngineRun.run_engine EngineRun.interleaved (Engine.start DeliveryRun.engine0 0) with
               | Ret s => Engine.work_left s = 8%nat | _ => False end) by (vm_compute; reflexivity).
  destruct (EngineRun.run_engine EngineRun.interleaved (Engine.start DeliveryRun.engine0 0)) as [s| |] eqn:E;
    [|destruct Hw..].
  exists s. split; [reflexivity|]. split; [exact Hw|]. rewrite <- Hw.
  destruct (Engine.engine_comes_to_rest EngineRun.default_handlers EngineRun.as_written (fun st => st)
    (Dispatcher.topic_table_ DeliveryRun.dispatcher) Safety.defaults_tame (fun hd k e H => H) DeliveryRun.engine0 0
    EngineRun.interleaved s EngineRun.engine0_at_rest E) as [Hk _].
  exact Hk.
Defined.
