(* ===== verification/Access.v ===== *)
(** * The calls of the processors, access by access

    [Processor.v], [Transactional.v] and [Batch.v] have a call of [process] as one function of
    the engine's state.  Between two accesses of a call to what the threads share - a counter,
    the dead-letter queue under its mutex, the log under its mutex, the list of observers, a flag -
    the other threads go on.  Module [Access] has the same calls as programs: trees of
    accesses and reads, in the order of [src/core/processor/realtime.cpp], [transactional.cpp]
    and [batch.cpp].  A program that runs alone is the function ([realtime_alone],
    [transactional_alone], [batch_alone]); [Interleaving.v] runs them side by side. *)

From S2P Require Import Prelude Event Dlq Metrics EventBus Storage Handlers Output Dedup Processor.
From S2P Require Import Transactional Batch Safety.
From stdpp Require Import pretty.
#[local] Open Scope Z_scope.

Module Access.
Section Access.
Context {S : Type} (reg : Handlers.registry)
  (handle_at : Handlers.EventHandler -> Z -> Event -> outcome Handlers.HandleResult)
  (others : Output.Stream (S := S) -> Output.Stream (S := S)).
Implicit Types w : PWorld S.

(** ** Accesses *)

Inductive access :=
| Find (name : string)                                   (* getMetrics *)
| CountProcessed (name : string)
| CountDropped (name : string)
| Bury (e : Event)                                       (* if (dlq_) dlq_->push *)
| Store (ok : bool) (e : Event)                          (* if (storage_) storage_->storeEvent *)
| Flush                                                  (* if (storage_) storage_->flush *)
| Touch (name : string) (i : Inputs)                     (* updateEventTimestamp *)
| TellProcessed (name : string) (e : Event)
| TellDropped (name reason : string) (e : Event)
| Alarm (level : Handlers.AlertLevel) (message : string) (i : Inputs) (e : Event)
| Cleanup (i : Inputs)                                   (* the periodic cleanup of the deduplicator *)
| Remember (i : Inputs) (e : Event)                      (* dedup_table_.insert *)
| Sample (i : Inputs) (e : Event)                        (* latency_hist_.record *)
| DropQueue                                              (* if (event_bus_) dropBatchFromQueue *)
| Put (e : Event)                                        (* bucket.events.push_back *)
| Stamp (topic : string) (now : Z)                       (* bucket.last_flush_time = now *)
| Clear (topic : string).                                (* bucket.events.clear() *)

Definition perform (x : access) : M S unit :=
  match x with
  | Find name => update (set_metrics name (fun m => m))
  | CountProcessed name => count_processed name
  | CountDropped name => count_dropped name
  | Bury e => push_dlq e
  | Store ok e => store ok e
  | Flush => flush_storage
  | Touch name i => touch name i
  | TellProcessed name e => notify_processed others name e
  | TellDropped name reason e => notify_dropped others name reason e
  | Alarm level message i e => Realtime.emitAlert level message i e
  | Cleanup i => Transactional.cleanup_if_due i
  | Remember i e => update (fun w =>
      with_txn (Transactional.set_dedup (Dedup.insert (id (header e)) (wall_ms i) (dedup_table_ (txn w))).2
                  (last_cleanup_ms_ (txn w)) (txn w)) w)
  | Sample i e => update (fun w =>
      if 0 <? dequeue_time_ns e
      then with_txn (Transactional.record_latency (sub64 (latency_now_ns i) (dequeue_time_ns e)) (txn w)) w else w)
  | DropQueue => Batch.drop_queue
  | Put e => update (fun w =>
      let b := Batch.bucket_of (topic e) w in
      Batch.set_bucket (topic e) (mkTopicBucket (events b ++ [e]) (last_flush_time b)) w)
  | Stamp t now => update (fun w => Batch.set_bucket t (mkTopicBucket (events (Batch.bucket_of t w)) now) w)
  | Clear t => update (fun w => Batch.set_bucket t (mkTopicBucket [] (last_flush_time (Batch.bucket_of t w))) w)
  end.

(** ** Programs *)

Inductive program :=
| Halt
| Raise (what : string)                                  (* an exception leaves the call *)
| Undefined
| Do (x : access) (k : program)
| Look (k : PWorld S -> program).                        (* a read of a member *)

(** Foreign code is run on the thread's own data. *)
Definition after {A} (o : outcome A) (k : A -> program) : program :=
  match o with Ret a => k a | Throw what => Raise what | UB => Undefined end.

Fixpoint alone (p : program) : M S unit :=
  match p with
  | Halt => mret tt
  | Raise what => lift (Throw what)
  | Undefined => lift UB
  | Do x k => perform x;; alone k
  | Look k => fun w => alone (k w) w
  end.

Definition abandon (name reason : string) (e : Event) : program :=
  Do (CountDropped name) (Do (Bury e) (Do (TellDropped name reason e) Halt)).

(** ** [RealtimeProcessor::process] *)

Definition realtime_finish (i : Inputs) (e : Event) : program :=
  let n := Realtime.name in
  Look (fun w =>
    if max_processing_ms_ (rt w) <? Realtime.elapsed_ms i then
      Do (CountDropped n)
        (Do (Alarm Handlers.WARNING ("SLA breach: " +:+ pretty (Realtime.elapsed_ms i) +:+ "ms > " +:+
                                     pretty (max_processing_ms_ (rt w)) +:+ "ms") i e)
          (Do (Bury e) (Do (TellDropped n "sla_breach" e) Halt)))
    else Do (Touch n i) (Do (Store (accepted i 0) e) (Do (TellProcessed n e) Halt))).

Definition realtime_process (i : Inputs) (e : Event) : program :=
  let n := Realtime.name in
  let handler := Handlers.getOrDefault (topic e) reg in
  Do (Find n)
    (after (Handlers.validate handler e) (fun v =>
      if negb (Handlers.valid v) then abandon n (Handlers.error v) e else
      after (Handlers.checkRules handler e) (fun r =>
        if negb (Handlers.valid r) then abandon n (Handlers.error r) e else
        after (Handlers.handle handler e) (fun result =>
          match Handlers.r_outcome result with
          | Handlers.ALERT =>
              Do (Alarm (Handlers.r_alert_level result) (Handlers.r_message result) i e)
                (Do (CountProcessed n) (realtime_finish i e))
          | Handlers.FAIL | Handlers.DROP => abandon n (Handlers.r_message result) e
          | Handlers.SUCCESS => Do (CountProcessed n) (realtime_finish i e)
          end)))).

(** ** [TransactionalProcessor::process] *)

Definition commit (i : Inputs) (e : Event) : program :=
  let n := Transactional.name in
  Do (Remember i e) (Do (CountProcessed n) (Do (Store (accepted i 0) e)
    (Do (Sample i e) (Do (Touch n i) (Do (TellProcessed n e) Halt))))).

Definition transactional_process (i : Inputs) (e : Event) : program :=
  let n := Transactional.name in
  let handler := Handlers.getOrDefault (topic e) reg in
  Do (Find n) (Look (fun w =>
    if paused_ (txn w) then abandon n "processor_paused" e else
    Look (fun w =>
      if Dedup.is_duplicate (id (header e)) (wall_ms i) (dedup_table_ (txn w)) then Halt else
      Do (Cleanup i)
        (after (Handlers.validate handler e) (fun v =>
          if negb (Handlers.valid v) then abandon n (Handlers.error v) e else
          after (Handlers.checkRules handler e) (fun r =>
            if negb (Handlers.valid r) then abandon n (Handlers.error r) e else
            Look (fun w =>
              after (Transactional.retry handle_at handler e (Z.to_nat (max_retries_ (txn w))) 1) (fun success =>
                if (success : bool) then commit i e else abandon n "max_retries_exceeded" e)))))))).

(** ** [BatchProcessor::process] *)

Fixpoint flush_loop (i : Inputs) (handler : Handlers.EventHandler) (evts : list Event) (n : nat) (k : program) : program :=
  match evts with
  | [] => k
  | evt :: evts' =>
      after (Handlers.handle handler evt) (fun result =>
        if bool_decide (Handlers.r_outcome result = Handlers.FAIL)
           || bool_decide (Handlers.r_outcome result = Handlers.DROP)
        then Do (Bury evt) (Do (TellDropped Batch.name (Handlers.r_message result) evt) (flush_loop i handler evts' n k))
        else Do (Store (accepted i n) evt) (Do (TellProcessed Batch.name evt)
               (flush_loop i handler evts' (Datatypes.S n) k)))
  end.

Definition flushBucketLocked (i : Inputs) (t : string) (k : program) : program :=
  Look (fun w =>
    match events (Batch.bucket_of t w) with
    | [] => k
    | evts => flush_loop i (Handlers.getOrDefault t reg) evts 0 (Do Flush (Do (Clear t) k))
    end).

Definition bucket_event (i : Inputs) (e : Event) : program :=
  let now := steady_ns i in
  let done := Do (Touch Batch.name i) Halt in
  Do (Put e) (Do (CountProcessed Batch.name) (Look (fun w =>
    if last_flush_time (Batch.bucket_of (topic e) w) =? 0 then Do (Stamp (topic e) now) done
    else if window_ (batch w) <=? now - last_flush_time (Batch.bucket_of (topic e) w)
    then flushBucketLocked i (topic e) (Do (Stamp (topic e) now) done)
    else done))).

Definition batch_process (i : Inputs) (e : Event) : program :=
  let n := Batch.name in
  let handler := Handlers.getOrDefault (topic e) reg in
  Do (Find n) (Look (fun w =>
    if drop_events_ (batch w) then
      Do (CountDropped n) (Do (Bury e) (Do DropQueue (Do (TellDropped n "backpressure_drop" e) Halt)))
    else
    after (Handlers.validate handler e) (fun v =>
      if negb (Handlers.valid v) then abandon n (Handlers.error v) e else
      after (Handlers.checkRules handler e) (fun r =>
        if negb (Handlers.valid r) then abandon n (Handlers.error r) e else
        bucket_event i e)))).

Definition program_of (q : EventBus.QueueId) : Inputs -> Event -> program :=
  match q with
  | EventBus.REALTIME => realtime_process
  | EventBus.TRANSACTIONAL => transactional_process
  | EventBus.BATCHQ => batch_process
  end.

(** ** [stop] *)

Fixpoint flush_each (i : string -> Inputs) (topics : list string) (k : program) : program :=
  match topics with [] => k | t :: ts => flushBucketLocked (i t) t (flush_each i ts k) end.

Definition stop_program (q : EventBus.QueueId) (i : string -> Inputs) (walk : gmap string TopicBucket -> list string) : program :=
  match q with
  | EventBus.REALTIME | EventBus.TRANSACTIONAL => Do Flush Halt
  | EventBus.BATCHQ => Look (fun w => flush_each i (walk (buckets_ (batch w))) (Do Flush Halt))
  end.

(** ** A program that runs alone is the call *)

Lemma bind_ext {A B} (m m' : M S A) (k k' : A -> M S B) w :
  m w = m' w -> (forall a w', k a w' = k' a w') -> (m ≫= k) w = (m' ≫= k') w.
Proof. intros Hm Hk. rewrite !bindE, Hm. by destruct (m' w) as [[]]. Qed.

Lemma alone_do x k (m : M S unit) w : (forall w, alone k w = m w) -> alone (Do x k) w = (perform x;; m) w.
Proof. intros Hk. cbn [alone]. by apply bind_ext. Qed.

Lemma alone_after {A} (o : outcome A) (k : A -> program) (m : A -> M S unit) w :
  (forall a, alone (k a) w = m a w) -> alone (after o k) w = (lift o ≫= m) w.
Proof. intros Hk. rewrite bindE. by destruct o; [apply Hk|..]. Qed.

Lemma alone_abandon name reason e w : alone (abandon name reason e) w = drop_event others name reason e w.
Proof. done. Qed.

Lemma realtime_finish_alone i e w : alone (realtime_finish i e) w = Realtime.finish others i e w.
Proof. unfold Realtime.finish. rewrite bindE. cbn [get alone realtime_finish]. by destruct (_ <? _). Qed.

Lemma realtime_alone i e w : alone (realtime_process i e) w = Realtime.process reg others i e w.
Proof.
  apply alone_do. intros w1. apply alone_after. intros v. destruct (negb (Handlers.valid v)); [done|].
  apply alone_after. intros r. destruct (negb (Handlers.valid r)); [done|]. apply alone_after. intros result.
  pose proof (realtime_finish_alone i e) as Hf.
  destruct (Handlers.r_outcome result); [..|done]; repeat (apply alone_do; intros ?); done.
Qed.

Lemma cleanup_retries i w : max_retries_ (txn (Transactional.cleanup_if_due i w).2) = max_retries_ (txn w).
Proof. cbn. by destruct (Transactional.cleanup_due _ _). Qed.

Lemma commit_alone i e w : alone (commit i e) w = Transactional.commit others i e w.
Proof. repeat (apply alone_do; intros ?). done. Qed.

Lemma transactional_alone i e w :
  alone (transactional_process i e) w = Transactional.process reg handle_at others i e w.
Proof.
  apply alone_do. clear w. intros w. rewrite bindE. cbn [get alone]. destruct (paused_ (txn w)); [done|].
  cbn [alone]. destruct (Dedup.is_duplicate _ _ _); [done|]. pose proof (cleanup_retries i w) as Hm. cbn [alone]. rewrite !bindE.
  cbn [perform]. unfold Transactional.cleanup_if_due, update in *. cbn [snd] in Hm. match type of Hm with max_retries_ (txn ?w2) = _ => generalize dependent w2 end. intros w1 Hm.
  apply alone_after. intros v. destruct (negb (Handlers.valid v)); [done|].
  apply alone_after. intros r. destruct (negb (Handlers.valid r)); [done|]. cbn [alone]. rewrite Hm.
  apply alone_after. intros [|]; [apply commit_alone|done].
Qed.

(** The programs of the batch processor go on with [k]. *)
Lemma flush_loop_alone i h evts n k (m : M S unit) w :
  (forall w, alone k w = m w) -> alone (flush_loop i h evts n k) w = (Batch.flush_loop others i h evts n;; m) w.
Proof.
  intros Hk. revert n w. induction evts as [|evt evts IH]; intros n w; [apply Hk|]. cbn [flush_loop Batch.flush_loop].
  rewrite bindE. transitivity ((lift (Handlers.handle h evt) ≫= (fun result =>
    (if bool_decide (Handlers.r_outcome result = Handlers.FAIL) || bool_decide (Handlers.r_outcome result = Handlers.DROP)
     then push_dlq evt;; notify_dropped others Batch.name (Handlers.r_message result) evt;; Batch.flush_loop others i h evts n
     else store (accepted i n) evt;; notify_processed others Batch.name evt;; Batch.flush_loop others i h evts (Datatypes.S n));; m)) w).
  - apply alone_after. intros result. destruct (_ || _).
    + etransitivity; [apply alone_do; intros; apply alone_do; intros; apply IH|].
      rewrite !bindE. cbn [perform push_dlq notify_dropped update]. rewrite !bindE. done.
    + etransitivity; [apply alone_do; intros; apply alone_do; intros; apply IH|].
      rewrite !bindE. cbn [perform notify_processed update]. destruct (store (accepted i n) evt w) as [[]]; [|done..].
      rewrite !bindE. done.
  - rewrite !bindE. cbn [lift]. by destruct (Handlers.handle h evt).
Qed.

Lemma flush_bucket_alone i t k (m : M S unit) w :
  (forall w, alone k w = m w) -> alone (flushBucketLocked i t k) w = (Batch.flushBucketLocked reg others i t;; m) w.
Proof.
  intros Hk. cbn [alone flushBucketLocked]. unfold Batch.flushBucketLocked. rewrite bindE, bindE. cbn [get].
  destruct (events (Batch.bucket_of t w)) as [|x evts]; [apply Hk|].
  etransitivity; [apply flush_loop_alone; intros; apply alone_do; intros; apply alone_do; exact Hk|].
  rewrite !bindE. destruct (Batch.flush_loop _ _ _ _ _ w) as [[]]; [|done..]. by rewrite !bindE.
Qed.

Lemma bucket_event_alone i e w : alone (bucket_event i e) w = Batch.bucket_event reg others i e w.
Proof.
  do 2 (apply alone_do; intros ?). rewrite bindE. cbn [get alone]. destruct (_ =? 0); [done|]. destruct (_ <=? _); [|done].
  by apply flush_bucket_alone.
Qed.

Lemma batch_alone i e w : alone (batch_process i e) w = Batch.process reg others i e w.
Proof.
  apply alone_do. clear w. intros w. rewrite bindE. cbn [get alone]. destruct (drop_events_ (batch w)); [done|].
  apply alone_after. intros v. destruct (negb (Handlers.valid v)); [done|].
  apply alone_after. intros r. destruct (negb (Handlers.valid r)); [done|]. apply bucket_event_alone.
Qed.

Lemma flush_each_alone i ts k (m : M S unit) w :
  (forall w, alone k w = m w) -> alone (flush_each i ts k) w = (Batch.flush_each reg others i ts;; m) w.
Proof.
  intros Hk. revert w. induction ts as [|t ts IH]; intros w; [apply Hk|]. cbn [flush_each Batch.flush_each].
  rewrite (flush_bucket_alone _ _ _ _ w IH), !bindE.
  destruct (Batch.flushBucketLocked reg others (i t) t w) as [[]]; [|done..]. by rewrite bindE.
Qed.

Lemma stop_alone i walk w :
  alone (stop_program EventBus.REALTIME i walk) w = Realtime.stop w /\
  alone (stop_program EventBus.TRANSACTIONAL i walk) w = Transactional.stop w /\
  alone (stop_program EventBus.BATCHQ i walk) w = Batch.stop reg others i walk w.
Proof. split_and!; [done..|]. unfold Batch.stop. rewrite bindE. by apply flush_each_alone. Qed.

End Access.
End Access.
