(* ===== verification/Interleaving.v ===== *)
(** * The engine with the calls of the processors interleaved

    In [Engine.v] a call of [process] is one action.  Module [Interleaving] is the same engine
    with such a call split into its accesses ([Access.v]): while one processor is between the
    counting of an event and its storing, the others store theirs, the dispatcher queues, the manager
    throws a switch.  The servers, the dispatcher, the pops and the switches are the actions of
    [Engine.exec]; a call begins on the event in the loop's hand, advances by one access or read,
    and ends.  A ghost keeps what each call has done. *)

From S2P Require Import Prelude Event FrameParser Spsc Mpsc Dlq Metrics EventBus Storage Handlers Output Dedup Processor.
From S2P Require Import Transactional Batch Safety Ledger Dispatcher Pipeline Manager Delivery Engine Access.
#[local] Open Scope Z_scope.

Module Interleaving.
Import Access.
#[local] Existing Instance EventBus.QueueId_eq_dec.

Section Interleaving.
Context {S : Type} (reg : Handlers.registry)
  (handle_at : Handlers.EventHandler -> Z -> Event -> outcome Handlers.HandleResult)
  (others : Output.Stream (S := S) -> Output.Stream (S := S))
  (table : option (gmap string EventPriority)).

Abbreviation prog := (program (S := S)).

(** A call under way: its event, what is left of it, and - no step depends on it - what it has done. *)
Record Call := mkCall { c_inputs : Inputs; c_event : Event; c_rest : prog; c_done : list access }.

Record State := mkState {
  eng : Engine.State (S := S);
  calls : EventBus.QueueId -> option Call;
  (* what has happened: every access with the loop that made it, and the calls that have ended *)
  trace : list (EventBus.QueueId * access);
  ended : EventBus.QueueId -> list (EventPtr * Call)
}.

Inductive Action :=
| Other (c : Engine.Action)
| Begin (q : EventBus.QueueId) (i : Inputs)
| Advance (q : EventBus.QueueId).

Definition is_work (c : Engine.Action) : bool := match c with Engine.Work _ _ => true | _ => false end.

Definition set_call (q : EventBus.QueueId) (c : option Call) (s : State) : State :=
  mkState (eng s) (<[q := c]> (calls s)) (trace s) (ended s).

Definition rest_after (o : outcome unit) (k : prog) : prog :=
  match o with Throw what => Raise what | _ => k end.

Definition exec (a : Action) (s : State) : outcome State :=
  match a with
  | Other c =>
      if is_work c then Ret s else
      e ← Engine.exec reg handle_at others table c (eng s); Ret (mkState e (calls s) (trace s) (ended s))
  | Begin q i =>
      match calls s q, Engine.hand (eng s) q with
      | None, Some p =>
          e ← deref (Engine.heap_of (eng s)) p;
          Ret (set_call q (Some (mkCall i e (program_of reg handle_at q i e) [])) s)
      | _, _ => Ret s
      end
  | Advance q =>
      match calls s q, Engine.hand (eng s) q with
      | Some c, Some p =>
          match c_rest c with
          | Halt | Raise _ =>
              Ret (mkState (Engine.release q p (eng s)) (<[q := None]> (calls s)) (trace s) (<[q := ended s q ++ [(p, c)]]> (ended s)))
          | Undefined => UB
          | Look k => Ret (set_call q (Some (mkCall (c_inputs c) (c_event c) (k (Engine.world (eng s))) (c_done c))) s)
          | Do x k =>
              match perform others x (Engine.world (eng s)) with
              | (UB, _) => UB
              | (o, w) =>
                  Ret (mkState (Engine.set_world w (eng s))
                         (<[q := Some (mkCall (c_inputs c) (c_event c) (rest_after o k) (c_done c ++ [x]))]> (calls s))
                         (trace s ++ [(q, x)]) (ended s))
              end
          end
      | _, _ => Ret s
      end
  end.

Fixpoint run (l : list Action) (s : State) : outcome State :=
  match l with [] => Ret s | a :: l' => s ← exec a s; run l' s end.

Definition start (w : PWorld S) (id : Z) : State := mkState (Engine.start w id) (fun _ => None) [] (fun _ => []).

Lemma interleaved_cons a l s s1 : exec a s = Ret s1 -> run (a :: l) s = run l s1.
Proof. intros H. cbn [run]. by rewrite H. Qed.

Lemma interleaved_app l l' s s1 : run l s = Ret s1 -> run (l ++ l') s = run l' s1.
Proof.
  revert s. induction l as [|a l IH]; intros s; [by intros [= ->]|]. cbn [app run].
  destruct (exec a s) as [s2| |]; cbn [mbind outcome_bind]; [apply IH|done..].
Qed.

(** ** What the other threads leave a call *)

Lemma stamp_elsewhere p ns w w' l : EventBus.stamp p ns w = Ret w' -> p <> Some l -> EventBus.heap w' !! l = EventBus.heap w !! l.
Proof.
  intros Hs Hl. apply outcome_bind_ret in Hs as (h & Hm & [= <-]). destruct p as [l'|]; [|done]. cbn in Hm.
  destruct (EventBus.heap w !! l') as [e|]; [|done]. injection Hm as <-. cbn. rewrite lookup_insert_ne; [done|]. congruence.
Qed.

Lemma pop_elsewhere q ns b x b' l : EventBus.pop q ns (fun b => b) b = Ret (x, b') -> x <> Some (Some l) ->
  EventBus.heap b' !! l = EventBus.heap b !! l.
Proof.
  assert (Hdq : forall q', EventBus.dequeue q' ns b = Ret (x, b') -> x <> Some (Some l) -> EventBus.heap b' !! l = EventBus.heap b !! l).
  { intros q'. unfold EventBus.dequeue. destruct (EventBus.dq _) as [|p r]; [by intros [= _ <-]|].
    rewrite outcome_bind_ret. intros (w & Hs & [= <- <-]) Hx. apply (stamp_elsewhere _ _ _ _ l) in Hs; [|congruence]. by destruct q'. }
  unfold EventBus.pop. destruct q.
  - destruct (Spsc.pop _ _) as [[p|] r]; [|by intros [= _ <-]]. rewrite outcome_bind_ret.
    intros (w & Hs & [= <- <-]) Hx. apply (stamp_elsewhere _ _ _ _ l) in Hs; [done|congruence].
  - destruct (EventBus.dq _); apply Hdq.
  - destruct (EventBus.dq _); apply Hdq.
Qed.

#[local] Opaque Engine.waiting.

(** Two places hold two events. *)
Lemma hand_alone (s : Engine.State (S := S)) q l : Engine.inv reg s -> Engine.hand s q = Some (Some l) ->
  (Some l ∉ Engine.inbound s) /\ (forall q', Some l ∉ Engine.waiting q' (bw (Engine.world s))).
Proof.
  intros Hi Hh. pose proof (Engine.v_nodup _ _ Hi) as Hn. rewrite (Engine.v_places _ _ Hi) in Hn.
  assert (Hin : Some l ∈ Engine.handed s q) by (unfold Engine.handed; rewrite Hh; set_solver).
  split.
  - intros Hx. rewrite (Engine.places_column q) in Hn. apply NoDup_app in Hn as (_ & Hd & _).
    apply (Hd _ Hx). unfold Engine.column. set_solver.
  - intros q' Hx. rewrite (Engine.places_column q) in Hn. apply NoDup_app in Hn as (_ & _ & Hn).
    apply NoDup_app in Hn as (_ & _ & Hn). apply NoDup_app in Hn as (Hc & Hd & _).
    destruct (decide (q' = q)) as [->|Hne].
    + unfold Engine.column in Hc. apply NoDup_app in Hc as (_ & _ & Hc). apply NoDup_app in Hc as (_ & Hc & _). by apply (Hc _ Hin).
    + apply (Hd (Some l)); [unfold Engine.column; set_solver|]. apply elem_of_app. left.
      destruct q, q'; try done; cbn; unfold Engine.column; set_solver.
Qed.

(** An action of another thread: the event stays in the hand, unchanged. *)
Lemma other_leaves c s s' q l e : is_work c = false -> Engine.inv reg s -> Engine.exec reg handle_at others table c s = Ret s' ->
  Engine.hand s q = Some (Some l) -> Engine.heap_of s !! l = Some e ->
  Engine.hand s' q = Some (Some l) /\ Engine.heap_of s' !! l = Some e.
Proof.
  intros Hc Hi He Hh Hl. destruct (hand_alone s q l Hi Hh) as [Hin Hwait]. destruct (Engine.v_bus _ _ Hi) as (a & Hs & _).
  destruct c as [src addr f now| |ns ms| |q' ns|q' i|c]; try done; cbn [Engine.exec] in He.
  - set (p0 := Pipeline.mkPWorld _ _ _) in He. destruct (Engine.offer_new src addr f p0) as (ok & p' & l' & e' & Hp & Hn & Hw & _).
    rewrite Hp in He. injection He as <-. split; [done|]. unfold Engine.heap_of. cbn. rewrite Hw. cbn.
    change (Pipeline.heap_of p0) with (Engine.heap_of s) in *. rewrite lookup_insert_ne; [done|]. congruence.
  - destruct (Engine.held s); [by injection He as <-|]. unfold Dispatcher.tryPop, Engine.dispatcher_of, Mpsc.pop in He.
    cbn [Dispatcher.inbound_queue_ Dispatcher.world Dispatcher.topic_table_] in He.
    destruct (Engine.inbound s) as [|[l'|] rest]; [by injection He as <-| |by injection He as <-].
    apply outcome_bind_ret in He as ([q1 b] & Hr & [= <-]). split; [done|].
    destruct (EventBus.heap (bw (Engine.world s)) !! l') as [e'|] eqn:He'; [|by unfold Dispatcher.route in Hr; cbn in Hr; rewrite He' in Hr].
    rewrite (Dispatcher.route_live table l' e' _ He') in Hr. injection Hr as _ <-. unfold Engine.heap_of in *. cbn.
    rewrite lookup_insert_ne; [done|]. intros ->. apply Hin. left.
  - destruct (Engine.held s) as [[[p q1] n]|] eqn:Hheld; [|by injection He as <-].
    destruct (n <? _)%nat; [|by injection He as <-]. apply outcome_bind_ret in He as ([ok b] & Hp & [= <-]).
    assert (Hlp : live (Engine.heap_of s) p) by (by eapply Engine.place_live, Engine.held_place).
    destruct (EventBus.push_sim q1 p ns ms _ a Hs Hlp) as (ok' & b' & Hp' & Hheap & _). rewrite Hp' in Hp. injection Hp as <- <-.
    destruct ok'; (split; [done|]); unfold Engine.heap_of in *; cbn; by rewrite Hheap.
  - destruct (Engine.held s) as [[[p q1] n]|]; [|by injection He as <-]. destruct (n <? _)%nat; [by injection He as <-|].
    apply outcome_bind_ret in He as (b & Hb & [= <-]). split; [done|]. by apply outcome_bind_ret in Hb as (e' & _ & [= <-]).
  - destruct (Engine.hand s q') eqn:Hq'; [by injection He as <-|]. apply outcome_bind_ret in He as ([x b] & Hp & [= <-]).
    assert (Hne : q <> q') by congruence. split; [cbn; by rewrite fn_lookup_insert_ne|].
    unfold Engine.heap_of in *. cbn. rewrite (pop_elsewhere _ _ _ _ _ l Hp); [done|]. intros ->.
    destruct (EventBus.pop_sim q' ns _ a Hs) as (x & b' & Hp' & Hx & _). rewrite Hp' in Hp. injection Hp as -> ->.
    destruct (Engine.abs_pop_view q' ns a) as (x' & a' & Habs & Hv & _). rewrite Habs in Hx. injection Hx as ->.
    apply (Hwait q'). rewrite (Engine.waiting_sim _ _ _ Hs), Hv. left.
  - injection He as <-. split; [done|]. unfold Engine.heap_of in *. by destruct c.
Qed.

Lemma other_given c s s' : is_work c = false -> Engine.exec reg handle_at others table c s = Ret s' -> Engine.given s' = Engine.given s.
Proof.
  intros Hc. destruct c as [src addr f now| |ns ms| |q' ns|q' i|c]; try done; cbn [Engine.exec].
  - destruct (Pipeline.offer _ _ _ _) as [ok p']. by intros [= <-].
  - destruct (Engine.held s); [by intros [= <-]|]. destruct (Dispatcher.tryPop _) as [[[l|]|] d]; try by intros [= <-].
    rewrite outcome_bind_ret. by intros ([q1 b] & _ & [= <-]).
  - destruct (Engine.held s) as [[[p q1] n]|]; [|by intros [= <-]]. destruct (n <? _)%nat; [|by intros [= <-]].
    rewrite outcome_bind_ret. by intros ([[] b] & _ & [= <-]).
  - destruct (Engine.held s) as [[[p q1] n]|]; [|by intros [= <-]]. destruct (n <? _)%nat; [by intros [= <-]|].
    rewrite outcome_bind_ret. by intros (b & _ & [= <-]).
  - destruct (Engine.hand s q'); [by intros [= <-]|]. rewrite outcome_bind_ret. by intros ([x b] & _ & [= <-]).
  - by intros [= <-].
Qed.

(** ** Programs whose accesses stay within the frame of a processor *)

(** [may_drop]: the processor may throw away the front of the batch queue. *)
Fixpoint tidy (may_drop : Prop) (p : prog) : Prop :=
  match p with
  | Halt | Raise _ => True
  | Undefined => False
  | Do x k => (forall a h, upholds (Safety.within reg a h may_drop) (perform others x)) /\ tidy may_drop k
  | Look k => forall w, Safety.buckets_ok reg w -> tidy may_drop (k w)
  end.

#[local] Hint Resolve Safety.within_push_dlq Safety.within_store Safety.within_touch Safety.within_alert Safety.within_metric
  Safety.within_notify_dropped Safety.within_notify_processed Safety.within_flush : upholds.

Lemma tidy_after {A} D (o : outcome A) (k : A -> prog) :
  o <> UB -> (forall a, o = Ret a -> tidy D (k a)) -> tidy D (after o k).
Proof. intros Ho Hk. destruct o; [by apply Hk|done|done]. Qed.

(** An access that touches no queue and no bucket. *)
Ltac tidy_access := intros ? ?; cbn [perform]; unfold count_processed, count_dropped; eauto with upholds.

Ltac tidy_steps := repeat (split; [by tidy_access|]); try done.

Lemma tidy_abandon D name reason e : tidy D (abandon name reason e).
Proof. tidy_steps. Qed.

Context (reg_tame : Safety.tame reg).
Context (handle_at_defined : forall hd k e, Handlers.handle hd e <> UB -> handle_at hd k e <> UB).

Lemma tidy_realtime D i e : tidy D (realtime_process reg i e).
Proof using reg_tame.
  destruct (reg_tame (topic e) e) as [Hv Hg].
  assert (Hfin : tidy D (realtime_finish i e)) by (intros w _; destruct (_ <? _); tidy_steps).
  tidy_steps. apply tidy_after; [done|]. intros v Hval.
  destruct (Handlers.valid v) eqn:Ev; cbn [negb]; [|apply tidy_abandon]. destruct (Hg v Hval Ev) as [Hr Hh].
  apply tidy_after; [done|]. intros r _. destruct (negb (Handlers.valid r)); [apply tidy_abandon|].
  apply tidy_after; [done|]. intros result _.
  destruct (Handlers.r_outcome result); (apply tidy_abandon || tidy_steps).
Qed.

Lemma tidy_transactional D i e : tidy D (transactional_process reg handle_at i e).
Proof using reg_tame handle_at_defined.
  destruct (reg_tame (topic e) e) as [Hv Hg].
  assert (Hset : forall D a h (f : TransactionalState -> TransactionalState) (b : PWorld S -> bool),
    upholds (Safety.within reg a h D) (update (fun w => if b w then with_txn (f (txn w)) w else w))).
  { intros. apply Safety.within_update. intros w. by destruct (b w). }
  assert (Hcommit : tidy D (commit i e)).
  { split; [intros a h; apply (Hset D a h (fun t => Transactional.set_dedup
      (Dedup.insert (id (header e)) (wall_ms i) (dedup_table_ t)).2 (last_cleanup_ms_ t) t) (fun _ => true))|].
    do 2 (split; [tidy_access|]). split; [|tidy_steps].
    intros a h. apply (Hset D a h (Transactional.record_latency _) (fun _ => 0 <? dequeue_time_ns e)). }
  tidy_steps. intros w _. destruct (paused_ (txn w)); [apply tidy_abandon|]. intros w1 _.
  destruct (Dedup.is_duplicate _ _ _); [done|]. split.
  { intros a h. apply Safety.within_update. intros w2. cbv zeta. by destruct (Transactional.cleanup_due _ _). }
  apply tidy_after; [done|]. intros v Hval.
  destruct (Handlers.valid v) eqn:Ev; cbn [negb]; [|apply tidy_abandon]. destruct (Hg v Hval Ev) as [Hr Hh].
  apply tidy_after; [done|]. intros r _. destruct (negb (Handlers.valid r)); [apply tidy_abandon|].
  intros w2 _. apply tidy_after; [by apply Safety.retry_defined|]. intros [|] _; [done|apply tidy_abandon].
Qed.

Lemma tidy_flush_loop D i t evts n k :
  Forall (fun e => Handlers.handle (Handlers.getOrDefault t reg) e <> UB) evts -> tidy D k ->
  tidy D (flush_loop i (Handlers.getOrDefault t reg) evts n k).
Proof.
  intros Hev Hk. revert n. induction Hev as [|e evts He Hev IH]; intros n; [done|]. cbn [flush_loop].
  apply tidy_after; [done|]. intros r _. destruct (_ || _); tidy_steps.
Qed.

(** An access to a bucket that keeps its events defined. *)
Lemma tidy_bucket D t f k :
  (forall b, Forall (fun e => Handlers.handle (Handlers.getOrDefault t reg) e <> UB) (events b) ->
     Forall (fun e => Handlers.handle (Handlers.getOrDefault t reg) e <> UB) (events (f b))) ->
  tidy D k ->
  (forall a h, upholds (Safety.within reg a h D) (update (fun w : PWorld S => Batch.set_bucket t (f (Batch.bucket_of t w)) w))) /\ tidy D k.
Proof. intros Hf Hk. split; [|done]. intros a h. by apply Safety.within_bucket. Qed.

Lemma tidy_flush_bucket D i t k : tidy D k -> tidy D (flushBucketLocked reg i t k).
Proof.
  intros Hk w Hw.
  assert (Hev : Forall (fun e => Handlers.handle (Handlers.getOrDefault t reg) e <> UB) (events (Batch.bucket_of t w))).
  { unfold Batch.bucket_of. destruct (buckets_ (batch w) !! t) as [b|] eqn:E; cbn; [by eapply Hw|constructor]. }
  destruct (events (Batch.bucket_of t w)) as [|e evts]; [done|]. apply tidy_flush_loop; [done|]. split; [tidy_access|].
  by apply (tidy_bucket D t (fun b => mkTopicBucket [] (last_flush_time b))).
Qed.

Lemma tidy_batch (D : Prop) i e : D -> tidy D (batch_process reg i e).
Proof using reg_tame.
  intros HD. destruct (reg_tame (topic e) e) as [Hv Hg]. tidy_steps. intros w _. destruct (drop_events_ (batch w)).
  { do 2 (split; [tidy_access|]). split; [intros a h; by apply Safety.drop_queue_within|]. tidy_steps. }
  apply tidy_after; [done|]. intros v Hval.
  destruct (Handlers.valid v) eqn:Ev; cbn [negb]; [|apply tidy_abandon]. destruct (Hg v Hval Ev) as [Hr Hh].
  apply tidy_after; [done|]. intros r _. destruct (negb (Handlers.valid r)); [apply tidy_abandon|].
  assert (Hdone : tidy D (Do (Touch Batch.name i) Halt)) by tidy_steps.
  assert (Hstamp : tidy D (Do (Stamp (topic e) (steady_ns i)) (Do (Touch Batch.name i) Halt)))
    by (by apply (tidy_bucket D (topic e) (fun b => mkTopicBucket (events b) (steady_ns i)))).
  apply (tidy_bucket D (topic e) (fun b => mkTopicBucket (events b ++ [e]) (last_flush_time b))).
  { intros b Hb. apply Forall_app. split; [done|]. by constructor. }
  split; [tidy_access|]. intros w1 _. destruct (_ =? 0); [done|]. destruct (_ <=? _); [by apply tidy_flush_bucket|done].
Qed.

Lemma tidy_program q i e : tidy (q = EventBus.BATCHQ) (program_of reg handle_at q i e).
Proof using reg_tame handle_at_defined.
  destruct q; [by apply tidy_realtime|by apply tidy_transactional|by apply tidy_batch].
Qed.

(** ** The invariant *)

(** The accesses a program can have made on its way to what is left of it, whatever it read. *)
Inductive path : prog -> list access -> prog -> Prop :=
| path_here p : path p [] p
| path_do x k l p : path k l p -> path (Do x k) (x :: l) p
| path_raise x k what : path (Do x k) [x] (Raise what)
| path_look k w l p : path (k w) l p -> path (Look k) l p.

Lemma path_snoc_do p l x k : path p l (Do x k) -> path p (l ++ [x]) k /\ forall what, path p (l ++ [x]) (Raise what).
Proof.
  remember (Do x k) as p' eqn:Hp. intros H.
  induction H as [p|y k' l p H IH|y k' what|k' w l p H IH]; subst; cbn; [..|done|].
  - split; [apply path_do, path_here|intros what; apply path_raise].
  - destruct IH as [H1 H2]; [done|]. split; [by apply path_do|]. intros what. by apply path_do.
  - destruct IH as [H1 H2]; [done|]. split; [by econstructor|]. intros what. by econstructor.
Qed.

Lemma path_snoc_look p l k w : path p l (Look k) -> path p l (k w).
Proof.
  remember (Look k) as p' eqn:Hp. intros H. induction H as [p|y k' l p H IH|y k' what|k' w' l p H IH]; subst; [..|done|].
  - econstructor. constructor.
  - constructor. by apply IH.
  - econstructor. by apply IH.
Qed.

Definition traced (q : EventBus.QueueId) (t : list (EventBus.QueueId * access)) : list access :=
  omap (fun qx => if decide (qx.1 = q) then Some qx.2 else None) t.

Definition call_path (q : EventBus.QueueId) (c : Call) : Prop :=
  path (program_of reg handle_at q (c_inputs c) (c_event c)) (c_done c) (c_rest c).

(** The call ran to its end, or an exception left it. *)
Definition over (c : Call) : Prop := c_rest c = Halt \/ exists what, c_rest c = Raise what.

Record call_ok (s : Engine.State (S := S)) (q : EventBus.QueueId) (c : Call) : Prop := {
  o_tidy : tidy (q = EventBus.BATCHQ) (c_rest c);
  o_event : exists l, Engine.hand s q = Some (Some l) /\ Engine.heap_of s !! l = Some (c_event c);
  o_path : call_path q c
}.

Definition under_way (q : EventBus.QueueId) (s : State) : list access :=
  match calls s q with Some c => c_done c | None => [] end.

Record inv (s : State) : Prop := {
  n_eng : Engine.inv reg (eng s);
  n_calls : forall q c, calls s q = Some c -> call_ok (eng s) q c;
  n_given : forall q, map fst (ended s q) = Engine.given (eng s) q;
  n_ended : forall q, Forall (fun pc => call_path q pc.2 /\ over pc.2) (ended s q);
  n_trace : forall q, traced q (trace s) = concat (map (fun pc => c_done pc.2) (ended s q)) ++ under_way q s
}.

Lemma start_interleaved_inv w id : Engine.at_rest w -> inv (start w id).
Proof. intros Hw. by split; [apply Engine.start_inv|..]. Qed.

Lemma traced_snoc q t q' x : traced q (t ++ [(q', x)]) = traced q t ++ (if decide (q' = q) then [x] else []).
Proof. unfold traced. rewrite omap_app. cbn. by destruct (decide (q' = q)). Qed.

(** A call that goes on without an access, and one that begins. *)
Lemma inv_set_call q c s : inv s -> call_ok (eng s) q c -> c_done c = under_way q s -> inv (set_call q (Some c) s).
Proof.
  intros [He Hc Hg Hd Ht] Hok Hun. split; try done; cbn [calls eng set_call ended trace].
  - intros q' c'. destruct (decide (q' = q)) as [->|Hne]; [rewrite fn_lookup_insert; by intros [= <-]|].
    rewrite fn_lookup_insert_ne by done. apply Hc.
  - intros q'. rewrite Ht. f_equal. unfold under_way. cbn [calls set_call].
    destruct (decide (q' = q)) as [->|Hne]; [by rewrite fn_lookup_insert|by rewrite fn_lookup_insert_ne].
Qed.

Lemma begin_inv q i s : inv s -> exists s', exec (Begin q i) s = Ret s' /\ inv s'.
Proof using reg_tame handle_at_defined.
  intros Hi. cbn [exec]. destruct (calls s q) as [c|] eqn:Hc; [by exists s|].
  destruct (Engine.hand (eng s) q) as [p|] eqn:Hh; [|by exists s].
  destruct (Engine.place_live _ _ _ (n_eng _ Hi) (Engine.hand_place _ _ _ Hh)) as (l & e & -> & He).
  cbn [deref]. rewrite He. cbn [mbind outcome_bind]. eexists. split; [done|]. apply inv_set_call; [done|..].
  - split; [by apply tidy_program|by exists l|constructor].
  - unfold under_way. by rewrite Hc.
Qed.

Lemma other_inv c s : inv s -> exists s', exec (Other c) s = Ret s' /\ inv s'.
Proof using reg_tame handle_at_defined.
  intros Hi. cbn [exec]. destruct (is_work c) eqn:Hw; [by exists s|]. destruct Hi as [He Hc Hg Hd Ht].
  destruct (Engine.exec_inv reg handle_at others table reg_tame handle_at_defined c (eng s) He) as (e & Hx & Hi'). rewrite Hx.
  eexists. split; [done|]. split; try done; cbn [eng calls ended].
  - intros q c0 Hq. destruct (Hc q c0 Hq) as [H1 (l & H2 & H3) H4]. split; [done| |done]. exists l.
    by apply (other_leaves c (eng s) e q l).
  - intros q. rewrite Hg. by rewrite (other_given c (eng s) e Hw Hx).
Qed.

(** An access within the frame of the processors. *)
Lemma frame_step D x s : inv s -> (forall a h, upholds (Safety.within reg a h D) (perform others x)) -> exists o w,
  perform others x (Engine.world (eng s)) = (o, w) /\ o <> UB /\ Engine.inv reg (Engine.set_world w (eng s)) /\
  EventBus.heap (bw w) = Engine.heap_of (eng s).
Proof.
  intros [He _ _ _ _] Hx. destruct (Engine.v_bus _ _ He) as (a & Hs & Hdead).
  destruct (Hx a (Engine.heap_of (eng s)) _ (Engine.within_here reg _ a _ He Hs)) as [Hub Hw].
  destruct (perform others x (Engine.world (eng s))) as [o w]. cbn [fst snd] in *. exists o, w. do 2 (split; [done|]).
  destruct (Engine.set_world_inv reg _ w a (eng s) He Hs Hdead Hw) as [He' _]. split; [done|]. apply Hw.
Qed.

Lemma call_ok_world w s q c : EventBus.heap (bw w) = Engine.heap_of s -> call_ok s q c -> call_ok (Engine.set_world w s) q c.
Proof. intros Hw [H1 (l & H2 & H3) H4]. split; [done| |done]. exists l. unfold Engine.heap_of at 1. cbn. by rewrite Hw. Qed.

(** An access of a call. *)
Lemma access_inv q c x k s : inv s -> calls s q = Some c -> c_rest c = Do x k -> exists o w,
  perform others x (Engine.world (eng s)) = (o, w) /\ o <> UB /\ EventBus.heap (bw w) = Engine.heap_of (eng s) /\
  inv (mkState (Engine.set_world w (eng s))
         (<[q := Some (mkCall (c_inputs c) (c_event c) (rest_after o k) (c_done c ++ [x]))]> (calls s))
         (trace s ++ [(q, x)]) (ended s)).
Proof.
  intros Hi Hq Hr. pose proof Hi as [_ Hc Hg Hd Ht]. destruct (Hc q c Hq) as [Htidy (l & Hh & Hl) Hp]. unfold call_path in Hp.
  rewrite Hr in Htidy, Hp. destruct Htidy as [Hx Hk]. destruct (frame_step _ x s Hi Hx) as (o & w & Hpe & Hub & He' & Hheap).
  exists o, w. split; [done|]. split; [done|]. split; [done|]. destruct (path_snoc_do _ _ _ _ Hp) as [Hp1 Hp2].
  split; try done; cbn [eng calls ended trace].
  - intros q' c'. destruct (decide (q' = q)) as [->|Hne].
    + rewrite fn_lookup_insert. intros [= <-]. apply call_ok_world; [done|]. split; cbn [c_rest c_event c_done].
      * by destruct o.
      * by exists l.
      * unfold call_path. cbn. destruct o; [done|apply Hp2|done].
    + rewrite fn_lookup_insert_ne by done. intros Hq'. by apply call_ok_world, Hc.
  - intros q'. rewrite traced_snoc, Ht, <- app_assoc. f_equal. unfold under_way. cbn [calls].
    destruct (decide (q = q')) as [->|Hne]; [rewrite fn_lookup_insert; by rewrite Hq|].
    rewrite fn_lookup_insert_ne by done. by rewrite app_nil_r.
Qed.

(** The end of a call. *)
Lemma end_inv q p c s : inv s -> calls s q = Some c -> Engine.hand (eng s) q = Some p -> over c ->
  inv (mkState (Engine.release q p (eng s)) (<[q := None]> (calls s)) (trace s) (<[q := ended s q ++ [(p, c)]]> (ended s))).
Proof.
  intros [He Hc Hg Hd Ht] Hq Hh Ho. split; cbn [eng calls ended trace].
  - by apply Engine.release_inv.
  - intros q' c'. destruct (decide (q' = q)) as [->|Hne]; [by rewrite fn_lookup_insert|]. rewrite fn_lookup_insert_ne by done.
    intros Hq'. destruct (Hc q' c' Hq') as [H1 (l' & H2 & H3) H4]. split; [done| |done]. exists l'. cbn. by rewrite fn_lookup_insert_ne.
  - intros q'. cbn. destruct (decide (q' = q)) as [->|Hne]; [|by rewrite !fn_lookup_insert_ne].
    rewrite !fn_lookup_insert, map_app, Hg. done.
  - intros q'. destruct (decide (q' = q)) as [->|Hne]; [|by rewrite fn_lookup_insert_ne].
    rewrite fn_lookup_insert. apply Forall_app. split; [done|]. constructor; [|constructor]. split; [apply (Hc q c Hq)|done].
  - intros q'. rewrite Ht. unfold under_way. cbn [calls]. destruct (decide (q' = q)) as [->|Hne]; [|by rewrite !fn_lookup_insert_ne].
    rewrite !fn_lookup_insert, Hq, map_app, concat_app. cbn. by rewrite !app_nil_r.
Qed.

Lemma advance_inv q s : inv s -> exists s', exec (Advance q) s = Ret s' /\ inv s'.
Proof.
  intros Hi. cbn [exec]. destruct (calls s q) as [c|] eqn:Hq; [|by exists s].
  destruct (n_calls _ Hi q c Hq) as [Htidy (l & Hh & Hl) Hp]. rewrite Hh. destruct (c_rest c) as [|what| |x k|k] eqn:Hr.
  - eexists. split; [done|]. apply end_inv; [done..|by left].
  - eexists. split; [done|]. apply end_inv; [done..|right; by exists what].
  - done.
  - destruct (access_inv q c x k s Hi Hq Hr) as (o & w & -> & Hub & _ & Hi'). eexists. split; [|exact Hi']. by destruct o.
  - eexists. split; [done|]. apply inv_set_call; [done| |unfold under_way; by rewrite Hq]. split; cbn [c_rest c_event].
    + apply Htidy, (Engine.v_buckets _ _ (n_eng _ Hi)).
    + by exists l.
    + unfold call_path in *. rewrite Hr in Hp. by apply path_snoc_look.
Qed.

Lemma interleaved_exec_inv a s : inv s -> exists s', exec a s = Ret s' /\ inv s'.
Proof using reg_tame handle_at_defined. destruct a; [apply other_inv|apply begin_inv|apply advance_inv]. Qed.

Lemma interleaved_run_inv l s : inv s -> exists s', run l s = Ret s' /\ inv s'.
Proof using reg_tame handle_at_defined.
  revert s; induction l as [|a l IH]; intros s Hi; [by exists s|].
  destruct (interleaved_exec_inv a s Hi) as (s1 & H1 & Hi1). rewrite (interleaved_cons _ _ _ _ H1). by apply IH.
Qed.

(** ** A call nothing comes between is the action of [Engine.v] *)

Lemma program_alone q i e w :
  alone others (program_of reg handle_at q i e) w = Engine.process_of reg handle_at others q i e w.
Proof. destruct q; [apply realtime_alone|apply transactional_alone|apply batch_alone]. Qed.

Lemma lost_front (g r : list EventPtr) : Engine.lost 0 (g ++ r) r = g.
Proof. rewrite <- (app_nil_r r) at 2. by rewrite Engine.lost_spec. Qed.

Lemma set_world_same (s : Engine.State (S := S)) : Engine.set_world (Engine.world s) s = s.
Proof.
  unfold Engine.set_world. pose proof (lost_front [] (Engine.waiting EventBus.BATCHQ (bw (Engine.world s)))) as Hl. cbn [app] in Hl.
  rewrite Hl, app_nil_r. by destruct s.
Qed.

Lemma set_world_twice (w1 w2 : PWorld S) s g1 g2 :
  Engine.waiting EventBus.BATCHQ (bw (Engine.world s)) = g1 ++ Engine.waiting EventBus.BATCHQ (bw w1) ->
  Engine.waiting EventBus.BATCHQ (bw w1) = g2 ++ Engine.waiting EventBus.BATCHQ (bw w2) ->
  Engine.set_world w2 (Engine.set_world w1 s) = Engine.set_world w2 s.
Proof.
  intros H1 H2. unfold Engine.set_world. cbn [Engine.world Engine.inbound Engine.next_id Engine.held Engine.hand Engine.admitted
    Engine.entered Engine.given Engine.dead]. f_equal. rewrite <- app_assoc. f_equal. rewrite H1, H2, !lost_front. by rewrite app_assoc, lost_front.
Qed.

Definition front (w w' : PWorld S) : Prop :=
  exists g, Engine.waiting EventBus.BATCHQ (bw w) = g ++ Engine.waiting EventBus.BATCHQ (bw w').

Lemma access_front q c x k s o w : inv s -> calls s q = Some c -> c_rest c = Do x k ->
  perform others x (Engine.world (eng s)) = (o, w) -> front (Engine.world (eng s)) w.
Proof.
  intros [He Hc _ _ _] Hq Hr Hp. destruct (Hc q c Hq) as [Htidy _ _]. rewrite Hr in Htidy. destruct Htidy as [Hx _].
  destruct (Engine.v_bus _ _ He) as (a & Hs & Hdead).
  destruct (Hx a (Engine.heap_of (eng s)) _ (Engine.within_here reg _ a _ He Hs)) as [_ Hw]. rewrite Hp in Hw.
  destruct (Engine.set_world_inv reg _ w a (eng s) He Hs Hdead Hw) as (_ & g & Hg & _). by exists g.
Qed.

Definition runs_alone (q : EventBus.QueueId) (e : EventPtr) (p : prog) (w : PWorld S) (s : State) : Prop :=
  let '(o, w) := alone others p w in
  exists n s', run (replicate n (Advance q)) s = Ret s' /\ o <> UB /\ front (Engine.world (eng s)) w /\
    eng s' = Engine.release q e (Engine.set_world w (eng s)) /\
    calls s' q = None /\ (forall q', q' <> q -> calls s' q' = calls s q').

Lemma over_alone q e c s : inv s -> calls s q = Some c -> over c -> Engine.hand (eng s) q = Some e ->
  runs_alone q e (c_rest c) (Engine.world (eng s)) s.
Proof.
  intros Hi Hq Ho Hh. unfold runs_alone.
  assert (Hx : run (replicate 1 (Advance q)) s = Ret (mkState (Engine.release q e (eng s)) (<[q := None]> (calls s)) (trace s)
    (<[q := ended s q ++ [(e, c)]]> (ended s)))).
  { cbn [replicate run exec]. rewrite Hq, Hh. by destruct Ho as [->|[what ->]]. }
  destruct Ho as [Hr|[what Hr]]; rewrite Hr; cbn [alone mret M_ret lift];
    (exists 1%nat; eexists; split; [exact Hx|]; split; [done|]; split; [by exists []|]; cbn [eng calls];
     rewrite set_world_same, fn_lookup_insert; split_and!; try done; intros; by rewrite fn_lookup_insert_ne).
Qed.

(** What is left of a call, when it runs to its end at once. *)
Lemma call_alone p q c s e : inv s -> calls s q = Some c -> c_rest c = p -> Engine.hand (eng s) q = Some e ->
  runs_alone q e p (Engine.world (eng s)) s.
Proof.
  revert c s. induction p as [|what| |x k IH|k IH]; intros c s Hi Hq Hr Hh.
  1,2: rewrite <- Hr; apply over_alone; [done|done|by (left + (right; eexists))|done].
  - pose proof (o_tidy _ _ _ (n_calls _ Hi q c Hq)) as Ht. by rewrite Hr in Ht.
  - destruct (access_inv q c x k s Hi Hq Hr) as (o & w & Hp & Hub & _ & Hi1).
    destruct (access_front q c x k s o w Hi Hq Hr Hp) as [g1 Hg1].
    match type of Hi1 with inv ?a => set (s1 := a) in * end.
    assert (H1 : exec (Advance q) s = Ret s1) by (cbn [exec]; rewrite Hq, Hh, Hr, Hp; by destruct o).
    assert (Hq1 : calls s1 q = Some (mkCall (c_inputs c) (c_event c) (rest_after o k) (c_done c ++ [x])))
      by (unfold s1; cbn; by rewrite fn_lookup_insert).
    assert (Hgo : runs_alone q e (rest_after o k) w s1).
    { destruct o as [u|what|]; [exact (IH _ s1 Hi1 Hq1 eq_refl Hh)| |done]. apply (over_alone q e _ s1 Hi1 Hq1); [right; by exists what|done]. }
    unfold runs_alone in *. cbn [alone]. rewrite bindE, Hp.
    assert (Heq : match o with Ret a => alone others k w | Throw what => (Throw what, w) | UB => (UB, w) end =
                  alone others (rest_after o k) w) by (by destruct o).
    rewrite Heq. destruct (alone others (rest_after o k) w) as [o' w'].
    destruct Hgo as (n & s' & Hrun & Hub' & [g2 Hg2] & He & Hn & Ho).
    exists (Datatypes.S n), s'. split; [cbn [replicate]; by rewrite (interleaved_cons _ _ _ _ H1)|]. split; [done|].
    split; [exists (g1 ++ g2); unfold s1 in Hg2; cbn in Hg2; by rewrite Hg1, Hg2, app_assoc|].
    split; [rewrite He; f_equal; by apply (set_world_twice _ _ _ g1 g2)|].
    split; [done|]. intros q' Hne. rewrite Ho by done. cbn. by rewrite fn_lookup_insert_ne.
  - destruct (advance_inv q s Hi) as (s1 & H1 & Hi1). assert (H1' := H1). cbn [exec] in H1'. rewrite Hq, Hh, Hr in H1'. injection H1' as Hs1.
    specialize (IH (Engine.world (eng s)) (mkCall (c_inputs c) (c_event c) (k (Engine.world (eng s))) (c_done c)) s1 Hi1).
    subst s1. cbn [set_call calls eng] in IH. rewrite fn_lookup_insert in IH. specialize (IH eq_refl eq_refl Hh).
    unfold runs_alone in *. cbn [alone]. destruct (alone others (k (Engine.world (eng s))) (Engine.world (eng s))) as [o w].
    destruct IH as (n & s' & Hrun & Hub & Hf & He & Hn & Ho). exists (Datatypes.S n), s'. split; [cbn [replicate]; by rewrite (interleaved_cons _ _ _ _ H1)|].
    split_and!; try done. intros q' Hne. rewrite Ho by done. cbn [set_call calls]; by rewrite fn_lookup_insert_ne.
Qed.

(** Every schedule of [Engine.v] is one of the schedules here: its calls are the ones nothing comes between. *)
Theorem coarse_is_interleaved cs s : inv s -> (forall q, calls s q = None) ->
  exists l s', run l s = Ret s' /\ Engine.run reg handle_at others table cs (eng s) = Ret (eng s') /\
    (forall q, calls s' q = None).
Proof using reg_tame handle_at_defined.
  revert s. induction cs as [|a cs IH]; intros s Hi Hn; [by exists [], s|].
  enough (exists l s', run l s = Ret s' /\ Engine.exec reg handle_at others table a (eng s) = Ret (eng s') /\ inv s' /\
    (forall q, calls s' q = None)) as (l & s1 & H1 & He & Hi1 & Hn1).
  { destruct (IH s1 Hi1 Hn1) as (l' & s' & H2 & He' & Hn'). exists (l ++ l'), s'. rewrite (interleaved_app _ _ _ _ H1).
    split; [done|]. split; [|done]. by rewrite (Engine.schedule_cons reg handle_at others table a cs (eng s) (eng s1) He). }
  destruct (is_work a) eqn:Hw.
  2: { destruct (other_inv a s Hi) as (s1 & H1 & Hi1). assert (H1' := H1). cbn [exec] in H1'. rewrite Hw in H1'.
       apply outcome_bind_ret in H1' as (e & He & [= <-]). exists [Other a]. eexists. rewrite (interleaved_cons _ _ _ _ H1). by split_and!. }
  destruct a as [| | | | |q i|]; try done. cbn [Engine.exec].
  destruct (Engine.hand (eng s) q) as [p|] eqn:Hh; [|by exists [], s].
  destruct (begin_inv q i s Hi) as (s1 & H1 & Hi1). assert (H1' := H1). cbn [exec] in H1'. rewrite Hn, Hh in H1'.
  apply outcome_bind_ret in H1' as (e & He & [= Hs1]). unfold Engine.heap_of in He. rewrite He. cbn [mbind outcome_bind].
  rewrite <- program_alone. pose proof (call_alone (program_of reg handle_at q i e) q (mkCall i e (program_of reg handle_at q i e) []) s1 p Hi1) as Hc.
  subst s1. cbn [set_call calls eng] in Hc. rewrite fn_lookup_insert in Hc. specialize (Hc eq_refl eq_refl Hh).
  unfold runs_alone in Hc. destruct (alone others _ _) as [o w]. destruct Hc as (n & s' & Hrun & Hub & _ & Heng & Hq & Ho).
  exists (Begin q i :: replicate n (Advance q)), s'. rewrite (interleaved_cons _ _ _ _ H1), Heng. split; [done|].
  split; [by destruct o|]. split.
  - destruct (interleaved_run_inv (Begin q i :: replicate n (Advance q)) s Hi) as (s2 & H2 & Hi2).
    rewrite (interleaved_cons _ _ _ _ H1), Hrun in H2. by injection H2 as <-.
  - intros q'. destruct (decide (q' = q)) as [->|Hne]; [done|]. rewrite Ho by done. cbn. by rewrite fn_lookup_insert_ne.
Qed.

(** ** The log *)

Definition stores (t : list (EventBus.QueueId * access)) : list Event :=
  omap (fun qx => match qx.2 with Store _ e => Some e | _ => None end) t.

(** The file system has accepted every write so far. *)
Definition unrefused (t : list (EventBus.QueueId * access)) : Prop :=
  Forall (fun qx => match qx.2 with Store ok _ => ok = true | _ => True end) t.

Definition log_kept (old : list byte) (s : State) : Prop :=
  unrefused (trace s) -> Ledger.logged old (stores (trace s)) (Engine.world (eng s)).

Lemma other_storage c s s' : is_work c = false -> Engine.exec reg handle_at others table c s = Ret s' ->
  storage_ (Engine.world s') = storage_ (Engine.world s).
Proof.
  intros Hc. destruct c as [src addr f now| |ns ms| |q' ns|q' i|c]; try done; cbn [Engine.exec].
  - destruct (Pipeline.offer _ _ _ _) as [ok p']. by intros [= <-].
  - destruct (Engine.held s); [by intros [= <-]|]. destruct (Dispatcher.tryPop _) as [[[l|]|] d]; try by intros [= <-].
    rewrite outcome_bind_ret. by intros ([q1 b] & _ & [= <-]).
  - destruct (Engine.held s) as [[[p q1] n]|]; [|by intros [= <-]]. destruct (n <? _)%nat; [|by intros [= <-]].
    rewrite outcome_bind_ret. by intros ([[] b] & _ & [= <-]).
  - destruct (Engine.held s) as [[[p q1] n]|]; [|by intros [= <-]]. destruct (n <? _)%nat; [by intros [= <-]|].
    rewrite outcome_bind_ret. by intros (b & _ & [= <-]).
  - destruct (Engine.hand s q'); [by intros [= <-]|]. rewrite outcome_bind_ret. by intros ([x b] & _ & [= <-]).
  - intros [= <-]. by destruct c.
Qed.

(** Only a store adds to the log, and only a store and a flush touch the storage. *)
Lemma access_log old L x (w : PWorld S) : Ledger.logged (S := S) old L w ->
  match x with
  | Store ok e => ok = true -> Ledger.logged old (L ++ [e]) (perform others x w).2
  | _ => Ledger.logged old L (perform others x w).2
  end.
Proof.
  intros Hl. destruct x; try (by apply (Ledger.logged_storage old L w); [|done]).
  - apply (Ledger.logged_storage old L w); [|done]. cbn. by destruct (has_dlq w).
  - intros ->. destruct Hl as (st & Hst & Hok). cbn [perform]. unfold store. rewrite Hst.
    destruct (StorageEngine.storeEvent_ok _ _ e _ Hok) as [H1 H2]. destruct (StorageEngine.storeEvent true e st) as [o st'].
    by exists st'.
  - destruct Hl as (st & Hst & Hok). exists (StorageEngine.flush st). cbn. rewrite Hst. split; [done|]. by apply StorageEngine.flush_ok.
  - apply (Ledger.logged_storage old L w); [|done]. cbn [perform]. by destruct (touch_rest name i w) as [b ->].
  - apply (Ledger.logged_storage old L w); [|done]. cbn. unfold Realtime.emitAlert. destruct (alert_handler_ _); [|done].
    by destruct (Handlers.onAlert _ _ _).
  - apply (Ledger.logged_storage old L w); [|done]. cbn. cbv zeta. by destruct (Transactional.cleanup_due _ _).
  - apply (Ledger.logged_storage old L w); [|done]. cbn. by destruct (0 <? _).
  - apply (Ledger.logged_storage old L w); [|done]. cbn. unfold Batch.drop_queue. destruct (has_bus _); [|done].
    by destruct (EventBus.dropBatchFromQueue _ _) as [[]| |].
Qed.

Lemma stores_snoc t q x : stores (t ++ [(q, x)]) = stores t ++ match x with Store _ e => [e] | _ => [] end.
Proof. unfold stores. rewrite omap_app. by destruct x. Qed.

Lemma exec_log old a s s' : log_kept old s -> exec a s = Ret s' -> log_kept old s'.
Proof.
  unfold log_kept. intros Hl. destruct a as [c|q i|q]; cbn [exec].
  - destruct (is_work c) eqn:Hw; [by intros [= <-]|]. rewrite outcome_bind_ret. intros (e & He & [= <-]) Hu. cbn [eng trace] in *.
    eapply Ledger.logged_storage; [by eapply other_storage|]. by apply Hl.
  - destruct (calls s q); [by intros [= <-]|]. destruct (Engine.hand (eng s) q); [|by intros [= <-]].
    rewrite outcome_bind_ret. by intros (e & _ & [= <-]).
  - destruct (calls s q) as [c|]; [|by intros [= <-]]. destruct (Engine.hand (eng s) q) as [p|]; [|by intros [= <-]].
    destruct (c_rest c) as [|what| |x k|k]; try (by intros [= <-]).
    pose proof (access_log old (stores (trace s)) x (Engine.world (eng s))) as Hx.
    destruct (perform others x (Engine.world (eng s))) as [o w]. intros He Hu.
    assert (Hs' : trace s' = trace s ++ [(q, x)] /\ Engine.world (eng s') = w) by (destruct o; [..|done]; by injection He as <-).
    destruct Hs' as [Htr ->]. rewrite Htr in *. apply Forall_app in Hu as [Hu Hx1]. apply Forall_cons in Hx1 as [Hx1 _]. cbn in Hx1, Hx.
    specialize (Hx (Hl Hu)). rewrite stores_snoc. destruct x; rewrite ?app_nil_r; try done. by apply Hx.
Qed.

(** ** What becomes of the event of a call *)

(** The copies of events a call made: in the log, or in the dead-letter queue. *)
Inductive fate := Logged (e : Event) | Buried (e : Event).
Definition fates (l : list access) : list fate :=
  omap (fun x => match x with Store _ e => Some (Logged e) | Bury e => Some (Buried e) | _ => None end) l.
Definition puts (l : list access) : list Event := omap (fun x => match x with Put e => Some e | _ => None end) l.

(** The counts of dropped events. *)
Definition drops (l : list access) : Z := zlen (omap (fun x => match x with CountDropped n => Some n | _ => None end) l).

(** Every way to the end of a program shows [Q]. *)
Definition along (p : prog) (Q : list access -> Prop) : Prop := forall l, path p l Halt -> Q l.

Lemma along_halt (Q : list access -> Prop) : Q [] -> along Halt Q.
Proof. intros HQ l H. by inversion H. Qed.
Lemma along_raise what Q : along (Raise what) Q.
Proof. intros l H. by inversion H. Qed.
Lemma along_undefined Q : along Undefined Q.
Proof. intros l H. by inversion H. Qed.
Lemma along_do x k Q : along k (fun l => Q (x :: l)) -> along (Do x k) Q.
Proof. intros Hk l H. inversion H; subst. by apply Hk. Qed.
Lemma along_look k Q : (forall w, along (k w) Q) -> along (Look k) Q.
Proof. intros Hk l H. inversion H; subst. by eapply Hk. Qed.
Lemma along_after {A} (o : outcome A) (k : A -> prog) Q : (forall a, along (k a) Q) -> along (after o k) Q.
Proof. intros Hk. destruct o; [apply Hk|apply along_raise|apply along_undefined]. Qed.

(** Follow a program to its ends. *)
Ltac follow := repeat (cbn [abandon commit]; intros; lazymatch goal with
  | |- along (Do _ _) _ => apply along_do
  | |- along (Look _) _ => apply along_look
  | |- along (after _ _) _ => apply along_after
  | |- along Halt _ => apply along_halt
  | |- along (if ?b then _ else _) _ => destruct b
  | |- along (abandon _ _ _) _ => unfold abandon
  | |- along (commit _ _) _ => unfold commit
  | |- along (realtime_finish _ _) _ => unfold realtime_finish
  | |- along (match ?o with _ => _ end) _ => destruct o
  end).

Lemma realtime_fate i e : along (realtime_process reg i e) (fun l =>
  (fates l = [Logged e] /\ drops l = 0) \/ (fates l = [Buried e] /\ drops l = 1)).
Proof. unfold realtime_process. follow; cbn; rewrite ?zlen_cons, ?zlen_nil; auto. Qed.

Lemma transactional_fate i e : along (transactional_process reg handle_at i e) (fun l =>
  (fates l = [] /\ drops l = 0) \/ (fates l = [Logged e] /\ drops l = 0) \/ (fates l = [Buried e] /\ drops l = 1)).
Proof. unfold transactional_process. follow; cbn; rewrite ?zlen_cons, ?zlen_nil; auto. Qed.

(** A flush puts no event into a bucket and counts none as dropped. *)
Lemma flush_along i h evts n k (Q : list access -> Prop) :
  along k (fun l => forall l', puts l' = [] -> drops l' = 0 -> Q (l' ++ l)) -> along (flush_loop i h evts n k) Q.
Proof.
  revert n Q. induction evts as [|evt evts IH]; intros n Q Hk; cbn [flush_loop].
  { intros l H. by apply (Hk l H []). }
  apply along_after. intros r. destruct (_ || _); do 2 apply along_do; apply IH; intros l H l' Hp Hd; apply (Hk l H (_ :: _ :: l')); done.
Qed.

Lemma batch_fate i e : along (batch_process reg i e) (fun l =>
  (puts l = [e] /\ drops l = 0) \/ (puts l = [] /\ fates l = [Buried e] /\ drops l = 1)).
Proof.
  assert (Happ : forall l l', puts (l ++ l') = puts l ++ puts l' /\ drops (l ++ l') = drops l + drops l').
  { intros l l'. unfold puts, drops. by rewrite !omap_app, zlen_app. }
  assert (Hflush : along (flushBucketLocked reg i (topic e) (Do (Stamp (topic e) (steady_ns i)) (Do (Touch Batch.name i) Halt)))
    (fun l => puts l = [] /\ drops l = 0)).
  { apply along_look. intros w'. destruct (events _); [follow; done|]. apply flush_along. follow. intros l' Hp Hd.
    destruct (Happ l' [Flush; Clear (topic e); Stamp (topic e) (steady_ns i); Touch Batch.name i]) as [-> ->]. by rewrite Hp, Hd. }
  unfold batch_process, bucket_event. follow; try (left; done); try (right; done).
  intros l H. destruct (Hflush l H) as [Hp Hd]. left. unfold puts, drops in *. cbn. by rewrite Hp.
Qed.

(** The events a list of accesses stored. *)
Definition stored_by (l : list access) : list Event := omap (fun x => match x with Store _ e => Some e | _ => None end) l.

(** The log is a shuffle of what the three loops stored. *)
Lemma stores_shuffle t :
  stores t ≡ₚ stored_by (traced EventBus.REALTIME t) ++ stored_by (traced EventBus.TRANSACTIONAL t) ++
              stored_by (traced EventBus.BATCHQ t) /\
  forall q, stored_by (traced q t) `sublist_of` stores t.
Proof.
  induction t as [|[q x] t [IH1 IH2]]; [split; [done|intros q; constructor]|].
  assert (Hs : stores ((q, x) :: t) = stored_by [x] ++ stores t) by (by destruct x).
  assert (Ht : forall q', stored_by (traced q' ((q, x) :: t)) = (if decide (q = q') then stored_by [x] else []) ++ stored_by (traced q' t)).
  { intros q'. unfold traced. cbn. destruct (decide (q = q')); [|done]. by destruct x. }
  rewrite Hs. setoid_rewrite Ht. split.
  - rewrite IH1. generalize (stored_by [x]) (stored_by (traced EventBus.REALTIME t))
      (stored_by (traced EventBus.TRANSACTIONAL t)) (stored_by (traced EventBus.BATCHQ t)). intros a b c d.
    destruct q; cbn; solve_Permutation.
  - intros q'. destruct (decide (q = q')); [by apply sublist_app|]. apply sublist_inserts_l, IH2.
Qed.

(** ** The properties *)


Lemma run_log old l s s' : log_kept old s -> run l s = Ret s' -> log_kept old s'.
Proof.
  revert s. induction l as [|a l IH]; intros s Hl; cbn [run]; [by intros [= <-]|].
  rewrite outcome_bind_ret. intros (s1 & H1 & H2). by eapply IH, H2; eapply exec_log.
Qed.

(** C3: in every such schedule each loop has made one call for each event given to it, in order, and what a loop did is
    what its calls did, one after another.  A call of the realtime processor that ran to its end logged
    its event once, or put it into the dead-letter queue once and counted one drop; one of the
    transactional processor did the same or, for a repeated id, neither; one of the batch processor put
    the event into its bucket once, or into the dead-letter queue and counted one drop.  As long as no write was
    refused the file is, once flushed, what it held followed by the events the three logged, in the
    order they did, nothing lost and nothing torn - a shuffle of what each of them logged. *)
Theorem interleaved_calls_dispose_once old w id l :
  Engine.at_rest w -> (exists st, storage_ w = Some st /\ StorageEngine.log_ok old [] st) ->
  exists s, run l (start w id) = Ret s /\
    (forall q, map fst (ended s q) = Engine.given (eng s) q /\
       traced q (trace s) = concat (map (fun pc => c_done pc.2) (ended s q)) ++ under_way q s) /\
    (forall q p c, (p, c) ∈ ended s q -> over c /\ (c_rest c = Halt ->
       let e := c_event c in let did := c_done c in
       match q with
       | EventBus.REALTIME => (fates did = [Logged e] /\ drops did = 0) \/ (fates did = [Buried e] /\ drops did = 1)
       | EventBus.TRANSACTIONAL => (fates did = [] /\ drops did = 0) \/ (fates did = [Logged e] /\ drops did = 0) \/
                                   (fates did = [Buried e] /\ drops did = 1)
       | EventBus.BATCHQ => (puts did = [e] /\ drops did = 0) \/ (puts did = [] /\ fates did = [Buried e] /\ drops did = 1)
       end)) /\
    (unrefused (trace s) -> exists st, storage_ (Engine.world (eng s)) = Some st /\
       StorageEngine.on_disk (StorageEngine.storageFile (StorageEngine.flush st)) =
         old ++ StorageEngine.log_bytes (stores (trace s))) /\
    stores (trace s) ≡ₚ stored_by (traced EventBus.REALTIME (trace s)) ++ stored_by (traced EventBus.TRANSACTIONAL (trace s)) ++
      stored_by (traced EventBus.BATCHQ (trace s)) /\
    (forall q, stored_by (traced q (trace s)) `sublist_of` stores (trace s)).
Proof using reg_tame handle_at_defined.
  intros Hw Hlog. destruct (interleaved_run_inv l _ (start_interleaved_inv w id Hw)) as (s & Hs & Hi). exists s. split; [done|].
  split; [intros q; split; apply Hi|]. split; [|split; [|apply stores_shuffle]].
  - intros q p c Hin. pose proof (n_ended _ Hi q) as Hall. rewrite Forall_forall in Hall.
    destruct (Hall _ Hin) as [Hp Ho]. cbn in Hp, Ho. split; [done|]. intros Hr. unfold call_path in Hp. rewrite Hr in Hp.
    destruct q; [by apply (realtime_fate _ _ _ Hp)|by apply (transactional_fate _ _ _ Hp)|by apply (batch_fate _ _ _ Hp)].
  - intros Hu. destruct (run_log old l (start w id) s (fun _ => Hlog) Hs Hu) as (st & Hst & Hok). exists st. split; [done|].
    by apply StorageEngine.flush_durable.
Qed.

End Interleaving.
End Interleaving.

(** ** A concrete schedule *)

Module InterleavingRun.
Import EngineRun DeliveryRun Interleaving Access.

Abbreviation run_fine := (run default_handlers as_written (fun st : Output.Stream (S := unit) => st) (Dispatcher.topic_table_ dispatcher)).

(** Two frames reach the realtime and the transactional processor; the calls are under way at the same time, and the
    transactional one stores its event while the realtime one has counted its own and not stored it. *)
Definition side_by_side : list Action :=
  map Other [Engine.Arrive TCP "a" (frame CRITICAL "x") 1; Engine.Arrive UDP "b" (frame MEDIUM "payment") 2;
             Engine.Route; Engine.Attempt 4 0; Engine.Route; Engine.Attempt 6 0;
             Engine.Take EventBus.REALTIME 5; Engine.Take EventBus.TRANSACTIONAL 8] ++
  [Begin EventBus.REALTIME (calm 7000000); Begin EventBus.TRANSACTIONAL (calm 9000000);
   Advance EventBus.REALTIME; Advance EventBus.REALTIME] ++ replicate 12 (Advance EventBus.TRANSACTIONAL) ++
  [Other (Engine.Switch Engine.PauseTransactions)] ++ replicate 5 (Advance EventBus.REALTIME).

(** The events each loop was given, and the ids in the order they were logged. *)
Definition report (o : outcome (State (S := unit))) : option (list nat * list Z) :=
  match o with
  | Ret s => Some (map (fun q => length (Engine.given (eng s) q)) [EventBus.REALTIME; EventBus.TRANSACTIONAL; EventBus.BATCHQ],
                   map (fun e => id (header e)) (stores (trace s)))
  | _ => None
  end.

(** Both calls run to their ends and no write was refused. *)
Lemma ended_all s : run_fine side_by_side (start DeliveryRun.engine0 0) = Ret s ->
  map (fun q => length (ended s q)) [EventBus.REALTIME; EventBus.TRANSACTIONAL; EventBus.BATCHQ] = [1; 1; 0]%nat /\ unrefused (trace s).
Proof.
  intros Hs.
  assert (Hr : match run_fine side_by_side (start DeliveryRun.engine0 0) with
    | Ret s => (map (fun q => length (ended s q)) [EventBus.REALTIME; EventBus.TRANSACTIONAL; EventBus.BATCHQ],
                forallb (fun qx => match qx.2 with Store ok _ => ok | _ => true end) (trace s)) = ([1; 1; 0]%nat, true)
    | _ => False
    end) by (vm_compute; reflexivity).
  rewrite Hs in Hr. clear Hs. injection Hr as Hn1 Hn2 Hn3 Hall. split; [cbn; by rewrite Hn1, Hn2, Hn3|].
  apply Forall_forall. intros qx Hin. rewrite forallb_forall in Hall. specialize (Hall qx).
  destruct qx as [q []]; try done. apply Hall. by apply list_elem_of_In.
Qed.

End InterleavingRun.


(** Both calls ended, and the file holds the payment before the critical frame that was counted first. *)
Lemma interleaved_calls_dispose_once_witness :
  exists s, InterleavingRun.run_fine InterleavingRun.side_by_side (Interleaving.start DeliveryRun.engine0 0) = Ret s /\
    map (fun q => length (Interleaving.ended s q)) [EventBus.REALTIME; EventBus.TRANSACTIONAL; EventBus.BATCHQ] = [1; 1; 0]%nat /\
    Interleaving.unrefused (Interleaving.trace s) /\
    exists st, storage_ (Engine.world (Interleaving.eng s)) = Some st /\
      StorageEngine.on_disk (StorageEngine.storageFile (StorageEngine.flush st)) =
        StorageEngine.log_bytes (Interleaving.stores (Interleaving.trace s)).
Proof.
  destruct (Interleaving.interleaved_calls_dispose_once EngineRun.default_handlers EngineRun.as_written
    (fun st : Output.Stream (S := unit) => st) (Dispatcher.topic_table_ DeliveryRun.dispatcher) Safety.defaults_tame (fun hd k e H => H)
    [] DeliveryRun.engine0 0 InterleavingRun.side_by_side EngineRun.engine0_at_rest) as (s & Hs & Hcalls & _ & Hdisk & _).
  { exists open_log. split; [reflexivity|]. exists [], []. repeat split; reflexivity. }
  exists s. split; [exact Hs|]. destruct (InterleavingRun.ended_all s Hs) as [Hn Hu].
  split; [exact Hn|]. split; [exact Hu|]. apply (Hdisk Hu).
Defined.
