(* ===== verification/Typing.v ===== *)
(** * What an event of the engine looks like, always

    Module [Typing]: the type invariant of [Event].  Every event on the heap was built by
    [EventFactory::createEvent] from a frame the parser returned; the dispatcher then writes
    its priority and the bus its dequeue time, and nothing else is ever written through an
    [EventPtr].  So in every schedule of the engine the fields of every event fit their types
    and agree with each other.  [heap_step] is what one action does to the heap. *)

From S2P Require Import Prelude Event FrameParser EventFactory IngestSink TopicTable Spsc Mpsc Dlq Metrics EventBus.
From S2P Require Import Dispatcher Pipeline Storage Handlers Output Dedup Processor Transactional Batch Manager Safety Delivery Engine.

Module Typing.

(** ** The type *)

Record well_typed (e : Event) : Prop := {
  t_id : in_word 32 (id (header e));
  t_timestamp : in_word 64 (timestamp (header e));
  t_topic : 0 < Z.of_nat (String.length (topic e)) < 2 ^ 16;
  t_topic_len : topic_len (header e) = Z.of_nat (String.length (topic e));
  t_body : zlen (body e) < 2 ^ 32;
  t_body_len : body_len (header e) = zlen (body e);
  t_crc : crc32 (header e) = EventFactory.calculateCRC32 (body e);
  t_dequeue : in_word 64 (dequeue_time_ns e);
  t_metadata : exists addr, metadata e = {["client_address"%string := addr]}
}.

(** A frame as the parser returns it. *)
Definition parsed (f : FrameParser.ParsedFrame) : Prop :=
  exists mem data len, len < 2 ^ 32 /\ FrameParser.parseFrameBody mem data len = Ret f.

Lemma rd_range_length mem data n bs : rd_range mem data n = Ret bs -> 0 <= n /\ zlen bs = n.
Proof.
  unfold rd_range. destruct (Z.ltb_spec data 0); [done|]. destruct (Z.ltb_spec n 0); [done|].
  destruct (Z.ltb_spec (zlen mem) (data + n)); [done|]. cbn [orb]. intros [= <-]. split; [done|].
  rewrite zlen_take; [done|]. rewrite zlen_drop; lia.
Qed.

Lemma length_string_of_list_byte bs : Z.of_nat (String.length (String.string_of_list_byte bs)) = zlen bs.
Proof. by rewrite <- FrameParser.length_list_byte_of_string, String.list_byte_of_string_of_list_byte. Qed.

Lemma parsed_fits f : parsed f -> FrameParser.encodable (FrameParser.pf_topic f) (FrameParser.pf_payload f).
Proof.
  intros (mem & data & len & Hlen & Hp). unfold FrameParser.parseFrameBody in Hp.
  destruct (Z.ltb_spec len 3); [done|]. apply outcome_bind_ret in Hp as (pv & _ & Hp).
  destruct (_ <? pv); [done|]. apply outcome_bind_ret in Hp as (tl & Htl & Hp).
  destruct (Z.ltb_spec len (3 + tl)); [done|]. destruct (Z.eqb_spec tl 0); [done|].
  apply outcome_bind_ret in Hp as (tb & Htb & Hp). apply outcome_bind_ret in Hp as (pl & Hpl & [= <-]).
  cbn [FrameParser.pf_topic FrameParser.pf_payload]. unfold FrameParser.encodable. rewrite length_string_of_list_byte.
  apply rd_range_length in Htb as [Htl0 ->].
  apply outcome_bind_ret in Htl as (two & Htwo & [= <-]). apply rd_range_length in Htwo as [_ Htwo].
  pose proof (be_val_range two) as Hr. replace (length two) with 2%nat in Hr by (unfold zlen in Htwo; lia).
  change (256 ^ Z.of_nat 2) with (2 ^ 16) in Hr. split; [lia|].
  destruct (Z.ltb_spec (3 + be_val two) len); [|injection Hpl as <-; rewrite zlen_nil; lia].
  apply rd_range_length in Hpl as [_ ->]. lia.
Qed.

(** ** The operations *)

Lemma typed_created counter now src p addr f : parsed f ->
  well_typed (EventFactory.createEvent counter now src p (FrameParser.pf_payload f) (FrameParser.pf_topic f)
    {["client_address"%string := addr]}).1.
Proof.
  intros [Ht Hb]%parsed_fits. pose proof (zlen_nonneg (FrameParser.pf_payload f)). split; cbn -[wrap Z.land]; try done.
  - by apply wrap_range.
  - by apply wrap_range.
  - apply wrap_small. unfold in_word. lia.
  - lia.
  - apply wrap_small. unfold in_word. lia.
  - by eexists.
Qed.

Lemma typed_priority p e : well_typed e -> well_typed (set_priority p e).
Proof. by intros []. Qed.

Lemma typed_stamped ns e : in_word 64 ns -> well_typed e -> well_typed (set_dequeue_time ns e).
Proof. by intros ? []. Qed.

(** What the storage engine needs of an event. *)
Lemma typed_storable e : well_typed e -> StorageEngine.storable e.
Proof.
  intros []. pose proof (zlen_nonneg (body e)). unfold StorageEngine.storable, in_word in *. split_and!; try done; lia.
Qed.

(** ** What an action does to the heap *)

Inductive heap_step : Engine.Action -> Heap -> Heap -> Prop :=
| heap_kept c h : heap_step c h h
| heap_arrival src addr f now counter l h : h !! l = None ->
    heap_step (Engine.Arrive src addr f now) h
      (<[l := (EventFactory.createEvent counter now src (FrameParser.pf_priority f) (FrameParser.pf_payload f)
                 (FrameParser.pf_topic f) {["client_address"%string := addr]}).1]> h)
| heap_priority p l e h : h !! l = Some e -> heap_step Engine.Route h (<[l := set_priority p e]> h)
| heap_stamp q ns l e h : h !! l = Some e -> heap_step (Engine.Take q ns) h (<[l := set_dequeue_time ns e]> h).

(** An action as the servers and the clocks give it. *)
Definition well_formed (c : Engine.Action) : Prop :=
  match c with
  | Engine.Arrive _ _ f _ => parsed f
  | Engine.Take _ ns => in_word 64 ns
  | _ => True
  end.

Definition typed_heap (h : Heap) : Prop := map_Forall (fun _ e => well_typed e) h.

Lemma heap_step_typed c h h' : heap_step c h h' -> well_formed c -> typed_heap h -> typed_heap h'.
Proof.
  intros [c' h0|src addr f now counter l h0 Hl|p l e h0 Hl|q ns l e h0 Hl] Hc Hh; [done|..]; apply map_Forall_insert_2; try done.
  - by apply typed_created.
  - apply typed_priority. by eapply Hh.
  - apply typed_stamped; [done|]. by eapply Hh.
Qed.

(** The event without what the dispatcher and the bus write. *)
Definition unstamped (e : Event) : Event := set_priority LOW (set_dequeue_time 0 e).

(** Every event is still there, but for its priority and its dequeue time. *)
Definition settles (h h' : Heap) : Prop :=
  forall l e, h !! l = Some e -> exists e', h' !! l = Some e' /\ unstamped e' = unstamped e.

Lemma settles_trans h1 h2 h3 : settles h1 h2 -> settles h2 h3 -> settles h1 h3.
Proof. intros H1 H2 l e He. destruct (H1 l e He) as (e2 & H & E). destruct (H2 l e2 H) as (e3 & ? & ?). exists e3. split; congruence. Qed.

Lemma heap_step_settles c h h' : heap_step c h h' -> settles h h'.
Proof.
  intros [c' h0|src addr f now counter l h0 Hl|p l e h0 Hl|q ns l e h0 Hl] k x Hx; [by exists x|..];
    (destruct (decide (k = l)) as [->|]; [|exists x; by rewrite lookup_insert_ne]).
  - congruence.
  - rewrite Hl in Hx. injection Hx as <-. eexists. by rewrite lookup_insert_eq.
  - rewrite Hl in Hx. injection Hx as <-. eexists. by rewrite lookup_insert_eq.
Qed.

Lemma modify_heap f h p h' : modify f h p = Ret h' -> exists l e, h !! l = Some e /\ h' = <[l := f e]> h.
Proof. destruct p as [l|]; cbn; [|done]. destruct (h !! l) as [e|] eqn:E; [|done]. intros [= <-]. by exists l, e. Qed.

Lemma pop_heap q ns b x b' : EventBus.pop q ns (fun b => b) b = Ret (x, b') ->
  heap_step (Engine.Take q ns) (EventBus.heap b) (EventBus.heap b').
Proof.
  assert (Hstamp : forall p w w', EventBus.stamp p ns w = Ret w' ->
    heap_step (Engine.Take q ns) (EventBus.heap w) (EventBus.heap w')).
  { intros p w w' Hs. apply outcome_bind_ret in Hs as (h & Hm & [= <-]).
    apply modify_heap in Hm as (l & e & He & ->). by constructor. }
  assert (Hdq : forall q', EventBus.dequeue q' ns b = Ret (x, b') ->
    heap_step (Engine.Take q ns) (EventBus.heap b) (EventBus.heap b')).
  { intros q'. unfold EventBus.dequeue. destruct (EventBus.dq _) as [|p l]; [intros [= _ <-]; constructor|].
    rewrite outcome_bind_ret. intros (w & Hs & [= _ <-]). apply Hstamp in Hs. by destruct q'. }
  unfold EventBus.pop. destruct q.
  - destruct (Spsc.pop _ _) as [[p|] r]; [|intros [= _ <-]; constructor]. rewrite outcome_bind_ret.
    intros (w & Hs & [= _ <-]). by apply Hstamp in Hs.
  - destruct (EventBus.dq _); intros H; by apply Hdq in H.
  - destruct (EventBus.dq _); intros H; by apply Hdq in H.
Qed.

Section Typing.
Context {S : Type} (reg : Handlers.registry)
  (handle_at : Handlers.EventHandler -> Z -> Event -> outcome Handlers.HandleResult)
  (others : Output.Stream (S := S) -> Output.Stream (S := S))
  (table : option (gmap string EventPriority)).
Context (reg_tame : Safety.tame reg).
Context (handle_at_defined : forall hd k e, Handlers.handle hd e <> UB -> handle_at hd k e <> UB).

Abbreviation exec := (Engine.exec reg handle_at others table).
Abbreviation run := (Engine.run reg handle_at others table).

(** A processor writes no event. *)
Lemma process_heap s q i e : Engine.inv reg s ->
  Engine.heap_of s = EventBus.heap (bw (Engine.process_of reg handle_at others q i e (Engine.world s)).2).
Proof using reg_tame handle_at_defined.
  intros Hi. destruct (Engine.v_bus _ _ Hi) as (a & Hs & Hd).
  destruct (Engine.process_within reg handle_at others reg_tame handle_at_defined q a (Engine.heap_of s) i e (Engine.world s))
    as [_ (_ & Hh & _)]; [|done].
  split; [apply (Engine.v_buckets _ _ Hi)|]. split; [done|]. exists [], (EventBus.a_bt a), (EventBus.a_dropped a).
  rewrite zlen_nil. split_and!; try done; [lia|]. by destruct a.
Qed.

Lemma exec_heap c s s' : Engine.inv reg s -> exec c s = Ret s' -> heap_step c (Engine.heap_of s) (Engine.heap_of s').
Proof using reg_tame handle_at_defined.
  intros Hi. destruct (Engine.v_bus _ _ Hi) as (a & Hs & Hd).
  destruct c as [src addr f now| |ns ms| |q ns|q i|c]; cbn [Engine.exec].
  - unfold Pipeline.offer, Dispatcher.tryPush. cbn [EventFactory.createEvent].
    destruct (Mpsc.push _ _ _) as [ok l]. intros [= <-]. apply heap_arrival, not_elem_of_dom, is_fresh.
  - destruct (Engine.held s); [intros [= <-]; constructor|]. unfold Dispatcher.tryPop, Engine.dispatcher_of.
    cbn [Dispatcher.inbound_queue_ Dispatcher.world Dispatcher.topic_table_].
    destruct (Mpsc.pop _) as [[[l|]|] rest]; [|intros [= <-]; constructor..]. rewrite outcome_bind_ret. intros ([q b] & Hr & [= <-]).
    destruct (EventBus.heap (bw (Engine.world s)) !! l) as [e|] eqn:He; [|by unfold Dispatcher.route in Hr; cbn in Hr; rewrite He in Hr].
    rewrite (Dispatcher.route_live table l e _ He) in Hr. injection Hr as _ <-. by apply heap_priority.
  - destruct (Engine.held s) as [[[p q] n]|] eqn:Hh; [|intros [= <-]; constructor].
    destruct (n <? _)%nat; [|intros [= <-]; constructor]. rewrite outcome_bind_ret. intros ([ok b] & Hp & [= <-]).
    assert (Hl : live (Engine.heap_of s) p) by (by eapply Engine.place_live, Engine.held_place).
    destruct (EventBus.push_sim q p ns ms _ a Hs Hl) as (ok' & b' & Hp' & Hheap & _). rewrite Hp' in Hp. injection Hp as <- <-.
    destruct ok'; unfold Engine.heap_of; cbn; rewrite Hheap; constructor.
  - destruct (Engine.held s) as [[[p q] n]|]; [|intros [= <-]; constructor]. destruct (n <? _)%nat; [intros [= <-]; constructor|].
    rewrite outcome_bind_ret. intros (b & Hb & [= <-]). apply outcome_bind_ret in Hb as (e & _ & [= <-]). constructor.
  - destruct (Engine.hand s q); [intros [= <-]; constructor|]. rewrite outcome_bind_ret. intros ([x b] & Hp & [= <-]).
    by apply pop_heap in Hp.
  - destruct (Engine.hand s q); [|intros [= <-]; constructor]. rewrite outcome_bind_ret. intros (e & _ & Hw).
    pose proof (process_heap s q i e Hi) as Hh.
    destruct (Engine.process_of reg handle_at others q i e (Engine.world s)) as [res w'].
    assert (Hs' : Engine.world s' = w') by (destruct res; [..|done]; by injection Hw as <-).
    cbn [snd] in Hh. unfold Engine.heap_of at 2. rewrite Hs', <- Hh. constructor.
  - intros [= <-]. replace (Engine.heap_of (Engine.mkState _ _ _ _ _ _ _ _ _)) with (Engine.heap_of s) by (by destruct c). constructor.
Qed.


End Typing.
End Typing.

(** ** A concrete schedule *)

(** The frames of [EngineRun] are frames the parser returns. *)
Lemma sample_frames_parsed p t :
  List.In (p, t) [(CRITICAL, "x"); (MEDIUM, "payment"); (BATCH, "y")]%string -> Typing.parsed (EngineRun.frame p t).
Proof.
  intros Hin. exists (FrameParser.encode_body p t [Byte.x05; Byte.x00; Byte.x00; Byte.x00]), 0,
    (zlen (FrameParser.encode_body p t [Byte.x05; Byte.x00; Byte.x00; Byte.x00])).
  repeat (destruct Hin as [[= <- <-]|Hin]; [split; [reflexivity|vm_compute; reflexivity]|]). destruct Hin.
Qed.

