(* ===== verification/Shutdown.v ===== *)
(** * The engine stopped

    Module [Shutdown]: the schedules of [Engine.v] with the threads' ends: the dispatcher
    and the three processor loops leave when they read their flag as false - the dispatcher
    with nothing in its hand, a loop between two turns - and a loop that leaves calls its
    processor's [stop].  They may leave in any order and at any time, the others going on.
    The theorems keep books of every event: [Account] says for each one the processors were
    given whether it is in the log, in a bucket, refused or a repetition, and the log is the
    records of exactly the first, in the order they were written. *)

From S2P Require Import Prelude Event FrameParser EventFactory IngestSink TopicTable Spsc Mpsc Dlq Metrics EventBus.
From S2P Require Import Dispatcher Pipeline Storage Handlers Output Dedup Processor Transactional Batch Manager.
From S2P Require Import Safety Ledger Delivery Engine Typing.

Module Shutdown.
#[local] Existing Instance EventBus.QueueId_eq_dec.

Section Shutdown.
Context {S : Type} (reg : Handlers.registry)
  (handle_at : Handlers.EventHandler -> Z -> Event -> outcome Handlers.HandleResult)
  (others : Output.Stream (S := S) -> Output.Stream (S := S))
  (table : option (gmap string EventPriority)).

#[local] Opaque Engine.waiting.

(** ** State *)

Record State := mkState {
  eng : Engine.State (S := S);
  stopped : EventBus.QueueId -> bool;   (* the loops that have left *)
  dispatching : bool                    (* the dispatch loop has not left *)
}.

Inductive Action :=
| Run (c : Engine.Action)
| StopLoop (q : EventBus.QueueId) (i : string -> Inputs) (walk : gmap string TopicBucket -> list string)
| StopDispatcher.

Definition stop_of (q : EventBus.QueueId) (i : string -> Inputs) (walk : gmap string TopicBucket -> list string) : M S unit :=
  match q with
  | EventBus.REALTIME => Realtime.stop
  | EventBus.TRANSACTIONAL => Transactional.stop
  | EventBus.BATCHQ => Batch.stop reg others i walk
  end.

Definition with_world (w : PWorld S) (s : Engine.State (S := S)) : Engine.State (S := S) :=
  Engine.mkState w (Engine.inbound s) (Engine.next_id s) (Engine.held s) (Engine.hand s) (Engine.admitted s)
    (Engine.entered s) (Engine.given s) (Engine.dead s).

(** A thread that has left takes nothing more. *)
Definition gone (c : Engine.Action) (s : State) : bool :=
  match c with
  | Engine.Take q _ => stopped s q
  | Engine.Route => negb (dispatching s)
  | _ => false
  end.

(** [stop] is called outside the [try] of the loop. *)
Definition exec (c : Action) (s : State) : outcome State :=
  match c with
  | Run c =>
      if gone c s then Ret s else
      e ← Engine.exec reg handle_at others table c (eng s); Ret (mkState e (stopped s) (dispatching s))
  | StopLoop q i walk =>
      match stopped s q, Engine.hand (eng s) q with
      | false, None =>
          match stop_of q i walk (Engine.world (eng s)) with
          | (Ret _, w) => Ret (mkState (with_world w (eng s)) (<[q := true]> (stopped s)) (dispatching s))
          | (Throw what, _) => Throw what
          | (UB, _) => UB
          end
      | _, _ => Ret s
      end
  | StopDispatcher =>
      match Engine.held (eng s) with
      | None => Ret (mkState (eng s) (stopped s) false)
      | Some _ => Ret s
      end
  end.

Fixpoint run (cs : list Action) (s : State) : outcome State :=
  match cs with [] => Ret s | c :: cs' => s ← exec c s; run cs' s end.

Definition launched (w : PWorld S) (id : Z) : State := mkState (Engine.start w id) (fun _ => false) true.

(** ** The account of every event given to a processor *)

Record Account := mkAccount {
  journal : list (EventBus.QueueId * EventPtr);      (* in the log, in the order written, with the queue it came by *)
  refused : EventBus.QueueId -> list EventPtr;       (* counted as dropped *)
  repeated : list EventPtr;                          (* of an id the transactional processor had committed *)
  pending : list EventPtr;                           (* in a bucket *)
  rejected : list EventPtr                           (* refused by the handler when its bucket was flushed *)
}.

Definition journal_of (q : EventBus.QueueId) (l : list (EventBus.QueueId * EventPtr)) : list EventPtr :=
  omap (fun x => if decide (x.1 = q) then Some x.2 else None) l.

Definition recorded (h : Heap) (p : EventPtr) (e : Event) : Prop :=
  exists e0, deref h p = Ret e0 /\ StorageEngine.stored_of e0 = StorageEngine.stored_of e.

(** The id of a committed event. *)
Definition committed (h : Heap) (a : Account) (k : Z) : Prop :=
  exists p e, p ∈ journal_of EventBus.TRANSACTIONAL (journal a) /\ deref h p = Ret e /\ id (header e) = k.

Definition repeats (h : Heap) (a : Account) (p : EventPtr) : Prop :=
  exists e, deref h p = Ret e /\ committed h a (id (header e)).

Definition all_stopped (s : State) : Prop := forall q, stopped s q = true.

(** What became of the events given to the processor of a queue. *)
Definition accounted (q : EventBus.QueueId) (a : Account) : list EventPtr :=
  journal_of q (journal a) ++ refused a q ++
  match q with
  | EventBus.REALTIME => []
  | EventBus.TRANSACTIONAL => repeated a
  | EventBus.BATCHQ => pending a ++ rejected a
  end.

Record books (old : list byte) (s : State) (a : Account) : Prop := {
  b_inv : Engine.inv reg (eng s);
  b_typed : Typing.typed_heap (Engine.heap_of (eng s));
  b_log : exists L B,
    Ledger.batch_books reg old L B (wrap 64 (zlen (refused a EventBus.BATCHQ))) (Engine.world (eng s)) /\
    Forall2 (recorded (Engine.heap_of (eng s))) (map snd (journal a)) L /\
    Forall2 (recorded (Engine.heap_of (eng s))) (pending a) B /\
    (all_stopped s -> exists st, storage_ (Engine.world (eng s)) = Some st /\
       StorageEngine.on_disk (StorageEngine.storageFile st) = old ++ StorageEngine.log_bytes L);
  b_quiet : Realtime.quiet (Engine.world (eng s));
  b_rt : dropped Realtime.name (Engine.world (eng s)) = wrap 64 (zlen (refused a EventBus.REALTIME));
  b_tx : dropped Transactional.name (Engine.world (eng s)) = wrap 64 (zlen (refused a EventBus.TRANSACTIONAL));
  b_ids : Ledger.remembers (Engine.world (eng s)) (committed (Engine.heap_of (eng s)) a);
  b_given : forall q, Engine.given (eng s) q ≡ₚ accounted q a;
  b_order : forall q, q <> EventBus.BATCHQ -> sublist (journal_of q (journal a)) (Engine.given (eng s) q);
  b_repeated : Forall (repeats (Engine.heap_of (eng s)) a) (repeated a);
  b_hand : forall q, stopped s q = true -> Engine.hand (eng s) q = None;
  b_pending : stopped s EventBus.BATCHQ = true -> pending a = []
}.

(** ** What a call leaves of the books *)

(** The counters of the bus are not those of a processor. *)
Definition counter (n : string) (b : EventBus.World) : option Metrics :=
  MetricRegistry.metrics_map_ (EventBus.metrics b) !! n.

Section Counters.
Context (n : string) (other : n <> MetricNames.EVENTBUS).

Lemma counter_metric f b : counter n (EventBus.metric f b) = counter n b.
Proof using other. unfold counter. cbn. by rewrite MetricRegistry.update_metrics_other. Qed.

Lemma counter_touch ns ms b : counter n (EventBus.touch_timestamp ns ms b) = counter n b.
Proof using other.
  unfold counter, EventBus.touch_timestamp, MetricRegistry.updateEventTimestamp.
  destruct (_ && _); cbn; [done|]. case_match; cbn; [|done]. by rewrite lookup_insert_ne.
Qed.

Lemma counter_with_bus x b : counter n (EventBus.with_bus x b) = counter n b.
Proof. done. Qed.
Lemma counter_with_heap h b : counter n (EventBus.with_heap h b) = counter n b.
Proof. done. Qed.

Lemma counter_dead p b b' : EventBus.dead_letter p b = Ret b' -> counter n b' = counter n b.
Proof. by intros (e & _ & [= <-])%outcome_bind_ret. Qed.

Lemma counter_stamp p ns b b' : EventBus.stamp p ns b = Ret b' -> counter n b' = counter n b.
Proof. by intros (e & _ & [= <-])%outcome_bind_ret. Qed.

(** Follow a body of the bus that returned. *)
Ltac solve_counter :=
  repeat first
    [ progress intros
    | match goal with
      | H : Ret _ = Ret _ |- _ => injection H; clear H; intros; subst
      | H : Throw _ = Ret _ |- _ => discriminate H
      | H : UB = Ret _ |- _ => discriminate H
      | H : EventBus.dead_letter _ _ = Ret _ |- _ => apply counter_dead in H
      | H : EventBus.stamp _ _ _ = Ret _ |- _ => apply counter_stamp in H
      | H : context [match ?x with _ => _ end] |- _ => destruct x eqn:?
      | H : (_ ≫= _) = Ret _ |- _ => apply outcome_bind_ret in H as (? & ? & ?)
      end
    | progress (unfold EventBus.set_ring, EventBus.set_pressure, EventBus.set_dlq, EventBus.set_dq, EventBus.setQueue in * )
    | progress (rewrite ?counter_metric, ?counter_touch, ?counter_with_bus, ?counter_with_heap in * )
    | congruence ].

Lemma counter_push_realtime p ns ms b ok b' : EventBus.push_realtime p ns ms b = Ret (ok, b') -> counter n b' = counter n b.
Proof using other. unfold EventBus.push_realtime. cbv zeta. solve_counter. Qed.

Lemma counter_push q p ns ms b ok b' : EventBus.push q p ns ms (fun b => b) b = Ret (ok, b') -> counter n b' = counter n b.
Proof using other.
  unfold EventBus.push. cbv zeta. destruct q; [intros H%counter_push_realtime; by rewrite counter_metric in H|..];
    unfold EventBus.enqueue; cbv zeta; solve_counter.
Qed.

Lemma counter_pop q ns b x b' : EventBus.pop q ns (fun b => b) b = Ret (x, b') -> counter n b' = counter n b.
Proof using other. unfold EventBus.pop, EventBus.dequeue. cbv zeta. destruct q; solve_counter. Qed.

End Counters.

(** A change of the world outside the books. *)
Record calm (w w' : PWorld S) : Prop := {
  c_storage : storage_ w' = storage_ w;
  c_rt : rt w' = rt w;
  c_ids : dedup_table_ (txn w') = dedup_table_ (txn w);
  c_cleanup : last_cleanup_ms_ (txn w') = last_cleanup_ms_ (txn w);
  c_buckets : buckets_ (batch w') = buckets_ (batch w);
  c_counters : forall n, n <> MetricNames.EVENTBUS -> dropped n w' = dropped n w
}.

(** Whatever changes the bus alone and none of the counters of others. *)
Lemma calm_bus b w : (forall n, n <> MetricNames.EVENTBUS -> counter n b = counter n (bw w)) -> calm w (with_bw b w).
Proof.
  intros H. split; try done. intros n Hn. unfold dropped, metrics_of. specialize (H n Hn). unfold counter in H. cbn. by rewrite H.
Qed.

Lemma recorded_settles h h' p e : Typing.settles h h' -> recorded h p e -> recorded h' p e.
Proof.
  intros Hs (e0 & Hd & He). destruct p as [l|]; cbn in Hd; [|done]. destruct (h !! l) as [x|] eqn:E; [|done]. injection Hd as ->.
  destruct (Hs l e0 E) as (e1 & H1 & Hu). exists e1. cbn. rewrite H1. split; [done|]. rewrite <- He.
  apply (f_equal StorageEngine.stored_of) in Hu. exact Hu.
Qed.

Lemma committed_settles h h' a a' k : Typing.settles h h' ->
  (forall p, p ∈ journal_of EventBus.TRANSACTIONAL (journal a) -> p ∈ journal_of EventBus.TRANSACTIONAL (journal a')) ->
  committed h a k -> committed h' a' k.
Proof.
  intros Hs Hj (p & e & Hp & Hd & Hk). destruct p as [l|]; cbn in Hd; [|done]. destruct (h !! l) as [x|] eqn:E; [|done].
  injection Hd as ->. destruct (Hs l e E) as (e1 & H1 & Hu). exists (Some l), e1. split; [by apply Hj|]. cbn. rewrite H1. split; [done|].
  rewrite <- Hk. exact (f_equal (fun e => id (header e)) Hu).
Qed.

Lemma repeats_settles h h' a a' p : Typing.settles h h' ->
  (forall p, p ∈ journal_of EventBus.TRANSACTIONAL (journal a) -> p ∈ journal_of EventBus.TRANSACTIONAL (journal a')) ->
  repeats h a p -> repeats h' a' p.
Proof.
  intros Hs Hj (e & Hd & Hc). destruct p as [l|]; cbn in Hd; [|done]. destruct (h !! l) as [x|] eqn:E; [|done].
  injection Hd as ->. destruct (Hs l e E) as (e1 & H1 & Hu). exists e1. cbn. rewrite H1. split; [done|].
  replace (id (header e1)) with (id (header e)) by (symmetry; exact (f_equal (fun e => id (header e)) Hu)).
  by eapply committed_settles.
Qed.

Lemma settles_refl h : Typing.settles h h.
Proof. intros l e He. by exists e. Qed.

Lemma batch_books_calm old L B d w w' : calm w w' -> Ledger.batch_books reg old L B d w -> Ledger.batch_books reg old L B d w'.
Proof.
  intros [H1 _ _ _ H4 H5] (Hl & Hb & Hs & Hd). split; [by eapply Ledger.logged_storage|].
  unfold Ledger.bucketed, Ledger.sorted_buckets, Batch.bucket_of in *. rewrite H4, H5 by done. done.
Qed.

(** An action that gives nothing to a processor. *)
Lemma books_calm old s s' a :
  books old s a -> Engine.inv reg (eng s') -> Typing.typed_heap (Engine.heap_of (eng s')) ->
  calm (Engine.world (eng s)) (Engine.world (eng s')) -> Typing.settles (Engine.heap_of (eng s)) (Engine.heap_of (eng s')) ->
  Engine.given (eng s') = Engine.given (eng s) -> stopped s' = stopped s ->
  (forall q, stopped s q = true -> Engine.hand (eng s') q = None) -> books old s' a.
Proof.
  intros [Hi Ht (L & B & Hb & HL & HB & Hdisk) Hq Hrt Htx Hids Hgiven Ho Hrep Hh Hp] Hi' Ht' Hc Hs Hg Hst Hh'.
  split; rewrite ?Hg, ?Hst; try done.
  - exists L, B. split; [by eapply batch_books_calm|]. split; [|split].
    + eapply Forall2_impl; [done|]. intros p e. by apply recorded_settles.
    + eapply Forall2_impl; [done|]. intros p e. by apply recorded_settles.
    + unfold all_stopped. rewrite Hst, (c_storage _ _ Hc). done.
  - unfold Realtime.quiet. rewrite (c_rt _ _ Hc). intros h al seen. apply Hq.
  - by rewrite (c_counters _ _ Hc).
  - by rewrite (c_counters _ _ Hc).
  - destruct Hids as (m & Hm & Hk). exists m. rewrite (c_ids _ _ Hc). split; [done|]. intros k Hin.
    eapply committed_settles; [done|done|by apply Hk].
  - eapply Forall_impl; [done|]. intros p. by apply repeats_settles.
Qed.

Lemma calm_same w : calm w w.
Proof. by split. Qed.

Definition gives (c : Engine.Action) : bool := match c with Engine.Work _ _ => true | _ => false end.
Definition takes (q : EventBus.QueueId) (c : Engine.Action) : bool :=
  match c with Engine.Take q' _ => bool_decide (q' = q) | _ => false end.

Lemma exec_calm c e e' : gives c = false -> Engine.exec reg handle_at others table c e = Ret e' ->
  calm (Engine.world e) (Engine.world e') /\ Engine.given e' = Engine.given e /\
  forall q, takes q c = false -> Engine.hand e q = None -> Engine.hand e' q = None.
Proof.
  intros Hg. destruct c as [src addr f now| |ns ms| |q ns|q i|c]; [..|done|]; cbn [Engine.exec]; clear Hg.
  - unfold Pipeline.offer, Dispatcher.tryPush. cbn [EventFactory.createEvent].
    destruct (Mpsc.push _ _ _) as [ok l]. intros [= <-]. split; [|done]. by apply calm_bus.
  - destruct (Engine.held e); [intros [= <-]; split; [apply calm_same|done]|].
    destruct (Dispatcher.tryPop _) as [[[l|]|] d]; [|intros [= <-]; split; [apply calm_same|done]..].
    rewrite outcome_bind_ret. intros ([q b] & Hr & [= <-]). split; [|done]. apply calm_bus. intros n Hn.
    destruct (EventBus.heap (bw (Engine.world e)) !! l) as [x|] eqn:Hx; [|by unfold Dispatcher.route in Hr; cbn in Hr; rewrite Hx in Hr].
    rewrite (Dispatcher.route_live table l x _ Hx) in Hr. by injection Hr as _ <-.
  - destruct (Engine.held e) as [[[p q] n]|]; [|intros [= <-]; split; [apply calm_same|done]].
    destruct (n <? _)%nat; [|intros [= <-]; split; [apply calm_same|done]]. rewrite outcome_bind_ret.
    intros ([ok b] & Hp & [= <-]). assert (Hc : calm (Engine.world e) (with_bw b (Engine.world e))).
    { apply calm_bus. intros n' Hn. by eapply counter_push. }
    by destruct ok.
  - destruct (Engine.held e) as [[[p q] n]|]; [|intros [= <-]; split; [apply calm_same|done]].
    destruct (n <? _)%nat; [intros [= <-]; split; [apply calm_same|done]|]. rewrite outcome_bind_ret.
    intros (b & Hb & [= <-]). split; [|done]. apply calm_bus. intros n' Hn. by eapply counter_dead.
  - destruct (Engine.hand e q) eqn:Hh; [intros [= <-]; split; [apply calm_same|done]|]. rewrite outcome_bind_ret.
    intros ([x b] & Hp & [= <-]). split; [apply calm_bus; intros n' Hn; by eapply counter_pop|]. split; [done|].
    intros q' Hq. cbn in Hq. apply bool_decide_eq_false in Hq. cbn. by rewrite fn_lookup_insert_ne.
  - intros [= <-]. split; [by destruct c|done].
Qed.

(** ** Journals *)

Lemma journal_of_app q l k : journal_of q (l ++ k) = journal_of q l ++ journal_of q k.
Proof. apply omap_app. Qed.

Lemma journal_of_same q ps : journal_of q (map (pair q) ps) = ps.
Proof. induction ps as [|p ps IH]; [done|]. unfold journal_of in *. cbn. rewrite decide_True by done. by rewrite IH. Qed.

Lemma journal_of_other q q' ps : q <> q' -> journal_of q (map (pair q') ps) = [].
Proof. intros Hq. induction ps as [|p ps IH]; [done|]. unfold journal_of in *. cbn. by rewrite decide_False. Qed.

Lemma journal_split l :
  map snd l ≡ₚ journal_of EventBus.REALTIME l ++ journal_of EventBus.TRANSACTIONAL l ++ journal_of EventBus.BATCHQ l.
Proof.
  induction l as [|[q p] l IH]; [done|]. cbn [map snd].
  change ((q, p) :: l) with ([(q, p)] ++ l). rewrite !journal_of_app, IH. change [(q, p)] with (map (pair q) [p]).
  destruct q; rewrite journal_of_same, ?journal_of_other by done; cbn [app]; solve_Permutation.
Qed.

Lemma map_snd_pair (q : EventBus.QueueId) (ps : list EventPtr) : map snd (map (pair q) ps) = ps.
Proof. rewrite map_map. apply map_id. Qed.

(** The events of a list that meet a condition, and the pointers to them. *)
Lemma Forall2_kept {A B} (R : A -> B -> Prop) (f : B -> bool) ps es : Forall2 R ps es ->
  exists kept left, ps ≡ₚ kept ++ left /\ Forall2 R kept (List.filter f es).
Proof.
  induction 1 as [|p e ps es Hpe _ (kept & left & Hp & Hk)]; [by exists [], []|]. cbn [List.filter]. destruct (f e).
  - exists (p :: kept), left. split; [by rewrite Hp|by constructor].
  - exists kept, (p :: left). split; [|done]. rewrite Hp. solve_Permutation.
Qed.

(** The pointers follow the events. *)
Lemma Forall2_rearrange {A B} (R : A -> B -> Prop) ps es fl rest : Forall2 R ps es -> es ≡ₚ fl ++ rest ->
  exists pf pr, ps ≡ₚ pf ++ pr /\ Forall2 R pf fl /\ Forall2 R pr rest.
Proof.
  intros HR Hp. apply Forall2_flip in HR. destruct (Permutation_Forall2 Hp HR) as (ps' & Hps & HR').
  apply Forall2_app_inv_l in HR' as (pf & pr & H1 & H2 & ->). exists pf, pr. split; [done|].
  by split; apply Forall2_flip.
Qed.
(** ** A call of a processor *)

Context (reg_answers : Ledger.answering reg).
Context (attempts_answer : forall hd k e hr, Handlers.handle hd e = Ret hr -> exists hr', handle_at hd k e = Ret hr').
Context (handle_at_defined : forall hd k e, Handlers.handle hd e <> UB -> handle_at hd k e <> UB).

(** Handlers that answer are defined. *)
Lemma answering_tame : Safety.tame reg.
Proof using reg_answers.
  intros topic e. destruct (reg_answers topic e) as (v & Hv & Hok). split; [by rewrite Hv|]. intros v' Hv' Hvalid.
  rewrite Hv in Hv'. injection Hv' as <-. destruct (Hok Hvalid) as [(r & ->) (hr & ->)]. done.
Qed.

(** The state once the processor has returned in the world [w']. *)
Definition worked (q : EventBus.QueueId) (p : EventPtr) (w' : PWorld S) (s : State) : State :=
  let e := eng s in
  mkState (Engine.mkState w' (Engine.inbound e) (Engine.next_id e) (Engine.held e) (<[q := None]> (Engine.hand e))
             (Engine.admitted e) (Engine.entered e) (<[q := Engine.given e q ++ [p]]> (Engine.given e))
             (Engine.dead e ++ Engine.lost 0 (Engine.waiting EventBus.BATCHQ (bw (Engine.world e)))
                                (Engine.waiting EventBus.BATCHQ (bw w')))) (stopped s) (dispatching s).

(** What follows from the call having returned. *)
Record resumed (q : EventBus.QueueId) (p : EventPtr) (w' : PWorld S) (s : State) : Prop := {
  r_inv : Engine.inv reg (eng (worked q p w' s));
  r_heap : EventBus.heap (bw w') = Engine.heap_of (eng s);
  r_hand : forall q', stopped s q' = true -> Engine.hand (eng (worked q p w' s)) q' = None;
  r_running : ~ all_stopped s
}.

Lemma work_resumes old q i p e w' s a :
  books old s a -> Engine.hand (eng s) q = Some p -> deref (Engine.heap_of (eng s)) p = Ret e ->
  Engine.process_of reg handle_at others q i e (Engine.world (eng s)) = (Ret tt, w') ->
  exec (Run (Engine.Work q i)) s = Ret (worked q p w' s) /\ resumed q p w' s.
Proof using reg_answers handle_at_defined.
  intros Hbk Hh He Hw. pose proof (b_inv _ _ _ Hbk) as Hi.
  assert (Hx : Engine.exec reg handle_at others table (Engine.Work q i) (eng s) = Ret (eng (worked q p w' s))).
  { cbn [Engine.exec]. rewrite Hh. unfold Engine.heap_of in He. rewrite He. cbn [mbind outcome_bind]. by rewrite Hw. }
  split; [cbn [exec gone]; by rewrite Hx|].
  destruct (Engine.exec_inv reg handle_at others table answering_tame handle_at_defined (Engine.Work q i) (eng s) Hi) as (e' & He' & Hi').
  rewrite Hx in He'. injection He' as <-.
  pose proof (Typing.process_heap reg handle_at others answering_tame handle_at_defined (eng s) q i e Hi) as Hheap.
  rewrite Hw in Hheap. cbn [snd] in Hheap.
  assert (Hst : stopped s q = false).
  { destruct (stopped s q) eqn:Hst; [|done]. apply (b_hand _ _ _ Hbk) in Hst. congruence. }
  split; [done|by rewrite Hheap| |by intros Hall; rewrite (Hall q) in Hst].
  intros q' Hq'. cbn. destruct (decide (q' = q)) as [->|Hne]; [congruence|].
  rewrite fn_lookup_insert_ne by done. by apply (b_hand _ _ _ Hbk).
Qed.

Lemma given_worked q p w' s : Engine.given (eng (worked q p w' s)) q = Engine.given (eng s) q ++ [p].
Proof. cbn. by rewrite fn_lookup_insert. Qed.
Lemma given_worked_ne q q' p w' s : q' <> q -> Engine.given (eng (worked q p w' s)) q' = Engine.given (eng s) q'.
Proof. intros Hq. cbn. by rewrite fn_lookup_insert_ne. Qed.

(** The log has grown, the buckets are as they were. *)
Lemma batch_books_log old L L' B d (w w' : PWorld S) :
  Ledger.batch_books reg old L B d w -> Ledger.logged old L' w' -> batch w' = batch w ->
  metrics_of Batch.name w' = metrics_of Batch.name w -> Ledger.batch_books reg old L' B d w'.
Proof.
  intros (_ & Hb & Hs & Hd) Hl Hbt Hd'. split; [done|]. unfold Ledger.bucketed, Ledger.sorted_buckets, Batch.bucket_of in *.
  by rewrite Hbt, (Ledger.dropped_of _ _ _ Hd').
Qed.

Lemma wrap_snoc (ps : list EventPtr) (p : EventPtr) : add64 (wrap 64 (zlen ps)) 1 = wrap 64 (zlen (ps ++ [p])).
Proof. unfold add64. by rewrite wrap_add_l, zlen_app, zlen_cons, zlen_nil. Qed.

(** The books after a call, from what the call wrote. *)
Lemma books_worked old q p w' s a a' L B ps :
  books old s a -> resumed q p w' s ->
  Ledger.batch_books reg old L B (wrap 64 (zlen (refused a' EventBus.BATCHQ))) w' ->
  Forall2 (recorded (Engine.heap_of (eng s))) (map snd (journal a')) L ->
  Forall2 (recorded (Engine.heap_of (eng s))) (pending a') B ->
  rt w' = rt (Engine.world (eng s)) ->
  dropped Realtime.name w' = wrap 64 (zlen (refused a' EventBus.REALTIME)) ->
  dropped Transactional.name w' = wrap 64 (zlen (refused a' EventBus.TRANSACTIONAL)) ->
  Ledger.remembers w' (committed (Engine.heap_of (eng s)) a') ->
  (forall q', accounted q' a' ≡ₚ accounted q' a ++ (if decide (q' = q) then [p] else [])) ->
  journal a' = journal a ++ map (pair q) ps -> (q <> EventBus.BATCHQ -> sublist ps [p]) ->
  Forall (repeats (Engine.heap_of (eng s)) a') (repeated a') ->
  (stopped s EventBus.BATCHQ = true -> pending a' = []) ->
  books old (worked q p w' s) a'.
Proof.
  intros Hbk [Hi Hheap Hhand Hrun] Hb HL HB Hrt Hd1 Hd2 Hids Hacc Hj Hps Hrep Hp.
  destruct Hbk as [_ Ht _ Hq _ _ _ Hg Ho _ _ _]. set (s' := worked _ _ _ _) in *.
  assert (Hh : Engine.heap_of (eng s') = Engine.heap_of (eng s)) by done.
  split; rewrite ?Hh; try done.
  - exists L, B. by split_and!.
  - unfold Realtime.quiet. cbn [eng Engine.world s' worked]. rewrite Hrt. exact Hq.
  - intros q'. rewrite Hacc. destruct (decide (q' = q)) as [->|Hne].
    + unfold s'. by rewrite given_worked, Hg.
    + unfold s'. by rewrite given_worked_ne, Hg, app_nil_r by done.
  - intros q' Hq'. rewrite Hj, journal_of_app. destruct (decide (q' = q)) as [->|Hne].
    + unfold s'. rewrite given_worked, journal_of_same. apply sublist_app; [by apply Ho|by apply Hps].
    + unfold s'. rewrite given_worked_ne, journal_of_other, app_nil_r by done. by apply Ho.
Qed.

Definition refuse (q : EventBus.QueueId) (p : EventPtr) (a : Account) : Account :=
  mkAccount (journal a) (<[q := refused a q ++ [p]]> (refused a)) (repeated a) (pending a) (rejected a).
Definition record (q : EventBus.QueueId) (ps : list EventPtr) (a : Account) : Account :=
  mkAccount (journal a ++ map (pair q) ps) (refused a) (repeated a) (pending a) (rejected a).
Definition repeat (p : EventPtr) (a : Account) : Account :=
  mkAccount (journal a) (refused a) (repeated a ++ [p]) (pending a) (rejected a).

Lemma journal_record_in q ps a p : p ∈ journal_of EventBus.TRANSACTIONAL (journal a) ->
  p ∈ journal_of EventBus.TRANSACTIONAL (journal (record q ps a)).
Proof. cbn [journal record]. rewrite journal_of_app, elem_of_app. by left. Qed.

Lemma committed_more h a a' k :
  (forall p, p ∈ journal_of EventBus.TRANSACTIONAL (journal a) -> p ∈ journal_of EventBus.TRANSACTIONAL (journal a')) ->
  committed h a k -> committed h a' k.
Proof. intros H. by apply committed_settles; [apply settles_refl|]. Qed.

Lemma repeats_more h a a' :
  (forall p, p ∈ journal_of EventBus.TRANSACTIONAL (journal a) -> p ∈ journal_of EventBus.TRANSACTIONAL (journal a')) ->
  Forall (repeats h a) (repeated a) -> Forall (repeats h a') (repeated a).
Proof. intros H Hr. eapply Forall_impl; [done|]. intros p. apply repeats_settles; [apply settles_refl|done]. Qed.

Lemma accounted_refuse q p a q' :
  accounted q' (refuse q p a) ≡ₚ accounted q' a ++ (if decide (q' = q) then [p] else []).
Proof.
  unfold accounted. cbn [journal refused repeated pending rejected refuse]. destruct (decide (q' = q)) as [->|Hne].
  - rewrite fn_lookup_insert. solve_Permutation.
  - by rewrite fn_lookup_insert_ne, app_nil_r.
Qed.

Lemma accounted_record q p a q' :
  accounted q' (record q [p] a) ≡ₚ accounted q' a ++ (if decide (q' = q) then [p] else []).
Proof.
  unfold accounted. cbn [journal refused repeated pending rejected record]. rewrite journal_of_app. destruct (decide (q' = q)) as [->|Hne].
  - rewrite journal_of_same. solve_Permutation.
  - by rewrite journal_of_other, !app_nil_r by done.
Qed.

Lemma refused_insert q p a q' : refused (refuse q p a) q' = (if decide (q' = q) then refused a q ++ [p] else refused a q').
Proof. cbn. destruct (decide (q' = q)) as [->|]; [by rewrite fn_lookup_insert|by rewrite fn_lookup_insert_ne]. Qed.

Lemma realtime_books old i p e s a :
  books old s a -> Engine.hand (eng s) EventBus.REALTIME = Some p -> deref (Engine.heap_of (eng s)) p = Ret e ->
  Ledger.accepting i -> exists s' a', exec (Run (Engine.Work EventBus.REALTIME i)) s = Ret s' /\ books old s' a'.
Proof using reg_answers handle_at_defined.
  intros Hbk Hh He Ha. destruct (b_log _ _ _ Hbk) as (L & B & Hb & HL & HB & _).
  destruct (Ledger.realtime_effect reg others reg_answers old L i e (Engine.world (eng s)) (proj1 Hb) (b_quiet _ _ _ Hbk) Ha)
    as (w' & kept & Hw & Hl & Hd & Hrt & Htx & Hbt & Hap).
  destruct (work_resumes old EventBus.REALTIME i p e w' s a Hbk Hh He Hw) as [Hx Hres].
  exists (worked EventBus.REALTIME p w' s), (if kept then record EventBus.REALTIME [p] a else refuse EventBus.REALTIME p a).
  split; [done|].
  assert (Hids : Ledger.remembers w' (committed (Engine.heap_of (eng s)) a)).
  { destruct (b_ids _ _ _ Hbk) as (m & Hm & Hk). exists m. by rewrite Htx. }
  pose proof (b_rt _ _ _ Hbk) as Hr1. pose proof (b_tx _ _ _ Hbk) as Hr2.
  rewrite <- (Ledger.dropped_of _ _ _ (Hap Transactional.name ltac:(done))) in Hr2.
  eapply batch_books_log in Hb; [|exact Hl|exact Hbt|by apply Hap].
  destruct kept.
  - apply (books_worked old EventBus.REALTIME p w' s a _ (L ++ [e]) B [p]); try done.
    + cbn [journal record]. rewrite map_app, map_snd_pair. apply Forall2_app; [done|]. constructor; [by exists e|done].
    + by rewrite Hd.
    + eapply Ledger.remembers_weaken; [|exact Hids]. intros k. apply committed_more, journal_record_in.
    + apply accounted_record.
    + apply (repeats_more _ a); [apply journal_record_in|apply (b_repeated _ _ _ Hbk)].
    + apply (b_pending _ _ _ Hbk).
  - apply (books_worked old EventBus.REALTIME p w' s a _ L B []); try done.
    + rewrite Hd, Hr1, refused_insert, decide_True by done. apply wrap_snoc.
    + apply accounted_refuse.
    + by rewrite app_nil_r.
    + intros _. apply sublist_nil_l.
    + apply (b_repeated _ _ _ Hbk).
    + apply (b_pending _ _ _ Hbk).
Qed.

Lemma accounted_repeat p a q' :
  accounted q' (repeat p a) ≡ₚ accounted q' a ++ (if decide (q' = EventBus.TRANSACTIONAL) then [p] else []).
Proof.
  unfold accounted. cbn [journal refused repeated pending rejected repeat].
  destruct q'; cbn [decide EventBus.QueueId_eq_dec]; [by rewrite !app_nil_r| |by rewrite !app_nil_r].
  by rewrite <- !app_assoc.
Qed.

Lemma transactional_books old i p e s a :
  books old s a -> Engine.hand (eng s) EventBus.TRANSACTIONAL = Some p -> deref (Engine.heap_of (eng s)) p = Ret e ->
  Ledger.accepting i -> exists s' a', exec (Run (Engine.Work EventBus.TRANSACTIONAL i)) s = Ret s' /\ books old s' a'.
Proof using reg_answers handle_at_defined attempts_answer.
  intros Hbk Hh He Ha. destruct (b_log _ _ _ Hbk) as (L & B & Hb & HL & HB & _).
  destruct (Ledger.transactional_effect reg handle_at others reg_answers attempts_answer old L i e (Engine.world (eng s)) _
    (proj1 Hb) Ha (b_ids _ _ _ Hbk)) as (w' & d & Hw & Hl & Hd & Hids & Hdup & Hrt & Hbt & Hap).
  destruct (work_resumes old EventBus.TRANSACTIONAL i p e w' s a Hbk Hh He Hw) as [Hx Hres].
  pose proof (b_rt _ _ _ Hbk) as Hr1. pose proof (b_tx _ _ _ Hbk) as Hr2.
  rewrite <- (Ledger.dropped_of _ _ _ (Hap Realtime.name ltac:(done))) in Hr1.
  eapply batch_books_log in Hb; [|exact Hl|exact Hbt|by apply Hap].
  exists (worked EventBus.TRANSACTIONAL p w' s), (match d with Ledger.Kept => record EventBus.TRANSACTIONAL [p] a
    | Ledger.Refused => refuse EventBus.TRANSACTIONAL p a | Ledger.Repeated => repeat p a end).
  split; [done|]. destruct d.
  - assert (Hin : p ∈ journal_of EventBus.TRANSACTIONAL (journal (record EventBus.TRANSACTIONAL [p] a))).
    { cbn [journal record]. rewrite journal_of_app, journal_of_same, elem_of_app. right. by left. }
    apply (books_worked old EventBus.TRANSACTIONAL p w' s a _ (L ++ [e]) B [p]); try done.
    + cbn [journal record]. rewrite map_app, map_snd_pair. apply Forall2_app; [done|]. constructor; [by exists e|done].
    + by rewrite Hd.
    + eapply Ledger.remembers_weaken; [|exact Hids]. intros k [Hc|[_ ->]]; [by eapply committed_more, Hc; apply journal_record_in|].
      by exists p, e.
    + apply accounted_record.
    + apply (repeats_more _ a); [apply journal_record_in|apply (b_repeated _ _ _ Hbk)].
    + apply (b_pending _ _ _ Hbk).
  - apply (books_worked old EventBus.TRANSACTIONAL p w' s a _ L B []); try done.
    + rewrite Hd, Hr2, refused_insert, decide_True by done. apply wrap_snoc.
    + eapply Ledger.remembers_weaken; [|exact Hids]. by intros k [Hc|[]].
    + apply accounted_refuse.
    + by rewrite app_nil_r.
    + intros _. apply sublist_nil_l.
    + apply (b_repeated _ _ _ Hbk).
    + apply (b_pending _ _ _ Hbk).
  - apply (books_worked old EventBus.TRANSACTIONAL p w' s a _ L B []); try done.
    + by rewrite Hd.
    + eapply Ledger.remembers_weaken; [|exact Hids]. by intros k [Hc|[]].
    + apply accounted_repeat.
    + by rewrite app_nil_r.
    + intros _. apply sublist_nil_l.
    + cbn [repeated repeat]. apply Forall_app. split; [apply (b_repeated _ _ _ Hbk)|]. constructor; [|done].
      exists e. split; [done|]. by apply Hdup.
    + apply (b_pending _ _ _ Hbk).
Qed.

(** What leaves the buckets: [pf] in the log, [pl] refused by the handler, [pr] still pending. *)
Definition rebucket (pf pl pr : list EventPtr) (a : Account) : Account :=
  mkAccount (journal a ++ map (pair EventBus.BATCHQ) pf) (refused a) (repeated a) pr (rejected a ++ pl).

Lemma accounted_rebucket pf pl pr ps a q' :
  pending a ++ ps ≡ₚ (pf ++ pl) ++ pr ->
  accounted q' (rebucket pf pl pr a) ≡ₚ accounted q' a ++ (if decide (q' = EventBus.BATCHQ) then ps else []).
Proof.
  intros Hp. unfold accounted. cbn [journal refused repeated pending rejected rebucket]. rewrite journal_of_app.
  destruct q'; cbn [decide EventBus.QueueId_eq_dec]; [by rewrite journal_of_other, !app_nil_r..|].
  rewrite journal_of_same. transitivity (journal_of EventBus.BATCHQ (journal a) ++ refused a EventBus.BATCHQ ++ rejected a ++ (pf ++ pl) ++ pr);
    [solve_Permutation|]. rewrite <- Hp. solve_Permutation.
Qed.

Lemma journal_rebucket_in pf pl pr a p : p ∈ journal_of EventBus.TRANSACTIONAL (journal a) ->
  p ∈ journal_of EventBus.TRANSACTIONAL (journal (rebucket pf pl pr a)).
Proof. cbn [journal rebucket]. rewrite journal_of_app, elem_of_app. by left. Qed.

(** The pointers of what a flush moves. *)
Lemma flushed_pointers h ps B fl rest : Forall2 (recorded h) ps B -> B ≡ₚ fl ++ rest ->
  exists pf pl pr, ps ≡ₚ (pf ++ pl) ++ pr /\ Forall2 (recorded h) pf (List.filter (Batch.good reg) fl) /\
    Forall2 (recorded h) pr rest.
Proof.
  intros HB Hp. destruct (Forall2_rearrange _ _ _ _ _ HB Hp) as (ps1 & pr & Hps & H1 & H2).
  destruct (Forall2_kept _ (Batch.good reg) _ _ H1) as (pf & pl & Hp1 & Hf).
  exists pf, pl, pr. split; [by rewrite Hps, Hp1|done].
Qed.

Lemma batch_books_step old i p e s a :
  books old s a -> Engine.hand (eng s) EventBus.BATCHQ = Some p -> deref (Engine.heap_of (eng s)) p = Ret e ->
  Ledger.accepting i -> exists s' a', exec (Run (Engine.Work EventBus.BATCHQ i)) s = Ret s' /\ books old s' a'.
Proof using reg_answers handle_at_defined.
  intros Hbk Hh He Ha. destruct (b_log _ _ _ Hbk) as (L & B & Hb & HL & HB & _).
  assert (Hsim : exists ab, EventBus.sim (bw (Engine.world (eng s))) ab).
  { destruct (Engine.v_bus _ _ (b_inv _ _ _ Hbk)) as (ab & Hs & _). by exists ab. }
  destruct (Ledger.batch_effect reg others reg_answers old L B _ i e _ Hb Ha Hsim) as (w' & Hw & Hrt & Htx & Hap & Hcase).
  destruct (work_resumes old EventBus.BATCHQ i p e w' s a Hbk Hh He Hw) as [Hx Hres].
  assert (Hids : Ledger.remembers w' (committed (Engine.heap_of (eng s)) a)).
  { destruct (b_ids _ _ _ Hbk) as (m & Hm & Hk). exists m. by rewrite Htx. }
  pose proof (b_rt _ _ _ Hbk) as Hr1. pose proof (b_tx _ _ _ Hbk) as Hr2.
  rewrite <- (Ledger.dropped_of _ _ _ (Hap Realtime.name ltac:(done) ltac:(done))) in Hr1.
  rewrite <- (Ledger.dropped_of _ _ _ (Hap Transactional.name ltac:(done) ltac:(done))) in Hr2.
  assert (Hrun : stopped s EventBus.BATCHQ = false).
  { destruct (stopped s EventBus.BATCHQ) eqn:E; [|done]. apply (b_hand _ _ _ Hbk) in E. congruence. }
  destruct Hcase as [Hb'|(fl & rest & Hfl & Hb')].
  - exists (worked EventBus.BATCHQ p w' s), (refuse EventBus.BATCHQ p a). split; [done|].
    rewrite (wrap_snoc _ p) in Hb'. apply (books_worked old EventBus.BATCHQ p w' s a _ L B []); try done.
    + apply accounted_refuse.
    + by rewrite app_nil_r.
    + apply (b_repeated _ _ _ Hbk).
    + by rewrite Hrun.
  - assert (HB' : Forall2 (recorded (Engine.heap_of (eng s))) (pending a ++ [p]) (B ++ [e])).
    { apply Forall2_app; [done|]. constructor; [by exists e|done]. }
    destruct (flushed_pointers _ _ _ _ _ HB' Hfl) as (pf & pl & pr & Hp & Hf & Hr).
    exists (worked EventBus.BATCHQ p w' s), (rebucket pf pl pr a). split; [done|].
    apply (books_worked old EventBus.BATCHQ p w' s a (rebucket pf pl pr a) _ rest pf Hbk Hres Hb'); try done.
    + cbn [journal rebucket]. rewrite map_app, map_snd_pair. by apply Forall2_app.
    + eapply Ledger.remembers_weaken; [|exact Hids]. intros k. apply committed_more, journal_rebucket_in.
    + intros q'. by apply accounted_rebucket.
    + apply (repeats_more _ a); [apply journal_rebucket_in|apply (b_repeated _ _ _ Hbk)].
    + by rewrite Hrun.
Qed.
(** ** The end of a loop *)

Lemma with_world_inv (m : M S unit) e : Engine.inv reg e -> (forall ab h, upholds (Safety.within reg ab h False) m) ->
  let w' := (m (Engine.world e)).2 in
  Engine.inv reg (with_world w' e) /\ EventBus.heap (bw w') = Engine.heap_of e.
Proof.
  intros Hi Hm w'. destruct (Engine.v_bus _ _ Hi) as (ab & Hs & Hd).
  destruct (Hm ab (Engine.heap_of e) (Engine.world e)) as [_ (Hbk & Hheap & lost & bt & n & Hbt & Hlost & Hn & Hs')].
  { split; [apply (Engine.v_buckets _ _ Hi)|]. split; [done|]. exists [], (EventBus.a_bt ab), (EventBus.a_dropped ab).
    rewrite zlen_nil. split_and!; try done; [lia|]. by destruct ab. }
  fold w' in Hbk, Hheap, Hs'. split; [|done].
  destruct lost; [|by destruct Hlost]. cbn [app] in Hbt. rewrite zlen_nil in Hn.
  assert (Hcol : forall q, Engine.column (with_world w' e) q = Engine.column e q).
  { intros q. apply Engine.column_same; try done. cbn. rewrite (Engine.waiting_sim _ _ _ Hs), (Engine.waiting_sim _ _ _ Hs').
    by destruct q; cbn; rewrite ?Hbt. }
  eapply (Engine.inv_moved reg e (with_world w' e) _ Hi Hs'); try done.
  - cbn. lia.
  - unfold Engine.heap_of at 2. cbn. by rewrite Hheap.
  - apply (Engine.v_retries _ _ Hi).
  - by apply Engine.places_same.
  - intros q. rewrite Hcol. apply (Engine.v_order _ _ Hi).
  - rewrite Hcol. apply (Engine.v_tx _ _ Hi).
Qed.

Lemma stop_of_within q i walk ab h : upholds (Safety.within reg ab h False) (stop_of q i walk).
Proof. destruct q; [apply Safety.within_flush..|apply Safety.stop_within]. Qed.

Definition halted (q : EventBus.QueueId) (w' : PWorld S) (s : State) : State :=
  mkState (with_world w' (eng s)) (<[q := true]> (stopped s)) (dispatching s).

(** The books after a [stop], from what it wrote. *)
Lemma books_halted old q i walk w' s a a' L B st :
  books old s a -> Engine.hand (eng s) q = None -> stop_of q i walk (Engine.world (eng s)) = (Ret tt, w') ->
  Ledger.batch_books reg old L B (wrap 64 (zlen (refused a' EventBus.BATCHQ))) w' ->
  Forall2 (recorded (Engine.heap_of (eng s))) (map snd (journal a')) L ->
  Forall2 (recorded (Engine.heap_of (eng s))) (pending a') B ->
  storage_ w' = Some st -> StorageEngine.on_disk (StorageEngine.storageFile st) = old ++ StorageEngine.log_bytes L ->
  rt w' = rt (Engine.world (eng s)) -> txn w' = txn (Engine.world (eng s)) ->
  (forall n, metrics_of n w' = metrics_of n (Engine.world (eng s))) ->
  (forall q', accounted q' a' ≡ₚ accounted q' a) -> refused a' = refused a -> repeated a' = repeated a ->
  (forall q', q' <> EventBus.BATCHQ -> journal_of q' (journal a') = journal_of q' (journal a)) ->
  (stopped s EventBus.BATCHQ = true \/ q = EventBus.BATCHQ -> pending a' = []) ->
  books old (halted q w' s) a'.
Proof.
  intros Hbk Hh Hw Hb HL HB Hst Hdisk Hrt Htx Hm Hacc Href Hrep Hj Hp.
  destruct (with_world_inv _ _ (b_inv _ _ _ Hbk) (stop_of_within q i walk)) as [Hi Hheap]. rewrite Hw in Hi, Hheap. cbn [snd] in Hi, Hheap.
  destruct Hbk as [_ Ht _ Hq Hr1 Hr2 (m & Hrm & Hk) Hg Ho Hrp Hhand _].
  assert (Hin : forall p, p ∈ journal_of EventBus.TRANSACTIONAL (journal a) -> p ∈ journal_of EventBus.TRANSACTIONAL (journal a'))
    by (intros p; by rewrite Hj).
  set (s' := halted _ _ _). assert (Hheap' : Engine.heap_of (eng s') = Engine.heap_of (eng s)) by done.
  split; rewrite ?Hheap'; try done.
  - exists L, B. split_and!; try done. intros _. by exists st.
  - unfold Realtime.quiet. cbn [eng Engine.world s' halted with_world]. rewrite Hrt. exact Hq.
  - rewrite Href, <- Hr1. by apply Ledger.dropped_of.
  - rewrite Href, <- Hr2. by apply Ledger.dropped_of.
  - exists m. cbn [eng Engine.world s' halted with_world]. rewrite Htx. split; [done|]. intros k Hm'. by eapply committed_more, Hk.
  - intros q'. rewrite Hacc. apply Hg.
  - intros q' Hq'. rewrite Hj by done. by apply Ho.
  - rewrite Hrep. by apply (repeats_more _ a).
  - intros q'. cbn. destruct (decide (q' = q)) as [->|Hne]; [done|]. rewrite fn_lookup_insert_ne by done. apply Hhand.
  - cbn [stopped s' halted]. destruct (decide (q = EventBus.BATCHQ)) as [->|Hne]; [intros _; apply Hp; by right|].
    rewrite fn_lookup_insert_ne by done. intros H. apply Hp. by left.
Qed.

Definition accepting_stop (i : string -> Inputs) : Prop := forall t, Ledger.accepting (i t).

Lemma stop_books old q i walk s a :
  books old s a -> accepting_stop i -> Batch.complete walk -> stopped s q = false -> Engine.hand (eng s) q = None ->
  exists s' a', exec (StopLoop q i walk) s = Ret s' /\ books old s' a'.
Proof.
  intros Hbk Ha Hc Hst Hh. destruct (b_log _ _ _ Hbk) as (L & B & Hb & HL & HB & _).
  cut (exists w' a', stop_of q i walk (Engine.world (eng s)) = (Ret tt, w') /\ books old (halted q w' s) a').
  { intros (w' & a' & Hw & Hb'). exists (halted q w' s), a'. cbn [exec]. by rewrite Hst, Hh, Hw. }
  destruct (decide (q = EventBus.BATCHQ)) as [->|Hne].
  - destruct (Ledger.batch_stop_effect reg others old i walk L B _ _ Hb Ha Hc)
      as (w' & fl & st & Hw & Hfl & Hb' & Hs' & Hdisk & Hrt & Htx & Hm).
    destruct (flushed_pointers _ _ _ fl [] HB) as (pf & pl & pr & Hp & Hf & Hr); [by rewrite app_nil_r|].
    exists w', (rebucket pf pl pr a). split; [done|]. apply Forall2_nil_inv_r in Hr as ->.
    eapply (books_halted old EventBus.BATCHQ i walk w' s a (rebucket pf pl [] a)); try done.
    + cbn [journal rebucket]. rewrite map_app, map_snd_pair. by apply Forall2_app.
    + intros q'. rewrite (accounted_rebucket pf pl [] [] a q') by (by rewrite app_nil_r). by destruct (decide _); rewrite app_nil_r.
    + intros q' Hq'. cbn [journal rebucket]. by rewrite journal_of_app, journal_of_other, app_nil_r.
  - destruct (Ledger.flush_storage_effect old L _ (proj1 Hb)) as (w' & st & Hw & Hl & Hs' & Hdisk & [= Hbw Hrt Htx Hbt]).
    exists w', a. assert (Hw' : stop_of q i walk (Engine.world (eng s)) = (Ret tt, w')) by (by destruct q).
    assert (Hm : forall n, metrics_of n w' = metrics_of n (Engine.world (eng s))) by (intros n; unfold metrics_of; by rewrite Hbw).
    split; [done|]. eapply books_halted; try done.
    + eapply batch_books_log; [exact Hb|done..].
    + intros [H|H]; [by apply (b_pending _ _ _ Hbk)|done].
Qed.
(** ** Every schedule *)

(** What the file system, the parser and the clocks answer, and a walk that meets every entry of the map. *)
Definition proper (c : Action) : Prop :=
  match c with
  | Run c => Typing.well_formed c /\ match c with Engine.Work _ i => Ledger.accepting i | _ => True end
  | StopLoop q i walk => accepting_stop i /\ Batch.complete walk
  | StopDispatcher => True
  end.

Lemma work_books old q i s a : books old s a -> Ledger.accepting i ->
  exists s' a', exec (Run (Engine.Work q i)) s = Ret s' /\ books old s' a'.
Proof using reg_answers handle_at_defined attempts_answer.
  intros Hbk Ha. destruct (Engine.hand (eng s) q) as [p|] eqn:Hh.
  - destruct (Engine.place_live reg (eng s) p (b_inv _ _ _ Hbk) (Engine.hand_place _ _ _ Hh)) as (l & e & -> & He).
    assert (Hd : deref (Engine.heap_of (eng s)) (Some l) = Ret e) by (cbn; by rewrite He).
    destruct q; [by eapply realtime_books|by eapply transactional_books|by eapply batch_books_step].
  - exists s, a. cbn [exec gone Engine.exec]. rewrite Hh. by destruct s.
Qed.

Lemma exec_books old c s a : books old s a -> proper c -> exists s' a', exec c s = Ret s' /\ books old s' a'.
Proof using reg_answers handle_at_defined attempts_answer.
  intros Hbk Hc. destruct c as [c|q i walk|].
  - destruct (gives c) eqn:Hg; [destruct c; try done; by apply (work_books old _ _ s a Hbk), Hc|].
    destruct (gone c s) eqn:Hgone; [exists s, a; cbn [exec]; by rewrite Hgone|].
    destruct (Engine.exec_inv reg handle_at others table answering_tame handle_at_defined c (eng s) (b_inv _ _ _ Hbk))
      as (e' & He' & Hi'). exists (mkState e' (stopped s) (dispatching s)), a. cbn [exec]. rewrite Hgone, He'. split; [done|].
    destruct (exec_calm c _ _ Hg He') as (Hcalm & Hgiven & Hhand).
    pose proof (Typing.exec_heap reg handle_at others table answering_tame handle_at_defined c _ _ (b_inv _ _ _ Hbk) He') as Hh.
    apply (books_calm old s _ a Hbk); try done.
    + eapply Typing.heap_step_typed; [exact Hh|apply Hc|apply (b_typed _ _ _ Hbk)].
    + by eapply Typing.heap_step_settles.
    + intros q Hq. apply Hhand; [|by apply (b_hand _ _ _ Hbk)]. destruct c as [| | | |q' ns| |]; try done. cbn in *.
      apply bool_decide_eq_false. intros ->. congruence.
  - destruct (stopped s q) eqn:Hst; [exists s, a; cbn [exec]; by rewrite Hst|].
    destruct (Engine.hand (eng s) q) eqn:Hh; [exists s, a; cbn [exec]; by rewrite Hst, Hh|].
    destruct Hc as [Ha Hw]. by apply (stop_books old q i walk s a).
  - cbn [exec]. destruct (Engine.held (eng s)); [by exists s, a|]. eexists _, a. split; [done|].
    destruct Hbk as [H1 H2 H3 H4 H5 H6 H7 H8 H9 H10 H11 H12]. by split.
Qed.

Lemma run_books old cs s a : books old s a -> Forall proper cs -> exists s' a', run cs s = Ret s' /\ books old s' a'.
Proof using reg_answers handle_at_defined attempts_answer.
  intros Hbk Hcs. revert s a Hbk; induction Hcs as [|c cs Hc _ IH]; intros s a Hbk; [by exists s, a|].
  destruct (exec_books old c s a Hbk Hc) as (s1 & a1 & H1 & Hbk1). cbn [run]. rewrite H1. cbn [mbind outcome_bind]. by eapply IH.
Qed.

(** An engine that has processed nothing yet, on a log that holds [old]. *)
Record fresh (old : list byte) (w : PWorld S) : Prop := {
  f_rest : Engine.at_rest w;
  f_heap : EventBus.heap (bw w) = ∅;
  f_log : exists st, storage_ w = Some st /\ StorageEngine.log_ok old [] st;
  f_quiet : Realtime.quiet w;
  f_ids : Dedup.represents (dedup_table_ (txn w)) ∅;
  f_dropped : dropped Realtime.name w = 0 /\ dropped Transactional.name w = 0 /\ dropped Batch.name w = 0
}.

Definition blank : Account := mkAccount [] (fun _ => []) [] [] [].

Lemma launched_books old w id : fresh old w -> books old (launched w id) blank.
Proof.
  intros [Hr Hh Hl Hq Hi (Hd1 & Hd2 & Hd3)]. pose proof (Engine.start_inv reg w id Hr) as Hinv. destruct Hr as [_ Hb].
  split; try done.
  - unfold Engine.heap_of. cbn. rewrite Hh. apply map_Forall_empty.
  - exists [], []. split; [|split_and!; [constructor..|intros Hall; by specialize (Hall EventBus.REALTIME)]].
    split; [done|]. cbn [eng launched Engine.start Engine.world]. unfold Ledger.bucketed, Ledger.sorted_buckets, Batch.bucket_of.
    rewrite Hb. split; [done|]. split; [|by rewrite Hd3]. intros t. by rewrite lookup_empty.
  - exists ∅. split; [done|]. intros k [? Hk]. by rewrite lookup_empty in Hk.
  - by intros [].
Qed.
(** ** Theorems *)

Definition name_of (q : EventBus.QueueId) : string :=
  match q with
  | EventBus.REALTIME => Realtime.name
  | EventBus.TRANSACTIONAL => Transactional.name
  | EventBus.BATCHQ => Batch.name
  end.

Lemma books_dropped old s a q : books old s a ->
  dropped (name_of q) (Engine.world (eng s)) = wrap 64 (zlen (refused a q)).
Proof.
  intros Hbk. destruct q; [apply (b_rt _ _ _ Hbk)|apply (b_tx _ _ _ Hbk)|].
  destruct (b_log _ _ _ Hbk) as (L & B & (_ & _ & _ & Hd) & _). exact Hd.
Qed.

Definition all_given (s : State) : list EventPtr :=
  Engine.given (eng s) EventBus.REALTIME ++ Engine.given (eng s) EventBus.TRANSACTIONAL ++ Engine.given (eng s) EventBus.BATCHQ.

Lemma given_nodup s : Engine.inv reg (eng s) -> NoDup (all_given s).
Proof.
  intros Hi. pose proof (Engine.v_nodup _ _ Hi) as Hn. rewrite (Engine.v_places _ _ Hi) in Hn.
  eapply sublist_NoDup; [exact Hn|]. unfold all_given, Engine.places, Engine.column.
  do 2 apply sublist_inserts_l. repeat apply sublist_app; try by apply sublist_inserts_r.
  apply sublist_inserts_r. by apply sublist_inserts_r.
Qed.

(** What became of the events that are not in the log. *)
Definition turned_away (a : Account) : list EventPtr :=
  refused a EventBus.REALTIME ++ refused a EventBus.TRANSACTIONAL ++ refused a EventBus.BATCHQ ++ repeated a ++ rejected a.

Lemma accounted_all a :
  accounted EventBus.REALTIME a ++ accounted EventBus.TRANSACTIONAL a ++ accounted EventBus.BATCHQ a ≡ₚ
  map snd (journal a) ++ pending a ++ turned_away a.
Proof.
  rewrite journal_split. unfold accounted, turned_away. solve_Permutation.
Qed.

Lemma all_given_accounted old s a : books old s a -> all_given s ≡ₚ map snd (journal a) ++ pending a ++ turned_away a.
Proof. intros Hbk. unfold all_given. rewrite !(b_given _ _ _ Hbk). apply accounted_all. Qed.

(** No event is in the log twice. *)
Lemma journal_nodup old s a : books old s a -> NoDup (map snd (journal a)).
Proof.
  intros Hbk. pose proof (given_nodup s (b_inv _ _ _ Hbk)) as Hn. rewrite (all_given_accounted _ _ _ Hbk) in Hn.
  by apply NoDup_app in Hn as [Hn _].
Qed.

(** A thread that carries no event. *)
Definition on_the_way (s : State) : list EventPtr :=
  Engine.inbound (eng s) ++ Engine.carried (eng s) ++
  Engine.waiting EventBus.REALTIME (bw (Engine.world (eng s))) ++
  Engine.waiting EventBus.TRANSACTIONAL (bw (Engine.world (eng s))) ++
  Engine.waiting EventBus.BATCHQ (bw (Engine.world (eng s))).

Lemma regroup {A} (i c g1 w1 g2 w2 g3 w3 d : list A) :
  i ++ c ++ (g1 ++ [] ++ w1) ++ (g2 ++ [] ++ w2) ++ (g3 ++ [] ++ w3) ++ d ≡ₚ
  (g1 ++ g2 ++ g3) ++ d ++ i ++ c ++ w1 ++ w2 ++ w3.
Proof. cbn [app]. solve_Permutation. Qed.

Lemma stopped_places s : Engine.inv reg (eng s) -> (forall q, Engine.hand (eng s) q = None) ->
  Engine.admitted (eng s) ≡ₚ all_given s ++ Engine.dead (eng s) ++ on_the_way s.
Proof.
  intros Hi Hh. rewrite (Engine.v_places _ _ Hi). unfold all_given, on_the_way. rewrite <- regroup.
  unfold Engine.places, Engine.column, Engine.handed. by rewrite !Hh.
Qed.

(** in every schedule of the engine and its shutdown, whatever the interleaving, the file system accepting and
    the handlers answering, no loop ends with an exception and every event given to a processor is accounted for exactly once: it is
    in the log, or counted as dropped by that processor, or repeats an id committed before, or is in a bucket, or was
    refused by its handler when its bucket was flushed.  The log, in the file and the stream's buffer, is the records of
    exactly the first, no event twice, those of the realtime and of the transactional queue in the order
    they were given; the buckets hold exactly the fourth; the three counters of dropped events are exact. *)
Theorem journal_exact old w id cs : fresh old w -> Forall proper cs ->
  exists s a L B, run cs (launched w id) = Ret s /\
    (forall q, Engine.given (eng s) q ≡ₚ accounted q a) /\
    Ledger.logged old L (Engine.world (eng s)) /\
    Forall2 (recorded (Engine.heap_of (eng s))) (map snd (journal a)) L /\ NoDup (map snd (journal a)) /\
    (forall q, q <> EventBus.BATCHQ -> sublist (journal_of q (journal a)) (Engine.given (eng s) q)) /\
    Ledger.bucketed (Engine.world (eng s)) ≡ₚ B /\ Forall2 (recorded (Engine.heap_of (eng s))) (pending a) B /\
    (forall q, dropped (name_of q) (Engine.world (eng s)) = wrap 64 (zlen (refused a q))) /\
    Forall (repeats (Engine.heap_of (eng s)) a) (repeated a).
Proof using reg_answers handle_at_defined attempts_answer.
  intros Hw Hcs. destruct (run_books old cs _ _ (launched_books old w id Hw) Hcs) as (s & a & Hs & Hbk).
  destruct (b_log _ _ _ Hbk) as (L & B & (Hl & Hb & _) & HL & HB & _). exists s, a, L, B. split_and!; try done.
  - apply (b_given _ _ _ Hbk).
  - by eapply journal_nodup.
  - apply (b_order _ _ _ Hbk).
  - intros q. by eapply books_dropped.
  - apply (b_repeated _ _ _ Hbk).
Qed.

(** What the storage engine's file shows of an event. *)
Definition shows (h : Heap) (p : EventPtr) (r : StorageEngine.stored) : Prop :=
  exists e, deref h p = Ret e /\ StorageEngine.stored_of e = r.

Lemma recorded_shows h ps L : Forall2 (recorded h) ps L -> Forall2 (shows h) ps (map StorageEngine.stored_of L).
Proof. induction 1 as [|p e ps L (e0 & Hd & He) _ IH]; constructor; [by exists e0|done]. Qed.

Lemma recorded_storable h ps L : Typing.typed_heap h -> Forall2 (recorded h) ps L -> Forall StorageEngine.storable L.
Proof.
  intros Ht. induction 1 as [|p e ps L (e0 & Hd & He) _ IH]; constructor; [|done]. destruct p as [l|]; cbn in Hd; [|done].
  destruct (h !! l) as [x|] eqn:E; [|done]. injection Hd as ->. pose proof (Typing.typed_storable _ (Ht _ _ E)) as Hst.
  unfold StorageEngine.storable in *. unfold StorageEngine.stored_of in He. injection He as H1 _ H3 H4 H5. by rewrite <- H1, <- H3, <- H4, <- H5.
Qed.


(** ** Until all have left *)

Lemma shutdown_run_app cs1 cs2 s s1 : run cs1 s = Ret s1 -> run (cs1 ++ cs2) s = run cs2 s1.
Proof.
  revert s; induction cs1 as [|c cs1 IH]; intros s; [by intros [= ->]|]. cbn [run app].
  rewrite outcome_bind_ret. intros (s2 & -> & Hr). by apply IH.
Qed.

(** Each loop finishes the event in its hand and leaves. *)
Definition leave (i : Inputs) (j : string -> Inputs) (walk : gmap string TopicBucket -> list string) (q : EventBus.QueueId) :
    list Action := [Run (Engine.Work q i); StopLoop q j walk].
Definition ending i j walk : list Action :=
  leave i j walk EventBus.REALTIME ++ leave i j walk EventBus.TRANSACTIONAL ++ leave i j walk EventBus.BATCHQ.

Lemma work_frees q i s s' : exec (Run (Engine.Work q i)) s = Ret s' -> Engine.hand (eng s') q = None /\ stopped s' = stopped s.
Proof.
  cbn [exec gone]. rewrite outcome_bind_ret. intros (e & He & [= <-]). split; [|done]. cbn [Engine.exec] in He. cbn.
  destruct (Engine.hand (eng s) q) eqn:Hh; [|by injection He as <-]. apply outcome_bind_ret in He as (x & _ & He).
  destruct (Engine.process_of _ _ _ q i x _) as [res w']. destruct res; [..|done]; injection He as <-; cbn; by rewrite fn_lookup_insert.
Qed.

Lemma leave_stops old i j walk q s a : books old s a -> Ledger.accepting i -> accepting_stop j -> Batch.complete walk ->
  exists s' a', run (leave i j walk q) s = Ret s' /\ books old s' a' /\
    forall q', stopped s' q' = (if decide (q' = q) then true else stopped s q').
Proof using reg_answers handle_at_defined attempts_answer.
  intros Hbk Ha Hj Hc. destruct (work_books old q i s a Hbk Ha) as (s1 & a1 & H1 & Hb1).
  destruct (work_frees q i s s1 H1) as [Hh Hst]. unfold leave. cbn [run]. rewrite H1. cbn [mbind outcome_bind].
  destruct (stopped s1 q) eqn:Hs1.
  - exists s1, a1. cbn [exec]. rewrite Hs1. split; [done|]. split; [done|]. intros q'. rewrite Hst in *.
    by destruct (decide (q' = q)) as [->|].
  - destruct (stop_books old q j walk s1 a1 Hb1 Hj Hc Hs1 Hh) as (s' & a' & H2 & Hb2). exists s', a'. rewrite H2. split; [done|].
    split; [done|]. intros q'. cbn [exec] in H2. rewrite Hs1, Hh in H2.
    destruct (stop_of q j walk (Engine.world (eng s1))) as [o w']. destruct o; [|done..]. injection H2 as <-. cbn [stopped].
    rewrite <- Hst. destruct (decide (q' = q)) as [->|]; [by rewrite fn_lookup_insert|by rewrite fn_lookup_insert_ne].
Qed.

(** whatever the schedule, the loops can leave - each after the event in its hand - and once the three have left,
    in whatever order, no bucket holds an event and the file holds, after what it held before, a log that reads
    back as the records of exactly the events of the journal, in order: on the disk, nothing in a buffer.  Every
    event ever admitted is in exactly one place: on the disk, refused by a processor, a repetition, refused by
    the handler at a flush, given up by the bus or the dispatcher - or it was still on its way: waiting for the dispatcher, in its
    hand, or in a queue no loop reads any more. *)
Theorem shutdown_on_disk old w id cs i j walk :
  fresh old w -> Forall proper cs -> Ledger.accepting i -> accepting_stop j -> Batch.complete walk ->
  exists s, run cs (launched w id) = Ret s /\
    (exists s', run (ending i j walk) s = Ret s' /\ all_stopped s') /\
    (all_stopped s -> exists a st log rs, storage_ (Engine.world (eng s)) = Some st /\
       StorageEngine.on_disk (StorageEngine.storageFile st) = old ++ log /\
       StorageEngine.read_log (length (journal a)) log = Some rs /\
       Forall2 (shows (Engine.heap_of (eng s))) (map snd (journal a)) rs /\
       Ledger.bucketed (Engine.world (eng s)) = [] /\ NoDup (Engine.admitted (eng s)) /\
       Engine.admitted (eng s) ≡ₚ map snd (journal a) ++ turned_away a ++ Engine.dead (eng s) ++ on_the_way s).
Proof using reg_answers handle_at_defined attempts_answer.
  intros Hw Hcs Hi Hj Hc. destruct (run_books old cs _ _ (launched_books old w id Hw) Hcs) as (s & a & Hs & Hbk). exists s. split; [done|]. split.
  - destruct (leave_stops old i j walk EventBus.REALTIME s a Hbk Hi Hj Hc) as (s1 & a1 & H1 & Hb1 & Hst1).
    destruct (leave_stops old i j walk EventBus.TRANSACTIONAL s1 a1 Hb1 Hi Hj Hc) as (s2 & a2 & H2 & Hb2 & Hst2).
    destruct (leave_stops old i j walk EventBus.BATCHQ s2 a2 Hb2 Hi Hj Hc) as (s3 & a3 & H3 & Hb3 & Hst3).
    exists s3. unfold ending. rewrite (shutdown_run_app _ _ _ _ H1), (shutdown_run_app _ _ _ _ H2). split; [done|].
    intros q. rewrite Hst3, Hst2, Hst1. by destruct q.
  - intros Hall. destruct (b_log _ _ _ Hbk) as (L & B & (_ & Hb & _) & HL & HB & Hdisk). destruct (Hdisk Hall) as (st & Hst & Hd).
    pose proof (b_pending _ _ _ Hbk (Hall _)) as Hp. rewrite Hp in HB. apply Forall2_nil_inv_l in HB as ->.
    exists a, st, (StorageEngine.log_bytes L), (map StorageEngine.stored_of L). split; [done|]. split; [done|].
    pose proof (Forall2_length _ _ _ HL) as Hlen. rewrite length_map in Hlen. split.
    { apply StorageEngine.read_log_bytes; [|lia]. eapply recorded_storable; [apply (b_typed _ _ _ Hbk)|exact HL]. }
    split; [by apply recorded_shows|]. split; [by apply Permutation_nil_r|]. split; [apply (Engine.v_nodup _ _ (b_inv _ _ _ Hbk))|].
    rewrite (stopped_places s (b_inv _ _ _ Hbk)) by (intros q; by apply (b_hand _ _ _ Hbk)).
    rewrite (all_given_accounted _ _ _ Hbk), Hp. cbn [app]. by rewrite <- app_assoc.
Qed.
End Shutdown.
End Shutdown.

(** ** A concrete run *)

Module ShutdownRun.
Import EngineRun DeliveryRun.
Import Engine.

(** A topic that is not in the table is given MEDIUM priority at least; this one may go to the batch queue. *)
Definition topics : option (gmap string EventPriority) := Some {["y"%string := BATCH]}.

Abbreviation run_all := (Shutdown.run default_handlers as_written (fun st : Output.Stream (S := unit) => st) topics).

(** Four frames arrive; the realtime loop leaves while the others are at work; the last frame is still in its queue
    when all have left. *)
Definition working : list Shutdown.Action :=
  map Shutdown.Run
    [Arrive TCP "a" (frame CRITICAL "x") 1; Arrive UDP "b" (frame MEDIUM "payment") 2; Arrive TCP "a" (frame BATCH "y") 3;
     Route; Attempt 4 0; Route; Take EventBus.REALTIME 5; Attempt 6 0; Work EventBus.REALTIME (calm 7000000)] ++
  [Shutdown.StopLoop EventBus.REALTIME (fun _ => calm 8) map_walk] ++
  map Shutdown.Run
    [Arrive TCP "a" (frame BATCH "y") 9; Take EventBus.TRANSACTIONAL 10; Route; Attempt 11 0; Take EventBus.BATCHQ 12;
     Work EventBus.BATCHQ (calm 13000000); Route; Attempt 14 0].

Definition leaving : list Shutdown.Action :=
  Shutdown.ending (calm 15000000) (fun _ => calm 16) map_walk ++ [Shutdown.StopDispatcher].

Lemma engine0_fresh : Shutdown.fresh [] engine0.
Proof.
  split; try reflexivity.
  - apply engine0_at_rest.
  - exists open_log. split; [reflexivity|]. exists [], []. repeat split; reflexivity.
  - intros h a seen. cbn. intros [= <-]. reflexivity.
  - apply Dedup.new_table_represents. lia.
  - split_and!; reflexivity.
Qed.

Lemma schedule_proper : Forall Shutdown.proper (working ++ leaving).
Proof.
  repeat apply List.Forall_cons; try apply List.Forall_nil; cbn [Shutdown.proper Typing.well_formed];
    first [split; [apply sample_frames_parsed; cbn; tauto|exact I]
          |split; [split; [discriminate|reflexivity]|exact I]
          |split; [exact I|first [exact I|intros k; reflexivity]]
          |split; [intros t k; reflexivity|intros m t; apply map_walk_complete]
          |exact I].
Qed.

(** Journal lengths, bytes on the disk and events still queued. *)
Definition report (o : outcome (Shutdown.State (S := unit))) : option (nat * list nat * nat * bool) :=
  match o with
  | Ret s => Some (length (admitted (Shutdown.eng s)),
       map (fun q => length (given (Shutdown.eng s) q)) [EventBus.REALTIME; EventBus.TRANSACTIONAL; EventBus.BATCHQ],
       length (match storage_ (world (Shutdown.eng s)) with
               | Some st => StorageEngine.on_disk (StorageEngine.storageFile st) | None => [] end),
       Shutdown.stopped s EventBus.REALTIME && Shutdown.stopped s EventBus.TRANSACTIONAL && Shutdown.stopped s EventBus.BATCHQ)
  | _ => None
  end.

Lemma as_written_answers hd k e hr : Handlers.handle hd e = Ret hr -> exists hr', as_written hd k e = Ret hr'.
Proof. intros H. by exists hr. Qed.

End ShutdownRun.

(** Before the loops leave the record of the realtime event is on the disk. *)
Lemma journal_exact_witness :
  ShutdownRun.report (ShutdownRun.run_all ShutdownRun.working (Shutdown.launched DeliveryRun.engine0 0)) =
    Some (4, [1; 0; 1], 30, false)%nat /\
  exists s a, ShutdownRun.run_all ShutdownRun.working (Shutdown.launched DeliveryRun.engine0 0) = Ret s /\
  forall q, Engine.given (Shutdown.eng s) q ≡ₚ Shutdown.accounted q a.
Proof.
  split; [vm_compute; reflexivity|].
  destruct (Shutdown.journal_exact EngineRun.default_handlers EngineRun.as_written (fun st => st) ShutdownRun.topics
    defaults_answer ShutdownRun.as_written_answers (fun hd k e H => H) [] DeliveryRun.engine0 0 ShutdownRun.working
    ShutdownRun.engine0_fresh) as (s & a & L & B & Hs & Hg & _).
  { pose proof ShutdownRun.schedule_proper as H. apply Forall_app in H as [H _]. exact H. }
  exists s, a. split; [exact Hs|exact Hg].
Defined.

(** Once all have left three records are on the disk, and the last event is in the batch queue. *)
Lemma shutdown_on_disk_witness :
  exists s st log rs, ShutdownRun.run_all (ShutdownRun.working ++ ShutdownRun.leaving) (Shutdown.launched DeliveryRun.engine0 0) = Ret s /\
  ShutdownRun.report (Ret s) = Some (4, [1; 1; 1], 96, true)%nat /\
  storage_ (Engine.world (Shutdown.eng s)) = Some st /\ StorageEngine.on_disk (StorageEngine.storageFile st) = log /\
  exists n, StorageEngine.read_log n log = Some rs.
Proof.
  destruct (Shutdown.shutdown_on_disk EngineRun.default_handlers EngineRun.as_written (fun st => st) ShutdownRun.topics
    defaults_answer ShutdownRun.as_written_answers (fun hd k e H => H) [] DeliveryRun.engine0 0
    (ShutdownRun.working ++ ShutdownRun.leaving) (calm 1) (fun _ => calm 1) map_walk
    ShutdownRun.engine0_fresh ShutdownRun.schedule_proper) as (s & Hs & _ & Hd).
  - intros k. reflexivity.
  - intros t k. reflexivity.
  - intros m t. apply map_walk_complete.
  - assert (Hr : ShutdownRun.report (ShutdownRun.run_all (ShutdownRun.working ++ ShutdownRun.leaving)
      (Shutdown.launched DeliveryRun.engine0 0)) = Some (4, [1; 1; 1], 96, true)%nat) by (vm_compute; reflexivity).
    rewrite Hs in Hr. destruct Hd as (a & st & log & rs & H1 & H2 & H3 & _).
    { intros q. injection Hr as _ _ _ _ _ Hb. apply andb_prop in Hb as [Hb H3]. apply andb_prop in Hb as [H1 H2].
      destruct q; [exact H1|exact H2|exact H3]. }
    exists s, st, log, rs. split; [exact Hs|]. split; [exact Hr|]. split; [exact H1|]. split; [exact H2|].
    exists (length (Shutdown.journal a)). exact H3.
Defined.
