(* ===== verification/Private.v ===== *)
(** * What a processor's thread keeps to itself

    Between two accesses of a call the other threads go on, but some of the engine's state
    only one thread writes: the table of ids is the transactional loop's, the buckets are the
    batch loop's, and each processor counts under its own name.  Module [Private]: a program
    judged by what it does to that state alone, whatever it reads of the rest ([sound]), and
    the verdict on each of the programs of [Access.v].  In [Teardown.v] the verdicts are
    carried through every interleaving. *)

From S2P Require Import Prelude Event Dlq Metrics EventBus Storage Handlers Output Dedup Processor.
From S2P Require Import Transactional Batch Safety Ledger Access Interleaving Shutdown.
#[local] Open Scope Z_scope.

Module Private.
Import Access.
Import -(notations) Interleaving.
#[local] Existing Instance EventBus.QueueId_eq_dec.

(** ** Programs and the state their thread alone writes *)

Section Sound.
Context {S V : Type} (view : PWorld S -> V) (effect : access -> V -> V) (may : access -> Prop)
  (Q : V -> list access -> Prop).

(** From [v], having made the accesses [d], the program raises nothing, makes only accesses its thread may, and ends
    as [Q] says. *)
Fixpoint sound (p : program (S := S)) (v : V) (d : list access) : Prop :=
  match p with
  | Halt => Q v d
  | Raise _ | Undefined => False
  | Do x k => may x /\ sound k (effect x v) (d ++ [x])
  | Look k => forall w, view w = v -> sound (k w) v d
  end.

Lemma sound_after {A} (o : outcome A) (k : A -> program) v d :
  (exists a, o = Ret a /\ sound (k a) v d) -> sound (after o k) v d.
Proof. by intros (a & -> & H). Qed.

End Sound.

Section Private.
Context {S : Type} (reg : Handlers.registry)
  (handle_at : Handlers.EventHandler -> Z -> Event -> outcome Handlers.HandleResult)
  (others : Output.Stream (S := S) -> Output.Stream (S := S)).

(** The ids and the time of the last cleanup; the buckets. *)
Definition ids_of (w : PWorld S) : Dedup.buckets * Z := (dedup_table_ (txn w), last_cleanup_ms_ (txn w)).
Definition buckets_of (w : PWorld S) : gmap string TopicBucket := buckets_ (batch w).
Definition nothing (w : PWorld S) : unit := tt.

Definition ids_effect (x : access) (v : Dedup.buckets * Z) : Dedup.buckets * Z :=
  match x with
  | Cleanup i => if Transactional.cleanup_due (wall_ms i) v.2 then (Dedup.cleanup (wall_ms i) v.1, wall_ms i) else v
  | Remember i e => ((Dedup.insert (id (header e)) (wall_ms i) v.1).2, v.2)
  | _ => v
  end.

Definition at_topic (t : string) (m : gmap string TopicBucket) : TopicBucket := default (mkTopicBucket [] 0) (m !! t).

Definition buckets_effect (x : access) (m : gmap string TopicBucket) : gmap string TopicBucket :=
  match x with
  | Put e => <[topic e := mkTopicBucket (events (at_topic (topic e) m) ++ [e]) (last_flush_time (at_topic (topic e) m))]> m
  | Stamp t now => <[t := mkTopicBucket (events (at_topic t m)) now]> m
  | Clear t => <[t := mkTopicBucket [] (last_flush_time (at_topic t m))]> m
  | _ => m
  end.

Definition nothing_effect (x : access) (u : unit) : unit := u.

(** The accesses the loop of a queue makes, the file system accepting its writes. *)
Definition may (q : EventBus.QueueId) (x : access) : Prop :=
  match x with
  | Find n | CountProcessed n | CountDropped n | Touch n _ | TellProcessed n _ | TellDropped n _ _ => n = Shutdown.name_of q
  | Bury _ | Alarm _ _ _ _ | Flush => True
  | Store ok e => ok = true /\ StorageEngine.storable e
  | Cleanup _ | Remember _ _ | Sample _ _ => q = EventBus.TRANSACTIONAL
  | Put e => q = EventBus.BATCHQ /\ Batch.answers reg e /\ StorageEngine.storable e
  | DropQueue | Stamp _ _ | Clear _ => q = EventBus.BATCHQ
  end.

(** ** The verdicts *)

Definition kept (e : Event) (d : list access) : Prop := fates d = [Logged e] /\ drops d = 0 /\ puts d = [].
Definition refused (e : Event) (d : list access) : Prop := fates d = [Buried e] /\ drops d = 1 /\ puts d = [].
Definition repeated (d : list access) : Prop := fates d = [] /\ drops d = 0 /\ puts d = [].

Definition realtime_ends (e : Event) (u : unit) (d : list access) : Prop := kept e d \/ refused e d.

(** The table answers for no other ids than those of [P]. *)
Definition knows (P : Z -> Prop) (v : Dedup.buckets * Z) : Prop :=
  exists m, Dedup.represents v.1 m /\ forall k, is_Some (m !! k) -> P k.

Definition transactional_ends (P : Z -> Prop) (e : Event) (v : Dedup.buckets * Z) (d : list access) : Prop :=
  (kept e d /\ knows (fun k => P k \/ k = id (header e)) v) \/ (refused e d /\ knows P v) \/
  (repeated d /\ P (id (header e)) /\ knows P v).

(** What a flush does with an event. *)
Definition verdict (e : Event) : fate := if Batch.good reg e then Logged e else Buried e.

(** An event of a bucket is of its topic, its handler answers, and it can be written. *)
Definition fit (t : string) (e : Event) : Prop := topic e = t /\ Batch.answers reg e /\ StorageEngine.storable e.

(** Every bucket holds events fit for it. *)
Definition in_order (m : gmap string TopicBucket) : Prop :=
  forall t, Forall (fit t) (events (at_topic t m)).

(** The events [fl] have left the buckets. *)
Definition flushed (m0 : gmap string TopicBucket) (new fl : list Event) (m : gmap string TopicBucket) (d : list access) : Prop :=
  fates d = map verdict fl /\ drops d = 0 /\ puts d = new /\ in_order m /\
  Ledger.all_events m0 ++ new ≡ₚ fl ++ Ledger.all_events m.

Definition batch_ends (m0 : gmap string TopicBucket) (e : Event) (m : gmap string TopicBucket) (d : list access) : Prop :=
  (refused e d /\ m = m0) \/ exists fl, flushed m0 [e] fl m d.

Definition stop_ends (m0 : gmap string TopicBucket) (m : gmap string TopicBucket) (d : list access) : Prop :=
  (exists fl, flushed m0 [] fl m d) /\ (forall t, events (at_topic t m) = []) /\ last d = Some Flush.

(** ** The realtime and the transactional processor *)

Context (reg_answers : Ledger.answering reg).
Context (attempts_answer : forall hd k e hr, Handlers.handle hd e = Ret hr -> exists hr', handle_at hd k e = Ret hr').

(** Make the next accesses of a program that has only accesses before it branches. *)
Ltac go := repeat (split; [done|]); cbn [app].

Lemma sound_abandon {V} (view : PWorld S -> V) effect q Q name reason e v d :
  name = Shutdown.name_of q -> (forall x, match x with CountDropped _ | Bury _ | TellDropped _ _ _ => effect x v = v | _ => True end) ->
  Q v (d ++ [CountDropped name; Bury e; TellDropped name reason e]) ->
  sound view effect (may q) Q (abandon name reason e) v d.
Proof.
  intros -> He HQ. pose proof (He (CountDropped (Shutdown.name_of q))) as H1. pose proof (He (Bury e)) as H2.
  pose proof (He (TellDropped (Shutdown.name_of q) reason e)) as H3. cbn beta iota in H1, H2, H3.
  cbn [abandon sound]. rewrite H1, H2, H3, <- !app_assoc. by split_and!.
Qed.

Lemma realtime_sound i e : Ledger.accepting i -> StorageEngine.storable e ->
  sound nothing nothing_effect (may EventBus.REALTIME) (realtime_ends e) (realtime_process reg i e) tt [].
Proof using reg_answers.
  intros Ha He. unfold realtime_process. split; [done|].
  destruct (reg_answers (topic e) e) as (v & Hv & Hok). apply sound_after. exists v. split; [done|].
  destruct (Handlers.valid v); cbn [negb]; [|apply sound_abandon; [done|by intros []|by right]].
  destruct (Hok eq_refl) as [(r & Hr) (hr & Hhr)]. apply sound_after. exists r. split; [done|].
  destruct (Handlers.valid r); cbn [negb]; [|apply sound_abandon; [done|by intros []|by right]].
  apply sound_after. exists hr. split; [done|].
  assert (Hfin : forall d, fates d = [] -> drops d = 0 -> puts d = [] ->
    sound nothing nothing_effect (may EventBus.REALTIME) (realtime_ends e) (realtime_finish i e) tt d).
  { intros d H1 H2 H3 w _. unfold fates, drops, puts, realtime_ends, kept, refused in *.
    destruct (_ <? _); cbn [sound may]; rewrite ?Ha; (split_and!; [done..|]); unfold fates, drops, puts;
      rewrite !omap_app, H1, H3; cbn; rewrite !zlen_app, H2; cbn; auto. }
  destruct (Handlers.r_outcome hr); try (apply sound_abandon; [done|by intros []|by right]);
    cbn [sound]; go; by apply Hfin.
Qed.

Lemma knows_weaken (P P' : Z -> Prop) v : (forall k, P k -> P' k) -> knows P v -> knows P' v.
Proof. intros H (m & Hm & Hk). exists m. auto. Qed.

Lemma knows_cleanup P i v : knows P v -> knows P (ids_effect (Cleanup i) v).
Proof.
  intros (m & Hm & Hk). cbn. destruct (Transactional.cleanup_due _ _); [|by exists m].
  eexists. split; [by apply Dedup.cleanup_represents|]. intros k [t Ht]. apply map_lookup_filter_Some in Ht as [Ht _].
  apply Hk. by eexists.
Qed.

Lemma knows_remember P i e v : knows P v -> knows (fun k => P k \/ k = id (header e)) (ids_effect (Remember i e) v).
Proof.
  intros (m & Hm & Hk). destruct (Dedup.insert_represents v.1 m (id (header e)) (wall_ms i) Hm) as [_ Hrep].
  eexists. split; [exact Hrep|]. intros k. case_decide; [intros; left; by apply Hk|].
  rewrite lookup_insert_is_Some'. intros [<-|?]; [by right|left; by apply Hk].
Qed.

(** A repeated id is one the table answers for. *)
Lemma knows_duplicate P k now v : knows P v -> Dedup.is_duplicate k now v.1 = true -> P k.
Proof.
  intros (m & Hm & Hk) Hd. pose proof (Dedup.dedup_op_represents (Dedup.IsDuplicate k now) _ _ Hm) as [Ho _].
  injection Ho as Ho. rewrite Ho in Hd. apply bool_decide_eq_true in Hd. by apply Hk.
Qed.

Lemma transactional_sound P i e v : Ledger.accepting i -> StorageEngine.storable e -> knows P v ->
  sound ids_of ids_effect (may EventBus.TRANSACTIONAL) (transactional_ends P e) (transactional_process reg handle_at i e) v [].
Proof using reg_answers attempts_answer.
  intros Ha He Hv. unfold transactional_process. split; [done|]. cbn [ids_effect]. intros w _.
  assert (Hno : forall reason v' d, knows P v' -> fates d = [] -> drops d = 0 -> puts d = [] ->
    sound ids_of ids_effect (may EventBus.TRANSACTIONAL) (transactional_ends P e) (abandon Transactional.name reason e) v' d).
  { intros reason v' d Hv' H1 H2 H3. apply sound_abandon; [done|by intros []|]. right. left. split; [|done].
    unfold refused, fates, drops, puts in *. rewrite !omap_app, H1, H3, zlen_app, H2. done. }
  destruct (paused_ (txn w)); [by apply Hno|]. intros w1 Hw1.
  destruct (Dedup.is_duplicate _ _ _) eqn:Hdup.
  { right. right. split; [done|]. split; [|done]. eapply knows_duplicate; [exact Hv|]. rewrite <- Hw1. exact Hdup. }
  split; [done|]. pose proof (knows_cleanup P i v Hv) as Hv1. generalize dependent (ids_effect (Cleanup i) v). intros v1 Hv1.
  destruct (reg_answers (topic e) e) as (va & Hva & Hok). apply sound_after. exists va. split; [done|].
  destruct (Handlers.valid va); cbn [negb]; [|by apply Hno].
  destruct (Hok eq_refl) as [(r & Hr) (hr & Hhr)]. apply sound_after. exists r. split; [done|].
  destruct (Handlers.valid r); cbn [negb]; [|by apply Hno]. intros w2 _.
  destruct (Ledger.retry_answers handle_at attempts_answer _ e hr (Z.to_nat (max_retries_ (txn w2))) 1 Hhr) as [b Hb].
  apply sound_after. exists b. split; [done|]. destruct b; [|by apply Hno].
  split; [done|]. pose proof (knows_remember P i e v1 Hv1) as Hv2. generalize dependent (ids_effect (Remember i e) v1). intros v2 Hv2.
  cbn [sound may ids_effect]. rewrite Ha. split_and!; [done..|]. by left.
Qed.

(** ** The batch processor *)

Lemma at_topic_same t b m : at_topic t (<[t := b]> m) = b.
Proof. unfold at_topic. by rewrite lookup_insert_eq. Qed.
Lemma at_topic_other t t' b m : t' <> t -> at_topic t' (<[t := b]> m) = at_topic t' m.
Proof. intros H. unfold at_topic. by rewrite lookup_insert_ne. Qed.

Lemma in_order_insert t b m :
  in_order m -> Forall (fit t) (events b) -> in_order (<[t := b]> m).
Proof.
  intros Hm Hb t'. destruct (decide (t' = t)) as [->|Hne]; [by rewrite at_topic_same|by rewrite at_topic_other].
Qed.

Lemma all_events_replace t b m :
  Ledger.all_events (<[t := b]> m) ++ events (at_topic t m) ≡ₚ Ledger.all_events m ++ events b.
Proof. rewrite Ledger.all_events_insert, (Ledger.all_events_lookup m t). unfold at_topic. solve_Permutation. Qed.

Abbreviation batch_sound := (sound buckets_of buckets_effect (may EventBus.BATCHQ)).

(** The accesses [l] of a flush of the events [fl]. *)
Definition flushing (fl : list Event) (l : list access) : Prop := fates l = map verdict fl /\ drops l = 0 /\ puts l = [].

Lemma flush_loop_sound Q i t evts n k m d : Ledger.accepting i ->
  Forall (fit t) evts ->
  (forall l, flushing evts l -> batch_sound Q k m (d ++ l)) ->
  batch_sound Q (flush_loop i (Handlers.getOrDefault t reg) evts n k) m d.
Proof.
  intros Ha. revert n d. induction evts as [|e evts IH]; intros n d Hev Hk; cbn [flush_loop].
  { rewrite <- (app_nil_r d). by apply Hk. }
  apply Forall_cons in Hev as [(Ht & [r Hr] & Hst) Hev]. subst t. apply sound_after. exists r. split; [done|].
  assert (Hg : verdict e = if bool_decide (Handlers.r_outcome r = Handlers.FAIL) || bool_decide (Handlers.r_outcome r = Handlers.DROP)
                           then Buried e else Logged e).
  { unfold verdict, Batch.good. rewrite Hr. by destruct (_ || _). }
  destruct (_ || _); cbn [sound may]; rewrite ?Ha; (split_and!; [done..|]); cbn [buckets_effect]; apply (IH _ _ Hev);
    intros l (H1 & H2 & H3); rewrite <- !app_assoc; apply Hk; unfold flushing, fates, drops, puts in *; cbn; by rewrite H1, Hg.
Qed.

Lemma flush_bucket_sound Q i t k m d : Ledger.accepting i -> in_order m ->
  (forall l b, flushing (events (at_topic t m)) l -> events b = [] ->
     batch_sound Q k (if decide (events (at_topic t m) = []) then m else <[t := b]> m) (d ++ l)) ->
  batch_sound Q (flushBucketLocked reg i t k) m d.
Proof.
  intros Ha Hm Hk w Hw. unfold Batch.bucket_of. change (buckets_ (batch w)) with (buckets_of w). rewrite Hw.
  change (default _ _) with (at_topic t m). destruct (events (at_topic t m)) as [|e evts] eqn:Hev.
  { rewrite <- (app_nil_r d). by apply (Hk [] (mkTopicBucket [] 0)). }
  apply flush_loop_sound; [done|rewrite <- Hev; apply Hm|]. intros l (H1 & H2 & H3). cbn [sound may buckets_effect]. split_and!; [done..|].
  rewrite <- !app_assoc. apply (Hk _ (mkTopicBucket [] (last_flush_time (at_topic t m)))); [|done].
  unfold flushing, fates, drops, puts in *. rewrite !omap_app, H1, H3, zlen_app, H2. cbn. by rewrite app_nil_r.
Qed.

(** The bucket of a topic has been emptied. *)
Definition emptied (t : string) (m m' : gmap string TopicBucket) : Prop :=
  in_order m' /\ Ledger.all_events m ≡ₚ events (at_topic t m) ++ Ledger.all_events m' /\
  events (at_topic t m') = [] /\ forall t', t' <> t -> at_topic t' m' = at_topic t' m.

Lemma emptied_after t m b : in_order m -> events b = [] ->
  emptied t m (if decide (events (at_topic t m) = []) then m else <[t := b]> m).
Proof.
  intros Hm Hb. destruct (decide _) as [He|_]; [unfold emptied; by rewrite He|].
  pose proof (all_events_replace t b m) as Hall. rewrite Hb, app_nil_r in Hall. split; [|split; [|split]].
  - apply in_order_insert; [done|]. by rewrite Hb.
  - by rewrite <- Hall, Permutation_app_comm.
  - by rewrite at_topic_same.
  - intros t' Ht. by apply at_topic_other.
Qed.

Lemma flushing_app fl fl' l l' : flushing fl l -> flushing fl' l' -> flushing (fl ++ fl') (l ++ l').
Proof.
  unfold flushing, fates, drops, puts. intros (H1 & H2 & H3) (H4 & H5 & H6).
  by rewrite !omap_app, map_app, zlen_app, H1, H2, H3, H4, H5, H6.
Qed.

Lemma flush_each_sound Q i ts k m d : (forall t, Ledger.accepting (i t)) -> in_order m ->
  (forall l m' fl, flushing fl l -> in_order m' -> Ledger.all_events m ≡ₚ fl ++ Ledger.all_events m' ->
     (forall t, t ∈ ts -> events (at_topic t m') = []) -> (forall t, t ∉ ts -> at_topic t m' = at_topic t m) ->
     batch_sound Q k m' (d ++ l)) ->
  batch_sound Q (flush_each reg i ts k) m d.
Proof.
  intros Ha. revert m d. induction ts as [|t ts IH]; intros m d Hm Hk; cbn [flush_each].
  { rewrite <- (app_nil_r d). apply (Hk [] m []); try done. intros t Ht. by apply not_elem_of_nil in Ht. }
  apply flush_bucket_sound; [done..|]. intros l b Hl Hb. destruct (emptied_after t m b Hm Hb) as (Hm1 & Hall & Ht1 & Hne1).
  generalize dependent (if decide (events (at_topic t m) = []) then m else <[t := b]> m). intros m1 Hm1 Hall Ht1 Hne1.
  apply IH; [done|]. intros l' m' fl Hl' Hm' Hall' Hin Hout. rewrite <- app_assoc. apply (Hk _ _ (events (at_topic t m) ++ fl)).
  - by apply flushing_app.
  - done.
  - by rewrite Hall, Hall', app_assoc.
  - intros t' Ht. destruct (decide (t' ∈ ts)) as [|Hnin]; [by apply Hin|]. rewrite Hout by done.
    destruct (decide (t' = t)) as [->|Hne]; [done|]. apply elem_of_cons in Ht as [|]; done.
  - intros t' Ht. apply not_elem_of_cons in Ht as [Hne Ht]. by rewrite Hout, Hne1.
Qed.

Lemma stop_sound i walk m : (forall t, Ledger.accepting (i t)) -> Batch.complete walk -> in_order m ->
  batch_sound (stop_ends m) (stop_program reg EventBus.BATCHQ i walk) m [].
Proof.
  intros Ha Hc Hm w Hw. change (buckets_ (batch w)) with (buckets_of w). rewrite Hw. apply flush_each_sound; [done..|].
  intros l m' fl (H1 & H2 & H3) Hm' Hall Hin Hout. split; [done|]. cbn [app buckets_effect]. split; [|split].
  - exists fl. unfold flushed, fates, drops, puts in *. rewrite !omap_app, H1, H3, zlen_app, H2, !app_nil_r. done.
  - intros t. destruct (decide (t ∈ walk m)) as [|Hnin]; [by apply Hin|]. rewrite Hout by done. unfold at_topic.
    destruct (m !! t) eqn:E; [|done]. destruct Hnin. by apply Hc.
  - by rewrite last_snoc.
Qed.

Lemma all_events_same t b m : events b = events (at_topic t m) -> Ledger.all_events (<[t := b]> m) ≡ₚ Ledger.all_events m.
Proof. intros Hb. apply (Permutation_app_inv_r (events (at_topic t m))). by rewrite all_events_replace, Hb. Qed.

(** The end of a call that has put its event into the bucket: the time of the flush. *)
Lemma stamp_sound m m1 m' i e fl d l : Ledger.all_events m ++ [e] ≡ₚ Ledger.all_events m1 ->
  fates d = [] /\ drops d = 0 /\ puts d = [e] ->
  flushing fl l -> in_order m' -> Ledger.all_events m1 ≡ₚ fl ++ Ledger.all_events m' ->
  batch_sound (batch_ends m e) (Do (Stamp (topic e) (steady_ns i)) (Do (Touch Batch.name i) Halt)) m' (d ++ l).
Proof.
  intros Hall (D1 & D2 & D3) (H1 & H2 & H3) Hm' Hall'. cbn [sound may buckets_effect]. do 2 (split; [done|]). right. exists fl.
  unfold flushed, fates, drops, puts in *. rewrite !omap_app, D1, D3, H1, H3, !zlen_app, D2, H2. cbn. rewrite !app_nil_r.
  split_and!; try done; [by apply in_order_insert|]. rewrite Hall, Hall'. f_equiv. symmetry. by apply all_events_same.
Qed.

Lemma bucket_event_sound i e m d : Ledger.accepting i -> in_order m -> fit (topic e) e ->
  fates d = [] /\ drops d = 0 /\ puts d = [] -> batch_sound (batch_ends m e) (bucket_event reg i e) m d.
Proof.
  intros Ha Hm He (D1 & D2 & D3). pose proof He as (_ & Hans & Hst).
  set (b0 := mkTopicBucket (events (at_topic (topic e) m) ++ [e]) (last_flush_time (at_topic (topic e) m))).
  assert (Hm1 : in_order (<[topic e := b0]> m)).
  { apply in_order_insert; [done|]. apply Forall_app. split; [apply Hm|by constructor]. }
  assert (Hall : Ledger.all_events m ++ [e] ≡ₚ Ledger.all_events (<[topic e := b0]> m)).
  { apply (Permutation_app_inv_r (events (at_topic (topic e) m))). rewrite all_events_replace. subst b0. cbn [events]. solve_Permutation. }
  unfold bucket_event. split; [done|]. split; [done|]. cbn [buckets_effect]. fold b0. clearbody b0.
  generalize dependent (<[topic e := b0]> m). intros m1 Hm1 Hall. rewrite <- app_assoc. cbn [app].
  assert (Hd : fates (d ++ [Put e; CountProcessed Batch.name]) = [] /\ drops (d ++ [Put e; CountProcessed Batch.name]) = 0 /\
    puts (d ++ [Put e; CountProcessed Batch.name]) = [e]).
  { unfold fates, drops, puts in *. by rewrite !omap_app, D1, D3, zlen_app, D2. }
  generalize dependent (d ++ [Put e; CountProcessed Batch.name]). intros d1 Hd.
  intros w1 _. rewrite <- (app_nil_r d1). destruct (_ =? 0); [by apply (stamp_sound m m1 m1 i e [])|]. destruct (_ <=? _).
  - apply flush_bucket_sound; [done..|]. intros l b Hl Hb. destruct (emptied_after (topic e) m1 b Hm1 Hb) as (H1 & H2 & _).
    rewrite <- app_assoc. by eapply stamp_sound.
  - split; [done|]. right. exists []. unfold flushed, fates, drops, puts in *. destruct Hd as (H1 & H2 & H3).
    rewrite !omap_app, H1, H3, !zlen_app, H2. cbn. by rewrite Hall.
Qed.

Lemma batch_process_sound i e m : Ledger.accepting i -> StorageEngine.storable e -> in_order m ->
  batch_sound (batch_ends m e) (batch_process reg i e) m [].
Proof using reg_answers.
  intros Ha Hst Hm. unfold batch_process. split; [done|]. cbn [buckets_effect]. intros w _.
  destruct (drop_events_ (batch w)); [cbn [sound may buckets_effect]; split_and!; [done..|]; by left|].
  assert (Hno : forall reason, batch_sound (batch_ends m e) (abandon Batch.name reason e) m ([] ++ [Find Batch.name]))
    by (intros reason; apply sound_abandon; [done|by intros []|by left]).
  destruct (reg_answers (topic e) e) as (v & Hv & Hok). apply sound_after. exists v. split; [done|].
  destruct (Handlers.valid v); cbn [negb]; [|done]. destruct (Hok eq_refl) as [(r & Hr) (hr & Hhr)].
  apply sound_after. exists r. split; [done|]. destruct (Handlers.valid r); cbn [negb]; [|done].
  apply bucket_event_sound; [done..| |done]. split_and!; [done|by exists hr|done].
Qed.

(** The loops of the realtime and of the transactional processor leave with a flush. *)
Lemma flush_sound {V} (view : PWorld S -> V) effect q Q v : effect Flush v = v -> Q v [Flush] ->
  sound view effect (may q) Q (Do Flush Halt) v [].
Proof. intros He HQ. cbn. by rewrite He. Qed.

(** ** Accesses *)

(** One more is dropped under the name [n]. *)
Definition drops_under (n : string) (x : access) : Z := match x with CountDropped n' => if decide (n' = n) then 1 else 0 | _ => 0 end.

Lemma access_returns q x w old L : may q x -> Ledger.logged old L w -> Realtime.quiet w -> (exists a, EventBus.sim (bw w) a) ->
  (perform others x w).1 = Ret tt.
Proof.
  intros Hx (st & Hst & Hok) Hq [a Hs]. destruct x; try done; cbn [perform].
  - destruct Hx as [-> _]. unfold store. rewrite Hst. pose proof (StorageEngine.storeEvent_ok old L e st Hok) as [H _].
    by destruct (StorageEngine.storeEvent true e st) as [o st'].
  - by destruct (Realtime.emitAlert_quiet level message i e w Hq) as [seen ->].
  - by destruct (Ledger.drop_queue_effect w) as (b & -> & _); [exists a|].
Qed.

Lemma access_members q x (w : PWorld S) : may q x ->
  rt (perform others x w).2 = rt w /\ buckets_of (perform others x w).2 = buckets_effect x (buckets_of w) /\
  ids_of (perform others x w).2 = ids_effect x (ids_of w).
Proof.
  intros Hx. destruct x; try done; cbn [perform].
  - cbn. by destruct (has_dlq w).
  - unfold store. destruct (storage_ w); [|done]. by destruct (StorageEngine.storeEvent ok e _).
  - by destruct (touch_rest name i w) as [b ->].
  - unfold Realtime.emitAlert. destruct (alert_handler_ _); [|done]. by destruct (Handlers.onAlert _ _ _).
  - cbn. unfold ids_of. cbv zeta. by destruct (Transactional.cleanup_due _ _).
  - cbn. by destruct (0 <? _).
  - cbn. unfold Batch.drop_queue. destruct (has_bus _); [|done]. by destruct (EventBus.dropBatchFromQueue _ _) as [[]| |].
Qed.

Lemma access_dropped x (w : PWorld S) n k : n <> MetricNames.EVENTBUS ->
  dropped n w = wrap 64 k -> dropped n (perform others x w).2 = wrap 64 (k + drops_under n x).
Proof.
  intros Hn Hk.
  assert (Hset : forall n' f, (forall m, total_events_dropped (f m) = total_events_dropped m) ->
    dropped n (set_metrics n' f w) = wrap 64 (k + 0)).
  { intros n' f Hf. rewrite Z.add_0_r, <- Hk. destruct (decide (n' = n)) as [->|Hne]; [by unfold dropped; rewrite metrics_of_set|].
    apply Ledger.dropped_of, Ledger.leaves_set. done. }
  assert (Hleave : forall m : M S unit, leaves (metrics_of n) m -> dropped n (m w).2 = wrap 64 (k + 0)).
  { intros m Hm. rewrite Z.add_0_r, <- Hk. apply Ledger.dropped_of, Hm. }
  destruct x; cbn [perform drops_under]; try (apply Hleave; first [by apply leaves_update|done]).
  - by apply Hset.
  - by apply Hset.
  - cbn. destruct (decide (name = n)) as [->|Hne].
    + unfold dropped in *. rewrite metrics_of_set. cbn. rewrite Hk. unfold add64. by rewrite wrap_add_l.
    + rewrite Z.add_0_r, <- Hk. by apply Ledger.dropped_of, Ledger.leaves_set.
  - apply Hleave, Ledger.leaves_push_dlq.
  - apply Hleave, Ledger.leaves_store_metrics.
  - destruct (decide (name = n)) as [->|Hne]; [|by apply Hleave, Ledger.leaves_touch].
    rewrite Z.add_0_r, <- Hk. by destruct (touch_metrics n i w) as (_ & -> & _).
  - apply Hleave, Ledger.leaves_alert.
  - apply Hleave, leaves_update. intros w'. cbv zeta. by destruct (Transactional.cleanup_due _ _).
  - apply Hleave, leaves_update. intros w'. by destruct (0 <? _).
  - by apply Hleave, Ledger.leaves_drop_queue.
Qed.

(** A flush puts the log on the disk; what follows until the next store leaves it there. *)
Definition durable (old : list byte) (L : list Event) (w : PWorld S) : Prop :=
  exists st, storage_ w = Some st /\ StorageEngine.on_disk (StorageEngine.storageFile st) = old ++ StorageEngine.log_bytes L.

Lemma access_storage x (w : PWorld S) : match x with Store _ _ | Flush => True | _ => storage_ (perform others x w).2 = storage_ w end.
Proof.
  destruct x; try done; cbn [perform].
  - cbn. by destruct (has_dlq w).
  - by destruct (touch_rest name i w) as [b ->].
  - unfold Realtime.emitAlert. destruct (alert_handler_ _); [|done]. by destruct (Handlers.onAlert _ _ _).
  - cbn. cbv zeta. by destruct (Transactional.cleanup_due _ _).
  - cbn. by destruct (0 <? _).
  - unfold Batch.drop_queue. destruct (has_bus _); [|done]. by destruct (EventBus.dropBatchFromQueue _ _) as [[]| |].
Qed.

Lemma flush_durably old L w : Ledger.logged old L w -> durable old L (perform others Flush w).2.
Proof.
  intros (st & Hst & Hok). exists (StorageEngine.flush st). cbn. rewrite Hst. split; [done|]. by apply StorageEngine.flush_durable.
Qed.

Lemma access_durable old L x w : Ledger.logged old L w -> (forall ok e, x <> Store ok e) -> durable old L w \/ x = Flush ->
  durable old L (perform others x w).2.
Proof.
  intros Hl Hx [(st & Hst & Hd)| ->]; [|by apply flush_durably]. pose proof (access_storage x w) as Hs.
  destruct x; try (by destruct (Hx ok e)); try (by apply flush_durably); (exists st; by rewrite Hs).
Qed.

(** ** The account of a loop *)

Definition View (q : EventBus.QueueId) : Type :=
  match q with EventBus.REALTIME => unit | EventBus.TRANSACTIONAL => Dedup.buckets * Z | EventBus.BATCHQ => gmap string TopicBucket end.
Definition view (q : EventBus.QueueId) : PWorld S -> View q :=
  match q with EventBus.REALTIME => nothing | EventBus.TRANSACTIONAL => ids_of | EventBus.BATCHQ => buckets_of end.
Definition effect (q : EventBus.QueueId) : access -> View q -> View q :=
  match q with EventBus.REALTIME => nothing_effect | EventBus.TRANSACTIONAL => ids_effect | EventBus.BATCHQ => buckets_effect end.

(** An earlier call logged an event of this id. *)
Definition committed (h : list (Call (S := S))) (k : Z) : Prop :=
  exists c, c ∈ h /\ kept (c_event c) (c_done c) /\ id (header (c_event c)) = k.

(** What each of the calls of a loop, in their order, did with its event. *)
Definition settled (q : EventBus.QueueId) (h : list (Call (S := S))) : Prop :=
  match q with
  | EventBus.REALTIME => Forall (fun c => kept (c_event c) (c_done c) \/ refused (c_event c) (c_done c)) h
  | EventBus.TRANSACTIONAL => forall h1 c h2, h = h1 ++ c :: h2 ->
      kept (c_event c) (c_done c) \/ refused (c_event c) (c_done c) \/
      (repeated (c_done c) /\ committed h1 (id (header (c_event c))))
  | EventBus.BATCHQ => Forall (fun c => refused (c_event c) (c_done c) \/ exists fl,
      puts (c_done c) = [c_event c] /\ drops (c_done c) = 0 /\ fates (c_done c) = map verdict fl) h
  end.

(** What a call of the batch processor did to events that were in buckets. *)
Definition flushes (c : Call (S := S)) : list fate := if decide (drops (c_done c) = 0) then fates (c_done c) else [].

(** Every event put into a bucket has been flushed, once, or is in a bucket. *)
Definition balance (h : list (Call (S := S))) (m : gmap string TopicBucket) : Prop :=
  in_order m /\ exists fl, concat (map flushes h) = map verdict fl /\
    concat (map (fun c => puts (c_done c)) h) ≡ₚ fl ++ Ledger.all_events m.

Definition account (q : EventBus.QueueId) (h : list (Call (S := S))) : View q -> Prop :=
  match q with
  | EventBus.REALTIME => fun _ => settled EventBus.REALTIME h
  | EventBus.TRANSACTIONAL => fun v => settled EventBus.TRANSACTIONAL h /\ knows (committed h) v
  | EventBus.BATCHQ => fun m => settled EventBus.BATCHQ h /\ balance h m
  end.

(** The account of a loop that has left, having made the accesses [d] on its way out. *)
Definition departed (q : EventBus.QueueId) (h : list (Call (S := S))) : View q -> list access -> Prop :=
  match q with
  | EventBus.BATCHQ => fun m d => settled EventBus.BATCHQ h /\ exists m0, balance h m0 /\ stop_ends m0 m d
  | _ => fun _ d => settled q h /\ fates d = [] /\ drops d = 0 /\ puts d = [] /\ last d = Some Flush
  end.

Lemma sound_mono {V} (vw : PWorld S -> V) eff mayx (Q Q' : V -> list access -> Prop) p v d :
  (forall v d, Q v d -> Q' v d) -> sound vw eff mayx Q p v d -> sound vw eff mayx Q' p v d.
Proof.
  intros HQ. revert v d. induction p as [| | |x k IH|k IH]; intros v d; cbn; [by apply HQ|done..| |].
  - intros [Hx Hk]. split; [done|]. by apply IH.
  - intros Hk w Hw. by apply IH, Hk.
Qed.

Definition finished (i : Inputs) (e : Event) (d : list access) : Call (S := S) := mkCall i e Halt d.

Lemma account_settled q h v : account q h v -> settled q h.
Proof. destruct q; cbn; tauto. Qed.

Lemma committed_snoc h c k : committed (h ++ [c]) k <-> committed h k \/ (kept (c_event c) (c_done c) /\ id (header (c_event c)) = k).
Proof.
  unfold committed. setoid_rewrite elem_of_app. setoid_rewrite list_elem_of_singleton. naive_solver.
Qed.

(** The call that follows. *)
Lemma settled_snoc h c : settled EventBus.TRANSACTIONAL h ->
  kept (c_event c) (c_done c) \/ refused (c_event c) (c_done c) \/ (repeated (c_done c) /\ committed h (id (header (c_event c)))) ->
  settled EventBus.TRANSACTIONAL (h ++ [c]).
Proof.
  intros Hh Hc h1 c' h2 Heq. destruct h2 as [|c2 h2 _] using rev_ind.
  - apply app_inj_tail in Heq as [-> ->]. done.
  - rewrite app_comm_cons, app_assoc in Heq. apply app_inj_tail in Heq as [-> _]. by eapply Hh.
Qed.

(** A call of a processor, from the account before it to the account after it. *)
Lemma program_sound q h i e v : Ledger.accepting i -> StorageEngine.storable e -> account q h v ->
  sound (view q) (effect q) (may q) (fun v d => account q (h ++ [finished i e d]) v) (program_of reg handle_at q i e) v [].
Proof using reg_answers attempts_answer.
  intros Ha Hst. destruct q; cbn [account view effect program_of].
  - intros Hh. destruct v. eapply sound_mono, realtime_sound; [|done..]. intros ? d Hd. apply Forall_app. split; [done|]. by constructor.
  - intros [Hh Hk]. eapply sound_mono, (transactional_sound (committed h)); [|done..]. intros v' d Hd. split.
    + apply settled_snoc; [done|]. cbn. unfold transactional_ends in Hd. tauto.
    + destruct Hd as [[Hd Hv']|[[Hd Hv']|(Hd & _ & Hv')]].
      * eapply knows_weaken, Hv'. intros k. rewrite committed_snoc. cbn. naive_solver.
      * eapply knows_weaken, Hv'. intros k. rewrite committed_snoc. by left.
      * eapply knows_weaken, Hv'. intros k. rewrite committed_snoc. by left.
  - intros [Hh (Hm & fl & Hfl & Hp)]. eapply sound_mono, batch_process_sound; [|done..]. intros m' d Hd. split.
    + apply Forall_app. split; [done|]. constructor; [|done]. cbn. destruct Hd as [[Hd _]|(fl' & H1 & H2 & H3 & _)]; [by left|]. right. by exists fl'.
    + unfold balance. rewrite !map_app, !concat_app. cbn [map concat c_done finished]. rewrite !app_nil_r.
      change (flushes (finished i e d)) with (if decide (drops d = 0) then fates d else []).
      destruct Hd as [[(H1 & H2 & H3) Heq]|(fl' & H1 & H2 & H3 & Hm' & Hall)].
      * rewrite Heq. split; [done|]. exists fl. rewrite decide_False, H3, !app_nil_r by (rewrite H2; done). done.
      * split; [done|]. exists (fl ++ fl'). rewrite decide_True, H3, H1, Hfl, map_app by done. split; [done|].
        rewrite Hp, <- !app_assoc. f_equiv. exact Hall.
Qed.

Lemma departure_sound q h i walk v : (forall t, Ledger.accepting (i t)) -> Batch.complete walk -> account q h v ->
  sound (view q) (effect q) (may q) (departed q h) (stop_program reg q i walk) v [].
Proof.
  intros Ha Hc. destruct q; cbn [account].
  - intros Hh. by apply (flush_sound (view EventBus.REALTIME) (effect EventBus.REALTIME)).
  - intros [Hh Hk]. by apply (flush_sound (view EventBus.TRANSACTIONAL) (effect EventBus.TRANSACTIONAL)).
  - intros [Hh Hb]. eapply sound_mono, stop_sound; [|done..|apply Hb]. intros m d Hd. split; [done|]. by exists v.
Qed.

(** The accesses of one loop do not touch what another keeps to itself. *)
Lemma effect_elsewhere q q' x v : may q x -> q' <> q -> effect q' x v = v.
Proof. intros Hx Hq. destruct q', x; try done; cbn in Hx; destruct q; naive_solver. Qed.

Lemma access_view q x (w : PWorld S) q' : may q x ->
  view q' (perform others x w).2 = if decide (q' = q) then effect q' x (view q' w) else view q' w.
Proof.
  intros Hx. destruct (access_members q x w Hx) as (_ & Hb & Hi). destruct (decide (q' = q)) as [->|Hq].
  - by destruct q.
  - transitivity (effect q' x (view q' w)); [by destruct q'|by eapply effect_elsewhere].
Qed.

End Private.
End Private.
