(* ===== verification/Teardown.v ===== *)
(** * The whole engine, access by access, to its end

    Module [Teardown]: the interleaved engine of [Interleaving.v] with the ends of its threads.
    A loop that reads [isRunning_] as false between two turns leaves, and its processor's
    [stop] is a program of accesses like any call: while the batch loop writes its buckets
    out on its way the others may still be at work, or on their own way out.  The
    books are those of [Private.v], one account for each loop, carried through every schedule:
    each event given to a processor is logged once, or refused once and counted, or repeats an
    id logged before; the file, once all have left, holds the events logged, in order. *)

From S2P Require Import Prelude Event FrameParser Spsc Mpsc Dlq Metrics EventBus Storage Handlers Output Dedup Processor.
From S2P Require Import Transactional Batch Safety Ledger Dispatcher Pipeline Manager Delivery Engine Access Interleaving.
From S2P Require Import Typing Shutdown Private.
#[local] Open Scope Z_scope.

Module Teardown.
Import Access Private.
Import -(notations) Interleaving.
#[local] Existing Instance EventBus.QueueId_eq_dec.

Section Teardown.
Context {S : Type} (reg : Handlers.registry)
  (handle_at : Handlers.EventHandler -> Z -> Event -> outcome Handlers.HandleResult)
  (others : Output.Stream (S := S) -> Output.Stream (S := S))
  (table : option (gmap string EventPriority)).

(** ** State *)

(** A loop on its way out: what is left of [stop] and - no step depends on it - what it has done. *)
Record Farewell := mkFarewell { f_rest : program (S := S); f_done : list access }.

Record State := mkState {
  fine : Interleaving.State (S := S);
  farewell : EventBus.QueueId -> option Farewell;
  dispatching : bool;
  (* the accesses of all loops, calls and [stop]s alike, in the order they were made *)
  history : list (EventBus.QueueId * access)
}.

Inductive Action :=
| Step (a : Interleaving.Action)
| Leave (q : EventBus.QueueId) (i : string -> Inputs) (walk : gmap string TopicBucket -> list string)
| Retire (q : EventBus.QueueId)
| StopDispatcher.

(** A thread that has left takes nothing more. *)
Definition gone (a : Interleaving.Action) (s : State) : bool :=
  match a with
  | Other (Engine.Take q _) => match farewell s q with Some _ => true | None => false end
  | Other Engine.Route => negb (dispatching s)
  | _ => false
  end.

(** The access an action makes. *)
Definition made (a : Interleaving.Action) (s : Interleaving.State (S := S)) : list (EventBus.QueueId * access) :=
  match a with
  | Advance q =>
      match calls s q with Some c => match c_rest c with Do x _ => [(q, x)] | _ => [] end | None => [] end
  | _ => []
  end.

Definition with_world (w : PWorld S) (s : Interleaving.State (S := S)) : Interleaving.State (S := S) :=
  Interleaving.mkState (Engine.set_world w (eng s)) (calls s) (trace s) (ended s).

Definition world_of (s : State) : PWorld S := Engine.world (eng (fine s)).

(** [stop] is called outside the [try] of the loop: an exception would end the process. *)
Definition exec (a : Action) (s : State) : outcome State :=
  match a with
  | Step a =>
      if gone a s then Ret s else
      f ← Interleaving.exec reg handle_at others table a (fine s);
      Ret (mkState f (farewell s) (dispatching s) (history s ++ made a (fine s)))
  | Leave q i walk =>
      match farewell s q, Engine.hand (eng (fine s)) q with
      | None, None =>
          Ret (mkState (fine s) (<[q := Some (mkFarewell (stop_program reg q i walk) [])]> (farewell s)) (dispatching s) (history s))
      | _, _ => Ret s
      end
  | Retire q =>
      match farewell s q with
      | Some (mkFarewell rest done) =>
          match rest with
          | Halt => Ret s
          | Raise what => Throw what
          | Undefined => UB
          | Look k =>
              Ret (mkState (fine s) (<[q := Some (mkFarewell (k (world_of s)) done)]> (farewell s)) (dispatching s) (history s))
          | Do x k =>
              match perform others x (world_of s) with
              | (Ret _, w) =>
                  Ret (mkState (with_world w (fine s)) (<[q := Some (mkFarewell k (done ++ [x]))]> (farewell s)) (dispatching s)
                         (history s ++ [(q, x)]))
              | (Throw what, _) => Throw what
              | (UB, _) => UB
              end
          end
      | None => Ret s
      end
  | StopDispatcher =>
      match Engine.held (eng (fine s)) with
      | None => Ret (mkState (fine s) (farewell s) false (history s))
      | Some _ => Ret s
      end
  end.

Fixpoint run (l : list Action) (s : State) : outcome State :=
  match l with [] => Ret s | a :: l' => s ← exec a s; run l' s end.

Definition launched (w : PWorld S) (id : Z) : State := mkState (Interleaving.start w id) (fun _ => None) true [].

(** The loop has left and its [stop] has returned. *)
Definition left (q : EventBus.QueueId) (s : State) : Prop := exists d, farewell s q = Some (mkFarewell Halt d).
Definition all_left (s : State) : Prop := forall q, left q s.

(** What a loop on its way out has done. *)
Definition parting (q : EventBus.QueueId) (s : State) : list access :=
  match farewell s q with Some f => f_done f | None => [] end.

Lemma run_step a l s s1 : exec a s = Ret s1 -> run (a :: l) s = run l s1.
Proof. intros H. cbn [run]. by rewrite H. Qed.

Lemma run_then l l' s s1 : run l s = Ret s1 -> run (l ++ l') s = run l' s1.
Proof.
  revert s. induction l as [|a l IH]; intros s; [by intros [= ->]|]. cbn [app run].
  destruct (exec a s) as [s2| |]; cbn [mbind outcome_bind]; [apply IH|done..].
Qed.

(** ** What the threads share *)

(** Nothing was stored since the last flush: by any loop; by the loop of [q]. *)
Definition clean_step (q : EventBus.QueueId -> bool) (b : bool) (qx : EventBus.QueueId * access) : bool :=
  match qx.2 with Store _ _ => if q qx.1 then false else b | Flush => true | _ => b end.
Definition all_clean (h : list (EventBus.QueueId * access)) : bool := fold_left (clean_step (fun _ => true)) h false.
Definition clean (q : EventBus.QueueId) (h : list (EventBus.QueueId * access)) : bool :=
  fold_left (clean_step (fun q' => bool_decide (q' = q))) h true.

Lemma all_clean_each h : (forall q, clean q h = true) -> Exists (fun qx => qx.2 = Flush) h -> all_clean h = true.
Proof.
  unfold clean, all_clean. induction h as [|[q x] h IH] using rev_ind; intros Hc He; [by apply Exists_nil in He|].
  rewrite fold_left_app. setoid_rewrite fold_left_app in Hc.
  assert (Hx : Exists (fun qx => qx.2 = Flush) h \/ x = Flush).
  { apply Exists_app in He as [He|He]; [by left|]. apply Exists_cons in He as [He|He]; [by right|by apply Exists_nil in He]. }
  destruct x; cbn in Hc |- *; try done; try (destruct Hx as [Hx|Hx]; [by apply IH|done]).
  specialize (Hc q). by rewrite bool_decide_true in Hc.
Qed.

Lemma clean_snoc q h q' x : clean q h = true -> (q' = q -> forall ok e, x <> Store ok e) -> clean q (h ++ [(q', x)]) = true.
Proof.
  unfold clean. intros Hc Hx. rewrite fold_left_app. destruct x; cbn; try done.
  case_bool_decide as Hq; [|done]. by destruct (Hx Hq ok e).
Qed.

Lemma clean_flush q h q' : clean q (h ++ [(q', Flush)]) = true.
Proof. unfold clean. by rewrite fold_left_app. Qed.

(** The log, the file, the counters and the alert handler, after the accesses [h]. *)
Record shared (old : list byte) (h : list (EventBus.QueueId * access)) (w : PWorld S) : Prop := {
  h_log : Ledger.logged old (stores h) w;
  h_stored : Forall StorageEngine.storable (stores h);
  h_file : all_clean h = true -> durable old (stores h) w;
  h_quiet : Realtime.quiet w;
  h_drops : forall q, dropped (Shutdown.name_of q) w = wrap 64 (drops (traced q h))
}.

Lemma name_of_inj q q' : Shutdown.name_of q = Shutdown.name_of q' -> q = q'.
Proof. by destruct q, q'. Qed.

Lemma drops_snoc q h q' x : may reg q' x ->
  drops (traced q (h ++ [(q', x)])) = drops (traced q h) + drops_under (Shutdown.name_of q) x.
Proof.
  intros Hx. rewrite traced_snoc. unfold drops. rewrite omap_app, zlen_app. f_equal.
  destruct (decide (q' = q)) as [->|Hne].
  - destruct x; cbn in *; try done. subst. by rewrite decide_True.
  - destruct x; cbn in *; try done. subst. rewrite decide_False; [done|]. intros H. by apply Hne, name_of_inj.
Qed.

Lemma access_shared old h w q x : shared old h w -> may reg q x -> (exists a, EventBus.sim (bw w) a) ->
  exists w', perform others x w = (Ret tt, w') /\ shared old (h ++ [(q, x)]) w'.
Proof.
  intros [Hl Hfit Hf Hq Hd] Hx Hs. pose proof (access_returns reg others q x w old _ Hx Hl Hq Hs) as Hret.
  pose proof (access_log others old (stores h) x w Hl) as Hlog. pose proof (access_members reg others q x w Hx) as (Hrt & _).
  pose proof (access_durable others old (stores h) x w Hl) as Hdur.
  assert (Hdrop : forall q', dropped (Shutdown.name_of q') (perform others x w).2 = wrap 64 (drops (traced q' (h ++ [(q, x)])))).
  { intros q'. rewrite (drops_snoc q' h q x Hx). apply access_dropped; [by destruct q'|apply Hd]. }
  destruct (perform others x w) as [o w']. cbn [fst snd] in *. subst o. exists w'. split; [done|]. split.
  - rewrite stores_snoc. destruct x; rewrite ?app_nil_r; try done. by apply Hlog, Hx.
  - rewrite stores_snoc. apply Forall_app. split; [done|]. destruct x; try constructor; [apply Hx|done].
  - unfold all_clean. rewrite fold_left_app, stores_snoc. destruct x; cbn; intros Hc; try done; rewrite app_nil_r; apply Hdur; try done; try (left; by apply Hf); by right.
  - unfold Realtime.quiet in *. by rewrite Hrt.
  - done.
Qed.

Lemma calm_shared old h w w' : Shutdown.calm w w' -> shared old h w -> shared old h w'.
Proof.
  intros Hc [Hl Hfit Hf Hq Hd]. split.
  - eapply Ledger.logged_storage; [apply Hc|done].
  - done.
  - intros H. destruct (Hf H) as (st & Hst & Hdisk). exists st. by rewrite (Shutdown.c_storage _ _ Hc).
  - unfold Realtime.quiet. rewrite (Shutdown.c_rt _ _ Hc). intros h' a seen. apply Hq.
  - intros q. rewrite (Shutdown.c_counters _ _ Hc); [done|by destruct q].
Qed.

Lemma calm_view (w w' : PWorld S) q : Shutdown.calm w w' -> view q w' = view q w.
Proof.
  intros Hc. destruct q; cbn; [done|..].
  - unfold ids_of. by rewrite (Shutdown.c_ids _ _ Hc), (Shutdown.c_cleanup _ _ Hc).
  - apply Hc.
Qed.

(** ** The books *)

Context (reg_answers : Ledger.answering reg).
Context (attempts_answer : forall hd k e hr, Handlers.handle hd e = Ret hr -> exists hr', handle_at hd k e = Ret hr').
Context (handle_at_defined : forall hd k e, Handlers.handle hd e <> UB -> handle_at hd k e <> UB).

Abbreviation heap_now s := (Engine.heap_of (eng (fine s))).
Abbreviation hand_now s := (Engine.hand (eng (fine s))).
Abbreviation past s := (fun q => map snd (ended (fine s) q)).

(** The account of a loop, whatever it is in the middle of. *)
Definition judged (q : EventBus.QueueId) (s : State) : Prop :=
  match calls (fine s) q, farewell s q with
  | Some c, _ =>
      sound (view q) (effect q) (may reg q) (fun v d => account reg q (past s q ++ [finished (c_inputs c) (c_event c) d]) v)
        (c_rest c) (view q (world_of s)) (c_done c)
  | None, Some f =>
      sound (view q) (effect q) (may reg q) (departed reg q (past s q)) (f_rest f) (view q (world_of s)) (f_done f)
  | None, None => account reg q (past s q) (view q (world_of s))
  end.

(** A loop that has left its last turn. *)
Record away (q : EventBus.QueueId) (f : Farewell) (s : State) : Prop := {
  a_hand : hand_now s q = None;
  a_tidy : Interleaving.tidy reg others False (f_rest f);
  a_clean : last (f_done f) = Some Flush -> clean q (history s) = true
}.

Record books (old : list byte) (s : State) : Prop := {
  k_fine : Interleaving.inv reg handle_at others (fine s);
  k_typed : Typing.typed_heap (heap_now s);
  k_shared : shared old (history s) (world_of s);
  k_trace : forall q, traced q (history s) = traced q (trace (fine s)) ++ parting q s;
  k_judged : forall q, judged q s;
  k_settled : forall q, settled reg q (past s q);
  k_whole : forall q, Forall (fun pc => c_rest pc.2 = Halt) (ended (fine s) q);
  k_away : forall q f, farewell s q = Some f -> away q f s
}.

Lemma judged_same q s s' :
  calls (fine s') q = calls (fine s) q -> farewell s' q = farewell s q -> ended (fine s') q = ended (fine s) q ->
  view q (world_of s') = view q (world_of s) -> judged q s -> judged q s'.
Proof. unfold judged. by intros -> -> -> ->. Qed.

Lemma away_same q f s s' : hand_now s' q = hand_now s q -> history s' = history s -> away q f s -> away q f s'.
Proof. intros Hh Hs [H1 H2 H3]. split; [by rewrite Hh|done|by rewrite Hs]. Qed.

(** Another loop has made an access. *)
Lemma away_more q q' x f s s' : q' <> q -> hand_now s' q = hand_now s q -> history s' = history s ++ [(q', x)] ->
  away q f s -> away q f s'.
Proof.
  intros Hq Hh Hs [H1 H2 H3]. split; [by rewrite Hh|done|]. intros Hl. rewrite Hs. apply clean_snoc; [by apply H3|done].
Qed.

Lemma away_no_call old s q f : books old s -> farewell s q = Some f -> calls (fine s) q = None.
Proof.
  intros Hb Hf. destruct (calls (fine s) q) as [c|] eqn:Hc; [|done]. pose proof (a_hand _ _ _ (k_away _ _ Hb q f Hf)).
  destruct (o_event _ _ _ _ _ _ (n_calls _ _ _ _ (k_fine _ _ Hb) q c Hc)) as (l & Hh & _). congruence.
Qed.

(** An access a loop may make. *)
Lemma loop_access old s q x D : books old s -> may reg q x ->
  (forall a h, upholds (Safety.within reg a h D) (perform others x)) -> exists w,
  perform others x (world_of s) = (Ret tt, w) /\ shared old (history s ++ [(q, x)]) w /\
  EventBus.heap (bw w) = heap_now s /\ Engine.inv reg (Engine.set_world w (eng (fine s))) /\
  forall q', view q' w = if decide (q' = q) then effect q' x (view q' (world_of s)) else view q' (world_of s).
Proof using reg_answers handle_at_defined.
  intros Hb Hx Hu. pose proof (k_fine _ _ Hb) as Hf. destruct (Engine.v_bus _ _ (n_eng _ _ _ _ Hf)) as (a & Hs & _).
  destruct (access_shared old _ _ q x (k_shared _ _ Hb) Hx (ex_intro _ a Hs)) as (w & Hw & Hsh).
  destruct (frame_step reg handle_at others D x _ Hf Hu) as (o & w' & Hw' & _ & Hi & Hheap).
  unfold world_of in Hw. rewrite Hw in Hw'. injection Hw' as <- <-. exists w. do 4 (split; [done|]). intros q'.
  pose proof (access_view reg others q x (world_of s) q' Hx) as Hv. unfold world_of in Hv. by rewrite Hw in Hv.
Qed.

(** ** Actions of the other threads *)

Lemma typed_same old s w : books old s -> EventBus.heap (bw w) = heap_now s ->
  Typing.typed_heap (Engine.heap_of (Engine.set_world w (eng (fine s)))).
Proof. intros Hb Hw. unfold Engine.heap_of at 1. cbn. rewrite Hw. apply (k_typed _ _ Hb). Qed.

Lemma other_books old c s : books old s -> Typing.well_formed c -> gone (Other c) s = false ->
  exists s', exec (Step (Other c)) s = Ret s' /\ books old s'.
Proof using reg_answers handle_at_defined.
  intros Hb Hwf Hg. unfold exec. rewrite Hg. cbn [Interleaving.exec made]. destruct (is_work c) eqn:Hw.
  { exists s. split; [cbn; rewrite app_nil_r; by destruct s|done]. }
  pose proof (k_fine _ _ Hb) as Hf. pose proof (n_eng _ _ _ _ Hf) as Hi.
  destruct (interleaved_exec_inv reg handle_at others table (Shutdown.answering_tame reg reg_answers) handle_at_defined (Other c) _ Hf)
    as (f & Hx & Hf'). cbn [Interleaving.exec] in Hx. rewrite Hw in Hx.
  assert (Hx' := Hx). apply outcome_bind_ret in Hx' as (e & He & [= <-]). rewrite Hx. cbn [mbind outcome_bind]. eexists. split; [done|].
  rewrite app_nil_r. assert (Hgv : Shutdown.gives c = false) by (by destruct c).
  destruct (Shutdown.exec_calm reg handle_at others table c _ _ Hgv He) as (Hc & _ & Hh).
  pose proof (Typing.exec_heap reg handle_at others table (Shutdown.answering_tame reg reg_answers) handle_at_defined c _ _ Hi He) as Hheap.
  split; try (by apply Hb); cbn [fine history farewell].
  - done.
  - by eapply Typing.heap_step_typed, (k_typed _ _ Hb).
  - by eapply calm_shared, (k_shared _ _ Hb).
  - intros q. apply (judged_same q s); [done..|by apply calm_view|apply (k_judged _ _ Hb)].
  - intros q fw Hfw. destruct (k_away _ _ Hb q fw Hfw) as [H1 H2 H3]. split; [|done..]. cbn [fine eng]. apply Hh; [|done].
    destruct c as [| | | |q' ns| |]; try done. cbn in Hg |- *. case_bool_decide as Hq; [|done]. subst q'. by rewrite Hfw in Hg.
Qed.

(** ** A call *)

Lemma no_farewell old q p s : books old s -> hand_now s q = Some p -> farewell s q = None.
Proof. intros Hb Hh. destruct (farewell s q) as [f|] eqn:Hf; [|done]. pose proof (a_hand _ _ _ (k_away _ _ Hb q f Hf)). congruence. Qed.

Lemma begin_books old q i s : books old s -> Ledger.accepting i -> exists s', exec (Step (Begin q i)) s = Ret s' /\ books old s'.
Proof using reg_answers attempts_answer handle_at_defined.
  intros Hb Ha. pose proof (k_fine _ _ Hb) as Hf. unfold exec. cbn [gone made Interleaving.exec].
  destruct (calls (fine s) q) as [c|] eqn:Hc; [exists s; split; [cbn; rewrite app_nil_r; by destruct s|done]|].
  destruct (hand_now s q) as [p|] eqn:Hh; [|exists s; split; [cbn; rewrite app_nil_r; by destruct s|done]].
  destruct (begin_inv reg handle_at others table (Shutdown.answering_tame reg reg_answers) handle_at_defined q i _ Hf)
    as (f & Hx & Hf'). cbn [Interleaving.exec] in Hx. rewrite Hc, Hh in Hx. rewrite Hx. cbn [mbind outcome_bind].
  apply outcome_bind_ret in Hx as (e & He & [= <-]). eexists. split; [done|]. rewrite app_nil_r.
  pose proof (no_farewell _ _ _ _ Hb Hh) as Hnone. destruct p as [l|]; [|done]. cbn in He. destruct (heap_now s !! l) as [x|] eqn:El; [|done]. injection He as ->.
  split; try (by apply Hb); cbn [fine history farewell]; [done| |intros q' fw Hfw; by eapply away_same, (k_away _ _ Hb)].
  intros q'. destruct (decide (q' = q)) as [->|Hne].
  - unfold judged. cbn [fine calls set_call]. rewrite fn_lookup_insert. cbn [c_inputs c_event c_rest c_done].
    apply program_sound; [done..|apply Typing.typed_storable, (k_typed _ _ Hb l e El)|].
    pose proof (k_judged _ _ Hb q) as Hj. unfold judged in Hj. by rewrite Hc, Hnone in Hj.
  - apply (judged_same q' s); [|done..|apply (k_judged _ _ Hb)]. cbn. by rewrite fn_lookup_insert_ne.
Qed.

(** The end of a call. *)
Lemma end_books old q p i e d s : books old s -> calls (fine s) q = Some (mkCall i e Halt d) -> hand_now s q = Some p ->
  books old (mkState (Interleaving.mkState (Engine.release q p (eng (fine s))) (<[q := None]> (calls (fine s))) (trace (fine s))
    (<[q := ended (fine s) q ++ [(p, mkCall i e Halt d)]]> (ended (fine s)))) (farewell s) (dispatching s) (history s)).
Proof.
  intros Hb Hc Hh. pose proof (k_judged _ _ Hb q) as Hj. unfold judged in Hj. rewrite Hc in Hj. cbn [c_rest sound] in Hj.
  set (cl := mkCall i e Halt d) in *. split; try (by apply Hb); cbn [fine history farewell].
  - apply (end_inv reg handle_at others q p cl); [apply (k_fine _ _ Hb)|done..|by left].
  - intros q'. destruct (decide (q' = q)) as [->|Hne].
    + unfold judged. cbn [fine calls ended farewell]. rewrite !fn_lookup_insert, (no_farewell _ _ _ _ Hb Hh), map_app. exact Hj.
    + apply (judged_same q' s); [..|done|apply (k_judged _ _ Hb)]; cbn; by rewrite ?fn_lookup_insert_ne.
  - intros q'. cbn [ended]. destruct (decide (q' = q)) as [->|Hne]; [|rewrite fn_lookup_insert_ne by done; apply (k_settled _ _ Hb)].
    rewrite fn_lookup_insert, map_app. by eapply account_settled.
  - intros q'. cbn [ended]. destruct (decide (q' = q)) as [->|Hne]; [|rewrite fn_lookup_insert_ne by done; apply (k_whole _ _ Hb)].
    rewrite fn_lookup_insert. apply Forall_app. split; [apply (k_whole _ _ Hb)|by constructor].
  - intros q' fw Hfw. eapply (away_same q' fw s); [|done|by apply (k_away _ _ Hb)]. cbn. rewrite fn_lookup_insert_ne; [done|].
    intros ->. by rewrite (no_farewell _ _ _ _ Hb Hh) in Hfw.
Qed.

(** An access of a call. *)
Lemma call_access_books old q p i e x k d s : books old s -> calls (fine s) q = Some (mkCall i e (Do x k) d) -> hand_now s q = Some p ->
  exists w, perform others x (world_of s) = (Ret tt, w) /\
  books old (mkState (Interleaving.mkState (Engine.set_world w (eng (fine s))) (<[q := Some (mkCall i e k (d ++ [x]))]> (calls (fine s)))
    (trace (fine s) ++ [(q, x)]) (ended (fine s))) (farewell s) (dispatching s) (history s ++ [(q, x)])).
Proof using reg_answers handle_at_defined.
  intros Hb Hc Hh. pose proof (k_fine _ _ Hb) as Hf. pose proof (no_farewell _ _ _ _ Hb Hh) as Hnone.
  pose proof (k_judged _ _ Hb q) as Hj. unfold judged in Hj. rewrite Hc in Hj. destruct Hj as [Hx Hk].
  destruct (o_tidy _ _ _ _ _ _ (n_calls _ _ _ _ Hf q _ Hc)) as [Hu _].
  destruct (loop_access old s q x _ Hb Hx Hu) as (w & Hw & Hsh & Hheap & _ & Hv). exists w. split; [done|].
  destruct (access_inv reg handle_at others q _ x k (fine s) Hf Hc eq_refl) as (o & w' & Hw' & _ & _ & Hf').
  unfold world_of in Hw. rewrite Hw in Hw'. injection Hw' as <- <-.
  split; try (by apply Hb); cbn [fine history farewell]; [done|by eapply typed_same|done|..].
  - intros q'. cbn [trace]. rewrite !traced_snoc, (k_trace _ _ Hb). unfold parting. cbn [farewell].
    destruct (decide (q = q')) as [<-|Hne]; [|by rewrite !app_nil_r]. by rewrite Hnone, !app_nil_r.
  - intros q'. destruct (decide (q' = q)) as [->|Hne].
    + unfold judged. cbn [fine calls]. rewrite fn_lookup_insert. cbn [c_inputs c_event c_rest c_done ended].
      unfold world_of. cbn [fine eng Engine.set_world Engine.world]. rewrite Hv, decide_True by done. exact Hk.
    + apply (judged_same q' s); [..|apply (k_judged _ _ Hb)]; cbn [fine calls farewell ended]; rewrite ?fn_lookup_insert_ne by done; try done.
      unfold world_of. cbn [fine eng Engine.set_world Engine.world]. by rewrite Hv, decide_False.
  - intros q' fw Hfw. eapply (away_more q' q x fw s); [congruence|done|done|by apply (k_away _ _ Hb)].
Qed.

Lemma advance_books old q s : books old s -> exists s', exec (Step (Advance q)) s = Ret s' /\ books old s'.
Proof using reg_answers attempts_answer handle_at_defined.
  intros Hb. pose proof (k_fine _ _ Hb) as Hf. unfold exec. cbn [gone made Interleaving.exec].
  destruct (calls (fine s) q) as [c|] eqn:Hc; [|exists s; split; [cbn; rewrite app_nil_r; by destruct s|done]].
  destruct (n_calls _ _ _ _ Hf q c Hc) as [_ (l & Hh & _) _]. rewrite Hh.
  pose proof (k_judged _ _ Hb q) as Hj. unfold judged in Hj. rewrite Hc in Hj.
  destruct c as [i e rest d]. cbn [c_rest c_inputs c_event c_done] in *. destruct rest as [|what| |x k|k]; [|done|done| |].
  - cbn [mbind outcome_bind]. eexists. split; [done|]. rewrite app_nil_r. by apply end_books.
  - destruct (call_access_books old q (Some l) i e x k d s Hb Hc Hh) as (w & Hw & Hb'). unfold world_of in Hw. rewrite Hw.
    eexists. split; [done|]. exact Hb'.
  - destruct (advance_inv reg handle_at others table q _ Hf) as (f & Hx & Hf'). cbn [Interleaving.exec] in Hx. rewrite Hc, Hh in Hx.
    injection Hx as <-. cbn [mbind outcome_bind]. eexists. split; [done|]. rewrite app_nil_r.
    split; try (by apply Hb); cbn [fine history farewell]; [done| |intros q' fw Hfw; by eapply away_same, (k_away _ _ Hb)].
    intros q'. destruct (decide (q' = q)) as [->|Hne].
    + unfold judged. cbn [fine calls set_call]. rewrite fn_lookup_insert. by apply Hj.
    + apply (judged_same q' s); [|done..|apply (k_judged _ _ Hb)]. cbn. by rewrite fn_lookup_insert_ne.
Qed.

(** ** A loop on its way out *)

Lemma tidy_stop q i walk : Interleaving.tidy reg others False (stop_program reg q i walk).
Proof.
  assert (Hflush : Interleaving.tidy reg others False (Do Flush Halt)) by (split; [intros a h; apply Safety.within_flush|done]).
  destruct q; [done..|]. intros w _. induction (walk (buckets_ (batch w))) as [|t ts IH]; [done|]. by apply tidy_flush_bucket.
Qed.

Lemma leave_books old q i walk s : books old s -> (forall t, Ledger.accepting (i t)) -> Batch.complete walk ->
  exists s', exec (Leave q i walk) s = Ret s' /\ books old s'.
Proof using reg_answers.
  intros Hb Ha Hc. cbn [exec]. destruct (farewell s q) as [f|] eqn:Hf; [by exists s|].
  destruct (hand_now s q) as [p|] eqn:Hh; [by exists s|]. eexists. split; [done|].
  assert (Hnone : calls (fine s) q = None).
  { destruct (calls (fine s) q) as [c|] eqn:Hq; [|done].
    destruct (o_event _ _ _ _ _ _ (n_calls _ _ _ _ (k_fine _ _ Hb) q c Hq)) as (l & Hl & _). congruence. }
  pose proof (k_judged _ _ Hb q) as Hj. unfold judged in Hj. rewrite Hnone, Hf in Hj.
  split; try (by apply Hb); cbn [fine history farewell].
  - intros q'. rewrite (k_trace _ _ Hb). unfold parting. cbn [farewell]. destruct (decide (q' = q)) as [->|Hne];
      [by rewrite fn_lookup_insert, Hf|by rewrite fn_lookup_insert_ne].
  - intros q'. destruct (decide (q' = q)) as [->|Hne].
    + unfold judged. cbn [fine farewell]. rewrite Hnone, fn_lookup_insert. by apply departure_sound.
    + apply (judged_same q' s); [done| |done..|apply (k_judged _ _ Hb)]. cbn. by rewrite fn_lookup_insert_ne.
  - intros q' f. cbn [farewell]. destruct (decide (q' = q)) as [->|Hne].
    + rewrite fn_lookup_insert. intros [= <-]. split; [done|apply tidy_stop|done].
    + rewrite fn_lookup_insert_ne by done. intros Hf'. by eapply away_same, (k_away _ _ Hb).
Qed.

Lemma parted_world_inv s w : Interleaving.inv reg handle_at others s -> EventBus.heap (bw w) = Engine.heap_of (eng s) ->
  Engine.inv reg (Engine.set_world w (eng s)) -> Interleaving.inv reg handle_at others (with_world w s).
Proof.
  intros [He Hc Hg Hd Ht] Hw Hi. split; [done| |done..]. intros q c Hq. by apply call_ok_world, Hc.
Qed.

Lemma retire_books old q s : books old s -> exists s', exec (Retire q) s = Ret s' /\ books old s'.
Proof using reg_answers handle_at_defined.
  intros Hb. cbn [exec]. destruct (farewell s q) as [[rest d]|] eqn:Hf; [|by exists s].
  pose proof (away_no_call _ _ _ _ Hb Hf) as Hnone. destruct (k_away _ _ Hb q _ Hf) as [Hh Htidy Hclean].
  pose proof (k_judged _ _ Hb q) as Hj. unfold judged in Hj. rewrite Hnone, Hf in Hj. cbn [f_rest f_done] in *.
  destruct rest as [|what| |x k|k]; [by exists s|done|done| |].
  - destruct Hj as [Hx Hk]. destruct Htidy as [Hu Htidy]. destruct (loop_access old s q x False Hb Hx Hu) as (w & Hw & Hsh & Hheap & Hi & Hv).
    rewrite Hw. eexists. split; [done|]. split; try (by apply Hb); cbn [fine history farewell].
    + apply parted_world_inv; [apply (k_fine _ _ Hb)|done..].
    + by eapply typed_same.
    + done.
    + intros q'. rewrite traced_snoc, (k_trace _ _ Hb). unfold parting. cbn [farewell trace with_world]. rewrite <- app_assoc. f_equal.
      destruct (decide (q = q')) as [<-|Hne]; [by rewrite fn_lookup_insert, Hf|by rewrite fn_lookup_insert_ne, app_nil_r].
    + intros q'. destruct (decide (q' = q)) as [->|Hne].
      * unfold judged. cbn [fine farewell with_world calls]. rewrite Hnone, fn_lookup_insert. cbn [f_rest f_done].
        unfold world_of. cbn [fine eng with_world Engine.set_world Engine.world]. rewrite Hv, decide_True by done. exact Hk.
      * apply (judged_same q' s); [..|apply (k_judged _ _ Hb)]; cbn [fine calls farewell with_world ended]; rewrite ?fn_lookup_insert_ne by done; try done.
        unfold world_of. cbn [fine eng with_world Engine.set_world Engine.world]. by rewrite Hv, decide_False.
    + intros q' f. destruct (decide (q' = q)) as [->|Hne].
      * rewrite fn_lookup_insert. intros [= <-]. split; [done|done|]. cbn [f_done history]. rewrite last_snoc. intros [= ->]. apply clean_flush.
      * rewrite fn_lookup_insert_ne by done. intros Hf'. by eapply (away_more q' q x f s), (k_away _ _ Hb).
  - eexists. split; [done|]. split; try (by apply Hb); cbn [fine history farewell].
    + intros q'. rewrite (k_trace _ _ Hb). unfold parting. cbn [farewell]. destruct (decide (q' = q)) as [->|Hne];
        [by rewrite fn_lookup_insert, Hf|by rewrite fn_lookup_insert_ne].
    + intros q'. destruct (decide (q' = q)) as [->|Hne].
      * unfold judged. cbn [fine farewell]. rewrite Hnone, fn_lookup_insert. by apply Hj.
      * apply (judged_same q' s); [done| |done..|apply (k_judged _ _ Hb)]. cbn. by rewrite fn_lookup_insert_ne.
    + intros q' f. destruct (decide (q' = q)) as [->|Hne].
      * rewrite fn_lookup_insert. intros [= <-]. split; [done| |done]. apply Htidy, (Engine.v_buckets _ _ (n_eng _ _ _ _ (k_fine _ _ Hb))).
      * rewrite fn_lookup_insert_ne by done. intros Hf'. by eapply away_same, (k_away _ _ Hb).
Qed.

(** ** Every schedule *)

(** The frames come from the parser, the file system accepts the writes and the walk over the buckets meets all. *)
Definition proper (a : Action) : Prop :=
  match a with
  | Step (Other c) => Typing.well_formed c
  | Step (Begin q i) => Ledger.accepting i
  | Leave q i walk => (forall t, Ledger.accepting (i t)) /\ Batch.complete walk
  | _ => True
  end.

Lemma teardown_exec_books old a s : books old s -> proper a -> exists s', exec a s = Ret s' /\ books old s'.
Proof using reg_answers attempts_answer handle_at_defined.
  intros Hb Hp. destruct a as [a|q i walk|q|].
  - destruct (gone a s) eqn:Hg; [exists s; cbn; by rewrite Hg|]. destruct a as [c|q i|q].
    + by apply other_books.
    + by apply begin_books.
    + by apply advance_books.
  - destruct Hp. by apply leave_books.
  - by apply retire_books.
  - cbn [exec]. destruct (Engine.held _); [by exists s|]. eexists. split; [done|]. destruct Hb as [H1 H2 H3 H4 H5 H6 H7 H8]. split; try done.
    intros q f Hf. by eapply away_same, H8.
Qed.

Lemma teardown_run_books old l s : books old s -> Forall proper l -> exists s', run l s = Ret s' /\ books old s'.
Proof using reg_answers attempts_answer handle_at_defined.
  revert s. induction l as [|a l IH]; intros s Hb Hl; [by exists s|]. apply Forall_cons in Hl as [Ha Hl].
  destruct (teardown_exec_books old a s Hb Ha) as (s1 & H1 & Hb1). rewrite (run_step _ _ _ _ H1). by apply IH.
Qed.

Lemma in_order_empty : in_order reg ∅.
Proof. intros t. unfold at_topic. rewrite lookup_empty. constructor. Qed.

Lemma teardown_launched_books old w id : Shutdown.fresh old w -> books old (launched w id).
Proof.
  intros [Hr Hh Hl Hq Hi (Hd1 & Hd2 & Hd3)]. pose proof Hr as [_ Hbk].
  split; try done; cbn [fine launched history].
  - by apply start_interleaved_inv.
  - unfold Typing.typed_heap, Engine.heap_of. cbn. rewrite Hh. apply map_Forall_empty.
  - split; try done. by intros [].
  - intros q. unfold judged. cbn [fine calls launched Interleaving.start farewell world_of eng Engine.world Engine.start]. destruct q; cbn.
    + constructor.
    + split; [by intros []|]. exists ∅. split; [done|]. intros k [x Hx]. by rewrite lookup_empty in Hx.
    + split; [constructor|]. unfold buckets_of. rewrite Hbk. split; [apply in_order_empty|]. by exists [].
  - intros q. destruct q; cbn; [constructor|by intros []|constructor].
Qed.

(** ** All can leave *)

(** The actions of a loop that takes nothing more. *)
Definition closing (a : Action) : Prop :=
  match a with Step (Begin _ _) | Step (Advance _) | Leave _ _ _ | Retire _ => True | _ => False end.

(** [s'] is reached from [s] by the loop of [q] alone. *)
Definition closes (old : list byte) (q : EventBus.QueueId) (s s' : State) : Prop :=
  (exists l, run l s = Ret s' /\ Forall closing l) /\ books old s' /\ forall q', q' <> q -> farewell s' q' = farewell s q'.

Lemma closes_refl old q s : books old s -> closes old q s s.
Proof. intros Hb. split; [by exists []|done]. Qed.

Lemma closes_step old q a s s1 s' : closing a -> exec a s = Ret s1 -> (forall q', q' <> q -> farewell s1 q' = farewell s q') ->
  closes old q s1 s' -> closes old q s s'.
Proof.
  intros Ha H1 Hq ((l & Hl & Hc) & Hb & Hq'). split; [exists (a :: l); split; [by rewrite (run_step _ _ _ _ H1)|by constructor]|].
  split; [done|]. intros q' Hne. by rewrite Hq', Hq.
Qed.

Lemma closes_trans old q s1 s2 s3 : closes old q s1 s2 -> closes old q s2 s3 -> closes old q s1 s3.
Proof.
  intros ((l & Hl & Hc) & Hb & Hq) ((l' & Hl' & Hc') & Hb' & Hq'). split; [|split; [done|intros q' Hne; by rewrite Hq', Hq]].
  exists (l ++ l'). split; [by rewrite (run_then _ _ _ _ Hl)|]. by apply Forall_app.
Qed.

(** A call under way can be brought to its end. *)
Lemma call_can_end old q p c s : books old s -> calls (fine s) q = Some c -> c_rest c = p ->
  exists s', closes old q s s' /\ hand_now s' q = None /\ farewell s' q = farewell s q.
Proof using reg_answers attempts_answer handle_at_defined.
  revert c s. induction p as [|what| |x k IH|k IH]; intros c s Hb Hc Hp.
  all: destruct (n_calls _ _ _ _ (k_fine _ _ Hb) q c Hc) as [_ (l & Hh & _) _].
  all: destruct (advance_books old q s Hb) as (s1 & H1 & Hb1); assert (Hx := H1); unfold exec in Hx; cbn [gone made Interleaving.exec] in Hx;
    rewrite Hc, Hh in Hx; destruct c as [i e rest d]; cbn [c_rest] in *; subst rest.
  - injection Hx as <-. eexists. split; [by apply (closes_step old q (Step (Advance q)) s _ _ I H1); [|apply closes_refl]|].
    cbn. by rewrite fn_lookup_insert.
  - injection Hx as <-. eexists. split; [by apply (closes_step old q (Step (Advance q)) s _ _ I H1); [|apply closes_refl]|].
    cbn. by rewrite fn_lookup_insert.
  - done.
  - destruct (call_access_books old q (Some l) i e x k d s Hb Hc Hh) as (w & Hw & _). unfold world_of in Hw. rewrite Hw in Hx.
    injection Hx as <-. edestruct (IH (mkCall i e k (d ++ [x])) _ Hb1) as (s' & Hcl & Hs'); [cbn; by rewrite fn_lookup_insert|done|].
    exists s'. split; [by apply (closes_step old q (Step (Advance q)) s _ _ I H1)|done].
  - injection Hx as <-. edestruct (IH (Engine.world (eng (fine s))) (mkCall i e (k (Engine.world (eng (fine s)))) d) _ Hb1) as (s' & Hcl & Hs');
      [cbn; by rewrite fn_lookup_insert|done|]. exists s'. split; [by apply (closes_step old q (Step (Advance q)) s _ _ I H1)|done].
Qed.

(** The event in a loop's hand can be finished with. *)
Lemma hand_can_empty old q i s : books old s -> Ledger.accepting i ->
  exists s', closes old q s s' /\ hand_now s' q = None /\ farewell s' q = farewell s q.
Proof using reg_answers attempts_answer handle_at_defined.
  intros Hb Ha. destruct (calls (fine s) q) as [c|] eqn:Hc; [by eapply call_can_end|].
  destruct (hand_now s q) as [p|] eqn:Hh; [|exists s; split; [by apply closes_refl|done]].
  destruct (begin_books old q i s Hb Ha) as (s1 & H1 & Hb1). assert (Hx := H1). unfold exec in Hx. cbn [gone made Interleaving.exec] in Hx.
  rewrite Hc, Hh in Hx. apply outcome_bind_ret in Hx as (f & Hf & [= <-]). apply outcome_bind_ret in Hf as (e & _ & [= <-]).
  edestruct (call_can_end old q (program_of reg handle_at q i e) (mkCall i e (program_of reg handle_at q i e) []) _ Hb1) as (s' & Hcl & Hs');
    [cbn; by rewrite fn_lookup_insert|done|]. exists s'. split; [by apply (closes_step old q (Step (Begin q i)) s _ _ I H1)|done].
Qed.

(** [stop] returns. *)
Lemma stop_can_end old q p d s : books old s -> farewell s q = Some (mkFarewell p d) -> exists s', closes old q s s' /\ left q s'.
Proof using reg_answers attempts_answer handle_at_defined.
  revert d s. induction p as [|what| |x k IH|k IH]; intros d s Hb Hf.
  { exists s. split; [by apply closes_refl|by exists d]. }
  all: pose proof (k_judged _ _ Hb q) as Hj; unfold judged in Hj; rewrite (away_no_call _ _ _ _ Hb Hf), Hf in Hj; try (exfalso; exact Hj).
  all: destruct (retire_books old q s Hb) as (s1 & H1 & Hb1); assert (Hx := H1); cbn [exec] in Hx; rewrite Hf in Hx.
  - destruct (perform others x (world_of s)) as [[u| |] w]; [|done..]. injection Hx as <-.
    edestruct (IH (d ++ [x]) _ Hb1) as (s' & Hcl & Hs'); [cbn; by rewrite fn_lookup_insert|]. exists s'. split; [|done].
    apply (closes_step old q (Retire q) s _ _ I H1); [|done]. intros q' Hne. cbn. by rewrite fn_lookup_insert_ne.
  - injection Hx as <-. edestruct (IH (world_of s) d _ Hb1) as (s' & Hcl & Hs'); [cbn; by rewrite fn_lookup_insert|]. exists s'. split; [|done].
    apply (closes_step old q (Retire q) s _ _ I H1); [|done]. intros q' Hne. cbn. by rewrite fn_lookup_insert_ne.
Qed.

Lemma loop_can_leave old q i (j : string -> Inputs) walk s : books old s -> Ledger.accepting i -> (forall t, Ledger.accepting (j t)) -> Batch.complete walk ->
  exists s', closes old q s s' /\ left q s'.
Proof using reg_answers attempts_answer handle_at_defined.
  intros Hb Hi Hj Hw. destruct (farewell s q) as [[p d]|] eqn:Hf; [by eapply stop_can_end|].
  destruct (hand_can_empty old q i s Hb Hi) as (s1 & Hcl & Hh & Hf1). rewrite Hf in Hf1. destruct (leave_books old q j walk s1) as (s2 & H2 & Hb2);
    [apply Hcl|done..|]. assert (Hx := H2). cbn [exec] in Hx. rewrite Hf1, Hh in Hx. injection Hx as <-.
  edestruct (stop_can_end old q (stop_program reg q j walk) [] _ Hb2) as (s' & Hcl' & Hl); [cbn; by rewrite fn_lookup_insert|]. exists s'. split; [|done].
  eapply closes_trans; [exact Hcl|]. apply (closes_step old q (Leave q j walk) s1 _ _ I H2); [|done]. intros q' Hne. cbn. by rewrite fn_lookup_insert_ne.
Qed.

Lemma all_can_leave old i (j : string -> Inputs) walk s : books old s -> Ledger.accepting i -> (forall t, Ledger.accepting (j t)) -> Batch.complete walk ->
  exists l s', run l s = Ret s' /\ Forall closing l /\ all_left s'.
Proof using reg_answers attempts_answer handle_at_defined.
  intros Hb Hi Hj Hw.
  destruct (loop_can_leave old EventBus.REALTIME i j walk s) as (s1 & ((l1 & H1 & C1) & Hb1 & F1) & L1); [done..|].
  destruct (loop_can_leave old EventBus.TRANSACTIONAL i j walk s1) as (s2 & ((l2 & H2 & C2) & Hb2 & F2) & L2); [done..|].
  destruct (loop_can_leave old EventBus.BATCHQ i j walk s2) as (s3 & ((l3 & H3 & C3) & Hb3 & F3) & L3); [done..|].
  exists (l1 ++ l2 ++ l3), s3. rewrite (run_then _ _ _ _ H1), (run_then _ _ _ _ H2). split; [done|]. split; [by rewrite !Forall_app|].
  intros [| |]; unfold left in *; [|by rewrite F3|done]. by rewrite F3, F2.
Qed.

(** ** The properties *)

Definition all_given (e : Engine.State (S := S)) : list EventPtr :=
  Engine.given e EventBus.REALTIME ++ Engine.given e EventBus.TRANSACTIONAL ++ Engine.given e EventBus.BATCHQ.

(** Not yet given to a processor. *)
Definition on_the_way (e : Engine.State (S := S)) : list EventPtr :=
  Engine.inbound e ++ Engine.carried e ++ Engine.waiting EventBus.REALTIME (bw (Engine.world e)) ++
  Engine.waiting EventBus.TRANSACTIONAL (bw (Engine.world e)) ++ Engine.waiting EventBus.BATCHQ (bw (Engine.world e)).

(** The engine as the state of a shutdown, for the lemmas of [Shutdown.v]. *)
Definition as_shut (s : State) : Shutdown.State (S := S) := Shutdown.mkState (eng (fine s)) (fun _ => true) (dispatching s).

(** What the calls of a loop wrote. *)
Definition written (h : list (Call (S := S))) : list Event := concat (map (fun c => stored_by (c_done c)) h).

Definition logged_of (f : fate) : option Event := match f with Logged e => Some e | Buried _ => None end.

Lemma stored_fates l : stored_by l = omap logged_of (fates l).
Proof. unfold stored_by, fates. induction l as [|x l IH]; [done|]. destruct x; cbn; by rewrite IH. Qed.

Lemma stored_app l l' : stored_by (l ++ l') = stored_by l ++ stored_by l'.
Proof. apply omap_app. Qed.

Lemma logged_verdicts fl : omap logged_of (map (verdict reg) fl) = List.filter (Batch.good reg) fl.
Proof. induction fl as [|e fl IH]; [done|]. cbn. unfold verdict at 1. destruct (Batch.good reg e); cbn; by rewrite IH. Qed.

Lemma books_trace old s q : books old s ->
  traced q (history s) = concat (map c_done (past s q)) ++ under_way q (fine s) ++ parting q s.
Proof. intros Hb. by rewrite (k_trace _ _ Hb), (n_trace _ _ _ _ (k_fine _ _ Hb)), map_map, app_assoc. Qed.

Lemma stored_calls h : stored_by (concat (map c_done h)) = written h.
Proof. unfold written. induction h as [|c h IH]; [done|]. cbn. by rewrite stored_app, IH. Qed.

(** A refused call wrote nothing: what the others did to buckets is what was written. *)
Lemma written_flushes h : settled reg EventBus.BATCHQ h -> written h = omap logged_of (concat (map flushes h)).
Proof.
  unfold written. induction 1 as [|c h Hc _ IH]; [done|]. cbn. rewrite omap_app, <- IH, stored_fates. f_equal. unfold flushes.
  destruct Hc as [(H1 & H2 & _)|(fl & _ & H2 & _)]; [by rewrite H1, decide_False by (by rewrite H2)|by rewrite decide_True].
Qed.

Lemma left_departed old s q : books old s -> left q s ->
  departed reg q (past s q) (view q (world_of s)) (parting q s) /\ under_way q (fine s) = [].
Proof.
  intros Hb [d Hd]. pose proof (k_judged _ _ Hb q) as Hj. unfold judged in Hj. pose proof (away_no_call _ _ _ _ Hb Hd) as Hc.
  rewrite Hc, Hd in Hj. unfold parting, under_way. by rewrite Hd, Hc.
Qed.

Lemma left_stored old s q : books old s -> left q s -> stored_by (traced q (history s)) = written (past s q) ++ stored_by (parting q s).
Proof.
  intros Hb Hl. destruct (left_departed old s q Hb Hl) as [_ Hu]. by rewrite (books_trace old s q Hb), Hu, !stored_app, stored_calls.
Qed.

(** The batch loop has left: the buckets are empty, and what was put into them was flushed, once. *)
Lemma batch_left old s : books old s -> left EventBus.BATCHQ s -> exists fl,
  stored_by (traced EventBus.BATCHQ (history s)) = List.filter (Batch.good reg) fl /\
  concat (map (fun c => puts (c_done c)) (past s EventBus.BATCHQ)) ≡ₚ fl /\ Ledger.bucketed (world_of s) = [].
Proof.
  intros Hb Hl. rewrite (left_stored _ _ _ Hb Hl).
  destruct (left_departed old s _ Hb Hl) as [(Hs & m0 & (Hm0 & fl & Hfl & Hp) & (fl' & H1 & H2 & H3 & Hm & Hall) & Hempty & _) _].
  assert (Hnone : Ledger.bucketed (world_of s) = []) by (apply Ledger.bucketed_none; exact Hempty).
  exists (fl ++ fl'). split; [|split; [|done]].
  - rewrite (written_flushes _ Hs), Hfl, (stored_fates (parting _ _)), H1, !logged_verdicts. by rewrite List.filter_app.
  - change (Ledger.all_events (view EventBus.BATCHQ (world_of s))) with (Ledger.bucketed (world_of s)) in Hall.
    rewrite Hnone, !app_nil_r in Hall. by rewrite Hp, Hall.
Qed.

Lemma left_flushed old s q : books old s -> left q s -> last (parting q s) = Some Flush.
Proof.
  intros Hb Hl. destruct (left_departed old s q Hb Hl) as [Hd _].
  destruct q; [apply Hd..|]. by destruct Hd as (_ & m0 & _ & _ & _ & Hd).
Qed.

(** The loops of the realtime and of the transactional processor write nothing on their way out. *)
Lemma left_quietly old s q : books old s -> left q s -> q <> EventBus.BATCHQ -> stored_by (traced q (history s)) = written (past s q).
Proof.
  intros Hb Hl Hq. rewrite (left_stored _ _ _ Hb Hl). destruct (left_departed old s q Hb Hl) as [Hd _].
  rewrite (stored_fates (parting q s)). destruct q; [..|done]; destruct Hd as (_ & -> & _); by rewrite app_nil_r.
Qed.

(** Once the three have left everything stored is on the disk. *)
Lemma left_durable old s : books old s -> all_left s -> durable old (stores (history s)) (world_of s).
Proof.
  intros Hb Hl. apply (k_shared _ _ Hb). apply all_clean_each.
  - intros q. destruct (Hl q) as [d Hd]. apply (a_clean _ _ _ (k_away _ _ Hb q _ Hd)).
    pose proof (left_flushed old s q Hb (Hl q)) as Hf. unfold parting in Hf. by rewrite Hd in Hf.
  - pose proof (left_flushed old s EventBus.REALTIME Hb (Hl _)) as Hf. apply last_Some in Hf as [l Hf].
    pose proof (books_trace old s EventBus.REALTIME Hb) as Ht. rewrite Hf in Ht.
    assert (Hin : Flush ∈ traced EventBus.REALTIME (history s)) by (rewrite Ht, !elem_of_app, list_elem_of_singleton; auto).
    unfold traced in Hin. apply list_elem_of_omap in Hin as ([q x] & Hin & Heq). cbn in Heq. destruct (decide _); [|done]. injection Heq as ->.
    apply Exists_exists. by exists (q, Flush).
Qed.

(** C6: in every schedule of the engine in which the calls of the three processors, the [stop]s of the loops that leave
    and the work of the other threads interleave access by access, the file system accepting and the handlers
    answering: no call and no [stop] ends with an exception, each loop has made one call for each event given to it, in order, and no event was
    given twice.  A call of the realtime processor logged its event once or refused it once, counting it; one of the
    transactional processor did the same or its event repeats the id of one an earlier call logged; one of the batch
    processor refused its event or put it into its bucket and, where a flush was due, logged or refused each of the
    events of a bucket.  The log, in the file and the stream's buffer, is the events the loops stored, in the
    order they did; the three counters of dropped events are exact; and between two calls of the batch
    processor every event put into a bucket has been flushed once or is in a bucket. *)
Theorem interleaved_journal_exact old w id l : Shutdown.fresh old w -> Forall proper l ->
  exists s, run l (launched w id) = Ret s /\ let f := fine s in
    (forall q, map fst (ended f q) = Engine.given (eng f) q) /\ NoDup (all_given (eng f)) /\
    (forall q, Forall (fun pc => c_rest pc.2 = Halt) (ended f q) /\ settled reg q (map snd (ended f q))) /\
    (forall q, traced q (history s) = concat (map c_done (map snd (ended f q))) ++ under_way q f ++ parting q s) /\
    Ledger.logged old (stores (history s)) (Engine.world (eng f)) /\
    (forall q, dropped (Shutdown.name_of q) (Engine.world (eng f)) = wrap 64 (drops (traced q (history s)))) /\
    (calls f EventBus.BATCHQ = None -> farewell s EventBus.BATCHQ = None ->
       balance reg (map snd (ended f EventBus.BATCHQ)) (buckets_ (batch (Engine.world (eng f))))).
Proof using reg_answers attempts_answer handle_at_defined.
  intros Hw Hl. destruct (teardown_run_books old l _ (teardown_launched_books old w id Hw) Hl) as (s & Hs & Hb). exists s. split; [done|].
  pose proof (k_fine _ _ Hb) as Hf. cbv zeta. split_and!.
  - apply Hf.
  - apply (Shutdown.given_nodup reg (as_shut s)), Hf.
  - intros q. split; [apply (k_whole _ _ Hb)|apply (k_settled _ _ Hb)].
  - intros q. by apply (books_trace old).
  - apply (k_shared _ _ Hb).
  - apply (k_shared _ _ Hb).
  - intros Hc Hfw. pose proof (k_judged _ _ Hb EventBus.BATCHQ) as Hj. unfold judged in Hj. rewrite Hc, Hfw in Hj. apply Hj.
Qed.

(** C4: whatever the schedule, the three loops can leave - each finishes the call it is in and its [stop] returns - and once they have,
    their [stop]s having interleaved with each other and with the calls in any way, nothing stored is in a buffer: the file holds, after what
    it held before, a log that reads back as the records of the events stored, in the order they were.  These are the events the calls of the
    realtime and of the transactional processor logged and, of all events ever put into a bucket, those the handlers did not
    refuse, each once; no bucket holds an event; and every event ever admitted was given to one processor, given up
    by the bus or the dispatcher, or is still on its way. *)
Theorem interleaved_shutdown_on_disk old w id l i (j : string -> Inputs) walk :
  Shutdown.fresh old w -> Forall proper l -> Ledger.accepting i -> (forall t, Ledger.accepting (j t)) -> Batch.complete walk ->
  exists s, run l (launched w id) = Ret s /\
    (exists l' s', run l' s = Ret s' /\ Forall closing l' /\ all_left s') /\
    (all_left s -> let e := eng (fine s) in let log := StorageEngine.log_bytes (stores (history s)) in
       exists st fl, storage_ (Engine.world e) = Some st /\
       StorageEngine.on_disk (StorageEngine.storageFile st) = old ++ log /\
       StorageEngine.read_log (length (stores (history s))) log = Some (map StorageEngine.stored_of (stores (history s))) /\
       stores (history s) ≡ₚ written (map snd (ended (fine s) EventBus.REALTIME)) ++
                             written (map snd (ended (fine s) EventBus.TRANSACTIONAL)) ++ List.filter (Batch.good reg) fl /\
       concat (map (fun c => puts (c_done c)) (map snd (ended (fine s) EventBus.BATCHQ))) ≡ₚ fl /\
       Ledger.bucketed (Engine.world e) = [] /\
       NoDup (Engine.admitted e) /\ Engine.admitted e ≡ₚ all_given e ++ Engine.dead e ++ on_the_way e).
Proof using reg_answers attempts_answer handle_at_defined.
  intros Hw Hl Hi Hj Hwalk. destruct (teardown_run_books old l _ (teardown_launched_books old w id Hw) Hl) as (s & Hs & Hb). exists s. split; [done|].
  split; [by apply (all_can_leave old i j walk)|]. intros Hall. cbv zeta.
  destruct (left_durable old s Hb Hall) as (st & Hst & Hd). destruct (batch_left old s Hb (Hall _)) as (fl & Hfl & Hp & Hnone).
  pose proof (n_eng _ _ _ _ (k_fine _ _ Hb)) as Hinv. exists st, fl. split_and!; try done.
  - apply StorageEngine.read_log_bytes; [apply (k_shared _ _ Hb)|done].
  - destruct (stores_shuffle (history s)) as [-> _].
    rewrite Hfl, (left_quietly old s EventBus.REALTIME Hb), (left_quietly old s EventBus.TRANSACTIONAL Hb) by done. done.
  - apply (Engine.v_nodup _ _ Hinv).
  - apply (Shutdown.stopped_places reg (as_shut s) Hinv). intros q. destruct (Hall q) as [d Hd'].
    apply (a_hand _ _ _ (k_away _ _ Hb q _ Hd')).
Qed.

End Teardown.
End Teardown.

(** ** A concrete run *)

Module TeardownRun.
Import EngineRun DeliveryRun ShutdownRun.
Import Access Interleaving Teardown.

Abbreviation run_out := (run default_handlers as_written (fun st : Output.Stream (S := unit) => st) topics).

(** Three frames, one for each processor.  The batch loop leaves and has begun to write its bucket out when the
    transactional call logs its event; the realtime loop leaves while the batch loop is still on its way. *)
Definition working : list Action :=
  map (fun c => Step (Other c))
    [Engine.Arrive TCP "a" (frame CRITICAL "x") 1; Engine.Arrive UDP "b" (frame MEDIUM "payment") 2;
     Engine.Arrive TCP "a" (frame BATCH "y") 3; Engine.Route; Engine.Attempt 4 0; Engine.Route; Engine.Attempt 6 0;
     Engine.Route; Engine.Attempt 7 0; Engine.Take EventBus.REALTIME 5; Engine.Take EventBus.TRANSACTIONAL 8;
     Engine.Take EventBus.BATCHQ 9] ++
  map Step ([Begin EventBus.REALTIME (calm 7000000); Begin EventBus.TRANSACTIONAL (calm 9000000); Begin EventBus.BATCHQ (calm 9500000);
     Advance EventBus.REALTIME; Advance EventBus.REALTIME; Advance EventBus.TRANSACTIONAL] ++ replicate 8 (Advance EventBus.BATCHQ)) ++
  [Leave EventBus.BATCHQ (fun _ => calm 16) map_walk; Retire EventBus.BATCHQ; Retire EventBus.BATCHQ; Retire EventBus.BATCHQ].

Definition leaving : list Action :=
  map Step (replicate 12 (Advance EventBus.TRANSACTIONAL)) ++ [Retire EventBus.BATCHQ] ++
  map Step (replicate 6 (Advance EventBus.REALTIME)) ++
  [Leave EventBus.REALTIME (fun _ => calm 17) map_walk; Retire EventBus.REALTIME] ++ replicate 5 (Retire EventBus.BATCHQ) ++
  [Leave EventBus.TRANSACTIONAL (fun _ => calm 18) map_walk; Retire EventBus.TRANSACTIONAL; StopDispatcher].

Lemma teardown_proper : Forall proper (working ++ leaving).
Proof.
  repeat apply List.Forall_cons; try apply List.Forall_nil; cbn [proper Typing.well_formed];
    first [exact I|split; [apply sample_frames_parsed; cbn; tauto|discriminate]|apply sample_frames_parsed; cbn; tauto
          |split; [discriminate|reflexivity]|intros k; reflexivity
          |split; [intros t k; reflexivity|intros m t; apply map_walk_complete]].
Qed.

(** The events each loop was given, the ids in the order they were stored, the bytes on the disk and the loops that have left. *)
Definition report (o : outcome (State (S := unit))) : option (list nat * list Z * nat * list bool) :=
  let queues := [EventBus.REALTIME; EventBus.TRANSACTIONAL; EventBus.BATCHQ] in
  match o with
  | Ret s => Some (map (fun q => length (Engine.given (eng (fine s)) q)) queues, map (fun e => id (header e)) (stores (history s)),
       length (match storage_ (Engine.world (eng (fine s))) with
               | Some st => StorageEngine.on_disk (StorageEngine.storageFile st) | None => [] end),
       map (fun q => match farewell s q with Some (mkFarewell Halt _) => true | _ => false end) queues)
  | _ => None
  end.

Lemma all_left_at_end s : run_out (working ++ leaving) (launched engine0 0) = Ret s -> all_left s.
Proof.
  intros Hs.
  assert (Hr : match run_out (working ++ leaving) (launched engine0 0) with
    | Ret s => map (fun q => match farewell s q with Some (mkFarewell Halt _) => true | _ => false end)
                 [EventBus.REALTIME; EventBus.TRANSACTIONAL; EventBus.BATCHQ] = [true; true; true]
    | _ => False
    end) by (vm_compute; reflexivity).
  rewrite Hs in Hr. clear Hs. cbn [map] in Hr. injection Hr as H1 H2 H3.
  assert (Hone : forall q, match farewell s q with Some (mkFarewell Halt _) => true | _ => false end = true -> left q s).
  { intros q. unfold left. destruct (farewell s q) as [[[] d]|]; intros H; try discriminate H. by exists d. }
  intros []; by apply Hone.
Qed.

End TeardownRun.

(** The batch loop is on its way out with its event stored, the two others in the middle of their calls. *)
Lemma interleaved_journal_exact_witness :
  TeardownRun.report (TeardownRun.run_out TeardownRun.working (Teardown.launched DeliveryRun.engine0 0)) =
    Some ([0; 0; 1]%nat, [2], 0%nat, [false; false; false]) /\
  exists s, TeardownRun.run_out TeardownRun.working (Teardown.launched DeliveryRun.engine0 0) = Ret s /\
    Ledger.logged [] (Interleaving.stores (Teardown.history s)) (Engine.world (Interleaving.eng (Teardown.fine s))).
Proof.
  split; [vm_compute; reflexivity|].
  destruct (Teardown.interleaved_journal_exact EngineRun.default_handlers EngineRun.as_written
    (fun st : Output.Stream (S := unit) => st) ShutdownRun.topics defaults_answer ShutdownRun.as_written_answers (fun hd k e H => H)
    [] DeliveryRun.engine0 0 TeardownRun.working ShutdownRun.engine0_fresh) as (s & Hs & _ & _ & _ & _ & Hl & _).
  { pose proof TeardownRun.teardown_proper as H. apply Forall_app in H as [H _]. exact H. }
  exists s. split; [exact Hs|exact Hl].
Defined.

(** All have left: three records are on the disk, the batch event first. *)
Lemma interleaved_shutdown_on_disk_witness :
  TeardownRun.report (TeardownRun.run_out (TeardownRun.working ++ TeardownRun.leaving) (Teardown.launched DeliveryRun.engine0 0)) =
    Some ([1; 1; 1]%nat, [2; 1; 0], 96%nat, [true; true; true]) /\
  exists s st n rs, TeardownRun.run_out (TeardownRun.working ++ TeardownRun.leaving) (Teardown.launched DeliveryRun.engine0 0) = Ret s /\
    storage_ (Engine.world (Interleaving.eng (Teardown.fine s))) = Some st /\
    StorageEngine.read_log n (StorageEngine.on_disk (StorageEngine.storageFile st)) = Some rs.
Proof.
  split; [vm_compute; reflexivity|].
  destruct (Teardown.interleaved_shutdown_on_disk EngineRun.default_handlers EngineRun.as_written
    (fun st : Output.Stream (S := unit) => st) ShutdownRun.topics defaults_answer ShutdownRun.as_written_answers (fun hd k e H => H)
    [] DeliveryRun.engine0 0 (TeardownRun.working ++ TeardownRun.leaving) (calm 1) (fun _ => calm 1) map_walk
    ShutdownRun.engine0_fresh TeardownRun.teardown_proper) as (s & Hs & _ & Hd).
  - intros k. reflexivity.
  - intros t k. reflexivity.
  - intros m t. apply map_walk_complete.
  - destruct (Hd (TeardownRun.all_left_at_end s Hs)) as (st & fl & H1 & H2 & H3 & _).
    exists s, st, (length (Interleaving.stores (Teardown.history s))). eexists. split; [exact Hs|]. split; [exact H1|].
    rewrite H2. exact H3.
Defined.
