(* ===== verification/Config.v ===== *)
(** * The configuration loader: [src/core/config/loader.cpp],
    [include/eventstream/core/config/config.hpp]

    Module [ConfigLoader]: the structs, the four section parsers and [loadConfig] with its
    checks.  yaml-cpp is not part of the repository: a document tree is an instance of
    [Yaml], of which only what the loader calls is used, and every call may throw.  The
    file system answers with the parsed document, or that the file cannot be opened or
    parsed. *)

From S2P Require Import Prelude.

(** ** The operations of yaml-cpp the loader uses *)

(** [node\[key\]] may throw on a node that does not exist; [defined] is the test of a node
    in a condition; [as_*] is [as<T>()], which throws on a missing node or a value of another
    kind, and [*_or] is [as<T>(fallback)], which does not. *)
Class Yaml (Node : Type) := {
  index : Node -> string -> outcome Node;
  defined : Node -> bool;
  as_string : Node -> outcome string;
  as_int : Node -> outcome Z;
  int_or : Z -> Node -> Z;
  bool_or : bool -> Node -> bool;
  elements : Node -> outcome (list Node)
}.

Module ConfigLoader.

(** ** The structs *)

Record TCPConfig := mkTCP { tcp_host : string; tcp_port : Z; tcp_enable : bool; maxConnections : Z }.
Record UDPConfig := mkUDP { udp_host : string; udp_port : Z; udp_enable : bool; bufferSize : Z }.
Record FileConfig := mkFileConfig { file_path : string; file_enable : bool; poll_interval_ms : Z }.
Record IngestionConfig := mkIngestion { tcpConfig : TCPConfig; udpConfig : UDPConfig; fileConfig : FileConfig }.
Record Router := mkRouter { shards : Z; strategy : string; buffer_size : Z }.
Record RuleEngine := mkRules { enable_cache : bool; rules_file : string; threads : Z; cache_size : Z }.
Record StorageConfig := mkStorageConfig { backend : string; storage_path : string }.
Record PythonConfig := mkPython { python_enable : bool; script_path : string }.
Record BroadCastPushConfig := mkPush { push_enable : bool; push_host : string; push_port : Z }.
Record BroadcastConfig := mkBroadcast { tcp_push : BroadCastPushConfig; websocket_push : BroadCastPushConfig }.
Record ThreadsPoolConfig := mkThreads { min_threads : Z; max_threads : Z }.
Record NUMAConfig := mkNuma {
  numa_enable : bool; dispatcher_node : Z; ingest_node : Z; realtime_proc_node : Z;
  transactional_proc_node : Z; batch_proc_node : Z
}.

Record AppConfiguration := mkConfig {
  app_name : string;
  version : string;
  ingestion : IngestionConfig;
  router : Router;
  rule_engine : RuleEngine;
  storage : StorageConfig;
  python : PythonConfig;
  broadcast : BroadcastConfig;
  thread_pool : ThreadsPoolConfig;
  numa : NUMAConfig;
  plugin_list : list string
}.

(** The default member initialisers of the optional sections. *)
Definition default_threads : ThreadsPoolConfig := mkThreads 2 8.
Definition default_numa : NUMAConfig := mkNuma false (-1) (-1) (-1) (-1) (-1).

Section Loader.
Context `{Yaml Node}.
Implicit Types node root : Node.

Definition ValidateNodeExists node (key : string) : outcome unit :=
  n ← index node key;
  if negb (defined n) then Throw ("Missing configuration key: " +:+ key) else Ret tt.

(** [node\[key\].as<T>()]. *)
Definition string_at node (key : string) : outcome string := n ← index node key; as_string n.
Definition int_at node (key : string) : outcome Z := n ← index node key; as_int n.
Definition bool_at node (key : string) : outcome bool := n ← index node key; Ret (bool_or false n).

Definition parseTCPConfig node : outcome TCPConfig :=
  host ← string_at node "host";
  port ← int_at node "port";
  enable ← bool_at node "enable";
  maxConnections ← int_at node "maxConnections";
  Ret (mkTCP host port enable maxConnections).

Definition parseUDPConfig node : outcome UDPConfig :=
  host ← string_at node "host";
  port ← int_at node "port";
  enable ← bool_at node "enable";
  bufferSize ← int_at node "bufferSize";
  Ret (mkUDP host port enable bufferSize).

Definition parseFileConfig node : outcome FileConfig :=
  path ← string_at node "path";
  enable ← bool_at node "enable";
  poll_interval_ms ← int_at node "poll_interval_ms";
  Ret (mkFileConfig path enable poll_interval_ms).

Definition parseBroadCastPushConfig node : outcome BroadCastPushConfig :=
  host ← string_at node "host";
  port ← int_at node "port";
  enable ← bool_at node "enable";
  Ret (mkPush enable host port).

(** The loop over the plugin list. *)
Fixpoint strings_of (nodes : list Node) : outcome (list string) :=
  match nodes with
  | [] => Ret []
  | n :: ns => s ← as_string n; ss ← strings_of ns; Ret (s :: ss)
  end.

Definition parse_plugins root : outcome (list string) :=
  plugins ← index root "plugins";
  if defined plugins then
    load ← index plugins "load";
    if defined load then es ← elements load; strings_of es else Ret []
  else Ret [].

Definition parse_threads root : outcome ThreadsPoolConfig :=
  t ← index root "Threads_pool";
  if defined t then
    mn ← int_at t "min_threads"; mx ← int_at t "max_threads"; Ret (mkThreads mn mx)
  else Ret default_threads.

Definition node_at root (key : string) : outcome Z := n ← index root key; Ret (int_or (-1) n).

Definition parse_numa root : outcome NUMAConfig :=
  n ← index root "numa";
  if defined n then
    enable ← bool_at n "enable";
    d ← node_at n "dispatcher_node"; i ← node_at n "ingest_node"; r ← node_at n "realtime_proc_node";
    t ← node_at n "transactional_proc_node"; b ← node_at n "batch_proc_node";
    Ret (mkNuma enable d i r t b)
  else Ret default_numa.

(** The sections, in the order they are read. *)
Definition parse_config root : outcome AppConfiguration :=
  ValidateNodeExists root "app_name" ;;
  ValidateNodeExists root "version" ;;
  app_name ← string_at root "app_name";
  version ← string_at root "version";
  ValidateNodeExists root "ingestion" ;;
  ing ← index root "ingestion";
  tcp ← index ing "tcp"; tcp ← parseTCPConfig tcp;
  udp ← index ing "udp"; udp ← parseUDPConfig udp;
  file ← index ing "file"; file ← parseFileConfig file;
  ValidateNodeExists root "router" ;;
  rt ← index root "router";
  shards ← int_at rt "shards"; strategy ← string_at rt "strategy"; buffer_size ← int_at rt "buffer_size";
  ValidateNodeExists root "rule_engine" ;;
  re ← index root "rule_engine";
  enable_cache ← bool_at re "enable_cache"; rules_file ← string_at re "rules_file";
  threads ← int_at re "threads"; cache_size ← int_at re "cache_size";
  ValidateNodeExists root "storage" ;;
  st ← index root "storage";
  backend ← string_at st "backend"; path ← string_at st "sqlite_path";
  ValidateNodeExists root "python_integration" ;;
  py ← index root "python_integration";
  py_enable ← bool_at py "enable"; script_path ← string_at py "script_path";
  ValidateNodeExists root "broadcast" ;;
  bc ← index root "broadcast";
  ValidateNodeExists bc "tcp_push" ;;
  ValidateNodeExists bc "websocket_push" ;;
  tp ← index bc "tcp_push"; tp ← parseBroadCastPushConfig tp;
  wp ← index bc "websocket_push"; wp ← parseBroadCastPushConfig wp;
  plugins ← parse_plugins root;
  pool ← parse_threads root;
  numa ← parse_numa root;
  Ret (mkConfig app_name version (mkIngestion tcp udp file) (mkRouter shards strategy buffer_size)
         (mkRules enable_cache rules_file threads cache_size) (mkStorageConfig backend path)
         (mkPython py_enable script_path) (mkBroadcast tp wp) pool numa plugins).

Definition bad_port (p : Z) : bool := (p <=? 0) || (65535 <? p).

(** The checks at the end of [loadConfig]. *)
Definition validate (c : AppConfiguration) : outcome AppConfiguration :=
  if bad_port (tcp_port (tcpConfig (ingestion c))) then Throw "Invalid Port Number"
  else if bad_port (udp_port (udpConfig (ingestion c))) then Throw "Invalid Port Number"
  else if file_enable (fileConfig (ingestion c)) && bool_decide (file_path (fileConfig (ingestion c)) = ""%string)
  then Throw "Invalid File Ingestion configuration"
  else if (shards (router c) <=? 0) || (buffer_size (router c) <=? 0) then Throw "Invalid Info Router"
  else if (threads (rule_engine c) <=? 0) || (cache_size (rule_engine c) <? 0)
  then Throw "Invalid Rule Engine configuration"
  else if negb (bool_decide (backend (storage c) = "sqlite"%string))
          && negb (bool_decide (backend (storage c) = "filesystem"%string))
  then Throw "Unsupported storage backend"
  else if python_enable (python c) && bool_decide (script_path (python c) = ""%string)
  then Throw "Invalid Python configuration"
  else Ret c.

(** [exists_]: the file can be opened; [doc]: what [YAML::LoadFile] returns or throws. *)
Definition loadConfig (filepath : string) (exists_ : bool) (doc : outcome Node) : outcome AppConfiguration :=
  if negb exists_ then Throw ("Configuration file not found: " +:+ filepath) else
  root ← doc;
  c ← parse_config root;
  validate c.

(** ** What a loaded configuration promises *)

Definition well_configured (c : AppConfiguration) : Prop :=
  1 <= tcp_port (tcpConfig (ingestion c)) <= 65535 /\ 1 <= udp_port (udpConfig (ingestion c)) <= 65535 /\
  (file_enable (fileConfig (ingestion c)) = true -> file_path (fileConfig (ingestion c)) <> ""%string) /\
  1 <= shards (router c) /\ 1 <= buffer_size (router c) /\
  1 <= threads (rule_engine c) /\ 0 <= cache_size (rule_engine c) /\
  (backend (storage c) = "sqlite"%string \/ backend (storage c) = "filesystem"%string) /\
  (python_enable (python c) = true -> script_path (python c) <> ""%string).

Lemma bad_port_spec p : bad_port p = false <-> 1 <= p <= 65535.
Proof. unfold bad_port. rewrite orb_false_iff, Z.leb_gt, Z.ltb_ge. lia. Qed.

Lemma enabled_spec (b : bool) (x : string) : b && bool_decide (x = ""%string) = false <-> (b = true -> x <> ""%string).
Proof. rewrite andb_false_iff, bool_decide_eq_false. destruct b; naive_solver. Qed.

Lemma backend_spec (x : string) :
  negb (bool_decide (x = "sqlite"%string)) && negb (bool_decide (x = "filesystem"%string)) = false <->
  x = "sqlite"%string \/ x = "filesystem"%string.
Proof. rewrite andb_false_iff, !negb_false_iff, !bool_decide_eq_true. done. Qed.

Lemma validate_spec c : validate c = Ret c <-> well_configured c.
Proof.
  unfold well_configured. rewrite <- !bad_port_spec, <- !enabled_spec, <- backend_spec.
  assert (Hr : (shards (router c) <=? 0) || (buffer_size (router c) <=? 0) = false <->
               1 <= shards (router c) /\ 1 <= buffer_size (router c)).
  { rewrite orb_false_iff, !Z.leb_gt. lia. }
  assert (He : (threads (rule_engine c) <=? 0) || (cache_size (rule_engine c) <? 0) = false <->
               1 <= threads (rule_engine c) /\ 0 <= cache_size (rule_engine c)).
  { rewrite orb_false_iff, Z.leb_gt, Z.ltb_ge. lia. }
  unfold validate. repeat case_match; try (split; [done|]; intuition congruence). tauto.
Qed.

Lemma validate_ret c c' : validate c = Ret c' -> c' = c.
Proof. unfold validate. repeat case_match; naive_solver. Qed.

Definition required_keys : list string :=
  ["app_name"; "version"; "ingestion"; "router"; "rule_engine"; "storage"; "python_integration"; "broadcast"]%string.

Definition present root (k : string) : Prop := exists n, index root k = Ret n /\ defined n = true.

Lemma ValidateNodeExists_ret root k : ValidateNodeExists root k = Ret tt <-> present root k.
Proof.
  unfold ValidateNodeExists, present. destruct (index root k) as [n| |]; cbn; [|naive_solver..].
  destruct (defined n) eqn:E; cbn; naive_solver congruence.
Qed.

(** Take a successful parse apart, call by call. *)
Ltac parsed Hp :=
  repeat match type of Hp with
  | (_ ≫= _) = Ret _ =>
      let a := fresh "a" in let Ha := fresh "Ha" in
      apply outcome_bind_ret in Hp as (a & Ha & Hp)
  end.

(** A parsed document has every required section. *)
Lemma parse_config_keys root c : parse_config root = Ret c -> Forall (present root) required_keys.
Proof.
  intros Hp. unfold parse_config in Hp. parsed Hp.
  unfold required_keys. repeat constructor; apply ValidateNodeExists_ret;
    match goal with
    | Hv : ValidateNodeExists root ?k = Ret ?u |- ValidateNodeExists root ?k = Ret tt => destruct u; exact Hv
    end.
Qed.

(** C39: [loadConfig] returns a configuration exactly when the file can be opened, the document parses
    to it and it passes every check (both ports in 1..65535, a path where file ingestion or Python is
    enabled, positive router and rule-engine sizes, a known backend); every required section is then in
    the document.  Everything else leaves by an exception. *)
Theorem loadConfig_checked filepath exists_ doc c :
  (loadConfig filepath exists_ doc = Ret c <->
   exists_ = true /\ well_configured c /\ exists root, doc = Ret root /\ parse_config root = Ret c) /\
  (loadConfig filepath exists_ doc = Ret c ->
   exists root, doc = Ret root /\ Forall (present root) required_keys).
Proof.
  assert (Hiff : loadConfig filepath exists_ doc = Ret c <->
    exists_ = true /\ well_configured c /\ exists root, doc = Ret root /\ parse_config root = Ret c).
  { unfold loadConfig. destruct exists_; cbn [negb]; [|naive_solver]. rewrite outcome_bind_ret. split.
    - intros (root & -> & Hp). apply outcome_bind_ret in Hp as (c0 & Hp & Hv).
      pose proof (validate_ret _ _ Hv) as ->. rewrite <- validate_spec. eauto.
    - intros (_ & Hw & root & -> & Hp). exists root. split; [done|]. rewrite Hp. cbn. by apply validate_spec. }
  split; [exact Hiff|]. rewrite Hiff. intros (_ & _ & root & Hd & Hp). exists root.
  split; [done|]. by eapply parse_config_keys.
Qed.

End Loader.
End ConfigLoader.

(** ** A document tree *)

#[local] Set Warnings "-register-all".
Inductive tree := Text (s : string) | Number (n : Z) | Flag (b : bool) | Table (m : list (string * tree))
                | Items (l : list tree) | Undefined.

Definition tree_index (t : tree) (k : string) : outcome tree :=
  match t with
  | Table m => Ret (match List.find (fun kv => String.eqb (fst kv) k) m with Some (_, v) => v | None => Undefined end)
  | Undefined => Throw "invalid node"
  | _ => Ret Undefined
  end.

#[global] Instance tree_yaml : Yaml tree := {
  index := tree_index;
  defined t := match t with Undefined => false | _ => true end;
  as_string t := match t with Text s => Ret s | _ => Throw "bad conversion" end;
  as_int t := match t with Number n => Ret n | _ => Throw "bad conversion" end;
  int_or d t := match t with Number n => n | _ => d end;
  bool_or d t := match t with Flag b => b | _ => d end;
  elements t := match t with Items l => Ret l | _ => Ret [] end
}.

Definition sample_doc (port : Z) : tree :=
  let net (extra : list (string * tree)) :=
    Table (("host", Text "0.0.0.0") :: ("port", Number port) :: ("enable", Flag true) :: extra)%string in
  Table [("app_name", Text "esc"); ("version", Text "1");
         ("ingestion", Table [("tcp", net [("maxConnections", Number 10)]); ("udp", net [("bufferSize", Number 65536)]);
                              ("file", Table [("path", Text "x"); ("poll_interval_ms", Number 5)])]);
         ("router", Table [("shards", Number 4); ("strategy", Text "hash"); ("buffer_size", Number 64)]);
         ("rule_engine", Table [("rules_file", Text "r"); ("threads", Number 2); ("cache_size", Number 0)]);
         ("storage", Table [("backend", Text "filesystem"); ("sqlite_path", Text "data/events.bin")]);
         ("python_integration", Table [("script_path", Text "")]);
         ("broadcast", Table [("tcp_push", net []); ("websocket_push", net [])])]%string.

Lemma loadConfig_checked_witness :
  exists c, ConfigLoader.loadConfig "c.yaml" true (Ret (sample_doc 9000)) = Ret c /\
    ConfigLoader.loadConfig "c.yaml" true (Ret (sample_doc 0)) = Throw "Invalid Port Number" /\
    ConfigLoader.well_configured c.
Proof.
  assert (Hl : exists c, ConfigLoader.loadConfig "c.yaml" true (Ret (sample_doc 9000)) = Ret c)
    by (eexists; vm_compute; reflexivity).
  destruct Hl as [c Hl]. exists c. split; [exact Hl|]. split; [vm_compute; reflexivity|].
  destruct (proj1 (proj1 (ConfigLoader.loadConfig_checked "c.yaml" true (Ret (sample_doc 9000)) c)) Hl) as (_ & Hw & _).
  exact Hw.
Defined.
