(* ===== verification/Pools.v ===== *)
(** * Event pools: [include/eventstream/core/memory/event_pool.hpp],
    [include/eventstream/core/ingest/pool.hpp]

    Module [EventPool]: the per-thread pool with its free list, for types with an
    intrusive index and for types found through the hash map.  Objects are locations;
    [alloc] says which are allocated, and deleting or reading one that is not is
    undefined behaviour.  The location a [new] returns is an argument.
    Module [IngestEventPool]: the global pool behind the ingest servers, its deleter and
    its shutdown, as steps of any number of threads. *)

From S2P Require Import Prelude Event Metrics.
From Stdlib Require Import Floats.SpecFloat.

Definition SIZE_MAX : Z := UINT64_MAX.

Module EventPool.
Section Pool.
(** The template arguments: the capacity, and whether the type has [pool_index_]. *)
Context (Capacity : nat) (kHasPoolIndex : bool).

Abbreviation loc := positive.

Record t := mk {
  pool_ : list loc;
  ptr_to_index_ : gmap loc Z;
  free_list_ : list Z;
  available_count_ : nat;
  alloc : gmap loc Z          (* the allocated objects and their pool_index_ *)
}.

(** The loop of the constructor: [locs] are the locations of the new objects. *)
Definition init_alloc (locs : list loc) (a : gmap loc Z) : gmap loc Z :=
  list_to_map (imap (fun i l => (l, if kHasPoolIndex then Z.of_nat i else SIZE_MAX)) locs) ∪ a.
Definition init_map (locs : list loc) (m : gmap loc Z) : gmap loc Z :=
  if kHasPoolIndex then m else list_to_map (imap (fun i l => (l, Z.of_nat i)) locs) ∪ m.

Definition create (locs : list loc) : t :=
  mk locs (init_map locs ∅) (map Z.of_nat (seq 0 Capacity)) Capacity (init_alloc locs ∅).

Definition acquire (fresh : loc) (p : t) : outcome (loc * t) :=
  match available_count_ p with
  | O => Ret (fresh, mk (pool_ p) (ptr_to_index_ p) (free_list_ p) O (<[fresh := SIZE_MAX]> (alloc p)))
  | S n =>
      match free_list_ p !! n with
      | Some idx =>
          match pool_ p !! Z.to_nat idx with
          | Some l => Ret (l, mk (pool_ p) (ptr_to_index_ p) (free_list_ p) n (alloc p))
          | None => UB
          end
      | None => UB
      end
  end.

(** [delete obj]. *)
Definition delete_obj (obj : loc) (p : t) : outcome t :=
  match alloc p !! obj with
  | Some _ => Ret (mk (pool_ p) (ptr_to_index_ p) (free_list_ p) (available_count_ p) (delete obj (alloc p)))
  | None => UB
  end.

Definition put_back (idx : Z) (p : t) : t :=
  mk (pool_ p) (ptr_to_index_ p) (<[available_count_ p := idx]> (free_list_ p)) (S (available_count_ p)) (alloc p).

Definition release (obj : option loc) (p : t) : outcome t :=
  match obj with
  | None => Ret p
  | Some obj =>
      if (Capacity <=? available_count_ p)%nat then delete_obj obj p else
      let found (idx : Z) := if Z.of_nat Capacity <=? idx then delete_obj obj p else Ret (put_back idx p) in
      if kHasPoolIndex then
        match alloc p !! obj with
        | None => UB
        | Some idx => if idx =? SIZE_MAX then delete_obj obj p else found idx
        end
      else
        match ptr_to_index_ p !! obj with
        | None => delete_obj obj p
        | Some idx => found idx
        end
  end.

Definition available (p : t) : nat := available_count_ p.
Definition capacity (p : t) : nat := Capacity.

(** [(static_cast<double>(available_count_) / Capacity) * 100.0]: a pool at rest is at 100. *)
Definition utilization_percent (p : t) : MetricRegistry.double :=
  MetricRegistry.mul
    (MetricRegistry.div (MetricRegistry.of_uint64 (Z.of_nat (available_count_ p)))
                        (MetricRegistry.of_uint64 (Z.of_nat Capacity)))
    (MetricRegistry.of_uint64 100).

(** [reset]: the old objects are freed as the new ones are assigned; the hash map keeps the
    entries of the old ones. *)
Definition reset (locs : list loc) (p : t) : t :=
  mk locs (init_map locs (ptr_to_index_ p)) (map Z.of_nat (seq 0 Capacity)) Capacity
    (init_alloc locs (foldr delete (alloc p) (pool_ p))).

(** ** Clients that release what they hold *)

Inductive op := Acquire (fresh : loc) | Release (l : loc).

(** One operation of the client: the objects it holds are [held]. *)
Definition client (o : op) (s : t * gset loc) : outcome (t * gset loc) :=
  let '(p, held) := s in
  match o with
  | Acquire fresh => '(l, p') ← acquire fresh p; Ret (p', held ∪ {[l]})
  | Release l => p' ← release (Some l) p; Ret (p', held ∖ {[l]})
  end.

(** What the client promises: it releases what it holds; and [new] returns a location that
    is not allocated. *)
Definition permitted (o : op) (s : t * gset loc) : Prop :=
  match o with
  | Acquire fresh => alloc s.1 !! fresh = None
  | Release l => l ∈ s.2
  end.

Inductive runs : list op -> t * gset loc -> Prop :=
| runs_nil locs : length locs = Capacity -> NoDup locs -> runs [] (create locs, ∅)
| runs_snoc ops o s s' : runs ops s -> permitted o s -> client o s = Ret s' -> runs (ops ++ [o]) s'.

(** The indices of the free slots. *)
Definition free (p : t) : list Z := take (available_count_ p) (free_list_ p).

Record inv (p : t) (held : gset loc) : Prop := {
  i_pool : length (pool_ p) = Capacity /\ NoDup (pool_ p);
  i_list : length (free_list_ p) = Capacity /\ (available_count_ p <= Capacity)%nat;
  i_free : NoDup (free p) /\ Forall (fun i => 0 <= i < Z.of_nat Capacity) (free p);
  i_split : forall i l, pool_ p !! i = Some l -> (Z.of_nat i ∈ free p <-> l ∉ held);
  i_alloc : forall l, l ∈ held -> is_Some (alloc p !! l);
  i_slot : forall i l, pool_ p !! i = Some l ->
    if kHasPoolIndex then alloc p !! l = Some (Z.of_nat i)
    else is_Some (alloc p !! l) /\ ptr_to_index_ p !! l = Some (Z.of_nat i);
  i_heap : forall l, l ∉ pool_ p -> l ∈ held ->
    if kHasPoolIndex then alloc p !! l = Some SIZE_MAX else ptr_to_index_ p !! l = None;
  i_map : kHasPoolIndex = false -> forall l, is_Some (ptr_to_index_ p !! l) -> l ∈ pool_ p
}.

(** ** The invariant holds *)

Lemma imap_keys {B} (f : nat -> B) (locs : list loc) : (imap (fun i l => (l, f i)) locs).*1 = locs.
Proof.
  revert f; induction locs as [|l locs IH]; intros f; [done|]. rewrite imap_cons, fmap_cons. cbn [fst]. f_equal.
  exact (IH (f ∘ S)).
Qed.

Lemma imap_lookup (f : nat -> Z) (locs : list loc) i l :
  NoDup locs -> locs !! i = Some l ->
  (list_to_map (imap (fun i l => (l, f i)) locs) : gmap loc Z) !! l = Some (f i).
Proof.
  intros Hnd Hi. apply elem_of_list_to_map; [by rewrite imap_keys|].
  apply list_elem_of_lookup. exists i. by rewrite list_lookup_imap, Hi.
Qed.

Lemma imap_lookup_inv (f : nat -> Z) (locs : list loc) l :
  is_Some ((list_to_map (imap (fun i l => (l, f i)) locs) : gmap loc Z) !! l) -> l ∈ locs.
Proof.
  intros [v Hv]. apply elem_of_list_to_map_2 in Hv. rewrite <- (imap_keys f locs). apply list_elem_of_fmap.
  by exists (l, v).
Qed.

Lemma elem_of_indices i : Z.of_nat i ∈ map Z.of_nat (seq 0 Capacity) <-> (i < Capacity)%nat.
Proof.
  rewrite list_elem_of_In, in_map_iff. setoid_rewrite in_seq. split; [|intros; exists i; lia].
  intros (j & Hj & ?). lia.
Qed.

Lemma NoDup_indices : NoDup (map Z.of_nat (seq 0 Capacity)).
Proof. apply (NoDup_fmap_2 Z.of_nat). apply NoDup_ListNoDup, seq_NoDup. Qed.

Lemma inv_create locs : length locs = Capacity -> NoDup locs -> inv (create locs) ∅.
Proof.
  intros Hl Hnd.
  assert (Hfree : free (create locs) = map Z.of_nat (seq 0 Capacity)).
  { unfold free, create. cbn. apply take_ge. by rewrite length_map, length_seq. }
  split; cbn [pool_ free_list_ available_count_ alloc ptr_to_index_ create]; rewrite ?Hfree.
  - done.
  - by rewrite length_map, length_seq.
  - split; [apply NoDup_indices|]. apply Forall_forall. intros x Hx.
    apply list_elem_of_In, in_map_iff in Hx as (j & <- & Hj%in_seq). lia.
  - intros i l Hi. rewrite elem_of_indices. apply lookup_lt_Some in Hi. split; [set_solver|lia].
  - set_solver.
  - intros i l Hi. unfold init_alloc, init_map. destruct kHasPoolIndex.
    + rewrite map_union_empty. by apply (imap_lookup Z.of_nat).
    + rewrite !map_union_empty. split; [|by apply (imap_lookup Z.of_nat)].
      exists SIZE_MAX. by apply (imap_lookup (fun _ => SIZE_MAX) locs i).
  - set_solver.
  - intros Hk l. unfold init_map. rewrite Hk, map_union_empty. apply (imap_lookup_inv Z.of_nat).
Qed.

Lemma pool_allocated p held i l : inv p held -> pool_ p !! i = Some l -> is_Some (alloc p !! l).
Proof. intros Hi Hl. pose proof (i_slot _ _ Hi i l Hl). destruct kHasPoolIndex; naive_solver. Qed.

(** The pool is empty: the client gets an object of its own. *)
Lemma inv_fallback fresh p held :
  inv p held -> alloc p !! fresh = None -> available_count_ p = O ->
  (fresh ∉ held) /\
  inv (mk (pool_ p) (ptr_to_index_ p) (free_list_ p) O (<[fresh := SIZE_MAX]> (alloc p))) (held ∪ {[fresh]}).
Proof.
  intros Hi Hf En. pose proof Hi as [[Hlen Hnd] [Hfl Hc] [Hnf Hrange] Hsplit Hal Hslot Hheap Hmap].
  assert (Hfh : fresh ∉ held) by (intros Hin; destruct (Hal _ Hin) as [? ?]; congruence).
  assert (Hfp : fresh ∉ pool_ p).
  { intros [i Hin]%list_elem_of_lookup. destruct (pool_allocated p held i fresh Hi Hin). congruence. }
  split; [done|].
  rewrite En in Hc.
  assert (Hfree : forall q, available_count_ q = O -> free q = []) by (intros q Hq; unfold free; by rewrite Hq).
  split; cbn [pool_ free_list_ available_count_ alloc ptr_to_index_]; rewrite ?Hfree by done; try done.
  - split; constructor.
  - intros i l Hl. rewrite Hfree in Hsplit by done. specialize (Hsplit i l Hl).
    apply list_elem_of_lookup_2 in Hl. set_solver.
  - intros l. rewrite lookup_insert_is_Some. set_unfold. intros [Hin| ->]; [|by left].
    destruct (decide (fresh = l)); [by left|right; auto].
  - intros i l Hl. specialize (Hslot i l Hl).
    assert (fresh <> l) by (intros ->; apply Hfp; by eapply list_elem_of_lookup_2).
    rewrite !lookup_insert_ne by done. done.
  - intros l Hlp. set_unfold. intros [Hin| ->].
    + specialize (Hheap l Hlp Hin). assert (fresh <> l) by (intros ->; done).
      rewrite lookup_insert_ne by done. done.
    + rewrite lookup_insert_eq. destruct kHasPoolIndex; [done|]. apply eq_None_not_Some.
      intros Hs. apply Hfp. by apply Hmap.
Qed.

Lemma inv_acquire fresh p held :
  inv p held -> alloc p !! fresh = None ->
  exists l p', acquire fresh p = Ret (l, p') /\ (l ∉ held) /\ inv p' (held ∪ {[l]}).
Proof.
  intros Hi Hf. unfold acquire. pose proof Hi as [[Hlen Hnd] [Hfl Hc] [Hnf Hrange] Hsplit Hal Hslot Hheap Hmap].
  destruct (available_count_ p) as [|n] eqn:En.
  - destruct (inv_fallback fresh p held Hi Hf En) as [Hfh Hi']. by eexists fresh, _.
  - assert (Hn : (n < length (free_list_ p))%nat) by lia.
    destruct (lookup_lt_is_Some_2 _ _ Hn) as [idx Hidx]. rewrite Hidx.
    assert (Hfree : free p = take n (free_list_ p) ++ [idx]).
    { unfold free. rewrite En. by apply take_S_r. }
    rewrite Hfree in Hnf, Hrange, Hsplit. apply Forall_app in Hrange as [Hrange [Hidxr _]%Forall_cons].
    apply NoDup_app in Hnf as (Hnf & Hdis & _).
    destruct (lookup_lt_is_Some_2 (pool_ p) (Z.to_nat idx) ltac:(lia)) as [l Hl]. rewrite Hl.
    eexists l, _. split; [done|].
    assert (Hlh : l ∉ held) by (apply (Hsplit _ _ Hl); rewrite Z2Nat.id by lia; set_solver).
    split; [done|].
    split; cbn [pool_ free_list_ available_count_ alloc ptr_to_index_]; try done.
    + split; [done|lia].
    + intros i l' Hl'. unfold free. cbn [available_count_ free_list_]. specialize (Hsplit i l' Hl').
      destruct (decide (l' = l)) as [->|Hne].
      * assert (i = Z.to_nat idx) as -> by (exact (NoDup_lookup _ _ _ _ Hnd Hl' Hl)).
        rewrite Z2Nat.id by lia. split; [|set_solver]. intros Hin. by specialize (Hdis _ Hin ltac:(set_solver)).
      * assert (Z.of_nat i <> idx) by (intros <-; rewrite Nat2Z.id in Hl; congruence). set_solver.
    + intros l'. set_unfold. intros [Hin| ->]; [by apply Hal|]. by eapply pool_allocated.
    + intros l' Hlp. set_unfold. intros [Hin| ->]; [by apply Hheap|]. exfalso. apply Hlp. by eapply list_elem_of_lookup_2.
Qed.

(** With every slot free no pooled object is held. *)
Lemma full_means_none_held p held i l :
  inv p held -> (Capacity <= available_count_ p)%nat -> pool_ p !! i = Some l -> l ∉ held.
Proof.
  intros Hi Hc Hl. pose proof Hi as [[Hlen _] [Hfl Hc'] [Hnf Hrange] Hsplit _ _ _ _].
  apply (Hsplit i l Hl). apply lookup_lt_Some in Hl.
  assert (Hincl : incl (map Z.of_nat (seq 0 Capacity)) (free p)).
  { apply NoDup_length_incl.
    - by apply NoDup_ListNoDup.
    - unfold free. rewrite length_map, length_seq, length_take. lia.
    - intros x Hx. apply list_elem_of_In in Hx. rewrite Forall_forall in Hrange. specialize (Hrange x Hx).
      apply in_map_iff. exists (Z.to_nat x). rewrite in_seq. lia. }
  apply list_elem_of_In, Hincl, list_elem_of_In, elem_of_indices. lia.
Qed.

(** Deleting a held object that is not pooled. *)
Lemma pool_inv_delete p held l :
  inv p held -> l ∈ held -> l ∉ pool_ p ->
  exists p', delete_obj l p = Ret p' /\ inv p' (held ∖ {[l]}).
Proof.
  intros Hi Hin Hnp. pose proof Hi as [? ? Hf Hsplit Hal Hslot Hheap Hmap]. unfold delete_obj.
  destruct (Hal l Hin) as [v ->]. eexists. split; [done|].
  split; cbn [pool_ free_list_ available_count_ alloc ptr_to_index_]; try done.
  - intros i l' Hl'. unfold free. cbn [available_count_ free_list_]. rewrite (Hsplit i l' Hl').
    apply list_elem_of_lookup_2 in Hl'. set_solver.
  - intros l'. set_unfold. intros [Hl' Hne]. rewrite lookup_delete_ne by done. auto.
  - intros i l' Hl'. specialize (Hslot i l' Hl'). apply list_elem_of_lookup_2 in Hl'.
    rewrite lookup_delete_ne by (intros <-; done). done.
  - intros l' Hlp. set_unfold. intros [Hl' Hne]. rewrite lookup_delete_ne by done. by apply Hheap.
Qed.

(** Returning a held object to its slot. *)
Lemma inv_put_back p held l i :
  inv p held -> l ∈ held -> pool_ p !! i = Some l -> (available_count_ p < Capacity)%nat ->
  inv (put_back (Z.of_nat i) p) (held ∖ {[l]}).
Proof.
  intros Hi Hin Hl Hc. pose proof Hi as [[Hlen Hnd] [Hfl Hc'] [Hnf Hrange] Hsplit Hal Hslot Hheap Hmap].
  assert (Hfree : free (put_back (Z.of_nat i) p) = free p ++ [Z.of_nat i]).
  { unfold free, put_back. cbn. rewrite (take_S_r _ _ (Z.of_nat i)).
    - by rewrite take_insert_ge.
    - apply list_lookup_insert_eq. lia. }
  assert (Hnin : Z.of_nat i ∉ free p) by (rewrite (Hsplit i l Hl); by intros ?).
  pose proof (lookup_lt_Some _ _ _ Hl).
  split; rewrite ?Hfree; cbn [pool_ free_list_ available_count_ alloc ptr_to_index_ put_back]; try done.
  - rewrite length_insert. split; [done|lia].
  - split.
    + apply NoDup_app. split_and!; [done| |apply NoDup_singleton]. set_solver.
    + apply Forall_app. split; [done|]. constructor; [lia|constructor].
  - intros j l' Hl'. specialize (Hsplit j l' Hl'). destruct (decide (l' = l)) as [->|Hne].
    + assert (j = i) as -> by (exact (NoDup_lookup _ _ _ _ Hnd Hl' Hl)). set_solver.
    + assert (Z.of_nat j <> Z.of_nat i) by (intros ?%Nat2Z.inj; congruence). set_solver.
  - intros l'. set_unfold. intros [Hl' _]. auto.
  - intros l' Hlp. set_unfold. intros [Hl' _]. by apply Hheap.
Qed.

Context (HCap : Z.of_nat Capacity <= SIZE_MAX).

Lemma inv_release p held l :
  inv p held -> l ∈ held -> exists p', release (Some l) p = Ret p' /\ inv p' (held ∖ {[l]}).
Proof using Type*.
  intros Hi Hin. unfold release. destruct (Nat.leb_spec Capacity (available_count_ p)) as [Hfull|Hroom].
  { apply pool_inv_delete; [done..|]. intros [i Hl]%list_elem_of_lookup.
    by apply (full_means_none_held p held i l). }
  destruct (decide (l ∈ pool_ p)) as [Hp|Hp].
  - apply list_elem_of_lookup in Hp as [i Hl]. pose proof (i_slot _ _ Hi i l Hl) as Hs.
    pose proof (lookup_lt_Some _ _ _ Hl). rewrite (proj1 (i_pool _ _ Hi)) in *.
    assert (Hput : exists p', (if Z.of_nat Capacity <=? Z.of_nat i then delete_obj l p
                               else Ret (put_back (Z.of_nat i) p)) = Ret p' /\ inv p' (held ∖ {[l]})).
    { rewrite (proj2 (Z.leb_gt _ _)) by lia. eexists. split; [done|]. by apply inv_put_back. }
    destruct kHasPoolIndex.
    + rewrite Hs. rewrite (proj2 (Z.eqb_neq _ _)) by lia. exact Hput.
    + rewrite (proj2 Hs). exact Hput.
  - pose proof (i_heap _ _ Hi l Hp Hin) as Hh. destruct kHasPoolIndex; rewrite Hh; by apply pool_inv_delete.
Qed.

Lemma runs_inv ops s : runs ops s -> inv s.1 s.2.
Proof using Type*.
  induction 1 as [locs Hl Hnd|ops o [p held] s' Hr IH Hperm Hc]; [by apply inv_create|].
  destruct o as [fresh|l]; cbn [client permitted fst snd] in *.
  - destruct (inv_acquire fresh p held IH Hperm) as (l & p' & Ha & _ & Hi). rewrite Ha in Hc. cbn [mbind outcome_bind] in Hc. by simplify_eq/=.
  - destruct (inv_release p held l IH Hperm) as (p' & Ha & Hi). rewrite Ha in Hc. cbn [mbind outcome_bind] in Hc. by simplify_eq/=.
Qed.

(** C33: a client that releases only objects it holds never runs into undefined behaviour, is never given
    an object it already holds (fallback objects included), and whenever every slot is free again it
    holds no pooled object. *)
Theorem pool_never_aliases ops p held :
  runs ops (p, held) ->
  (forall fresh, alloc p !! fresh = None ->
     exists l p', acquire fresh p = Ret (l, p') /\ (l ∉ held)) /\
  (forall l, l ∈ held -> exists p', release (Some l) p = Ret p') /\
  (available p = Capacity -> forall l, l ∈ held -> l ∉ pool_ p).
Proof using Type*.
  intros Hr. apply runs_inv in Hr. cbn [fst snd] in Hr. split_and!.
  - intros fresh Hf. destruct (inv_acquire fresh p held Hr Hf) as (l & p' & ? & ? & _). eauto.
  - intros l Hl. destruct (inv_release p held l Hr Hl) as (p' & ? & _). eauto.
  - intros Ha l Hl [i Hp]%list_elem_of_lookup.
    apply (full_means_none_held p held i l Hr) in Hp; [done|unfold available in Ha; lia].
Qed.

End Pool.
End EventPool.

Lemma pool_never_aliases_witness :
  exists l p', EventPool.acquire 9%positive (EventPool.create 2 true [1; 2])%positive = Ret (l, p') /\
    l ∉ (∅ : gset positive).
Proof.
  destruct (EventPool.pool_never_aliases 2 true ltac:(discriminate) [] (EventPool.create 2 true [1; 2]%positive) ∅) as [H _].
  - apply EventPool.runs_nil; [reflexivity|apply (bool_decide_unpack _); vm_compute; exact I].
  - apply H. reflexivity.
Defined.

(** [reset] leaves the freed objects in the hash map: after it, an object the allocator places
    where one of them was is taken for a pooled one when it is released, and the slot's real
    object, still held, is handed out a second time. *)
Example reset_stale_index :
  let p0 := EventPool.create 1 false [1%positive] in
  let p1 := EventPool.reset 1 false [2%positive] p0 in
  exists p2 p3 p4 p5,
    EventPool.acquire 1%positive p1 = Ret (2%positive, p2) /\
    EventPool.alloc p2 !! 1%positive = None /\
    EventPool.acquire 1%positive p2 = Ret (1%positive, p3) /\
    EventPool.release 1 false (Some 1%positive) p3 = Ret p4 /\
    EventPool.acquire 3%positive p4 = Ret (2%positive, p5).
Proof. repeat eexists; vm_compute; reflexivity. Qed.

(** The utilization is the share of the objects that is free: 100 for a pool nobody uses, 0 for an exhausted one. *)
Example utilization_is_free_share :
  exists p0 p1 p2 p3 p4,
    EventPool.create 4 true [1; 2; 3; 4]%positive = p0 /\
    EventPool.acquire 9 p0 = Ret (4%positive, p1) /\ EventPool.acquire 9 p1 = Ret (3%positive, p2) /\
    EventPool.acquire 9 p2 = Ret (2%positive, p3) /\ EventPool.acquire 9 p3 = Ret (1%positive, p4) /\
    map (EventPool.utilization_percent 4) [p0; p1; p2; p3; p4]
      = map MetricRegistry.of_uint64 [100; 75; 50; 25; 0].
Proof. repeat eexists; vm_compute; reflexivity. Qed.

(** ** The global pool of the ingest servers *)

Module IngestEventPool.
Section Pool.
(** [kPoolCapacity], 10000 in the program. *)
Context (kPoolCapacity : nat).

Abbreviation loc := positive.

(** [Event{}]: value-initialised. *)
Definition blank : Event := new_event (mkEventHeader TCP BATCH 0 0 0 0 0) "" [] ∅.

(** The queue, the shutdown flag, the events allocated, those with a live [shared_ptr], those
    whose deleter has reset them and waits for the lock, the calls of [shutdown] that have set
    the flag and not yet cleared the queue, and how often [initialize] ran. *)
Record state := mkState {
  pool : list loc;
  shutdown_flag : bool;
  events : gmap loc Event;
  live_ : gset loc;
  returning : list loc;
  clearing : nat;
  inits : nat
}.

Definition initial : state := mkState [] false ∅ ∅ [] 0 0.

Definition getPoolSize (s : state) : nat := length (pool s).

(** [delete e]. *)
Definition free_events (ls : list loc) (m : gmap loc Event) : gmap loc Event := foldr delete m ls.

Inductive step : state -> state -> Prop :=
(** [initialize]: under the lock. *)
| step_initialize s locs :
    length locs = kPoolCapacity -> NoDup locs -> Forall (fun l => events s !! l = None) locs ->
    step s (mkState (pool s ++ locs) false (foldr (fun l => <[l := blank]>) (events s) locs) (live_ s)
              (returning s) (clearing s) (S (inits s)))
(** [acquireEvent] with a pooled event, and with a new one. *)
| step_acquire s l rest :
    pool s = l :: rest ->
    step s (mkState rest (shutdown_flag s) (events s) ({[l]} ∪ live_ s) (returning s) (clearing s) (inits s))
| step_acquire_new s l :
    pool s = [] -> events s !! l = None ->
    step s (mkState [] (shutdown_flag s) (<[l := blank]> (events s)) ({[l]} ∪ live_ s) (returning s)
              (clearing s) (inits s))
(** The owner writes to the event. *)
| step_write s l e :
    l ∈ live_ s ->
    step s (mkState (pool s) (shutdown_flag s) (<[l := e]> (events s)) (live_ s) (returning s)
              (clearing s) (inits s))
(** The last reference goes: the deleter's first test of the flag. *)
| step_drop_deleted s l :
    l ∈ live_ s -> shutdown_flag s = true ->
    step s (mkState (pool s) true (delete l (events s)) (live_ s ∖ {[l]}) (returning s) (clearing s) (inits s))
| step_drop_reset s l :
    l ∈ live_ s -> shutdown_flag s = false ->
    step s (mkState (pool s) false (<[l := blank]> (events s)) (live_ s ∖ {[l]}) (returning s ++ [l])
              (clearing s) (inits s))
(** The deleter under the lock: the flag is tested again, then the size. *)
| step_return_deleted s l before after :
    returning s = before ++ l :: after ->
    shutdown_flag s = true \/ (kPoolCapacity <= length (pool s))%nat ->
    step s (mkState (pool s) (shutdown_flag s) (delete l (events s)) (live_ s) (before ++ after)
              (clearing s) (inits s))
| step_return_pooled s l before after :
    returning s = before ++ l :: after ->
    shutdown_flag s = false -> (length (pool s) < kPoolCapacity)%nat ->
    step s (mkState (pool s ++ [l]) false (events s) (live_ s) (before ++ after) (clearing s) (inits s))
(** [shutdown]: the flag, then the queue under the lock. *)
| step_shutdown s :
    step s (mkState (pool s) true (events s) (live_ s) (returning s) (S (clearing s)) (inits s))
| step_clear s n :
    clearing s = S n ->
    step s (mkState [] (shutdown_flag s) (free_events (pool s) (events s)) (live_ s) (returning s) n (inits s)).

(** Every event has one owner: the queue, a [shared_ptr] or a deleter. *)
Definition owned (s : state) : list loc := pool s ++ returning s.

Record inv (s : state) : Prop := {
  v_nodup : NoDup (owned s);
  v_live : forall l, l ∈ live_ s -> l ∉ owned s;
  v_blank : forall l, l ∈ owned s -> events s !! l = Some blank;
  v_alloc : forall l, l ∈ live_ s -> is_Some (events s !! l);
  v_down : shutdown_flag s = true -> clearing s = O -> pool s = [];
  v_size : (length (pool s) <= kPoolCapacity * S (inits s))%nat
}.

Lemma lookup_init locs (m : gmap loc Event) l :
  (foldr (fun l => <[l := blank]>) m locs : gmap loc Event) !! l = if decide (l ∈ locs) then Some blank else m !! l.
Proof.
  induction locs as [|k locs IH]; cbn; [by rewrite decide_False by set_solver|].
  destruct (decide (k = l)) as [->|Hne].
  - rewrite lookup_insert_eq, decide_True by set_solver. done.
  - rewrite lookup_insert_ne, IH by done. by repeat case_decide; set_solver.
Qed.

Lemma lookup_free ls (m : gmap loc Event) l : l ∉ ls -> free_events ls m !! l = m !! l.
Proof.
  induction ls as [|k ls IH]; [done|]. cbn. intros Hn. rewrite lookup_delete_ne by set_solver. apply IH. set_solver.
Qed.

(** What the other owners hold when a deleter has its event. *)
Lemma returned_owner s l before after :
  returning s = before ++ l :: after -> NoDup (pool s ++ returning s) ->
  NoDup (pool s ++ before ++ after) /\ (l ∉ pool s ++ before ++ after) /\ l ∈ returning s.
Proof.
  intros Hr Hnd.
  assert (Hperm : pool s ++ returning s ≡ₚ l :: (pool s ++ before ++ after)).
  { rewrite Hr, (app_assoc (pool s) before), (app_assoc (pool s) before). symmetry. apply Permutation_middle. }
  rewrite Hperm in Hnd. apply NoDup_cons in Hnd as [? ?]. split_and!; [done..|]. rewrite Hr. set_solver.
Qed.

Lemma inv_initialize s locs :
  inv s -> length locs = kPoolCapacity -> NoDup locs -> Forall (fun l => events s !! l = None) locs ->
  inv (mkState (pool s ++ locs) false (foldr (fun l => <[l := blank]>) (events s) locs) (live_ s)
         (returning s) (clearing s) (S (inits s))).
Proof.
  intros [Hnd Hlive Hbl Hal Hdown Hsize] Hlen Hndl Hfresh. rewrite Forall_forall in Hfresh.
  assert (Hno : forall l, l ∈ owned s -> l ∉ locs) by (intros l Hl Hin; specialize (Hbl l Hl); rewrite Hfresh in Hbl; done).
  assert (Hnl : forall l, l ∈ live_ s -> l ∉ locs).
  { intros l Hl Hin. destruct (Hal l Hl) as [e He]. rewrite Hfresh in He; done. }
  assert (Hown : (pool s ++ locs) ++ returning s ≡ₚ locs ++ owned s).
  { unfold owned. rewrite (Permutation_app_comm (pool s) locs). by rewrite <- app_assoc. }
  split; unfold owned; cbn [pool returning live_ events shutdown_flag clearing inits]; [rewrite Hown| | | | |].
  - apply NoDup_app. split_and!; [done| |done]. intros l Hl Ho. by apply (Hno l Ho).
  - intros l Hl. rewrite Hown, elem_of_app. intros [?|?]; [by eapply Hnl|by eapply Hlive].
  - intros l. rewrite Hown, elem_of_app, lookup_init. intros [?|?]; [by rewrite decide_True|].
    rewrite decide_False by (by apply Hno). by apply Hbl.
  - intros l Hl. rewrite lookup_init. case_decide; [done|]. by apply Hal.
  - done.
  - rewrite length_app, Hlen. nia.
Qed.

Ltac owners Hi :=
  destruct Hi as [Hnd Hlive Hbl Hal Hdown Hsize]; unfold owned in *;
  split; unfold owned; cbn [pool returning live_ events shutdown_flag clearing inits]; try done.

(** The owners: [acquireEvent], a write, the last reference. *)
Lemma inv_acquired s l rest :
  inv s -> pool s = l :: rest ->
  inv (mkState rest (shutdown_flag s) (events s) ({[l]} ∪ live_ s) (returning s) (clearing s) (inits s)).
Proof.
  intros Hi Hp. owners Hi.
  - rewrite Hp in Hnd. by apply NoDup_cons in Hnd as [_ Hnd].
  - rewrite Hp in Hnd, Hlive. apply NoDup_cons in Hnd as [Hnin _]. set_unfold. intros k [->|Hk]; [done|].
    specialize (Hlive k Hk). set_solver.
  - intros k Hk. apply Hbl. rewrite Hp. set_solver.
  - set_unfold. intros k [->|Hk]; [|by apply Hal]. rewrite (Hbl l) by (rewrite Hp; set_solver). done.
  - intros Hf Hc. specialize (Hdown Hf Hc). congruence.
  - rewrite Hp in Hsize. cbn [length] in Hsize. lia.
Qed.

Lemma inv_acquired_new s l :
  inv s -> pool s = [] -> events s !! l = None ->
  inv (mkState [] (shutdown_flag s) (<[l := blank]> (events s)) ({[l]} ∪ live_ s) (returning s)
         (clearing s) (inits s)).
Proof.
  intros Hi Hp Hn. owners Hi.
  - rewrite Hp in Hnd. done.
  - rewrite Hp in Hlive, Hbl. set_unfold. intros k [->|Hk]; [|by apply Hlive].
    intros Hin. specialize (Hbl l Hin). congruence.
  - rewrite Hp in Hbl. intros k Hk. specialize (Hbl k Hk). rewrite lookup_insert_ne; [done|congruence].
  - set_unfold. intros k [->|Hk]; [by rewrite lookup_insert_eq|].
    apply lookup_insert_is_Some. destruct (decide (l = k)); [by left|right; auto].
  - cbn. lia.
Qed.

Lemma inv_written s l e :
  inv s -> l ∈ live_ s ->
  inv (mkState (pool s) (shutdown_flag s) (<[l := e]> (events s)) (live_ s) (returning s) (clearing s) (inits s)).
Proof.
  intros Hi Hl. owners Hi.
  - intros k Hk. rewrite lookup_insert_ne; [by apply Hbl|]. intros ->. by apply (Hlive k Hl).
  - intros k Hk. apply lookup_insert_is_Some. destruct (decide (l = k)); [by left|right; auto].
Qed.

Lemma inv_dropped_deleted s l :
  inv s -> l ∈ live_ s -> shutdown_flag s = true ->
  inv (mkState (pool s) true (delete l (events s)) (live_ s ∖ {[l]}) (returning s) (clearing s) (inits s)).
Proof.
  intros Hi Hl Hf. owners Hi.
  - set_unfold. intros k [Hk _]. by apply Hlive.
  - intros k Hk. rewrite lookup_delete_ne; [by apply Hbl|]. intros ->. by apply (Hlive k Hl).
  - set_unfold. intros k [Hk Hne]. rewrite lookup_delete_ne by done. by apply Hal.
  - auto.
Qed.

Lemma inv_dropped_reset s l :
  inv s -> l ∈ live_ s ->
  inv (mkState (pool s) false (<[l := blank]> (events s)) (live_ s ∖ {[l]}) (returning s ++ [l])
         (clearing s) (inits s)).
Proof.
  intros Hi Hl. owners Hi.
  - rewrite app_assoc. apply NoDup_app. split_and!; [done| |apply NoDup_singleton].
    intros k Hk ->%list_elem_of_singleton. by apply (Hlive l Hl).
  - set_unfold. intros k [Hk Hne]. specialize (Hlive k Hk). set_solver.
  - intros k Hk. destruct (decide (l = k)) as [->|Hne]; [by rewrite lookup_insert_eq|].
    rewrite lookup_insert_ne by done. apply Hbl. set_solver.
  - set_unfold. intros k [Hk Hne]. rewrite lookup_insert_ne by done. by apply Hal.
Qed.

(** The deleter under the lock, and [shutdown]. *)
Lemma inv_returned_deleted s l before after :
  inv s -> returning s = before ++ l :: after ->
  inv (mkState (pool s) (shutdown_flag s) (delete l (events s)) (live_ s) (before ++ after) (clearing s) (inits s)).
Proof.
  intros Hi Hr. owners Hi.
  - by destruct (returned_owner s l before after Hr Hnd) as (? & ? & ?).
  - intros k Hk. specialize (Hlive k Hk). rewrite Hr in Hlive. set_solver.
  - intros k Hk. destruct (returned_owner s l before after Hr Hnd) as (_ & Hnin & _).
    rewrite lookup_delete_ne by (intros ->; done). apply Hbl. rewrite Hr. set_solver.
  - intros k Hk. rewrite lookup_delete_ne; [by apply Hal|]. intros ->. apply (Hlive k Hk). rewrite Hr. set_solver.
Qed.

Lemma inv_returned_pooled s l before after :
  inv s -> returning s = before ++ l :: after -> (length (pool s) < kPoolCapacity)%nat ->
  inv (mkState (pool s ++ [l]) false (events s) (live_ s) (before ++ after) (clearing s) (inits s)).
Proof.
  intros Hi Hr Hc. owners Hi.
  - destruct (returned_owner s l before after Hr Hnd) as (H1 & Hnin & _). rewrite <- app_assoc. cbn [app].
    rewrite <- Permutation_middle. by apply NoDup_cons.
  - intros k Hk. specialize (Hlive k Hk). rewrite Hr in Hlive. set_solver.
  - intros k Hk. apply Hbl. rewrite Hr. set_solver.
  - rewrite length_app. cbn [length]. nia.
Qed.

Lemma inv_cleared s n :
  inv s -> clearing s = S n ->
  inv (mkState [] (shutdown_flag s) (free_events (pool s) (events s)) (live_ s) (returning s) n (inits s)).
Proof.
  intros Hi Hn. owners Hi.
  - by apply NoDup_app in Hnd as (_ & _ & ?).
  - intros k Hk. specialize (Hlive k Hk). set_solver.
  - intros k Hk. apply NoDup_app in Hnd as (_ & Hdis & _). rewrite lookup_free; [apply Hbl; set_solver|].
    intros Hin. by apply (Hdis k Hin).
  - intros k Hk. rewrite lookup_free; [by apply Hal|]. specialize (Hlive k Hk). set_solver.
  - cbn. lia.
Qed.

Lemma ingest_inv_step s s' : inv s -> step s s' -> inv s'.
Proof.
  intros Hi Hstep. destruct Hstep; [by apply inv_initialize|by apply inv_acquired|by apply inv_acquired_new
    |by apply inv_written|by apply inv_dropped_deleted|by apply inv_dropped_reset|by eapply inv_returned_deleted
    |by eapply inv_returned_pooled| |by apply inv_cleared].
  owners Hi.
Qed.

(** C32: whatever the interleaving of ingest threads, deleters, [initialize] and [shutdown], every event
    belongs to one owner (the queue, a shared pointer or a deleter), an event handed out is blank, and
    once every [shutdown] has cleared the queue under the flag nothing is put back: the queue stays
    empty.  Every [initialize] adds a full capacity to what the deleters alone can pool. *)
Theorem ingest_pool_safe s :
  rtc step initial s ->
  NoDup (pool s ++ returning s ++ elements (live_ s)) /\
  (forall l rest, pool s = l :: rest -> events s !! l = Some blank) /\
  (shutdown_flag s = true -> clearing s = O -> pool s = []) /\
  (getPoolSize s <= kPoolCapacity * S (inits s))%nat.
Proof.
  intros Hr. assert (Hi : inv s).
  { eapply (rtc_invariant step inv); [intros; by eapply ingest_inv_step|exact Hr|].
    split; cbn; try done; try set_solver; [constructor|lia]. }
  destruct Hi as [Hnd Hlive Hbl Hal Hdown Hsize]. unfold owned in *. split_and!.
  - rewrite app_assoc. apply NoDup_app. split_and!; [done| |apply NoDup_elements].
    intros l Hl Hin%elem_of_elements. by apply (Hlive l Hin).
  - intros l rest Hp. apply Hbl. rewrite Hp. set_solver.
  - exact Hdown.
  - exact Hsize.
Qed.

End Pool.
End IngestEventPool.

Module IngestPoolRun.
Import IngestEventPool.

(** A pool of two: initialised, then one event acquired. *)
Definition filled : state :=
  mkState [1; 2]%positive false {[1%positive := blank; 2%positive := blank]} ∅ [] 0 1.
Definition taken : state :=
  mkState [2]%positive false {[1%positive := blank; 2%positive := blank]} {[1%positive]} [] 0 1.

Lemma filled_step : step 2 initial filled.
Proof.
  apply (step_initialize 2 initial [1; 2]%positive); [reflexivity| |repeat constructor].
  apply (bool_decide_unpack _). vm_compute. exact I.
Qed.

Lemma taken_reachable : rtc (step 2) initial taken.
Proof.
  eapply rtc_l; [exact filled_step|]. eapply rtc_l; [|apply rtc_refl].
  exact (step_acquire 2 filled 1%positive [2]%positive eq_refl).
Qed.

(** A second [initialize] doubles the queue. *)
Lemma initialize_twice : exists s, rtc (step 2) initial s /\ getPoolSize s = 4%nat.
Proof.
  eexists. split.
  - eapply rtc_l; [exact filled_step|]. eapply rtc_l; [|apply rtc_refl].
    apply (step_initialize 2 filled [3; 4]%positive); [reflexivity| |repeat constructor].
    apply (bool_decide_unpack _). vm_compute. exact I.
  - reflexivity.
Qed.

End IngestPoolRun.

Lemma ingest_pool_safe_witness :
  rtc (IngestEventPool.step 2) IngestEventPool.initial IngestPoolRun.taken /\
  NoDup (IngestEventPool.pool IngestPoolRun.taken ++ IngestEventPool.returning IngestPoolRun.taken ++
         elements (IngestEventPool.live_ IngestPoolRun.taken)).
Proof.
  split; [exact IngestPoolRun.taken_reachable|].
  exact (proj1 (IngestEventPool.ingest_pool_safe 2 IngestPoolRun.taken IngestPoolRun.taken_reachable)).
Defined.
