(* ===== verification/Numa.v ===== *)
(** * NUMA binding: [include/eventstream/core/memory/numa.hpp]

    Module [NUMABinding]: the wrappers the threads are pinned with.  libnuma and the
    kernel are the parameter [Libnuma]: what they answer; what the wrappers do with
    the answers, and the masks, affinities and regions they leave behind, is the
    state [Sys].  A mask that is allocated and not freed stays in [masks]. *)

From S2P Require Import Prelude.
From stdpp Require Import pretty.
#[local] Open Scope Z_scope.

(** The answers of libnuma and of the kernel. *)
Record Libnuma := mkLibnuma {
  bitmask : Type;
  numa_available : Z;
  numa_max_node : Z;
  node_to_cpus : Z -> option bitmask;        (* the mask of a node; None: no mask could be allocated *)
  nbytes : bitmask -> Z;
  isbitset : bitmask -> Z -> bool;
  weight : bitmask -> Z;
  node_size : Z -> Z;                        (* numa_node_size64 *)
  setaffinity : Z -> gset Z -> Z;            (* pthread_setaffinity_np of a thread *)
  alloc_onnode : Z -> Z -> option Z;         (* the address, if any *)
  get_mempolicy : Z -> option Z;             (* the node of an address, if the call succeeds *)
  nodeset_alloc : Z -> bool;                 (* numa_bitmask_alloc of so many bits *)
  mbind : Z -> Z -> gset Z -> Z
}.

Module NUMABinding.
Section NUMABinding.
Context (L : Libnuma).

(** [masks]: the bit masks allocated and not freed; [affinity] of each thread; [regions]: the
    memory got from libnuma. *)
Record Sys := mkSys { masks : Z; affinity : gmap Z (gset Z); regions : gmap Z Z }.

Definition alloc_mask (s : Sys) : Sys := mkSys (masks s + 1) (affinity s) (regions s).
Definition free_mask (s : Sys) : Sys := mkSys (masks s - 1) (affinity s) (regions s).
Definition pin (thread : Z) (cpus : gset Z) (s : Sys) : Sys :=
  mkSys (masks s) (<[thread := cpus]> (affinity s)) (regions s).

(** ** Topology *)

Definition getNumNumaNodes : Z :=
  if negb (numa_available L =? -1) then numa_max_node L + 1 else 1.

(** The test every wrapper starts with. *)
Definition node_known (numa_node : Z) : bool :=
  let max_nodes := getNumNumaNodes in
  negb (numa_available L =? -1) && (0 <=? numa_node) && (numa_node <? max_nodes).

Definition getCPUCountOnNode (numa_node : Z) (s : Sys) : Z * Sys :=
  if node_known numa_node then
    match node_to_cpus L numa_node with
    | Some cpumask =>
        let s := alloc_mask s in
        let count := weight L cpumask in
        (count, free_mask s)
    | None => (0, s)
    end
  else (0, s).

(** [numa_bitmask_nbytes(mask) * 8], an unsigned int. *)
Definition mask_bits (m : bitmask L) : Z := wrap 32 (nbytes L m * 8).

(** The loop that collects the bits: [n] turns from [i] on. *)
Fixpoint collect (m : bitmask L) (n : nat) (i : Z) : list Z :=
  match n with
  | O => []
  | S n' => if isbitset L m i then i :: collect m n' (i + 1) else collect m n' (i + 1)
  end.

Definition getCPUsOnNode (numa_node : Z) (s : Sys) : list Z * Sys :=
  if node_known numa_node then
    match node_to_cpus L numa_node with
    | Some cpumask =>
        let s := alloc_mask s in
        let cpus := collect cpumask (Z.to_nat (mask_bits cpumask)) 0 in
        (cpus, free_mask s)
    | None => ([], s)
    end
  else ([], s).

(** ** Threads *)

(** [CPU_ZERO], [CPU_SET]: a number outside the 1024 of a [cpu_set_t] sets nothing. *)
Definition CPU_SET (cpu_id : Z) : gset Z := if (0 <=? cpu_id) && (cpu_id <? 1024) then {[cpu_id]} else ∅.

(** [bindThreadToCPU] by the thread [self]. *)
Definition bindThreadToCPU (self cpu_id : Z) (s : Sys) : bool * Sys :=
  let cpuset := CPU_SET cpu_id in
  if setaffinity L self cpuset =? 0 then (true, pin self cpuset s) else (false, s).

Definition bindThread (t : option Z) (cpu_id : Z) (s : Sys) : outcome bool * Sys :=
  match t with
  | None => (Throw "Thread is not joinable - cannot set affinity", s)
  | Some t =>
      let cpuset := CPU_SET cpu_id in
      let rc := setaffinity L t cpuset in
      if rc =? 0 then (Ret true, pin t cpuset s) else (Ret false, s)
  end.

(** The loop that stops at the first bit. *)
Fixpoint first_set (m : bitmask L) (n : nat) (i : Z) : Z :=
  match n with
  | O => -1
  | S n' => if isbitset L m i then i else first_set m n' (i + 1)
  end.

Definition bindThreadToNUMANode (self numa_node : Z) (s : Sys) : Z * Sys :=
  if negb (node_known numa_node) then (-1, s) else
  match node_to_cpus L numa_node with
  | None => (-1, s)
  | Some cpumask =>
      let s := alloc_mask s in
      let cpu_id := first_set cpumask (Z.to_nat (mask_bits cpumask)) 0 in
      let s := free_mask s in
      if cpu_id =? -1 then (-1, s)
      else let '(bound, s) := bindThreadToCPU self cpu_id s in
           if bound : bool then (cpu_id, s) else (-1, s)
  end.

(** The head of every processor's [process]: once per thread, if the processor has a node.  [bound] is the
    thread's flag, which is set whether or not the thread could be bound. *)
Definition bind_once (self numa_node : Z) (bound : bool) (s : Sys) : bool * Sys :=
  if negb bound && (0 <=? numa_node) then (true, (bindThreadToNUMANode self numa_node s).2) else (bound, s).

(** A later node has no effect on a thread that was given one. *)
Lemma bind_once_sticks self n1 n2 bound s : 0 <= n1 ->
  bind_once self n2 (bind_once self n1 bound s).1 (bind_once self n1 bound s).2 = bind_once self n1 bound s.
Proof. intros Hn. unfold bind_once. rewrite (proj2 (Z.leb_le _ _) Hn). by destruct bound. Qed.

(** ** Memory *)

Definition allocateOnNode (size numa_node : Z) (s : Sys) : option Z * Sys :=
  if node_known numa_node then
    match alloc_onnode L size numa_node with
    | Some ptr => (Some ptr, mkSys (masks s) (affinity s) (<[ptr := size]> (regions s)))
    | None => (None, s)
    end
  else (None, s).

Definition freeNumaMemory (ptr : option Z) (size : Z) (s : Sys) : Sys :=
  match ptr with
  | Some p => if negb (numa_available L =? -1)
              then mkSys (masks s) (affinity s) (delete p (regions s)) else s
  | None => s
  end.

Definition getMemoryNode (ptr : Z) : Z :=
  if negb (numa_available L =? -1) then
    match get_mempolicy L ptr with Some node => node | None => -1 end
  else -1.

(** [numa_bitmask_setbit] ignores a number outside the mask. *)
Definition setMemoryPolicy (ptr size numa_node : Z) (s : Sys) : bool * Sys :=
  if numa_available L =? -1 then (false, s) else
  if negb (nodeset_alloc L getNumNumaNodes) then (false, s) else
  let s := alloc_mask s in
  let nodeset : gset Z := if (0 <=? numa_node) && (numa_node <? getNumNumaNodes) then {[numa_node]} else ∅ in
  let ret := mbind L ptr size nodeset in
  let s := free_mask s in
  (ret =? 0, s).

(** ** The report *)

(** The loop of [bitmaskToString]. *)
Fixpoint mask_string (m : bitmask L) (n : nat) (i : Z) (first : bool) (result : string) : string :=
  match n with
  | O => result
  | S n' =>
      if isbitset L m i then
        let result := (if first then result else result +:+ ",")%string in
        mask_string m n' (i + 1) false (result +:+ pretty i)
      else mask_string m n' (i + 1) first result
  end.

Definition bitmaskToString (m : bitmask L) : string :=
  mask_string m (Z.to_nat (mask_bits m)) 0 true "".

(** A line of the report: the node, its megabytes and its CPUs. *)
Fixpoint topology_lines (n : nat) (node : Z) (s : Sys) : list (Z * Z * string) * Sys :=
  match n with
  | O => ([], s)
  | S n' =>
      match node_to_cpus L node with
      | Some cpumask =>
          let s := alloc_mask s in
          let size := node_size L node in
          let line := (node, Z.quot size (1024 * 1024), bitmaskToString cpumask) in
          let s := free_mask s in
          let '(lines, s) := topology_lines n' (node + 1) s in (line :: lines, s)
      | None => topology_lines n' (node + 1) s
      end
  end.

Definition printTopology (s : Sys) : list (Z * Z * string) * Sys :=
  if numa_available L =? -1 then ([], s)
  else topology_lines (Z.to_nat getNumNumaNodes) 0 s.

(** ** Properties *)

Lemma masks_balanced s : free_mask (alloc_mask s) = s.
Proof. destruct s as [n a r]. unfold alloc_mask, free_mask. cbn. f_equal. lia. Qed.

Lemma collect_spec m n i :
  collect m n i = List.filter (isbitset L m) (map (fun k => i + Z.of_nat k) (seq 0 n)).
Proof.
  revert i; induction n as [|n IH]; intros i; [done|]. cbn [collect seq map List.filter].
  rewrite Z.add_0_r, IH, <- seq_shift, map_map.
  assert (Hext : map (fun k => i + 1 + Z.of_nat k) (seq 0 n) = map (fun k => i + Z.of_nat (S k)) (seq 0 n)).
  { apply map_ext. intros k. lia. }
  rewrite Hext. by destruct (isbitset L m i).
Qed.

Lemma first_set_spec m n i : 0 <= i -> first_set m n i = default (-1) (head (collect m n i)).
Proof.
  revert i; induction n as [|n IH]; intros i Hi; [done|]. cbn [first_set collect].
  destruct (isbitset L m i); [done|]. apply IH. lia.
Qed.

Lemma collect_nonneg m n i c : 0 <= i -> c ∈ collect m n i -> 0 <= c.
Proof.
  revert i; induction n as [|n IH]; intros i Hi; cbn [collect]; [set_solver|].
  destruct (isbitset L m i); [intros [->|Hc]%elem_of_cons; [done|]|intros Hc]; eapply IH; [|done| |done]; lia.
Qed.

(** The CPUs of a node as the library reports them: the set bits of its mask, in ascending order. *)
Definition cpus_of (numa_node : Z) : list Z :=
  if node_known numa_node then
    match node_to_cpus L numa_node with
    | Some m => List.filter (isbitset L m) (map Z.of_nat (seq 0 (Z.to_nat (mask_bits m))))
    | None => []
    end
  else [].

Lemma getCPUsOnNode_spec numa_node s : getCPUsOnNode numa_node s = (cpus_of numa_node, s).
Proof.
  unfold getCPUsOnNode, cpus_of. destruct (node_known numa_node); [|done].
  destruct (node_to_cpus L numa_node) as [m|]; [|done]. by rewrite masks_balanced, collect_spec.
Qed.

(** The weight the library reports of a mask is the number of its set bits. *)
Definition weight_counts : Prop :=
  forall m, weight L m = zlen (List.filter (isbitset L m) (map Z.of_nat (seq 0 (Z.to_nat (mask_bits m))))).

Lemma count_is_length numa_node s :
  weight_counts -> getCPUCountOnNode numa_node s = (zlen (cpus_of numa_node), s).
Proof.
  intros Hw. unfold getCPUCountOnNode, cpus_of. destruct (node_known numa_node); [|done].
  destruct (node_to_cpus L numa_node) as [m|]; [|done]. by rewrite masks_balanced, Hw.
Qed.

(** [bindThreadToNUMANode] pins the calling thread to the first CPU of the node, and to nothing
    else, or answers -1 and changes nothing: -1 exactly when the node is not known, has no CPU, or the
    kernel refuses; no mask is left allocated and no other thread is touched.  Two threads bound to one
    node therefore share one CPU. *)
Theorem bind_to_node_first_cpu self numa_node s :
  let '(r, s') := bindThreadToNUMANode self numa_node s in
  match cpus_of numa_node with
  | cpu :: _ =>
      if setaffinity L self (CPU_SET cpu) =? 0
      then r = cpu /\ s' = pin self (CPU_SET cpu) s
      else r = -1 /\ s' = s
  | [] => r = -1 /\ s' = s
  end.
Proof.
  unfold bindThreadToNUMANode, cpus_of. destruct (node_known numa_node); [|done]. cbn [negb].
  destruct (node_to_cpus L numa_node) as [m|]; [|done].
  pose proof (first_set_spec m (Z.to_nat (mask_bits m)) 0 ltac:(lia)) as Hfs.
  pose proof (fun c => collect_nonneg m (Z.to_nat (mask_bits m)) 0 c ltac:(lia)) as Hnn.
  rewrite collect_spec in Hfs, Hnn. rewrite masks_balanced, Hfs.
  change (map (fun k => 0 + Z.of_nat k) _) with (map Z.of_nat (seq 0 (Z.to_nat (mask_bits m)))) in Hnn |- *.
  destruct (List.filter _ _) as [|cpu cpus]; [done|]. cbn [head from_option id].
  specialize (Hnn cpu ltac:(by left)). rewrite (proj2 (Z.eqb_neq cpu (-1))) by lia.
  unfold bindThreadToCPU. by destruct (setaffinity L self (CPU_SET cpu) =? 0).
Qed.

(** The string of a mask is the list of its CPUs, in order, with commas between them. *)
Fixpoint commas (cpus : list Z) : string :=
  match cpus with
  | [] => ""
  | c :: cpus' => (match cpus' with [] => pretty c | _ => pretty c +:+ "," +:+ commas cpus' end)%string
  end.

Lemma string_app_assoc (a b c : string) : (a +:+ b) +:+ c = a +:+ (b +:+ c).
Proof. induction a as [|x a IH]; [done|]. exact (f_equal (String.String x) IH). Qed.
Lemma string_app_nil_r (a : string) : (a +:+ "")%string = a.
Proof. induction a as [|x a IH]; [done|]. exact (f_equal (String.String x) IH). Qed.

Lemma mask_string_later m n i result :
  mask_string m n i false result =
  (result +:+ match collect m n i with [] => "" | cpus => "," +:+ commas cpus end)%string.
Proof.
  revert i result; induction n as [|n IH]; intros i result; cbn [mask_string collect]; [by rewrite string_app_nil_r|].
  destruct (isbitset L m i); [|apply IH]. rewrite IH, !string_app_assoc. cbn [commas].
  destruct (collect m n (i + 1)); [by rewrite string_app_nil_r|done].
Qed.

Lemma bitmaskToString_spec m :
  bitmaskToString m = commas (List.filter (isbitset L m) (map Z.of_nat (seq 0 (Z.to_nat (mask_bits m))))).
Proof.
  unfold bitmaskToString.
  change (map Z.of_nat (seq 0 (Z.to_nat (mask_bits m)))) with (map (fun k => 0 + Z.of_nat k) (seq 0 (Z.to_nat (mask_bits m)))).
  rewrite <- collect_spec.
  generalize 0. induction (Z.to_nat (mask_bits m)) as [|n IH]; intros i; [done|]. cbn [mask_string collect].
  destruct (isbitset L m i); [|apply IH]. rewrite mask_string_later. cbn [commas].
  change ("" +:+ pretty i)%string with (pretty i).
  destruct (collect m n (i + 1)); [by rewrite string_app_nil_r|done].
Qed.

(** The report says of every node it lists exactly the CPUs [getCPUsOnNode] returns, and leaves no mask. *)
Lemma topology_lines_spec n node s :
  0 <= node -> node + Z.of_nat n <= getNumNumaNodes -> numa_available L <> -1 ->
  (topology_lines n node s).2 = s /\
  Forall (fun '(k, _, cpus) => cpus = commas (cpus_of k)) (topology_lines n node s).1.
Proof.
  intros H0 Hn Ha. revert node s H0 Hn. induction n as [|n IH]; intros node s H0 Hn; [done|]. cbn [topology_lines].
  destruct (node_to_cpus L node) as [m|] eqn:Em; [|apply IH; lia].
  rewrite masks_balanced. destruct (IH (node + 1) s ltac:(lia) ltac:(lia)) as [H1 H2].
  destruct (topology_lines n (node + 1) s) as [lines s']. cbn [fst snd] in *. split; [done|]. constructor; [|done].
  unfold cpus_of, node_known. rewrite Em, (proj2 (Z.eqb_neq _ _) Ha), (proj2 (Z.leb_le _ _) H0).
  rewrite (proj2 (Z.ltb_lt _ _)) by lia. cbn [negb andb]. by rewrite bitmaskToString_spec.
Qed.

Lemma printTopology_spec s :
  (printTopology s).2 = s /\ Forall (fun '(k, _, cpus) => cpus = commas (cpus_of k)) (printTopology s).1.
Proof.
  unfold printTopology. destruct (Z.eqb_spec (numa_available L) (-1)) as [|Ha]; [done|].
  destruct (Z.le_gt_cases 0 getNumNumaNodes) as [Hp|Hp].
  - apply topology_lines_spec; [done|lia|done].
  - replace (Z.to_nat getNumNumaNodes) with 0%nat by lia. done.
Qed.

(** Every region given out is one that was asked of the library, and freeing it gives it back. *)
Lemma allocate_then_free size numa_node s ptr s1 :
  allocateOnNode size numa_node s = (Some ptr, s1) -> regions s !! ptr = None ->
  regions s1 !! ptr = Some size /\ freeNumaMemory (Some ptr) size s1 = s.
Proof.
  unfold allocateOnNode, freeNumaMemory. destruct (node_known numa_node) eqn:Hk; [|done].
  destruct (alloc_onnode L size numa_node) as [p|]; [|done]. intros [= <- <-] Hn. cbn.
  split; [apply lookup_insert_eq|]. unfold node_known in Hk. destruct (numa_available L =? -1); [done|].
  cbn. rewrite delete_insert_id by done. by destruct s.
Qed.

End NUMABinding.
End NUMABinding.

(** ** A machine with two nodes of four CPUs *)

Definition two_nodes : Libnuma :=
  mkLibnuma (list Z) 0 1 (fun node => Some (if node =? 0 then [0; 1; 2; 3] else [4; 5; 6; 7])) (fun _ => 128)
    (fun m i => bool_decide (i ∈ m)) zlen (fun _ => 8589934592) (fun _ cpus => if bool_decide (cpus = ∅) then 22 else 0)
    (fun _ _ => None) (fun _ => None) (fun _ => true) (fun _ _ _ => 0).

Definition sys0 : NUMABinding.Sys := NUMABinding.mkSys 0 ∅ ∅.

(** Two threads bound to node 1 are both pinned to its first CPU. *)
Example same_node_same_cpu :
  let '(r1, s1) := NUMABinding.bindThreadToNUMANode two_nodes 10 1 sys0 in
  let '(r2, s2) := NUMABinding.bindThreadToNUMANode two_nodes 11 1 s1 in
  r1 = 4 /\ r2 = 4 /\ NUMABinding.affinity s2 = {[10 := {[4]}; 11 := {[4]}]}.
Proof. vm_compute. done. Qed.

Example topology_two_nodes :
  (NUMABinding.printTopology two_nodes sys0).1 = [(0, 8192, "0,1,2,3"%string); (1, 8192, "4,5,6,7"%string)].
Proof. vm_compute. reflexivity. Qed.
