(* ===== verification/Descriptors.v ===== *)
(** * The descriptors of the process

    Module [Descriptors]: the table of what is open.  A call that opens a descriptor is
    given the kernel's answer, a number not in use or a refusal; [owns] says which part
    of the table a component added.  [run]: the result of a call that may throw - a thread
    cannot always be created - or end the process (assigning a thread to a joinable handle does). *)

From S2P Require Import Prelude.

Module Descriptors.

Inductive kind := Listener | Datagram | Epoll | Client | Other.

Abbreviation table := (gmap Z kind).

(** What the kernel answers to [socket], [accept] or [epoll_create1]. *)
Abbreviation answer := (option Z).

Definition unused (t : table) (a : answer) : Prop :=
  match a with Some fd => 0 <= fd /\ t !! fd = None | None => True end.

Definition opened (k : kind) (a : answer) (t : table) : Z * table :=
  match a with Some fd => (fd, <[fd := k]> t) | None => (-1, t) end.

(** [close]: an error, and no effect, on a number not in use. *)
Definition close (fd : Z) (t : table) : table := delete fd t.

(** The helper of the TCP and UDP servers. *)
Definition closeSocket (fd : Z) (t : table) : table := if fd =? -1 then t else close fd t.

Definition close_all (fds : list Z) (t : table) : table := fold_left (fun t fd => close fd t) fds t.

Lemma close_opened k fd t : t !! fd = None -> close fd (<[fd := k]> t) = t.
Proof. intros Hn. unfold close. by apply delete_insert_id. Qed.

Lemma close_all_app l1 l2 t : close_all (l1 ++ l2) t = close_all l2 (close_all l1 t).
Proof. apply fold_left_app. Qed.

Lemma close_all_lookup fds t fd :
  close_all fds t !! fd = if decide (fd ∈ fds) then None else t !! fd.
Proof.
  revert t; induction fds as [|x fds IH]; intros t; [done|]. cbn. rewrite IH. unfold close.
  destruct (decide (fd = x)) as [->|Hne].
  - rewrite lookup_delete_eq. rewrite (decide_True (P := x ∈ x :: fds)) by left. by case_decide.
  - rewrite lookup_delete_ne by done. repeat case_decide; set_solver.
Qed.

(** What is owned on top of what was there before. *)
Definition owns (base : table) (owned : list (Z * kind)) (t : table) : Prop :=
  NoDup (owned.*1) /\ (forall fd k, (fd, k) ∈ owned -> 0 <= fd /\ base !! fd = None) /\ t = list_to_map owned ∪ base.

Lemma owns_nil base : owns base [] base.
Proof. split; [constructor|]. split; [set_solver|]. symmetry. apply (left_id_L ∅ (∪)). Qed.

Lemma owns_fresh base owned t a :
  owns base owned t -> unused t (Some a) -> base !! a = None /\ a ∉ owned.*1.
Proof.
  intros (Hnd & Hb & ->) [_ Hn]. apply lookup_union_None in Hn as [Hn Hbase]. split; [done|].
  by apply not_elem_of_list_to_map.
Qed.

Lemma owns_open base owned t k fd :
  owns base owned t -> unused t (Some fd) -> owns base ((fd, k) :: owned) (<[fd := k]> t).
Proof.
  intros Ho Hu. destruct (owns_fresh _ _ _ _ Ho Hu) as [Hb Hn]. destruct Ho as (Hnd & Hown & ->). split_and!.
  - cbn. by constructor.
  - intros f j [[= -> ->]|Hin]%elem_of_cons; [split; [apply Hu|done]|by eapply Hown].
  - cbn. by rewrite insert_union_l.
Qed.

Lemma owns_close base l1 l2 t fd k :
  owns base (l1 ++ (fd, k) :: l2) t -> owns base (l1 ++ l2) (close fd t).
Proof.
  intros (Hnd & Hown & ->). unfold close.
  assert (Hp : l1 ++ (fd, k) :: l2 ≡ₚ (fd, k) :: l1 ++ l2) by (symmetry; apply Permutation_middle).
  assert (Hnd' : NoDup (((fd, k) :: l1 ++ l2).*1)) by (by rewrite <- Hp).
  assert (Hbase : base !! fd = None) by (eapply Hown; rewrite Hp; left).
  cbn in Hnd'. apply NoDup_cons in Hnd' as [Hfd Hnd']. split_and!; [done| |].
  - intros f j Hin. apply (Hown f j). rewrite Hp. by right.
  - rewrite (list_to_map_proper _ _ Hnd Hp). cbn. rewrite delete_union.
    rewrite delete_insert_id by (by apply not_elem_of_list_to_map). by rewrite delete_id.
Qed.

Lemma owns_close_all base owned t :
  owns base owned t -> close_all (owned.*1) t = base.
Proof.
  revert t; induction owned as [|[fd k] owned IH]; intros t Ho.
  - destruct Ho as (_ & _ & ->). exact (left_id_L ∅ (∪) base).
  - cbn. apply IH. by apply (owns_close base [] owned t fd k).
Qed.

(** Another part of the process opens a descriptor, and closes it. *)
Lemma owns_extend base owned t k fd :
  owns base owned t -> t !! fd = None -> owns (<[fd := k]> base) owned (<[fd := k]> t).
Proof.
  intros (Hnd & Hown & ->) Hn. apply lookup_union_None in Hn as [Hn Hb]. split_and!; [done| |].
  - intros f j Hin. destruct (Hown f j Hin) as [H0 Hf]. split; [done|]. rewrite lookup_insert_ne; [done|].
    intros ->. apply not_elem_of_list_to_map in Hn. apply Hn. apply list_elem_of_fmap. by exists (f, j).
  - by rewrite insert_union_r.
Qed.

Lemma owns_shrink base owned t k fd :
  owns (<[fd := k]> base) owned t -> base !! fd = None -> owns base owned (close fd t).
Proof.
  intros (Hnd & Hown & ->) Hn.
  assert (Hfd : fd ∉ owned.*1).
  { intros ([f j] & -> & Hin)%list_elem_of_fmap. destruct (Hown _ _ Hin) as [_ Hb]. cbn in Hb.
    by rewrite lookup_insert_eq in Hb. }
  split_and!; [done| |].
  - intros f j Hin. destruct (Hown f j Hin) as [H0 Hb]. split; [done|]. rewrite lookup_insert_ne in Hb; [done|].
    intros ->. apply Hfd. apply list_elem_of_fmap. by exists (f, j).
  - unfold close. rewrite delete_union, delete_insert_id by done.
    by rewrite delete_id by (by apply not_elem_of_list_to_map).
Qed.

Lemma owns_perm base l l' t : l ≡ₚ l' -> owns base l t -> owns base l' t.
Proof.
  intros Hp (Hnd & Hown & ->). split_and!; [by rewrite <- Hp|intros fd k Hin; apply (Hown fd k); by rewrite Hp|].
  by rewrite (list_to_map_proper _ _ Hnd Hp).
Qed.

End Descriptors.

(** The result of a call that may throw or end the process; an exception leaves the state behind it. *)
Inductive run (A : Type) := Done (a : A) | Raised (what : string) (a : A) | Terminated.
Arguments Done {A} _.
Arguments Raised {A} _ _.
Arguments Terminated {A}.

Definition run_map {A B} (f : A -> B) (r : run A) : run B :=
  match r with Done a => Done (f a) | Raised what a => Raised what (f a) | Terminated => Terminated end.

(** One call after another. *)
Definition and_then {A} (r : run A) (k : A -> run A) : run A := match r with Done a => k a | _ => r end.

(** The state a call leaves, whether it returns or throws. *)
Definition state_of {A} (r : run A) : option A := match r with Done a | Raised _ a => Some a | Terminated => None end.

(** What the kernel answers to the constructor of [std::thread]: nothing, or what it throws. *)
Abbreviation spawn := (option string).

(** [handle = std::thread(...)]: the thread is created before the handle is looked at. *)
Definition assign_thread {A} (thr : spawn) (joinable : bool) (started before : A) : run A :=
  match thr with
  | Some what => Raised what before
  | None => if joinable then Terminated else Done started
  end.

Lemma assign_free {A} thr (a b : A) :
  assign_thread thr false a b = match thr with Some what => Raised what b | None => Done a end.
Proof. by destruct thr. Qed.

Lemma state_of_and_then {A} (r : run A) k a :
  state_of (and_then r k) = Some a ->
  (exists what, r = Raised what a) \/ exists b, r = Done b /\ state_of (k b) = Some a.
Proof. destruct r as [b|what b|]; cbn; [by right; exists b|intros [= <-]; left; by exists what|done]. Qed.

Lemma state_of_map {A B} (f : A -> B) (r : run A) b :
  state_of (run_map f r) = Some b -> exists a, state_of r = Some a /\ b = f a.
Proof. destruct r as [a|what a|]; cbn; [intros [= <-]; by exists a|intros [= <-]; by exists a|done]. Qed.

Lemma and_then_Done {A} (r : run A) k a : and_then r k = Done a -> exists b, r = Done b /\ k b = Done a.
Proof. destruct r as [b| |]; cbn; [by exists b|done|done]. Qed.

Lemma run_map_Done {A B} (f : A -> B) (r : run A) b : run_map f r = Done b -> exists a, r = Done a /\ b = f a.
Proof. destruct r as [a| |]; cbn; [intros [= <-]; by exists a|done|done]. Qed.
