(* ===== verification/TcpLifecycle.v ===== *)
(** * Starting and stopping the TCP server: [start] and [stop] of [src/core/ingest/tcp.cpp]

    Module [TcpLifecycle]: the listening socket, the accept thread, the client threads
    and the descriptors they hold.  [stop] is the state after its joins; whether the
    joins return is in [Joining.v]. *)

From S2P Require Import Prelude TcpServer Descriptors.

Module TcpLifecycle.
Import Descriptors.

Record Server := mkServer {
  isRunning : bool;
  server_fd : Z;
  acceptThread : bool;                      (* joinable *)
  accepted : TcpServer.AcceptState;         (* the client threads *)
  fds : table
}.

(** The constructor, in a process with the descriptors [t]. *)
Definition new_server (t : table) : Server := mkServer false (-1) false (TcpServer.mkAcceptState [] 0 0) t.

Definition start (sock : answer) (bind_ok listen_ok : bool) (thr : spawn) (s : Server) : run Server :=
  let '(fd, t) := opened Listener sock (fds s) in
  if fd <? 0 then Done (mkServer true fd (acceptThread s) (accepted s) t) else
  if negb bind_ok then Done (mkServer true (-1) (acceptThread s) (accepted s) (closeSocket fd t)) else
  if negb listen_ok then Done (mkServer true (-1) (acceptThread s) (accepted s) (closeSocket fd t)) else
  assign_thread thr (acceptThread s)
    (mkServer true fd true
       (TcpServer.mkAcceptState (TcpServer.clientThreads_ (accepted s))
          (TcpServer.totalConnectionsAccepted_ (accepted s)) 0) t)
    (mkServer true fd (acceptThread s) (accepted s) t).

(** Whether [start] gets as far as its thread. *)
Definition bound (sock : answer) (bind_ok listen_ok : bool) : bool :=
  match sock with Some fd => negb (fd <? 0) && bind_ok && listen_ok | None => false end.

(** A stopped server's [start] returns unless it needs a thread and there is none. *)
Lemma tcp_start_returns a b l thr s : acceptThread s = false ->
  (exists s', start a b l thr s = Done s') <-> (bound a b l = true -> thr = None).
Proof.
  intros Ha. unfold start, bound, opened. rewrite Ha. destruct a as [fd|]; [|by split; [|by eexists]].
  destruct (fd <? 0); [by split; [|by eexists]|]. destruct b; [|by split; [|by eexists]].
  destruct l; [|by split; [|by eexists]]. rewrite assign_free. destruct thr; split; try done; [by intros [? ?]| |by eexists].
  by intros Hb; specialize (Hb eq_refl).
Qed.

(** The descriptors of the handlers that have not finished. *)
Definition clients (s : Server) : list Z := TcpServer.running_fds (TcpServer.clientThreads_ (accepted s)).

(** [stop], once its joins have returned: every handler closes its client's socket as it ends. *)
Definition stop (s : Server) : Server :=
  let t := if server_fd s =? -1 then fds s else closeSocket (server_fd s) (fds s) in
  let t := close_all (clients s) t in
  mkServer false (-1) false
    (TcpServer.mkAcceptState [] (TcpServer.totalConnectionsAccepted_ (accepted s)) 0) t.

(** The accept loop and the handlers: a client is accepted, a handler closes its socket and finishes. *)
Definition on_event (e : TcpServer.accept_event) (s : Server) : Server :=
  let t := match e with
           | TcpServer.AcceptFailed => fds s
           | TcpServer.Accepted fd => <[fd := Client]> (fds s)
           | TcpServer.ThreadDone fd => closeSocket fd (fds s)
           end in
  mkServer (isRunning s) (server_fd s) (acceptThread s) (TcpServer.acceptConnections_step (accepted s) e) t.

Definition possible (e : TcpServer.accept_event) (s : Server) : Prop :=
  match e with
  | TcpServer.AcceptFailed => acceptThread s = true
  | TcpServer.Accepted fd => acceptThread s = true /\ unused (fds s) (Some fd)
  | TcpServer.ThreadDone fd => fd ∈ clients s
  end.

(** A client is accepted: the accept thread creates the client's.  Where it cannot, the exception leaves
    the accept thread, and that ends the process. *)
Definition accept_client (fd : Z) (thr : spawn) (s : Server) : run Server :=
  match thr with
  | None => Done (on_event (TcpServer.Accepted fd) s)
  | Some _ => Terminated
  end.

(** What can happen to a server that is started only when it is stopped and whose clients find a thread. *)
Inductive history (base : table) : Server -> Prop :=
| created : history base (new_server base)
| started s sock b l thr s' : history base s -> server_fd s = -1 -> unused (fds s) sock ->
    state_of (start sock b l thr s) = Some s' -> history base s'
| stopped s : history base s -> history base (stop s)
| event s e : history base s -> possible e s -> history base (on_event e s).

Definition owned (s : Server) : list (Z * kind) :=
  (if server_fd s =? -1 then [] else [(server_fd s, Listener)]) ++ map (fun fd => (fd, Client)) (clients s).

Record inv (base : table) (s : Server) : Prop := {
  i_owns : owns base (owned s) (fds s);
  i_thread : acceptThread s = true -> server_fd s <> -1;
  i_clients : acceptThread s = false -> clients s = []
}.

Lemma clients_keys (l : list Z) : (map (fun fd => (fd, Client)) l : list (Z * kind)).*1 = l.
Proof. induction l as [|x l IH]; [done|]. cbn. by rewrite IH. Qed.

(** What an event does to the list of running handlers. *)
Lemma clients_event e s :
  clients (on_event e s) =
  match e with
  | TcpServer.AcceptFailed => clients s
  | TcpServer.Accepted fd => clients s ++ [fd]
  | TcpServer.ThreadDone fd => List.filter (fun x => negb (x =? fd)) (clients s)
  end.
Proof.
  unfold clients. destruct e as [|fd|fd]; [done| |apply TcpServer.running_fds_done].
  cbn [on_event accepted TcpServer.acceptConnections_step].
  assert (Happ : TcpServer.running_fds (TcpServer.clientThreads_ (accepted s) ++ [TcpServer.mkClientThread fd false])
                 = TcpServer.running_fds (TcpServer.clientThreads_ (accepted s)) ++ [fd])
    by (unfold TcpServer.running_fds; by rewrite List.filter_app, map_app).
  destruct (_ <=? _); cbn [TcpServer.clientThreads_]; by rewrite ?TcpServer.running_fds_cleanup.
Qed.

Lemma filter_out_one (l1 l2 : list Z) fd :
  NoDup (l1 ++ fd :: l2) -> List.filter (fun x => negb (x =? fd)) (l1 ++ fd :: l2) = l1 ++ l2.
Proof.
  intros Hnd. rewrite List.filter_app. cbn [List.filter]. rewrite Z.eqb_refl. cbn [negb].
  assert (Hk : forall l, fd ∉ l -> List.filter (fun x => negb (x =? fd)) l = l).
  { induction l as [|x l IH]; intros Hn; [done|]. apply not_elem_of_cons in Hn as [Hx Hn]. cbn.
    rewrite (proj2 (Z.eqb_neq x fd)) by congruence. cbn. by rewrite IH. }
  apply NoDup_app in Hnd as (_ & Hd & Hnd). apply NoDup_cons in Hnd as [Hn _].
  rewrite !Hk; [done|done|]. intros Hin. apply (Hd fd Hin). left.
Qed.

Lemma stop_fds base s : inv base s -> fds (stop s) = base.
Proof.
  intros [Ho _ _]. pose proof (owns_close_all _ _ _ Ho) as Hb. unfold owned in Hb. unfold stop. cbn [fds].
  destruct (server_fd s =? -1) eqn:E; rewrite fmap_app, clients_keys in Hb; cbn in Hb; [done|].
  unfold closeSocket. by rewrite E.
Qed.

Lemma stopped_no_thread base s : inv base s -> server_fd s = -1 -> acceptThread s = false.
Proof. intros [_ Ht _] Hfd. destruct (acceptThread s); [by destruct (Ht eq_refl)|done]. Qed.

Lemma tcp_start_inv base sock b l thr s s' :
  inv base s -> server_fd s = -1 -> unused (fds s) sock -> state_of (start sock b l thr s) = Some s' -> inv base s'.
Proof.
  intros Hi Hfd Hu. pose proof (stopped_no_thread _ _ Hi Hfd) as Ha. destruct Hi as [Ho Ht Hc].
  unfold start, opened. specialize (Hc Ha).
  assert (Hown : owned s = []) by (unfold owned; by rewrite Hfd, Hc).
  assert (Hnil : forall s1, server_fd s1 = -1 -> clients s1 = [] -> acceptThread s1 = false -> fds s1 = fds s -> inv base s1).
  { intros s1 H1 H2 H3 H4. rewrite Hown in Ho. split; [|by rewrite H3|done].
    unfold owned. by rewrite H1, H2, H4. }
  rewrite Ha. destruct sock as [fd|]; [|intros [= <-]; by apply Hnil].
  destruct Hu as [Hpos Hn]. rewrite (proj2 (Z.ltb_ge fd 0)) by done.
  assert (Hback : closeSocket fd (<[fd := Listener]> (fds s)) = fds s).
  { unfold closeSocket. rewrite (proj2 (Z.eqb_neq fd (-1))) by lia. by apply close_opened. }
  destruct b; cbn [negb]; [|intros [= <-]; by apply Hnil].
  destruct l; cbn [negb]; [|intros [= <-]; by apply Hnil].
  assert (Hup : forall b1 c, TcpServer.clientThreads_ c = TcpServer.clientThreads_ (accepted s) ->
    inv base (mkServer true fd b1 c (<[fd := Listener]> (fds s)))).
  { intros b1 c Hcl. assert (Hcn : clients (mkServer true fd b1 c (<[fd := Listener]> (fds s))) = []).
    { unfold clients. cbn [accepted]. by rewrite Hcl. }
    split; [|cbn; lia|done]. unfold owned. cbn [server_fd]. rewrite Hcn, (proj2 (Z.eqb_neq fd (-1))) by lia.
    cbn [map app fds]. rewrite Hown in Ho. by apply owns_open. }
  rewrite assign_free. destruct thr; intros [= <-]; by apply Hup.
Qed.

Lemma event_inv base e s : inv base s -> possible e s -> inv base (on_event e s).
Proof.
  intros [Ho Ht Hc] Hp. destruct e as [|fd|fd]; cbn [possible] in Hp.
  - split; [|done|]; unfold owned in *; rewrite ?(clients_event TcpServer.AcceptFailed); done.
  - destruct Hp as [Ha Hu]. split; [|done|].
    + unfold owned in *. rewrite (clients_event (TcpServer.Accepted fd)), map_app. cbn [map server_fd on_event fds].
      eapply owns_perm; [|eapply owns_open; [exact Ho|exact Hu]].
      rewrite app_assoc. symmetry. apply Permutation_app_comm.
    + cbn. by rewrite Ha.
  - apply list_elem_of_split in Hp as (l1 & l2 & Hl). split; [|done|].
    + unfold owned in *. rewrite (clients_event (TcpServer.ThreadDone fd)). cbn [server_fd on_event fds].
      assert (Hfd : 0 <= fd).
      { destruct Ho as (_ & Hown & _). apply (Hown fd Client). rewrite Hl, map_app. cbn [map]. set_solver. }
      assert (Hnd : NoDup (l1 ++ fd :: l2)).
      { destruct Ho as (Hnd & _). rewrite fmap_app, clients_keys, Hl in Hnd. by apply NoDup_app in Hnd as (_ & _ & Hnd). }
      rewrite Hl, filter_out_one by done. rewrite Hl, map_app, app_assoc in Ho. rewrite map_app, app_assoc.
      unfold closeSocket. rewrite (proj2 (Z.eqb_neq fd (-1))) by lia.
      by apply (owns_close base _ _ _ fd Client).
    + cbn [acceptThread on_event]. intros Ha. specialize (Hc Ha). rewrite Hc in Hl. by destruct l1.
Qed.

Lemma tcp_history_inv base s : history base s -> inv base s.
Proof.
  induction 1 as [|s sock b l thr s' Hh IH Ha Hu Hs|s Hh IH|s e Hh IH Hp].
  - split; [apply owns_nil|done|done].
  - by eapply tcp_start_inv.
  - split; [|done|done]. rewrite (stop_fds base s IH). apply owns_nil.
  - by apply event_inv.
Qed.

(** Whatever the kernel answers, in every history of a server that is started only when stopped -
    failed starts, threads that cannot be created, accepted clients, handlers that finish - no start
    ends the process, no descriptor
    of another part of the process is closed, and [stop] leaves the process with exactly the descriptors
    it had before the server was created, and can be called again. *)
Theorem tcp_gives_descriptors_back base s :
  history base s ->
  (server_fd s = -1 -> forall sock b l thr, start sock b l thr s <> Terminated) /\
  (forall fd k, base !! fd = Some k -> fds s !! fd = Some k) /\
  fds (stop s) = base /\ stop (stop s) = stop s.
Proof.
  intros Hh. pose proof (tcp_history_inv base s Hh) as Hi. split_and!.
  - intros Ha%(stopped_no_thread _ _ Hi) sock b l thr. unfold start. destruct (opened Listener sock (fds s)) as [fd t].
    rewrite Ha, assign_free. by repeat case_match.
  - intros fd k Hk. destruct Hi as [(_ & Hown & ->) _ _]. apply lookup_union_Some_raw. right. split; [|done].
    apply not_elem_of_list_to_map. intros ([f j] & -> & Hin)%list_elem_of_fmap. cbn in Hk.
    destruct (Hown _ _ Hin) as [_ Hn]. congruence.
  - by apply stop_fds.
  - unfold stop. cbn. done.
Qed.

End TcpLifecycle.

(** ** A concrete run *)

Module LifecycleRun.
Import Descriptors.

(** The three standard descriptors. *)
Definition stdio : table := {[0 := Other; 1 := Other; 2 := Other]}.

Definition tcp_up : TcpLifecycle.Server :=
  match and_then (TcpLifecycle.start (Some 3) true true None (TcpLifecycle.new_server stdio))
          (TcpLifecycle.accept_client 4 None) with
  | Done s => s
  | _ => TcpLifecycle.new_server stdio
  end.

Lemma tcp_up_history : TcpLifecycle.history stdio tcp_up.
Proof.
  unfold tcp_up. destruct (TcpLifecycle.start (Some 3) true true None (TcpLifecycle.new_server stdio)) as [s| |] eqn:E;
    [|discriminate E..].
  injection E as <-. cbn [and_then TcpLifecycle.accept_client]. apply TcpLifecycle.event.
  - eapply (TcpLifecycle.started _ _ (Some 3) true true None); [apply TcpLifecycle.created|reflexivity| |reflexivity].
    split; [lia|reflexivity].
  - split; [reflexivity|]. split; [lia|reflexivity].
Qed.

End LifecycleRun.

Lemma tcp_gives_descriptors_back_witness :
  TcpLifecycle.clients LifecycleRun.tcp_up = [4] /\
  TcpLifecycle.fds LifecycleRun.tcp_up !! 0 = Some Descriptors.Other /\
  TcpLifecycle.fds (TcpLifecycle.stop LifecycleRun.tcp_up) = LifecycleRun.stdio.
Proof.
  destruct (TcpLifecycle.tcp_gives_descriptors_back LifecycleRun.stdio LifecycleRun.tcp_up LifecycleRun.tcp_up_history)
    as (_ & Hkeep & Hback & _).
  split; [reflexivity|]. split; [apply Hkeep; reflexivity|exact Hback].
Defined.
