(* ===== verification/UdpLifecycle.v ===== *)
(** * Starting and stopping the UDP server: [start] and [stop] of [src/core/ingest/udp.cpp] *)

From S2P Require Import Prelude Descriptors.

Module UdpLifecycle.
Import Descriptors.

Record Server := mkServer { isRunning : bool; server_fd : Z; receiveThread : bool; fds : table }.

Definition new_server (t : table) : Server := mkServer false (-1) false t.

Definition start (sock : answer) (bind_ok : bool) (thr : spawn) (s : Server) : run Server :=
  let '(fd, t) := opened Datagram sock (fds s) in
  if fd <? 0 then Done (mkServer true fd (receiveThread s) t) else
  if negb bind_ok then Done (mkServer true (-1) (receiveThread s) (closeSocket fd t)) else
  assign_thread thr (receiveThread s) (mkServer true fd true t) (mkServer true fd (receiveThread s) t).

(** Whether [start] gets as far as its thread. *)
Definition bound (sock : answer) (bind_ok : bool) : bool :=
  match sock with Some fd => negb (fd <? 0) && bind_ok | None => false end.

Lemma udp_start_returns a b thr s : receiveThread s = false ->
  (exists s', start a b thr s = Done s') <-> (bound a b = true -> thr = None).
Proof.
  intros Ha. unfold start, bound, opened. rewrite Ha. destruct a as [fd|]; [|by split; [|by eexists]].
  destruct (fd <? 0); [by split; [|by eexists]|]. destruct b; [|by split; [|by eexists]].
  rewrite assign_free. destruct thr; split; try done; [by intros [? ?]| |by eexists].
  by intros Hb; specialize (Hb eq_refl).
Qed.

(** [stop], once its join has returned. *)
Definition stop (s : Server) : Server :=
  mkServer false (-1) false (if server_fd s =? -1 then fds s else closeSocket (server_fd s) (fds s)).

(** Started or not, [stop] gives back what [start] took. *)
Lemma start_stop base sock b thr s' :
  unused base sock -> state_of (start sock b thr (new_server base)) = Some s' ->
  fds (stop s') = base /\ (receiveThread s' = true -> server_fd s' <> -1) /\
  (forall fd k, base !! fd = Some k -> fds s' !! fd = Some k).
Proof.
  unfold start, opened, new_server. cbn [fds receiveThread]. destruct sock as [fd|]; [|by intros _ [= <-]].
  intros [Hpos Hn]. assert (Hm : (fd =? -1) = false) by (apply Z.eqb_neq; lia).
  assert (Hback : closeSocket fd (<[fd := Datagram]> base) = base).
  { unfold closeSocket. rewrite Hm. by apply close_opened. }
  rewrite (proj2 (Z.ltb_ge fd 0)) by done.
  destruct b; cbn [negb].
  - rewrite assign_free. assert (Hkeep : forall f k, base !! f = Some k -> <[fd := Datagram]> base !! f = Some k).
    { intros f k Hf. rewrite lookup_insert_ne; [done|congruence]. }
    destruct thr; intros [= <-]; unfold stop; cbn [server_fd fds receiveThread]; rewrite Hm; (split_and!; [done|lia|done]).
  - intros [= <-]; unfold stop; cbn [server_fd fds receiveThread]. by rewrite Hback.
Qed.

End UdpLifecycle.
