(* ===== verification/EpollLifecycle.v ===== *)
(** * Starting and stopping the epoll server: [start] and [stop] of [src/core/ingest/epoll.cpp]

    Module [EpollLifecycle]: the listening socket, one epoll descriptor for each worker, the
    connection table and the descriptors they hold, and what a refused [epoll_create1] leaves. *)

From S2P Require Import Prelude Event FrameParser IngestSink TcpServer EpollServer Descriptors TcpLifecycle.

Module EpollLifecycle.
Import Descriptors.
Section Server.
Context {W : Type} `{FrameSink W}.

Record Server := mkServer {
  numWorkers_ : Z;
  isRunning_ : bool;
  server_fd_ : Z;
  acceptThread_ : bool;
  workerThreads_ : list Z;                  (* the epoll descriptor each worker was given *)
  epollFds_ : list Z;
  srv : EpollServer.Server (W := W);        (* the connections *)
  fds : table
}.

Definition new_server (num_workers hardware_concurrency : Z) (t : table) (s : Ingest W) : Server :=
  mkServer (EpollServer.numWorkers num_workers hardware_concurrency) false (-1) false [] []
    (EpollServer.mkServer ∅ 0 0 0 s []) t.

(** [epollFds_.resize(n)]: new elements are 0. *)
Definition resize (n : nat) (l : list Z) : list Z := take n l ++ replicate (n - length l) 0.

(** The loop that creates the epoll descriptors, from the [i]th on: whether it got to the end. *)
Fixpoint create_epolls (i : nat) (answers : list answer) (efds : list Z) (t : table) : bool * list Z * table :=
  match answers with
  | [] => (true, efds, t)
  | a :: answers' =>
      let '(fd, t) := opened Epoll a t in
      let efds := <[i := fd]> efds in
      if fd <? 0 then (false, efds, close_all (take i efds) t)
      else create_epolls (S i) answers' efds t
  end.

(** The loop that creates the workers: the exception, if one cannot be created, and those that were. *)
Fixpoint spawn_workers (answers : list spawn) (efds : list Z) (workers : list Z) : spawn * list Z :=
  match efds with
  | [] => (None, workers)
  | efd :: efds' =>
      match hd None answers with
      | Some what => (Some what, workers)
      | None => spawn_workers (tl answers) efds' (workers ++ [efd])
      end
  end.

(** What the kernel answers to the calls of [start]. *)
Record Answers := mkAnswers {
  a_socket : answer; a_nonblock : bool; a_bind : bool; a_listen : bool;
  a_epolls : list answer;                   (* one for each worker *)
  a_workers : list spawn;                   (* one for each worker *)
  a_accept : spawn
}.

Definition start (a : Answers) (s : Server) : run Server :=
  let '(fd, t) := opened Listener (a_socket a) (fds s) in
  let failed fd t := Done (mkServer (numWorkers_ s) true fd (acceptThread_ s) (workerThreads_ s) (epollFds_ s) (srv s) t) in
  if fd <? 0 then failed fd t else
  if negb (a_nonblock a) then failed (-1) (close fd t) else
  if negb (a_bind a) then failed (-1) (close fd t) else
  if negb (a_listen a) then failed (-1) (close fd t) else
  match create_epolls 0 (a_epolls a) (resize (Z.to_nat (numWorkers_ s)) (epollFds_ s)) t with
  | (false, efds, t) =>
      Done (mkServer (numWorkers_ s) true (-1) (acceptThread_ s) (workerThreads_ s) efds (srv s) (close fd t))
  | (true, efds, t) =>
      match spawn_workers (a_workers a) efds (workerThreads_ s) with
      | (Some what, workers) => Raised what (mkServer (numWorkers_ s) true fd (acceptThread_ s) workers efds (srv s) t)
      | (None, workers) =>
          assign_thread (a_accept a) (acceptThread_ s)
            (mkServer (numWorkers_ s) true fd true workers efds (srv s) t)
            (mkServer (numWorkers_ s) true fd (acceptThread_ s) workers efds (srv s) t)
      end
  end.

(** [stop], once its joins have returned.  [connections_.clear()] leaves [activeConnections_] as it is. *)
Definition stop (s : Server) : Server :=
  let t := if server_fd_ s =? -1 then fds s else close (server_fd_ s) (fds s) in
  let t := close_all (List.filter (fun efd => negb (efd =? -1)) (epollFds_ s)) t in
  let c := srv s in
  let t := close_all (elements (dom (EpollServer.connections_ c))) t in
  mkServer (numWorkers_ s) false (-1) false [] []
    (EpollServer.mkServer ∅ (EpollServer.nextWorker c) (EpollServer.totalConnectionsAccepted_ c)
       (EpollServer.activeConnections_ c) (EpollServer.ingest c) (EpollServer.trace c)) t.

(** Started, with its epoll descriptors and some connections. *)
Definition owned (s : Server) : list (Z * kind) :=
  (server_fd_ s, Listener) :: map (fun fd => (fd, Epoll)) (epollFds_ s) ++
  map (fun fd => (fd, Client)) (elements (dom (EpollServer.connections_ (srv s)))).

Lemma keys_of (k : kind) (l : list Z) : (map (fun fd => (fd, k)) l : list (Z * kind)).*1 = l.
Proof. induction l as [|x l IH]; [done|]. cbn. by rewrite IH. Qed.

Lemma stop_gives_back base s :
  owns base (owned s) (fds s) -> fds (stop s) = base.
Proof.
  intros Ho. pose proof (owns_close_all _ _ _ Ho) as Hb.
  assert (Hpos : Forall (fun fd => 0 <= fd) ((owned s).*1)).
  { apply Forall_forall. intros fd ([f k] & -> & Hin)%list_elem_of_fmap. destruct Ho as (_ & Hown & _). by apply (Hown f k). }
  unfold owned in Hb, Hpos. cbn [fmap list_fmap fst] in Hb, Hpos. rewrite fmap_app, !keys_of in Hb, Hpos.
  apply Forall_cons in Hpos as [Hl Hpos]. apply Forall_app in Hpos as [He _].
  unfold stop. cbn [fds]. rewrite (proj2 (Z.eqb_neq (server_fd_ s) (-1))) by lia.
  assert (Hf : List.filter (fun efd => negb (efd =? -1)) (epollFds_ s) = epollFds_ s).
  { clear -He. induction He as [|x l Hx Hl IH]; [done|]. cbn. rewrite (proj2 (Z.eqb_neq x (-1))) by lia. cbn. by rewrite IH. }
  rewrite Hf, <- close_all_app. exact Hb.
Qed.

(** The numbers the kernel gives are not in use when it gives them. *)
Fixpoint unused_all (t : table) (answers : list answer) : Prop :=
  match answers with
  | [] => True
  | a :: answers' => unused t a /\ unused_all (opened Epoll a t).2 answers'
  end.

Definition given (answers : list answer) : list Z := omap (fun a => a) answers.

Lemma create_epolls_ok i answers efds t base owned0 :
  Forall is_Some answers -> unused_all t answers -> owns base owned0 t ->
  length efds = (i + length answers)%nat ->
  exists efds' t', create_epolls i answers efds t = (true, efds', t') /\
    efds' = take i efds ++ given answers /\
    owns base (map (fun fd => (fd, Epoll)) (reverse (given answers)) ++ owned0) t'.
Proof.
  intros Ha. revert i efds t owned0. induction Ha as [|a answers [fd ->] Ha IH]; intros i efds t owned0 Hu Ho Hlen.
  { exists efds, t. split; [done|]. split; [|done]. cbn. rewrite app_nil_r, take_ge; [done|]. cbn in Hlen. lia. }
  cbn [create_epolls opened unused_all snd length] in *. destruct Hu as [Hu Hus]. pose proof (proj1 Hu) as Hpos.
  rewrite (proj2 (Z.ltb_ge fd 0)) by done.
  destruct (IH (S i) (<[i := fd]> efds) (<[fd := Epoll]> t) ((fd, Epoll) :: owned0)) as (efds' & t' & Hr & He & Ho');
    [done|by apply owns_open|rewrite length_insert; lia|].
  exists efds', t'. split; [done|]. split.
  - rewrite He. rewrite (take_S_r _ _ fd) by (apply list_lookup_insert_eq; lia).
    rewrite take_insert_ge by lia. by rewrite <- app_assoc.
  - change (given (Some fd :: answers)) with (fd :: given answers).
    rewrite reverse_cons, map_app, <- app_assoc. exact Ho'.
Qed.

(** ** Every history without a refused epoll descriptor *)

(** The closes among the calls a step of the server made. *)
Definition closed_by (calls : list EpollServer.syscall) (t : table) : table :=
  fold_left (fun t c => match c with EpollServer.SysClose fd => close fd t | _ => t end) calls t.

Definition after (s : Server) (srv' : EpollServer.Server (W := W)) (t : table) : Server :=
  mkServer (numWorkers_ s) (isRunning_ s) (server_fd_ s) (acceptThread_ s) (workerThreads_ s) (epollFds_ s) srv'
    (closed_by (drop (length (EpollServer.trace (srv s))) (EpollServer.trace srv')) t).

(** A client accepted, and an event of a worker. *)
Definition on_accept (fd : Z) (address : string) (nonblocking_ok epoll_add_ok : bool) (s : Server) : Server :=
  after s (EpollServer.acceptConnections_step (epollFds_ s) fd address nonblocking_ok epoll_add_ok (srv s))
    (<[fd := Client]> (fds s)).

Inductive history (base : table) : Server -> Prop :=
| created n hc i : history base (new_server n hc base i)
| started s a s' : history base s -> server_fd_ s = -1 -> unused (fds s) (a_socket a) ->
    Forall is_Some (a_epolls a) -> length (a_epolls a) = Z.to_nat (numWorkers_ s) ->
    unused_all (opened Listener (a_socket a) (fds s)).2 (a_epolls a) ->
    state_of (start a s) = Some s' -> history base s'
| stopped s : history base s -> history base (stop s)
| accepted s fd address nb add : history base s -> acceptThread_ s = true -> unused (fds s) (Some fd) ->
    history base (on_accept fd address nb add s)
| worked s efd fd flags chunks fin srv' : history base s -> fd ∈ dom (EpollServer.connections_ (srv s)) ->
    EpollServer.worker_event efd fd flags chunks fin (srv s) = Ret srv' ->
    history base (after s srv' (fds s)).

(** Stopped with nothing owned, or with what it owns - running, unless a thread could not be created. *)
Definition inv (base : table) (s : Server) : Prop :=
  if server_fd_ s =? -1
  then acceptThread_ s = false /\ epollFds_ s = [] /\ EpollServer.connections_ (srv s) = ∅ /\ fds s = base
  else owns base (owned s) (fds s).

Lemma resize_length n l : length (resize n l) = n.
Proof. unfold resize. rewrite length_app, length_take, length_replicate. lia. Qed.

Lemma stop_inv base s : inv base s -> inv base (stop s).
Proof.
  unfold inv. cbn [server_fd_ acceptThread_ stop]. intros Hi. change (-1 =? -1) with true. cbv iota. split_and!; try done.
  destruct (Z.eqb_spec (server_fd_ s) (-1)) as [Hfd|_]; [|by apply stop_gives_back].
  destruct Hi as (_ & He & Hc & Hb). unfold stop. cbn [fds]. rewrite Hfd, He, Hc. by rewrite dom_empty_L, elements_empty.
Qed.

Lemma epoll_start_inv base a s s' :
  inv base s -> server_fd_ s = -1 -> unused (fds s) (a_socket a) ->
  Forall is_Some (a_epolls a) -> length (a_epolls a) = Z.to_nat (numWorkers_ s) ->
  unused_all (opened Listener (a_socket a) (fds s)).2 (a_epolls a) ->
  state_of (start a s) = Some s' -> inv base s'.
Proof.
  intros Hi Hfd Hu He Hlen Hus. unfold inv in Hi. rewrite Hfd in Hi. destruct Hi as (Ha & Hefd & Hc & Hb).
  unfold start. destruct (a_socket a) as [fd|]; cbn [opened snd] in *.
  2: { intros [= <-]. unfold inv. by cbn. }
  destruct Hu as [Hpos Hn]. rewrite (proj2 (Z.ltb_ge fd 0)) by done.
  assert (Hback : close fd (<[fd := Listener]> (fds s)) = base) by (rewrite close_opened; done).
  destruct (a_nonblock a); cbn [negb]; [|intros [= <-]; unfold inv; by cbn].
  destruct (a_bind a); cbn [negb]; [|intros [= <-]; unfold inv; by cbn].
  destruct (a_listen a); cbn [negb]; [|intros [= <-]; unfold inv; by cbn].
  assert (Ho : owns base [(fd, Listener)] (<[fd := Listener]> (fds s))).
  { rewrite Hb. rewrite Hb in Hn. apply owns_open; [apply owns_nil|done]. }
  destruct (create_epolls_ok 0 (a_epolls a) (resize (Z.to_nat (numWorkers_ s)) (epollFds_ s)) _ base _ He Hus Ho)
    as (efds & t & -> & Hefds & Hown); [by rewrite resize_length|].
  assert (Hup : forall b workers, inv base (mkServer (numWorkers_ s) true fd b workers efds (srv s) t)).
  { intros b workers. unfold inv. cbn [server_fd_]. rewrite (proj2 (Z.eqb_neq fd (-1))) by lia.
    unfold owned. cbn [server_fd_ epollFds_ srv fds].
    rewrite Hc, dom_empty_L, elements_empty. cbn [map]. rewrite app_nil_r, Hefds. cbn [take app].
    eapply owns_perm; [|exact Hown]. rewrite reverse_Permutation. symmetry. apply Permutation_cons_append. }
  destruct (spawn_workers _ _ _) as [[what|] workers]; [by intros [= <-]|].
  rewrite Ha, assign_free. destruct (a_accept a); by intros [= <-].
Qed.

(** A running accept thread has its socket. *)
Lemma accepting_owns base s : inv base s -> acceptThread_ s = true -> (server_fd_ s =? -1) = false.
Proof. unfold inv. destruct (server_fd_ s =? -1); [|done]. intros (Ha & _). congruence. Qed.

Lemma owned_keys base s conns' :
  owns base (owned s) (fds s) -> conns' = dom (EpollServer.connections_ (srv s)) ->
  owns base ((server_fd_ s, Listener) :: map (fun fd => (fd, Epoll)) (epollFds_ s) ++
             map (fun fd => (fd, Client)) (elements conns')) (fds s).
Proof. by intros Ho ->. Qed.

Lemma after_fds s srv' t calls :
  EpollServer.trace srv' = EpollServer.trace (srv s) ++ calls -> fds (after s srv' t) = closed_by calls t.
Proof. intros Ht. cbn. by rewrite Ht, drop_app_length. Qed.

Lemma accept_inv base fd address nb add s :
  inv base s -> acceptThread_ s = true -> unused (fds s) (Some fd) -> inv base (on_accept fd address nb add s).
Proof.
  intros Hi Ha [Hpos Hn]. pose proof (accepting_owns _ _ Hi Ha) as Hup. unfold inv in *.
  cbn [server_fd_ acceptThread_ on_accept after]. rewrite Hup in *.
  assert (Hclose : close fd (<[fd := Client]> (fds s)) = fds s) by (by apply close_opened).
  assert (Hnew : fd ∉ dom (EpollServer.connections_ (srv s))).
  { intros Hin. destruct (owns_fresh _ _ _ fd Hi ltac:(by split)) as [_ Hno]. apply Hno.
    unfold owned. cbn. right. rewrite fmap_app, !keys_of. apply elem_of_app. right. by apply elem_of_elements. }
  unfold on_accept. destruct nb; [destruct add|].
  - rewrite (after_fds _ _ _ [EpollServer.SysEpollAdd (nth (Z.to_nat (EpollServer.nextWorker (srv s) mod zlen (epollFds_ s)))
      (epollFds_ s) (-1)) fd]) by done.
    cbn [closed_by fold_left]. unfold owned. cbn [server_fd_ epollFds_ srv after].
    unfold EpollServer.acceptConnections_step. cbn [negb EpollServer.connections_ EpollServer.sys]. rewrite dom_insert_L.
    eapply owns_perm; [|apply (owns_open base (owned s) (fds s) Client fd Hi); by split].
    rewrite (elements_disj_union {[fd]} (dom (EpollServer.connections_ (srv s)))) by set_solver.
    rewrite elements_singleton. unfold owned. cbn [app map].
    rewrite perm_swap. apply Permutation_cons; [done|]. apply Permutation_middle.
  - rewrite (after_fds _ _ _ [EpollServer.SysEpollAdd (nth (Z.to_nat (EpollServer.nextWorker (srv s) mod zlen (epollFds_ s)))
      (epollFds_ s) (-1)) fd; EpollServer.SysClose fd]) by (cbn; by rewrite <- app_assoc).
    cbn [closed_by fold_left]. rewrite Hclose. unfold owned. cbn [server_fd_ epollFds_ srv after].
    unfold EpollServer.acceptConnections_step. cbn [negb EpollServer.connections_ EpollServer.sys].
    by rewrite delete_insert_id by (by apply not_elem_of_dom).
  - rewrite (after_fds _ _ _ [EpollServer.SysClose fd]) by done. cbn [closed_by fold_left]. by rewrite Hclose.
Qed.

(** What an event of a worker does to the keys and the calls. *)
Lemma worker_keys efd fd flags chunks fin st st' :
  fd ∈ dom (EpollServer.connections_ st) -> EpollServer.worker_event efd fd flags chunks fin st = Ret st' ->
  (dom (EpollServer.connections_ st') = dom (EpollServer.connections_ st) /\ EpollServer.trace st' = EpollServer.trace st) \/
  (dom (EpollServer.connections_ st') = dom (EpollServer.connections_ st) ∖ {[fd]} /\
   EpollServer.trace st' = EpollServer.trace st ++
     [EpollServer.SysEpollDel efd fd; EpollServer.SysShutdown fd; EpollServer.SysClose fd]).
Proof.
  intros Hin. apply elem_of_dom in Hin as [c Hc]. unfold EpollServer.worker_event.
  destruct (negb (Z.land flags _ =? 0)).
  { intros [= <-]. right. cbn. rewrite dom_delete_L, <- !app_assoc. done. }
  destruct (negb (Z.land flags EpollServer.EPOLLIN =? 0)); [|intros [= <-]; by left].
  destruct (EpollServer.handleRead_spec fd chunks fin st c Hc) as (c' & s' & _ & ->). cbn [mbind outcome_bind].
  assert (Hd : dom (<[fd := c']> (EpollServer.connections_ st)) = dom (EpollServer.connections_ st)).
  { rewrite dom_insert_L. apply elem_of_dom_2 in Hc. set_solver. }
  destruct fin; intros [= <-]; [right|left|right]; cbn; rewrite ?delete_insert_eq, ?dom_delete_L, <- ?app_assoc; done.
Qed.

Lemma worker_inv base efd fd flags chunks fin s srv' :
  inv base s -> fd ∈ dom (EpollServer.connections_ (srv s)) ->
  EpollServer.worker_event efd fd flags chunks fin (srv s) = Ret srv' -> inv base (after s srv' (fds s)).
Proof.
  unfold inv. cbn [server_fd_ acceptThread_ after]. intros Hi Hin Hw. destruct (server_fd_ s =? -1).
  1: { destruct Hi as (_ & _ & Hc & _). rewrite Hc in Hin. set_solver. }
  destruct (worker_keys _ _ _ _ _ _ _ Hin Hw) as [[Hd Ht]|[Hd Ht]]; unfold owned; cbn [server_fd_ epollFds_ srv after];
    rewrite Hd.
  - rewrite (after_fds s srv' (fds s) []) by (by rewrite app_nil_r). exact Hi.
  - rewrite (after_fds _ _ _ _ Ht). cbn [closed_by fold_left].
    apply (owns_close base ((server_fd_ s, Listener) :: map (fun fd => (fd, Epoll)) (epollFds_ s))
             (map (fun fd => (fd, Client)) (elements (dom (EpollServer.connections_ (srv s)) ∖ {[fd]}))) _ fd Client).
    eapply owns_perm; [|exact Hi]. unfold owned. cbn [app]. apply Permutation_cons; [done|].
    apply Permutation_app_head. apply (Permutation_map (fun fd => (fd, Client)) (l' := fd :: elements _)).
    rewrite <- elements_union_singleton by set_solver. apply elements_proper. intros x.
    destruct (decide (x = fd)) as [->|]; set_solver.
Qed.

Lemma epoll_history_inv base s : history base s -> inv base s.
Proof.
  induction 1 as [n hc i|s a s' Hh IH|s Hh IH|s fd address nb add Hh IH|s efd fd flags chunks fin srv' Hh IH].
  - unfold inv. by cbn.
  - by eapply epoll_start_inv.
  - by apply stop_inv.
  - by apply accept_inv.
  - by eapply worker_inv.
Qed.

(** Like the TCP server's, for the histories in which no [epoll_create1] is refused; threads may be. *)
Lemma epoll_gives_descriptors_back base s :
  history base s -> fds (stop s) = base /\ isRunning_ (stop s) = false /\
  (forall fd k, base !! fd = Some k -> fds s !! fd = Some k).
Proof.
  intros Hh. pose proof (epoll_history_inv base s Hh) as Hi. split; [|split; [done|]].
  - pose proof (stop_inv base s Hi) as Hs. unfold inv in Hs. cbn [server_fd_ stop] in Hs. by destruct Hs as (_ & _ & _ & Hb).
  - intros fd k Hk. unfold inv in Hi. destruct (server_fd_ s =? -1); [by destruct Hi as (_ & _ & _ & ->)|].
    destruct Hi as (_ & Hown & ->). apply lookup_union_Some_raw. right. split; [|done].
    apply not_elem_of_list_to_map. intros ([f j] & -> & Hin)%list_elem_of_fmap. cbn in Hk.
    destruct (Hown _ _ Hin) as [_ Hn]. congruence.
Qed.

(** ** A refused epoll descriptor *)

(** When [epoll_create1] is refused for a worker before the last, [start] closes what it had opened, but
    leaves the numbers in [epollFds_], with zeros for the workers after: [stop] - the destructor calls
    it - closes those numbers once more, whoever they belong to by then, and the standard input. *)
Lemma refused_epoll_state s fd a1 n ws acc :
  acceptThread_ s = false -> epollFds_ s = [] -> fds s !! fd = None -> 0 <= fd ->
  unused (<[fd := Listener]> (fds s)) (Some a1) -> numWorkers_ s = 2 + Z.of_nat (S n) ->
  start (mkAnswers (Some fd) true true true [Some a1; None] ws acc) s =
    Done (mkServer (numWorkers_ s) true (-1) false (workerThreads_ s)
            (a1 :: -1 :: replicate (S n) 0) (srv s) (fds s)).
Proof.
  intros Ha He Hfd Hpos [Ha1 Hn1] Hw. unfold start. cbn [opened a_socket a_nonblock a_bind a_listen a_epolls negb].
  rewrite (proj2 (Z.ltb_ge fd 0)) by done. rewrite He.
  assert (Hr : resize (Z.to_nat (numWorkers_ s)) [] = 0 :: 0 :: replicate (S n) 0).
  { unfold resize. rewrite take_nil, Hw. cbn [app length].
    replace (Z.to_nat (2 + Z.of_nat (S n)) - 0)%nat with (S (S (S n))) by lia. done. }
  rewrite Hr. cbn [create_epolls opened].
  rewrite (proj2 (Z.ltb_ge a1 0)) by done. cbn. rewrite Ha. do 2 f_equal.
  rewrite (close_opened Epoll a1) by done. by apply close_opened.
Qed.

Lemma refused_epoll_closes_stdin s fd a1 n ws acc k s' :
  acceptThread_ s = false -> epollFds_ s = [] -> fds s !! fd = None -> 0 <= fd ->
  unused (<[fd := Listener]> (fds s)) (Some a1) -> numWorkers_ s = 2 + Z.of_nat (S n) ->
  fds s !! 0 = Some k ->
  start (mkAnswers (Some fd) true true true [Some a1; None] ws acc) s = Done s' ->
  isRunning_ s' = true /\ fds s' = fds s /\
  (forall fd1, fd1 = 0 \/ fd1 = a1 -> fds (stop s') !! fd1 = None) /\
  (forall t', fds (stop (mkServer (numWorkers_ s') (isRunning_ s') (server_fd_ s') (acceptThread_ s')
                (workerThreads_ s') (epollFds_ s') (srv s') t')) !! a1 = None).
Proof.
  intros Ha He Hfd Hpos Hu Hw H0 Hs. rewrite (refused_epoll_state s fd a1 n ws acc) in Hs by done. injection Hs as <-.
  assert (Hgone : forall t fd1, fd1 = 0 \/ fd1 = a1 ->
    close_all (elements (dom (EpollServer.connections_ (srv s))))
      (close_all (List.filter (fun efd => negb (efd =? -1)) (a1 :: -1 :: replicate (S n) 0)) t) !! fd1 = None).
  { intros t fd1 H1. rewrite !close_all_lookup. case_decide; [done|]. rewrite decide_True; [done|].
    destruct Hu as [Ha1 _]. cbn. rewrite (proj2 (Z.eqb_neq a1 (-1))) by lia. cbn. destruct H1 as [->| ->]; set_solver. }
  split_and!; [done|done| |]; intros; unfold stop; cbn -[List.filter close_all]; apply Hgone; auto.
Qed.

End Server.
End EpollLifecycle.

(** ** A concrete run *)

Module RefusedRun.
Import Descriptors.

(** Four workers; the second [epoll_create1] is refused. *)
Definition epoll_new : EpollLifecycle.Server (W := list (EventSourceType * string * FrameParser.ParsedFrame)) :=
  EpollLifecycle.new_server 4 8 LifecycleRun.stdio TcpRun.start.

Definition refused : EpollLifecycle.Answers := EpollLifecycle.mkAnswers (Some 3) true true true [Some 4; None] [] None.

Example refused_epoll_run :
  exists s', EpollLifecycle.start refused epoll_new = Done s' /\ EpollLifecycle.epollFds_ s' = [4; -1; 0; 0] /\
    EpollLifecycle.fds s' = LifecycleRun.stdio /\ EpollLifecycle.fds (EpollLifecycle.stop s') = {[1 := Other; 2 := Other]}.
Proof. eexists. split; [reflexivity|]. split; [reflexivity|]. split; vm_compute; reflexivity. Qed.

End RefusedRun.
