(* ===== verification/Joining.v ===== *)
(** * Which [stop] returns

    Module [Joining]: the threads [stop] joins, where each of them can block, and what wakes
    it; [step]s of the process on its own, [peer] steps of the other end of a socket. *)

From S2P Require Import Prelude.

Module Joining.

(** Where a thread of the engine blocks. *)
Inductive blocking :=
| OnAccept          (* accept() on a blocking socket: TCP *)
| OnRecv            (* recv() on a client's socket: a TCP handler *)
| OnRecvfrom        (* recvfrom(): UDP *)
| OnPoll.           (* a wait with a time limit, or none: epoll_wait(100 ms), pop(10 or 50 ms), the accept loop
                       of the epoll server on its non-blocking socket, the dispatch loop's sleep *)

#[export] Instance blocking_eq_dec : EqDecision blocking.
Proof. solve_decision. Defined.

Section Joining.
(** Whether [shutdown] wakes a thread in [accept], and [close] one in [recvfrom]: on Linux the first
    does and the second does not; no socket of a client is shut down by [stop]. *)
Context (shutdown_wakes close_wakes : bool).

Definition wakes (b : blocking) : bool :=
  match b with OnAccept => shutdown_wakes | OnRecv => false | OnRecvfrom => close_wakes | OnPoll => true end.

(** [Testing]: about to read the running flag, which [stop] has cleared. *)
Inductive thread := Waiting (b : blocking) | Testing | Gone.

(** The threads in the order [stop] joins them, and how many it has joined. *)
Record state := mkState { threads : list thread; joined : nat }.

Definition returned (s : state) : Prop := joined s = length (threads s).

(** The steps of the process on its own. *)
Inductive step : state -> state -> Prop :=
| wake s i b : threads s !! i = Some (Waiting b) -> wakes b = true ->
    step s (mkState (<[i := Testing]> (threads s)) (joined s))
| leave s i : threads s !! i = Some Testing -> step s (mkState (<[i := Gone]> (threads s)) (joined s))
| join s : threads s !! joined s = Some Gone -> step s (mkState (threads s) (S (joined s))).

(** A peer: data, a disconnection, a datagram. *)
Inductive peer : state -> state -> Prop :=
| arrives s i b : threads s !! i = Some (Waiting b) -> peer s (mkState (<[i := Testing]> (threads s)) (joined s)).

Definition owed (t : thread) : nat := match t with Waiting _ => 2 | Testing => 1 | Gone => 0 end.
Definition measure (s : state) : nat := (sum_list_with owed (threads s) + (length (threads s) - joined s))%nat.

Lemma sum_insert l i t u :
  l !! i = Some t -> (sum_list_with owed (<[i := u]> l) + owed t = sum_list_with owed l + owed u)%nat.
Proof.
  revert i; induction l as [|x l IH]; intros [|i]; try done.
  - intros [= ->]. cbn. lia.
  - intros Hi. specialize (IH i Hi). change (<[S i := u]> (x :: l)) with (x :: <[i := u]> l).
    cbn [sum_list_with] in *. lia.
Qed.

Lemma step_measure s s' : step s s' -> (measure s' < measure s)%nat.
Proof.
  unfold measure. destruct 1 as [s i b Hi Hw|s i Hi|s Hj]; cbn [threads joined].
  - rewrite length_insert. pose proof (sum_insert _ _ _ Testing Hi). cbn in *. lia.
  - rewrite length_insert. pose proof (sum_insert _ _ _ Gone Hi). cbn in *. lia.
  - apply lookup_lt_Some in Hj. lia.
Qed.

(** A state with no step left has returned, unless a thread waits for what does not wake it. *)
Lemma stuck_returned s :
  (joined s <= length (threads s))%nat ->
  (forall i b, threads s !! i = Some (Waiting b) -> wakes b = true) ->
  (forall s', ~ step s s') -> returned s.
Proof.
  intros Hle Hw Hno. unfold returned. destruct (threads s !! joined s) as [t|] eqn:E.
  2: { apply lookup_ge_None in E. lia. }
  exfalso. destruct t as [b| |].
  - eapply Hno, wake; [exact E|by eapply Hw].
  - eapply Hno, leave, E.
  - eapply Hno, join, E.
Qed.

Definition self_waking (s : state) : Prop := forall i b, threads s !! i = Some (Waiting b) -> wakes b = true.
Definition in_range (s : state) : Prop := (joined s <= length (threads s))%nat.

Lemma step_keeps s s' : self_waking s /\ in_range s -> step s s' -> self_waking s' /\ in_range s'.
Proof.
  unfold self_waking, in_range. intros [Hs Hr].
  destruct 1 as [s k b0 Hk Hw|s k Hk|s Hj]; cbn [threads joined]; (split; [|rewrite ?length_insert; try lia]).
  - intros i b. rewrite list_lookup_insert_Some. intros [(_ & ? & _)|(_ & Hi)]; [done|by eapply Hs].
  - intros i b. rewrite list_lookup_insert_Some. intros [(_ & ? & _)|(_ & Hi)]; [done|by eapply Hs].
  - exact Hs.
  - apply lookup_lt_Some in Hj. lia.
Qed.

Lemma nsteps_measure k s s' : nsteps step k s s' -> (k + measure s' <= measure s)%nat.
Proof. induction 1 as [s|k s s1 s2 Hst Hk IH]; [lia|]. pose proof (step_measure _ _ Hst). lia. Qed.

(** Left to itself, the process gets to the end of [stop]. *)
Lemma self_waking_returns s s' :
  self_waking s -> in_range s -> rtc step s s' -> (forall s'', ~ step s' s'') -> returned s'.
Proof.
  intros Hs Hr Hrtc Hno.
  destruct (rtc_invariant step (fun s => self_waking s /\ in_range s) step_keeps s s' Hrtc (conj Hs Hr)).
  by apply stuck_returned.
Qed.

(** What a [stop] that is called on running threads finds: every thread blocked or about to test the flag. *)
Definition stopping (blocked : list blocking) : state := mkState (map Waiting blocked) 0.

Lemma stopping_waits bs i b : threads (stopping bs) !! i = Some (Waiting b) <-> bs !! i = Some b.
Proof.
  cbn. rewrite list_lookup_fmap. destruct (bs !! i); cbn; split; congruence.
Qed.

Lemma stopping_measure bs : measure (stopping bs) = (3 * length bs)%nat.
Proof.
  unfold measure, stopping. cbn [threads joined]. rewrite length_map, Nat.sub_0_r.
  induction bs as [|b bs IH]; [done|]. cbn in *. lia.
Qed.

(** A thread that nothing wakes is never joined by the process on its own. *)
Lemma never_woken s s' i b :
  threads s !! i = Some (Waiting b) -> wakes b = false -> (joined s <= i)%nat -> rtc step s s' ->
  threads s' !! i = Some (Waiting b) /\ (joined s' <= i)%nat.
Proof.
  intros Hi Hw Hj Hr. induction Hr as [s|s s1 s2 Hst Hr IH]; [done|]. apply IH; clear IH Hr.
  - destruct Hst as [s k b0 Hk Hw0|s k Hk|s Hk]; cbn; [| |done];
      (rewrite list_lookup_insert_ne; [done|]); intros ->; congruence.
  - destruct Hst as [s k b0 Hk Hw0|s k Hk|s Hk]; cbn; try done.
    destruct (decide (joined s = i)) as [<-|]; [congruence|lia].
Qed.

Lemma woken_or_held bs :
  (forall k s', nsteps step k (stopping bs) s' -> (k <= 3 * length bs)%nat) /\
  (Forall (fun b => wakes b = true) bs ->
   forall s', rtc step (stopping bs) s' -> (forall s'', ~ step s' s'') -> returned s') /\
  (Exists (fun b => wakes b = false) bs -> forall s', rtc step (stopping bs) s' -> ~ returned s').
Proof.
  split_and!.
  - intros k s' Hk. pose proof (nsteps_measure _ _ _ Hk). rewrite stopping_measure in *. lia.
  - intros Hall s' Hr Hno. apply (self_waking_returns (stopping bs)); try done; [|unfold in_range; cbn; lia].
    intros i b Hi. apply stopping_waits in Hi. rewrite Forall_forall in Hall. apply Hall. by eapply list_elem_of_lookup_2.
  - intros Hex s' Hr. apply Exists_exists in Hex as (b & Hin & Hw). apply list_elem_of_lookup_1 in Hin as [i Hi].
    destruct (never_woken _ s' i b (proj2 (stopping_waits bs i b) Hi) Hw ltac:(cbn; lia) Hr) as [Ht Hj].
    unfold returned. apply lookup_lt_Some in Ht. lia.
Qed.


End Joining.
End Joining.

(** A client that stays connected and silent holds up the server's [stop]; the epoll server's returns. *)
Example tcp_stop_held_up close_wakes s' :
  rtc (Joining.step true close_wakes) (Joining.stopping [Joining.OnAccept; Joining.OnRecv]) s' -> ~ Joining.returned s'.
Proof.
  apply (Joining.woken_or_held true close_wakes [Joining.OnAccept; Joining.OnRecv]).
  right. left. reflexivity.
Qed.

Example epoll_stop_returns n shutdown_wakes close_wakes s' :
  rtc (Joining.step shutdown_wakes close_wakes) (Joining.stopping (replicate n Joining.OnPoll)) s' ->
  (forall s'', ~ Joining.step shutdown_wakes close_wakes s' s'') -> Joining.returned s'.
Proof.
  apply (Joining.woken_or_held shutdown_wakes close_wakes (replicate n Joining.OnPoll)). by apply Forall_replicate.
Qed.
