(* ===== verification/Startup.v ===== *)
(** * The program: [src/main.cpp], and the threads of the manager and the dispatcher

    Module [Startup]: what [main] builds from the command line, the configuration and
    the files; the start of its components in order; the shutdown sequence; the exit
    code.  The start and stop of [Dispatcher] and [ProcessManager] manage the thread
    handles and are here.  The engine [main] builds meets the condition of the
    delivery theorem ([Delivery.idle]). *)

From S2P Require Import Prelude Event IngestSink TcpServer UdpServer TopicTable Dlq Metrics EventBus Dispatcher.
From S2P Require Import Storage Handlers Output Dedup Processor Transactional Batch Manager Drain Pipeline Delivery.
From S2P Require Import Safety Engine Config Numa Descriptors TcpLifecycle UdpLifecycle.
From stdpp Require Import pretty.
#[local] Open Scope Z_scope.

(** ** The threads of the manager and the dispatcher *)

Module Threads.
Section Threads.
Context (L : Libnuma).

(** Which handles are joinable. *)
Record t := mk { dispatcher_worker : bool; realtimeThread_ : bool; transactionalThread_ : bool; batchThread_ : bool }.

Definition none : t := mk false false false false.
Definition all : t := mk true true true true.

(** What the kernel answers when the threads are created, in this order. *)
Record Spawns := mkSpawns { t_dispatcher : spawn; t_realtime : spawn; t_transactional : spawn; t_batch : spawn; t_tcp : spawn; t_udp : spawn }.

(** [Dispatcher::start]: the thread handle must not be joinable. *)
Definition dispatcher_start (sp : Spawns) (th : t) : run t :=
  assign_thread (t_dispatcher sp) (dispatcher_worker th)
    (mk true (realtimeThread_ th) (transactionalThread_ th) (batchThread_ th)) th.

(** [Dispatcher::stop], once the join has returned. *)
Definition dispatcher_stop (th : t) : t := mk false (realtimeThread_ th) (transactionalThread_ th) (batchThread_ th).

(** [ProcessManager::start]: the realtime thread, [tid], is pinned to CPU 2 if the kernel allows; an
    exception of [bindThread] is caught. *)
Definition manager_start (tid : Z) (sp : Spawns) (th : t) (s : NUMABinding.Sys) : run (t * NUMABinding.Sys) :=
  and_then (assign_thread (t_realtime sp) (realtimeThread_ th)
              (mk (dispatcher_worker th) true (transactionalThread_ th) (batchThread_ th),
               (NUMABinding.bindThread L (Some tid) 2 s).2) (th, s)) (fun '(th, s) =>
  and_then (assign_thread (t_transactional sp) (transactionalThread_ th)
              (mk (dispatcher_worker th) (realtimeThread_ th) true (batchThread_ th), s) (th, s)) (fun '(th, s) =>
  assign_thread (t_batch sp) (batchThread_ th)
    (mk (dispatcher_worker th) (realtimeThread_ th) (transactionalThread_ th) true, s) (th, s))).

(** [ProcessManager::stop], once the joins have returned. *)
Definition manager_stop (th : t) : t := mk (dispatcher_worker th) false false false.

End Threads.
End Threads.

Module Startup.
Section Startup.
Context (L : Libnuma) `{Yaml Node}.

(** ** What [main] finds *)

Record Host := mkHost {
  h_exists : string -> bool;                       (* the configuration file can be opened *)
  h_doc : string -> outcome Node;                  (* what yaml-cpp makes of it *)
  h_topics : option string;                        (* config/topics.conf *)
  h_log : string -> option (list byte);            (* the storage file: its contents, if it can be opened *)
  h_metrics : MetricRegistry.t;                    (* the registry before the first use *)
  h_tcp : Descriptors.answer * bool * bool;        (* socket, bind, listen of the TCP server *)
  h_udp : Descriptors.answer * bool;               (* socket, bind of the UDP server *)
  h_threads : Threads.Spawns;
  h_tid : Z
}.

(** The globals of the process; [reported] are the lines about started servers. *)
Record Process := mkProcess {
  fds : Descriptors.table;
  sys : NUMABinding.Sys;
  threads : Threads.t;
  handlers : Handlers.registry;
  observers : bool * Output.Stream (S := Output.Observed);
  pool_inits : Z;
  pool_shutdown : bool;
  reported : list string
}.

Record Components := mkComponents {
  dispatcher : Dispatcher.Dispatcher;
  engine : PWorld Output.Observed;                 (* the bus, the storage and the processors *)
  tcpServer : option (Z * TcpLifecycle.Server);    (* with the port *)
  udpServer : option (Z * Z * UdpLifecycle.Server) (* with the port and the size of the buffer *)
}.

Definition loadConfiguration (args : list string) (h : Host) : outcome ConfigLoader.AppConfiguration :=
  let configPath := match args with _ :: path :: _ => path | _ => "config/config.yaml"%string end in
  ConfigLoader.loadConfig configPath (h_exists h configPath) (h_doc h configPath).

Definition set_fds (t : Descriptors.table) (p : Process) : Process :=
  mkProcess t (sys p) (threads p) (handlers p) (observers p) (pool_inits p) (pool_shutdown p) (reported p).
Definition set_threads (th : Threads.t) (s : NUMABinding.Sys) (p : Process) : Process :=
  mkProcess (fds p) s th (handlers p) (observers p) (pool_inits p) (pool_shutdown p) (reported p).
Definition report (line : string) (p : Process) : Process :=
  mkProcess (fds p) (sys p) (threads p) (handlers p) (observers p) (pool_inits p) (pool_shutdown p) (reported p ++ [line]).

(** The pool, the handlers and the observers. *)
Definition register_all (p : Process) : Process :=
  let '(_, st) := Output.clearAllObservers (observers p).2 in
  mkProcess (fds p) (sys p) (threads p) (Handlers.registerDefaultHandlers (handlers p))
    (Output.registerDefaultObservers false st) (pool_inits p + 1) false (reported p).

Definition initializeComponents (config : ConfigLoader.AppConfiguration) (h : Host) (p : Process) : outcome Components :=
  let bus := EventBus.initial ∅ (h_metrics h) in
  let table := (TopicTable.loadFromFile (h_topics h) ∅).2 in
  let path := ConfigLoader.storage_path (ConfigLoader.storage config) in
  storage ← StorageEngine.open_storage path "" (h_log h path);
  let deps := ProcessManager.mkDependencies (Some storage) true None 5 in
  let ingestion := ConfigLoader.ingestion config in
  let tcp := ConfigLoader.tcpConfig ingestion in
  let udp := ConfigLoader.udpConfig ingestion in
  Ret (mkComponents (Dispatcher.mkDispatcher bus [] (Some table))
         (ProcessManager.create deps bus (observers p).2 (Output.mkObserved 0 []))
         (if ConfigLoader.tcp_enable tcp
          then Some (ConfigLoader.tcp_port tcp, TcpLifecycle.new_server (fds p)) else None)
         (if ConfigLoader.udp_enable udp
          then Some (ConfigLoader.udp_port udp, Z.min (wrap 64 (ConfigLoader.bufferSize udp)) UdpServer.MAX_UDP_DATAGRAM,
                     UdpLifecycle.new_server (fds p)) else None)).

(** The servers of a process share its descriptors. *)
Definition tcp_in (t : Descriptors.table) (s : TcpLifecycle.Server) : TcpLifecycle.Server :=
  TcpLifecycle.mkServer (TcpLifecycle.isRunning s) (TcpLifecycle.server_fd s) (TcpLifecycle.acceptThread s)
    (TcpLifecycle.accepted s) t.
Definition udp_in (t : Descriptors.table) (s : UdpLifecycle.Server) : UdpLifecycle.Server :=
  UdpLifecycle.mkServer (UdpLifecycle.isRunning s) (UdpLifecycle.server_fd s) (UdpLifecycle.receiveThread s) t.

Definition start_tcp (h : Host) (c : Components) (p : Process) : run (Components * Process) :=
  match tcpServer c with
  | None => Done (c, p)
  | Some (port, s) =>
      let '(sock, b, l) := h_tcp h in
      let with_server s' := (mkComponents (dispatcher c) (engine c) (Some (port, s')) (udpServer c),
                             set_fds (TcpLifecycle.fds s') p) in
      and_then (run_map with_server (TcpLifecycle.start sock b l (Threads.t_tcp (h_threads h)) (tcp_in (fds p) s)))
        (fun '(c, p) => Done (c, report ("TCP server started on port " +:+ pretty port) p))
  end.

Definition start_udp (h : Host) (c : Components) (p : Process) : run (Components * Process) :=
  match udpServer c with
  | None => Done (c, p)
  | Some (port, size, s) =>
      let '(sock, b) := h_udp h in
      let with_server s' := (mkComponents (dispatcher c) (engine c) (tcpServer c) (Some (port, size, s')),
                             set_fds (UdpLifecycle.fds s') p) in
      and_then (run_map with_server (UdpLifecycle.start sock b (Threads.t_udp (h_threads h)) (udp_in (fds p) s)))
        (fun '(c, p) => Done (c, report ("UDP server started on port " +:+ pretty port) p))
  end.

(** The dispatcher and the manager. *)
Definition start_threads (h : Host) (p : Process) : run Process :=
  and_then (run_map (fun th => set_threads th (sys p) p) (Threads.dispatcher_start (h_threads h) (threads p))) (fun p =>
  run_map (fun '(th, s) => set_threads th s p) (Threads.manager_start L (h_tid h) (h_threads h) (threads p) (sys p))).

Definition startComponents (h : Host) (c : Components) (p : Process) : run (Components * Process) :=
  and_then (run_map (pair c) (start_threads h p)) (fun '(c, p) =>
  and_then (start_tcp h c p) (fun '(c, p) => start_udp h c p)).

(** The reverse order: UDP, TCP, the processors, the dispatcher. *)
Definition stopComponents (c : Components) (p : Process) : Components * Process :=
  let '(udp, p) := match udpServer c with
                   | Some (port, size, s) => let s := UdpLifecycle.stop (udp_in (fds p) s) in
                                             (Some (port, size, s), set_fds (UdpLifecycle.fds s) p)
                   | None => (None, p)
                   end in
  let '(tcp, p) := match tcpServer c with
                   | Some (port, s) => let s := TcpLifecycle.stop (tcp_in (fds p) s) in
                                       (Some (port, s), set_fds (TcpLifecycle.fds s) p)
                   | None => (None, p)
                   end in
  let p := set_threads (Threads.manager_stop (threads p)) (sys p) p in
  let p := set_threads (Threads.dispatcher_stop (threads p)) (sys p) p in
  (mkComponents (dispatcher c) (engine c) tcp udp, p).

(** The pool's shutdown and the observers' removal at the end of [main]. *)
Definition shut_globals (p : Process) : Process :=
  mkProcess (fds p) (sys p) (threads p) (handlers p) (Output.clearAllObservers (observers p).2) (pool_inits p) true
    (reported p).

(** The destructors, in the reverse order of the members: the servers, the manager and the dispatcher
    stop again, the storage engine closes its files - [rest] and [rest_dlq] as in
    [StorageEngine.close_file]. *)
Definition destroy_components (rest rest_dlq : list byte) (c : Components) (p : Process)
    : option StorageEngine.Storage * Process :=
  let '(c, p) := stopComponents c p in (StorageEngine.destroy rest rest_dlq <$> storage_ (engine c), p).

(** The part of [main] before its loop; an exception leaves what was done before it.  A thread that cannot be
    created is one, and the destructors of the components run before it is caught. *)
Definition boot (args : list string) (h : Host) (p : Process) : run (outcome Components * Process) :=
  match loadConfiguration args h with
  | Ret config =>
      let p := register_all p in
      match initializeComponents config h p with
      | Ret c => match startComponents h c p with
                 | Done (c, p) => Done (Ret c, p)
                 | Raised what (c, p) => Done (Throw what, (destroy_components [] [] c p).2)
                 | Terminated => Terminated
                 end
      | Throw what => Done (Throw what, p)
      | UB => Done (UB, p)
      end
  | Throw what => Done (Throw what, p)
  | UB => Done (UB, p)
  end.

Inductive exit_code := EXIT_SUCCESS | EXIT_FAILURE.

(** [main]; [service] is what happens until a signal arrives.  None: undefined behaviour. *)
Definition main (args : list string) (h : Host) (service : Components * Process -> Components * Process) (p : Process)
    : run (option exit_code * Process) :=
  match boot args h p with
  | Terminated => Terminated
  | Raised _ (_, p) => Done (Some EXIT_FAILURE, p)
  | Done (UB, p) => Done (None, p)
  | Done (Throw _, p) => Done (Some EXIT_FAILURE, p)
  | Done (Ret c, p) =>
      let '(c, p) := service (c, p) in
      let '(c, p) := stopComponents c p in
      let '(_, p) := destroy_components [] [] c (shut_globals p) in
      Done (Some EXIT_SUCCESS, p)
  end.

(** ** What is built *)

(** Before [main]: no thread but its own, nothing registered. *)
Definition launched (p : Process) : Prop :=
  threads p = Threads.none /\ handlers p = [] /\ observers p = (false, Output.new_stream).

(** The components as built, before they are started. *)
Lemma initialize_idle config h p c :
  MetricRegistry.metrics_map_ (h_metrics h) = ∅ -> initializeComponents config h p = Ret c ->
  exists old s, h_log h (ConfigLoader.storage_path (ConfigLoader.storage config)) = Some old /\
    Delivery.idle old s (dispatcher c) (engine c) /\
    max_processing_ms_ (rt (engine c)) = 5 /\ max_retries_ (txn (engine c)) = 3 /\
    Dispatcher.topic_table_ (dispatcher c) = Some (TopicTable.loadFromFile (h_topics h) ∅).2 /\
    stream (engine c) = (observers p).2 /\ Engine.at_rest (engine c).
Proof.
  intros Hm. unfold initializeComponents. rewrite outcome_bind_ret. intros (s & Hs & [= <-]).
  unfold StorageEngine.open_storage in Hs.
  destruct (h_log h _) as [old|]; [|done]. injection Hs as <-. exists old.
  set (st := StorageEngine.mkStorage _ _ _ _ _ _ _). exists st. split; [done|]. split.
  2: { split_and!; try done. split; [|done]. exists 0. split; [lia|]. apply EventBus.initial_sim. }
  assert (Hl : StorageEngine.log_ok old [] st).
  { exists [], []. cbn. rewrite app_nil_r. by split_and!. }
  assert (Hc : forall n, metrics_of n (ProcessManager.create (ProcessManager.mkDependencies (Some st) true None 5)
             (EventBus.initial ∅ (h_metrics h)) (observers p).2 (Output.mkObserved 0 [])) = new_metrics).
  { intros n. unfold metrics_of. cbn. rewrite Hm. by rewrite lookup_empty. }
  split; try done.
  - exists 0. apply EventBus.initial_sim.
  - split; try done; unfold processed, dropped; try (cbn [engine]; by rewrite Hc).
    intros a al seen. cbn. by intros [= <-].
  - split; try done; unfold processed, dropped; try (cbn [engine]; by rewrite Hc).
    exists (Z.to_nat Dedup.DEFAULT_BUCKETS). split; [|done]. unfold Dedup.DEFAULT_BUCKETS. lia.
Qed.

(** What the start of a server changes. *)
Record server_start (c c' : Components) (p p' : Process) : Prop := {
  ss_dispatcher : dispatcher c' = dispatcher c;
  ss_engine : engine c' = engine c;
  ss_threads : threads p' = threads p;
  ss_handlers : handlers p' = handlers p;
  ss_observers : observers p' = observers p;
  ss_pool : pool_inits p' = pool_inits p;
  ss_tcp : fst <$> tcpServer c' = fst <$> tcpServer c;
  ss_udp : fst <$> udpServer c' = fst <$> udpServer c
}.

Lemma server_start_trans c1 c2 c3 p1 p2 p3 : server_start c1 c2 p1 p2 -> server_start c2 c3 p2 p3 -> server_start c1 c3 p1 p3.
Proof. intros [] []. split; by etrans. Qed.

Lemma start_tcp_changes h c p c' p' : state_of (start_tcp h c p) = Some (c', p') -> server_start c c' p p'.
Proof.
  unfold start_tcp. destruct (tcpServer c) as [[port s]|] eqn:Et; [|by intros [= <- <-]].
  destruct (h_tcp h) as [[a b] l]. destruct (TcpLifecycle.start a b l _ _); cbn; intros [= <- <-]; split; cbn; by rewrite ?Et.
Qed.

Lemma start_udp_changes h c p c' p' : state_of (start_udp h c p) = Some (c', p') -> server_start c c' p p'.
Proof.
  unfold start_udp. destruct (udpServer c) as [[[port size] s]|] eqn:Eu; [|by intros [= <- <-]].
  destruct (h_udp h) as [a b]. destruct (UdpLifecycle.start a b _ _); cbn; intros [= <- <-]; split; cbn; by rewrite ?Eu.
Qed.

Lemma start_threads_changes h p p' : state_of (start_threads h p) = Some p' ->
  fds p' = fds p /\ handlers p' = handlers p /\ observers p' = observers p /\ pool_inits p' = pool_inits p.
Proof.
  unfold start_threads. intros [(what & Hr)|(p1 & Hd & Hm)]%state_of_and_then.
  - destruct (Threads.dispatcher_start _ _); cbn in Hr; try done. by injection Hr as _ <-.
  - apply run_map_Done in Hd as (th & _ & ->). apply state_of_map in Hm as ([th' s] & _ & ->). done.
Qed.

(** From a process without engine threads, and where every thread can be created. *)
Lemma start_threads_all h p p' : start_threads h p = Done p' -> threads p' = Threads.all.
Proof.
  unfold start_threads, Threads.dispatcher_start, Threads.manager_start.
  intros (p1 & (th & Hd & ->)%run_map_Done & ([th' s] & Hm & ->)%run_map_Done)%and_then_Done.
  unfold assign_thread in Hd. destruct (Threads.t_dispatcher _), (Threads.dispatcher_worker _); try done. injection Hd as <-.
  apply and_then_Done in Hm as ([th1 s1] & H1 & Hm). unfold assign_thread in H1.
  destruct (Threads.t_realtime _), (Threads.realtimeThread_ _); try done. injection H1 as <- <-.
  apply and_then_Done in Hm as ([th2 s2] & H2 & Hm). unfold assign_thread in H2.
  destruct (Threads.t_transactional _), (Threads.transactionalThread_ _); try done. injection H2 as <- <-.
  unfold assign_thread in Hm. destruct (Threads.t_batch _), (Threads.batchThread_ _); try done. by injection Hm as <- <-.
Qed.

(** Starting leaves the engine and the dispatcher as they are. *)
Lemma start_servers h c p c' p' :
  startComponents h c p = Done (c', p') ->
  threads p' = Threads.all /\ exists p1, start_threads h p = Done p1 /\ server_start c c' p1 p'.
Proof.
  unfold startComponents. intros ([c1 p1] & (p2 & Ht & [= -> ->])%run_map_Done & ([c2 p2'] & H1 & H2)%and_then_Done)%and_then_Done.
  assert (Hs : server_start c c' p2 p').
  { eapply server_start_trans; [apply (start_tcp_changes h); by rewrite H1|apply (start_udp_changes h); by rewrite H2]. }
  split; [|by exists p2]. rewrite (ss_threads _ _ _ _ Hs). by eapply start_threads_all.
Qed.

Lemma tcp_never_terminates a b l thr s :
  TcpLifecycle.acceptThread s = false -> TcpLifecycle.start a b l thr s <> Terminated.
Proof. intros Ha. unfold TcpLifecycle.start. destruct (Descriptors.opened _ _ _). rewrite Ha, assign_free. by repeat case_match. Qed.
Lemma udp_never_terminates a b thr s :
  UdpLifecycle.receiveThread s = false -> UdpLifecycle.start a b thr s <> Terminated.
Proof. intros Ha. unfold UdpLifecycle.start. destruct (Descriptors.opened _ _ _). rewrite Ha, assign_free. by repeat case_match. Qed.

Lemma threads_never_terminate h p : threads p = Threads.none -> start_threads h p <> Terminated.
Proof.
  intros Hth. unfold start_threads, Threads.dispatcher_start, Threads.manager_start. rewrite Hth. cbn [Threads.dispatcher_worker Threads.none].
  unfold assign_thread. destruct (Threads.t_dispatcher _); [done|]. cbn -[NUMABinding.bindThread].
  destruct (Threads.t_realtime _); [done|]. cbn -[NUMABinding.bindThread].
  destruct (Threads.t_transactional _); [done|]. cbn -[NUMABinding.bindThread]. by destruct (Threads.t_batch _).
Qed.

Lemma start_tcp_udp h c p c' p' : state_of (start_tcp h c p) = Some (c', p') -> udpServer c' = udpServer c.
Proof.
  unfold start_tcp. destruct (tcpServer c) as [[port s1]|]; [|by intros [= <- <-]].
  destruct (h_tcp h) as [[a b] l]. by destruct (TcpLifecycle.start a b l _ _); cbn; intros [= <- <-].
Qed.

(** New components start in a process without engine threads. *)
Lemma start_returns config h p c :
  threads p = Threads.none -> initializeComponents config h p = Ret c -> startComponents h c p <> Terminated.
Proof.
  intros Hth Ei. unfold initializeComponents in Ei. apply outcome_bind_ret in Ei as (s & _ & [= <-]).
  unfold startComponents. pose proof (threads_never_terminate h p Hth) as Ht.
  destruct (start_threads h p) as [p1|what p1|]; [|done|done]. cbn [run_map and_then].
  match goal with |- context [start_tcp h ?c0 p1] => set (c := c0) end.
  assert (Htcp : start_tcp h c p1 <> Terminated).
  { unfold start_tcp, c. cbn [tcpServer]. destruct (ConfigLoader.tcp_enable _); [|done]. destruct (h_tcp h) as [[a b] l].
    destruct (TcpLifecycle.start a b l _ _) eqn:Es; [done|done|by apply tcp_never_terminates in Es]. }
  destruct (start_tcp h c p1) as [[c1 p2]|what [c1 p2]|] eqn:Es; [|done|done]. cbn [and_then].
  assert (Hu : udpServer c1 = udpServer c) by (apply (start_tcp_udp h c p1 c1 p2); by rewrite Es).
  unfold start_udp. rewrite Hu. unfold c. cbn [udpServer]. destruct (ConfigLoader.udp_enable _); [|done].
  destruct (h_udp h) as [ua ub]. destruct (UdpLifecycle.start ua ub _ _) eqn:Eu; [done|done|by apply udp_never_terminates in Eu].
Qed.

Lemma boot_returns args h p : launched p -> boot args h p <> Terminated.
Proof.
  intros (Hth & _ & _). unfold boot. destruct (loadConfiguration args h) as [config| |]; [|done..].
  destruct (initializeComponents config h (register_all p)) as [c| |] eqn:Ei; [|done..].
  apply start_returns in Ei; [|exact Hth]. by destruct (startComponents h c (register_all p)) as [[]|what []|].
Qed.

(** C18: what [main] has built when its loop begins is an engine at rest on the storage file - empty queues,
    normal pressure, no event seen by any processor, whatever the file held before - with the default
    handlers and observers, the topic table of the file, three retries and a limit of 5 ms; its four threads run; a
    server is there exactly when the configuration enables it, on the configured port.  It meets the conditions of the
    theorems on deliveries and on schedules. *)
Theorem startup_wires_engine args h p c p' :
  launched p -> MetricRegistry.metrics_map_ (h_metrics h) = ∅ -> boot args h p = Done (Ret c, p') ->
  exists config old s, loadConfiguration args h = Ret config /\
    h_log h (ConfigLoader.storage_path (ConfigLoader.storage config)) = Some old /\
    Delivery.idle old s (dispatcher c) (engine c) /\
    max_processing_ms_ (rt (engine c)) = 5 /\ max_retries_ (txn (engine c)) = 3 /\
    Dispatcher.topic_table_ (dispatcher c) = Some (TopicTable.loadFromFile (h_topics h) ∅).2 /\
    handlers p' = Handlers.registerDefaultHandlers [] /\
    stream (engine c) = (Output.registerDefaultObservers false Output.new_stream).2 /\
    threads p' = Threads.all /\ Engine.at_rest (engine c) /\ Safety.tame (handlers p') /\
    (let tcp := ConfigLoader.tcpConfig (ConfigLoader.ingestion config) in
     fst <$> tcpServer c = if ConfigLoader.tcp_enable tcp then Some (ConfigLoader.tcp_port tcp) else None) /\
    (let udp := ConfigLoader.udpConfig (ConfigLoader.ingestion config) in
     fst <$> udpServer c = if ConfigLoader.udp_enable udp
       then Some (ConfigLoader.udp_port udp, Z.min (wrap 64 (ConfigLoader.bufferSize udp)) 65507) else None).
Proof.
  intros (Hth & Hh & Hob) Hm. unfold boot. destruct (loadConfiguration args h) as [config| |] eqn:El; [|done..].
  destruct (initializeComponents config h (register_all p)) as [c0| |] eqn:Ei; [|done..].
  destruct (startComponents h c0 (register_all p)) as [[c1 p1]|what [c1 p1]|] eqn:Es; [|done..]. intros [= <- <-].
  destruct (initialize_idle config h _ c0 Hm Ei) as (old & s & Hlog & Hidle & Hms & Hre & Htab & Hst & Hrest).
  destruct (start_servers h c0 _ _ _ Es) as (Hth' & p2 & Hst2 & [Hd He _ Hh' _ _ Htcp Hudp]).
  destruct (start_threads_changes h (register_all p) p2) as (_ & Hh2 & _); [by rewrite Hst2|].
  exists config, old, s. rewrite Hd, He, Htcp, Hudp, Hh', Hh2, Hst. cbn. rewrite Hh, Hob.
  apply outcome_bind_ret in Ei as (s0 & _ & [= <-]). split_and!; try done; cbn.
  - apply Safety.defaults_tame.
  - by destruct (ConfigLoader.tcp_enable _).
  - by destruct (ConfigLoader.udp_enable _).
Qed.

(** Every thread that is asked for can be created; a server without its port asks for none. *)
Definition all_created (config : ConfigLoader.AppConfiguration) (h : Host) : Prop :=
  let sp := h_threads h in let ingestion := ConfigLoader.ingestion config in
  Threads.t_dispatcher sp = None /\ Threads.t_realtime sp = None /\ Threads.t_transactional sp = None /\
  Threads.t_batch sp = None /\
  (ConfigLoader.tcp_enable (ConfigLoader.tcpConfig ingestion) = true ->
     (let '(a, b, l) := h_tcp h in TcpLifecycle.bound a b l) = true -> Threads.t_tcp sp = None) /\
  (ConfigLoader.udp_enable (ConfigLoader.udpConfig ingestion) = true ->
     (let '(a, b) := h_udp h in UdpLifecycle.bound a b) = true -> Threads.t_udp sp = None).

Lemma threads_created h p : threads p = Threads.none ->
  (exists p', start_threads h p = Done p') <->
  Threads.t_dispatcher (h_threads h) = None /\ Threads.t_realtime (h_threads h) = None /\
  Threads.t_transactional (h_threads h) = None /\ Threads.t_batch (h_threads h) = None.
Proof.
  intros Hth. unfold start_threads, Threads.dispatcher_start, Threads.manager_start. rewrite Hth. unfold assign_thread.
  destruct (h_threads h) as [[] [] [] [] t u]; cbn -[NUMABinding.bindThread];
    (split; [by intros [? ?]|by intros (? & ? & ? & ?)]) || (split; [done|by eexists]).
Qed.

Lemma start_created config h p c : threads p = Threads.none -> initializeComponents config h p = Ret c ->
  (exists c' p', startComponents h c p = Done (c', p')) <-> all_created config h.
Proof.
  intros Hth Ei. unfold initializeComponents in Ei. apply outcome_bind_ret in Ei as (s & _ & [= <-]).
  pose proof (threads_created h p Hth) as Hiff. unfold startComponents, all_created.
  match goal with |- context [run_map (pair ?c0)] => set (c := c0) end.
  split.
  - intros (c' & p' & ([c1 p1] & (p2 & Ht & [= -> ->])%run_map_Done & ([c2 p3] & H1 & H2)%and_then_Done)%and_then_Done).
    destruct (proj1 Hiff (ex_intro _ _ Ht)) as (? & ? & ? & ?). split_and!; try done.
    + intros Hen. revert H1. unfold start_tcp, c. cbn [tcpServer]. rewrite Hen. destruct (h_tcp h) as [[a b] l].
      intros ([c3 p4] & (s' & Hs & _)%run_map_Done & _)%and_then_Done.
      by apply (TcpLifecycle.tcp_start_returns a b l _ (tcp_in (fds p2) (TcpLifecycle.new_server (fds p)))); [|eexists].
    + assert (Hu : udpServer c2 = udpServer c) by (apply (start_tcp_udp h c p2 c2 p3); by rewrite H1).
      intros Hen. revert H2. unfold start_udp. rewrite Hu. unfold c. cbn [udpServer]. rewrite Hen. destruct (h_udp h) as [a b].
      intros ([c3 p4] & (s' & Hs & _)%run_map_Done & _)%and_then_Done.
      by apply (UdpLifecycle.udp_start_returns a b _ (udp_in (fds p3) (UdpLifecycle.new_server (fds p)))); [|eexists].
  - intros (H1 & H2 & H3 & H4 & Ht & Hu). destruct (proj2 Hiff (conj H1 (conj H2 (conj H3 H4)))) as [p1 ->].
    cbn [run_map and_then].
    assert (Htcp : exists c1 p2, start_tcp h c p1 = Done (c1, p2) /\ udpServer c1 = udpServer c).
    { unfold start_tcp, c. cbn [tcpServer]. destruct (ConfigLoader.tcp_enable _); [|by eexists _, _].
      specialize (Ht eq_refl). destruct (h_tcp h) as [[a b] l].
      apply (TcpLifecycle.tcp_start_returns a b l _ (tcp_in (fds p1) (TcpLifecycle.new_server (fds p)))) in Ht as [s' ->]; [|done].
      by eexists _, _. }
    destruct Htcp as (c1 & p2 & -> & Hc1). cbn [and_then]. unfold start_udp. rewrite Hc1. unfold c. cbn [udpServer].
    destruct (ConfigLoader.udp_enable _); [|by eexists _, _]. specialize (Hu eq_refl). destruct (h_udp h) as [a b].
    apply (UdpLifecycle.udp_start_returns a b _ (udp_in (fds p2) (UdpLifecycle.new_server (fds p)))) in Hu as [s' ->]; [|done].
    by eexists _, _.
Qed.

Lemma destroy_threads rest rest_dlq c p : threads (destroy_components rest rest_dlq c p).2 = Threads.none.
Proof.
  unfold destroy_components, stopComponents. by destruct (udpServer c) as [[[? ?] ?]|], (tcpServer c) as [[? ?]|].
Qed.

(** [main] never ends the process abnormally; its exit code is success exactly when the configuration loads,
    the storage file can be opened and the threads can be created - whether or not a server could bind its port -
    and whatever it is, no thread of the engine is left. *)
Theorem main_exit_code args h service p :
  launched p ->
  exists code p', main args h service p = Done (code, p') /\
    (code = Some EXIT_SUCCESS <->
       exists config, loadConfiguration args h = Ret config /\
         is_Some (h_log h (ConfigLoader.storage_path (ConfigLoader.storage config))) /\ all_created config h) /\
    threads p' = Threads.none /\
    (code = None <-> loadConfiguration args h = UB).
Proof.
  intros Hl. pose proof (boot_returns args h p Hl) as Hb. destruct Hl as (Hth & _ & _). unfold main, boot in *.
  destruct (loadConfiguration args h) as [config| |].
  2: { eexists _, _. split; [done|]. split_and!; [|done|done]. split; [done|]. by intros (? & ? & _). }
  2: { eexists _, _. split; [done|]. split_and!; [|done|done]. split; [done|]. by intros (? & ? & _). }
  destruct (initializeComponents config h (register_all p)) as [c| |] eqn:Ei.
  - pose proof (start_created config h (register_all p) c Hth Ei) as Hc.
    assert (Hlog : is_Some (h_log h (ConfigLoader.storage_path (ConfigLoader.storage config)))).
    { revert Ei. unfold initializeComponents, StorageEngine.open_storage. by destruct (h_log h _). }
    destruct (startComponents h c (register_all p)) as [[c1 p1]|what [c1 p1]|]; [| |done].
    + destruct (service (c1, p1)) as [c2 p2]. destruct (stopComponents c2 p2) as [c3 p3].
      pose proof (destroy_threads [] [] c3 (shut_globals p3)) as Ht.
      destruct (destroy_components _ _ _ _) as [log p4]. eexists _, _. split; [done|]. split_and!; [|done|done].
      split; [|done]. intros _. exists config. split_and!; [done|done|]. apply Hc. by eexists _, _.
    + eexists _, _. split; [done|]. split_and!; [|apply destroy_threads|done]. split; [done|].
      intros (config' & [= <-] & _ & Hall). by apply Hc in Hall as (? & ? & ?).
  - unfold initializeComponents, StorageEngine.open_storage in Ei. destruct (h_log h _) as [old|] eqn:Hlog; [done|].
    eexists _, _. split; [done|]. split_and!; [|done|done].
    split; [done|]. intros (config' & [= <-] & [old Hold] & _). congruence.
  - unfold initializeComponents, StorageEngine.open_storage in Ei. by destruct (h_log h _).
Qed.

(** ** The descriptors over a whole run *)

(** What goes on until the signal: clients of the TCP server come and go, events are processed. *)
Inductive serves : Components * Process -> Components * Process -> Prop :=
| serves_tcp c p port s e : tcpServer c = Some (port, s) -> TcpLifecycle.possible e (tcp_in (fds p) s) ->
    let s' := TcpLifecycle.on_event e (tcp_in (fds p) s) in
    serves (c, p) (mkComponents (dispatcher c) (engine c) (Some (port, s')) (udpServer c), set_fds (TcpLifecycle.fds s') p)
| serves_work c p d w : serves (c, p) (mkComponents d w (tcpServer c) (udpServer c), p).

(** The table without the TCP server's part. *)
Definition with_udp (base : Descriptors.table) (c : Components) : Descriptors.table :=
  match udpServer c with
  | Some (_, _, u) => if UdpLifecycle.server_fd u =? -1 then base
                      else <[UdpLifecycle.server_fd u := Descriptors.Datagram]> base
  | None => base
  end.

Record accounted (base : Descriptors.table) (cp : Components * Process) : Prop := {
  ac_tcp : match tcpServer cp.1 with
           | Some (_, s) => TcpLifecycle.inv (with_udp base cp.1) (tcp_in (fds cp.2) s)
           | None => fds cp.2 = with_udp base cp.1
           end;
  ac_udp : match udpServer cp.1 with
           | Some (_, _, u) => UdpLifecycle.server_fd u <> -1 -> base !! UdpLifecycle.server_fd u = None
           | None => True
           end
}.

Lemma serves_accounted base cp cp' : accounted base cp -> serves cp cp' -> accounted base cp'.
Proof.
  intros [Ht Hu] Hs. destruct Hs as [c p port s e Hc Hp s'|c p d w]; [|by split].
  cbn [fst snd] in *. rewrite Hc in Ht. split; cbn [fst snd tcpServer udpServer]; [|done].
  pose proof (TcpLifecycle.event_inv _ e _ Ht Hp) as Hi. exact Hi.
Qed.

Lemma stop_accounted base c p : accounted base (c, p) ->
  fds (stopComponents c p).2 = base /\ threads (stopComponents c p).2 = Threads.none.
Proof.
  intros [Ht Hu]. cbn [fst snd] in *. unfold stopComponents, with_udp in *.
  assert (Hth : forall q, threads (set_threads (Threads.dispatcher_stop (Threads.manager_stop (threads q))) (sys q) q) = Threads.none)
    by done.
  destruct (udpServer c) as [[[uport size] u]|].
  - unfold UdpLifecycle.stop. cbn [udp_in UdpLifecycle.server_fd UdpLifecycle.fds].
    destruct (tcpServer c) as [[port s]|].
    + split; [|done]. cbn -[TcpLifecycle.stop]. apply TcpLifecycle.stop_fds.
      destruct (Z.eqb_spec (UdpLifecycle.server_fd u) (-1)) as [He|Hne]; [exact Ht|].
      destruct Ht as [Ho Hi Hc]. split; try done. cbn [fds set_fds TcpLifecycle.fds tcp_in] in *.
      unfold Descriptors.closeSocket. rewrite (proj2 (Z.eqb_neq _ _) Hne).
      eapply Descriptors.owns_shrink; [exact Ho|by apply Hu].
    + split; [|done]. cbn. rewrite Ht. unfold Descriptors.closeSocket.
      destruct (Z.eqb_spec (UdpLifecycle.server_fd u) (-1)) as [He|Hne]; [done|].
      apply Descriptors.close_opened. by apply Hu.
  - destruct (tcpServer c) as [[port s]|]; (split; [|done]); [|exact Ht]. cbn -[TcpLifecycle.stop].
    by apply TcpLifecycle.stop_fds.
Qed.

(** The components once stopped hold nothing, and can be stopped again. *)
Lemma stopped_accounted base c p : accounted base (c, p) -> accounted base (stopComponents c p).
Proof.
  intros Ha. pose proof (stop_accounted base c p Ha) as [Hf _]. unfold stopComponents in *.
  destruct (udpServer c) as [[[uport size] u]|], (tcpServer c) as [[port s]|];
    split; cbn -[TcpLifecycle.stop] in *; unfold with_udp; cbn -[TcpLifecycle.stop]; try done.
  - rewrite Hf. split; [apply Descriptors.owns_nil|done|done].
  - rewrite Hf. split; [apply Descriptors.owns_nil|done|done].
Qed.

Lemma destroy_accounted base rest rest_dlq c p : accounted base (c, p) ->
  fds (destroy_components rest rest_dlq c p).2 = base /\ threads (destroy_components rest rest_dlq c p).2 = Threads.none.
Proof.
  intros Ha. apply stop_accounted in Ha. unfold destroy_components. by destruct (stopComponents c p).
Qed.

Lemma shut_globals_accounted base c p : accounted base (c, p) -> accounted base (c, shut_globals p).
Proof. by intros [Ht Hu]. Qed.

(** The table after [start_tcp]. *)
Definition tcp_table (h : Host) (c : Components) (t : Descriptors.table) : Descriptors.table :=
  match tcpServer c with
  | Some (_, s) => let '(sock, b, l) := h_tcp h in
                   match state_of (TcpLifecycle.start sock b l (Threads.t_tcp (h_threads h)) (tcp_in t s)) with
                   | Some s' => TcpLifecycle.fds s'
                   | None => t
                   end
  | None => t
  end.

(** The kernel's answers are numbers not in use when it gives them. *)
Definition answers_unused (h : Host) (c : Components) (t : Descriptors.table) : Prop :=
  Descriptors.unused t (h_tcp h).1.1 /\ Descriptors.unused (tcp_table h c t) (h_udp h).1.

(** Components as [initializeComponents] leaves them. *)
Definition not_started (c : Components) (t : Descriptors.table) : Prop :=
  (forall port s, tcpServer c = Some (port, s) -> s = TcpLifecycle.new_server t) /\
  (forall port size u, udpServer c = Some (port, size, u) -> u = UdpLifecycle.new_server t).

Lemma initialize_not_started config h p c : initializeComponents config h p = Ret c -> not_started c (fds p).
Proof.
  unfold initializeComponents. rewrite outcome_bind_ret. intros (s & _ & [= <-]). split; cbn.
  - intros port s0. destruct (ConfigLoader.tcp_enable _); [|done]. by intros [= _ <-].
  - intros port size u. destruct (ConfigLoader.udp_enable _); [|done]. by intros [= _ _ <-].
Qed.

Lemma new_server_inv t : TcpLifecycle.inv t (TcpLifecycle.new_server t).
Proof. split; [apply Descriptors.owns_nil|done|done]. Qed.

(** The TCP server among the descriptors [t], before the UDP server is started. *)
Lemma start_tcp_accounted h c p c' p' t :
  fds p = t -> not_started c t -> answers_unused h c t -> state_of (start_tcp h c p) = Some (c', p') ->
  fds p' = tcp_table h c t /\
  match tcpServer c' with
  | Some (_, s) => TcpLifecycle.inv t (tcp_in (fds p') s)
  | None => fds p' = t
  end.
Proof.
  intros Hf [Hn _] [Hu _]. unfold start_tcp, tcp_table. destruct (tcpServer c) as [[port s]|] eqn:Et.
  - rewrite (Hn _ _ eq_refl), Hf. destruct (h_tcp h) as [[sock b] l]. cbn [fst] in Hu.
    assert (Hi : forall s', state_of (TcpLifecycle.start sock b l (Threads.t_tcp (h_threads h))
              (tcp_in t (TcpLifecycle.new_server t))) = Some s' -> TcpLifecycle.inv t (tcp_in (TcpLifecycle.fds s') s')).
    { intros s' Hs. pose proof (TcpLifecycle.tcp_start_inv t sock b l _ _ s' (new_server_inv t) eq_refl Hu Hs) as Hi.
      by destruct s'. }
    destruct (TcpLifecycle.start sock b l _ _) as [s'|what s'|]; cbn [run_map and_then state_of]; [| |done];
      intros [= <- <-]; (split; [done|by apply Hi]).
  - intros [= <- <-]. by rewrite Et.
Qed.

Lemma start_udp_accounted h c p c' p' t :
  (forall port size u, udpServer c = Some (port, size, u) -> u = UdpLifecycle.new_server t) ->
  Descriptors.unused (fds p) (h_udp h).1 ->
  match tcpServer c with
  | Some (_, s) => TcpLifecycle.inv t (tcp_in (fds p) s)
  | None => fds p = t
  end ->
  state_of (start_udp h c p) = Some (c', p') -> accounted t (c', p').
Proof.
  intros Hn Hu Ht. unfold start_udp. destruct (udpServer c) as [[[port size] u]|] eqn:Eu.
  2: { intros [= <- <-]. by split; cbn [fst snd]; unfold with_udp; rewrite Eu. }
  rewrite (Hn _ _ _ eq_refl). destruct (h_udp h) as [sock b]. cbn [fst] in Hu.
  unfold UdpLifecycle.start, Descriptors.opened.
  cbn [UdpLifecycle.fds udp_in UdpLifecycle.receiveThread UdpLifecycle.new_server].
  destruct sock as [fd|]; [|intros [= <- <-]; split; cbn; exact Ht || done].
  destruct Hu as [Hpos Hnew]. rewrite (proj2 (Z.ltb_ge fd 0)) by done.
  assert (Hm : (fd =? -1) = false) by (apply Z.eqb_neq; lia).
  destruct b; cbn [negb].
  - rewrite assign_free.
    enough (Hall : forall b1 p1, fds p1 = <[fd := Descriptors.Datagram]> (fds p) ->
      accounted t (mkComponents (dispatcher c) (engine c) (tcpServer c)
        (Some (port, size, UdpLifecycle.mkServer true fd b1 (<[fd := Descriptors.Datagram]> (fds p)))), p1)).
    { destruct (Threads.t_udp _); cbn; intros [= <- <-]; by apply Hall. }
    intros b1 p1 Hp1. split; cbn [fst snd tcpServer udpServer UdpLifecycle.server_fd with_udp UdpLifecycle.fds]; rewrite ?Hp1.
    + unfold with_udp. cbn [udpServer UdpLifecycle.server_fd]. rewrite Hm. destruct (tcpServer c) as [[tport s]|]; [|by rewrite Ht].
      destruct Ht as [Ho Hi Hc]. split; [|done|done].
      cbn [TcpLifecycle.fds tcp_in]. by apply Descriptors.owns_extend.
    + intros _. destruct (tcpServer c) as [[tport s]|]; [|by rewrite <- Ht].
      destruct Ht as [(_ & _ & Heq) _ _]. cbn [TcpLifecycle.fds tcp_in] in Heq. rewrite Heq in Hnew.
      by apply lookup_union_None in Hnew as [_ Hb].
  - intros [= <- <-]. split; cbn [fst snd tcpServer udpServer UdpLifecycle.server_fd with_udp fds set_fds report UdpLifecycle.fds]; [|done].
    unfold with_udp. cbn [udpServer UdpLifecycle.server_fd]. change (-1 =? -1) with true. cbv iota.
    unfold Descriptors.closeSocket. rewrite Hm. by rewrite Descriptors.close_opened.
Qed.

(** Components whose UDP server is not started. *)
Lemma tcp_accounted t c p : (forall port size u, udpServer c = Some (port, size, u) -> u = UdpLifecycle.new_server t) ->
  match tcpServer c with Some (_, s) => TcpLifecycle.inv t (tcp_in (fds p) s) | None => fds p = t end -> accounted t (c, p).
Proof.
  intros Hn Ht. split; cbn [fst snd]; unfold with_udp; destruct (udpServer c) as [[[port size] u]|] eqn:Eu; try done;
    by rewrite (Hn _ _ _ eq_refl).
Qed.

(** Where [startComponents] returns, and where it throws. *)
Lemma start_accounted h c p c' p' :
  not_started c (fds p) -> answers_unused h c (fds p) -> state_of (startComponents h c p) = Some (c', p') ->
  accounted (fds p) (c', p').
Proof.
  intros Hn Ha. unfold startComponents.
  assert (Hth : forall p1, state_of (start_threads h p) = Some p1 -> fds p1 = fds p) by apply start_threads_changes.
  assert (Hnone : forall p1, fds p1 = fds p -> accounted (fds p) (c, p1)).
  { intros p1 Hf. apply tcp_accounted; [apply Hn|]. rewrite Hf. destruct (tcpServer c) as [[port s]|] eqn:Et; [|done].
    rewrite (proj1 Hn _ _ Et). apply new_server_inv. }
  destruct (start_threads h p) as [p1|what p1|]; cbn [run_map and_then state_of] in *; [|intros [= <- <-]; by apply Hnone, Hth|done].
  specialize (Hth p1 eq_refl). intros Hs.
  assert (Htcp : forall c1 p2, state_of (start_tcp h c p1) = Some (c1, p2) -> udpServer c1 = udpServer c /\ fds p2 = tcp_table h c (fds p) /\
    match tcpServer c1 with Some (_, s) => TcpLifecycle.inv (fds p) (tcp_in (fds p2) s) | None => fds p2 = fds p end).
  { intros c1 p2 H1. split; [by eapply start_tcp_udp|by eapply start_tcp_accounted]. }
  destruct (start_tcp h c p1) as [[c1 p2]|what [c1 p2]|]; [| |done]; destruct (Htcp c1 p2 eq_refl) as (Hudp & Hf & Ht).
  - eapply start_udp_accounted; [|by rewrite Hf; apply Ha|exact Ht|exact Hs]. rewrite Hudp. apply Hn.
  - injection Hs as <- <-. apply tcp_accounted; [|done]. rewrite Hudp. apply Hn.
Qed.

(** What [main] asks of the kernel in the run at hand. *)
Definition kernel_answers (args : list string) (h : Host) (p : Process) : Prop :=
  forall config c, loadConfiguration args h = Ret config -> initializeComponents config h (register_all p) = Ret c ->
  answers_unused h c (fds p).

Lemma served_accounted base cp cp' : rtc serves cp cp' -> accounted base cp -> accounted base cp'.
Proof. induction 1 as [|x y z Hs _ IH]; [done|]. intros Ha. by eapply IH, serves_accounted. Qed.

(** C17: a run of [main] - clients come and go, servers bind or do not, threads can be created or not, events are
    processed in between - leaves the process with exactly the descriptors it started with and no engine
    thread, whatever it served and wherever it failed. *)
Theorem main_restores_descriptors args h service p :
  launched p -> kernel_answers args h p -> (forall cp, rtc serves cp (service cp)) ->
  exists code p', main args h service p = Done (code, p') /\ fds p' = fds p /\ threads p' = Threads.none.
Proof.
  intros Hl Hk Hserve. pose proof (boot_returns args h p Hl) as Hb. destruct Hl as (Hth & _ & _).
  unfold main, boot, kernel_answers in *.
  destruct (loadConfiguration args h) as [config| |]; [|by eexists _, _..].
  specialize (Hk config). destruct (initializeComponents config h (register_all p)) as [c| |] eqn:Ei; [|by eexists _, _..].
  pose proof (start_accounted h c (register_all p)) as Hacc.
  destruct (startComponents h c (register_all p)) as [[c1 p1]|what [c1 p1]|]; [| |done];
    pose proof (Hacc c1 p1 (initialize_not_started _ _ _ _ Ei) (Hk c eq_refl eq_refl) eq_refl) as Ha.
  2: { pose proof (destroy_accounted _ [] [] _ _ Ha) as [Hf Ht]. eexists _, _. by split_and!. }
  specialize (Hserve (c1, p1)). destruct (service (c1, p1)) as [c2 p2].
  apply (served_accounted _ _ _ Hserve), stopped_accounted in Ha.
  destruct (stopComponents c2 p2) as [c3 p3]. apply shut_globals_accounted in Ha.
  pose proof (destroy_accounted _ [] [] _ _ Ha) as [Hf Ht].
  destruct (destroy_components _ _ _ _) as [log p4]. by eexists _, _.
Qed.

End Startup.
End Startup.

(** ** A run on the machine with two nodes *)

Module StartupRun.
Import Startup.

Definition host_with (bind_ok : bool) (udp_thread : spawn) : Host :=
  mkHost (fun _ => true) (fun _ => Ret (sample_doc 9000)) (Some "metrics: BATCH"%string)
    (fun _ => Some []) BusRun.registry0 (Some 5, bind_ok, true) (Some 6, true)
    (Threads.mkSpawns None None None None None udp_thread) 10.

Definition host (bind_ok : bool) : Host := host_with bind_ok None.

Definition process : Process :=
  mkProcess LifecycleRun.stdio sys0 Threads.none [] (false, Output.new_stream) 0 false [].

(** A client connects; it is still there when the signal comes. *)
Definition connect (cp : Components * Process) : Components * Process :=
  match tcpServer cp.1 with
  | Some (port, s) =>
      let s := tcp_in (fds cp.2) s in
      if TcpLifecycle.acceptThread s && bool_decide (TcpLifecycle.fds s !! 7 = None) then
        let s := TcpLifecycle.on_event (TcpServer.Accepted 7) s in
        (mkComponents (dispatcher cp.1) (engine cp.1) (Some (port, s)) (udpServer cp.1), set_fds (TcpLifecycle.fds s) cp.2)
      else cp
  | None => cp
  end.

Lemma connect_serves cp : rtc serves cp (connect cp).
Proof.
  destruct cp as [c p]. unfold connect. cbn [fst snd]. destruct (tcpServer c) as [[port s]|] eqn:Et; [|done].
  destruct (TcpLifecycle.acceptThread _ && _) eqn:E; [|done]. apply andb_true_iff in E as [Ha Hn].
  apply bool_decide_eq_true in Hn. apply rtc_once, serves_tcp; [done|]. split; [done|]. split; [lia|done].
Qed.

Lemma host_answers b thr : kernel_answers ["esc"%string] (host_with b thr) process.
Proof.
  intros config c _ Hi. apply initialize_not_started in Hi as [Ht _]. split; [split; [lia|reflexivity]|].
  unfold tcp_table. destruct (tcpServer c) as [[port s]|]; [|split; [lia|reflexivity]].
  rewrite (Ht _ _ eq_refl). destruct b; (split; [lia|reflexivity]).
Qed.

Definition booted (r : run (outcome Components * Process)) : bool :=
  match r with Done (Ret _, _) => true | _ => false end.

(** The descriptors while the server runs, and the exit code. *)
Definition descriptors_up (b : bool) : option (list (Z * Descriptors.kind)) :=
  match boot two_nodes ["esc"%string] (host b) process with
  | Done (Ret c, p) => Some (map_to_list (fds (connect (c, p)).2))
  | _ => None
  end.

End StartupRun.

Lemma startup_wires_engine_witness :
  exists c p', Startup.boot two_nodes ["esc"%string] (StartupRun.host true) StartupRun.process = Done (Ret c, p') /\
    exists s, Delivery.idle [] s (Startup.dispatcher c) (Startup.engine c).
Proof.
  assert (Hb : StartupRun.booted (Startup.boot two_nodes ["esc"%string] (StartupRun.host true) StartupRun.process) = true)
    by (vm_compute; reflexivity).
  destruct (Startup.boot two_nodes ["esc"%string] (StartupRun.host true) StartupRun.process) as [[[c| |] p']| |] eqn:E;
    try discriminate Hb.
  exists c, p'. split; [reflexivity|].
  destruct (Startup.startup_wires_engine two_nodes ["esc"%string] (StartupRun.host true) StartupRun.process c p')
    as (config & old & s & _ & Hlog & Hidle & _); [done|reflexivity|exact E|].
  injection Hlog as <-. exists s. exact Hidle.
Defined.

Lemma main_exit_code_witness :
  Startup.launched StartupRun.process /\
  exists p', Startup.main two_nodes ["esc"%string] (StartupRun.host false) StartupRun.connect StartupRun.process
             = Done (Some Startup.EXIT_SUCCESS, p').
Proof.
  assert (Hl : Startup.launched StartupRun.process) by done. split; [exact Hl|].
  destruct (Startup.main_exit_code two_nodes ["esc"%string] (StartupRun.host false) StartupRun.connect StartupRun.process Hl)
    as (code & p' & Hm & Hc & _). exists p'. rewrite Hm.
  rewrite (proj2 Hc); [reflexivity|].
  destruct (Startup.loadConfiguration ["esc"%string] (StartupRun.host false)) as [config| |] eqn:E;
    [|vm_compute in E; discriminate E..].
  exists config. split; [reflexivity|]. split; [by eexists|]. by split_and!.
Defined.

Lemma main_restores_descriptors_witness :
  StartupRun.descriptors_up true =
    Some [(7, Descriptors.Client); (5, Descriptors.Listener); (6, Descriptors.Datagram); (2, Descriptors.Other);
          (1, Descriptors.Other); (0, Descriptors.Other)] /\
  exists code p', Startup.main two_nodes ["esc"%string] (StartupRun.host true) StartupRun.connect StartupRun.process
                  = Done (code, p') /\ Startup.fds p' = LifecycleRun.stdio.
Proof.
  split; [vm_compute; reflexivity|].
  destruct (Startup.main_restores_descriptors two_nodes ["esc"%string] (StartupRun.host true) StartupRun.connect
              StartupRun.process) as (code & p' & Hm & Hf & _);
    [done|apply StartupRun.host_answers|apply StartupRun.connect_serves|].
  exists code, p'. split; [exact Hm|exact Hf].
Defined.

(** The thread of the UDP server cannot be created: the components that run are stopped by their destructors, and
    [main] ends with failure and nothing left open. *)
Example refused_thread_unwinds :
  match Startup.main two_nodes ["esc"%string] (StartupRun.host_with true (Some "Resource temporarily unavailable"%string))
          StartupRun.connect StartupRun.process with
  | Done (code, p) => Some (code, (map_to_list (Startup.fds p)).*1, Startup.threads p, Startup.reported p)
  | _ => None
  end = Some (Some Startup.EXIT_FAILURE, [2; 1; 0], Threads.none, ["TCP server started on port 9000"%string]).
Proof. vm_compute. reflexivity. Qed.

(** A server that could not bind its port is reported as started, and [main] goes on without it. *)
Example unbound_server_reported :
  match Startup.boot two_nodes ["esc"%string] (StartupRun.host false) StartupRun.process with
  | Done (Ret c, p) => Some (Startup.reported p, TcpLifecycle.acceptThread ∘ snd <$> Startup.tcpServer c)
  | _ => None
  end = Some (["TCP server started on port 9000"; "UDP server started on port 9000"]%string, Some false).
Proof. vm_compute. reflexivity. Qed.
