(* ===== verification/Bridge.v ===== *)
(** * The C interface: [src/bridge/esccore.cpp], [include/eventstream/bridge/esccore.h]

    Module [Esccore]: the conversion of events, the subscriptions as observers of the
    stream of processed events, the life cycle of the engine with its status codes, and
    the two observability calls, each split where it tests the flag and where it reads
    the engine.  A callback is foreign code: a function of the event and of its own
    state. *)

From S2P Require Import Prelude Event Spsc Dlq Metrics EventBus Output Handlers Config Storage.

Module Esccore.

(** ** Data *)

Inductive esc_status_t := ESC_OK | ESC_ERR_INIT | ESC_ERR_INVALID | ESC_ERR_INTERNAL.

Definition status_code (s : esc_status_t) : Z :=
  match s with ESC_OK => 0 | ESC_ERR_INIT => -1 | ESC_ERR_INVALID => -3 | ESC_ERR_INTERNAL => -99 end.

#[global] Instance esc_status_eq_dec : EqDecision esc_status_t.
Proof. solve_decision. Defined.

Inductive esc_priority_t :=
| ESC_PRIORITY_BATCH | ESC_PRIORITY_LOW | ESC_PRIORITY_MEDIUM | ESC_PRIORITY_HIGH | ESC_PRIORITY_CRITICAL.

Definition esc_priority_code (p : esc_priority_t) : Z :=
  match p with
  | ESC_PRIORITY_BATCH => 0 | ESC_PRIORITY_LOW => 1 | ESC_PRIORITY_MEDIUM => 2
  | ESC_PRIORITY_HIGH => 3 | ESC_PRIORITY_CRITICAL => 4
  end.

Record esc_event_t := mkEscEvent {
  x_id : Z; x_priority : Z; x_topic : list byte; x_body : list byte; x_body_len : Z
}.

(** The topic is read up to its first NUL. *)
Definition toExternal (e : Event) : esc_event_t :=
  mkEscEvent (id (header e)) (priority_code (priority (header e)))
    (StorageEngine.c_string (String.list_byte_of_string (topic e))) (body e) (zlen (body e)).

(** The name a priority has on either side of the interface; the cast between the enumerations, which goes by
    the codes, keeps it. *)
Definition priority_name (p : EventPriority) : esc_priority_t :=
  match p with
  | BATCH => ESC_PRIORITY_BATCH | LOW => ESC_PRIORITY_LOW | MEDIUM => ESC_PRIORITY_MEDIUM
  | HIGH => ESC_PRIORITY_HIGH | CRITICAL => ESC_PRIORITY_CRITICAL
  end.

Lemma toExternal_priority e q :
  x_priority (toExternal e) = esc_priority_code q <-> q = priority_name (priority (header e)).
Proof. cbn. destruct (priority (header e)), q; cbn; split; (done || lia). Qed.

(** ** Subscriptions *)

Section Subscribe.
(** The state of a subscriber's callback, and the callback: its return value and new state. *)
Context {U : Type} (cb : esc_event_t -> U -> Z * U).

(** An [EscObserver]: the flag [active] and what the callback keeps. *)
Record EscObserver := mkEscObserver { active : bool; user_data : U }.

(** [evt.topic.compare(0, prefix.size(), prefix) == 0] or an empty prefix. *)
Definition matches (prefix : string) (e : Event) : bool :=
  bool_decide (prefix = ""%string) || String.prefix prefix (topic e).

(** The lambda [esccore_subscribe] registers. *)
Definition on_processed (prefix : string) (e : Event) (u : U) : Z * U :=
  if negb (matches prefix e) then (0, u) else cb (toExternal e) u.

Definition onEventProcessed (prefix : string) (e : Event) (o : EscObserver) : EscObserver :=
  if negb (active o) then o else
  let '(rc, u) := on_processed prefix e (user_data o) in
  mkEscObserver (if negb (rc =? 0) then false else active o) u.

(** The subscriptions, by the order they were made. *)
Abbreviation subs := (list EscObserver).

Definition observer (k : nat) (prefix : string) : Output.Observer (S := subs) :=
  Output.mkObserver
    (fun s => match s !! k with Some o => active o | None => false end)
    (fun e _ s => alter (onEventProcessed prefix e) k s)
    (fun _ _ _ s => s).

(** [cb] null or not; a null prefix is the empty one. *)
Definition esccore_subscribe (initialised : bool) (prefix : option string) (has_cb : bool) (u : U)
    (st : Output.Stream (S := subs)) (s : subs) : esc_status_t * Output.Stream (S := subs) * subs :=
  if negb initialised then (ESC_ERR_INIT, st, s)
  else if negb has_cb then (ESC_ERR_INVALID, st, s)
  else (ESC_OK, Output.subscribe (Some (observer (length s) (default ""%string prefix))) st,
        s ++ [mkEscObserver true u]).

(** ** What a subscriber receives *)

(** The processed events the pipeline announces, with the processor's name. *)
Definition announce (evts : list (Event * string)) (st : Output.Stream (S := subs)) (s : subs)
    : Output.Stream (S := subs) * subs :=
  fold_left (fun '(st, s) ep => Output.notifyProcessed ep.1 ep.2 Output.quiet st s) evts (st, s).

(** The contract: the matching events in order, until the callback returns non-zero. *)
Fixpoint delivered (prefix : string) (evts : list Event) (u : U) : bool * U :=
  match evts with
  | [] => (true, u)
  | e :: evts' =>
      if matches prefix e then
        let '(rc, u') := cb (toExternal e) u in
        if rc =? 0 then delivered prefix evts' u' else (false, u')
      else delivered prefix evts' u
  end.

(** [st] is the stream with the subscriptions of [prefixes], of which only inactive ones are missing. *)
Definition subscribed (prefixes : list string) (st : Output.Stream (S := subs)) (s : subs) : Prop :=
  Output.enabled_ st = true /\ length s = length prefixes /\
  exists ks, Output.observers_snapshot_ st = map (fun k => observer k (nth k prefixes ""%string)) ks /\
    NoDup ks /\ Forall (fun k => (k < length s)%nat) ks /\
    forall k o, s !! k = Some o -> active o = true -> k ∈ ks.

Lemma inactive_unchanged prefix e o : active o = false -> onEventProcessed prefix e o = o.
Proof. unfold onEventProcessed. by intros ->. Qed.

(** A notification runs each listed subscriber once. *)
Lemma loop_each prefixes e proc ks b (s : subs) :
  NoDup ks ->
  let r := Output.notify_loop (fun o => Output.onEventProcessed o e proc)
             (map (fun k => observer k (nth k prefixes ""%string)) ks) b s in
  length r.2 = length s /\
  forall k, r.2 !! k = if decide (k ∈ ks) then onEventProcessed (nth k prefixes ""%string) e <$> s !! k else s !! k.
Proof.
  revert b s; induction ks as [|j ks IH]; intros b s Hnd; [done|]. apply NoDup_cons in Hnd as [Hj Hnd].
  cbn [map Output.notify_loop]. cbn [Output.isActive observer Output.onEventProcessed].
  assert (Hinact : match s !! j with Some o => active o | None => false end = false ->
            forall k, (if decide (k = j) then onEventProcessed (nth k prefixes ""%string) e <$> s !! k else s !! k) = s !! k).
  { intros Hi k. case_decide as Hk; [subst|done]. destruct (s !! j) as [o|]; [|done]. cbn. by rewrite inactive_unchanged. }
  destruct (match s !! j with Some o => active o | None => false end).
  - specialize (IH b (alter (onEventProcessed (nth j prefixes ""%string) e) j s) Hnd) as [Hlen Hk].
    split; [by rewrite Hlen, length_alter|]. intros k. rewrite Hk. destruct (decide (k = j)) as [->|Hne].
    + rewrite decide_False by done. rewrite (decide_True (P := j ∈ j :: ks)) by left. apply list_lookup_alter_eq.
    + rewrite list_lookup_alter_ne by done. repeat case_decide; set_solver.
  - specialize (IH true s Hnd) as [Hlen Hk]. split; [done|]. intros k. rewrite Hk.
    specialize (Hinact eq_refl k). destruct (decide (k = j)) as [->|Hne].
    + rewrite decide_False by done. rewrite (decide_True (P := j ∈ j :: ks)) by left. done.
    + repeat case_decide; set_solver.
Qed.

Lemma filter_observers prefixes (s : subs) ks :
  List.filter (fun o => Output.isActive o s) (map (fun k => observer k (nth k prefixes ""%string)) ks) =
  map (fun k => observer k (nth k prefixes ""%string))
    (List.filter (fun k => match s !! k with Some o => active o | None => false end) ks).
Proof.
  induction ks as [|k ks IH]; [done|]. cbn [map List.filter Output.isActive observer].
  destruct (match s !! k with Some o => active o | None => false end); cbn [map]; by rewrite IH.
Qed.

(** One notification: every subscriber, active or not, makes its own step. *)
Lemma notify_step prefixes e proc st s :
  subscribed prefixes st s ->
  let r := Output.notifyProcessed e proc Output.quiet st s in
  subscribed prefixes r.1 r.2 /\
  forall k, r.2 !! k = onEventProcessed (nth k prefixes ""%string) e <$> s !! k.
Proof.
  intros (Hen & Hlen & ks & Hks & Hnd & Hlt & Hact). unfold Output.notifyProcessed, Output.notify. rewrite Hen, Hks.
  assert (Hmiss : forall k, k ∉ ks -> onEventProcessed (nth k prefixes ""%string) e <$> s !! k = s !! k).
  { intros k Hk. destruct (s !! k) as [o|] eqn:Eo; [|done]. cbn. rewrite inactive_unchanged; [done|].
    destruct (active o) eqn:Ea; [|done]. exfalso. by apply Hk, (Hact k o). }
  pose proof (loop_each prefixes e proc ks false s Hnd) as [Hl Hk].
  destruct ks as [|j ks']; cbn [map].
  { cbn [fst snd]. split; [|intros k; rewrite Hmiss by set_solver; done].
    split; [done|]. split; [done|]. exists []. by split_and!. }
  set (ks := j :: ks') in *. change (observer j _ :: map _ ks') with (map (fun k => observer k (nth k prefixes ""%string)) ks).
  destruct (Output.notify_loop _ _ false s) as [prune s']. cbn [snd fst Output.quiet] in *.
  assert (Hall : forall k, s' !! k = onEventProcessed (nth k prefixes ""%string) e <$> s !! k).
  { intros k. rewrite Hk. case_decide; [done|]. symmetry. by apply Hmiss. }
  split; [|done].
  assert (Hback : forall k o', s' !! k = Some o' -> active o' = true -> k ∈ ks).
  { intros k o' Ho Ha. rewrite Hall in Ho. apply fmap_Some in Ho as (o & Ho & ->). apply (Hact k o Ho).
    destruct (active o) eqn:Ea; [done|]. rewrite inactive_unchanged in Ha by done. congruence. }
  destruct prune.
  - destruct (Output.prune_observers s' (Output.quiet st)) as [Hobs Hen'].
    split; [by rewrite Hen'|]. split; [by rewrite Hl|].
    exists (List.filter (fun k => match s' !! k with Some o => active o | None => false end) ks).
    split; [rewrite Hobs; unfold Output.quiet; rewrite Hks; apply (filter_observers prefixes s' ks)|].
    split; [by apply NoDup_ListNoDup, List.NoDup_filter, NoDup_ListNoDup|].
    split.
    + apply Forall_forall. intros k Hk'. apply list_elem_of_In, filter_In in Hk' as [Hk' _].
      rewrite Forall_forall in Hlt. rewrite Hl. apply Hlt. by apply list_elem_of_In.
    + intros k o' Ho Ha. apply list_elem_of_In, filter_In. split; [by apply list_elem_of_In, (Hback k o')|].
      by rewrite Ho.
  - split; [done|]. split; [by rewrite Hl|]. exists ks. split_and!; [done|done|by rewrite Hl|exact Hback].
Qed.


End Subscribe.

(** ** Life cycle *)

(** An engine: its bus, whether its threads - the dispatcher's is the first - run, and which servers
    were started. *)
Record Engine := mkEngine { e_bus : EventBus.World; running : bool; tcp_started : bool; udp_started : bool }.

(** The globals, with the singletons the calls touch; [abandoned] are engines no pointer
    reaches any more. *)
Record Globals := mkGlobals {
  g_initialised : bool;
  g_engine : option Engine;
  abandoned : list Engine;
  pool_inits : Z;
  handlers : Handlers.registry;
  observers : bool * Output.Stream (S := Output.Observed)
}.

(** What the calls of [esccore_init] meet: the configuration, the storage file, and the start of the
    dispatcher, of the manager and of each server, any of which may throw. *)
Record Boot := mkBoot {
  b_config : outcome ConfigLoader.AppConfiguration;
  b_bus : EventBus.World;
  b_storage : outcome StorageEngine.Storage;
  b_dispatcher : outcome unit;
  b_manager : outcome unit;
  b_tcp : outcome unit;
  b_udp : outcome unit
}.

(** A failed start: the exception is caught and the engine is not deleted. *)
Definition abandon (e : Engine) (g : Globals) : Globals :=
  mkGlobals (g_initialised g) (g_engine g) (abandoned g ++ [e]) (pool_inits g) (handlers g) (observers g).

Definition register_all (g : Globals) : Globals :=
  let '(_, st) := Output.clearAllObservers (observers g).2 in
  mkGlobals (g_initialised g) (g_engine g) (abandoned g) (pool_inits g + 1)
    (Handlers.registerDefaultHandlers (handlers g)) (Output.registerDefaultObservers false st).

(** A start inside the [try], and what the function does after it; [eng] is the engine as it is before. *)
Definition attempt (step : outcome unit) (eng : Engine) (g : Globals) (rest : outcome (esc_status_t * Globals))
    : outcome (esc_status_t * Globals) :=
  match step with
  | UB => UB
  | Throw _ => Ret (ESC_ERR_INTERNAL, abandon eng g)
  | Ret _ => rest
  end.

Definition esccore_init (b : Boot) (g : Globals) : outcome (esc_status_t * Globals) :=
  if g_initialised g then Ret (ESC_ERR_INIT, g) else
  match b_config b with
  | UB => UB
  | Throw _ => Ret (ESC_ERR_INTERNAL, g)
  | Ret config =>
      match b_storage b with
      | UB => UB
      | Throw _ => Ret (ESC_ERR_INTERNAL, abandon (mkEngine (b_bus b) false false false) g)
      | Ret _ =>
          let g := register_all g in
          let tcp := ConfigLoader.tcp_enable (ConfigLoader.tcpConfig (ConfigLoader.ingestion config)) in
          let udp := ConfigLoader.udp_enable (ConfigLoader.udpConfig (ConfigLoader.ingestion config)) in
          attempt (b_dispatcher b) (mkEngine (b_bus b) false false false) g (
          attempt (b_manager b) (mkEngine (b_bus b) true false false) g (
          attempt (if tcp then b_tcp b else Ret tt) (mkEngine (b_bus b) true false false) g (
          attempt (if udp then b_udp b else Ret tt) (mkEngine (b_bus b) true tcp false) g (
            Ret (ESC_OK, mkGlobals true (Some (mkEngine (b_bus b) true tcp udp)) (abandoned g)
                           (pool_inits g) (handlers g) (observers g))))))
      end
  end.

(** The servers, the processors and the dispatcher are stopped and joined; the engine is deleted. *)
Definition esccore_shutdown (g : Globals) : esc_status_t * Globals :=
  if negb (g_initialised g) then (ESC_ERR_INIT, g) else
  match g_engine g with
  | None => (ESC_OK, mkGlobals false None (abandoned g) (pool_inits g) (handlers g) (observers g))
  | Some _ =>
      (ESC_OK, mkGlobals false None (abandoned g) (pool_inits g) (handlers g)
                 (Output.clearAllObservers (observers g).2))
  end.

(** ** Observability *)

Record esc_metrics_t := mkEscMetrics {
  m_processed : Z; m_dropped : Z; m_queue_depth : Z; m_backpressure : Z
}.
Record esc_health_t := mkEscHealth { is_alive : Z; is_ready : Z; h_backpressure : Z }.

Definition pressure_code (p : EventBus.PressureLevel) : Z :=
  match p with EventBus.P_NORMAL => 0 | EventBus.P_HIGH => 1 | EventBus.P_CRITICAL => 2 end.

(** The tests at the head of both calls; [None]: go on. *)
Definition guard (initialised has_out : bool) : option esc_status_t :=
  if negb initialised then Some ESC_ERR_INIT else if negb has_out then Some ESC_ERR_INVALID else None.

(** The rest of [esccore_metrics]: [g_engine] is dereferenced without the lock. *)
Definition read_metrics (eng : option Engine) (r : MetricRegistry.t) : outcome (esc_metrics_t * MetricRegistry.t) :=
  match eng with
  | None => UB
  | Some e =>
      let '(snaps, r') := MetricRegistry.getSnapshots r in
      let sum f := fold_left (fun n kv => add64 n (f kv.2)) (map_to_list snaps) 0 in
      let depth q := EventBus.size q (e_bus e) in
      Ret (mkEscMetrics (sum snap_processed) (sum snap_dropped)
             (add64 (add64 (depth EventBus.REALTIME) (depth EventBus.TRANSACTIONAL)) (depth EventBus.BATCHQ))
             (pressure_code (EventBus.getRealtimePressure (e_bus e))), r')
  end.

Definition esccore_metrics (has_out : bool) (g : Globals) (r : MetricRegistry.t)
    : outcome (esc_status_t * option esc_metrics_t * MetricRegistry.t) :=
  match guard (g_initialised g) has_out with
  | Some st => Ret (st, None, r)
  | None => '(m, r') ← read_metrics (g_engine g) r; Ret (ESC_OK, Some m, r')
  end.

Definition read_health (initialised : bool) (eng : option Engine) : outcome esc_health_t :=
  match eng with
  | None => UB
  | Some e => Ret (mkEscHealth 1 (if initialised then 1 else 0)
                     (pressure_code (EventBus.getRealtimePressure (e_bus e))))
  end.

Definition esccore_health (has_out : bool) (g : Globals) : outcome (esc_status_t * option esc_health_t) :=
  match guard (g_initialised g) has_out with
  | Some st => Ret (st, None)
  | None => h ← read_health (g_initialised g) (g_engine g); Ret (ESC_OK, Some h)
  end.

(** ** The life cycle keeps the flag and the pointer together *)

Inductive call := Init (b : Boot) | Shutdown.

Definition lifecycle (c : call) (g : Globals) : outcome Globals :=
  match c with
  | Init b => '(_, g') ← esccore_init b g; Ret g'
  | Shutdown => Ret (esccore_shutdown g).2
  end.

Fixpoint calls (cs : list call) (g : Globals) : outcome Globals :=
  match cs with [] => Ret g | c :: cs' => g' ← lifecycle c g; calls cs' g' end.

Definition coherent (g : Globals) : Prop := g_initialised g = true <-> is_Some (g_engine g).

Lemma lifecycle_coherent c g g' : coherent g -> lifecycle c g = Ret g' -> coherent g'.
Proof.
  unfold coherent. intros Hg. destruct c as [b|]; cbn.
  - unfold esccore_init, attempt. destruct (g_initialised g) eqn:Ei; cbn; [by intros [= <-]; rewrite Ei|].
    repeat (case_match; cbn; try done); intros [= <-]; cbn; rewrite ?Ei; done.
  - intros [= <-]. unfold esccore_shutdown. destruct (g_initialised g) eqn:Ei; cbn; [|by rewrite Ei].
    destruct (g_engine g); cbn; split; [done|by intros [? ?]|done|by intros [? ?]].
Qed.

Lemma calls_coherent cs g g' : coherent g -> calls cs g = Ret g' -> coherent g'.
Proof.
  revert g; induction cs as [|c cs IH]; intros g Hg; cbn; [by intros [= <-]|].
  intros Hc. apply outcome_bind_ret in Hc as (g1 & H1 & H2). eapply IH; [|exact H2]. by eapply lifecycle_coherent.
Qed.

Definition idle : Globals := mkGlobals false None [] 0 [] (false, Output.new_stream).

(** After any sequence of [esccore_init] and [esccore_shutdown], successful or failed, the
    observability calls of the same thread return: a status code where the engine is not up or the
    argument is null, and otherwise the figures, of which the pressure level is at most 2 and the
    queue depth counts the transactional queue twice and the realtime queue not at all. *)
Theorem observability_after_lifecycle cs g has_out r :
  calls cs idle = Ret g ->
  exists st m r', esccore_metrics has_out g r = Ret (st, m, r') /\
    (st = ESC_OK <-> g_initialised g = true /\ has_out = true) /\
    (exists h, esccore_health has_out g = Ret (st, h)) /\
    forall x e, m = Some x -> g_engine g = Some e ->
      0 <= m_backpressure x <= 2 /\
      m_queue_depth x = wrap 64 (2 * zlen (EventBus.dq (EventBus.TransactionalBus_ (EventBus.bus (e_bus e))))
                                 + zlen (EventBus.dq (EventBus.BatchBus_ (EventBus.bus (e_bus e))))).
Proof.
  intros Hc. apply calls_coherent in Hc; [|by split; [|intros [? ?]]]. unfold coherent in Hc.
  unfold esccore_metrics, esccore_health, guard.
  destruct (g_initialised g) eqn:Ei; cbn [negb]; [|by eexists _, None, r; split_and!; [..|by eexists|]; try done; naive_solver].
  destruct has_out; cbn [negb]; [|by eexists _, None, r; split_and!; [..|by eexists|]; try done; naive_solver].
  destruct (g_engine g) as [e|] eqn:Ee; [|exfalso; by destruct (proj1 Hc eq_refl)].
  unfold read_metrics. destruct (MetricRegistry.getSnapshots r) as [snaps r'] eqn:Es. cbn [mbind outcome_bind].
  eexists _, _, r'. split; [done|]. split; [done|]. split; [by eexists|].
  intros x e' [= <-] [= <-]. cbn [m_backpressure m_queue_depth]. split.
  - destruct (EventBus.getRealtimePressure (e_bus e)); cbn; lia.
  - unfold EventBus.size, EventBus.getQueue, add64. rewrite wrap_add_l. f_equal. lia.
Qed.

End Esccore.

Module BridgeRun.
Import Esccore.

Definition boot (udp : outcome unit) : Boot :=
  mkBoot (ConfigLoader.loadConfig "c.yaml" true (Ret (sample_doc 9000)))
    (EventBus.initial BusRun.heap1 BusRun.registry0)
    (StorageEngine.open_storage "events.bin" "" (Some [])) (Ret tt) (Ret tt) (Ret tt) udp.

Definition up : Globals :=
  match esccore_init (boot (Ret tt)) idle with Ret (_, g) => g | _ => idle end.

(** The flag is tested, another thread shuts the engine down, and the engine is then read through
    a null pointer. *)
Example observability_race :
  guard (g_initialised up) true = None /\
  read_metrics (g_engine (esccore_shutdown up).2) BusRun.registry0 = UB /\
  read_health true (g_engine (esccore_shutdown up).2) = UB.
Proof. split_and!; vm_compute; reflexivity. Qed.

(** A server whose start throws leaves an engine with running threads that nothing can stop. *)
Example failed_init_abandons_engine :
  exists g e, esccore_init (boot (Throw "no thread")) idle = Ret (ESC_ERR_INTERNAL, g) /\
    g_engine g = None /\ abandoned g = [e] /\ running e = true /\ (esccore_shutdown g).1 = ESC_ERR_INIT.
Proof.
  destruct (esccore_init (boot (Throw "no thread")) idle) as [[st g]| |] eqn:E; [|discriminate E|discriminate E].
  exists g, (mkEngine (EventBus.initial BusRun.heap1 BusRun.registry0) true true false).
  injection E as <- <-. split; [reflexivity|]. split_and!; reflexivity.
Qed.

(** A callback that counts and unsubscribes at the second event. *)
Definition twice (x : esc_event_t) (n : Z) : Z * Z := (if n =? 1 then 1 else 0, n + 1).
Definition sub_stream : Output.Stream * list (EscObserver (U := Z)) :=
  let '(_, st, s) := esccore_subscribe twice true (Some "audit"%string) true 0 Output.new_stream [] in (st, s).

End BridgeRun.


Lemma observability_after_lifecycle_witness :
  Esccore.calls [Esccore.Init (BridgeRun.boot (Ret tt))] Esccore.idle = Ret BridgeRun.up /\
  exists st m r', Esccore.esccore_metrics true BridgeRun.up BusRun.registry0 = Ret (st, m, r') /\ (st = Esccore.ESC_OK).
Proof.
  assert (Hc : Esccore.calls [Esccore.Init (BridgeRun.boot (Ret tt))] Esccore.idle = Ret BridgeRun.up) by reflexivity.
  split; [exact Hc|].
  destruct (Esccore.observability_after_lifecycle [Esccore.Init (BridgeRun.boot (Ret tt))] BridgeRun.up true
    BusRun.registry0 Hc) as (st & m & r' & H1 & H2 & _).
  exists st, m, r'. split; [exact H1|]. apply H2. split; reflexivity.
Defined.
