(* ===== verification/Embedding.v ===== *)
(** * The engine as a library: [esccore_init] and [esccore_shutdown] on the whole process

    Module [Embedding] ([src/bridge/esccore.cpp]): the two calls with the components, the
    descriptors, the threads and the singletons they act on, as [Startup.v] has them for
    [main].  A program may call them in any order and as often as it likes; the
    theorem says that a shutdown gives everything back and that a later
    [esccore_init] does what the first would have done.  [Bridge.v] has the
    other calls, on the globals alone; [init_simulates] and [shutdown_simulates] say that the
    globals here are those.  An engine one of whose threads cannot be created is left behind
    ([refused_thread_leaks]); the theorem is about histories in which they can. *)

From S2P Require Import Prelude Event Storage Handlers Output Metrics EventBus Processor.
From S2P Require Import Engine Config Numa Descriptors TcpLifecycle UdpLifecycle Startup Bridge.
#[local] Open Scope Z_scope.

Module Embedding.
Import Startup.

Section Embedding.
Context (L : Libnuma) `{Yaml Node}.

(** An engine that was allocated and never deleted: its storage could not be opened, and it has no more than
    a bus, or one of its threads could not be created. *)
Inductive Leak :=
| WithoutStorage (bus : EventBus.World)
| WithoutThread (c : Components) (running : Threads.t).

(** The globals of the library and of the process around them. *)
Record Library := mkLibrary {
  g_initialised : bool;
  g_engine : option Components;
  leaked : list Leak;
  closed_logs : list (option StorageEngine.Storage);  (* what the storage of the deleted engines left *)
  process : Process
}.

Definition loaded (p : Process) : Library := mkLibrary false None [] [] p.

Definition config_of (config_path : option string) (h : Host) : outcome ConfigLoader.AppConfiguration :=
  let path := default "config/config.yaml"%string config_path in
  ConfigLoader.loadConfig path (h_exists h path) (h_doc h path).

(** The storage is opened before the pool, the handlers and the observers are set up, which the components
    do not read until they are started; None: undefined behaviour. *)
Definition esccore_init (config_path : option string) (h : Host) (s : Library)
    : run (option Esccore.esc_status_t * Library) :=
  if g_initialised s then Done (Some Esccore.ESC_ERR_INIT, s) else
  match config_of config_path h with
  | UB => Done (None, s)
  | Throw _ => Done (Some Esccore.ESC_ERR_INTERNAL, s)
  | Ret config =>
      let p := register_all (process s) in
      match initializeComponents config h p with
      | UB => Done (None, s)
      | Throw _ =>
          Done (Some Esccore.ESC_ERR_INTERNAL,
                mkLibrary (g_initialised s) (g_engine s) (leaked s ++ [WithoutStorage (EventBus.initial ∅ (h_metrics h))])
                  (closed_logs s) (process s))
      | Ret c =>
          match startComponents L h c p with
          | Terminated => Terminated
          | Raised _ (c, p) =>
              (* the handles of the threads stay with the engine that is left *)
              Done (Some Esccore.ESC_ERR_INTERNAL,
                    mkLibrary (g_initialised s) (g_engine s) (leaked s ++ [WithoutThread c (threads p)]) (closed_logs s)
                      (set_threads Threads.none (sys p) p))
          | Done (c, p) => Done (Some Esccore.ESC_OK, mkLibrary true (Some c) (leaked s) (closed_logs s) p)
          end
      end
  end.

(** The components are stopped, the pool and the observers shut, the engine deleted. *)
Definition esccore_shutdown (rest rest_dlq : list byte) (s : Library) : Esccore.esc_status_t * Library :=
  if negb (g_initialised s) then (Esccore.ESC_ERR_INIT, s) else
  match g_engine s with
  | None => (Esccore.ESC_OK, mkLibrary false None (leaked s) (closed_logs s) (process s))
  | Some c =>
      let '(c, p) := stopComponents c (process s) in
      let '(log, p) := destroy_components rest rest_dlq c (shut_globals p) in
      (Esccore.ESC_OK, mkLibrary false None (leaked s) (closed_logs s ++ [log]) p)
  end.

(** A subscription of the program, or of [esccore_subscribe]. *)
Definition subscribe (o : Output.Observer (S := Output.Observed)) (s : Library) : Library :=
  let p := process s in
  mkLibrary (g_initialised s) (g_engine s) (leaked s) (closed_logs s)
    (mkProcess (fds p) (sys p) (threads p) (handlers p) ((observers p).1, Output.subscribe (Some o) (observers p).2)
       (pool_inits p) (pool_shutdown p) (reported p)).

(** The descriptors the kernel hands out are not in use, and it creates the threads. *)
Definition kernel_answers (config_path : option string) (h : Host) (s : Library) : Prop :=
  forall config c, config_of config_path h = Ret config ->
    initializeComponents config h (register_all (process s)) = Ret c ->
    answers_unused h c (fds (process s)) /\ all_created config h.

(** Everything a program can have done with the library. *)
Inductive history (p0 : Process) : Library -> Prop :=
| history_loaded : history p0 (loaded p0)
| history_init path h s st s' :
    history p0 s -> kernel_answers path h s -> esccore_init path h s = Done (st, s') -> history p0 s'
| history_serve s c c' p' :
    history p0 s -> g_engine s = Some c -> rtc serves (c, process s) (c', p') ->
    history p0 (mkLibrary (g_initialised s) (Some c') (leaked s) (closed_logs s) p')
| history_subscribe s o : history p0 s -> history p0 (subscribe o s)
| history_shutdown s rest rest_dlq : history p0 s -> history p0 (esccore_shutdown rest rest_dlq s).2.

(** ** What a history keeps *)

Definition log_closed (o : option StorageEngine.Storage) : Prop :=
  match o with
  | Some st => StorageEngine.is_open (StorageEngine.storageFile st) = false /\
               StorageEngine.is_open (StorageEngine.dlqFile st) = false
  | None => True
  end.

(** The registrations of a process: none yet, or the default ones; a clear of the observers leaves the stream as new. *)
Definition registrations (p : Process) : Prop :=
  (handlers p = [] \/ handlers p = Handlers.registerDefaultHandlers []) /\ Output.enabled_ (observers p).2 = true.

Record inv (p0 : Process) (s : Library) : Prop := {
  v_engine : g_initialised s = true <-> is_Some (g_engine s);
  v_process : match g_engine s with
              | Some c => accounted (fds p0) (c, process s)
              | None => fds (process s) = fds p0 /\ threads (process s) = Threads.none
              end;
  v_registered : registrations (process s);
  v_closed : Forall log_closed (closed_logs s)
}.

Lemma register_again p : registrations p ->
  handlers (register_all p) = Handlers.registerDefaultHandlers [] /\
  observers (register_all p) = Output.registerDefaultObservers false Output.new_stream.
Proof.
  intros [Hh Ho]. unfold register_all. cbn [Output.clearAllObservers handlers observers]. unfold Output.clear. rewrite Ho.
  split; [|done]. by destruct Hh as [-> | ->].
Qed.

Lemma close_file_closed rest f : StorageEngine.is_open (StorageEngine.close_file rest f) = false.
Proof. unfold StorageEngine.close_file. by destruct (StorageEngine.is_open f) eqn:E. Qed.

Lemma destroyed_closed rest rest_dlq c p : log_closed (destroy_components rest rest_dlq c p).1.
Proof.
  unfold destroy_components. destruct (stopComponents c p) as [c' p']. cbn [fst].
  destruct (storage_ (engine c')) as [st|]; [|done]. split; apply close_file_closed.
Qed.

(** Stopping and destroying leave the registrations alone. *)
Lemma stop_registered c p : handlers (stopComponents c p).2 = handlers p /\ observers (stopComponents c p).2 = observers p.
Proof. unfold stopComponents. by destruct (udpServer c) as [[[? ?] ?]|], (tcpServer c) as [[? ?]|]. Qed.

Lemma destroy_registered rest rest_dlq c p :
  handlers (destroy_components rest rest_dlq c p).2 = handlers p /\
  observers (destroy_components rest rest_dlq c p).2 = observers p.
Proof. pose proof (stop_registered c p) as Hs. unfold destroy_components. by destruct (stopComponents c p). Qed.

Lemma serves_registered cp cp' : rtc serves cp cp' -> handlers cp'.2 = handlers cp.2 /\ observers cp'.2 = observers cp.2.
Proof. induction 1 as [|x y z [] _ IH]; done. Qed.

(** A start, whether it returns or throws, leaves them alone too, and the bus. *)
Lemma start_registered (h : Host (Node := Node)) c p c' p' : state_of (startComponents L h c p) = Some (c', p') ->
  handlers p' = handlers p /\ observers p' = observers p /\ pool_inits p' = pool_inits p /\ engine c' = engine c.
Proof.
  unfold startComponents. pose proof (start_threads_changes L h p) as Ht.
  destruct (start_threads L h p) as [p1|what p1|]; cbn [run_map and_then state_of] in *; [| |done];
    destruct (Ht p1 eq_refl) as (_ & Hh1 & Ho1 & Hp1); [|by intros [= <- <-]].
  pose proof (start_tcp_changes h c p1) as Htcp.
  destruct (start_tcp h c p1) as [[c2 p2]|what [c2 p2]|]; [| |done]; destruct (Htcp c2 p2 eq_refl) as [_ He _ Hh Ho Hp _ _].
  - intros [_ He3 _ Hh3 Ho3 Hp3 _ _]%start_udp_changes. by split_and!; etrans; eauto; etrans.
  - intros [= <- <-]. by split_and!; etrans.
Qed.

Lemma down_engine (b : bool) (o : option Components) : (b = true <-> is_Some o) -> b = false -> o = None.
Proof. intros He Hg. apply eq_None_not_Some. intros Hs. apply He in Hs. congruence. Qed.

Lemma init_inv p0 path h s st s' :
  inv p0 s -> kernel_answers path h s -> esccore_init path h s = Done (st, s') -> inv p0 s'.
Proof.
  intros Hi Hk. unfold esccore_init. destruct (g_initialised s) eqn:Eg; [by intros [= <- <-]|].
  destruct (config_of path h) as [config| |] eqn:Ec; [|by intros [= <- <-]..].
  destruct Hi as [He Hp Hr Hc]. assert (Hd : g_engine s = None) by (by eapply down_engine).
  rewrite Hd in Hp. destruct Hp as [Hf Hth].
  destruct (initializeComponents config h (register_all (process s))) as [c| |] eqn:Ei.
  - specialize (Hk config c Ec Ei) as [Hk Hall].
    destruct (proj2 (start_created L config h (register_all (process s)) c Hth Ei) Hall) as (c' & p' & Es). rewrite Es.
    intros [= <- <-]. pose proof (initialize_not_started _ _ _ _ Ei) as Hn.
    pose proof (start_accounted L h c (register_all (process s)) c' p' Hn Hk ltac:(by rewrite Es)) as Ha.
    destruct (start_registered h c (register_all (process s)) c' p') as (Hh & Ho & _); [by rewrite Es|].
    destruct (register_again _ Hr) as [Hh' Ho'].
    split; cbn [g_initialised g_engine process closed_logs]; [by split| | |done].
    + rewrite <- Hf. exact Ha.
    + split; [right; congruence|]. by rewrite Ho, Ho'.
  - intros [= <- <-]. split; cbn [g_initialised g_engine process closed_logs]; try done.
    + rewrite Hd. split; [done|by intros [? ?]].
    + by rewrite Hd.
  - intros [= <- <-]. split; try done. by rewrite Hd.
Qed.

Lemma shutdown_inv p0 s rest rest_dlq : inv p0 s -> inv p0 (esccore_shutdown rest rest_dlq s).2.
Proof.
  intros Hi. unfold esccore_shutdown. destruct (g_initialised s) eqn:Eg; [|done]. cbn [negb].
  destruct Hi as [He Hp Hr Hc]. destruct (proj1 He Eg) as [c Ec]. rewrite Ec in *.
  pose proof (stopped_accounted _ _ _ Hp) as Ha. pose proof (stop_registered c (process s)) as [Hh Ho].
  destruct (stopComponents c (process s)) as [c1 p1]. apply shut_globals_accounted in Ha.
  pose proof (destroy_accounted _ rest rest_dlq _ _ Ha) as Hd. pose proof (destroyed_closed rest rest_dlq c1 (shut_globals p1)) as Hcl.
  pose proof (destroy_registered rest rest_dlq c1 (shut_globals p1)) as [Hh2 Ho2].
  destruct (destroy_components _ _ _ _) as [log p2]. cbn [fst snd] in *.
  split; cbn [g_initialised g_engine process closed_logs].
  - split; [done|]. by intros [? ?].
  - exact Hd.
  - destruct Hr as [Hr1 Hr2]. split; [rewrite Hh2; cbn; by rewrite Hh|]. rewrite Ho2. cbn. by rewrite Ho.
  - apply Forall_app. by split; [|constructor].
Qed.

Lemma history_inv p0 s : launched p0 -> history p0 s -> inv p0 s.
Proof.
  intros (Hth & Hh & Ho). induction 1 as [|path h s st s' _ IH Hk Hs|s c c' p' _ IH Hc Hs|s o _ IH|s rest rest_dlq _ IH].
  - split; cbn; [by split; [|intros [? ?]]|done| |constructor]. split; [by left|by rewrite Ho].
  - by eapply init_inv.
  - destruct IH as [He Hp Hr Hcl]. rewrite Hc in *. split; cbn [g_initialised g_engine process closed_logs]; [|by eapply served_accounted| |done].
    + rewrite He. by split; intros _; eexists.
    + destruct (serves_registered _ _ Hs) as [H1 H2]. cbn in H1, H2. unfold registrations. by rewrite H1, H2.
  - destruct IH as [He Hp [Hr1 Hr2] Hcl]. split; cbn [g_initialised g_engine process closed_logs subscribe]; try done.
    destruct (g_engine s); [by destruct Hp|done].
  - by apply shutdown_inv.
Qed.

(** ** A later start is a first start *)

(** Two processes a start cannot tell apart, but for the binding of the calling thread. *)
Record alike (p q : Process) : Prop := {
  a_fds : fds p = fds q;
  a_threads : threads p = threads q;
  a_handlers : handlers p = handlers q;
  a_observers : observers p = observers q;
  a_pool : pool_shutdown p = pool_shutdown q
}.

Lemma initialize_alike config (h : Host (Node := Node)) p q : alike p q -> initializeComponents config h p = initializeComponents config h q.
Proof. intros [Hf _ _ Ho _]. unfold initializeComponents. by rewrite Hf, Ho. Qed.

Lemma initialize_log config (h : Host (Node := Node)) p :
  match h_log h (ConfigLoader.storage_path (ConfigLoader.storage config)) with
  | Some _ => exists c, initializeComponents config h p = Ret c
  | None => initializeComponents config h p = Throw "Failed to open storage file"
  end.
Proof. unfold initializeComponents, StorageEngine.open_storage. destruct (h_log h _); [by eexists|done]. Qed.

(** Two results of a start. *)
Definition alike_runs (r1 r2 : run (Components * Process)) : Prop :=
  match r1, r2 with
  | Done (c1, p1), Done (c2, p2) => c1 = c2 /\ alike p1 p2
  | Raised w1 (c1, p1), Raised w2 (c2, p2) => w1 = w2 /\ c1 = c2 /\ alike p1 p2
  | Terminated, Terminated => True
  | _, _ => False
  end.

Lemma alike_and_then r1 r2 k1 k2 : alike_runs r1 r2 ->
  (forall c p q, alike p q -> alike_runs (k1 (c, p)) (k2 (c, q))) -> alike_runs (and_then r1 k1) (and_then r2 k2).
Proof. destruct r1 as [[]|? []|], r2 as [[]|? []|]; cbn; try done. intros [-> Ha] Hk. by apply Hk. Qed.

Lemma start_tcp_alike (h : Host (Node := Node)) c p q : alike p q -> alike_runs (start_tcp h c p) (start_tcp h c q).
Proof.
  intros [Hf Ht Hh Ho Hp]. unfold start_tcp. destruct (tcpServer c) as [[port s]|]; [|by split].
  destruct (h_tcp h) as [[a b] l]. rewrite Hf. by destruct (TcpLifecycle.start a b l _ _).
Qed.

Lemma start_udp_alike (h : Host (Node := Node)) c p q : alike p q -> alike_runs (start_udp h c p) (start_udp h c q).
Proof.
  intros [Hf Ht Hh Ho Hp]. unfold start_udp. destruct (udpServer c) as [[[port n] s]|]; [|by split].
  destruct (h_udp h) as [a b]. rewrite Hf. by destruct (UdpLifecycle.start a b _ _).
Qed.

Lemma start_threads_alike (h : Host (Node := Node)) c p q : alike p q ->
  alike_runs (run_map (pair c) (start_threads L h p)) (run_map (pair c) (start_threads L h q)).
Proof.
  intros [Hf Ht Hh Ho Hp]. unfold start_threads, Threads.dispatcher_start, Threads.manager_start, assign_thread. rewrite Ht.
  destruct (Threads.t_dispatcher _); [by repeat split|]. destruct (Threads.dispatcher_worker _); [done|].
  cbn -[NUMABinding.bindThread].
  destruct (Threads.t_realtime _); [by repeat split|]. destruct (Threads.realtimeThread_ _); [done|]. cbn -[NUMABinding.bindThread].
  destruct (Threads.t_transactional _); [by repeat split|]. destruct (Threads.transactionalThread_ _); [done|]. cbn -[NUMABinding.bindThread].
  destruct (Threads.t_batch _); [by repeat split|]. by destruct (Threads.batchThread_ _).
Qed.

Lemma start_alike (h : Host (Node := Node)) c p q c1 p1 : alike p q -> startComponents L h c p = Done (c1, p1) ->
  exists q1, startComponents L h c q = Done (c1, q1) /\ alike p1 q1.
Proof.
  intros Ha Hs. assert (Hr : alike_runs (startComponents L h c p) (startComponents L h c q)).
  { apply alike_and_then; [by apply start_threads_alike|]. intros c' p' q' H'.
    apply alike_and_then; [by apply start_tcp_alike|]. intros c2 p2 q2 H2. by apply start_udp_alike. }
  rewrite Hs in Hr. destruct (startComponents L h c q) as [[c2 q1]|? []|]; try done. destruct Hr as [<- Hr]. by exists q1.
Qed.

(** ** The globals of [Bridge.v] *)

Definition abstract_engine (c : Components) : Esccore.Engine :=
  Esccore.mkEngine (bw (engine c)) true (bool_decide (is_Some (tcpServer c))) (bool_decide (is_Some (udpServer c))).

(** [start] was called and did not throw: it returned early, without a socket, or there is a thread. *)
Definition tcp_returned (c : Components) : bool :=
  match tcpServer c with
  | Some (_, s) => TcpLifecycle.isRunning s && (TcpLifecycle.acceptThread s || (TcpLifecycle.server_fd s <? 0))
  | None => false
  end.

Definition abstract_leak (l : Leak) : Esccore.Engine :=
  match l with
  | WithoutStorage bus => Esccore.mkEngine bus false false false
  | WithoutThread c th => Esccore.mkEngine (bw (engine c)) (Threads.dispatcher_worker th) (tcp_returned c) false
  end.

Definition abstract (s : Library) : Esccore.Globals :=
  Esccore.mkGlobals (g_initialised s) (abstract_engine <$> g_engine s)
    (map abstract_leak (leaked s))
    (pool_inits (process s)) (handlers (process s)) (observers (process s)).

Definition outcome_of (thr : spawn) : outcome unit := match thr with Some what => Throw what | None => Ret tt end.

(** What the starts of the manager and of the servers come to. *)
Definition manager_outcome (h : Host (Node := Node)) : outcome unit :=
  let sp := h_threads h in
  _ ← outcome_of (Threads.t_realtime sp); _ ← outcome_of (Threads.t_transactional sp); outcome_of (Threads.t_batch sp).
Definition tcp_outcome (h : Host (Node := Node)) : outcome unit :=
  let '(a, b, l) := h_tcp h in if TcpLifecycle.bound a b l then outcome_of (Threads.t_tcp (h_threads h)) else Ret tt.
Definition udp_outcome (h : Host (Node := Node)) : outcome unit :=
  let '(a, b) := h_udp h in if UdpLifecycle.bound a b then outcome_of (Threads.t_udp (h_threads h)) else Ret tt.

(** What the calls of [esccore_init] meet. *)
Definition boot_of (path : option string) (h : Host) : Esccore.Boot :=
  Esccore.mkBoot (config_of path h) (EventBus.initial ∅ (h_metrics h))
    (match config_of path h with
     | Ret config => let file := ConfigLoader.storage_path (ConfigLoader.storage config) in
                     StorageEngine.open_storage file "" (h_log h file)
     | Throw what => Throw what
     | UB => UB
     end)
    (outcome_of (Threads.t_dispatcher (h_threads h))) (manager_outcome h) (tcp_outcome h) (udp_outcome h).

Lemma start_threads_result (h : Host (Node := Node)) p : threads p = Threads.none ->
  match start_threads L h p with
  | Done p' => Threads.t_dispatcher (h_threads h) = None /\ manager_outcome h = Ret tt /\ threads p' = Threads.all
  | Raised what p' =>
      (Threads.t_dispatcher (h_threads h) = Some what /\ Threads.dispatcher_worker (threads p') = false) \/
      (Threads.t_dispatcher (h_threads h) = None /\ manager_outcome h = Throw what /\
       Threads.dispatcher_worker (threads p') = true)
  | Terminated => False
  end.
Proof.
  intros Hth. unfold start_threads, Threads.dispatcher_start, Threads.manager_start, manager_outcome, assign_thread. rewrite Hth.
  destruct (h_threads h) as [[] [] [] [] t u]; cbn -[NUMABinding.bindThread]; rewrite ?Hth; cbn; auto.
Qed.

Lemma start_tcp_result (h : Host (Node := Node)) c p port t (en : bool) :
  tcpServer c = (if en then Some (port, TcpLifecycle.new_server t) else None) ->
  match start_tcp h c p with
  | Done (c', p') => (if en then tcp_outcome h else Ret tt) = Ret tt /\ tcp_returned c' = en
  | Raised what (c', p') => (if en then tcp_outcome h else Ret tt) = Throw what /\ tcp_returned c' = false
  | Terminated => False
  end.
Proof.
  intros Hc. unfold start_tcp, tcp_outcome. destruct en; rewrite Hc; [|by split; [|unfold tcp_returned; rewrite Hc]].
  destruct (h_tcp h) as [[[fd|] b] l]; unfold TcpLifecycle.start, TcpLifecycle.bound, Descriptors.opened, tcp_returned; [|done].
  cbn [TcpLifecycle.new_server tcp_in TcpLifecycle.fds TcpLifecycle.acceptThread TcpLifecycle.accepted].
  destruct (fd <? 0) eqn:Efd; [by cbn; rewrite Efd|]. destruct b; [|done]. destruct l; [|done]. rewrite assign_free.
  destruct (Threads.t_tcp _); cbn; [by rewrite Efd|done].
Qed.

Lemma start_udp_result (h : Host (Node := Node)) c p port n t (en : bool) :
  udpServer c = (if en then Some (port, n, UdpLifecycle.new_server t) else None) ->
  match start_udp h c p with
  | Done _ => (if en then udp_outcome h else Ret tt) = Ret tt
  | Raised what (c', p') => (if en then udp_outcome h else Ret tt) = Throw what /\ tcpServer c' = tcpServer c /\ threads p' = threads p
  | Terminated => False
  end.
Proof.
  intros Hc. unfold start_udp, udp_outcome. destruct en; rewrite Hc; [|done].
  destruct (h_udp h) as [[fd|] b]; unfold UdpLifecycle.start, UdpLifecycle.bound, Descriptors.opened; [|done].
  cbn [UdpLifecycle.new_server udp_in UdpLifecycle.fds UdpLifecycle.receiveThread].
  destruct (fd <? 0) eqn:Efd; [done|]. destruct b; [|done]. rewrite assign_free. by destruct (Threads.t_udp _).
Qed.

(** The start of new components, and what the [try] of [Esccore.esccore_init] makes of its outcomes. *)
Lemma start_simulates config path h p c g bus :
  threads p = Threads.none -> initializeComponents config h p = Ret c -> bus = bw (engine c) ->
  let tcp := ConfigLoader.tcp_enable (ConfigLoader.tcpConfig (ConfigLoader.ingestion config)) in
  let udp := ConfigLoader.udp_enable (ConfigLoader.udpConfig (ConfigLoader.ingestion config)) in
  let b := boot_of path h in
  forall up,
  let attempts :=
    Esccore.attempt (Esccore.b_dispatcher b) (Esccore.mkEngine bus false false false) g (
    Esccore.attempt (Esccore.b_manager b) (Esccore.mkEngine bus true false false) g (
    Esccore.attempt (if tcp then Esccore.b_tcp b else Ret tt) (Esccore.mkEngine bus true false false) g (
    Esccore.attempt (if udp then Esccore.b_udp b else Ret tt) (Esccore.mkEngine bus true tcp false) g up))) in
  match startComponents L h c p with
  | Done _ => attempts = up
  | Raised _ (c', p') => attempts = Ret (Esccore.ESC_ERR_INTERNAL, Esccore.abandon (abstract_leak (WithoutThread c' (threads p'))) g)
  | Terminated => False
  end.
Proof.
  intros Hth Ei -> tcp udp b up. pose proof (initialize_not_started _ _ _ _ Ei) as [Hnt Hnu].
  unfold initializeComponents in Ei. apply outcome_bind_ret in Ei as (s0 & _ & [= <-]).
  set (attempts := Esccore.attempt _ _ _ _). unfold startComponents.
  match goal with |- context [run_map (pair ?c0)] => set (c := c0) in * end. cbv zeta.
  assert (Hnew : tcp_returned c = false) by (unfold tcp_returned, c; cbn [tcpServer]; by destruct (ConfigLoader.tcp_enable _)).
  pose proof (start_threads_result h p Hth) as Ht. pose proof (start_registered h c p) as Hreg. unfold startComponents in Hreg.
  destruct (start_threads L h p) as [p1|what p1|]; cbn [run_map and_then state_of] in *; [| |done].
  2: { unfold attempts, b. cbn [boot_of Esccore.b_dispatcher Esccore.b_manager abstract_leak].
       destruct Ht as [[Hd Hr]|(Hd & Hm & Hr)]; rewrite Hd, ?Hm, Hr, Hnew; reflexivity. }
  destruct Ht as (Hd & Hm & Hall).
  pose proof (start_tcp_result h c p1 _ _ tcp eq_refl) as Htcp.
  pose proof (start_tcp_changes h c p1) as Hch. pose proof (start_tcp_udp h c p1) as Hudp0.
  destruct (start_tcp h c p1) as [[c1 p2]|what [c1 p2]|]; cbn [and_then state_of] in *; [| |done];
    destruct (Hch c1 p2 eq_refl) as [_ He Hth1 _ _ _ _ _]; destruct Htcp as [Ho Hret].
  2: { unfold attempts, b. cbn [boot_of Esccore.b_dispatcher Esccore.b_manager Esccore.b_tcp abstract_leak].
       rewrite Hd, Hm, Ho, He, Hth1, Hall, Hret. reflexivity. }
  specialize (Hudp0 c1 p2 eq_refl).
  pose proof (start_udp_result h c1 p2 _ _ _ udp Hudp0) as Hudp.
  unfold attempts, b. cbn [boot_of Esccore.b_dispatcher Esccore.b_manager Esccore.b_tcp Esccore.b_udp abstract_leak].
  rewrite Hd, Hm, Ho. destruct (start_udp h c1 p2) as [[c2 p3]|what [c2 p3]|]; [| |done].
  - by rewrite Hudp.
  - destruct (Hreg c2 p3 eq_refl) as (_ & _ & _ & He2). destruct Hudp as (Hu & Htc & Hth3). unfold tcp_returned in *.
    rewrite Hu, Htc, Hret, He2, Hth3, Hth1, Hall. reflexivity.
Qed.

(** [esccore_init] here is [esccore_init] there; the handles belong to the engine that is up. *)
Lemma init_simulates path h s st s' :
  (g_initialised s = false -> threads (process s) = Threads.none) ->
  esccore_init path h s = Done (Some st, s') ->
  Esccore.esccore_init (boot_of path h) (abstract s) = Ret (st, abstract s').
Proof.
  intros Hnone. unfold esccore_init, Esccore.esccore_init. cbn [abstract Esccore.g_initialised].
  destruct (g_initialised s) eqn:Eg; [intros [= <- <-]; unfold abstract; by rewrite Eg|]. specialize (Hnone eq_refl).
  change (Esccore.b_config (boot_of path h)) with (config_of path h).
  destruct (config_of path h) as [config| |] eqn:Ec; [|intros [= <- <-]; unfold abstract; by rewrite Eg|done].
  assert (Hst : Esccore.b_storage (boot_of path h) = StorageEngine.open_storage (ConfigLoader.storage_path (ConfigLoader.storage config)) ""
            (h_log h (ConfigLoader.storage_path (ConfigLoader.storage config)))) by (unfold boot_of; by rewrite Ec).
  rewrite Hst. clear Hst.
  destruct (initializeComponents config h (register_all (process s))) as [c| |] eqn:Ei.
  - assert (Hbus : Esccore.b_bus (boot_of path h) = bw (engine c) /\ exists st0, StorageEngine.open_storage
      (ConfigLoader.storage_path (ConfigLoader.storage config)) "" (h_log h (ConfigLoader.storage_path (ConfigLoader.storage config))) = Ret st0).
    { unfold initializeComponents in Ei. apply outcome_bind_ret in Ei as (st0 & Hst0 & [= <-]). split; [done|by eexists]. }
    destruct Hbus as [Hbus [st0 ->]].
    pose proof (start_simulates config path h (register_all (process s)) c (Esccore.register_all (abstract s)) _ Hnone Ei Hbus) as Hsim.
    cbv zeta in Hsim. cbv zeta.
    pose proof (start_registered h c (register_all (process s))) as Hreg.
    pose proof (start_servers L h c (register_all (process s))) as Hserv.
    destruct (startComponents L h c (register_all (process s))) as [[c' p']|what [c' p']|]; [| |done]; intros [= <- <-];
      destruct (Hreg c' p' eq_refl) as (Hh & Ho & Hp & He); rewrite Hsim.
    + destruct (Hserv c' p' eq_refl) as (_ & p1 & _ & [_ _ _ _ _ _ Htcp Hudp]).
      unfold abstract, abstract_engine. cbn [g_initialised g_engine leaked process fmap option_fmap option_map].
      rewrite He, Hh, Ho, Hp, Hbus. unfold initializeComponents in Ei. apply outcome_bind_ret in Ei as (s0 & _ & [= <-]).
      cbn [tcpServer udpServer] in Htcp, Hudp.
      assert (Ht : bool_decide (is_Some (tcpServer c')) = ConfigLoader.tcp_enable (ConfigLoader.tcpConfig (ConfigLoader.ingestion config))).
      { revert Htcp. by destruct (ConfigLoader.tcp_enable _), (tcpServer c'). }
      assert (Hu : bool_decide (is_Some (udpServer c')) = ConfigLoader.udp_enable (ConfigLoader.udpConfig (ConfigLoader.ingestion config))).
      { revert Hudp. by destruct (ConfigLoader.udp_enable _), (udpServer c'). }
      by rewrite Ht, Hu.
    + unfold abstract, Esccore.abandon.
      cbn [g_initialised g_engine leaked process handlers observers pool_inits set_threads
           Esccore.register_all Esccore.g_initialised Esccore.g_engine Esccore.abandoned Esccore.pool_inits
           Esccore.handlers Esccore.observers Output.clearAllObservers].
      rewrite Hh, Ho, Hp, Eg, map_app. reflexivity.
  - unfold initializeComponents, StorageEngine.open_storage in *. destruct (h_log h _); [done|].
    intros [= <- <-]. unfold abstract, Esccore.abandon. cbn. by rewrite Eg, map_app.
  - unfold initializeComponents, StorageEngine.open_storage in *. by destruct (h_log h _).
Qed.

Lemma shutdown_simulates rest rest_dlq s :
  Esccore.esccore_shutdown (abstract s) = ((esccore_shutdown rest rest_dlq s).1, abstract (esccore_shutdown rest rest_dlq s).2).
Proof.
  unfold esccore_shutdown, Esccore.esccore_shutdown. cbn [abstract Esccore.g_initialised Esccore.g_engine].
  destruct (g_initialised s) eqn:Eg; cbn [negb]; [|done]. destruct (g_engine s) as [c|]; [|done].
  pose proof (stop_registered c (process s)) as [Hh Ho].
  assert (Hp : pool_inits (stopComponents c (process s)).2 = pool_inits (process s))
    by (unfold stopComponents; by destruct (udpServer c) as [[[? ?] ?]|], (tcpServer c) as [[? ?]|]).
  destruct (stopComponents c (process s)) as [c1 p1]. pose proof (destroy_registered rest rest_dlq c1 (shut_globals p1)) as [Hh2 Ho2].
  assert (Hp2 : pool_inits (destroy_components rest rest_dlq c1 (shut_globals p1)).2 = pool_inits p1)
    by (unfold destroy_components, stopComponents; by destruct (udpServer c1) as [[[? ?] ?]|], (tcpServer c1) as [[? ?]|]).
  destruct (destroy_components _ _ _ _) as [log p2]. cbn [fst snd] in *. unfold abstract. cbn [g_initialised g_engine leaked process fmap option_fmap option_map].
  rewrite Hp2, Hp, Hh2, Ho2. cbn [handlers observers shut_globals]. by rewrite Hh, Ho.
Qed.

(** After a shutdown, or where there is nothing to shut down. *)
Lemma shutdown_gives_back p0 s rest rest_dlq : inv p0 s ->
  let s' := (esccore_shutdown rest rest_dlq s).2 in
  g_initialised s' = false /\ fds (process s') = fds p0 /\ threads (process s') = Threads.none.
Proof.
  intros Hi s'. pose proof (shutdown_inv p0 s rest rest_dlq Hi) as [He Hp _ _]. fold s' in He, Hp.
  assert (Hg : g_initialised s' = false).
  { unfold s', esccore_shutdown. destruct (g_initialised s) eqn:Eg; [|exact Eg]. cbn [negb].
    destruct (g_engine s); [|done]. by repeat case_match. }
  split; [done|]. by rewrite (down_engine _ _ He Hg) in Hp.
Qed.

(** C24: whatever a program has done with the library - starts that fail, clients that come and go, subscriptions,
    any number of starts and shutdowns - a shutdown leaves the process with the descriptors it had at
    first and no engine thread, and every engine that was shut down has closed its log files; and when no
    engine is up the next [esccore_init] returns, with ESC_OK exactly when the configuration loads and the
    storage file opens, and with the very engine, handlers, observers and descriptors that a first call
    would have made; when it fails the process is as before.  The kernel gives descriptors not in use and the
    threads asked for: what is left of an engine that one of its threads is refused is in [refused_thread_leaks]. *)
Theorem library_restarts p0 s path h :
  launched p0 -> history p0 s -> kernel_answers path h s ->
  Forall log_closed (closed_logs s) /\ (g_initialised s = true <-> is_Some (g_engine s)) /\
  (forall rest rest_dlq, let s' := (esccore_shutdown rest rest_dlq s).2 in
     g_initialised s' = false /\ fds (process s') = fds p0 /\ threads (process s') = Threads.none) /\
  exists st s', esccore_init path h s = Done (st, s') /\
  (g_initialised s = true -> st = Some Esccore.ESC_ERR_INIT /\ s' = s) /\
  (g_initialised s = false ->
     fds (process s) = fds p0 /\ threads (process s) = Threads.none /\
     (st = Some Esccore.ESC_OK <->
        exists config, config_of path h = Ret config /\
          is_Some (h_log h (ConfigLoader.storage_path (ConfigLoader.storage config)))) /\
     (st <> Some Esccore.ESC_OK -> process s' = process s /\ g_engine s' = None) /\
     exists s1, esccore_init path h (loaded p0) = Done (st, s1) /\ g_engine s' = g_engine s1 /\
       (st = Some Esccore.ESC_OK -> alike (process s') (process s1))).
Proof.
  intros Hl Hh Hk. pose proof (history_inv p0 s Hl Hh) as Hi. pose proof Hi as [He Hp Hr Hc].
  split; [done|]. split; [done|]. split; [intros; by apply shutdown_gives_back|].
  unfold esccore_init. destruct (g_initialised s) eqn:Eg; [by exists (Some Esccore.ESC_ERR_INIT), s|].
  assert (Hd : g_engine s = None) by (by eapply down_engine). rewrite Hd in Hp. destruct Hp as [Hf Hth].
  cbn [g_initialised loaded]. destruct (config_of path h) as [config|what|] eqn:Ec.
  2,3: eexists _, _; split; [done|]; split; [done|]; intros _; split_and!; [done|done|split; [done|by intros (? & ? & _)]|done|];
       by eexists _; split_and!.
  destruct (register_again _ Hr) as [Hh1 Ho1]. destruct Hl as (Hth0 & Hh0 & Ho0).
  assert (Ha : alike (register_all (process s)) (register_all p0)).
  { split; [exact Hf|by cbn; rewrite Hth0|..|done].
    - rewrite Hh1. cbn. by rewrite Hh0.
    - rewrite Ho1. cbn. by rewrite Ho0. }
  cbn [process loaded]. rewrite <- (initialize_alike config h _ _ Ha).
  pose proof (initialize_log config h (register_all (process s))) as Hlog.
  destruct (initializeComponents config h (register_all (process s))) as [c|what|] eqn:Ei.
  - destruct (proj2 (start_created L config h (register_all (process s)) c Hth Ei) (proj2 (Hk config c Ec Ei))) as (c' & p' & Es).
    rewrite Es. destruct (start_alike h c _ _ _ _ Ha Es) as (q & Hq & Haq). rewrite Hq.
    eexists _, _; split; [done|]; split; [done|]; intros _. split_and!; [done|done| |done|by eexists _; split_and!].
    split; [|done]. intros _. exists config. split; [done|]. by destruct (h_log h _).
  - eexists _, _; split; [done|]; split; [done|]; intros _. split_and!; [done|done| |done|].
    + split; [done|]. intros (config' & [= <-] & [old Hold]). rewrite Hold in Hlog. by destruct Hlog.
    + eexists _; split_and!; [done|by cbn; rewrite Hd|done].
  - destruct (h_log h _); [by destruct Hlog|done].
Qed.

End Embedding.
End Embedding.

(** ** A program that starts the library twice *)

Module EmbeddingRun.
Import Startup Embedding StartupRun.

Abbreviation init := (esccore_init two_nodes (Some "esc"%string)).

Definition fallback : Library := loaded process.

Definition first : Library :=
  match init (host true) (loaded process) with Done (_, s) => s | _ => fallback end.

(** A client connects. *)
Definition used : Library :=
  match g_engine first with
  | Some c => let '(c, p) := connect (c, Embedding.process first) in
              mkLibrary (g_initialised first) (Some c) (leaked first) (closed_logs first) p
  | None => fallback
  end.

Definition down : Library := (esccore_shutdown [] [] used).2.

(** The numbers of the open descriptors, and whether an engine is up. *)
Definition show (s : Library) : list Z * bool := ((map_to_list (fds (Embedding.process s))).*1, g_initialised s).

Lemma answers b s : fds (Embedding.process s) = LifecycleRun.stdio -> kernel_answers (Some "esc"%string) (host b) s.
Proof.
  intros Hf config c _ Hi. apply initialize_not_started in Hi as [Ht _]. rewrite Hf in *.
  cbn [fds register_all Output.clearAllObservers] in Ht. rewrite Hf in Ht.
  split; [|by split_and!].
  split; [split; [lia|reflexivity]|]. unfold tcp_table. destruct (tcpServer c) as [[port s']|]; [|split; [lia|reflexivity]].
  rewrite (Ht _ _ eq_refl). destruct b; (split; [lia|reflexivity]).
Qed.

(** The thread of the UDP server is refused: the call fails and leaves an engine with its four threads and both
    sockets.  No shutdown reaches it, and one that follows a later start does not either. *)
Definition refused : Library :=
  match init (host_with true (Some "Resource temporarily unavailable"%string)) (loaded process) with
  | Done (_, s) => s
  | _ => fallback
  end.

(** The kernel's next numbers. *)
Definition host_again : Host :=
  mkHost (fun _ => true) (fun _ => Ret (sample_doc 9000)) (Some "metrics: BATCH"%string)
    (fun _ => Some []) BusRun.registry0 (Some 8, true, true) (Some 9, true) (Threads.mkSpawns None None None None None None) 11.

Definition again : Library := match init host_again refused with Done (_, s) => s | _ => fallback end.

Definition abandoned_threads (s : Library) : list Threads.t :=
  omap (fun l => match l with WithoutThread _ th => Some th | WithoutStorage _ => None end) (leaked s).

Example refused_thread_leaks :
  show refused = ([5; 6; 2; 1; 0], false) /\ abandoned_threads refused = [Threads.all] /\
  (esccore_shutdown [] [] refused).1 = Esccore.ESC_ERR_INIT /\
  show again = ([9; 5; 6; 8; 2; 1; 0], true) /\
  show (esccore_shutdown [] [] again).2 = ([5; 6; 2; 1; 0], false).
Proof. split_and!; vm_compute; reflexivity. Qed.

Lemma down_history : history two_nodes process down.
Proof.
  apply history_shutdown. unfold used.
  assert (Hf : history two_nodes process first).
  { unfold first. destruct (init (host true) (loaded process)) as [[st s]| |] eqn:E; [|apply history_loaded..].
    eapply history_init; [apply history_loaded|by apply answers|exact E]. }
  destruct (g_engine first) as [c|] eqn:Ec; [|apply history_loaded].
  pose proof (connect_serves (c, Embedding.process first)) as Hs.
  destruct (connect (c, Embedding.process first)) as [c' p']. by eapply history_serve.
Qed.

End EmbeddingRun.

(** One engine is started, serves a client and is shut down; the next start finds the process as it was. *)
Lemma library_restarts_witness :
  EmbeddingRun.show EmbeddingRun.used = ([7; 5; 6; 2; 1; 0], true) /\
  EmbeddingRun.show EmbeddingRun.down = ([2; 1; 0], false) /\
  exists s', Embedding.esccore_init two_nodes (Some "esc"%string) (StartupRun.host true) EmbeddingRun.down =
    Done (Some Esccore.ESC_OK, s') /\ Embedding.g_engine s' = Embedding.g_engine EmbeddingRun.first.
Proof.
  split; [vm_compute; reflexivity|]. split; [vm_compute; reflexivity|].
  destruct (Embedding.library_restarts two_nodes StartupRun.process EmbeddingRun.down (Some "esc"%string) (StartupRun.host true))
    as (_ & _ & _ & st & s' & Hs & _ & Hd); [done|apply EmbeddingRun.down_history|by apply EmbeddingRun.answers; vm_compute|].
  destruct (Hd eq_refl) as (_ & _ & Hok & _ & s1 & H1 & Hg & _). exists s'.
  assert (Hst : st = Some Esccore.ESC_OK).
  { apply Hok. destruct (Embedding.config_of (Some "esc"%string) (StartupRun.host true)) as [config| |] eqn:E;
      [|vm_compute in E; discriminate E..].
    exists config. split; [reflexivity|]. by eexists. }
  subst st. split; [exact Hs|]. rewrite Hg. unfold EmbeddingRun.first. by rewrite H1.
Defined.
