(* ===== verification/ThreadPool.v ===== *)
(** * The thread pool: [src/core/utils/thread_pool.cpp],
    [include/eventstream/core/utils/thread_pool.hpp]

    Module [ThreadPool]: the workers, any number of submitters and the thread that shuts
    the pool down, as steps over the queue, the flag, the mutex and the condition
    variable.  [condition.wait] is split where the lock is released: the predicate, the
    block and the return of the lock are separate steps, so that a notification may fall
    between them.  A task is foreign code that returns or raises; an exception leaves the
    thread's function and ends the program. *)

From S2P Require Import Prelude.

Module ThreadPool.
Section Pool.
Context {T : Type} (raises : T -> bool).

(** Where a worker stands in the lambda of the constructor. *)
Inductive worker :=
| WWhile                 (* at [while (isRunning.load(...))] *)
| WAcquire               (* at [unique_lock lock(queueMutex)] *)
| WPredicate             (* in [wait], holding the lock, about to evaluate the predicate *)
| WBlock                 (* in [wait], holding the lock, the predicate was false *)
| WAsleep                (* in [wait], blocked, without the lock *)
| WWoken                 (* in [wait], notified, about to take the lock again *)
| WAdmit                 (* [wait] returned, at [if (!isRunning.load() && tasks.empty())] *)
| WTake                  (* at [task = std::move(tasks.front())] *)
| WRun (task : T)        (* at [task()], without the lock *)
| WReturned.

(** Where the thread that calls [shutdown] stands. *)
Inductive closer := CIdle | CNotify | CJoin | CClear | CReturned.

(** [notifies] counts the submitters between the push and [notify_one].  The last four
    fields are the history: what was submitted, started, finished, and thrown away. *)
Record state := mkState {
  workers : list worker;
  tasks : list T;
  isRunning : bool;
  notifies : Z;
  shut : closer;
  submitted : list T;
  started : list T;
  finished : list T;
  dropped : list T
}.

Definition new_pool (numThreads : nat) : state :=
  mkState (replicate numThreads WWhile) [] true 0 CIdle [] [] [] [].

Definition getPendingTasks (s : state) : Z := zlen (tasks s).

Definition holds_lock (w : worker) : bool :=
  match w with WPredicate | WBlock | WAdmit | WTake => true | _ => false end.

Definition locked (s : state) : bool := existsb holds_lock (workers s).

Definition is_asleep (w : worker) : bool := match w with WAsleep => true | _ => false end.

Definition set_worker (i : nat) (w : worker) (s : state) : state :=
  mkState (<[i := w]> (workers s)) (tasks s) (isRunning s) (notifies s) (shut s)
    (submitted s) (started s) (finished s) (dropped s).

Definition take_task (i : nat) (t : T) (rest : list T) (s : state) : state :=
  mkState (<[i := WRun t]> (workers s)) rest (isRunning s) (notifies s) (shut s)
    (submitted s) (started s ++ [t]) (finished s) (dropped s).

Definition finish_task (i : nat) (t : T) (s : state) : state :=
  mkState (<[i := WWhile]> (workers s)) (tasks s) (isRunning s) (notifies s) (shut s)
    (submitted s) (started s) (finished s ++ [t]) (dropped s).

Definition notified (ws : list worker) (s : state) : state :=
  mkState ws (tasks s) (isRunning s) (notifies s - 1) (shut s)
    (submitted s) (started s) (finished s) (dropped s).

Definition wake (w : worker) : worker := if is_asleep w then WWoken else w.

(** The steps the pool owes: those of the workers and the pending [notify_one]s. *)
Inductive work : state -> outcome state -> Prop :=
| while_true i s :
    workers s !! i = Some WWhile -> isRunning s = true -> work s (Ret (set_worker i WAcquire s))
| while_false i s :
    workers s !! i = Some WWhile -> isRunning s = false -> work s (Ret (set_worker i WReturned s))
| acquire i w s :
    workers s !! i = Some w -> w = WAcquire \/ w = WWoken -> locked s = false ->
    work s (Ret (set_worker i WPredicate s))
| predicate_true i s :
    workers s !! i = Some WPredicate -> tasks s <> [] \/ isRunning s = false ->
    work s (Ret (set_worker i WAdmit s))
| predicate_false i s :
    workers s !! i = Some WPredicate -> tasks s = [] -> isRunning s = true ->
    work s (Ret (set_worker i WBlock s))
| block i s :
    workers s !! i = Some WBlock -> work s (Ret (set_worker i WAsleep s))
| admit_return i s :
    workers s !! i = Some WAdmit -> isRunning s = false -> tasks s = [] ->
    work s (Ret (set_worker i WReturned s))
| admit_task i s :
    workers s !! i = Some WAdmit -> isRunning s = true \/ tasks s <> [] ->
    work s (Ret (set_worker i WTake s))
| take_front i t rest s :
    workers s !! i = Some WTake -> tasks s = t :: rest -> work s (Ret (take_task i t rest s))
| take_empty i s :
    workers s !! i = Some WTake -> tasks s = [] -> work s UB
| run_returns i t s :
    workers s !! i = Some (WRun t) -> raises t = false -> work s (Ret (finish_task i t s))
| run_raises i t e s :
    workers s !! i = Some (WRun t) -> raises t = true -> work s (Throw e)
| notify_one i s :
    0 < notifies s -> workers s !! i = Some WAsleep ->
    work s (Ret (notified (<[i := WWoken]> (workers s)) s))
| notify_nobody s :
    0 < notifies s -> Forall (fun w => is_asleep w = false) (workers s) ->
    work s (Ret (notified (workers s) s)).

(** The steps of the pool's users, and the spurious wake-ups of [wait]. *)
Inductive use : state -> state -> Prop :=
| submit t s :
    locked s = false ->
    use s (mkState (workers s) (tasks s ++ [t]) (isRunning s) (notifies s + 1) (shut s)
             (submitted s ++ [t]) (started s) (finished s) (dropped s))
| shutdown_store s :
    shut s = CIdle \/ shut s = CReturned ->
    use s (mkState (workers s) (tasks s) false (notifies s) CNotify
             (submitted s) (started s) (finished s) (dropped s))
| shutdown_notify_all s :
    shut s = CNotify ->
    use s (mkState (map wake (workers s)) (tasks s) (isRunning s) (notifies s) CJoin
             (submitted s) (started s) (finished s) (dropped s))
| shutdown_joined s :
    shut s = CJoin -> Forall (eq WReturned) (workers s) ->
    use s (mkState (workers s) (tasks s) (isRunning s) (notifies s) CClear
             (submitted s) (started s) (finished s) (dropped s))
| shutdown_clear s :
    shut s = CClear ->
    use s (mkState (workers s) [] (isRunning s) (notifies s) CReturned
             (submitted s) (started s) (finished s) (dropped s ++ tasks s))
| spurious i s :
    workers s !! i = Some WAsleep -> use s (set_worker i WWoken s).

Definition worked (s s' : state) : Prop := work s (Ret s').

Definition step (s s' : state) : Prop := worked s s' \/ use s s'.

(** ** The invariant *)

Definition one (b : bool) : Z := if b then 1 else 0.
Definition holders (s : state) : Z := zsum (fun w => one (holds_lock w)) (workers s).
Definition awake (s : state) : Z := zsum (fun w => one (negb (is_asleep w))) (workers s).

Definition running (w : worker) : option T := match w with WRun t => Some t | _ => None end.

(** What the place of a worker says of the queue and the flag. *)
Definition fits (s : state) (w : worker) : Prop :=
  match w with
  | WTake => tasks s <> []
  | WAdmit => isRunning s = true -> tasks s <> []
  | WBlock => isRunning s = true -> tasks s = []
  | WReturned => isRunning s = false
  | _ => True
  end.

Record inv (n : nat) (s : state) : Prop := {
  i_size : zlen (workers s) = Z.of_nat n;
  i_lock : holders s <= 1;
  i_fits : Forall (fits s) (workers s);
  i_notifies : 0 <= notifies s;
  i_awake : isRunning s = true -> Z.min (Z.of_nat n) (zlen (tasks s)) <= awake s + notifies s;
  i_joined : shut s = CClear \/ dropped s <> [] -> Forall (eq WReturned) (workers s);
  i_order : submitted s = started s ++ dropped s ++ tasks s;
  i_runs : started s ≡ₚ finished s ++ omap running (workers s)
}.

Lemma zsum_pos {A} (f : A -> Z) l i x : (forall y, 0 <= f y) -> l !! i = Some x -> f x <= zsum f l.
Proof.
  intros Hf. assert (Hpos : forall l, 0 <= zsum f l).
  { induction l0 as [|z l0 IH]; simpl; [lia|]. specialize (Hf z). lia. }
  revert i. induction l as [|z l IH]; intros [|i] Hi; simplify_eq/=.
  - specialize (Hpos l). lia.
  - specialize (IH i Hi). specialize (Hf z). lia.
Qed.

Lemma omap_insert_perm {A B} (f : A -> option B) l i x y :
  l !! i = Some x ->
  option_list (f x) ++ omap f (<[i := y]> l) ≡ₚ option_list (f y) ++ omap f l.
Proof.
  revert i. induction l as [|z l IH]; intros [|i] Hi; simplify_eq/=.
  - destruct (f x), (f y); simpl; by try constructor.
  - destruct (f z); simpl; [|by apply IH].
    rewrite <- !Permutation_middle. by rewrite IH.
Qed.

Lemma one_nonneg b : 0 <= one b.
Proof. by destruct b. Qed.

Lemma locked_holders s : locked s = false -> Forall (fun w => holds_lock w = false) (workers s).
Proof.
  unfold locked. rewrite Forall_forall. intros Hl w Hw. destruct (holds_lock w) eqn:E; [|done].
  rewrite <- Hl. symmetry. apply existsb_exists. exists w. by rewrite <- list_elem_of_In.
Qed.

Lemma no_holders s : locked s = false -> holders s = 0.
Proof.
  intros Hl%locked_holders. unfold holders. induction Hl as [|w ws Hw _ IH]; simpl; [done|].
  rewrite Hw, IH. done.
Qed.

(** Two workers never hold the lock. *)
Lemma only_holder s i j w w' :
  holders s <= 1 -> workers s !! i = Some w -> holds_lock w = true ->
  workers s !! j = Some w' -> i <> j -> holds_lock w' = false.
Proof.
  intros Hc Hi Hw Hj Hij. destruct (holds_lock w') eqn:E; [|done]. exfalso.
  assert (H : (<[i := WWhile]> (workers s)) !! j = Some w') by by rewrite list_lookup_insert_ne.
  apply (zsum_pos (fun w => one (holds_lock w))) in H; [|intros; apply one_nonneg].
  rewrite (zsum_insert _ _ _ _ _ Hi) in H. unfold holders in Hc. rewrite Hw, E in H. simpl in *. lia.
Qed.

Lemma pool_inv_initial n : inv n (new_pool n).
Proof.
  split; simpl; try done.
  - unfold zlen. by rewrite length_replicate.
  - unfold holders. simpl. induction n; simpl; lia.
  - by apply Forall_replicate.
  - unfold zlen, awake. simpl. intros _. induction n; simpl in *; lia.
  - naive_solver.
  - by induction n.
Qed.

(** ** Every step keeps the invariant *)

Lemma not_all_returned s i w :
  workers s !! i = Some w -> w <> WReturned -> Forall (eq WReturned) (workers s) -> False.
Proof. intros Hi Hw Hf. rewrite Forall_lookup in Hf. by rewrite (Hf i w Hi) in Hw. Qed.

(** A worker that moves without touching the queue. *)
Lemma pool_inv_move n s i w w' :
  inv n s -> workers s !! i = Some w -> w <> WReturned ->
  running w = None -> running w' = None -> fits s w' ->
  one (holds_lock w') <= one (holds_lock w) \/ locked s = false ->
  (is_asleep w' = true -> isRunning s = true -> tasks s = []) ->
  inv n (set_worker i w' s).
Proof.
  intros [] Hi Hw Hr Hr' Hf Hl Ha. split; simpl; try done.
  - by rewrite zlen_insert.
  - unfold holders in *. simpl. rewrite (zsum_insert _ _ _ _ _ Hi).
    destruct Hl as [Hl|Hl%no_holders]; [lia|]. unfold holders in Hl. destruct (holds_lock w'), (holds_lock w); simpl; lia.
  - by apply Forall_insert.
  - intros Hrun. unfold awake in *. simpl. rewrite (zsum_insert _ _ _ _ _ Hi).
    specialize (i_awake0 Hrun). destruct (is_asleep w') eqn:E.
    + rewrite (Ha eq_refl Hrun), zlen_nil in *.
      apply (zsum_pos (fun w => one (negb (is_asleep w)))) in Hi; [|intros; apply one_nonneg].
      simpl in *. lia.
    + destruct (is_asleep w); simpl; lia.
  - intros Hj. destruct (not_all_returned s i w); auto.
  - rewrite i_runs0. f_equiv. pose proof (omap_insert_perm running _ _ _ w' Hi) as Hp.
    by rewrite Hr, Hr' in Hp.
Qed.

Lemma pool_inv_take n s i t rest :
  inv n s -> workers s !! i = Some WTake -> tasks s = t :: rest -> inv n (take_task i t rest s).
Proof.
  intros [] Hi Ht. assert (Hd : dropped s = []).
  { destruct (dropped s) eqn:E; [done|]. destruct (not_all_returned s i WTake); auto. }
  split; simpl; try done.
  - by rewrite zlen_insert.
  - unfold holders in *. simpl. rewrite (zsum_insert _ _ _ _ _ Hi). simpl. lia.
  - rewrite Forall_lookup in i_fits0 |- *. intros j w Hj.
    destruct (decide (i = j)) as [<-|Hij].
    + rewrite list_lookup_insert_eq in Hj by (by eapply lookup_lt_Some). by simplify_eq.
    + rewrite list_lookup_insert_ne in Hj by done.
      pose proof (only_holder s i j _ _ i_lock0 Hi eq_refl Hj Hij) as Hn.
      specialize (i_fits0 j w Hj). by destruct w.
  - intros Hrun. specialize (i_awake0 Hrun). unfold awake in *. simpl.
    rewrite (zsum_insert _ _ _ _ _ Hi), Ht, zlen_cons in *. simpl in *. lia.
  - intros Hj. destruct (not_all_returned s i WTake); auto.
  - rewrite i_order0, Hd, Ht. by rewrite <- app_assoc.
  - pose proof (omap_insert_perm running _ _ _ (WRun t) Hi) as Hp. simpl in Hp.
    rewrite i_runs0, Hp, <- app_assoc. f_equiv. symmetry. apply Permutation_cons_append.
Qed.

Lemma pool_inv_finish n s i t :
  inv n s -> workers s !! i = Some (WRun t) -> inv n (finish_task i t s).
Proof.
  intros [] Hi. split; simpl; try done.
  - by rewrite zlen_insert.
  - unfold holders in *. simpl. rewrite (zsum_insert _ _ _ _ _ Hi). simpl. lia.
  - by apply Forall_insert.
  - intros Hrun. specialize (i_awake0 Hrun). unfold awake in *. simpl.
    rewrite (zsum_insert _ _ _ _ _ Hi). simpl. lia.
  - intros Hj. destruct (not_all_returned s i (WRun t)); auto.
  - pose proof (omap_insert_perm running _ _ _ WWhile Hi) as Hp. simpl in Hp.
    by rewrite i_runs0, <- Hp, <- app_assoc.
Qed.

Lemma all_awake s :
  Forall (fun w => is_asleep w = false) (workers s) -> awake s = zlen (workers s).
Proof.
  unfold awake. intros Hf. induction Hf as [|w ws Hw _ IH]; [done|].
  rewrite zlen_cons. simpl. rewrite Hw, IH. done.
Qed.

(** [notify_one] spends a notification, on a sleeper if there is one. *)
Lemma pool_inv_notify n s i :
  inv n s -> workers s !! i = Some WAsleep -> 0 < notifies s ->
  inv n (notified (<[i := WWoken]> (workers s)) s).
Proof.
  intros Hi Hw Hn. destruct (pool_inv_move n s i WAsleep WWoken) as []; try done; [by left|].
  split; simpl in *; try done; [lia|].
  intros Hrun. unfold awake in *. simpl in *. rewrite (zsum_insert _ _ _ _ _ Hw) in *.
  pose proof (i_awake n s Hi Hrun) as Ha. unfold awake in Ha. simpl in *. lia.
Qed.

Ltac moves :=
  eapply pool_inv_move; [eassumption|eassumption|..]; simpl; try done;
  try (by left); try (by right); try intuition congruence.

Lemma fits_at n s i w : inv n s -> workers s !! i = Some w -> fits s w.
Proof. intros Hi Hw. exact (proj1 (Forall_lookup _ _) (i_fits _ _ Hi) _ _ Hw). Qed.

Lemma pool_inv_work n s s' : inv n s -> worked s s' -> inv n s'.
Proof.
  intros Hi Hs. unfold worked in Hs. inversion Hs as
    [i ? Hw Hr|i ? Hw Hr|i w ? Hw Ho Hl|i ? Hw Ho|i ? Hw Ht Hr|i ? Hw|i ? Hw Hr Ht|i ? Hw Ho
    |i t rest ? Hw Ht| |i t ? Hw Hr| |i ? Hn Hw|? Hn Ha]; subst;
    try (pose proof (fits_at _ _ _ _ Hi Hw) as Hf; simpl in Hf).
  1,2,4-8: by moves.
  - destruct Ho as [-> | ->]; by moves.
  - by apply pool_inv_take.
  - by apply pool_inv_finish.
  - by apply pool_inv_notify.
  - destruct Hi. split; simpl; try done; [lia|]. intros Hrun. unfold awake. simpl.
    fold (awake s). rewrite all_awake by done. lia.
Qed.

Lemma zsum_map {A B} (f : B -> Z) (g : A -> B) l : zsum f (map g l) = zsum (fun x => f (g x)) l.
Proof. induction l as [|x l IH]; simpl; congruence. Qed.

Lemma awake_nonneg s : 0 <= awake s.
Proof.
  unfold awake. etrans; [|apply (zsum_le (fun _ => 0)); intros; apply one_nonneg].
  rewrite zsum_const. lia.
Qed.

Lemma fits_more n s t w :
  inv n s -> locked s = false -> w ∈ workers s -> fits s w ->
  fits (mkState (workers s) (tasks s ++ [t]) (isRunning s) (notifies s + 1) (shut s)
          (submitted s ++ [t]) (started s) (finished s) (dropped s)) w.
Proof.
  intros Hi Hl Hw. pose proof (proj1 (Forall_forall _ _) (locked_holders s Hl) w Hw) as Hh.
  by destruct w.
Qed.

Lemma running_wake ws : omap running (map wake ws) = omap running ws.
Proof. induction ws as [|[] ws IH]; simpl; try exact IH; [done|f_equal; exact IH]. Qed.

Lemma pool_inv_wake_all n s :
  inv n s -> shut s = CNotify ->
  inv n (mkState (map wake (workers s)) (tasks s) (isRunning s) (notifies s) CJoin
           (submitted s) (started s) (finished s) (dropped s)).
Proof.
  intros [] Hs. split; simpl; try done.
  - unfold zlen in *. by rewrite length_map.
  - unfold holders in *. simpl. rewrite zsum_map. etrans; [|exact i_lock0].
    apply zsum_le. by intros [].
  - apply Forall_map. eapply Forall_impl; [exact i_fits0|]. by intros [].
  - intros _. rewrite all_awake; simpl; [|apply Forall_map, Forall_true; by intros []].
    unfold zlen in *. rewrite length_map. lia.
  - intros [?|Hd]; [done|]. apply Forall_map.
    eapply Forall_impl; [apply i_joined0; by right|]. by intros ? <-.
  - by rewrite i_runs0, running_wake.
Qed.

Lemma pool_inv_use n s s' : inv n s -> use s s' -> inv n s'.
Proof.
  intros Hi Hu. pose proof (awake_nonneg s) as Ha. inversion Hu as
    [t ? Hl|? Hs|? Hs|? Hs Hf|? Hs|i ? Hw]; subst; [| |by apply pool_inv_wake_all| | |by moves];
    destruct Hi; (split; simpl; try done).
  - apply Forall_forall. intros w Hw. apply (fits_more n); [by constructor|done..|].
    by apply (proj1 (Forall_forall _ _) i_fits0).
  - lia.
  - intros Hr. rewrite zlen_app, zlen_cons, zlen_nil. specialize (i_awake0 Hr).
    change (awake _) with (awake s). lia.
  - by rewrite i_order0, !app_assoc.
  - eapply Forall_impl; [exact i_fits0|]. by intros [].
  - intros [?|?]; [done|]. by apply i_joined0; right.
  - assert (Hj : Forall (eq WReturned) (workers s)) by (apply i_joined0; by left).
    rewrite Forall_forall in i_fits0, Hj |- *. intros w Hw.
    specialize (i_fits0 w Hw). by rewrite <- (Hj w Hw) in *.
  - change (awake _) with (awake s). rewrite zlen_nil. lia.
  - intros _. apply i_joined0. by left.
  - by rewrite i_order0, app_nil_r.
Qed.

Lemma pool_inv_reachable n s : rtc step (new_pool n) s -> inv n s.
Proof.
  intros Hr. eapply (rtc_invariant step (inv n)); [|exact Hr|apply pool_inv_initial].
  intros ? ? Hi [Hw|Hu]; [by eapply pool_inv_work|by eapply pool_inv_use].
Qed.

(** ** Safety *)

Lemma open_not_dropped n s : inv n s -> isRunning s = true -> (0 < n)%nat -> dropped s = [].
Proof.
  intros Hi Hr Hn. destruct (dropped s) eqn:E; [done|]. exfalso.
  pose proof (i_joined _ _ Hi ltac:(right; by rewrite E)) as Hj.
  pose proof (i_fits _ _ Hi) as Hf. pose proof (i_size _ _ Hi) as Hz.
  destruct Hj as [|w ws <- _]; [unfold zlen in Hz; simpl in Hz; lia|].
  inversion Hf. simpl in *. congruence.
Qed.

(** In every reachable state the tasks started are the first ones submitted, in order, and
    each is finished or running on exactly one worker; [front] is never called on the
    empty queue. *)
Theorem thread_pool_in_order n s :
  rtc step (new_pool n) s ->
  started s `prefix_of` submitted s /\ started s ≡ₚ finished s ++ omap running (workers s) /\
  ~ work s UB /\
  (isRunning s = true -> (0 < n)%nat -> getPendingTasks s = zlen (submitted s) - zlen (started s)).
Proof.
  intros Hi%pool_inv_reachable. split_and!.
  - rewrite (i_order _ _ Hi). by eexists.
  - apply (i_runs _ _ Hi).
  - intros Hu. inversion Hu as [| | | | | | | | |i ? Hw Ht| | | |]; subst.
    by apply (fits_at _ _ _ _ Hi Hw).
  - intros Hr Hn. unfold getPendingTasks. rewrite (i_order _ _ Hi), !zlen_app.
    rewrite (open_not_dropped _ _ Hi Hr Hn), zlen_nil. lia.
Qed.

(** ** Progress *)

Definition rank (w : worker) : Z :=
  match w with
  | WRun _ => 8 | WWhile => 7 | WAcquire | WWoken => 6 | WPredicate => 5 | WAdmit => 4
  | WTake => 3 | WBlock => 1 | WAsleep | WReturned => 0
  end.

(** What the pool still has to do. *)
Definition potential (s : state) : Z := 8 * zlen (tasks s) + zsum rank (workers s) + 7 * notifies s.

Lemma potential_nonneg n s : inv n s -> 0 <= potential s.
Proof.
  intros Hi. pose proof (i_notifies _ _ Hi). pose proof (zlen_nonneg (tasks s)).
  pose proof (zsum_le (fun _ => 0) rank (workers s) ltac:(by intros [])) as Hz.
  rewrite zsum_const in Hz. unfold potential. lia.
Qed.

Lemma worked_potential n s s' : inv n s -> worked s s' -> potential s' < potential s.
Proof.
  intros Hi Hs. unfold worked in Hs. inversion Hs as
    [i ? Hw Hr|i ? Hw Hr|i w ? Hw Ho Hl|i ? Hw Ho|i ? Hw Ht Hr|i ? Hw|i ? Hw Hr Ht|i ? Hw Ho
    |i t rest ? Hw Ht| |i t ? Hw Hr| |i ? Hn Hw|? Hn Ha]; subst; unfold potential; simpl;
    try rewrite (zsum_insert _ _ _ _ _ Hw); try rewrite Ht, zlen_cons; simpl; try lia.
  destruct Ho as [-> | ->]; simpl; lia.
Qed.

Lemma worked_bounded n k s s' : inv n s -> nsteps worked k s s' -> Z.of_nat k <= potential s.
Proof.
  intros Hi Hk. revert Hi. induction Hk as [s|k s s1 s' Hs _ IH]; intros Hi.
  - pose proof (potential_nonneg _ _ Hi). lia.
  - pose proof (worked_potential _ _ _ Hi Hs). specialize (IH (pool_inv_work _ _ _ Hi Hs)). lia.
Qed.

(** Where the pool stands when it has no step left: every worker sleeps or has returned. *)
Definition rests (w : worker) : Prop := w = WAsleep \/ w = WReturned.

Lemma stuck_workers s :
  (forall o, ~ work s o) -> Forall rests (workers s) /\ notifies s <= 0.
Proof.
  intros Hst. assert (Hh : forall i w, workers s !! i = Some w -> holds_lock w = false).
  { intros i [] Hw; try done; exfalso.
    - destruct (tasks s) eqn:Et; [destruct (isRunning s) eqn:Er|];
        eapply Hst; [eapply predicate_false|eapply predicate_true..]; eauto; left; congruence.
    - eapply Hst, block; eauto.
    - destruct (isRunning s) eqn:Er; [eapply Hst, admit_task; eauto|].
      destruct (tasks s) eqn:Et; eapply Hst; [eapply admit_return|eapply admit_task]; eauto.
      right. congruence.
    - destruct (tasks s) eqn:Et; eapply Hst; [eapply take_empty|eapply take_front]; eauto. }
  assert (Hl : locked s = false).
  { unfold locked. apply not_true_iff_false. intros (w & Hin & Hw)%existsb_exists.
    apply list_elem_of_In, list_elem_of_lookup in Hin as [i Hi]. by rewrite (Hh i w Hi) in Hw. }
  split.
  - apply Forall_lookup. intros i w Hw. specialize (Hh i w Hw).
    destruct w; try done; [| | by left | | | by right]; exfalso.
    + destruct (isRunning s) eqn:Er; eapply Hst; [eapply while_true|eapply while_false]; eauto.
    + eapply Hst, acquire; eauto.
    + eapply Hst, acquire; eauto.
    + destruct (raises task) eqn:Er; eapply Hst; [eapply run_raises|eapply run_returns]; eauto.
  - destruct (decide (0 < notifies s)) as [Hn|]; [|lia]. exfalso.
    destruct (decide (Forall (fun w => is_asleep w = false) (workers s))) as [Ha|Ha].
    + by eapply Hst, notify_nobody.
    + apply not_Forall_Exists, Exists_exists in Ha as (w & Hin & Hw); [|solve_decision].
      apply list_elem_of_lookup in Hin as [i Hi]. destruct w; try (simpl in Hw; congruence).
      by eapply Hst, notify_one.
  Unshelve. all: exact ""%string.
Qed.

Lemma worked_frame s s' :
  worked s s' -> submitted s' = submitted s /\ isRunning s' = isRunning s /\ shut s' = shut s.
Proof. intros Hs. by inversion Hs. Qed.

Lemma worked_run n s s' :
  inv n s -> rtc worked s s' ->
  inv n s' /\ submitted s' = submitted s /\ isRunning s' = isRunning s.
Proof.
  intros Hi Hr. revert Hi. induction Hr as [s|s s1 s' Hs _ IH]; intros Hi; [done|].
  destruct (worked_frame _ _ Hs) as (Hsub & Hrun & _).
  destruct (IH (pool_inv_work _ _ _ Hi Hs)) as (? & ? & ?). split_and!; congruence.
Qed.

(** Without tasks that raise, every step the pool takes is a step to another state. *)
Lemma work_returns n s o :
  inv n s -> (forall t, t ∈ submitted s -> raises t = false) -> work s o -> exists s', o = Ret s'.
Proof.
  intros Hi Hq Hw. destruct Hw; eauto; exfalso.
  - by apply (fits_at _ _ _ _ Hi H).
  - assert (t ∈ submitted s); [|by rewrite Hq in H0].
    rewrite (i_order _ _ Hi), elem_of_app, (i_runs _ _ Hi), elem_of_app, list_elem_of_omap.
    left; right. exists (WRun t). split; [by eapply list_elem_of_lookup_2|done].
Qed.

Lemma all_asleep s : Forall (eq WAsleep) (workers s) -> awake s = 0.
Proof. unfold awake. intros Hf. induction Hf as [|w ws <- _ IH]; simpl; lia. Qed.

Lemma asleep_not_running ws : Forall (eq WAsleep) ws -> omap running ws = [].
Proof. intros Hf. by induction Hf as [|w ws <- _ IH]. Qed.

(** C38: while the pool is open and no task raises, no wake-up is lost: left to itself it takes
    at most [potential] steps, and where it stops every task submitted was started in
    order and finished, and every worker sleeps on the empty queue. *)
Theorem thread_pool_runs_every_task n s :
  (0 < n)%nat -> rtc step (new_pool n) s -> isRunning s = true ->
  (forall t, t ∈ submitted s -> raises t = false) ->
  (forall k s', nsteps worked k s s' -> Z.of_nat k <= potential s) /\
  (forall s', rtc worked s s' -> (forall s2, ~ worked s' s2) ->
     tasks s' = [] /\ started s' = submitted s /\ finished s' ≡ₚ submitted s /\
     Forall (eq WAsleep) (workers s')).
Proof.
  intros Hn Hi%pool_inv_reachable Hrun Hq. split; [by intros; eapply worked_bounded|].
  intros s' Hr Hend. destruct (worked_run _ _ _ Hi Hr) as (Hi' & Hsub & Hrun').
  rewrite Hrun in Hrun'. destruct (stuck_workers s') as [Hrest Hno].
  { intros o Ho. destruct (work_returns _ _ _ Hi' ltac:(by rewrite Hsub) Ho) as [s2 ->].
    by apply (Hend s2). }
  assert (Ha : Forall (eq WAsleep) (workers s')).
  { apply Forall_lookup. intros i w Hw. pose proof (fits_at _ _ _ _ Hi' Hw) as Hf.
    destruct (proj1 (Forall_lookup _ _) Hrest i w Hw) as [-> | ->]; [done|]. simpl in Hf. congruence. }
  assert (Ht : tasks s' = []).
  { pose proof (i_awake _ _ Hi' Hrun') as Hw. rewrite (all_asleep _ Ha) in Hw.
    pose proof (i_notifies _ _ Hi'). pose proof (zlen_nonneg (tasks s')). apply zlen_0. lia. }
  pose proof (i_order _ _ Hi') as Ho. rewrite Ht, (open_not_dropped _ _ Hi' Hrun' Hn), !app_nil_r in Ho.
  split_and!; [done|congruence| |done].
  rewrite <- Hsub, Ho, (i_runs _ _ Hi'), (asleep_not_running _ Ha). by rewrite app_nil_r.
Qed.

(** ** Shutdown *)

(** The flag is cleared, no worker is past the predicate and not yet asleep, and after
    [notify_all] none sleeps. *)
Definition shutdown_seen (s : state) : Prop :=
  isRunning s = false /\ Forall (fun w => w <> WBlock) (workers s) /\
  (shut s <> CNotify -> Forall (fun w => w <> WAsleep) (workers s)).

Lemma shutdown_seen_step s s' : shutdown_seen s -> step s s' -> shutdown_seen s'.
Proof.
  intros (Hr & Hb & Ha) [Hs|Hs].
  - destruct (worked_frame _ _ Hs) as (_ & Hr' & Hs'). split_and!; [congruence| |].
    + inversion Hs; subst; simpl; try (apply Forall_insert; done); [congruence|done].
    + rewrite Hs'. intros Hn. specialize (Ha Hn).
      inversion Hs as [| | | | |i ? Hw| | | | | | | |]; subst; simpl; try (apply Forall_insert; done);
        [|done]. by rewrite Forall_lookup in Hb; apply Hb in Hw.
  - inversion Hs; subst; split_and!; simpl; try done.
    + apply Forall_map. eapply Forall_impl; [exact Hb|]. by intros [].
    + intros _. apply Forall_map, Forall_true. by intros [].
    + intros _. apply Ha. congruence.
    + intros _. apply Ha. congruence.
    + by apply Forall_insert.
    + intros Hn. apply Forall_insert; [by apply Ha|done].
Qed.

(** A shutdown that finds no worker between the predicate and the sleep ends: the workers
    take a bounded number of steps, and where they stop all have returned, which is what
    [join] waits for. *)
Theorem shutdown_returns n s s1 s2 :
  rtc step (new_pool n) s -> shut s = CIdle -> Forall (fun w => w <> WBlock) (workers s) ->
  use s s1 -> shut s1 = CNotify -> rtc step s1 s2 -> shut s2 = CJoin ->
  (forall k s', nsteps worked k s2 s' -> Z.of_nat k <= potential s2) /\
  ((forall o, ~ work s2 o) -> Forall (eq WReturned) (workers s2)).
Proof.
  intros Hr Hc Hb Hu Hc1 Hr2 Hc2. split.
  - intros k s'. apply (worked_bounded n), pool_inv_reachable.
    etrans; [exact Hr|]. eapply rtc_l; [by right|done].
  - intros Hst. destruct (stuck_workers _ Hst) as [Hrest _].
    assert (Hs1 : shutdown_seen s1) by (inversion Hu; subst; simpl in *; congruence || split_and!; done).
    pose proof (rtc_invariant step _ shutdown_seen_step _ _ Hr2 Hs1) as (_ & _ & Ha).
    specialize (Ha ltac:(congruence)). rewrite Forall_forall in Ha, Hrest |- *. intros w Hw.
    specialize (Ha w Hw). by destruct (Hrest w Hw).
Qed.

(** The flag is cleared without the mutex.  When that and [notify_all] fall between a
    worker's evaluation of the predicate and its sleep, nobody wakes the worker and
    [shutdown] waits in [join]: only a spurious wake-up or another [submit] is left. *)
Theorem shutdown_lost_wakeup :
  exists s, rtc step (new_pool 1) s /\ shut s = CJoin /\ workers s = [WAsleep] /\
    (forall o, ~ work s o) /\
    (forall s', use s s' -> s' = set_worker 0 WWoken s \/ exists t, submitted s' = submitted s ++ [t]).
Proof.
  exists (mkState [WAsleep] [] false 0 CJoin [] [] [] []). split_and!; try done.
  - eapply rtc_l; [left; by apply (while_true 0)|].
    eapply rtc_l; [left; apply (acquire 0 WAcquire); by try left|].
    eapply rtc_l; [left; by apply (predicate_false 0)|].
    eapply rtc_l; [right; apply shutdown_store; by left|].
    eapply rtc_l; [right; by apply shutdown_notify_all|].
    apply rtc_once. left. by apply (block 0).
  - intros o Ho. inversion Ho; subst; simpl in *; try lia;
      repeat match goal with
             | H : [_] !! ?i = Some _ |- _ => destruct i as [|[|?]]; simplify_eq/=
             | H : _ \/ _ |- _ => destruct H; simplify_eq/=
             end.
  - intros s' Hu. inversion Hu; subst; simpl in *; try done; [right; by eexists|naive_solver|..].
    + by match goal with H : Forall _ _ |- _ => inversion H end.
    + left. destruct i as [|[|?]]; by simplify_eq/=.
Qed.

End Pool.
End ThreadPool.

(** ** A run *)

Module ThreadPoolRun.
Import ThreadPool.

Definition calm (t : nat) : bool := false.

(** Two workers, and a task pushed but not yet announced. *)
Definition one_task : state := mkState [WWhile; WWhile] [7%nat] true 1 CIdle [7%nat] [] [] [].

Lemma thread_pool_runs_every_task_witness :
  (forall k s', nsteps (worked calm) k one_task s' -> Z.of_nat k <= 29) /\
  (forall s', rtc (worked calm) one_task s' -> (forall s2, ~ worked calm s' s2) ->
     tasks s' = [] /\ started s' = [7%nat] /\ finished s' ≡ₚ [7%nat] /\
     Forall (eq WAsleep) (workers s')).
Proof.
  apply (thread_pool_runs_every_task calm 2 one_task); [lia| |done|done].
  apply rtc_once. right. by apply (submit 7%nat).
Defined.

End ThreadPoolRun.
